(* ===== verification/_CoqProject ===== *)
-Q . S2P
Prelude.v
Byteswap.v
Boost.v
TraceInfo.v
Serialization.v
Network.v
Response.v
Reserve.v
Storage.v
LevelDB.v
Session.v
NetworkStorage.v
Disconnect.v
Unwinder.v
Engine.v
Lifetime.v
System.v
Hooks.v
Interleaving.v
Log.v
Signals.v
Sharing.v
Atomic.v
SpinLock.v
Futex.v
StaticBuf.v
Thread.v
Monitor.v
Interrupt.v
Singleton.v
Memview.v
Glibc.v
ElfInjection.v
Loader.v
Exports.v
Creators.v
Racing.v
Server.v
Pool.v
CommandLine.v
Leaks.v
Served.v
Watched.v
