(* ===== verification/Prelude.v ===== *)
(** * memhook: a verification library

    memhook records the heap allocations of a running program.  A library,
    preloaded into the program, replaces the allocation functions of the C
    library.  Each replacement calls the original and tells an engine, which
    captures the call stack, keeps young records in a cache and moves older
    ones to a database.  The database is a container in shared memory or in
    a mapped file, or a server process that keeps such containers for its
    clients and is reached over TCP.  A viewer prints the records that are
    left, which are the allocations that were not freed.

    ** The files, and the code they model

    Paths are relative to the repository; [include] stands for
    include/memhook, [memhook], [memhookcore], [memdb] and [memview] for the
    directories of these names under src.

    - Prelude: integers at their width ([wrap], [swrap]), byte strings, tactics
      and lemmas that are not about the program.
    - Byteswap: [include]/byteswap.h.
    - Boost: the interfaces of the Boost containers and buffers the program is
      written against, as classes of operations with classes of laws, and
      reference instances that meet the laws.
    - TraceInfo: [include]/callstack.h and traceinfo.h, frames and records.
    - Serialization: [include]/serialization.h.  Writers are actions on a
      memory block and a cursor, readers functions of them that fail when
      they leave the block; [Codec] relates both to an encoding.
    - Network: [include]/network.h, requests and their fields in order.
      Response: the response of the same file, and the overloads of
      serialization.h that only it needs.  Reserve: the room that readers
      reserve in containers.
    - Storage: [include]/mapped_storage.h, mapping_traits.h,
      [memhookcore]/basic_mapped_storage.h.  The class [MappedStorage] is the
      C++ base class, [StorageLaws] what a database promises: it keeps a map
      from addresses to records.
    - LevelDB: [memhookcore]/leveldb_storage.cpp, a storage that is unfinished.
    - Session: [memdb]/memdb_session.cpp, the server's side of a connection as
      a state machine, with the network as a step relation.
    - NetworkStorage: [memhookcore]/network_mapped_storage.cpp, the client,
      which is an instance of [StorageLaws] by way of the server.
    - Disconnect: both sides of a connection that breaks.
    - Unwinder: [memhook]/callstack_unwinder.cpp, the cache of names and the
      capture of call stacks.
    - Engine: [memhook]/engine.cpp, over any [StorageLaws].
    - Lifetime: [MemHook_InitHelper] of [memhook]/memhook.cpp, the engine from
      its creation to its end in a process.
    - System: the engine with the network client and the server, end to end.
    - Hooks: [memhook]/memhook.cpp and no_hook.h, over any [Tracer]; the engine
      is one.  The functions of the C library are a record of parameters.
    - Interleaving: the same functions cut into the operations that are atomic
      (a call of the C library, an operation of the engine), and any number
      of threads that run them and hand blocks to each other.
    - Log: [memhook]/log.cpp and check.h, the buffer of a log message.
    - Signals: [memhookcore]/scoped_signal.cpp and scoped_signal_lock.cpp,
      [memview]/interprocess_scoped_lock.cpp.
    - Sharing: the operations of basic_mapped_storage.h and the views as
      sequences of writes and looks under the interprocess mutex, by the
      threads of any number of processes, which signals can end.
    - Atomic, SpinLock: [memhook]/atomic-asm-x86.h and atomic-gcc.h,
      spin_lock.h, spin_lock.cpp.  Futex: the waiting and waking of the spin
      lock, a refinement of [SpinLock].
    - StaticBuf: [memhook]/static_buf_alloc.cpp.
    - Thread: [memhook]/thread.h and thread.cpp: scoped locks, time arithmetic,
      timed waits.
    - Monitor: the mutexes and condition variables of the same files, used by
      any number of threads.
    - Interrupt: the rest of these files: threads, the functions bound to them,
      and the interruption of a sleeping thread.
    - Singleton: [memhook]/singleton.h, the reference count of the engine.
    - Memview: [memview], the filters, both views with their factories, the
      interrupt flag, and main after the command line.
    - Glibc: [memhook]/glibc.cpp, symbol lookup in the linker's tables.
    - ElfInjection: [memhook]/elf_injection.cpp, on a memory with page
      protections.
    - Loader: [memhook]/dl_functions.cpp and the hooks of dlsym and dlvsym, on
      top of [Glibc] and [StaticBuf].
    - Exports: the exported symbols, and the functions that are passed on
      untraced, on top of [Loader].
    - Creators: [memhookcore]/file_based_mapped_storage_helpers.cpp,
      basic_mapped_storage_creator.h and the two factories, on a file system
      and the names of shared memory.  Racing: the same operations by
      sessions that create their databases at the same time.
    - Server: [memdb]/memdb_server.cpp and memdb.cpp, many sessions, with a
      handler as one step.  Pool: the same with the threads that run the
      handlers, a refinement of [Server].
    - CommandLine: the option tables and the command lines of memview.cpp and
      memdb.cpp, [include]/chrono_utils.h, both programs from their arguments.
    - Leaks: a traced program with a database on its machine and the viewer
      that reads it, end to end: [Engine], [Creators], [Storage], [Memview].
    - Served: the clients of a server that keeps their databases in files, and
      the viewer on those files: [NetworkStorage], [Session], [Creators],
      [Storage], [Memview].
    - Watched: a viewer on the database of a program that is running:
      [Engine] and [Sharing].

    Each file has a module of its own name with the definitions, the lemmas,
    the properties and, at the end, examples on concrete data that the
    properties are applied to.  Definitions keep the names of the code.

    ** What is proved

    - Recording.  [Hooks.program_is_recorded]: a traced program computes what
      it computes without tracing, and every call of it is reported, in
      order, and no call of the tracer itself.
      [Engine.engine_tracks_allocations]: the cache and the database together
      hold the live allocations, at every moment.
      [System.traced_program_is_recorded] puts the engine, the client, the
      network and the server together, and [Leaks.viewer_lists_leaks] the
      engine, a database file and the viewer: after the program has ended the
      viewer lists exactly the allocations that were not freed and pass the
      filters.  [Served.served_clients_are_viewable] is the same for the
      clients of a server with file databases, however their requests are cut
      into pieces.  [Leaks.shared_memory_lasts_for_the_run]: a database in shared
      memory can be viewed during the run only.  [Storage.storage_refines_map],
      [NetworkStorage.remote_database_is_local],
      [Engine.shutdown_stores_allocations] and
      [Engine.flush_is_bounded_and_oldest_first] are the parts of it.
      [Lifetime.lifetime_is_recorded]: calls before the engine exists and
      after its end make no difference.
    - Threads.  [Interleaving.threads_are_recorded]: for any number of threads
      and any interleaving of their calls of malloc, calloc, the aligned
      allocation functions, new, free and delete, the blocks the program owns
      are recorded as they were allocated at every moment and the tracer's
      own blocks never are.  realloc, munmap and mremap, which release a block
      before they tell the engine, are left out of it
      ([Interleaving.racing_realloc_loses_record]), and the functions that
      record failed calls;
      [Interleaving.uninterrupted_call]: a call that is not interrupted does
      what [Hooks] says.
    - Protocol.  [Session.session_reassembles] and [Session.session_serves_all]:
      the server handles the requests of a client in order however the
      network cuts the stream, and all of them in the end;
      [Session.parsing_terminates] on every input;
      [NetworkStorage.send_roundtrip] for single messages;
      [Network.read_request_is_typed]: whatever bytes arrive, what is read as a
      request is one, and its members are in their ranges.
      [Disconnect.lost_connection_keeps_prefix]: a connection that breaks
      anywhere leaves the database of a prefix of the updates.
      [Server.server_serves_clients]: the sessions of a server do not disturb
      each other; [Pool.pool_refines_server]: so it is with several threads,
      which never run handlers of the same session together, and
      [Pool.stopped_server_ends]: after a signal all threads return and the
      server ends.  [Creators.file_databases_are_separate]: each of them has a
      file of its own, and [Racing.racing_sessions_keep_files]: so it is for
      sessions at the same time, unless they choose the same name.
      [Response.response_is_written] for the message the code never sends;
      [Reserve.reserved_room_is_enough] for the containers that are read into.
    - Sharing.  [Sharing.shared_database_is_consistent]: what programs and
      viewers find under the interprocess mutex are whole operations, whatever
      is killed when; [Sharing.signals_do_not_hold_database]: in programs with
      one thread the blocked signals keep the mutex from being held forever,
      and [Sharing.terminated_program_holds_database]: with more threads they
      do not.  [Watched.running_program_is_watched]: what a viewer sees of a
      running program, also in the middle of a flush, are blocks that are
      live, and the missing ones are in the cache of the program.
    - Names.  [Unwinder.unwinder_cache_is_lru], [Unwinder.capture_spec],
      [Unwinder.unwinder_lives_between] and [Storage.frames_are_named].
    - Viewing.  [Memview.simple_view_prints_selection],
      [Memview.aggregated_view_prints_groups], [Memview.flags_refine_settings],
      [Memview.interrupted_view_stops];
      [CommandLine.viewer_does_what_is_asked]: from the arguments to the
      output; [CommandLine.server_has_all_options].
    - Concurrency and start-up.  [SpinLock.mutual_exclusion],
      [SpinLock.free_lock_is_taken], [Futex.no_wakeup_is_lost],
      [Singleton.instance_is_safe],
      [Thread.scoped_locks_are_balanced], [Monitor.waits_are_transparent],
      [Interrupt.interruption_ends_sleep],
      [Signals.scopes_restore_signals], [Atomic.implementations_agree],
      [StaticBuf.blocks_are_disjoint], [Glibc.next_definition_is_found],
      [Loader.initialization_completes] although the linker allocates memory
      meanwhile, [Exports.untraced_functions_are_passed_on],
      [ElfInjection.injection_patches_all_slots], [Log.log_stays_in_buffer].
    - Faults.  Theorems that state what the code does where it does not do
      what it is meant to: a failing realloc loses a record, failing mmap and
      posix_memalign make one, a request the server does not know ends the
      session, an update before the opening request and a frame with a wrong
      size are invalid memory accesses, one client can stop the server,
      databases in shared memory replace each other, and so do those in files
      of sessions that start at the same time, a program takes the database
      of the traced program that has started it
      ([Leaks.child_program_takes_database]), a program that is terminated
      keeps the database locked, a realloc that races
      with another thread loses a record, a signal scope lets blocked signals
      through, [SleepFor] does not sleep, and others.

    ** Choices

    - The target is x86-64 Linux with GCC and the optional C library functions
      present: pointers and [size_t] have 64 bits, bytes are stored with the
      low one first.  Time points are counts of nanoseconds.
    - Code that runs under a mutex is one step.  The spin lock, the singleton,
      the mutexes, the sharing of a database, the racing sessions and the
      threads of the server, which are about interleaving, are step relations
      between single operations, with sequentially consistent memory.
    - A C++ pointer that may be null is an option; an operation that is
      undefined in C++ has no result ([None], or the fault it is).
    - Fuel.  The two parsers of a session call each other, with as much fuel as
      there are bytes in the buffer and one more: every call but the last
      consumes one, so it never runs out ([Session.parsing_terminates]).  The
      walks through hash tables have as much fuel as the table has entries,
      which is enough for a table without cycles.  The loops of operator new
      and of the sleeping functions run as long as the new-handler and the
      condition variable make them; their theorems say for which fuel they
      return.  The search for an unused file name ends after as many names as
      there are files, plus one.  The initialization of the function table may
      be entered again by the calls it makes; one level is enough, since the
      table is not empty then ([Loader.initialization_completes]).
    - Boost, libunwind, dladdr, the C library's allocator and the dynamic
      linker are parameters.  Theorems that rely on them name what they rely
      on as laws or hypotheses, which hold of the reference instances.

    ** What is not modelled

    The formatting of printed lines, and what is inside of Boost.Asio,
    Boost.Program_options, Boost.Chrono's stream operators, libunwind and
    LevelDB, which are parameters.  The messages of usage,
    and the fields of the linker's objects that the lookup does not read.  A
    session's handler is one step of its thread but for taking it and starting
    the next operation; the creation of a database inside of it is cut into
    its own steps in [Racing] only.  The memory model is sequentially
    consistent. *)
From stdpp Require Export base gmap list list_numbers numbers strings sorting.
From Stdlib Require Export Lia.

Declare Scope memhook_scope.
Delimit Scope memhook_scope with memhook.
#[global] Open Scope Z_scope.

(** ** Machine integers

    Integers are elements of [Z]; the width appears where the C++ type has
    one.  [wrap w] is the conversion to an unsigned type of [w] bits and
    [swrap w] the conversion to a signed type of [w] bits. *)

Definition wrap (w z : Z) : Z := z `mod` 2 ^ w.
Definition swrap (w z : Z) : Z := (z + 2 ^ (w - 1)) `mod` 2 ^ w - 2 ^ (w - 1).

Abbreviation u8 := (wrap 8).
Abbreviation u16 := (wrap 16).
Abbreviation u32 := (wrap 32).
Abbreviation u64 := (wrap 64).
Abbreviation i32 := (swrap 32).
Abbreviation i64 := (swrap 64).

Definition in_u (w z : Z) : Prop := 0 ≤ z < 2 ^ w.
Definition in_s (w z : Z) : Prop := - 2 ^ (w - 1) ≤ z < 2 ^ (w - 1).

#[export] Instance in_u_dec w z : Decision (in_u w z).
Proof. unfold in_u; apply _. Defined.
#[export] Instance in_s_dec w z : Decision (in_s w z).
Proof. unfold in_s; apply _. Defined.

(** Byte strings: a byte is an element of [Z] in [0, 255]. *)
Abbreviation bytes := (list Z).
Abbreviation byte_ok := (in_u 8).

(** The representation of the low [n] bytes of [z], least significant byte
    first, and its inverse. *)
Fixpoint le_split (n : nat) (z : Z) : bytes :=
  match n with
  | O => []
  | S n => u8 z :: le_split n (Z.shiftr z 8)
  end.

Fixpoint le_combine (l : bytes) : Z :=
  match l with
  | [] => 0
  | b :: l => b + Z.shiftl (le_combine l) 8
  end.

(** [take_while p l] is the longest prefix of [l] whose elements satisfy
    [p]. *)
Fixpoint take_while {A} (p : A → bool) (l : list A) : list A :=
  match l with
  | [] => []
  | x :: l => if p x then x :: take_while p l else []
  end.

(** ** Automation *)

Create HintDb memhook discriminated.

(** Turn boolean tests on [Z] into propositions. *)
Ltac zify_bool :=
  repeat match goal with
  | H : (_ && _)%bool = true |- _ => apply andb_true_iff in H as [? ?]
  | H : (_ <? _) = true |- _ => apply Z.ltb_lt in H
  | H : (_ <? _) = false |- _ => apply Z.ltb_ge in H
  | H : (_ <=? _) = true |- _ => apply Z.leb_le in H
  | H : (_ <=? _) = false |- _ => apply Z.leb_gt in H
  | H : (_ =? _) = true |- _ => apply Z.eqb_eq in H
  | H : (_ =? _) = false |- _ => apply Z.eqb_neq in H
  | H : bool_decide _ = true |- _ => apply bool_decide_eq_true in H
  | H : bool_decide _ = false |- _ => apply bool_decide_eq_false in H
  end.

(** Close a range goal by computing the powers of two. *)
Ltac range :=
  unfold in_u, in_s in *;
  repeat match goal with
  | |- context [2 ^ ?n] =>
      let v := eval vm_compute in (2 ^ n) in change (2 ^ n) with v
  | H : context [2 ^ ?n] |- _ =>
      let v := eval vm_compute in (2 ^ n) in change (2 ^ n) with v in H
  end; lia.

(** Close a decidable goal on concrete data by evaluation. *)
Ltac by_decide := apply (bool_decide_unpack _); vm_compute; exact I.

(** ** Lemmas on machine integers *)

Lemma wrap_in_u w z : 0 ≤ w → in_u w (wrap w z).
Proof. intros. apply Z.mod_pos_bound, Z.pow_pos_nonneg; lia. Qed.

Lemma wrap_small w z : in_u w z → wrap w z = z.
Proof. intros. by apply Z.mod_small. Qed.

Lemma swrap_small w z : 0 < w → in_s w z → swrap w z = z.
Proof.
  intros Hw Hz. unfold swrap, in_s in *.
  assert (2 ^ w = 2 * 2 ^ (w - 1)) as Hp.
  { rewrite <- Z.pow_succ_r by lia. f_equal; lia. }
  rewrite Z.mod_small; lia.
Qed.

Lemma swrap_in_s w z : 0 < w → in_s w (swrap w z).
Proof.
  intros Hw. unfold swrap, in_s.
  assert (2 ^ w = 2 * 2 ^ (w - 1)) as Hp.
  { rewrite <- Z.pow_succ_r by lia. f_equal; lia. }
  pose proof (Z.mod_pos_bound (z + 2 ^ (w - 1)) (2 ^ w)).
  assert (0 < 2 ^ w) by (apply Z.pow_pos_nonneg; lia). lia.
Qed.

(** Reading a signed integer back from its unsigned representation. *)
Lemma swrap_wrap w z : 0 < w → swrap w (wrap w z) = swrap w z.
Proof. intros. unfold swrap, wrap. by rewrite Zplus_mod_idemp_l. Qed.

Lemma swrap_wrap_small w z : 0 < w → in_s w z → swrap w (wrap w z) = z.
Proof. intros. rewrite swrap_wrap by done. by apply swrap_small. Qed.

#[export] Hint Resolve wrap_in_u wrap_small : memhook.

(** ** Lemmas on byte representations *)

Lemma length_le_split n z : length (le_split n z) = n.
Proof. revert z; induction n; simpl; auto. Qed.

Lemma le_split_ok n z : Forall byte_ok (le_split n z).
Proof. revert z; induction n; simpl; constructor; auto. by apply wrap_in_u. Qed.

Lemma le_combine_split n z :
  le_combine (le_split n z) = wrap (8 * Z.of_nat n) z.
Proof.
  revert z; induction n as [|n IH]; intros z; cbn [le_split le_combine].
  { unfold wrap. by rewrite Z.mod_1_r. }
  rewrite IH. unfold wrap.
  rewrite Z.shiftr_div_pow2, Z.shiftl_mul_pow2 by lia.
  replace (8 * Z.of_nat (S n)) with (8 + 8 * Z.of_nat n) by lia.
  rewrite Z.pow_add_r by lia.
  rewrite Z.rem_mul_r by (try apply Z.pow_nonzero; lia). lia.
Qed.

Lemma le_combine_bound l :
  Forall byte_ok l → in_u (8 * Z.of_nat (length l)) (le_combine l).
Proof.
  induction 1 as [|b l Hb Hl IH]; cbn [length le_combine].
  { by range. }
  unfold in_u in *. rewrite Z.shiftl_mul_pow2 by lia.
  replace (8 * Z.of_nat (S (length l))) with (8 + 8 * Z.of_nat (length l)) by lia.
  rewrite Z.pow_add_r by lia.
  pose proof (Z.pow_pos_nonneg 2 (8 * Z.of_nat (length l))).
  change (2 ^ 8) with 256 in *. nia.
Qed.

Lemma le_split_combine l :
  Forall byte_ok l → le_split (length l) (le_combine l) = l.
Proof.
  induction 1 as [|b l Hb Hl IH]; cbn [length le_combine le_split]; [done|].
  unfold in_u in Hb. rewrite Z.shiftl_mul_pow2 by lia. f_equal.
  - unfold wrap. by rewrite Z.mod_add, Z.mod_small.
  - rewrite Z.shiftr_div_pow2, Z.div_add, Z.div_small by lia. apply IH.
Qed.

(** Only the low bytes are represented. *)
Lemma le_split_wrap n z : le_split n (wrap (8 * Z.of_nat n) z) = le_split n z.
Proof.
  rewrite <- (le_split_combine (le_split n z)) by apply le_split_ok.
  by rewrite length_le_split, le_combine_split.
Qed.

#[export] Hint Resolve le_split_ok : memhook.

(** ** Lemmas on lists *)

Lemma take_while_prefix {A} (p : A → bool) l :
  ∃ l', l = take_while p l ++ l'.
Proof.
  induction l as [|x l [l' IH]]; simpl; [by exists []|].
  destruct (p x); [|by eexists]. exists l'. simpl. by rewrite <- IH.
Qed.

Lemma take_while_Forall {A} (p : A → bool) l :
  Forall (λ x, p x = true) (take_while p l).
Proof. induction l as [|x l IH]; simpl; [done|]. destruct (p x) eqn:?; auto. Qed.

Lemma take_app_le {A} (l k : list A) n :
  (n ≤ length l)%nat → take n (l ++ k) = take n l.
Proof. intros. rewrite take_app. replace (n - length l)%nat with O by lia. by rewrite app_nil_r. Qed.

Lemma app_prefix {A} (a b c d : list A) :
  a ++ b = c ++ d → (length c ≤ length a)%nat → ∃ e, a = c ++ e ∧ e ++ b = d.
Proof.
  intros Heq Hl. apply app_eq_inv in Heq as [(k & -> & ->)|(k & -> & ->)]; [by eauto|].
  rewrite length_app in Hl. assert (k = []) as -> by (destruct k; simpl in *; [done|lia]).
  exists []. by rewrite !app_nil_r.
Qed.

Lemma filter_fmap {A B} (f : A → B) (P : B → Prop) `{∀ x, Decision (P x)} (l : list A) :
  filter P (f <$> l) = f <$> filter (λ x, P (f x)) l.
Proof.
  induction l as [|x l IH]; csimpl; [done|]. rewrite !filter_cons.
  case_decide; csimpl; by rewrite IH.
Qed.

Lemma filter_all {A} (P : A → Prop) `{∀ x, Decision (P x)} (l : list A) : Forall P l → filter P l = l.
Proof. induction 1; [done|]. rewrite filter_cons_True by done. by f_equal. Qed.

(** Truncating to the [n] first elements before or after another element
    moves to the front makes no difference to the [n] first. *)
Lemma take_move_front n (x : Z) (l : list Z) :
  NoDup l →
  take n (x :: filter (λ y, y ≠ x) (take n l)) = take n (x :: filter (λ y, y ≠ x) l).
Proof.
  destruct n as [|n]; [done|]. intros Hl. rewrite !firstn_cons. f_equal.
  revert n; induction Hl as [|y l Hy Hl IH]; intros n; [done|]. rewrite firstn_cons.
  destruct (decide (y = x)) as [->|Hne].
  - rewrite !filter_cons_False by auto.
    rewrite !filter_all; [by rewrite take_take, Nat.min_id|..];
      apply Forall_forall; intros z Hz ->; [done|].
    apply Hy. by eapply elem_of_take in Hz as (? & ? & _); eapply list_elem_of_lookup_2.
  - rewrite !filter_cons_True by done. destruct n as [|n]; [done|].
    rewrite !firstn_cons. f_equal. apply IH.
Qed.

Lemma Forall_sublist {A} (P : A → Prop) l k : l `sublist_of` k → Forall P k → Forall P l.
Proof. rewrite !Forall_forall. intros Hlk Hk x Hx. apply Hk. by eapply elem_of_sublist. Qed.

Lemma StronglySorted_sublist {A} (R : relation A) l k :
  l `sublist_of` k → StronglySorted R k → StronglySorted R l.
Proof.
  induction 1 as [|x l k Hlk IH|x l k Hlk IH]; [done|..]; inversion_clear 1; [|by auto].
  constructor; [by auto|]. by eapply Forall_sublist.
Qed.

Lemma foldr_add_base m q : foldr Z.add m q = foldr Z.add 0 q + m.
Proof. induction q as [|y q IH]; simpl; lia. Qed.

Lemma leb_decide a b : (a <=? b) = bool_decide (a ≤ b).
Proof. apply eq_true_iff_eq. by rewrite Z.leb_le, bool_decide_eq_true. Qed.
