(* ===== verification/Byteswap.v ===== *)
(** * Byte order conversion

    The functions of include/memhook/byteswap.h on a little-endian host
    ([SYSTEM_BIG_ENDIAN] undefined): [hton] and [ntoh] of each width, the
    compiler's byte-swap built-ins they expand to, and the 16-bit fallback
    the header defines itself. *)
From S2P Require Import Prelude.

Module Byteswap.

(** [__builtin_bswap16/32/64]: the bytes of the value in reverse order. *)
Definition bswap (n : nat) (x : Z) : Z := le_combine (rev (le_split n x)).

(** The 16-bit fallback: [(a << 8) | (a >> 8)] converted to [uint16_t]. *)
Definition builtin_bswap16 (val : Z) : Z :=
  u16 (Z.lor (Z.shiftl val 8) (Z.shiftr val 8)).

Definition hton_16 (x : Z) : Z := bswap 2 x.
Definition ntoh_16 (x : Z) : Z := bswap 2 x.
Definition hton_32 (x : Z) : Z := bswap 4 x.
Definition ntoh_32 (x : Z) : Z := bswap 4 x.
Definition hton_64 (x : Z) : Z := bswap 8 x.
Definition ntoh_64 (x : Z) : Z := bswap 8 x.

Lemma bswap_in_u n x : in_u (8 * Z.of_nat n) (bswap n x).
Proof.
  unfold bswap. pose proof (le_combine_bound (rev (le_split n x))) as H.
  rewrite length_rev, length_le_split in H.
  apply H, Forall_rev, le_split_ok.
Qed.

(** The bytes of a swapped value in memory are the big-endian bytes of the
    value. *)
Lemma le_split_bswap n x : le_split n (bswap n x) = rev (le_split n x).
Proof.
  unfold bswap.
  rewrite <- (le_split_combine (rev (le_split n x))) at 2
    by apply Forall_rev, le_split_ok.
  by rewrite length_rev, length_le_split.
Qed.

Lemma bswap_bswap n x : bswap n (bswap n x) = wrap (8 * Z.of_nat n) x.
Proof.
  unfold bswap at 1. by rewrite le_split_bswap, rev_involutive, le_combine_split.
Qed.

End Byteswap.
