(* ===== verification/Boost.v ===== *)
(** * Interfaces of the Boost containers the program is written against

    Boost is not part of the repository, so what the code uses of it is an
    interface: a class of operations and a class with the laws the Boost
    documentation states of them.  The components are defined over the
    operations, their theorems use the laws, and the reference instances at
    the end of the file show that the laws can be met together.

    - [AsioBuffer]: [boost::asio::buffer_copy], [operator+] on buffers, and
      [prepare] and [consume] of [boost::asio::streambuf].
    - [MultiIndex]: [boost::multi_index_container] with a unique first index
      and ordered further indices.
    - [SeqIndex]: [boost::multi_index_container] with a unique first index
      and a sequenced second index. *)
From S2P Require Import Prelude.

(** ** Asio buffers *)

(** A buffer designates [buf_size] bytes of a memory block, from offset
    [buf_data] on. *)
Record buffer := Buffer { buf_data : nat; buf_size : nat }.

Class AsioBuffer := {
  (** [b + n] *)
  buffer_plus : buffer → nat → buffer;
  (** [buffer_copy (target, source)], on the block [target] points into *)
  buffer_copy : bytes → buffer → bytes → bytes;
  (** [sbuf.prepare (n)]: a block to be filled, with the contents it happens
      to have *)
  streambuf_prepare : nat → bytes;
  (** [sbuf.consume (n)], on the bytes readable through [sbuf.data ()] *)
  streambuf_consume : bytes → nat → bytes;
}.

(** The memory block after [bs] was stored at offset [off]. *)
Definition write_at (off : nat) (bs mem : bytes) : bytes :=
  take off mem ++ bs ++ drop (off + length bs) mem.

(** [operator+] clamps at the end of the buffer; [buffer_copy] copies as many
    bytes as the smaller of the two buffers holds; [prepare] returns a
    block of the size asked for and [consume] removes bytes from the front. *)
Class AsioBufferLaws `{AsioBuffer} : Prop := {
  buffer_plus_spec b n :
    buffer_plus b n =
      Buffer (buf_data b + n `min` buf_size b) (buf_size b - n `min` buf_size b);
  buffer_copy_spec mem b src :
    (buf_data b + buf_size b ≤ length mem)%nat →
    buffer_copy mem b src = write_at (buf_data b) (take (buf_size b) src) mem;
  streambuf_prepare_spec n : length (streambuf_prepare n) = n;
  streambuf_consume_spec sbuf n : streambuf_consume sbuf n = drop n sbuf;
}.

(** ** Multi-index containers with ordered indices *)

(** The order of an index whose key is [f]. *)
Definition by_key {E} (f : E → Z) (a b : E) : Prop := f a ≤ f b.

#[export] Instance by_key_dec {E} (f : E → Z) : RelDecision (by_key f).
Proof. intros a b. unfold by_key. apply _. Defined.
#[export] Instance by_key_trans {E} (f : E → Z) : Transitive (by_key f).
Proof. intros a b c. unfold by_key. lia. Qed.
#[export] Instance by_key_total {E} (f : E → Z) : Total (by_key f).
Proof. intros a b. unfold by_key. lia. Qed.

Class MultiIndex (C E K : Type) := {
  mi_empty : C;
  (** [get<0>(c).find (k)] *)
  mi_find : K → C → option E;
  (** [c.emplace (...)]; the flag is the [second] of the result *)
  mi_emplace : E → C → C * bool;
  (** [get<0>(c).erase (iter)] for the iterator of key [k] *)
  mi_erase : K → C → C;
  (** [get<0>(c).modify (iter, f)] for the iterator of key [k], and a write
      through that iterator to a member that is no index key *)
  mi_modify : K → (E → E) → C → C;
  (** [c.clear ()] *)
  mi_clear : C → C;
  (** the elements from [get<i>(c).begin ()] to [get<i>(c).end ()] *)
  mi_range : nat → C → list E;
}.

Class MultiIndexLaws (C E K : Type) `{Countable K, MultiIndex C E K}
    (key : E → K) (ord : list (E → Z)) : Prop := {
  mi_some_index : (0 < length ord)%nat;
  mi_find_key k c e : mi_find k c = Some e → key e = k;
  mi_find_empty k : mi_find k mi_empty = None;
  mi_find_clear k c : mi_find k (mi_clear c) = None;
  mi_emplace_dup e c : is_Some (mi_find (key e) c) → mi_emplace e c = (c, false);
  mi_emplace_new e c : mi_find (key e) c = None → (mi_emplace e c).2 = true;
  mi_find_emplace k e c :
    mi_find (key e) c = None →
    mi_find k (mi_emplace e c).1 = if decide (k = key e) then Some e else mi_find k c;
  mi_find_erase k k' c :
    mi_find k (mi_erase k' c) = if decide (k = k') then None else mi_find k c;
  mi_find_modify k k' f c :
    (∀ e, key (f e) = key e) →
    mi_find k (mi_modify k' f c) =
      if decide (k = k') then f <$> mi_find k c else mi_find k c;
  mi_range_elem i c e :
    (i < length ord)%nat → e ∈ mi_range i c ↔ mi_find (key e) c = Some e;
  mi_range_nodup i c : (i < length ord)%nat → NoDup (key <$> mi_range i c);
  mi_range_sorted i f c :
    ord !! i = Some f → Sorted (by_key f) (mi_range i c);
}.

(** The elements of a container by their unique key. *)
Definition mi_map {C E K} `{Countable K, MultiIndex C E K}
    (key : E → K) (c : C) : gmap K E :=
  list_to_map ((λ e, (key e, e)) <$> mi_range 0 c).

(** ** Multi-index containers with a sequenced index *)

Class SeqIndex (C E K : Type) := {
  si_empty : C;
  (** [c.find (k)] *)
  si_find : K → C → option E;
  (** [c.insert (c.end (), e)] *)
  si_insert : E → C → C;
  (** [get<1>(c).relocate (iter, get<1>(c).end ())] for the iterator of [k] *)
  si_relocate : K → C → C;
  (** [get<1>(c).erase (get<1>(c).begin ())]; undefined on an empty container *)
  si_pop_front : C → option C;
  (** [c.size ()] *)
  si_size : C → nat;
  (** [c.clear ()] *)
  si_clear : C → C;
  (** the elements from [get<1>(c).begin ()] to [get<1>(c).end ()] *)
  si_seq : C → list E;
}.

Class SeqIndexLaws (C E K : Type) `{EqDecision K, SeqIndex C E K}
    (key : E → K) : Prop := {
  si_nodup c : NoDup (key <$> si_seq c);
  si_seq_empty : si_seq si_empty = [];
  si_find_spec k c e : si_find k c = Some e ↔ e ∈ si_seq c ∧ key e = k;
  si_seq_insert e c :
    si_seq (si_insert e c) =
      match si_find (key e) c with Some _ => si_seq c | None => si_seq c ++ [e] end;
  si_seq_relocate k c e :
    si_find k c = Some e →
    si_seq (si_relocate k c) = filter (λ x, key x ≠ k) (si_seq c) ++ [e];
  si_seq_pop_front c : si_seq <$> si_pop_front c = (match si_seq c with [] => None | _ :: l => Some l end);
  si_size_spec c : si_size c = length (si_seq c);
  si_seq_clear c : si_seq (si_clear c) = [];
}.

(** ** Consequences of the laws *)

Section asio.
Context `{AsioBufferLaws}.

Lemma buffer_plus_0 b : buffer_plus b 0 = b.
Proof. rewrite buffer_plus_spec. destruct b; simpl. f_equal; lia. Qed.

Lemma buffer_plus_le b n :
  (n ≤ buf_size b)%nat →
  buffer_plus b n = Buffer (buf_data b + n) (buf_size b - n).
Proof. intros. rewrite buffer_plus_spec. f_equal; lia. Qed.

Lemma buffer_plus_plus b n m :
  buffer_plus (buffer_plus b n) m = buffer_plus b (n + m).
Proof. rewrite !buffer_plus_spec. simpl. f_equal; lia. Qed.

Lemma buffer_copy_fits mem b src :
  (buf_data b + buf_size b ≤ length mem)%nat → (length src ≤ buf_size b)%nat →
  buffer_copy mem b src = write_at (buf_data b) src mem.
Proof. intros. rewrite buffer_copy_spec by done. by rewrite take_ge. Qed.

End asio.

Lemma length_write_at off bs mem :
  (off + length bs ≤ length mem)%nat → length (write_at off bs mem) = length mem.
Proof. intros. unfold write_at. rewrite !length_app, length_take, length_drop. lia. Qed.

Lemma write_at_nil off mem : write_at off [] mem = mem.
Proof. unfold write_at. simpl. rewrite Nat.add_0_r. apply take_drop. Qed.

Lemma write_at_app off b1 b2 mem :
  (off + length b1 ≤ length mem)%nat →
  write_at (off + length b1) b2 (write_at off b1 mem) = write_at off (b1 ++ b2) mem.
Proof.
  intros. unfold write_at.
  rewrite (app_assoc (take off mem)), take_app_length'
    by (rewrite length_app, length_take; lia).
  assert (length (take off mem ++ b1) = off + length b1)%nat as Hl
    by (rewrite length_app, length_take; lia).
  rewrite (drop_app_ge (take off mem ++ b1)) by lia.
  rewrite Hl, drop_drop, length_app, <- !app_assoc. do 4 f_equal. lia.
Qed.

(** The block read back from where it was written. *)
Lemma drop_write_at off bs mem :
  (off + length bs ≤ length mem)%nat →
  drop off (write_at off bs mem) = bs ++ drop (off + length bs) mem.
Proof.
  intros. unfold write_at. rewrite drop_app_ge by (rewrite length_take; lia).
  rewrite length_take. replace (off - off `min` length mem)%nat with O by lia. done.
Qed.

Section multi_index.
Context {C E K : Type} `{Countable K, !MultiIndex C E K}.
Context {key : E → K} {ord : list (E → Z)} {L : MultiIndexLaws C E K key ord}.

Lemma mi_map_lookup c k : mi_map key c !! k = mi_find k c.
Proof.
  unfold mi_map. pose proof mi_some_index as H0.
  destruct (mi_find k c) as [e|] eqn:Hf.
  - pose proof (mi_find_key _ _ _ Hf) as <-.
    apply elem_of_list_to_map_1.
    + rewrite <- list_fmap_compose. by apply (mi_range_nodup 0 c).
    + apply list_elem_of_fmap. exists e. split; [done|]. by apply (mi_range_elem 0 c e).
  - apply not_elem_of_list_to_map_1. intros Hin.
    apply list_elem_of_fmap in Hin as [[k' e] [-> Hin]].
    apply list_elem_of_fmap in Hin as [e' [[= -> ->] Hin]].
    apply mi_range_elem in Hin; [|done]. simpl in *. congruence.
Qed.

Lemma mi_map_empty : mi_map key mi_empty = ∅.
Proof. apply map_eq; intros k. by rewrite mi_map_lookup, mi_find_empty, lookup_empty. Qed.

Lemma mi_map_clear c : mi_map key (mi_clear c) = ∅.
Proof. apply map_eq; intros k. by rewrite mi_map_lookup, mi_find_clear, lookup_empty. Qed.

Lemma mi_map_erase k c : mi_map key (mi_erase k c) = delete k (mi_map key c).
Proof.
  apply map_eq; intros i. rewrite mi_map_lookup, mi_find_erase, lookup_delete, mi_map_lookup.
  repeat case_decide; congruence.
Qed.

Lemma mi_map_modify k f c :
  (∀ e, key (f e) = key e) → mi_map key (mi_modify k f c) = alter f k (mi_map key c).
Proof.
  intros Hf. apply map_eq; intros i.
  rewrite mi_map_lookup, mi_find_modify, lookup_alter, !mi_map_lookup by done.
  repeat case_decide; congruence.
Qed.

(** [emplace] keeps an element that has the key already. *)
Lemma mi_map_emplace e c :
  mi_map key (mi_emplace e c).1 =
    match mi_find (key e) c with
    | Some _ => mi_map key c
    | None => <[key e := e]> (mi_map key c)
    end.
Proof.
  destruct (mi_find (key e) c) eqn:Hf.
  { rewrite mi_emplace_dup; [done|]. by eexists. }
  apply map_eq; intros i.
  rewrite mi_map_lookup, mi_find_emplace, lookup_insert, mi_map_lookup by done.
  repeat case_decide; congruence.
Qed.

Lemma mi_map_key c k e : mi_map key c !! k = Some e → key e = k.
Proof. rewrite mi_map_lookup. apply mi_find_key. Qed.

Lemma mi_range_lookup i c e :
  (i < length ord)%nat → e ∈ mi_range i c ↔ mi_map key c !! key e = Some e.
Proof. intros. rewrite mi_map_lookup. by apply mi_range_elem. Qed.

(** Erasing elements one by one. *)
Lemma mi_map_erase_all l c :
  mi_map key (foldr (λ e, mi_erase (key e)) c l) =
    filter (λ kv, kv.1 ∉ key <$> l) (mi_map key c).
Proof.
  induction l as [|e l IH]; simpl.
  { symmetry. apply map_filter_id. intros ??? Hin. by apply not_elem_of_nil in Hin. }
  rewrite mi_map_erase, IH. apply map_eq; intros k.
  apply option_eq; intros x.
  rewrite lookup_delete_Some, !map_lookup_filter_Some. simpl.
  rewrite not_elem_of_cons. split; intros; destruct_and?; split_and?; auto.
Qed.

End multi_index.

(** ** Reference instances *)

Definition ref_buffer_plus (b : buffer) (n : nat) : buffer :=
  Buffer (buf_data b + n `min` buf_size b) (buf_size b - n `min` buf_size b).

Definition ref_buffer_copy (mem : bytes) (b : buffer) (src : bytes) : bytes :=
  write_at (buf_data b) (take (buf_size b) src) mem.

#[export] Instance ref_asio : AsioBuffer :=
  { buffer_plus := ref_buffer_plus; buffer_copy := ref_buffer_copy;
    streambuf_prepare n := replicate n 0; streambuf_consume sbuf n := drop n sbuf }.
#[export] Instance ref_asio_laws : AsioBufferLaws.
Proof. split; try done. intros. apply length_replicate. Qed.

(** A multi-index container as the list of its elements, sorted on demand. *)
Module ListIndex.
Section list_index.
Context {E K : Type} `{Countable K}.
Context (key : E → K) (ord : list (E → Z)).

Record t := Make { elems : list E; elems_ok : bool_decide (NoDup (key <$> elems)) }.

Lemma nil_ok : bool_decide (NoDup (key <$> [])).
Proof. apply bool_decide_spec. constructor. Qed.

Definition of_list (l : list E) : t :=
  match decide (bool_decide (NoDup (key <$> l))) with
  | left H => Make l H
  | right _ => Make [] nil_ok
  end.

Definition find (k : K) (c : t) : option E :=
  snd <$> list_find (λ e, key e = k) (elems c).

Definition emplace (e : E) (c : t) : t * bool :=
  match find (key e) c with
  | Some _ => (c, false)
  | None => (of_list (e :: elems c), true)
  end.

Definition erase (k : K) (c : t) : t :=
  of_list (filter (λ e, key e ≠ k) (elems c)).

Definition modify (k : K) (f : E → E) (c : t) : t :=
  of_list ((λ e, if decide (key e = k) then f e else e) <$> elems c).

Definition range (i : nat) (c : t) : list E :=
  match ord !! i with
  | Some f => merge_sort (by_key f) (elems c)
  | None => elems c
  end.

#[export] Instance ops : MultiIndex t E K := {
  mi_empty := Make [] nil_ok;
  mi_find := find;
  mi_emplace := emplace;
  mi_erase := erase;
  mi_modify := modify;
  mi_clear _ := Make [] nil_ok;
  mi_range := range;
}.

Lemma elems_nodup c : NoDup (key <$> elems c).
Proof. apply (bool_decide_unpack _ (elems_ok c)). Qed.

Lemma elems_of_list l : NoDup (key <$> l) → elems (of_list l) = l.
Proof.
  intros. unfold of_list. destruct (decide _) as [|n]; [done|].
  exfalso. apply n. by apply bool_decide_spec.
Qed.

Lemma key_inj c e1 e2 : e1 ∈ elems c → e2 ∈ elems c → key e1 = key e2 → e1 = e2.
Proof.
  intros (i & Hi)%list_elem_of_lookup (j & Hj)%list_elem_of_lookup Hk.
  assert (i = j) as ->; [|congruence].
  eapply NoDup_lookup; [apply (elems_nodup c)| |].
  - by rewrite list_lookup_fmap, Hi.
  - rewrite list_lookup_fmap, Hj. simpl. by f_equal.
Qed.

Lemma find_spec k c e : find k c = Some e ↔ e ∈ elems c ∧ key e = k.
Proof.
  unfold find. split.
  - intros ([i x] & (? & ? & _)%list_find_Some & ->)%fmap_Some. simpl.
    split; [|done]. by eapply list_elem_of_lookup_2.
  - intros [Hin Hk]. destruct (list_find_elem_of (λ e, key e = k) (elems c) e) as [[i x] Hf]; [done..|].
    rewrite Hf. simpl. f_equal. apply list_find_Some in Hf as (Hi & Hx & _).
    eapply (key_inj c); [by eapply list_elem_of_lookup_2|done|congruence].
Qed.

Lemma find_None k c : find k c = None ↔ k ∉ key <$> elems c.
Proof.
  split.
  - intros Hf (e & -> & Hin)%list_elem_of_fmap.
    assert (find (key e) c = Some e) by (by apply find_spec). congruence.
  - intros Hn. destruct (find k c) as [e|] eqn:Hf; [|done].
    apply find_spec in Hf as [? <-]. destruct Hn. by apply list_elem_of_fmap_2.
Qed.

Lemma find_ext k c e : (∀ x, x ∈ elems c ∧ key x = k ↔ e = Some x) → find k c = e.
Proof.
  intros He. destruct e as [x|].
  - by apply find_spec, He.
  - destruct (find k c) eqn:Hf; [|done]. apply find_spec, He in Hf. done.
Qed.

Lemma elems_emplace e c : find (key e) c = None → elems (emplace e c).1 = e :: elems c.
Proof.
  intros Hf. unfold emplace. rewrite Hf. apply elems_of_list. simpl.
  constructor; [by apply find_None|apply elems_nodup].
Qed.

Lemma elems_erase k c : elems (erase k c) = filter (λ e, key e ≠ k) (elems c).
Proof.
  apply elems_of_list. eapply sublist_NoDup; [apply (elems_nodup c)|].
  apply fmap_sublist, sublist_filter.
Qed.

Lemma elems_modify k f c :
  (∀ e, key (f e) = key e) →
  elems (modify k f c) = (λ e, if decide (key e = k) then f e else e) <$> elems c.
Proof.
  intros Hf. apply elems_of_list. rewrite <- list_fmap_compose.
  rewrite (list_fmap_ext _ key); [apply elems_nodup|].
  intros i x _. simpl. by case_decide.
Qed.

Lemma laws : ord ≠ [] → MultiIndexLaws t E K key ord.
Proof.
  intros Hord. split.
  - by destruct ord; simpl; [|lia].
  - by intros k c e [??]%find_spec.
  - done.
  - done.
  - intros e c [x Hx]. cbn in *. unfold emplace. by rewrite Hx.
  - intros e c Hx. cbn in *. unfold emplace. by rewrite Hx.
  - intros k e c Hx. cbn in *. apply find_ext. intros x.
    rewrite elems_emplace, elem_of_cons by done. case_decide as Hk; subst.
    + apply find_None in Hx. split; [|intros [= ->]; auto].
      intros [[->|Hin] ?]; [done|]. destruct Hx. apply list_elem_of_fmap. eauto.
    + rewrite find_spec. naive_solver.
  - intros k k' c. cbn. apply find_ext. intros x.
    rewrite elems_erase, list_elem_of_filter. case_decide; subst.
    + naive_solver.
    + rewrite find_spec. naive_solver.
  - intros k k' f c Hf. cbn. apply find_ext. intros x.
    rewrite elems_modify, list_elem_of_fmap by done. case_decide; subst.
    + rewrite fmap_Some. setoid_rewrite find_spec. split.
      * intros [(y & -> & ?) Hy]. exists y. case_decide; naive_solver.
      * intros (y & [? Hk] & ->). split; [|by rewrite Hf].
        exists y. by rewrite decide_True.
    + rewrite find_spec. split.
      * intros [(y & -> & ?) Hy]. case_decide; naive_solver.
      * intros [? <-]. split; [|done]. exists x. by rewrite decide_False.
  - intros i c e Hi. cbn. rewrite find_spec. unfold range.
    destruct (ord !! i); [rewrite merge_sort_Permutation|]; naive_solver.
  - intros i c Hi. cbn. unfold range.
    destruct (ord !! i); [rewrite merge_sort_Permutation|]; apply elems_nodup.
  - intros i f c Hi. cbn. unfold range. rewrite Hi. apply (Sorted_merge_sort _).
Qed.

(** The same representation as a sequenced container, oldest element first. *)
Definition insert_back (e : E) (c : t) : t :=
  match find (key e) c with
  | Some _ => c
  | None => of_list (elems c ++ [e])
  end.

Definition relocate (k : K) (c : t) : t :=
  match find k c with
  | Some e => of_list (filter (λ x, key x ≠ k) (elems c) ++ [e])
  | None => c
  end.

Definition pop_front (c : t) : option t :=
  match elems c with
  | [] => None
  | _ :: l => Some (of_list l)
  end.

#[export] Instance seq_ops : SeqIndex t E K := {
  si_empty := Make [] nil_ok;
  si_find := find;
  si_insert := insert_back;
  si_relocate := relocate;
  si_pop_front := pop_front;
  si_size c := length (elems c);
  si_clear _ := Make [] nil_ok;
  si_seq := elems;
}.

Lemma nodup_snoc (l : list E) e :
  NoDup (key <$> l) → key e ∉ key <$> l → NoDup (key <$> l ++ [e]).
Proof.
  intros. rewrite fmap_app. apply NoDup_app. split_and!; [done| |apply NoDup_singleton].
  intros x Hx ->%list_elem_of_singleton. done.
Qed.

#[export] Instance seq_laws : SeqIndexLaws t E K key.
Proof.
  split.
  - apply elems_nodup.
  - done.
  - apply find_spec.
  - intros e c. cbn. unfold insert_back. destruct (find (key e) c) eqn:Hf; [done|].
    apply elems_of_list, nodup_snoc; [apply elems_nodup|by apply find_None].
  - intros k c e Hf. cbn in *. unfold relocate. rewrite Hf.
    apply find_spec in Hf as [_ <-]. apply elems_of_list, nodup_snoc.
    + rewrite <- elems_erase. apply elems_nodup.
    + rewrite list_elem_of_fmap. intros (y & Hy & [? _]%list_elem_of_filter). done.
  - intros c. cbn. unfold pop_front. pose proof (elems_nodup c) as Hn.
    destruct (elems c) as [|e l]; [done|]. simpl. f_equal.
    apply elems_of_list. by apply NoDup_cons in Hn as [_ ?].
  - done.
  - done.
Qed.

End list_index.
End ListIndex.
