(* ===== verification/TraceInfo.v ===== *)
(** * Call stacks and allocation records

    The data of include/memhook/callstack.h and include/memhook/traceinfo.h:
    call stacks as the tracing library captures them and allocation records
    as the database keeps them. *)
From S2P Require Import Prelude.

(** A frame as it is captured: the module path and the function name as
    strings, and four addresses. *)
Record CallStackInfoItem := mkCallStackInfoItem {
  csi_shl_path : bytes;
  csi_procname : bytes;
  csi_shl_addr : Z;
  csi_ip : Z;
  csi_sp : Z;
  csi_offp : Z;
}.

(** [CallStackInfoItem ()] *)
Definition emptyCallStackInfoItem : CallStackInfoItem :=
  mkCallStackInfoItem [] [] 0 0 0 0.

Abbreviation CallStackInfo := (list CallStackInfoItem).

Record TraceInfoBase := mkTraceInfoBase {
  address : Z;
  memsize : Z;
  timestamp : Z;
}.

(** A frame as the database keeps it: the strings are in its symbol tables. *)
Record TraceInfoCallStackItem := mkTraceInfoCallStackItem {
  shl_addr : Z;
  ip : Z;
  sp : Z;
  offp : Z;
}.

Record BasicTraceInfo := mkBasicTraceInfo {
  ti_base : TraceInfoBase;
  ti_callstack : list TraceInfoCallStackItem;
}.

(** [BasicTraceInfo::Builder] *)
Definition Builder (item : CallStackInfoItem) : TraceInfoCallStackItem :=
  mkTraceInfoCallStackItem (csi_shl_addr item) (csi_ip item) (csi_sp item) (csi_offp item).

(** The constructor of [BasicTraceInfo] from a captured call stack. *)
Definition newBasicTraceInfo (address memsize timestamp : Z) (a_callstack : CallStackInfo)
    : BasicTraceInfo :=
  mkBasicTraceInfo (mkTraceInfoBase address memsize timestamp) (Builder <$> a_callstack).

Definition ti_address (t : BasicTraceInfo) : Z := address (ti_base t).
Definition ti_memsize (t : BasicTraceInfo) : Z := memsize (ti_base t).
Definition ti_timestamp (t : BasicTraceInfo) : Z := timestamp (ti_base t).

(** [tinfo.memsize = memsize] *)
Definition set_memsize (n : Z) (b : TraceInfoBase) : TraceInfoBase :=
  mkTraceInfoBase (address b) n (timestamp b).
Definition ti_set_memsize (n : Z) (t : BasicTraceInfo) : BasicTraceInfo :=
  mkBasicTraceInfo (set_memsize n (ti_base t)) (ti_callstack t).

#[export] Instance CallStackInfoItem_eq_dec : EqDecision CallStackInfoItem.
Proof. solve_decision. Defined.
#[export] Instance TraceInfoBase_eq_dec : EqDecision TraceInfoBase.
Proof. solve_decision. Defined.
#[export] Instance TraceInfoCallStackItem_eq_dec : EqDecision TraceInfoCallStackItem.
Proof. solve_decision. Defined.
#[export] Instance BasicTraceInfo_eq_dec : EqDecision BasicTraceInfo.
Proof. solve_decision. Defined.

(** ** The ranges of the C++ types *)

(** A [boost::container::string] whose length fits the wire format. *)
Definition string_ok (s : bytes) : Prop :=
  Forall byte_ok s ∧ Z.of_nat (length s) < 2 ^ 32.

Definition item_ok (i : CallStackInfoItem) : Prop :=
  string_ok (csi_shl_path i) ∧ string_ok (csi_procname i) ∧
  in_u 64 (csi_shl_addr i) ∧ in_u 64 (csi_ip i) ∧
  in_u 64 (csi_sp i) ∧ in_u 64 (csi_offp i).

Definition callstack_ok (cs : CallStackInfo) : Prop :=
  Forall item_ok cs ∧ Z.of_nat (length cs) < 2 ^ 32.

Definition base_ok (b : TraceInfoBase) : Prop :=
  in_u 64 (address b) ∧ in_u 64 (memsize b) ∧ in_s 64 (timestamp b).

#[export] Instance string_ok_dec s : Decision (string_ok s).
Proof. unfold string_ok; apply _. Defined.
#[export] Instance item_ok_dec i : Decision (item_ok i).
Proof. unfold item_ok; apply _. Defined.
#[export] Instance callstack_ok_dec cs : Decision (callstack_ok cs).
Proof. unfold callstack_ok; apply _. Defined.
#[export] Instance base_ok_dec b : Decision (base_ok b).
Proof. unfold base_ok; apply _. Defined.
