(* ===== verification/Serialization.v ===== *)
(** * Serialization

    include/memhook/serialization.h: the visitors that measure ([SizeOf]),
    write ([BufferWriter]) and read ([BufferReader]) a value, and the
    traversal of a value they share ([WriterImpl], [ReaderImpl]).

    The overloads of [operator()] become instances of the class [Serial].  A
    writer is a record with the two functions [Call] a visitor defines; a
    reader returns [None] where the C++ code reads past the end of the memory
    block, which is undefined there.

    [encode] is the reference format (big-endian integers, strings and
    sequences with a 32-bit length in front), and the class [Codec] states
    that the two writers and the reader agree with it. *)
From S2P Require Import Prelude Boost Byteswap.

Module Serialization.
Import Byteswap.

(** ** Integer types *)

Inductive width := W8 | W16 | W32 | W64.

Definition nbytes (w : width) : nat :=
  match w with W8 => 1 | W16 => 2 | W32 => 4 | W64 => 8 end.
Definition nbits (w : width) : Z := 8 * Z.of_nat (nbytes w).

Record int_type := IntType { it_width : width; it_signed : bool }.

Definition uint8_t := IntType W8 false.
Definition int32_t := IntType W32 true.
Definition uint32_t := IntType W32 false.
Definition int64_t := IntType W64 true.
Definition uint64_t := IntType W64 false.
(** [uintptr_t] and [std::size_t] *)
Definition size_t := uint64_t.

(** [static_cast<T>] *)
Definition cast (t : int_type) (z : Z) : Z :=
  if it_signed t then swrap (nbits (it_width t)) z else wrap (nbits (it_width t)) z.

Definition int_ok (t : int_type) (z : Z) : Prop :=
  if it_signed t then in_s (nbits (it_width t)) z else in_u (nbits (it_width t)) z.

(** [ByteOrderingConv<T>::hton], [ByteOrderingConv<T>::ntoh] *)
Definition conv_hton (w : width) (val : Z) : Z :=
  match w with
  | W8 => val
  | W16 => hton_16 val
  | W32 => hton_32 val
  | W64 => hton_64 val
  end.
Definition conv_ntoh (w : width) (val : Z) : Z :=
  match w with
  | W8 => val
  | W16 => ntoh_16 val
  | W32 => ntoh_32 val
  | W64 => ntoh_64 val
  end.

(** [hton (val)], [ntoh (val)]: convert to the unsigned type of the same
    size, then to the other byte order. *)
Definition hton (w : width) (val : Z) : Z := conv_hton w (wrap (nbits w) val).
Definition ntoh (w : width) (val : Z) : Z := conv_ntoh w (wrap (nbits w) val).

(** ** Writers *)

Record Writer (S : Type) := MkWriter {
  (** [Call (T val)] *)
  Call_int : int_type → Z → S → S;
  (** [Call (const basic_string<char> &val)] *)
  Call_string : bytes → S → S;
}.
Arguments MkWriter {_}.
Arguments Call_int {_}.
Arguments Call_string {_}.

(** What a visit of a value does with a visitor [h] in a state. *)
Definition action : Type := ∀ S : Type, Writer S → S → S.

(** One visit after the other. *)
Definition aseq (f g : action) : action := λ S h s, g S h (f S h s).

(** *** [WriterImpl] *)

Definition write_integral (t : int_type) (val : Z) : action := λ S h s, Call_int h t val s.

(** an enumeration is written as an [int32_t] *)
Definition write_enum (val : Z) : action := write_integral int32_t (i32 val).

Definition write_string (val : bytes) : action := λ S h s, Call_string h val s.

(** [boost::for_each (seq, visitor)] *)
Definition write_elems {T} (write : T → action) (seq : list T) : action := λ S h s,
  fold_left (λ s val, write val S h s) seq s.

(** [CallSeq]: the number of elements as an [uint32_t], then each element *)
Definition write_seq {T} (write : T → action) (seq : list T) : action :=
  aseq (write_integral uint32_t (u32 (Z.of_nat (length seq)))) (write_elems write seq).

(** [val.time_since_epoch ().count ()] *)
Definition write_time_point (val : Z) : action := write_integral int64_t val.

(** *** [SizeOf] *)

Definition SizeOf_Call (t : int_type) (size : Z) : Z :=
  u64 (size + Z.of_nat (nbytes (it_width t))).

Definition SizeOf_Call_string (val : bytes) (size_ : Z) : Z :=
  let size := u32 (Z.of_nat (length val)) in
  u64 (SizeOf_Call uint32_t size_ + size).

Definition SizeOf : Writer Z :=
  MkWriter (λ t _, SizeOf_Call t) SizeOf_Call_string.

Section with_buffers.
Context `{AsioBuffer}.

(** *** [BufferWriter] *)

(** The state is the memory block and the buffer [buf_] that designates the
    part of it still to be written. *)
Definition BufferWriter_Call (t : int_type) (val : Z) (s : bytes * buffer) : bytes * buffer :=
  let val_copy := hton (it_width t) val in
  let n := nbytes (it_width t) in
  let mem := buffer_copy s.1 s.2 (le_split n val_copy) in
  (mem, buffer_plus s.2 n).

Definition BufferWriter_Call_string (val : bytes) (s : bytes * buffer) : bytes * buffer :=
  let size := u32 (Z.of_nat (length val)) in
  let s := BufferWriter_Call uint32_t size s in
  if bool_decide (size ≠ 0) then
    let mem := buffer_copy s.1 s.2 (take (Z.to_nat size) val) in
    (mem, buffer_plus s.2 (Z.to_nat size))
  else s.

Definition BufferWriter : Writer (bytes * buffer) :=
  MkWriter BufferWriter_Call BufferWriter_Call_string.

(** ** Readers *)

Definition reader (A : Type) : Type := bytes → buffer → option (A * buffer).

Definition rret {A} (a : A) : reader A := λ _ b, Some (a, b).
Definition rbind {A B} (r : reader A) (k : A → reader B) : reader B := λ mem b,
  match r mem b with
  | Some (a, b) => k a mem b
  | None => None
  end.

(** Reading [n] bytes at offset [off] of the block. *)
Definition load (mem : bytes) (off n : nat) : option bytes :=
  if bool_decide (off + n ≤ length mem)%nat then Some (take n (drop off mem)) else None.

(** *** [BufferReader] *)

Definition BufferReader_Call (t : int_type) : reader Z := λ mem buf_,
  let n := nbytes (it_width t) in
  match load mem (buf_data buf_) n with
  | Some bs => Some (cast t (ntoh (it_width t) (le_combine bs)), buffer_plus buf_ n)
  | None => None
  end.

Definition BufferReader_Call_string : reader bytes := λ mem buf_,
  match BufferReader_Call uint32_t mem buf_ with
  | Some (size, buf_) =>
      match load mem (buf_data buf_) (Z.to_nat size) with
      | Some val => Some (val, buffer_plus buf_ (Z.to_nat size))
      | None => None
      end
  | None => None
  end.

(** *** [ReaderImpl] *)

Definition read_integral (t : int_type) : reader Z := BufferReader_Call t.

(** an enumeration is read as the unsigned type of its size *)
Definition read_enum : reader Z := rbind (read_integral uint32_t) (λ tmp_val, rret (u32 tmp_val)).

Definition read_string : reader bytes := BufferReader_Call_string.

Fixpoint read_elems {T} (read : reader T) (size : nat) (seq : list T) : reader (list T) :=
  match size with
  | O => rret seq
  | S size => rbind read (λ val, read_elems read size (seq ++ [val]))
  end.

Definition read_seq {T} (read : reader T) : reader (list T) :=
  rbind (read_integral uint32_t) (λ size, read_elems read (Z.to_nat size) []).

Definition read_time_point : reader Z := read_integral int64_t.

End with_buffers.

(** The overloads of [operator()] for one type. *)
Class Serial (T : Type) := {
  serialize : T → action;
  deserialize : ∀ `{AsioBuffer}, reader T;
}.

(** [GetSize (val)], [Write (buf, val)], [Read (buf, val)] *)
Definition GetSize {T} `{Serial T} (val : T) : Z := serialize val Z SizeOf 0.

Definition Write {T} `{AsioBuffer, Serial T} (val : T) (s : bytes * buffer) : bytes * buffer :=
  serialize val _ BufferWriter s.

Definition Read {T} `{AsioBuffer, Serial T} : reader T := deserialize.

(** ** The reference format *)

(** An integer in network byte order. *)
Definition enc_int (t : int_type) (val : Z) : bytes := rev (le_split (nbytes (it_width t)) val).

Definition enc_string (val : bytes) : bytes :=
  enc_int uint32_t (Z.of_nat (length val)) ++ val.

Definition enc_seq {T} (enc : T → bytes) (seq : list T) : bytes :=
  enc_int uint32_t (Z.of_nat (length seq)) ++ concat (enc <$> seq).

Section laws.
Context `{AsioBufferLaws}.

(** [f] measures and writes the bytes [bs]. *)
Definition writes (f : action) (bs : bytes) : Prop :=
  (∀ s, in_u 64 s → f Z SizeOf s = u64 (s + Z.of_nat (length bs))) ∧
  (∀ mem b, (buf_data b + buf_size b ≤ length mem)%nat → (length bs ≤ buf_size b)%nat →
    f _ BufferWriter (mem, b) =
      (write_at (buf_data b) bs mem, buffer_plus b (length bs))).

(** [r] reads [a] from [bs], wherever [bs] lies and whatever follows it, and
    runs past the end of a block that stops short of [bs]. *)
Definition decodes {A} (r : reader A) (bs : bytes) (a : A) : Prop :=
  (∀ mem b rest, drop (buf_data b) mem = bs ++ rest → (length bs ≤ buf_size b)%nat →
    r mem b = Some (a, buffer_plus b (length bs))) ∧
  (∀ mem b k, (k < length bs)%nat → (buf_data b + buf_size b = length mem)%nat →
    drop (buf_data b) mem = take k bs → r mem b = None).

Class Codec (T : Type) `{Serial T} := {
  encode : T → bytes;
  ok : T → Prop;
  encode_writes v : ok v → writes (serialize v) (encode v);
  encode_decodes v : ok v → decodes deserialize (encode v) v;
}.

(** *** Composing writers and readers *)

Lemma writes_comp f g b1 b2 :
  writes f b1 → writes g b2 → writes (aseq f g) (b1 ++ b2).
Proof.
  intros [Hs1 Hw1] [Hs2 Hw2]. unfold aseq. split.
  - intros s Hs. rewrite Hs1, Hs2 by (try apply wrap_in_u; done).
    unfold wrap. rewrite length_app, Zplus_mod_idemp_l. f_equal. lia.
  - intros mem b Hm. rewrite length_app. intros Hb. rewrite Hw1 by lia.
    pose proof (buffer_plus_le b (length b1)) as Hp. rewrite Hp by lia.
    rewrite Hw2; simpl; [|rewrite length_write_at; lia|lia].
    rewrite write_at_app by lia. f_equal.
    rewrite <- Hp by lia. apply buffer_plus_plus.
Qed.

Lemma writes_nil f : (∀ S h s, f S h s = s) → writes f [].
Proof.
  intros Hf. split; intros *; rewrite Hf; simpl.
  - intros. rewrite Z.add_0_r. by rewrite wrap_small.
  - intros. by rewrite write_at_nil, buffer_plus_0.
Qed.

Lemma writes_ext f g bs : (∀ S h s, f S h s = g S h s) → writes f bs → writes g bs.
Proof. intros Hfg [Hs Hw]. split; intros *; rewrite <- Hfg; auto. Qed.

Lemma writes_elems {T} (write : T → action) (enc : T → bytes) seq :
  (∀ x, x ∈ seq → writes (write x) (enc x)) →
  writes (write_elems write seq) (concat (enc <$> seq)).
Proof.
  induction seq as [|x seq IH]; intros Hx; simpl; [by apply writes_nil|].
  apply (writes_ext (aseq (write x) (write_elems write seq))); [done|].
  apply writes_comp; [apply Hx, list_elem_of_here|].
  apply IH. intros. by apply Hx, list_elem_of_further.
Qed.

Lemma decodes_ret {A} (a : A) : decodes (rret a) [] a.
Proof. split; [|simpl; lia]. intros. simpl. by rewrite buffer_plus_0. Qed.

Lemma decodes_bind {A B} (r : reader A) (k : A → reader B) b1 b2 a c :
  decodes r b1 a → decodes (k a) b2 c → decodes (rbind r k) (b1 ++ b2) c.
Proof.
  intros [Hf1 Ht1] [Hf2 Ht2]. unfold rbind. split.
  - intros mem b rest Hd. rewrite length_app. intros Hb.
    rewrite <- app_assoc in Hd. rewrite (Hf1 _ _ _ Hd) by lia.
    rewrite buffer_plus_le by lia. rewrite (Hf2 _ _ rest); simpl.
    + f_equal. f_equal. rewrite <- (buffer_plus_le b) by lia. apply buffer_plus_plus.
    + by rewrite <- drop_drop, Hd, drop_app_length.
    + lia.
  - intros mem b n Hn Hb Hd. rewrite length_app in Hn.
    destruct (decide (n < length b1)%nat).
    { rewrite take_app_le in Hd by lia. by rewrite (Ht1 _ _ _ l Hb Hd). }
    rewrite take_app_ge in Hd by lia.
    assert (length b1 ≤ buf_size b)%nat.
    { apply (f_equal length) in Hd. rewrite length_drop, length_app in Hd. lia. }
    rewrite (Hf1 _ _ _ Hd) by lia. rewrite buffer_plus_le by lia.
    apply (Ht2 _ _ (n - length b1)%nat); simpl; [lia..|].
    by rewrite <- drop_drop, Hd, drop_app_length.
Qed.

Lemma decodes_bind_ret {A B} (r : reader A) (f : A → B) bs a :
  decodes r bs a → decodes (rbind r (λ x, rret (f x))) bs (f a).
Proof. intros. rewrite <- (app_nil_r bs). by eapply decodes_bind, decodes_ret. Qed.

Lemma decodes_elems {T} (read : reader T) (enc : T → bytes) seq :
  (∀ x, x ∈ seq → decodes read (enc x) x) → ∀ acc,
  decodes (read_elems read (length seq) acc) (concat (enc <$> seq)) (acc ++ seq).
Proof.
  induction seq as [|x seq IH]; intros Hx acc; simpl.
  { rewrite app_nil_r. apply decodes_ret. }
  eapply decodes_bind; [apply Hx, list_elem_of_here|].
  rewrite (cons_middle x acc seq), app_assoc. apply IH. intros. by apply Hx, list_elem_of_further.
Qed.

(** *** Integers *)

Lemma le_split_hton w val :
  le_split (nbytes w) (hton w val) = rev (le_split (nbytes w) val).
Proof.
  rewrite <- (le_split_wrap _ val). unfold hton.
  destruct w; [done|apply le_split_bswap..].
Qed.

Lemma ntoh_combine w val :
  ntoh w (le_combine (rev (le_split (nbytes w) val))) = wrap (nbits w) val.
Proof.
  change (le_combine _) with (bswap (nbytes w) val). unfold ntoh.
  rewrite wrap_small by apply bswap_in_u. destruct w; cbn [conv_ntoh nbytes].
  - exact (le_combine_split 1 val).
  - apply bswap_bswap.
  - apply bswap_bswap.
  - apply bswap_bswap.
Qed.

Lemma cast_wrap t val : int_ok t val → cast t (wrap (nbits (it_width t)) val) = val.
Proof.
  unfold int_ok, cast. destruct (it_signed t); intros.
  - apply swrap_wrap_small; [|done]. by destruct (it_width t).
  - rewrite (wrap_small _ val) by done. by apply wrap_small.
Qed.

Lemma length_enc_int t val : length (enc_int t val) = nbytes (it_width t).
Proof. unfold enc_int. by rewrite length_rev, length_le_split. Qed.

Lemma writes_integral t val : writes (write_integral t val) (enc_int t val).
Proof.
  split; rewrite length_enc_int; [done|]. intros mem b Hm Hb.
  unfold write_integral. simpl. unfold BufferWriter_Call. simpl. f_equal.
  rewrite le_split_hton. apply buffer_copy_fits; [done|]. by rewrite length_enc_int.
Qed.

Lemma decodes_integral t val :
  int_ok t val → decodes (read_integral t) (enc_int t val) val.
Proof.
  intros Hok. unfold read_integral, BufferReader_Call. split.
  - intros mem b rest Hd Hb. rewrite length_enc_int in *. unfold load.
    pose proof (f_equal length Hd) as Hl.
    rewrite length_drop, length_app, length_enc_int in Hl.
    rewrite bool_decide_true by (destruct (it_width t); simpl in *; lia).
    rewrite Hd, take_app_length' by (by rewrite length_enc_int).
    unfold enc_int. by rewrite ntoh_combine, cast_wrap.
  - intros mem b k Hk Hb Hd. rewrite length_enc_int in Hk. unfold load.
    pose proof (f_equal length Hd) as Hl.
    rewrite length_drop, length_take, length_enc_int in Hl.
    by rewrite bool_decide_false by lia.
Qed.

(** *** Enumerations, strings, sequences, time points *)

Lemma enc_int_i32 val : enc_int int32_t (i32 val) = enc_int uint32_t val.
Proof.
  unfold enc_int. f_equal. rewrite <- (le_split_wrap _ (i32 _)), <- (le_split_wrap _ val).
  f_equal. cbn. unfold swrap, wrap.
  rewrite Zminus_mod, Z.mod_mod, <- Zminus_mod by lia. f_equal. lia.
Qed.

Lemma le_split_cast t z : le_split (nbytes (it_width t)) (cast t z) = le_split (nbytes (it_width t)) z.
Proof.
  rewrite <- (le_split_wrap _ (cast t z)), <- (le_split_wrap _ z). f_equal.
  fold (nbits (it_width t)). unfold cast. destruct (it_signed t).
  - unfold swrap, wrap. rewrite Zminus_mod, Z.mod_mod, <- Zminus_mod by (destruct t as [[] ?]; done).
    f_equal. lia.
  - apply wrap_small, wrap_in_u. by destruct (it_width t).
Qed.

Lemma cast_ok t z : int_ok t (cast t z).
Proof.
  unfold int_ok, cast. destruct (it_signed t).
  - apply swrap_in_s. by destruct (it_width t).
  - apply wrap_in_u. by destruct (it_width t).
Qed.

(** Every sequence of as many bytes as the type has is the format of the
    integer that is read from it. *)
Lemma enc_int_read t bs :
  Forall byte_ok bs → length bs = nbytes (it_width t) →
  enc_int t (cast t (ntoh (it_width t) (le_combine bs))) = bs.
Proof.
  intros Hok Hl.
  assert (rev (le_split (nbytes (it_width t)) (le_combine (rev bs))) = bs) as Hbs.
  { rewrite <- Hl, <- (length_rev bs), le_split_combine, rev_involutive; [done|].
    by apply Forall_rev. }
  rewrite <- Hbs at 1. rewrite ntoh_combine. unfold enc_int, nbits.
  by rewrite le_split_cast, le_split_wrap.
Qed.

#[global] Opaque enc_int.

Lemma writes_enum val : writes (write_enum val) (enc_int uint32_t val).
Proof. rewrite <- enc_int_i32. apply writes_integral. Qed.

Lemma decodes_enum val : in_u 32 val → decodes read_enum (enc_int uint32_t val) val.
Proof.
  intros Hok. unfold read_enum. rewrite <- (wrap_small 32 val) at 2 by done.
  by apply (decodes_bind_ret (read_integral uint32_t) u32), decodes_integral.
Qed.

Lemma writes_time_point val : writes (write_time_point val) (enc_int int64_t val).
Proof. apply writes_integral. Qed.

Lemma decodes_time_point val :
  in_s 64 val → decodes read_time_point (enc_int int64_t val) val.
Proof. intros. by apply decodes_integral. Qed.

Lemma length_in_u32 {A} (l : list A) :
  Z.of_nat (length l) < 2 ^ 32 → int_ok uint32_t (Z.of_nat (length l)).
Proof. intros. change (in_u 32 (Z.of_nat (length l))). unfold in_u. lia. Qed.

Lemma u32_length {A} (l : list A) :
  Z.of_nat (length l) < 2 ^ 32 → u32 (Z.of_nat (length l)) = Z.of_nat (length l).
Proof. intros. by apply wrap_small, length_in_u32. Qed.

Lemma writes_string val :
  Z.of_nat (length val) < 2 ^ 32 → writes (write_string val) (enc_string val).
Proof.
  intros Hl. unfold enc_string.
  pose proof (u32_length val Hl) as Hu.
  destruct (writes_integral uint32_t (Z.of_nat (length val))) as [_ Hw].
  split; rewrite length_app, length_enc_int.
  - intros s Hs. unfold write_string. simpl. unfold SizeOf_Call_string, SizeOf_Call.
    rewrite Hu. unfold wrap. rewrite Zplus_mod_idemp_l. f_equal. simpl. lia.
  - intros mem b Hm Hb. unfold write_string. simpl. unfold BufferWriter_Call_string.
    rewrite Hu. unfold write_integral in Hw. simpl in Hw.
    rewrite Hw by (rewrite ?length_enc_int; simpl in *; lia).
    rewrite Nat2Z.id, take_ge by lia. simpl in *.
    rewrite length_enc_int in *. simpl in *.
    case_bool_decide.
    + rewrite buffer_plus_le by lia. rewrite buffer_copy_fits; simpl;
        [|rewrite length_write_at; rewrite ?length_enc_int; simpl; lia|lia].
      f_equal.
      * rewrite <- (length_enc_int uint32_t (Z.of_nat (length val))) at 1.
        apply write_at_app. rewrite length_enc_int. simpl. lia.
      * rewrite <- buffer_plus_le by lia. apply buffer_plus_plus.
    + assert (val = []) as -> by (destruct val; simpl in *; [done|lia]).
      simpl. by rewrite app_nil_r.
Qed.

Lemma decodes_string val :
  Z.of_nat (length val) < 2 ^ 32 → decodes read_string (enc_string val) val.
Proof.
  intros Hl. destruct (decodes_integral uint32_t (Z.of_nat (length val))) as [Hf Ht].
  { by apply length_in_u32. }
  unfold read_string, enc_string, BufferReader_Call_string, read_integral in *. split.
  - intros mem b rest Hd. rewrite length_app, length_enc_int. intros Hb.
    rewrite <- app_assoc in Hd. rewrite (Hf _ _ _ Hd) by (rewrite length_enc_int; lia).
    rewrite length_enc_int, buffer_plus_le, Nat2Z.id by lia. unfold load. simpl in *.
    apply (f_equal (drop 4)) in Hd as Hd'. rewrite drop_drop in Hd'.
    rewrite drop_app_length' in Hd' by (by rewrite length_enc_int).
    pose proof (f_equal length Hd) as Hn.
    rewrite length_drop, !length_app, length_enc_int in Hn. simpl in Hn.
    rewrite bool_decide_true by lia. rewrite Hd', take_app_length.
    f_equal. f_equal. rewrite <- buffer_plus_le by lia. apply buffer_plus_plus.
  - intros mem b k. rewrite length_app. intros Hk Hb Hd.
    destruct (decide (k < length (enc_int uint32_t (Z.of_nat (length val))))%nat) as [Hlt|].
    { rewrite take_app_le in Hd by lia. by rewrite (Ht _ _ _ Hlt Hb Hd). }
    rewrite take_app_ge in Hd by lia. rewrite length_enc_int in *.
    pose proof (f_equal length Hd) as Hn.
    rewrite length_drop, length_app, length_enc_int, length_take in Hn. simpl in *.
    rewrite (Hf _ _ _ Hd) by (rewrite ?length_enc_int; simpl; lia).
    rewrite ?length_enc_int, buffer_plus_le, Nat2Z.id by (simpl; lia). unfold load. simpl.
    by rewrite bool_decide_false by lia.
Qed.

Lemma writes_sequence {T} (write : T → action) (enc : T → bytes) seq :
  Z.of_nat (length seq) < 2 ^ 32 → (∀ x, x ∈ seq → writes (write x) (enc x)) →
  writes (write_seq write seq) (enc_seq enc seq).
Proof.
  intros Hl Hx. unfold write_seq, enc_seq. rewrite (u32_length _ Hl).
  apply writes_comp; [apply writes_integral|by apply writes_elems].
Qed.

Lemma decodes_sequence {T} (read : reader T) (enc : T → bytes) seq :
  Z.of_nat (length seq) < 2 ^ 32 → (∀ x, x ∈ seq → decodes read (enc x) x) →
  decodes (read_seq read) (enc_seq enc seq) seq.
Proof.
  intros Hl Hx. unfold read_seq, enc_seq. eapply decodes_bind.
  - by apply decodes_integral, length_in_u32.
  - rewrite Nat2Z.id. apply (decodes_elems read enc seq Hx []).
Qed.

(** *** Progress of a reader *)

(** Whatever the bytes are, a successful read moves the buffer on by at
    least [k] bytes of the block. *)
Definition advances {A} (r : reader A) (k : nat) : Prop :=
  ∀ mem b a b', (buf_data b + buf_size b = length mem)%nat → r mem b = Some (a, b') →
  ∃ n, (k ≤ n ≤ buf_size b)%nat ∧ b' = Buffer (buf_data b + n) (buf_size b - n).

Lemma advances_ret {A} (a : A) : advances (rret a) 0.
Proof.
  intros mem b a' b' Hb [= <- <-]. exists O. split; [lia|]. destruct b; simpl. f_equal; lia.
Qed.

Lemma advances_bind {A B} (r : reader A) (k : A → reader B) m n :
  advances r m → (∀ a, advances (k a) n) → advances (rbind r k) (m + n).
Proof.
  intros Hr Hk mem b c b' Hb. unfold rbind.
  destruct (r mem b) as [[a b1]|] eqn:H1; [|done]. intros H2.
  destruct (Hr _ _ _ _ Hb H1) as (x & Hx & ->).
  eapply Hk in H2 as (y & Hy & ->); [|simpl; lia]. simpl in *.
  exists (x + y)%nat. split; [lia|]. f_equal; lia.
Qed.

Lemma advances_weaken {A} (r : reader A) m n : (n ≤ m)%nat → advances r m → advances r n.
Proof.
  intros Hle Hr mem b a b' Hb H1. destruct (Hr _ _ _ _ Hb H1) as (x & ? & ?).
  exists x. split; [lia|done].
Qed.

Lemma advances_integral t : advances (read_integral t) (nbytes (it_width t)).
Proof.
  intros mem b a b' Hb. unfold read_integral, BufferReader_Call, load.
  case_bool_decide; [|done]. intros [= <- <-].
  exists (nbytes (it_width t)). split; [lia|]. by rewrite buffer_plus_le by lia.
Qed.

Lemma advances_string : advances read_string 4.
Proof.
  intros mem b a b' Hb. unfold read_string, BufferReader_Call_string.
  destruct (BufferReader_Call uint32_t mem b) as [[size b1]|] eqn:H1; [|done].
  destruct (advances_integral uint32_t _ _ _ _ Hb H1) as (x & Hx & ->). simpl in *.
  unfold load. case_bool_decide; [|done]. intros [= <- <-].
  exists (x + Z.to_nat size)%nat. split; [simpl in *; lia|].
  rewrite buffer_plus_le by (simpl in *; lia). simpl. f_equal; lia.
Qed.

Lemma advances_elems {T} (read : reader T) n acc :
  advances read 0 → advances (read_elems read n acc) 0.
Proof.
  intros Hr. revert acc; induction n as [|n IH]; intros acc; [apply advances_ret|].
  by apply (advances_bind _ _ 0 0).
Qed.

Lemma advances_seq {T} (read : reader T) : advances read 0 → advances (read_seq read) 4.
Proof.
  intros. apply (advances_bind _ _ 4 0); [apply advances_integral|].
  intros. by apply advances_elems.
Qed.

(** *** What a reader accepts *)

(** Whatever the bytes are, a successful read consumes a part [bs] of them
    that is related to the value by [R]. *)
Definition accepts {A} (r : reader A) (R : bytes → A → Prop) : Prop :=
  ∀ mem b a b', Forall byte_ok mem → (buf_data b + buf_size b = length mem)%nat →
  r mem b = Some (a, b') → ∃ bs rest,
    drop (buf_data b) mem = bs ++ rest ∧ R bs a ∧
    b' = Buffer (buf_data b + length bs) (buf_size b - length bs).

Lemma accepts_ret {A} (a : A) (R : bytes → A → Prop) : R [] a → accepts (rret a) R.
Proof.
  intros HR mem b a' b' _ _ [= <- <-]. exists [], (drop (buf_data b) mem).
  split_and!; [done..|]. destruct b; simpl. f_equal; lia.
Qed.

Lemma accepts_bind {A B} (r : reader A) (k : A → reader B) R (Q : bytes → B → Prop) :
  accepts r R → (∀ bs a, R bs a → accepts (k a) (λ bs', Q (bs ++ bs'))) →
  accepts (rbind r k) Q.
Proof.
  intros Hr Hk mem b c b' Hm Hb. unfold rbind.
  destruct (r mem b) as [[a b1]|] eqn:H1; [|done]. intros H2.
  destruct (Hr _ _ _ _ Hm Hb H1) as (bs & rest & Hd & HR & ->).
  pose proof (f_equal length Hd) as Hl. rewrite length_drop, length_app in Hl.
  eapply (Hk bs a HR) in H2 as (bs' & rest' & Hd' & HQ & ->); [|done|simpl; lia].
  simpl in *. exists (bs ++ bs'), rest'. split_and!; [|done|].
  - rewrite <- app_assoc, <- Hd', <- (drop_drop mem), Hd. by rewrite drop_app_length.
  - rewrite length_app. f_equal; lia.
Qed.

Lemma accepts_weaken {A} (r : reader A) (R Q : bytes → A → Prop) :
  accepts r R → (∀ bs a, R bs a → Q bs a) → accepts r Q.
Proof.
  intros Hr HQ mem b a b' Hm Hb H1.
  destruct (Hr _ _ _ _ Hm Hb H1) as (bs & rest & ? & ? & ?). exists bs, rest. eauto.
Qed.

Lemma accepts_integral t :
  accepts (read_integral t) (λ bs a, int_ok t a ∧ bs = enc_int t a).
Proof.
  intros mem b a b' Hm Hb. unfold read_integral, BufferReader_Call, load.
  case_bool_decide as Hlen; [|done]. intros [= <- <-].
  set (n := nbytes (it_width t)) in *.
  assert (length (take n (drop (buf_data b) mem)) = n) as Hn.
  { rewrite length_take, length_drop. lia. }
  exists (take n (drop (buf_data b) mem)), (drop n (drop (buf_data b) mem)).
  rewrite take_drop, Hn, buffer_plus_le by lia. split_and!; [done|apply cast_ok| |done].
  rewrite enc_int_read; [done|by apply Forall_take, Forall_drop|done].
Qed.

Lemma accepts_enum : accepts read_enum (λ bs a, in_u 32 a ∧ bs = enc_int uint32_t a).
Proof.
  eapply accepts_bind; [apply accepts_integral|]. intros bs a [Ha ->].
  apply accepts_ret. change (in_u 32 a) in Ha. rewrite wrap_small by done.
  by rewrite app_nil_r.
Qed.

Lemma accepts_string :
  accepts read_string (λ bs a, Forall byte_ok a ∧ Z.of_nat (length a) < 2 ^ 32 ∧ bs = enc_string a).
Proof.
  intros mem b a b' Hm Hb. unfold read_string, BufferReader_Call_string.
  destruct (BufferReader_Call uint32_t mem b) as [[size b1]|] eqn:H1; [|done].
  destruct (accepts_integral uint32_t _ _ _ _ Hm Hb H1) as (bs & rest & Hd & [Hs ->] & ->).
  change (in_u 32 size) in Hs. destruct Hs as [Hs1 Hs2].
  pose proof (f_equal length Hd) as Hl. rewrite length_drop, length_app in Hl.
  unfold load. cbn [buf_data]. case_bool_decide as Hlen; [|done]. intros [= <- <-].
  rewrite <- drop_drop, Hd, drop_app_length in *.
  assert (Z.of_nat (length (take (Z.to_nat size) rest)) = size) as Hn.
  { rewrite length_take. lia. }
  exists (enc_string (take (Z.to_nat size) rest)), (drop (Z.to_nat size) rest).
  unfold enc_string. rewrite Hn, <- app_assoc, take_drop. split_and!; [done| |lia|done|].
  - apply Forall_take. apply (Forall_drop _ (buf_data b)) in Hm. rewrite Hd in Hm.
    by apply Forall_app in Hm as [_ ?].
  - rewrite buffer_plus_le, length_app by (simpl; lia). cbn [buf_data buf_size]. f_equal; lia.
Qed.

Lemma accepts_elems {T} (read : reader T) (ok : T → Prop) (enc : T → bytes) n :
  accepts read (λ bs a, ok a ∧ bs = enc a) → ∀ acc,
  accepts (read_elems read n acc) (λ bs l, ∃ l', l = acc ++ l' ∧ Forall ok l' ∧
    length l' = n ∧ bs = concat (enc <$> l')).
Proof.
  intros Hr. induction n as [|n IH]; intros acc.
  { apply accepts_ret. exists []. by rewrite app_nil_r. }
  eapply accepts_bind; [apply Hr|]. intros bs a [Ha ->].
  eapply accepts_weaken; [apply IH|]. intros bs l (l' & -> & Hl' & <- & ->).
  exists (a :: l'). rewrite <- app_assoc. split_and!; [done|by constructor|done..].
Qed.

Lemma accepts_seq {T} (read : reader T) (ok : T → Prop) (enc : T → bytes) :
  accepts read (λ bs a, ok a ∧ bs = enc a) →
  accepts (read_seq read) (λ bs l, (Forall ok l ∧ Z.of_nat (length l) < 2 ^ 32) ∧
    bs = enc_seq enc l).
Proof.
  intros Hr. eapply accepts_bind; [apply accepts_integral|]. intros bs n [Hn ->].
  change (in_u 32 n) in Hn. destruct Hn as [Hn1 Hn2].
  eapply accepts_weaken; [by apply accepts_elems|]. intros bs l (l' & -> & Hl' & Hlen & ->).
  simpl. split; [split; [done|lia]|]. unfold enc_seq. by rewrite Hlen, Z2Nat.id.
Qed.

End laws.

End Serialization.
