(* ===== verification/Network.v ===== *)
(** * The wire protocol

    include/memhook/network.h: the framing header [NetProtoOutbound], the
    request [NetRequest] and its type codes, with the serialization that
    [BOOST_FUSION_ADAPT_STRUCT] gives the structures (their members in
    declaration order) and the proof that the reader inverts the writer. *)
From S2P Require Import Prelude Boost TraceInfo Serialization.

Module Network.
Import Serialization.

(** ** Data *)

(** [NetReqType]: an enumeration whose values need 32 bits; a request read
    from the wire may hold any value of them. *)
Definition kNetReqUnknown : Z := 0.
Definition kNetReqAdd : Z := 0xfd1a73e7.
Definition kNetReqRemove : Z := 0x68801d30.
Definition kNetReqUpdateSize : Z := 0x23ac73f5.
Definition kNetReqFetch : Z := 0x82e96343.
Definition kNetReqFetchEnd : Z := 0x02ad0248.
Definition kNetReqEnd : Z := 0x00fc33b1.
Definition kNetReqClear : Z := 0xe5b1f106.
Definition kNetReqNewStorage : Z := 0x8f3948da.

Record NetProtoOutbound := mkOutbound { size : Z }.

(** [sizeof (NetProtoOutbound)]: one [std::size_t], the base class is empty *)
Definition sizeof_NetProtoOutbound : Z := 8.

Record NetRequest := mkRequest {
  type : Z;
  traceinfo : TraceInfoBase;
  callstack : CallStackInfo;
}.

(** The constructor with its default arguments. *)
Definition newRequest (type address memsize timestamp : Z) (callstack : CallStackInfo)
    : NetRequest :=
  mkRequest type (mkTraceInfoBase address memsize timestamp) callstack.

#[export] Instance NetRequest_eq_dec : EqDecision NetRequest.
Proof. solve_decision. Defined.

(** ** Serialization *)

#[export] Instance Serial_list {T} `{Serial T} : Serial (list T) := {
  serialize l := write_seq serialize l;
  deserialize _ := read_seq deserialize;
}.

#[export] Instance Serial_item : Serial CallStackInfoItem := {
  serialize i :=
    aseq (write_string (csi_shl_path i))
    (aseq (write_string (csi_procname i))
    (aseq (write_integral size_t (csi_shl_addr i))
    (aseq (write_integral size_t (csi_ip i))
    (aseq (write_integral size_t (csi_sp i))
          (write_integral size_t (csi_offp i))))));
  deserialize _ :=
    rbind read_string (λ shl_path,
    rbind read_string (λ procname,
    rbind (read_integral size_t) (λ shl_addr,
    rbind (read_integral size_t) (λ ip,
    rbind (read_integral size_t) (λ sp,
    rbind (read_integral size_t) (λ offp,
    rret (mkCallStackInfoItem shl_path procname shl_addr ip sp offp)))))));
}.

#[export] Instance Serial_TraceInfoBase : Serial TraceInfoBase := {
  serialize b :=
    aseq (write_integral size_t (address b))
    (aseq (write_integral size_t (memsize b))
          (write_time_point (timestamp b)));
  deserialize _ :=
    rbind (read_integral size_t) (λ address,
    rbind (read_integral size_t) (λ memsize,
    rbind read_time_point (λ timestamp,
    rret (mkTraceInfoBase address memsize timestamp))));
}.

#[export] Instance Serial_outbound : Serial NetProtoOutbound := {
  serialize o := write_integral size_t (size o);
  deserialize _ := rbind (read_integral size_t) (λ size, rret (mkOutbound size));
}.

#[export] Instance Serial_request : Serial NetRequest := {
  serialize r :=
    aseq (write_enum (type r))
    (aseq (serialize (traceinfo r))
          (serialize (callstack r)));
  deserialize _ :=
    rbind read_enum (λ type,
    rbind deserialize (λ traceinfo,
    rbind deserialize (λ callstack,
    rret (mkRequest type traceinfo callstack))));
}.

(** ** The formats *)

Definition enc_item (i : CallStackInfoItem) : bytes :=
  enc_string (csi_shl_path i) ++ enc_string (csi_procname i) ++
  enc_int size_t (csi_shl_addr i) ++ enc_int size_t (csi_ip i) ++
  enc_int size_t (csi_sp i) ++ enc_int size_t (csi_offp i).

Definition enc_base (b : TraceInfoBase) : bytes :=
  enc_int size_t (address b) ++ enc_int size_t (memsize b) ++
  enc_int int64_t (timestamp b).

Definition enc_outbound (o : NetProtoOutbound) : bytes := enc_int size_t (size o).

Definition enc_request (r : NetRequest) : bytes :=
  enc_int uint32_t (type r) ++ enc_base (traceinfo r) ++ enc_seq enc_item (callstack r).

(** A request whose members are in the ranges of their types and whose
    frame has a size that is a [std::size_t]. *)
Definition request_ok (r : NetRequest) : Prop :=
  in_u 32 (type r) ∧ base_ok (traceinfo r) ∧ callstack_ok (callstack r) ∧
  Z.of_nat (length (enc_request r)) + 8 < 2 ^ 64.

#[export] Instance request_ok_dec r : Decision (request_ok r).
Proof. unfold request_ok; apply _. Defined.

Section laws.
Context `{AsioBufferLaws}.

Ltac solve_writes :=
  repeat first
    [ apply writes_comp | apply writes_integral | apply writes_enum
    | apply writes_time_point | by apply writes_string ].

Lemma item_writes i : item_ok i → writes (serialize i) (enc_item i).
Proof. intros ([_ Hp] & [_ Hn] & _). unfold enc_item. solve_writes. Qed.

Lemma item_decodes i : item_ok i → decodes deserialize (enc_item i) i.
Proof.
  intros ([_ Hp] & [_ Hn] & ? & ? & ? & ?). destruct i; simpl in *. unfold enc_item; simpl.
  do 2 (eapply decodes_bind; [by apply decodes_string|]).
  do 3 (eapply decodes_bind; [by apply decodes_integral|]).
  by apply (decodes_bind_ret (read_integral size_t)), decodes_integral.
Qed.

#[export] Instance Codec_item : Codec CallStackInfoItem :=
  { encode_writes := item_writes; encode_decodes := item_decodes }.

Lemma base_writes b : base_ok b → writes (serialize b) (enc_base b).
Proof.
  intros. unfold enc_base. solve_writes.
Qed.

Lemma base_decodes b : base_ok b → decodes deserialize (enc_base b) b.
Proof.
  intros (? & ? & ?). destruct b; simpl in *. unfold enc_base; simpl.
  do 2 (eapply decodes_bind; [by apply decodes_integral|]).
  by apply (decodes_bind_ret read_time_point), decodes_time_point.
Qed.

#[export] Instance Codec_base : Codec TraceInfoBase :=
  { encode_writes := base_writes; encode_decodes := base_decodes }.

Lemma outbound_writes o : in_u 64 (size o) → writes (serialize o) (enc_outbound o).
Proof. intros. apply writes_integral. Qed.

Lemma outbound_decodes o : in_u 64 (size o) → decodes deserialize (enc_outbound o) o.
Proof.
  intros. destruct o; simpl in *.
  by apply (decodes_bind_ret (read_integral size_t)), decodes_integral.
Qed.

#[export] Instance Codec_outbound : Codec NetProtoOutbound :=
  { encode_writes := outbound_writes; encode_decodes := outbound_decodes }.

Lemma callstack_writes cs : callstack_ok cs → writes (serialize cs) (enc_seq enc_item cs).
Proof.
  intros [Hi Hl]. apply writes_sequence; [done|]. intros x Hx.
  rewrite Forall_forall in Hi. by apply item_writes, Hi.
Qed.

Lemma callstack_decodes cs : callstack_ok cs → decodes deserialize (enc_seq enc_item cs) cs.
Proof.
  intros [Hi Hl]. apply decodes_sequence; [done|]. intros x Hx.
  rewrite Forall_forall in Hi. by apply item_decodes, Hi.
Qed.

Lemma request_writes r : request_ok r → writes (serialize r) (enc_request r).
Proof.
  intros (? & ? & ? & _). unfold enc_request.
  apply writes_comp; [apply writes_enum|].
  apply writes_comp; [by apply base_writes|by apply callstack_writes].
Qed.

(** The members of a request are in the ranges of their types. *)
Definition members_ok (r : NetRequest) : Prop :=
  in_u 32 (type r) ∧ base_ok (traceinfo r) ∧ callstack_ok (callstack r).

Lemma members_decode r : members_ok r → decodes deserialize (enc_request r) r.
Proof.
  intros (? & ? & ?). destruct r; simpl in *. unfold enc_request; simpl.
  eapply decodes_bind; [by apply decodes_enum|].
  eapply decodes_bind; [by apply base_decodes|].
  by apply (decodes_bind_ret (A:=CallStackInfo) (read_seq _)), callstack_decodes.
Qed.

Lemma request_decodes r : request_ok r → decodes deserialize (enc_request r) r.
Proof. intros (? & ? & ? & _). by apply members_decode. Qed.

#[export] Instance Codec_request : Codec NetRequest :=
  { encode_writes := request_writes; encode_decodes := request_decodes }.

Lemma length_enc_outbound o : length (enc_outbound o) = 8%nat.
Proof. apply length_enc_int. Qed.

Lemma length_enc_request r : (32 ≤ length (enc_request r))%nat.
Proof.
  unfold enc_request, enc_base, enc_seq. rewrite !length_app, !length_enc_int. simpl. lia.
Qed.

Lemma outbound_advances : advances (deserialize : reader NetProtoOutbound) 8.
Proof. apply (advances_bind _ _ 8 0); [apply advances_integral|intros; apply advances_ret]. Qed.

Lemma item_advances : advances (deserialize : reader CallStackInfoItem) 0.
Proof.
  apply (advances_weaken _ (4 + (4 + (8 + (8 + (8 + (8 + 0))))))%nat); [lia|].
  repeat first [apply advances_ret | apply advances_bind; intros
    | apply advances_string | apply advances_integral].
Qed.

Lemma base_advances : advances (deserialize : reader TraceInfoBase) 24.
Proof.
  apply (advances_bind _ _ 8 16); [apply advances_integral|intros].
  apply (advances_bind _ _ 8 8); [apply advances_integral|intros].
  apply (advances_bind _ _ 8 0); [apply advances_integral|intros; apply advances_ret].
Qed.

(** A request takes at least its 32 fixed bytes. *)
Lemma request_advances : advances (deserialize : reader NetRequest) 32.
Proof.
  apply (advances_bind _ _ 4 28).
  { apply (advances_bind _ _ 4 0); [apply advances_integral|intros; apply advances_ret]. }
  intros. apply (advances_bind _ _ 24 4); [apply base_advances|].
  intros. apply (advances_bind _ _ 4 0); [|intros; apply advances_ret].
  apply advances_seq, item_advances.
Qed.

(** ** What the readers accept *)

Lemma item_accepts :
  accepts (deserialize : reader CallStackInfoItem) (λ bs i, item_ok i ∧ bs = enc_item i).
Proof.
  do 2 (eapply accepts_bind; [apply accepts_string|intros ? ? (? & ? & ->)]).
  do 4 (eapply accepts_bind; [apply accepts_integral|intros ? ? [? ->]]).
  apply accepts_ret. unfold enc_item; simpl. by rewrite app_nil_r, !app_assoc.
Qed.

Lemma base_accepts :
  accepts (deserialize : reader TraceInfoBase) (λ bs b, base_ok b ∧ bs = enc_base b).
Proof.
  do 3 (eapply accepts_bind; [apply accepts_integral|intros ? ? [? ->]]).
  apply accepts_ret. unfold enc_base; simpl. by rewrite app_nil_r, !app_assoc.
Qed.

Lemma request_accepts :
  accepts (deserialize : reader NetRequest) (λ bs r, members_ok r ∧ bs = enc_request r).
Proof.
  eapply accepts_bind; [apply accepts_enum|intros ? ? [? ->]].
  eapply accepts_bind; [apply base_accepts|intros ? ? [? ->]].
  eapply accepts_bind; [apply accepts_seq, item_accepts|intros ? ? [? ->]].
  apply accepts_ret. unfold enc_request; simpl. by rewrite app_nil_r, !app_assoc.
Qed.

(** C28.  Typing of what comes from the network: whatever bytes a block holds,
    reading a request from a buffer that ends with the block succeeds on
    exactly the encodings of requests whose members are in the ranges of
    their C++ types (the callstack and the strings in it shorter than 2^32,
    the time a signed and the sizes and addresses unsigned 64-bit numbers),
    it yields that request, and it leaves the buffer just behind the
    encoding.  No two byte sequences are read as the same request. *)
Theorem read_request_is_typed mem b r b' :
  Forall byte_ok mem → (buf_data b + buf_size b = length mem)%nat →
  Read (T:=NetRequest) mem b = Some (r, b') ↔
  members_ok r ∧
  (∃ rest, drop (buf_data b) mem = enc_request r ++ rest) ∧
  b' = Buffer (buf_data b + length (enc_request r)) (buf_size b - length (enc_request r)).
Proof.
  intros Hm Hb. split.
  - intros H1. destruct (request_accepts _ _ _ _ Hm Hb H1) as (bs & rest & Hd & [Hr ->] & ->).
    split_and!; [done|by exists rest|done].
  - intros (Hr & [rest Hd] & ->). apply (f_equal length) in Hd as Hl.
    rewrite length_drop, length_app in Hl. unfold Read.
    rewrite (proj1 (members_decode r Hr) mem b rest Hd) by lia. by rewrite buffer_plus_le by lia.
Qed.

End laws.

(** A block with two bytes in front of a request with one frame and one byte
    behind it. *)
Lemma read_request_is_typed_witness :
  let r := newRequest kNetReqAdd 4096 16 (-1)
             [mkCallStackInfoItem [97; 98] [] 1 2 3 4] in
  let mem := [0; 255] ++ enc_request r ++ [7] in
  let n := length (enc_request r) in
  Forall byte_ok mem ∧
  Read (T:=NetRequest) mem (Buffer 2 (n + 1)) = Some (r, Buffer (2 + n) 1).
Proof.
  split; [by_decide|].
  refine (proj2 (read_request_is_typed _ _ _ _ _ _) _); [by_decide|by_decide|].
  split; [by_decide|]. split; [exists [7]; by vm_compute|by vm_compute].
Defined.

End Network.
