(* ===== verification/Response.v ===== *)
(** * Answers of the server

    [NetResponse] of include/memhook/network.h with the records and symbol
    tables in it, and the overloads of include/memhook/serialization.h that
    only it needs: vectors of records, pairs, unordered maps and strings of
    wide characters.  The code declares the structure and never sends it.

    An unordered map is the list of its pairs in the order of iteration.  It
    can be written; its reader reads into a pair with a constant first
    component and does not compile, so a response has a writer only.  Pairs,
    records and vectors of records have both. *)
From S2P Require Import Prelude Boost TraceInfo Serialization Network.

Module Response.
Import Serialization Network.

(** ** Data *)

(** [NetResType] *)
Definition kNetResUnknown : Z := 0.
Definition kNetResEnd : Z := 0x00fc33b1.
Definition kNetResMoreDataAvailable : Z := 0x45011baa.

Abbreviation SymbolTable := (list (Z * bytes)).

Record NetResponse := mkResponse {
  req_type : Z;
  response : Z;
  rs_traceinfo : list BasicTraceInfo;
  rs_symtab : SymbolTable;
  rs_shltab : SymbolTable;
}.

Definition emptyResponse : NetResponse := mkResponse kNetReqUnknown kNetResUnknown [] [] [].

(** ** Serialization *)

#[export] Instance Serial_stack_item : Serial TraceInfoCallStackItem := {
  serialize i :=
    aseq (write_integral size_t (shl_addr i))
    (aseq (write_integral size_t (ip i))
    (aseq (write_integral size_t (sp i))
          (write_integral size_t (offp i))));
  deserialize _ :=
    rbind (read_integral size_t) (λ shl_addr,
    rbind (read_integral size_t) (λ ip,
    rbind (read_integral size_t) (λ sp,
    rbind (read_integral size_t) (λ offp,
    rret (mkTraceInfoCallStackItem shl_addr ip sp offp)))));
}.

#[export] Instance Serial_traceinfo : Serial BasicTraceInfo := {
  serialize t :=
    aseq (write_integral size_t (ti_address t))
    (aseq (write_integral size_t (ti_memsize t))
    (aseq (write_time_point (ti_timestamp t))
          (serialize (ti_callstack t))));
  deserialize _ :=
    rbind (read_integral size_t) (λ address,
    rbind (read_integral size_t) (λ memsize,
    rbind read_time_point (λ timestamp,
    rbind deserialize (λ callstack,
    rret (mkBasicTraceInfo (mkTraceInfoBase address memsize timestamp) callstack)))));
}.

(** A string of characters of another type is a sequence of integers. *)
Definition write_wide_string (t : int_type) (val : list Z) : action := write_seq (write_integral t) val.
Definition read_wide_string `{AsioBuffer} (t : int_type) : reader (list Z) := read_seq (read_integral t).

Definition write_pair {A B} (f : A → action) (g : B → action) (val : A * B) : action :=
  aseq (f val.1) (g val.2).
Definition read_pair `{AsioBuffer} {A B} (f : reader A) (g : reader B) : reader (A * B) :=
  rbind f (λ first, rbind g (λ second, rret (first, second))).

(** The pairs of an unordered map. *)
Definition write_map (val : SymbolTable) : action :=
  write_seq (write_pair (write_integral size_t) write_string) val.

Definition write_response (r : NetResponse) : action :=
  aseq (write_enum (req_type r))
  (aseq (write_enum (response r))
  (aseq (serialize (rs_traceinfo r))
  (aseq (write_map (rs_symtab r))
        (write_map (rs_shltab r))))).

(** [GetSize] and [Write] of a response *)
Definition response_GetSize (r : NetResponse) : Z := write_response r Z SizeOf 0.
Definition response_Write `{AsioBuffer} (r : NetResponse) (s : bytes * buffer) : bytes * buffer :=
  write_response r _ BufferWriter s.

(** ** The formats *)

Definition enc_stack_item (i : TraceInfoCallStackItem) : bytes :=
  enc_int size_t (shl_addr i) ++ enc_int size_t (ip i) ++ enc_int size_t (sp i) ++
  enc_int size_t (offp i).

Definition enc_traceinfo (t : BasicTraceInfo) : bytes :=
  enc_int size_t (ti_address t) ++ enc_int size_t (ti_memsize t) ++
  enc_int int64_t (ti_timestamp t) ++ enc_seq enc_stack_item (ti_callstack t).

Definition enc_pair (p : Z * bytes) : bytes := enc_int size_t p.1 ++ enc_string p.2.

Definition enc_response (r : NetResponse) : bytes :=
  enc_int uint32_t (req_type r) ++ enc_int uint32_t (response r) ++
  enc_seq enc_traceinfo (rs_traceinfo r) ++ enc_seq enc_pair (rs_symtab r) ++
  enc_seq enc_pair (rs_shltab r).

(** Members in the ranges of their types, and lengths in 32 bits. *)
Definition stack_item_ok (i : TraceInfoCallStackItem) : Prop :=
  in_u 64 (shl_addr i) ∧ in_u 64 (ip i) ∧ in_u 64 (sp i) ∧ in_u 64 (offp i).

Definition seq_ok {T} (ok : T → Prop) (l : list T) : Prop :=
  Forall ok l ∧ Z.of_nat (length l) < 2 ^ 32.

Definition traceinfo_ok (t : BasicTraceInfo) : Prop :=
  base_ok (ti_base t) ∧ seq_ok stack_item_ok (ti_callstack t).

Definition pair_ok (p : Z * bytes) : Prop := in_u 64 p.1 ∧ string_ok p.2.

Definition response_ok (r : NetResponse) : Prop :=
  in_u 32 (req_type r) ∧ in_u 32 (response r) ∧ seq_ok traceinfo_ok (rs_traceinfo r) ∧
  seq_ok pair_ok (rs_symtab r) ∧ seq_ok pair_ok (rs_shltab r).

#[export] Instance stack_item_ok_dec i : Decision (stack_item_ok i).
Proof. unfold stack_item_ok; apply _. Defined.
#[export] Instance seq_ok_dec {T} (ok : T → Prop) `{∀ x, Decision (ok x)} l : Decision (seq_ok ok l).
Proof. unfold seq_ok; apply _. Defined.
#[export] Instance traceinfo_ok_dec t : Decision (traceinfo_ok t).
Proof. unfold traceinfo_ok; apply _. Defined.
#[export] Instance pair_ok_dec p : Decision (pair_ok p).
Proof. unfold pair_ok; apply _. Defined.
#[export] Instance response_ok_dec r : Decision (response_ok r).
Proof. unfold response_ok; apply _. Defined.

Section laws.
Context `{AsioBufferLaws}.

Lemma seq_writes {T} (ok : T → Prop) (write : T → action) (enc : T → bytes) l :
  (∀ x, ok x → writes (write x) (enc x)) → seq_ok ok l → writes (write_seq write l) (enc_seq enc l).
Proof.
  intros Hw [Hl Hn]. apply writes_sequence; [done|]. intros x Hx. rewrite Forall_forall in Hl. auto.
Qed.

Lemma seq_decodes {T} (ok : T → Prop) (read : reader T) (enc : T → bytes) l :
  (∀ x, ok x → decodes read (enc x) x) → seq_ok ok l → decodes (read_seq read) (enc_seq enc l) l.
Proof.
  intros Hr [Hl Hn]. apply decodes_sequence; [done|]. intros x Hx. rewrite Forall_forall in Hl. auto.
Qed.

Lemma stack_item_writes i : stack_item_ok i → writes (serialize i) (enc_stack_item i).
Proof. intros _. repeat (apply writes_comp || apply writes_integral). Qed.

Lemma stack_item_decodes i : stack_item_ok i → decodes deserialize (enc_stack_item i) i.
Proof.
  intros (? & ? & ? & ?). destruct i; simpl in *. unfold enc_stack_item; simpl.
  do 3 (eapply decodes_bind; [by apply decodes_integral|]).
  by apply (decodes_bind_ret (read_integral size_t)), decodes_integral.
Qed.

#[export] Instance Codec_stack_item : Codec TraceInfoCallStackItem :=
  { encode_writes := stack_item_writes; encode_decodes := stack_item_decodes }.

Lemma traceinfo_writes t : traceinfo_ok t → writes (serialize t) (enc_traceinfo t).
Proof.
  intros [_ Hs]. repeat (apply writes_comp; [apply writes_integral || apply writes_time_point|]).
  by apply (seq_writes stack_item_ok), Hs; apply stack_item_writes.
Qed.

Lemma traceinfo_decodes t : traceinfo_ok t → decodes deserialize (enc_traceinfo t) t.
Proof.
  intros [(? & ? & ?) Hs]. destruct t as [[] cs]; simpl in *. unfold enc_traceinfo; simpl.
  do 2 (eapply decodes_bind; [by apply decodes_integral|]).
  eapply decodes_bind; [by apply decodes_time_point|].
  apply (decodes_bind_ret (A := list TraceInfoCallStackItem) (read_seq _)).
  by apply (seq_decodes stack_item_ok), Hs; apply stack_item_decodes.
Qed.

#[export] Instance Codec_traceinfo : Codec BasicTraceInfo :=
  { encode_writes := traceinfo_writes; encode_decodes := traceinfo_decodes }.

Lemma pair_writes p : pair_ok p → writes (write_pair (write_integral size_t) write_string p) (enc_pair p).
Proof. intros [_ [_ Hl]]. apply writes_comp; [apply writes_integral|by apply writes_string]. Qed.

Lemma pair_decodes p : pair_ok p → decodes (read_pair (read_integral size_t) read_string) (enc_pair p) p.
Proof.
  intros [Hk [_ Hl]]. destruct p; simpl in *. eapply decodes_bind; [by apply decodes_integral|].
  by apply (decodes_bind_ret read_string), decodes_string.
Qed.

Lemma wide_string_roundtrip t l :
  seq_ok (int_ok t) l →
  writes (write_wide_string t l) (enc_seq (enc_int t) l) ∧
  decodes (read_wide_string t) (enc_seq (enc_int t) l) l.
Proof.
  intros Hl. split.
  - apply (seq_writes (int_ok t)); [|done]. intros. apply writes_integral.
  - apply (seq_decodes (int_ok t)); [|done]. intros. by apply decodes_integral.
Qed.

Lemma response_writes r : response_ok r → writes (write_response r) (enc_response r).
Proof.
  intros (_ & _ & Ht & Hs & Hl). do 2 (apply writes_comp; [apply writes_enum|]).
  apply writes_comp; [by apply (seq_writes traceinfo_ok), Ht; apply traceinfo_writes|].
  apply writes_comp; by apply (seq_writes pair_ok); [apply pair_writes|].
Qed.

(** A reader of the format of a response: one for unordered maps that reads
    into pairs as they are declared for the map's own type. *)
Definition read_response : reader NetResponse :=
  rbind read_enum (λ req_type,
  rbind read_enum (λ response,
  rbind (read_seq deserialize) (λ traceinfo,
  rbind (read_seq (read_pair (read_integral size_t) read_string)) (λ symtab,
  rbind (read_seq (read_pair (read_integral size_t) read_string)) (λ shltab,
  rret (mkResponse req_type response traceinfo symtab shltab)))))).

Lemma response_decodes r : response_ok r → decodes read_response (enc_response r) r.
Proof.
  intros (? & ? & Ht & Hs & Hl). destruct r; simpl in *. unfold enc_response; simpl.
  do 2 (eapply decodes_bind; [by apply decodes_enum|]).
  eapply decodes_bind; [by apply (seq_decodes traceinfo_ok), Ht; apply traceinfo_decodes|].
  eapply decodes_bind; [by apply (seq_decodes pair_ok), Hs; apply pair_decodes|].
  apply (decodes_bind_ret (read_seq _)).
  by apply (seq_decodes pair_ok), Hl; apply pair_decodes.
Qed.

(** ** Theorems *)

(** A response fills the block of the size that is computed for it, with the
    format of the response: integers in network byte order, then the records
    and the pairs of both symbol tables, each sequence with its length in
    front.  The format is unambiguous, though no reader of it compiles:
    different responses are written as different bytes. *)
Theorem response_is_written r :
  response_ok r → Z.of_nat (length (enc_response r)) < 2 ^ 64 →
  let n := Z.to_nat (response_GetSize r) in
  response_Write r (replicate n 0, Buffer 0 n) = (enc_response r, Buffer n 0) ∧
  ∀ r', response_ok r' → enc_response r' = enc_response r → r' = r.
Proof.
  intros Hr Hl. destruct (response_writes r Hr) as [Hs Hw]. split.
  - unfold response_GetSize. rewrite Hs by done. rewrite wrap_small by (unfold in_u; lia).
    replace (Z.to_nat (0 + Z.of_nat (length (enc_response r)))) with (length (enc_response r)) by lia.
    unfold response_Write. rewrite Hw by (rewrite ?length_replicate; simpl; lia).
    rewrite buffer_plus_le by (simpl; lia). simpl. f_equal; [|f_equal; lia].
    unfold write_at. simpl. by rewrite drop_ge, app_nil_r by (rewrite length_replicate; lia).
  - intros r' Hr' He. destruct (response_decodes r Hr) as [Hd _], (response_decodes r' Hr') as [Hd' _].
    specialize (Hd (enc_response r) (Buffer 0 (length (enc_response r))) []).
    specialize (Hd' (enc_response r) (Buffer 0 (length (enc_response r))) []).
    rewrite He in Hd'. rewrite Hd in Hd'; [|by rewrite app_nil_r|done].
    specialize (Hd' ltac:(by rewrite app_nil_r) ltac:(done)). congruence.
Qed.

(** Records of the database can be sent and read back. *)
Theorem records_roundtrip (ts : list BasicTraceInfo) mem b rest :
  seq_ok traceinfo_ok ts → drop (buf_data b) mem = enc_seq enc_traceinfo ts ++ rest →
  (length (enc_seq enc_traceinfo ts) ≤ buf_size b)%nat →
  Read (T := list BasicTraceInfo) mem b = Some (ts, buffer_plus b (length (enc_seq enc_traceinfo ts))).
Proof.
  intros Hts. assert (decodes (read_seq deserialize) (enc_seq enc_traceinfo ts) ts) as [Hd _].
  { by apply (seq_decodes traceinfo_ok), Hts; apply traceinfo_decodes. }
  apply Hd.
Qed.

End laws.

(** ** Witnesses *)

Definition demo_response : NetResponse :=
  mkResponse kNetReqFetch kNetResMoreDataAvailable
    [newBasicTraceInfo 4096 16 (-1) [mkCallStackInfoItem [97; 98] [] 1 2 3 4]] [(2, [102])] [(1, [97; 98])].

Lemma response_is_written_witness :
  response_GetSize demo_response = 107 ∧
  response_Write demo_response (replicate 107 0, Buffer 0 107) = (enc_response demo_response, Buffer 107 0).
Proof.
  split; [vm_compute; reflexivity|].
  apply (response_is_written demo_response); [by_decide|vm_compute; reflexivity].
Defined.

Lemma records_roundtrip_witness :
  Read (T := list BasicTraceInfo) ([9] ++ enc_seq enc_traceinfo (rs_traceinfo demo_response) ++ [7]) (Buffer 1 66) =
    Some (rs_traceinfo demo_response, Buffer 65 2).
Proof.
  rewrite (records_roundtrip (rs_traceinfo demo_response) _ _ [7]);
    [vm_compute; reflexivity|by_decide|vm_compute; reflexivity|vm_compute; lia].
Defined.

End Response.
