(* ===== verification/Reserve.v ===== *)
(** * Room in containers while they are read

    [ReserveSeqCapacity] and [CallSeq] of include/memhook/serialization.h: a
    reader asks a container for room for all its elements before it reads
    them, so that it is not moved while it is filled.

    A container has its elements and the number of elements it has room for.
    How much room a hash table has after [rehash], and how containers grow, are
    functions of the Boost libraries. *)
From S2P Require Import Prelude Boost Byteswap Serialization.

Module Reserve.
Import Serialization.

Inductive seq_type := basic_string | vector | list_ | unordered_map.

#[export] Instance seq_type_eq_dec : EqDecision seq_type.
Proof. solve_decision. Defined.

Record container (T : Type) := mkContainer { c_elems : list T; c_room : Z }.
Arguments mkContainer {_}.
Arguments c_elems {_}.
Arguments c_room {_}.

(** The conversion of an integer to [float], which has 24 bits of precision:
    to the nearest one, and to the even one of two that are as near. *)
Definition to_float (n : Z) : Z :=
  let e := Z.log2 n - 23 in
  if e <=? 0 then n
  else
    let q := Z.shiftr n e in
    let r := n - Z.shiftl q e in
    let half := Z.shiftl 1 (e - 1) in
    if (half <? r) || ((r =? half) && Z.odd q) then Z.shiftl (q + 1) e else Z.shiftl q e.

Section reserve.
(** the elements a table with [n] buckets has room for when the load factor is
    the default of 1, after [rehash (n)], and the room of a container that
    grows *)
Context (rehash grow : Z → Z).

(** [ReserveSeqCapacity<SeqT>::Call (seq, size)] *)
Definition ReserveSeqCapacity {T} (k : seq_type) (size : Z) (seq : container T) : container T :=
  match k with
  | basic_string | vector => mkContainer (c_elems seq) (Z.max (c_room seq) size)
  | unordered_map => mkContainer (c_elems seq) (Z.max (c_room seq) (rehash (to_float size)))
  | list_ => seq
  end.

(** [seq.insert (seq.end (), val)], and whether the container had to grow; a
    list has no room to use up. *)
Definition insert_end {T} (k : seq_type) (val : T) (seq : container T) : container T * bool :=
  let full := Z.of_nat (length (c_elems seq)) =? c_room seq in
  match k with
  | list_ => (mkContainer (c_elems seq ++ [val]) (c_room seq), false)
  | _ => (mkContainer (c_elems seq ++ [val]) (if full then grow (c_room seq) else c_room seq), full)
  end.

(** The loop of [CallSeq]; the number is how often the container has grown. *)
Fixpoint fill {T} `{AsioBuffer} (k : seq_type) (read : reader T) (size : nat) (seq : container T)
    (grown : nat) : reader (container T * nat) :=
  match size with
  | O => rret (seq, grown)
  | S size => rbind read (λ val,
      let '(seq, g) := insert_end k val seq in
      fill k read size seq (if g : bool then S grown else grown))
  end.

(** [CallSeq (seq)] on a container that may have been used before. *)
Definition CallSeq {T} `{AsioBuffer} (k : seq_type) (read : reader T) (seq : container T)
    : reader (container T * nat) :=
  let seq := mkContainer [] (c_room seq) in
  rbind (read_integral uint32_t) (λ size,
    if size =? 0 then rret (seq, 0%nat)
    else fill k read (Z.to_nat size) (ReserveSeqCapacity k size seq) 0%nat).

(** ** Lemmas *)

Lemma to_float_exact n : 0 ≤ n < 2 ^ 24 → to_float n = n.
Proof.
  intros Hn. unfold to_float. destruct (decide (n = 0)) as [->|Hne]; [done|].
  assert (Z.log2 n < 24) by (apply Z.log2_lt_pow2; lia).
  destruct (Z.log2 n - 23 <=? 0) eqn:He; zify_bool; [done|lia].
Qed.

Context `{AsioBuffer}.

(** Filling a container is reading the elements; with enough room it does not
    grow. *)
Lemma fill_spec {T} k (read : reader T) n seq grown mem b :
  match fill k read n seq grown mem b with
  | Some (seq', grown', b') =>
      read_elems read n (c_elems seq) mem b = Some (c_elems seq', b') ∧
      length (c_elems seq') = (length (c_elems seq) + n)%nat ∧
      (k = list_ ∨ Z.of_nat (length (c_elems seq) + n) ≤ c_room seq → grown' = grown)
  | None => read_elems read n (c_elems seq) mem b = None
  end.
Proof.
  revert seq grown b. induction n as [|n IH]; intros seq grown b; [split_and!; simpl; [done|lia|done]|].
  cbn [fill read_elems]. unfold rbind. destruct (read mem b) as [[val b1]|]; [|done].
  destruct (insert_end k val seq) as [seq1 g] eqn:Hi.
  assert (c_elems seq1 = c_elems seq ++ [val]) as He by (by destruct k; injection Hi as <- _).
  specialize (IH seq1 (if g then S grown else grown) b1). rewrite He in IH.
  destruct (fill k read n seq1 _ mem b1) as [[[seq' grown'] b']|]; [|done].
  destruct IH as (Hr & Hlen & Hg). rewrite length_app in Hlen, Hg. simpl in Hlen, Hg.
  split; [done|]. split; [lia|]. intros Hroom.
  destruct (decide (k = list_)) as [->|Hk].
  { injection Hi as <- <-. apply Hg. by left. }
  destruct Hroom as [|Hroom]; [done|].
  assert ((Z.of_nat (length (c_elems seq)) =? c_room seq) = false) as Hfull by (apply Z.eqb_neq; lia).
  assert (g = false ∧ c_room seq1 = c_room seq) as [-> Hr1].
  { unfold insert_end in Hi. rewrite Hfull in Hi. by destruct k; simplify_eq. }
  apply Hg. right. rewrite Hr1. lia.
Qed.

Lemma read_size_nonneg mem b size b' : read_integral uint32_t mem b = Some (size, b') → 0 ≤ size.
Proof.
  unfold read_integral, BufferReader_Call. destruct (load _ _ _) as [bs|]; [|done]. intros [= <- _].
  pose proof (cast_ok uint32_t (ntoh (it_width uint32_t) (le_combine bs))) as Hok. apply Hok.
Qed.

(** ** Property *)

(** A sequence is read into any container as it is read without one, and while
    it is filled the container does not grow: its room was reserved.  For hash
    tables this holds for fewer than 2 to the power of 24 elements, since the
    number is rounded to a [float]. *)
Theorem reserved_room_is_enough {T} k (read : reader T) (seq : container T) mem b :
  (∀ n, n ≤ rehash n) →
  match CallSeq k read seq mem b with
  | Some (seq', grown, b') =>
      read_seq read mem b = Some (c_elems seq', b') ∧
      (k ≠ unordered_map ∨ Z.of_nat (length (c_elems seq')) < 2 ^ 24 → grown = 0%nat)
  | None => read_seq read mem b = None
  end.
Proof.
  intros Hre. unfold CallSeq, read_seq, rbind.
  destruct (read_integral uint32_t mem b) as [[size b1]|] eqn:Hs; [|done].
  destruct (size =? 0) eqn:Hz; zify_bool.
  { subst. done. }
  set (seq0 := ReserveSeqCapacity k size _).
  assert (c_elems seq0 = []) as He by (unfold seq0; by destruct k).
  pose proof (fill_spec k read (Z.to_nat size) seq0 0 mem b1) as Hf. rewrite He in Hf.
  destruct (fill k read _ seq0 0 mem b1) as [[[seq' grown] b']|] eqn:Hfill; [|done].
  destruct Hf as (Hr & Hlen & Hg). split; [done|]. intros Hk. apply Hg.
  destruct (decide (k = list_)) as [|Hl]; [by left|]. right. simpl in *.
  assert (0 ≤ size) by (eapply read_size_nonneg, Hs).
  unfold seq0. destruct k; simpl; [lia|lia|done|].
  destruct Hk as [|Hk]; [done|]. rewrite to_float_exact by lia. pose proof (Hre size). lia.
Qed.

(** With more elements the room can be one short. *)
Lemma float_rounds_down : to_float (2 ^ 24 + 1) = 2 ^ 24.
Proof. reflexivity. Qed.

End reserve.

(** ** Example *)

(** A vector of two bytes, with the length in front. *)
Lemma reserved_room_is_enough_witness :
  ∃ seq, CallSeq (λ n, n) (λ n, 2 * n) vector (read_integral uint8_t) (mkContainer [] 0)
      [0; 0; 0; 2; 7; 9] (Buffer 0 6) = Some (seq, 0%nat, Buffer 6 0) ∧ c_elems seq = [7; 9].
Proof.
  pose proof (reserved_room_is_enough (λ n, n) (λ n, 2 * n) vector (read_integral uint8_t)
    (mkContainer [] 0) [0; 0; 0; 2; 7; 9] (Buffer 0 6) (λ n, Z.le_refl n)) as Hr.
  destruct (CallSeq _ _ _ _ _ _ _) as [[[seq grown] b']|] eqn:Hc; [|by vm_compute in Hc].
  exists seq. destruct Hr as [Hr Hg]. assert (grown = 0%nat) as -> by (apply Hg; by left).
  vm_compute in Hr. by simplify_eq.
Defined.

End Reserve.
