(* ===== verification/Storage.v ===== *)
(** * Allocation databases

    include/memhook/mapped_storage.h, include/memhook/mapping_traits.h and
    src/memhookcore/basic_mapped_storage.h.

    [MappedStorage] is the abstract base class of the databases, as a class
    of operations.  [StorageLaws] states what a database promises its
    clients: it keeps a map from addresses to records.  [BasicMappedStorage]
    is the database in shared memory or in a mapped file, a container with
    three indices and two symbol tables.  Its operations run under the
    container's interprocess mutex, so each one is a single step. *)
From S2P Require Import Prelude Boost TraceInfo Serialization Network.

Module Storage.
Import Network.

(** ** The interface *)

Class MappedStorage (St : Type) := {
  Add : Z → Z → CallStackInfo → Z → St → St;
  Remove : Z → St → St * bool;
  UpdateSize : Z → Z → St → St * bool;
  Clear : St → St;
  Flush : St → St;
  GetName : St → bytes;
}.

(** *** What a database does, on a map of records *)

(** A second [Add] for an address keeps the first record. *)
Definition spec_add (address memsize : Z) (callstack : CallStackInfo) (timestamp : Z)
    (m : gmap Z BasicTraceInfo) : gmap Z BasicTraceInfo :=
  match m !! address with
  | Some _ => m
  | None => <[address := newBasicTraceInfo address memsize timestamp callstack]> m
  end.

Definition spec_remove (address : Z) (m : gmap Z BasicTraceInfo) : gmap Z BasicTraceInfo :=
  delete address m.

Definition spec_update (address memsize : Z) (m : gmap Z BasicTraceInfo)
    : gmap Z BasicTraceInfo :=
  alter (ti_set_memsize memsize) address m.

(** Arguments in the ranges of their types, for a record that has a wire
    representation. *)
Definition add_ok (address memsize : Z) (callstack : CallStackInfo) (timestamp : Z) : Prop :=
  request_ok (newRequest kNetReqAdd address memsize timestamp callstack).

#[export] Instance add_ok_dec a n cs ts : Decision (add_ok a n cs ts).
Proof. unfold add_ok; apply _. Defined.

Class StorageLaws (St : Type) `{MappedStorage St} := {
  storage_inv : St → Prop;
  records : St → gmap Z BasicTraceInfo;
  Add_inv a n cs ts s : storage_inv s → add_ok a n cs ts → storage_inv (Add a n cs ts s);
  Add_records a n cs ts s :
    storage_inv s → add_ok a n cs ts → records (Add a n cs ts s) = spec_add a n cs ts (records s);
  Remove_inv a s : storage_inv s → in_u 64 a → storage_inv (Remove a s).1;
  Remove_records a s :
    storage_inv s → in_u 64 a → records (Remove a s).1 = spec_remove a (records s);
  UpdateSize_inv a n s :
    storage_inv s → in_u 64 a → in_u 64 n → storage_inv (UpdateSize a n s).1;
  UpdateSize_records a n s :
    storage_inv s → in_u 64 a → in_u 64 n →
    records (UpdateSize a n s).1 = spec_update a n (records s);
  Flush_inv s : storage_inv s → storage_inv (Flush s);
  Flush_records s : storage_inv s → records (Flush s) = records s;
}.

(** *** Sequences of updates *)

Inductive storage_op :=
| OpAdd (address memsize : Z) (callstack : CallStackInfo) (timestamp : Z)
| OpRemove (address : Z)
| OpUpdateSize (address memsize : Z).

Definition op_ok (op : storage_op) : Prop :=
  match op with
  | OpAdd a n cs ts => add_ok a n cs ts
  | OpRemove a => in_u 64 a
  | OpUpdateSize a n => in_u 64 a ∧ in_u 64 n
  end.

#[export] Instance op_ok_dec op : Decision (op_ok op).
Proof. destruct op; simpl; apply _. Defined.

Definition run_op {St} `{MappedStorage St} (s : St) (op : storage_op) : St :=
  match op with
  | OpAdd a n cs ts => Add a n cs ts s
  | OpRemove a => (Remove a s).1
  | OpUpdateSize a n => (UpdateSize a n s).1
  end.

Definition run_ops {St} `{MappedStorage St} (ops : list storage_op) (s : St) : St :=
  fold_left run_op ops s.

Definition spec_op (m : gmap Z BasicTraceInfo) (op : storage_op) : gmap Z BasicTraceInfo :=
  match op with
  | OpAdd a n cs ts => spec_add a n cs ts m
  | OpRemove a => spec_remove a m
  | OpUpdateSize a n => spec_update a n m
  end.

(** ** [BasicMappedStorage] *)

Section basic.
Context {C : Type} `{!MultiIndex C BasicTraceInfo Z}.

Record MappedContainer := mkMappedContainer {
  symtab : gmap Z bytes;
  shltab : gmap Z bytes;
  indexed_container : C;
}.

Record BasicMappedStorage := mkBasicMappedStorage {
  m_name : bytes;
  m_size : Z;
  m_container : MappedContainer;
}.

(** The constructor: a fresh segment with an empty container. *)
Definition newBasicMappedStorage (name : bytes) (size : Z) : BasicMappedStorage :=
  mkBasicMappedStorage name size (mkMappedContainer ∅ ∅ mi_empty).

(** [SymbolTableUpdater::operator()] *)
Definition SymbolTableUpdater (item : CallStackInfoItem) (c : MappedContainer)
    : MappedContainer :=
  match symtab c !! csi_ip item with
  | Some _ => c
  | None =>
      let symtab' := <[csi_ip item := csi_procname item]> (symtab c) in
      match shltab c !! csi_shl_addr item with
      | Some _ => mkMappedContainer symtab' (shltab c) (indexed_container c)
      | None =>
          mkMappedContainer symtab'
            (<[csi_shl_addr item := csi_shl_path item]> (shltab c)) (indexed_container c)
      end
  end.

Definition set_container (s : BasicMappedStorage) (c : MappedContainer) : BasicMappedStorage :=
  mkBasicMappedStorage (m_name s) (m_size s) c.

Definition set_index (c : MappedContainer) (i : C) : MappedContainer :=
  mkMappedContainer (symtab c) (shltab c) i.

Definition basic_Add (address memsize : Z) (callstack : CallStackInfo) (timestamp : Z)
    (s : BasicMappedStorage) : BasicMappedStorage :=
  let c := fold_left (λ c item, SymbolTableUpdater item c) callstack (m_container s) in
  let c := set_index c
    (mi_emplace (newBasicTraceInfo address memsize timestamp callstack) (indexed_container c)).1 in
  set_container s c.

Definition basic_Remove (address : Z) (s : BasicMappedStorage) : BasicMappedStorage * bool :=
  let idx := indexed_container (m_container s) in
  match mi_find address idx with
  | None => (s, false)
  | Some _ => (set_container s (set_index (m_container s) (mi_erase address idx)), true)
  end.

Definition basic_UpdateSize (address memsize : Z) (s : BasicMappedStorage)
    : BasicMappedStorage * bool :=
  let idx := indexed_container (m_container s) in
  match mi_find address idx with
  | None => (s, false)
  | Some _ =>
      (set_container s (set_index (m_container s)
         (mi_modify address (ti_set_memsize memsize) idx)), true)
  end.

Definition basic_Clear (s : BasicMappedStorage) : BasicMappedStorage :=
  set_container s (set_index (m_container s) (mi_clear (indexed_container (m_container s)))).

Definition basic_Flush (s : BasicMappedStorage) : BasicMappedStorage := s.

Definition basic_GetName (s : BasicMappedStorage) : bytes := m_name s.

#[export] Instance basic_ops : MappedStorage BasicMappedStorage := {
  Add := basic_Add;
  Remove := basic_Remove;
  UpdateSize := basic_UpdateSize;
  Clear := basic_Clear;
  Flush := basic_Flush;
  GetName := basic_GetName;
}.

(** The records of a container, by address. *)
Definition basic_records (s : BasicMappedStorage) : gmap Z BasicTraceInfo :=
  mi_map ti_address (indexed_container (m_container s)).

End basic.
Arguments MappedContainer : clear implicits.
Arguments BasicMappedStorage : clear implicits.

(** The indices of [MappedContainer::IndexedContainer]. *)
Definition container_indices : list (BasicTraceInfo → Z) :=
  [ti_address; ti_timestamp; ti_memsize].

(** ** Lemmas *)

Lemma run_op_laws {St} `{StorageLaws St} op s :
  storage_inv s → op_ok op →
  storage_inv (run_op s op) ∧ records (run_op s op) = spec_op (records s) op.
Proof.
  intros Hs Hok. destruct op as [a n cs ts|a|a n]; simpl in *.
  - split; [by apply Add_inv|by apply Add_records].
  - split; [by apply Remove_inv|by apply Remove_records].
  - destruct Hok. split; [by apply UpdateSize_inv|by apply UpdateSize_records].
Qed.

Section basic_laws.
Context {C : Type} `{!MultiIndex C BasicTraceInfo Z}.
Context {L : MultiIndexLaws C BasicTraceInfo Z ti_address container_indices}.
Implicit Types s : BasicMappedStorage C.

Lemma updater_index item (c : MappedContainer C) :
  indexed_container (SymbolTableUpdater item c) = indexed_container c.
Proof. unfold SymbolTableUpdater. repeat case_match; done. Qed.

Lemma updaters_index cs (c : MappedContainer C) :
  indexed_container (fold_left (λ c item, SymbolTableUpdater item c) cs c) = indexed_container c.
Proof.
  revert c; induction cs as [|i cs IH]; intros c; simpl; [done|].
  by rewrite IH, updater_index.
Qed.

Lemma basic_Add_records a n cs ts s :
  basic_records (basic_Add a n cs ts s) = spec_add a n cs ts (basic_records s).
Proof.
  unfold basic_records, basic_Add, spec_add; simpl.
  rewrite updaters_index, mi_map_emplace, mi_map_lookup. done.
Qed.

Lemma basic_Remove_records a s :
  basic_records (basic_Remove a s).1 = spec_remove a (basic_records s).
Proof.
  unfold basic_records, basic_Remove, spec_remove.
  destruct (mi_find a _) eqn:Hf; simpl; [apply mi_map_erase|].
  symmetry. apply delete_id. by rewrite mi_map_lookup.
Qed.

Lemma basic_UpdateSize_records a n s :
  basic_records (basic_UpdateSize a n s).1 = spec_update a n (basic_records s).
Proof.
  unfold basic_records, basic_UpdateSize, spec_update.
  destruct (mi_find a _) eqn:Hf; simpl; [by apply mi_map_modify|].
  symmetry. apply map_eq; intros k. rewrite lookup_alter. case_decide; [subst|done].
  by rewrite mi_map_lookup, Hf.
Qed.

#[export] Instance basic_laws : StorageLaws (BasicMappedStorage C).
Proof.
  refine {| storage_inv _ := True; records := basic_records |}; try done.
  - intros. apply basic_Add_records.
  - intros. apply basic_Remove_records.
  - intros. apply basic_UpdateSize_records.
Defined.

(** *** Symbol tables *)

(** A symbolization: what the unwinder says of an instruction address. *)
Record symbols := mkSymbols { proc_of : Z → bytes; shl_of : Z → Z; path_of : Z → bytes }.

Definition item_follows (y : symbols) (i : CallStackInfoItem) : Prop :=
  csi_procname i = proc_of y (csi_ip i) ∧ csi_shl_addr i = shl_of y (csi_ip i) ∧
  csi_shl_path i = path_of y (csi_shl_addr i).

Definition op_follows (y : symbols) (op : storage_op) : Prop :=
  match op with OpAdd _ _ cs _ => Forall (item_follows y) cs | _ => True end.

(** The tables hold nothing but what [y] says, and the module of every known
    instruction address is known. *)
Definition tables_follow (y : symbols) (c : MappedContainer C) : Prop :=
  (∀ ip p, symtab c !! ip = Some p → p = proc_of y ip ∧ is_Some (shltab c !! shl_of y ip)) ∧
  (∀ shl p, shltab c !! shl = Some p → p = path_of y shl).

(** A frame whose names can be looked up. *)
Definition frame_known (y : symbols) (c : MappedContainer C) (f : TraceInfoCallStackItem) : Prop :=
  symtab c !! ip f = Some (proc_of y (ip f)) ∧
  shltab c !! shl_addr f = Some (path_of y (shl_addr f)).

Definition symbols_inv (y : symbols) (s : BasicMappedStorage C) : Prop :=
  tables_follow y (m_container s) ∧
  map_Forall (λ _ t, Forall (frame_known y (m_container s)) (ti_callstack t)) (basic_records s).

Lemma updater_follows y i (c : MappedContainer C) :
  item_follows y i → tables_follow y c →
  tables_follow y (SymbolTableUpdater i c) ∧ frame_known y (SymbolTableUpdater i c) (Builder i).
Proof.
  intros (Hp & Hs & Hq) [Ht Hl]. unfold SymbolTableUpdater, frame_known; simpl.
  destruct (symtab c !! csi_ip i) as [p|] eqn:Hi.
  { split; [done|]. destruct (Ht _ _ Hi) as [-> [q Hq']]. rewrite Hi, Hs, Hq'.
    by rewrite (Hl _ _ Hq'). }
  destruct (shltab c !! csi_shl_addr i) as [q|] eqn:Hj; simpl; split.
  - split; simpl; [|done]. intros ip p. rewrite lookup_insert_Some.
    intros [[<- <-]|[? ?]]; [|by apply Ht]. rewrite <- Hs. eauto.
  - rewrite lookup_insert_eq, Hj, Hp. by rewrite (Hl _ _ Hj).
  - split; simpl; intros ? ?; rewrite lookup_insert_Some.
    + intros [[<- <-]|[? Hx]].
      * rewrite <- Hs, lookup_insert_eq. eauto.
      * destruct (Ht _ _ Hx) as [-> ?]. split; [done|]. by apply lookup_insert_is_Some'; right.
    + intros [[<- <-]|[? Hx]]; auto.
  - by rewrite !lookup_insert_eq, Hp, Hq.
Qed.

Lemma updater_keeps_frame y i (c : MappedContainer C) f :
  frame_known y c f → frame_known y (SymbolTableUpdater i c) f.
Proof.
  unfold frame_known, SymbolTableUpdater. intros [Hs Hl].
  destruct (symtab c !! csi_ip i) as [p|] eqn:Hi; [done|].
  destruct (shltab c !! csi_shl_addr i) as [q|] eqn:Hj; simpl;
    rewrite ?lookup_insert_ne by congruence; done.
Qed.

Lemma updaters_follow y cs (c : MappedContainer C) :
  Forall (item_follows y) cs → tables_follow y c →
  let c' := fold_left (λ c item, SymbolTableUpdater item c) cs c in
  tables_follow y c' ∧ Forall (frame_known y c') (Builder <$> cs) ∧
  (∀ f, frame_known y c f → frame_known y c' f).
Proof.
  intros Hcs. revert c; induction Hcs as [|i cs Hi Hcs IH]; intros c Hc; simpl; [done|].
  destruct (updater_follows y i c Hi Hc) as [Hc' Hf].
  destruct (IH _ Hc') as (? & ? & Hk). split_and!; auto using updater_keeps_frame.
Qed.

Lemma run_op_symbols y s op :
  symbols_inv y s → op_follows y op → symbols_inv y (run_op s op).
Proof.
  intros [Ht Hr] Hop. destruct op as [a n cs ts|a|a n]; simpl in *.
  - destruct (updaters_follow y cs _ Hop Ht) as (Ht' & Hcs & Hk). split; [done|].
    rewrite basic_Add_records. unfold spec_add.
    assert (map_Forall (λ _ t, Forall (frame_known y
      (m_container (basic_Add a n cs ts s))) (ti_callstack t)) (basic_records s)) as Hr'.
    { eapply map_Forall_impl; [exact Hr|]. intros k t Hf. eapply Forall_impl; [exact Hf|]. apply Hk. }
    case_match; [done|]. by apply map_Forall_insert_2.
  - assert (tables_follow y (m_container (basic_Remove a s).1)) as Ht'.
    { unfold basic_Remove. by destruct (mi_find _ _). }
    split; [done|]. rewrite basic_Remove_records. apply map_Forall_delete.
    eapply map_Forall_impl; [exact Hr|]. intros k t Hf. unfold basic_Remove.
    by destruct (mi_find _ _).
  - assert (tables_follow y (m_container (basic_UpdateSize a n s).1)) as Ht'.
    { unfold basic_UpdateSize. by destruct (mi_find _ _). }
    split; [done|]. rewrite basic_UpdateSize_records. unfold spec_update.
    intros k t Hk. rewrite lookup_alter in Hk.
    assert (Forall (frame_known y (m_container s)) (ti_callstack t)) as Hf.
    { case_decide; [|by apply (Hr k)]. apply fmap_Some in Hk as (t0 & Ht0 & ->). exact (Hr _ _ Ht0). }
    unfold basic_UpdateSize. by destruct (mi_find _ _).
Qed.

(** ** Properties *)

(** C9.  Refinement: whatever updates a database receives, it holds the
    records that the same updates leave in a map from addresses to records:
    the first [Add] of an address wins until a [Remove], and [UpdateSize]
    changes the size of an existing record only. *)
Theorem storage_refines_map name size ops :
  basic_records (run_ops ops (newBasicMappedStorage name size)) = fold_left spec_op ops ∅.
Proof.
  rewrite <- (mi_map_empty (key := ti_address)).
  change (mi_map ti_address mi_empty) with (basic_records (newBasicMappedStorage name size)).
  generalize (newBasicMappedStorage name size). unfold run_ops.
  induction ops as [|op ops IH]; intros s; simpl; [done|]. rewrite IH. f_equal.
  destruct op; [apply basic_Add_records|apply basic_Remove_records|apply basic_UpdateSize_records].
Qed.

(** [Remove] and [UpdateSize] return whether there was a record of the
    address, and leave the whole database as it is when there was none;
    [Clear] leaves no record. *)
Theorem storage_results a n s :
  (basic_Remove a s).2 = bool_decide (is_Some (basic_records s !! a)) ∧
  (basic_UpdateSize a n s).2 = bool_decide (is_Some (basic_records s !! a)) ∧
  (basic_records s !! a = None → (basic_Remove a s).1 = s ∧ (basic_UpdateSize a n s).1 = s) ∧
  basic_records (basic_Clear s) = ∅.
Proof.
  unfold basic_records, basic_Remove, basic_UpdateSize. rewrite mi_map_lookup.
  split_and!; [by destruct (mi_find _ _)..| |apply mi_map_clear].
  by intros ->.
Qed.

(** Symbol tables: as long as the captured frames follow one
    symbolization, every frame of every record a database holds has its
    function name and its module path in the tables, and they are the right
    ones. *)
Theorem frames_are_named y name size ops a t f :
  Forall (op_follows y) ops →
  let s := run_ops ops (newBasicMappedStorage name size) in
  basic_records s !! a = Some t → f ∈ ti_callstack t →
  symtab (m_container s) !! ip f = Some (proc_of y (ip f)) ∧
  shltab (m_container s) !! shl_addr f = Some (path_of y (shl_addr f)).
Proof.
  intros Hops. cut (symbols_inv y (run_ops ops (newBasicMappedStorage name size))).
  { intros [_ Hr] s Ha Hf. specialize (Hr a t Ha). rewrite Forall_forall in Hr. by apply Hr. }
  assert (symbols_inv y (newBasicMappedStorage name size)) as Hs.
  { split; [split; simpl; intros ?? Hl; by rewrite lookup_empty in Hl|].
    unfold basic_records. simpl. rewrite mi_map_empty. apply map_Forall_empty. }
  revert Hs. generalize (newBasicMappedStorage name size).
  induction Hops as [|op ops Hop Hops IH]; intros s Hs; [done|]. by apply IH, run_op_symbols.
Qed.

End basic_laws.

(** A database over the reference container. *)
Abbreviation ref_index := (ListIndex.t ti_address).
#[export] Instance ref_index_ops : MultiIndex ref_index BasicTraceInfo Z :=
  ListIndex.ops ti_address container_indices.
#[export] Instance ref_index_laws :
  MultiIndexLaws ref_index BasicTraceInfo Z ti_address container_indices.
Proof. by apply ListIndex.laws. Qed.

(** ** Examples *)

Definition demo_symbols : symbols := mkSymbols (λ ip, [ip]) (λ ip, ip / 4096) (λ shl, [shl; 1]).

Definition demo_frame (ip : Z) : CallStackInfoItem :=
  mkCallStackInfoItem [ip / 4096; 1] [ip] (ip / 4096) ip 0 0.

Definition demo_ops : list storage_op :=
  [OpAdd 64 16 [demo_frame 8200; demo_frame 8204] 1; OpAdd 96 8 [demo_frame 12300] 2;
   OpAdd 64 1 [] 3; OpUpdateSize 96 24; OpRemove 128].

Definition demo_storage : BasicMappedStorage ref_index :=
  run_ops demo_ops (newBasicMappedStorage [] 0).

Lemma storage_refines_map_witness :
  basic_records demo_storage = fold_left spec_op demo_ops ∅.
Proof. apply (storage_refines_map [] 0 demo_ops). Defined.

Lemma storage_results_witness :
  (basic_Remove 64 demo_storage).2 = true ∧ (basic_Remove 65 demo_storage).1 = demo_storage.
Proof.
  pose proof (storage_results 64 1 demo_storage) as (Hr & _).
  pose proof (storage_results 65 1 demo_storage) as (_ & _ & Hn & _).
  split; [rewrite Hr; vm_compute; reflexivity|apply Hn; vm_compute; reflexivity].
Defined.

Lemma frames_are_named_witness :
  symtab (m_container demo_storage) !! 8204 = Some [8204] ∧
  shltab (m_container demo_storage) !! 2 = Some [2; 1].
Proof.
  apply (frames_are_named demo_symbols [] 0 demo_ops 64
    (newBasicTraceInfo 64 16 1 [demo_frame 8200; demo_frame 8204]) (Builder (demo_frame 8204))).
  - repeat constructor.
  - vm_compute; reflexivity.
  - by_decide.
Defined.

End Storage.
