(* ===== verification/LevelDB.v ===== *)
(** * The LevelDB storage

    src/memhookcore/leveldb_storage.cpp and leveldb_storage.h: a storage that
    opens three LevelDB databases in a directory and whose operations are
    still empty, with the comparator for the table of records.  Nothing in the
    repository creates one.

    The file system is a map from paths to what is there.  [DB::Open] is a
    parameter: it opens the database at a path with some options or fails with
    a message, and may change the file system below that path. *)
From S2P Require Import Prelude TraceInfo Network Storage.

Module LevelDB.
Import Storage.

(** ** The comparator *)

(** [*reinterpret_cast<const rep *> (slice.data ())]: the first eight bytes as
    a signed number; [None] is a read past the end of the slice. *)
Definition read_rep (slice : bytes) : option Z :=
  if bool_decide (8 ≤ length slice)%nat then Some (i64 (le_combine (take 8 slice))) else None.

Definition SystemClockComparator_Compare (lhs rhs : bytes) : option Z :=
  lhs_rep ← read_rep lhs;
  rhs_rep ← read_rep rhs;
  Some (if lhs_rep <? rhs_rep then -1 else if lhs_rep >? rhs_rep then 1 else 0).

Definition SystemClockComparator_Name : string := "SystemClockComparator".

(** Both leave the key as it is. *)
Definition FindShortestSeparator (start limit : bytes) : bytes := start.
Definition FindShortSuccessor (key : bytes) : bytes := key.

(** ** The storage *)

Inductive node := Directory | File.
Abbreviation fs := (gmap string node).

(** The members of [leveldb::Options] that are set: the name of the comparator,
    and the size of the block cache. *)
Record Options := mkOptions {
  create_if_missing : bool;
  compression : bool;
  comparator : option string;
  block_cache : option Z;
}.

Section storage.
(** An open database. *)
Context {DB : Type}.
Context (DB_Open : Options → string → fs → (string + DB) * fs).

Record LevelDBStorage := mkLevelDBStorage {
  m_path : string;
  m_cache_size_mb : Z;
  m_dattab : DB;
  m_symtab : DB;
  m_shltab : DB;
}.

(** [OpenDB]; the message is that of the exception. *)
Definition OpenDB (options : Options) (path : string) (f : fs) : (string + DB) * fs := DB_Open options path f.

(** [path / name] *)
Definition path_append (path name : string) : string := path +:+ "/" +:+ name.

(** What makes the path a directory: anything else there is removed. *)
Definition make_directory (path : string) (f : fs) : fs :=
  match f !! path with
  | Some Directory => f
  | Some File => <[path := Directory]> (delete path f)
  | None => <[path := Directory]> f
  end.

(** One opening after the other, the first failure ends the constructor. *)
Definition and_then {A B} (r : (string + A) * fs) (k : A → fs → (string + B) * fs) : (string + B) * fs :=
  match r with
  | (inl e, f) => (inl e, f)
  | (inr a, f) => k a f
  end.

Definition table_options : Options := mkOptions true false None None.
Definition record_options (cache_size_mb : Z) : Options :=
  mkOptions true false (Some SystemClockComparator_Name)
    (if cache_size_mb =? 0 then None else Some (u64 (u64 (cache_size_mb * 1024) * 1024))).

Definition NewLevelDBStorage (path : string) (cache_size_mb : Z) (f : fs) : (string + LevelDBStorage) * fs :=
  let f := make_directory path f in
  and_then (OpenDB table_options (path_append path "symtab") f) (λ symtab f,
  and_then (OpenDB table_options (path_append path "shltab") f) (λ shltab f,
  and_then (OpenDB (record_options cache_size_mb) (path_append path "dattab") f) (λ dattab f,
  (inr (mkLevelDBStorage path cache_size_mb dattab symtab shltab), f)))).

#[export] Instance leveldb_ops (string_bytes : string → bytes) : MappedStorage LevelDBStorage := {
  Add _ _ _ _ s := s;
  Remove _ s := (s, false);
  UpdateSize _ _ s := (s, false);
  Clear s := s;
  Flush s := s;
  GetName s := string_bytes (m_path s);
}.

(** ** Theorems *)

(** What the library needs of a comparator: on keys of the right length it is
    a total order, the one of the times they hold, and it does not depend on
    what follows the time in the key.  A shorter key is read past its end. *)
Theorem comparator_orders_times k1 k2 t1 t2 r1 r2 :
  in_s 64 t1 → in_s 64 t2 → k1 = le_split 8 t1 ++ r1 → k2 = le_split 8 t2 ++ r2 →
  (SystemClockComparator_Compare k1 k2 = Some (-1) ↔ t1 < t2) ∧
  (SystemClockComparator_Compare k1 k2 = Some 1 ↔ t2 < t1) ∧
  (SystemClockComparator_Compare k1 k2 = Some 0 ↔ t1 = t2) ∧
  ∀ k, (length k < 8)%nat → SystemClockComparator_Compare k k2 = None.
Proof.
  assert (∀ t r, in_s 64 t → read_rep (le_split 8 t ++ r) = Some t) as Hread.
  { intros t r Ht. unfold read_rep. rewrite bool_decide_true by (rewrite length_app, length_le_split; lia).
    rewrite take_app_length' by (by rewrite length_le_split). rewrite le_combine_split.
    by rewrite swrap_wrap_small. }
  intros H1 H2 -> ->. unfold SystemClockComparator_Compare. rewrite !Hread by done. simpl.
  split_and!; [..|intros k Hk; unfold read_rep; by rewrite bool_decide_false by lia].
  all: destruct (t1 <? t2) eqn:Hlt; [|destruct (t1 >? t2) eqn:Hgt]; zify_bool;
    split; intros; try lia; try done; try (exfalso; simplify_eq; lia).
Qed.

(** The constructor leaves a directory at the path, whatever was there, and
    opens the three databases in it in the order of the code; the first
    failure is the result, and the databases behind it are not touched. *)
Theorem storage_opens_three_databases path cache_size_mb f :
  (∀ o p g, p ≠ path → (DB_Open o p g).2 !! path = g !! path) →
  let r := NewLevelDBStorage path cache_size_mb f in
  r.2 !! path = Some Directory ∧
  match r.1 with
  | inr s =>
      m_path s = path ∧ ∃ f1 f2,
        DB_Open table_options (path_append path "symtab") (make_directory path f) = (inr (m_symtab s), f1) ∧
        DB_Open table_options (path_append path "shltab") f1 = (inr (m_shltab s), f2) ∧
        DB_Open (record_options cache_size_mb) (path_append path "dattab") f2 = (inr (m_dattab s), r.2)
  | inl e => ∃ o p g, DB_Open o p g = (inl e, r.2)
  end.
Proof.
  intros Hopen. unfold NewLevelDBStorage, OpenDB.
  assert (∀ n, n ≠ ""%string → path_append path n ≠ path) as Hne.
  { intros n Hn. unfold path_append. clear -Hn. induction path as [|c p IH]; simpl; [done|].
    intros [= E]. done. }
  assert (make_directory path f !! path = Some Directory) as Hd.
  { unfold make_directory. destruct (f !! path) as [[]|] eqn:E; [done|..]; apply lookup_insert_eq. }
  pose proof (Hopen table_options (path_append path "symtab") (make_directory path f) ltac:(by apply Hne)) as H1.
  destruct (DB_Open table_options (path_append path "symtab") (make_directory path f)) as [[e|d1] f1] eqn:E1;
    simpl in *; [split; [congruence|by eauto]|].
  pose proof (Hopen table_options (path_append path "shltab") f1 ltac:(by apply Hne)) as H2.
  destruct (DB_Open table_options (path_append path "shltab") f1) as [[e|d2] f2] eqn:E2;
    simpl in *; [split; [congruence|by eauto]|].
  pose proof (Hopen (record_options cache_size_mb) (path_append path "dattab") f2 ltac:(by apply Hne)) as H3.
  destruct (DB_Open (record_options cache_size_mb) (path_append path "dattab") f2) as [[e|d3] f3] eqn:E3;
    simpl in *; [split; [congruence|by eauto]|].
  split; [congruence|]. split; [done|]. by exists f1, f2.
Qed.

End storage.
End LevelDB.
