(* ===== verification/Session.v ===== *)
(** * The database server's sessions

    src/memdb/memdb_session.cpp: a session reads frames (a header with the
    size of the request, then the request) from its connection and applies
    the requests to the database it opened for the client.

    The two parsing functions call each other as long as the input buffer
    holds enough bytes; they take fuel, and [parse_fuel] is always enough.
    A connection is a step relation: a step delivers some number of bytes
    that the completion condition of the pending read admits. *)
From S2P Require Import Prelude Boost TraceInfo Serialization Network Storage.

Module Session.
Import Serialization Network Storage.

(** What the code does outside of C++'s defined behaviour, and running out of
    fuel in the model. *)
Inductive fault := NullStorage | ReadPastEnd | OutOfFuel.

Inductive outcome (A : Type) := Done (a : A) | Fault (f : fault).
Arguments Done {_}.
Arguments Fault {_}.

(** [ParsingInfo]: how many bytes to read next and who parses them. *)
Inductive callback := CbParseOutbound | CbParseInbound.

Record ParsingInfo := mkParsingInfo {
  pi_size : Z;
  pi_callback : option callback;
}.

(** The completion conditions of [boost::asio::async_read]. *)
Inductive completion := transfer_at_least (n : Z) | transfer_exactly (n : Z).

Inductive error_code := no_error | eof | other_error.

(** What a session is doing: waiting for a read to complete, or finished, or
    in undefined behaviour. *)
Inductive status := Reading (c : completion) (cb : callback) | Closed | Crashed (f : fault).

Section session.
Context {St : Type} `{MappedStorage St, AsioBuffer}.

(** [storage_creator_->New (pid)] *)
Context (New : Z → St).

Record MemDBSession := mkSession {
  sbuf_ : bytes;
  storage_ : option St;
}.

(** The constructor. *)
Definition newSession : MemDBSession := mkSession [] None.

(** [Start ()] *)
Definition Start : status := Reading (transfer_at_least sizeof_NetProtoOutbound) CbParseOutbound.

(** *** Request handlers; [None] is a call through the null [storage_] *)

Definition OnAdd (ti : TraceInfoBase) (cs : CallStackInfo) (s : MemDBSession)
    : option MemDBSession :=
  match storage_ s with
  | Some st => Some (mkSession (sbuf_ s) (Some (Add (address ti) (memsize ti) cs (timestamp ti) st)))
  | None => None
  end.

Definition OnRemove (ti : TraceInfoBase) (s : MemDBSession) : option MemDBSession :=
  match storage_ s with
  | Some st => Some (mkSession (sbuf_ s) (Some (Remove (address ti) st).1))
  | None => None
  end.

Definition OnUpdateSize (ti : TraceInfoBase) (s : MemDBSession) : option MemDBSession :=
  match storage_ s with
  | Some st => Some (mkSession (sbuf_ s) (Some (UpdateSize (address ti) (memsize ti) st).1))
  | None => None
  end.

Definition OnNewStorage (pid : Z) (s : MemDBSession) : option MemDBSession :=
  Some (mkSession (sbuf_ s) (Some (New pid))).

Definition HandleNetRequest (request : NetRequest) (s : MemDBSession)
    : option (MemDBSession * bool) :=
  let ret (r : option MemDBSession) := match r with Some s => Some (s, true) | None => None end in
  if type request =? kNetReqAdd then ret (OnAdd (traceinfo request) (callstack request) s)
  else if type request =? kNetReqRemove then ret (OnRemove (traceinfo request) s)
  else if type request =? kNetReqUpdateSize then ret (OnUpdateSize (traceinfo request) s)
  else if type request =? kNetReqNewStorage then ret (OnNewStorage (address (traceinfo request)) s)
  else Some (s, false).

(** *** Parsing *)

Fixpoint ParseOutbound (fuel : nat) (s : MemDBSession)
    : outcome (ParsingInfo * MemDBSession) :=
  match fuel with
  | O => Fault OutOfFuel
  | S fuel =>
    let inputbuf := Buffer 0 (length (sbuf_ s)) in
    let bytes_inputbuf := Z.of_nat (buf_size inputbuf) in
    if bytes_inputbuf <? sizeof_NetProtoOutbound then
      Done (mkParsingInfo (sizeof_NetProtoOutbound - bytes_inputbuf) (Some CbParseOutbound), s)
    else
      match (Read : reader NetProtoOutbound) (sbuf_ s) inputbuf with
      | None => Fault ReadPastEnd
      | Some (outbound, inputbuf) =>
        let bytes_read := bytes_inputbuf - Z.of_nat (buf_size inputbuf) in
        let bytes_inputbuf := bytes_inputbuf - bytes_read in
        let s := mkSession (streambuf_consume (sbuf_ s) (Z.to_nat bytes_read)) (storage_ s) in
        if bytes_inputbuf <? size outbound then
          Done (mkParsingInfo (size outbound - bytes_inputbuf) (Some CbParseInbound), s)
        else ParseInbound fuel s
      end
  end
with ParseInbound (fuel : nat) (s : MemDBSession)
    : outcome (ParsingInfo * MemDBSession) :=
  match fuel with
  | O => Fault OutOfFuel
  | S fuel =>
    let inputbuf := Buffer 0 (length (sbuf_ s)) in
    let bytes_inputbuf := Z.of_nat (buf_size inputbuf) in
    match (Read : reader NetRequest) (sbuf_ s) inputbuf with
    | None => Fault ReadPastEnd
    | Some (request, inputbuf) =>
      match HandleNetRequest request s with
      | None => Fault NullStorage
      | Some (s, false) => Done (mkParsingInfo 0 None, s)
      | Some (s, true) =>
        let bytes_read := bytes_inputbuf - Z.of_nat (buf_size inputbuf) in
        let bytes_inputbuf := bytes_inputbuf - bytes_read in
        let s := mkSession (streambuf_consume (sbuf_ s) (Z.to_nat bytes_read)) (storage_ s) in
        if bytes_inputbuf <? sizeof_NetProtoOutbound then
          Done (mkParsingInfo (sizeof_NetProtoOutbound - bytes_inputbuf) (Some CbParseOutbound), s)
        else ParseOutbound fuel s
      end
    end
  end.

(** Every call but the last consumes a byte at least. *)
Definition parse_fuel (s : MemDBSession) : nat := S (length (sbuf_ s)).

Definition run_callback (cb : callback) (s : MemDBSession)
    : outcome (ParsingInfo * MemDBSession) :=
  match cb with
  | CbParseOutbound => ParseOutbound (parse_fuel s) s
  | CbParseInbound => ParseInbound (parse_fuel s) s
  end.

Definition OnReadComplete (cb : callback) (e : error_code) (s : MemDBSession)
    : status * MemDBSession :=
  match e with
  | eof | other_error => (Closed, s)
  | no_error =>
    match run_callback cb s with
    | Fault f => (Crashed f, s)
    | Done (parsing_info, s) =>
      if pi_size parsing_info =? 0 then (Closed, s)
      else
        match pi_callback parsing_info with
        | Some cb => (Reading (transfer_exactly (pi_size parsing_info)) cb, s)
        | None => (Closed, s)
        end
    end
  end.

(** *** The connection *)

(** How many bytes a read may deliver. *)
Definition completes (c : completion) (k : nat) : Prop :=
  match c with
  | transfer_at_least n => n ≤ Z.of_nat k
  | transfer_exactly n => Z.of_nat k = n
  end.

Definition needs (c : completion) : Z :=
  match c with transfer_at_least n | transfer_exactly n => n end.

(** The bytes a read appends to the stream buffer. *)
Definition receive (bs : bytes) (s : MemDBSession) : MemDBSession :=
  mkSession (sbuf_ s ++ bs) (storage_ s).

Record connection := mkConnection {
  c_status : status;
  c_session : MemDBSession;
  c_wire : bytes;  (** the bytes sent and not yet delivered *)
}.

Inductive net_step : connection → connection → Prop :=
| net_read c cb s wire k st s' :
    completes c k → (k ≤ length wire)%nat →
    OnReadComplete cb no_error (receive (take k wire) s) = (st, s') →
    net_step (mkConnection (Reading c cb) s wire) (mkConnection st s' (drop k wire))
| net_eof c cb s wire st s' :
    Z.of_nat (length wire) < needs c →
    OnReadComplete cb eof (receive wire s) = (st, s') →
    net_step (mkConnection (Reading c cb) s wire) (mkConnection st s' []).

(** A new connection over which [wire] is sent. *)
Definition open_connection (wire : bytes) : connection := mkConnection Start newSession wire.

(** *** The requests a client sent, and what serving them does *)

Definition frame (r : NetRequest) : bytes :=
  enc_outbound (mkOutbound (Z.of_nat (length (enc_request r)))) ++ enc_request r.

Definition stream (reqs : list NetRequest) : bytes := concat (frame <$> reqs).

(** The storage after a request; [None] if the session would not go on. *)
Definition serve_one (r : NetRequest) (st : option St) : option (option St) :=
  match HandleNetRequest r (mkSession [] st) with
  | Some (s, true) => Some (storage_ s)
  | _ => None
  end.

Fixpoint serve (reqs : list NetRequest) (st : option St) : option (option St) :=
  match reqs with
  | [] => Some st
  | r :: reqs => match serve_one r st with Some st => serve reqs st | None => None end
  end.

End session.
Arguments MemDBSession : clear implicits.
Arguments connection : clear implicits.

(** ** Lemmas *)

Section lemmas.
Context {St : Type} `{MappedStorage St, AsioBufferLaws}.
Context (New : Z → St).
Implicit Types (s : MemDBSession St) (r : NetRequest) (reqs : list NetRequest).

Lemma HandleNetRequest_sbuf r b st :
  HandleNetRequest New r (mkSession b st) =
    match HandleNetRequest New r (mkSession [] st) with
    | Some (s, ok) => Some (mkSession b (storage_ s), ok)
    | None => None
    end.
Proof.
  unfold HandleNetRequest, OnAdd, OnRemove, OnUpdateSize, OnNewStorage. simpl.
  destruct st; repeat case_match; simplify_eq/=; done.
Qed.

Lemma serve_one_handle r b st st' :
  serve_one New r st = Some st' →
  HandleNetRequest New r (mkSession b st) = Some (mkSession b st', true).
Proof.
  unfold serve_one. rewrite (HandleNetRequest_sbuf r b).
  destruct (HandleNetRequest New r (mkSession [] st)) as [[s []]|]; naive_solver.
Qed.

Lemma serve_app reqs1 reqs2 st :
  serve New (reqs1 ++ reqs2) st =
    match serve New reqs1 st with Some st => serve New reqs2 st | None => None end.
Proof.
  revert st; induction reqs1 as [|r reqs1 IH]; intros st; simpl; [done|].
  destruct (serve_one New r st); [apply IH|done].
Qed.

Lemma stream_cons r reqs :
  stream (r :: reqs) =
    enc_outbound (mkOutbound (Z.of_nat (length (enc_request r)))) ++
    enc_request r ++ stream reqs.
Proof. unfold stream, frame. simpl. by rewrite app_assoc. Qed.

Lemma outbound_in_u r :
  request_ok r → in_u 64 (size (mkOutbound (Z.of_nat (length (enc_request r))))).
Proof. intros (_ & _ & _ & ?). unfold in_u. simpl. lia. Qed.

(** A header at the front of the buffer. *)
Lemma ParseOutbound_header fuel o rest st :
  in_u 64 (size o) →
  ParseOutbound New (S fuel) (mkSession (enc_outbound o ++ rest) st) =
    if Z.of_nat (length rest) <? size o then
      Done (mkParsingInfo (size o - Z.of_nat (length rest)) (Some CbParseInbound),
            mkSession rest st)
    else ParseInbound New fuel (mkSession rest st).
Proof.
  intros Ho. cbn [ParseOutbound sbuf_ storage_ buf_size].
  destruct (outbound_decodes o Ho) as [Hd _].
  rewrite length_app, length_enc_outbound. unfold sizeof_NetProtoOutbound.
  rewrite (proj2 (Z.ltb_ge _ _)) by lia. unfold Read.
  rewrite (Hd _ _ rest) by (rewrite ?length_enc_outbound; simpl; lia || done).
  rewrite length_enc_outbound, buffer_plus_le by (simpl; lia). cbn [buf_size].
  replace (Z.of_nat (8 + length rest) - Z.of_nat (8 + length rest - 8)) with 8 by lia.
  replace (Z.of_nat (8 + length rest) - 8) with (Z.of_nat (length rest)) by lia.
  rewrite streambuf_consume_spec, drop_app_length' by (by rewrite length_enc_outbound). done.
Qed.

(** A request at the front of the buffer. *)
Lemma ParseInbound_request fuel r rest st st' :
  request_ok r → serve_one New r st = Some st' →
  ParseInbound New (S fuel) (mkSession (enc_request r ++ rest) st) =
    if Z.of_nat (length rest) <? sizeof_NetProtoOutbound then
      Done (mkParsingInfo (sizeof_NetProtoOutbound - Z.of_nat (length rest)) (Some CbParseOutbound),
            mkSession rest st')
    else ParseOutbound New fuel (mkSession rest st').
Proof.
  intros Hr Hs. cbn [ParseInbound sbuf_ storage_ buf_size].
  destruct (request_decodes r Hr) as [Hd _]. unfold Read.
  rewrite (Hd _ _ rest) by (simpl; rewrite ?length_app; lia || done).
  rewrite (serve_one_handle _ _ _ _ Hs). cbn [sbuf_ storage_].
  rewrite length_app, buffer_plus_le by (simpl; lia). cbn [buf_size].
  set (n := length (enc_request r)).
  replace (Z.of_nat (n + length rest) - Z.of_nat (n + length rest - n)) with (Z.of_nat n) by lia.
  replace (Z.of_nat (n + length rest) - Z.of_nat n) with (Z.of_nat (length rest)) by lia.
  by rewrite streambuf_consume_spec, Nat2Z.id, drop_app_length' by done.
Qed.

(** The session waits inside the bytes of the requests [todo], of which
    [wire] is still to come. *)
Inductive waiting (info : ParsingInfo) (s : MemDBSession St) (wire : bytes)
    (todo : list NetRequest) : Prop :=
| wait_header :
    info = mkParsingInfo (8 - Z.of_nat (length (sbuf_ s))) (Some CbParseOutbound) →
    (length (sbuf_ s) < 8)%nat → sbuf_ s ++ wire = stream todo → waiting info s wire todo
| wait_body r todo' :
    todo = r :: todo' →
    info = mkParsingInfo (Z.of_nat (length (enc_request r)) - Z.of_nat (length (sbuf_ s)))
             (Some CbParseInbound) →
    (length (sbuf_ s) < length (enc_request r))%nat →
    sbuf_ s ++ wire = enc_request r ++ stream todo' → waiting info s wire todo.

(** What parsing achieves on the buffer of [s]: a prefix [done] of the
    requests is served and the session waits inside the rest. *)
Definition parsed (res : outcome (ParsingInfo * MemDBSession St)) (s : MemDBSession St)
    (wire : bytes) (reqs : list NetRequest) : Prop :=
  ∃ info s' done todo,
    res = Done (info, s') ∧ reqs = done ++ todo ∧
    serve New done (storage_ s) = Some (storage_ s') ∧ waiting info s' wire todo.

Lemma parse_stream fuel :
  (∀ s wire reqs st', Forall request_ok reqs →
    sbuf_ s ++ wire = stream reqs → serve New reqs (storage_ s) = Some st' →
    (length (sbuf_ s) < fuel)%nat → parsed (ParseOutbound New fuel s) s wire reqs) ∧
  (∀ s wire r reqs st', Forall request_ok (r :: reqs) →
    sbuf_ s ++ wire = enc_request r ++ stream reqs →
    serve New (r :: reqs) (storage_ s) = Some st' →
    (length (enc_request r) ≤ length (sbuf_ s) < fuel)%nat →
    parsed (ParseInbound New fuel s) s wire (r :: reqs)).
Proof.
  induction fuel as [|fuel [IHo IHi]]; [split; intros; lia|]. split.
  - intros [b st] wire reqs st' Hok Hb Hs Hf. cbn [sbuf_ storage_] in *.
    destruct (decide (length b < 8)%nat) as [Hlt|Hge].
    { eexists _, _, [], reqs. split_and!; [|done..|by apply wait_header].
      cbn [ParseOutbound sbuf_ buf_size]. unfold sizeof_NetProtoOutbound.
      by rewrite (proj2 (Z.ltb_lt _ _)) by lia. }
    destruct reqs as [|r reqs].
    { apply (f_equal length) in Hb. rewrite length_app in Hb. simpl in Hb. lia. }
    rewrite stream_cons in Hb. pose proof (Forall_inv Hok) as Hr.
    apply app_prefix in Hb as (b' & -> & Hb); [|rewrite length_enc_outbound; lia].
    rewrite length_app, length_enc_outbound in Hf.
    rewrite ParseOutbound_header by (by apply outbound_in_u). cbn [size].
    case_match eqn:Hc; zify_bool.
    + eexists _, _, [], (r :: reqs). split_and!; [done..|].
      eapply wait_body; [done..| |]; simpl; [lia|done].
    + apply (IHi (mkSession b' st) wire r reqs st'); simpl; try done; lia.
  - intros [b st] wire r reqs st' Hok Hb Hs Hf. cbn [sbuf_ storage_] in *.
    apply app_prefix in Hb as (b' & -> & Hb); [|lia].
    pose proof (length_enc_request r). rewrite length_app in Hf.
    simpl in Hs. destruct (serve_one New r st) as [st1|] eqn:Hone; [|done].
    rewrite (ParseInbound_request _ _ _ _ st1) by (by apply Forall_inv in Hok).
    unfold sizeof_NetProtoOutbound. case_match eqn:Hc; zify_bool.
    + eexists _, _, [r], reqs. split_and!; [done..| |].
      * simpl. by rewrite Hone.
      * apply wait_header; simpl; [done|lia|done].
    + destruct (IHo (mkSession b' st1) wire reqs st') as (info & s' & d & t & He & -> & Hd & Hw);
        [by apply Forall_inv_tail in Hok|done..|simpl; lia|].
      exists info, s', (r :: d), t. split_and!; [done..| |done].
      simpl. by rewrite Hone.
Qed.

(** *** Connections over which a client sends [reqs] *)

Inductive connection_inv (reqs : list NetRequest) : connection St → Prop :=
| inv_reading c cb s wire done todo :
    reqs = done ++ todo → serve New done None = Some (storage_ s) →
    waiting (mkParsingInfo (needs c) (Some cb)) s wire todo →
    connection_inv reqs (mkConnection (Reading c cb) s wire)
| inv_closed s :
    serve New reqs None = Some (storage_ s) →
    connection_inv reqs (mkConnection Closed s []).

Lemma stream_nil_inv todo : (length (stream todo) < 8)%nat → todo = [].
Proof.
  destruct todo as [|r todo]; [done|]. rewrite stream_cons, length_app, length_enc_outbound. lia.
Qed.

Lemma waiting_pos info s wire todo : waiting info s wire todo → 0 < pi_size info.
Proof. destruct 1; simplify_eq/=; lia. Qed.

Lemma waiting_callback info s wire todo :
  waiting info s wire todo → info = mkParsingInfo (pi_size info) (pi_callback info) ∧
  is_Some (pi_callback info).
Proof. destruct 1; simplify_eq/=; eauto. Qed.

(** A parse of the stream leaves the session reading on. *)
Lemma parsed_reading cb s s0 wire todo :
  parsed (run_callback New cb s) s0 wire todo →
  ∃ n cb' s' done todo', OnReadComplete New cb no_error s = (Reading (transfer_exactly n) cb', s') ∧
    todo = done ++ todo' ∧ serve New done (storage_ s0) = Some (storage_ s') ∧
    waiting (mkParsingInfo n (Some cb')) s' wire todo'.
Proof.
  intros (info & s' & d & t & Hrun & -> & Hd & Hw). unfold OnReadComplete. rewrite Hrun.
  pose proof (waiting_pos _ _ _ _ Hw) as Hpos.
  rewrite (proj2 (Z.eqb_neq _ _)) by lia.
  destruct (waiting_callback _ _ _ _ Hw) as [Hi [cb' Hcb]]. rewrite Hcb in *.
  eexists _, cb', s', d, t. split_and!; [done..|]. by rewrite <- Hi.
Qed.

(** The bytes a pending read asks for suffice to go on parsing. *)
Lemma receive_parsed c cb s wire todo st' k :
  Forall request_ok todo → serve New todo (storage_ s) = Some st' →
  waiting (mkParsingInfo (needs c) (Some cb)) s wire todo →
  needs c ≤ Z.of_nat k → (k ≤ length wire)%nat →
  parsed (run_callback New cb (receive (take k wire) s)) s (drop k wire) todo.
Proof.
  intros Hok Hs Hw Hn Hk.
  assert ((sbuf_ s ++ take k wire) ++ drop k wire = sbuf_ s ++ wire) as Hcat
    by (by rewrite <- app_assoc, take_drop).
  destruct Hw as [Hi Hl Hb|r todo' -> Hi Hl Hb]; simplify_eq/=.
  - eapply (proj1 (parse_stream (parse_fuel (receive (take k wire) s)))
      (receive (take k wire) s)); simpl; rewrite ?Hcat; try done.
    unfold parse_fuel. simpl. lia.
  - eapply (proj2 (parse_stream (parse_fuel (receive (take k wire) s)))
      (receive (take k wire) s)); simpl; rewrite ?Hcat; try done.
    rewrite length_app, length_take. unfold parse_fuel. simpl.
    rewrite length_app, length_take. lia.
Qed.

Lemma net_step_inv reqs st' c c' :
  Forall request_ok reqs → serve New reqs None = Some st' →
  connection_inv reqs c → net_step New c c' → connection_inv reqs c'.
Proof.
  intros Hok Hs Hinv Hstep.
  destruct Hinv as [c cb s wire d t -> Hd Hw|s Hc]; [|by inversion Hstep].
  rewrite serve_app, Hd in Hs. apply Forall_app in Hok as [_ Hok].
  inversion Hstep as [? ? ? ? k st s' Hcomp Hk Hread|? ? ? ? st s' Hshort Hread]; simplify_eq.
  - destruct (parsed_reading cb (receive (take k wire) s) s (drop k wire) t) as
      (n & cb' & s1 & d' & t' & Hr & -> & Hd' & Hw').
    { eapply receive_parsed; eauto. by destruct c; simpl in *; lia. }
    rewrite Hr in Hread. simplify_eq. eapply (inv_reading _ _ _ _ _ (d ++ d') t').
    + by rewrite app_assoc.
    + by rewrite serve_app, Hd.
    + done.
  - simpl in Hread. simplify_eq. apply inv_closed. simpl.
    destruct Hw as [Hi Hl Hb|r t' -> Hi Hl Hb]; simplify_eq/=.
    + assert (t = []) as ->; [|by rewrite app_nil_r].
      apply stream_nil_inv. rewrite <- Hb, length_app. lia.
    + apply (f_equal length) in Hb. rewrite !length_app in Hb. lia.
Qed.

Lemma open_connection_inv reqs : connection_inv reqs (open_connection (stream reqs)).
Proof. apply (inv_reading _ _ _ _ _ [] reqs); [done..|]. apply wait_header; simpl; [done|lia|done]. Qed.

Lemma reachable_inv reqs st' c :
  Forall request_ok reqs → serve New reqs None = Some st' →
  rtc (net_step New) (open_connection (stream reqs)) c → connection_inv reqs c.
Proof.
  intros Hok Hs Hr. eapply (rtc_ind_r (connection_inv reqs) (open_connection (stream reqs)));
    eauto using open_connection_inv, net_step_inv.
Qed.

(** A connection with undelivered bytes can go on, and delivers some. *)
Lemma inv_progress reqs st' c :
  Forall request_ok reqs → serve New reqs None = Some st' →
  connection_inv reqs c → c_wire c ≠ [] →
  ∃ c', net_step New c c' ∧ (length (c_wire c') < length (c_wire c))%nat.
Proof.
  intros Hok Hs Hinv Hwire.
  destruct Hinv as [c cb s wire d t -> Hd Hw|s Hc]; [|done]. simpl in *.
  pose proof (waiting_pos _ _ _ _ Hw) as Hpos. simpl in Hpos.
  assert (needs c ≤ Z.of_nat (length wire)).
  { destruct Hw as [Hi Hl Hb|r t' -> Hi Hl Hb]; simplify_eq/=;
      apply (f_equal length) in Hb; rewrite !length_app in Hb; [|lia].
    destruct t as [|r t].
    - destruct wire; simpl in *; [done|lia].
    - rewrite stream_cons, length_app, length_enc_outbound in Hb. lia. }
  destruct (OnReadComplete New cb no_error (receive (take (Z.to_nat (needs c)) wire) s))
    as [st s'] eqn:Hr.
  eexists. split.
  - apply (net_read _ c cb s wire (Z.to_nat (needs c))); [|lia|done].
    destruct c; simpl in *; lia.
  - simpl. rewrite length_drop. lia.
Qed.

(** When everything is delivered, everything is served. *)
Lemma inv_complete reqs c :
  connection_inv reqs c → c_wire c = [] → serve New reqs None = Some (storage_ (c_session c)).
Proof.
  intros Hinv Hwire. destruct Hinv as [c cb s wire d t -> Hd Hw|s Hc]; [|done]. simpl in *. subst.
  destruct Hw as [Hi Hl Hb|r t' -> Hi Hl Hb]; rewrite app_nil_r in Hb; simplify_eq/=.
  - assert (t = []) as ->; [|by rewrite app_nil_r].
    apply stream_nil_inv. by rewrite <- Hb.
  - apply (f_equal length) in Hb. rewrite length_app in Hb. lia.
Qed.

(** From every state of a connection the rest of the bytes can be delivered. *)
Lemma inv_reaches_end reqs st' c :
  Forall request_ok reqs → serve New reqs None = Some st' → connection_inv reqs c →
  ∃ c', rtc (net_step New) c c' ∧ connection_inv reqs c' ∧ c_wire c' = [].
Proof.
  intros Hok Hs. remember (length (c_wire c)) as n eqn:Hn. revert c Hn.
  induction n as [n IH] using lt_wf_ind. intros c -> Hinv.
  destruct (decide (c_wire c = [])) as [He|Hne]; [by exists c|].
  destruct (inv_progress _ _ _ Hok Hs Hinv Hne) as (c1 & Hstep & Hlt).
  destruct (IH _ Hlt c1 eq_refl) as (c2 & ? & ? & ?); [by eapply net_step_inv|].
  exists c2. split_and!; [by eapply rtc_l|done..].
Qed.

(** *** Arbitrary input *)

Lemma handle_keeps_sbuf r s s' b : HandleNetRequest New r s = Some (s', b) → sbuf_ s' = sbuf_ s.
Proof.
  destruct s as [sb st]. rewrite HandleNetRequest_sbuf.
  destruct (HandleNetRequest New r _) as [[]|]; naive_solver.
Qed.

(** A successful read of [k] bytes at least shortens what is left to parse. *)
Lemma read_shortens {A} (r : reader A) k (b : bytes) a b' :
  advances r k → (0 < k)%nat → r b (Buffer 0 (length b)) = Some (a, b') →
  (length (streambuf_consume b
     (Z.to_nat (Z.of_nat (length b) - Z.of_nat (buf_size b')))) < length b)%nat.
Proof.
  intros Ha Hk Hr. apply Ha in Hr as (n & Hn & ->); [|done]. simpl in *.
  rewrite streambuf_consume_spec, length_drop. lia.
Qed.

Lemma parse_enough_fuel fuel s :
  (length (sbuf_ s) < fuel)%nat →
  ParseOutbound New fuel s ≠ Fault OutOfFuel ∧ ParseInbound New fuel s ≠ Fault OutOfFuel.
Proof.
  revert s. induction fuel as [|fuel IH]; intros s Hf; [lia|]. split.
  - cbn [ParseOutbound buf_size]. case_match; [done|].
    destruct (Read (sbuf_ s) _) as [[o b']|] eqn:Hread; [|done].
    pose proof (read_shortens _ _ _ _ _ outbound_advances ltac:(lia) Hread).
    case_match; [done|]. apply IH. cbn [sbuf_]. lia.
  - cbn [ParseInbound buf_size].
    destruct (Read (sbuf_ s) _) as [[r b']|] eqn:Hread; [|done].
    pose proof (read_shortens _ _ _ _ _ request_advances ltac:(lia) Hread).
    destruct (HandleNetRequest New r s) as [[s1 []]|] eqn:Hh; [|done..].
    apply handle_keeps_sbuf in Hh. case_match; [done|]. apply IH. cbn [sbuf_]. rewrite Hh. lia.
Qed.

(** *** Frames that end a session *)

Lemma ParseInbound_refused fuel r rest st s' :
  request_ok r → HandleNetRequest New r (mkSession (enc_request r ++ rest) st) = Some (s', false) →
  ParseInbound New (S fuel) (mkSession (enc_request r ++ rest) st) =
    Done (mkParsingInfo 0 None, s').
Proof.
  intros Hr Hs. cbn [ParseInbound sbuf_ buf_size].
  destruct (request_decodes r Hr) as [Hd _]. unfold Read.
  rewrite (Hd _ _ rest) by (simpl; rewrite ?length_app; lia || done). by rewrite Hs.
Qed.

Lemma ParseInbound_null fuel r rest st :
  request_ok r → HandleNetRequest New r (mkSession (enc_request r ++ rest) st) = None →
  ParseInbound New (S fuel) (mkSession (enc_request r ++ rest) st) = Fault NullStorage.
Proof.
  intros Hr Hs. cbn [ParseInbound sbuf_ buf_size].
  destruct (request_decodes r Hr) as [Hd _]. unfold Read.
  rewrite (Hd _ _ rest) by (simpl; rewrite ?length_app; lia || done). by rewrite Hs.
Qed.

(** A whole frame at the front of the buffer: the header is taken off and the
    request is parsed. *)
Lemma parse_frame r rest st :
  request_ok r →
  ∃ fuel, run_callback New CbParseOutbound (mkSession (frame r ++ rest) st) =
    ParseInbound New (S fuel) (mkSession (enc_request r ++ rest) st).
Proof.
  intros Hr. unfold run_callback, parse_fuel, frame. cbn [sbuf_].
  rewrite <- app_assoc, ParseOutbound_header by (by apply outbound_in_u). cbn [size].
  rewrite (proj2 (Z.ltb_ge _ _)) by (rewrite length_app; lia).
  rewrite length_app, length_enc_outbound. by eexists.
Qed.

(** ** Properties *)

(** C7.  Stream reassembly: however the network cuts the bytes of the
    requests a client sends, a session is at every moment in the state of
    having served exactly a prefix of these requests, in order; it never
    crashes, and it closes the connection only after the last request. *)
Theorem session_reassembles reqs st' c :
  Forall request_ok reqs → serve New reqs None = Some st' →
  rtc (net_step New) (open_connection (stream reqs)) c →
  ∃ done todo, reqs = done ++ todo ∧
    serve New done None = Some (storage_ (c_session c)) ∧
    (∀ f, c_status c ≠ Crashed f) ∧ (c_status c = Closed → todo = []).
Proof.
  intros Hok Hs Hr. eapply reachable_inv in Hr; eauto.
  destruct Hr as [c cb s wire d t -> Hd Hw|s Hc].
  - by exists d, t.
  - exists reqs, []. by rewrite app_nil_r.
Qed.

(** C17.  Stream liveness: from every state a connection can reach, delivering
    the remaining bytes brings it to a state where all of them are delivered,
    and there every request has been served. *)
Theorem session_serves_all reqs st' c :
  Forall request_ok reqs → serve New reqs None = Some st' →
  rtc (net_step New) (open_connection (stream reqs)) c →
  ∃ c', rtc (net_step New) c c' ∧ c_wire c' = [] ∧ storage_ (c_session c') = st'.
Proof.
  intros Hok Hs Hr. eapply reachable_inv in Hr; eauto.
  destruct (inv_reaches_end _ _ _ Hok Hs Hr) as (c' & ? & Hinv & He).
  exists c'. split_and!; [done..|]. pose proof (inv_complete _ _ Hinv He). congruence.
Qed.

(** C37.  The mutual recursion of the two parsing functions ends on every
    input, malformed or hostile: the fuel of [run_callback] never runs out. *)
Theorem parsing_terminates cb s :
  run_callback New cb s ≠ Fault OutOfFuel.
Proof.
  unfold run_callback. destruct (parse_enough_fuel (parse_fuel s) s) as [Ho Hi].
  { unfold parse_fuel. lia. }
  by destruct cb.
Qed.

(** A request whose code the server does not serve, [kNetReqClear]
    among them, ends the session: the connection is closed, the database is
    as it was, and the requests behind it in the buffer are dropped. *)
Theorem unserved_request_closes r rest st :
  request_ok r →
  type r ∉ [kNetReqAdd; kNetReqRemove; kNetReqUpdateSize; kNetReqNewStorage] →
  ∃ s', OnReadComplete New CbParseOutbound no_error (mkSession (frame r ++ rest) st) = (Closed, s') ∧
    storage_ s' = st.
Proof.
  intros Hr Ht. unfold OnReadComplete.
  destruct (parse_frame r rest st Hr) as [fuel ->].
  eexists. rewrite (ParseInbound_refused _ _ _ _ (mkSession (enc_request r ++ rest) st)); [done..|].
  unfold HandleNetRequest. rewrite !not_elem_of_cons in Ht. destruct_and?.
  by rewrite !(proj2 (Z.eqb_neq _ _)).
Qed.

(** A session that receives an update before the request that opens the
    database calls through a null pointer. *)
Theorem update_before_open_crashes r rest :
  request_ok r → type r ∈ [kNetReqAdd; kNetReqRemove; kNetReqUpdateSize] →
  (OnReadComplete New CbParseOutbound no_error (mkSession (frame r ++ rest) None)).1 =
    Crashed NullStorage.
Proof.
  intros Hr Ht. unfold OnReadComplete.
  destruct (parse_frame r rest None Hr) as [fuel ->].
  rewrite ParseInbound_null; [done..|].
  unfold HandleNetRequest. rewrite !elem_of_cons in Ht.
  by destruct Ht as [->|[->|[->|[]%not_elem_of_nil]]].
Qed.

(** The parser trusts the size in the header: a frame that announces
    fewer bytes than its request has, and delivers just these, is read past
    the end of the input buffer. *)
Theorem short_frame_reads_past_end r k st :
  request_ok r → (k < length (enc_request r))%nat →
  (OnReadComplete New CbParseOutbound no_error
     (mkSession (enc_outbound (mkOutbound (Z.of_nat k)) ++ take k (enc_request r)) st)).1 =
    Crashed ReadPastEnd.
Proof.
  intros Hr Hk. unfold OnReadComplete, run_callback, parse_fuel. cbn [sbuf_].
  assert (length (take k (enc_request r)) = k) as Hl by (rewrite length_take; lia).
  rewrite ParseOutbound_header by (destruct Hr as (_ & _ & _ & ?); unfold in_u; simpl; lia).
  cbn [size]. rewrite Hl, (proj2 (Z.ltb_ge _ _)) by lia.
  rewrite length_app, length_enc_outbound, Hl. cbn [ParseInbound Nat.add sbuf_ buf_size].
  destruct (request_decodes r Hr) as [_ Ht]. unfold Read.
  by rewrite (Ht _ _ k) by (simpl; rewrite ?Hl; done).
Qed.

End lemmas.

(** ** Examples *)

(** A server whose databases are containers in memory. *)
Definition demo_New (pid : Z) : BasicMappedStorage ref_index := newBasicMappedStorage [] pid.

Definition demo_item : CallStackInfoItem :=
  mkCallStackInfoItem [47; 97] [102] 4096 4200 32000 104.

Definition demo_requests : list NetRequest :=
  [ newRequest kNetReqNewStorage 7 0 1 [];
    newRequest kNetReqAdd 65536 16 2 [demo_item];
    newRequest kNetReqAdd 65568 32 3 [];
    newRequest kNetReqRemove 65536 0 0 [] ].

(** The connection after a first read of [k] bytes. *)
Definition demo_connection (k : nat) : connection (BasicMappedStorage ref_index) :=
  let wire := stream demo_requests in
  let r := OnReadComplete demo_New CbParseOutbound no_error (receive (take k wire) newSession) in
  mkConnection r.1 r.2 (drop k wire).

Lemma demo_reachable k :
  (8 ≤ k ≤ length (stream demo_requests))%nat →
  rtc (net_step demo_New) (open_connection (stream demo_requests)) (demo_connection k).
Proof.
  intros Hk. apply rtc_once, net_read; [simpl; unfold sizeof_NetProtoOutbound; lia|lia|].
  apply surjective_pairing.
Qed.

Lemma demo_requests_ok : Forall request_ok demo_requests.
Proof. by_decide. Qed.

Lemma demo_served : ∃ st', serve demo_New demo_requests None = Some st'.
Proof. by eexists. Qed.

(** The first read cuts the second request in two. *)
Lemma session_reassembles_witness :
  ∃ done todo, demo_requests = done ++ todo ∧
    serve demo_New done None = Some (storage_ (c_session (demo_connection 60))) ∧
    (∀ f, c_status (demo_connection 60) ≠ Crashed f) ∧
    (c_status (demo_connection 60) = Closed → todo = []).
Proof.
  destruct demo_served as [st' Hst].
  apply (session_reassembles demo_New demo_requests st');
    [exact demo_requests_ok|exact Hst|apply demo_reachable; vm_compute; lia].
Defined.

Lemma session_serves_all_witness :
  ∃ c', rtc (net_step demo_New) (demo_connection 60) c' ∧ c_wire c' = [] ∧
    Some (storage_ (c_session c')) = serve demo_New demo_requests None.
Proof.
  destruct demo_served as [st' Hst].
  destruct (session_serves_all demo_New demo_requests st' (demo_connection 60))
    as (c' & Hr & Hw & Hs);
    [exact demo_requests_ok|exact Hst|apply demo_reachable; vm_compute; lia|].
  exists c'. rewrite Hst, Hs. done.
Defined.

Lemma parsing_terminates_witness :
  run_callback demo_New CbParseInbound (mkSession [255; 254; 253; 252; 251] None) ≠
    Fault OutOfFuel.
Proof. apply parsing_terminates. Defined.

Lemma unserved_request_closes_witness :
  ∃ s', OnReadComplete demo_New CbParseOutbound no_error
      (mkSession (frame (newRequest kNetReqClear 0 0 0 []) ++ [1; 2]) (Some (demo_New 7)))
      = (Closed, s') ∧
    storage_ s' = Some (demo_New 7).
Proof. apply unserved_request_closes; by_decide. Defined.

Lemma update_before_open_crashes_witness :
  (OnReadComplete demo_New CbParseOutbound no_error
     (mkSession (frame (newRequest kNetReqRemove 4096 0 0 []) ++ []) None)).1 =
    Crashed NullStorage.
Proof. apply update_before_open_crashes; by_decide. Defined.

Lemma short_frame_reads_past_end_witness :
  (OnReadComplete demo_New CbParseOutbound no_error
     (mkSession (enc_outbound (mkOutbound (Z.of_nat 20)) ++
        take 20 (enc_request (newRequest kNetReqRemove 4096 0 0 []))) None)).1 =
    Crashed ReadPastEnd.
Proof. apply short_frame_reads_past_end; by_decide. Defined.

End Session.
