(* ===== verification/NetworkStorage.v ===== *)
(** * The database client

    src/memhookcore/network_mapped_storage.cpp: a [MappedStorage] that sends
    its operations to the server as requests.  [Send] measures the request,
    writes header and request into a block of the stream buffer and puts the
    block into the connection's output stream.

    The output stream is the sequence of bytes put into it; [Flush] hands
    what is buffered to the network and leaves that sequence as it is. *)
From S2P Require Import Prelude Boost TraceInfo Serialization Network Storage Session.

Module NetworkStorage.
Import Serialization Network Storage Session.

Section client.
Context `{AsioBuffer}.

Record NetworkMappedStorage := mkNetworkMappedStorage {
  m_host : bytes;
  m_port : Z;
  m_iostream : bytes;
}.

(** The block [Send] puts into the stream, and what is left of [tmpbuf]. *)
Definition fill_block (request : NetRequest) : bytes * buffer :=
  let outbound := mkOutbound (GetSize request) in
  let buf_size := u64 (size outbound + GetSize outbound) in
  let mem := streambuf_prepare (Z.to_nat buf_size) in
  let buf := Buffer 0 (Z.to_nat buf_size) in
  let '(mem, tmpbuf) := Write outbound (mem, buf) in
  Write request (mem, tmpbuf).

Definition Send (request : NetRequest) (s : NetworkMappedStorage) : NetworkMappedStorage :=
  mkNetworkMappedStorage (m_host s) (m_port s) (m_iostream s ++ (fill_block request).1).

(** The constructor, once the connection stands: it asks for a database for
    its process. *)
Definition newNetworkMappedStorage (host : bytes) (port pid now : Z) : NetworkMappedStorage :=
  Send (newRequest kNetReqNewStorage (u32 pid) 0 now [])
    (mkNetworkMappedStorage host port []).

Definition NewNetworkMappedStorage := newNetworkMappedStorage.

(** The creator of such databases, which has no use for a guide. *)
Record NetworkMappedStorageCreator := mkNetworkCreator { cr_host : bytes; cr_port : Z }.

Definition NewNetworkMappedStorageCreator (host : bytes) (port : Z) : NetworkMappedStorageCreator :=
  mkNetworkCreator host port.

Definition NetworkMappedStorageCreator_New (c : NetworkMappedStorageCreator) (guide pid now : Z)
    : NetworkMappedStorage := newNetworkMappedStorage (cr_host c) (cr_port c) pid now.

Definition net_Add (address memsize : Z) (callstack : CallStackInfo) (timestamp : Z) :=
  Send (newRequest kNetReqAdd address memsize timestamp callstack).

Definition net_Remove (address : Z) (s : NetworkMappedStorage) : NetworkMappedStorage * bool :=
  (Send (newRequest kNetReqRemove address 0 0 []) s, true).

Definition net_UpdateSize (address memsize : Z) (s : NetworkMappedStorage)
    : NetworkMappedStorage * bool :=
  (Send (newRequest kNetReqUpdateSize address memsize 0 []) s, true).

Definition net_Clear (s : NetworkMappedStorage) : NetworkMappedStorage :=
  Send (newRequest kNetReqClear 0 0 0 []) s.

Definition net_Flush (s : NetworkMappedStorage) : NetworkMappedStorage := s.

(** [boost::lexical_cast<std::string>] on an [int] *)
Context (lexical_cast : Z → bytes).

(** [m_host + ':' + lexical_cast<std::string> (m_port)] *)
Definition net_GetName (s : NetworkMappedStorage) : bytes :=
  m_host s ++ [58] ++ lexical_cast (m_port s).

#[export] Instance net_ops : MappedStorage NetworkMappedStorage := {
  Add := net_Add;
  Remove := net_Remove;
  UpdateSize := net_UpdateSize;
  Clear := net_Clear;
  Flush := net_Flush;
  GetName := net_GetName;
}.

End client.

(** ** Lemmas *)

(** The request an update is sent as. *)
Definition op_request (op : storage_op) : NetRequest :=
  match op with
  | OpAdd a n cs ts => newRequest kNetReqAdd a n ts cs
  | OpRemove a => newRequest kNetReqRemove a 0 0 []
  | OpUpdateSize a n => newRequest kNetReqUpdateSize a n 0 []
  end.

(** The request that opens the database. *)
Definition open_request (pid now : Z) : NetRequest :=
  newRequest kNetReqNewStorage (u32 pid) 0 now [].

Lemma u64_add a b : 0 ≤ a → 0 ≤ b → a + b < 2 ^ 64 → u64 (a + b) = a + b.
Proof. intros. apply wrap_small. unfold in_u. lia. Qed.

Section lemmas.
Context `{AsioBufferLaws}.

Lemma GetSize_request r :
  request_ok r → GetSize r = Z.of_nat (length (enc_request r)).
Proof.
  intros Hr. unfold GetSize. destruct (request_writes r Hr) as [Hs _].
  destruct Hr as (_ & _ & _ & ?). rewrite Hs by range. apply u64_add; lia.
Qed.

Lemma GetSize_outbound o : in_u 64 (size o) → GetSize o = 8.
Proof.
  intros Ho. unfold GetSize. destruct (outbound_writes o Ho) as [Hs _].
  rewrite Hs by range. by rewrite length_enc_outbound.
Qed.

Lemma fill_block_spec r :
  request_ok r → fill_block r = (frame r, Buffer (length (frame r)) 0).
Proof.
  intros Hr. unfold fill_block, Write.
  pose proof (outbound_in_u r Hr) as Ho.
  rewrite GetSize_request, GetSize_outbound by done. cbn [size].
  destruct (outbound_writes _ Ho) as [_ Hwo]. destruct (request_writes r Hr) as [_ Hwr].
  unfold frame. set (o := mkOutbound _) in *. set (n := length (enc_request r)) in *.
  assert (length (enc_outbound o) = 8%nat) as Hlo by apply length_enc_outbound.
  rewrite u64_add by (destruct Hr as (_ & _ & _ & ?); lia).
  replace (Z.to_nat (Z.of_nat n + 8)) with (8 + n)%nat by lia.
  pose proof (streambuf_prepare_spec (8 + n)) as Hp.
  rewrite Hwo by (rewrite ?Hp, ?Hlo; simpl; lia).
  rewrite Hlo, buffer_plus_le by (simpl; lia). cbn [buf_data buf_size].
  rewrite Hwr by (cbn [buf_data buf_size]; rewrite ?length_write_at; rewrite ?Hp, ?Hlo; simpl; lia).
  cbn [buf_data]. f_equal.
  - rewrite <- Hlo at 1.
    change (write_at (length (enc_outbound o))) with (write_at (0 + length (enc_outbound o))).
    rewrite write_at_app by (rewrite Hp, Hlo; simpl; lia).
    unfold write_at. rewrite take_0, drop_ge by (rewrite Hp, length_app, Hlo; simpl; lia).
    by rewrite app_nil_r.
  - rewrite buffer_plus_le by (simpl; lia). simpl. rewrite length_app, Hlo. f_equal; lia.
Qed.

Lemma Send_spec r s :
  request_ok r → m_iostream (Send r s) = m_iostream s ++ frame r.
Proof. intros. unfold Send. by rewrite fill_block_spec. Qed.

(** A request without a call stack takes 32 bytes. *)
Lemma short_request_ok ty a n ts :
  in_u 32 ty → base_ok (mkTraceInfoBase a n ts) → request_ok (newRequest ty a n ts []).
Proof.
  intros Hty Hb. split_and!; [done|done|by split; [constructor|]|].
  unfold enc_request, enc_base, enc_seq. rewrite !length_app, !length_enc_int. simpl. lia.
Qed.

Lemma op_request_ok op : op_ok op → request_ok (op_request op).
Proof.
  destruct op as [a n cs ts|a|a n]; simpl; [done| |]; intros;
    apply short_request_ok; unfold base_ok; simpl; destruct_and?; split_and?; first [done | by_decide].
Qed.

Lemma open_request_ok pid now : in_s 64 now → request_ok (open_request pid now).
Proof.
  intros. apply short_request_ok; [by_decide|]. unfold base_ok; simpl.
  pose proof (wrap_in_u 32 pid ltac:(lia)). split_and!; done || range.
Qed.

Lemma run_ops_stream (f : Z → bytes) ops (s : NetworkMappedStorage) :
  Forall op_ok ops →
  m_iostream (@run_ops _ (net_ops f) ops s) =
    m_iostream s ++ stream (op_request <$> ops).
Proof.
  intros Hok. revert s; induction Hok as [|op ops Hop Hok IH]; intros s.
  { unfold stream. simpl. by rewrite app_nil_r. }
  unfold run_ops in *. cbn [fold_left fmap list_fmap]. rewrite IH.
  assert (m_iostream (@run_op _ (net_ops f) s op) =
    m_iostream s ++ frame (op_request op)) as ->.
  { destruct op; by apply Send_spec, op_request_ok. }
  unfold stream. simpl. by rewrite app_assoc.
Qed.

Lemma serve_ops {St} `{MappedStorage St} (New : Z → St) ops st :
  serve New (op_request <$> ops) (Some st) = Some (Some (run_ops ops st)).
Proof.
  revert st; induction ops as [|op ops IH]; intros st; [done|].
  simpl. by destruct op; cbn; rewrite IH.
Qed.

Lemma serve_open {St} `{MappedStorage St} (New : Z → St) pid now reqs :
  serve New (open_request pid now :: reqs) None = serve New reqs (Some (New (u32 pid))).
Proof. done. Qed.

End lemmas.

(** ** The client as a database *)

Section remote.
Context {St : Type} `{StorageLaws St, AsioBufferLaws}.
Context (New : Z → St) (New_inv : ∀ pid, storage_inv (New pid)).
Context (lexical_cast : Z → bytes).
#[local] Instance client_ops : MappedStorage NetworkMappedStorage := net_ops lexical_cast.

(** The server's database once it has received all that was sent. *)
Definition server_storage (wire : bytes) : option St :=
  storage_ (OnReadComplete New CbParseOutbound no_error (receive wire newSession)).2.

Lemma server_storage_stream r reqs st' :
  Forall request_ok (r :: reqs) → serve New (r :: reqs) None = Some st' →
  server_storage (stream (r :: reqs)) = st'.
Proof.
  intros Hok Hs. unfold server_storage.
  destruct (OnReadComplete _ _ _ _) as [st s] eqn:Hr. simpl.
  assert (net_step New (open_connection (stream (r :: reqs))) (mkConnection st s [])) as Hstep.
  { rewrite <- (drop_all (stream (r :: reqs))).
    apply net_read; [|done|by rewrite take_ge].
    simpl. rewrite stream_cons, length_app, length_enc_outbound.
    unfold sizeof_NetProtoOutbound. lia. }
  eapply net_step_inv in Hstep; [|done..|apply open_connection_inv].
  apply inv_complete in Hstep; [|done]. cbn [c_session] in Hstep. congruence.
Qed.

(** What the client has sent: the opening request and a list of updates. *)
Definition sent (pid now : Z) (ops : list storage_op) : bytes :=
  stream (open_request pid now :: (op_request <$> ops)).

Definition net_inv (s : NetworkMappedStorage) : Prop :=
  ∃ pid now ops, m_iostream s = sent pid now ops ∧ in_s 64 now ∧ Forall op_ok ops.

Definition net_records (s : NetworkMappedStorage) : gmap Z BasicTraceInfo :=
  match server_storage (m_iostream s) with Some st => records st | None => ∅ end.

Lemma sent_ok pid now ops :
  in_s 64 now → Forall op_ok ops →
  Forall request_ok (open_request pid now :: (op_request <$> ops)).
Proof.
  intros Hn Hops. constructor; [by apply open_request_ok|].
  apply Forall_fmap. eapply Forall_impl; [done|]. apply op_request_ok.
Qed.

Lemma sent_server pid now ops :
  in_s 64 now → Forall op_ok ops →
  server_storage (sent pid now ops) = Some (run_ops ops (New (u32 pid))).
Proof.
  intros. apply server_storage_stream; [by apply sent_ok|].
  by rewrite serve_open, serve_ops.
Qed.

Lemma sent_snoc pid now ops op :
  sent pid now (ops ++ [op]) = sent pid now ops ++ frame (op_request op).
Proof.
  unfold sent, stream. rewrite fmap_app. cbn [fmap list_fmap]. simpl.
  by rewrite fmap_app, concat_app, app_assoc; simpl; rewrite app_nil_r.
Qed.

Lemma run_ops_inv ops (st : St) :
  storage_inv st → Forall op_ok ops → storage_inv (run_ops ops st).
Proof.
  intros Hst Hops. revert st Hst. induction Hops as [|op ops ?? IH]; intros st Hst; [done|].
  simpl. apply IH. by apply run_op_laws.
Qed.

Lemma net_op op (s : NetworkMappedStorage) :
  net_inv s → op_ok op →
  net_inv (run_op s op) ∧ net_records (run_op s op) = spec_op (net_records s) op.
Proof.
  intros (pid & now & ops & Hio & Hn & Hops) Hop.
  assert (m_iostream (run_op s op) = sent pid now (ops ++ [op])) as Hio'.
  { rewrite sent_snoc, <- Hio. destruct op; by apply Send_spec, op_request_ok. }
  split.
  { exists pid, now, (ops ++ [op]). split_and!; [done..|]. by apply Forall_app; auto. }
  unfold net_records. rewrite Hio, Hio', !sent_server; [|done..|by apply Forall_app; auto].
  unfold run_ops. rewrite fold_left_app. simpl. apply run_op_laws; [|done].
  by apply run_ops_inv.
Qed.

#[export] Instance net_laws : StorageLaws NetworkMappedStorage.
Proof.
  refine {| storage_inv := net_inv; records := net_records |}; try done.
  - intros a n cs ts s Hs Hok. by apply (net_op (OpAdd a n cs ts)).
  - intros a n cs ts s Hs Hok. by apply (net_op (OpAdd a n cs ts)).
  - intros a s Hs Hok. by apply (net_op (OpRemove a)).
  - intros a s Hs Hok. by apply (net_op (OpRemove a)).
  - intros a n s Hs ??. by apply (net_op (OpUpdateSize a n)).
  - intros a n s Hs ??. by apply (net_op (OpUpdateSize a n)).
Defined.

Lemma new_net_inv host port pid now :
  in_s 64 now → net_inv (newNetworkMappedStorage host port pid now).
Proof.
  intros. exists pid, now, []. split_and!; [|done..].
  unfold newNetworkMappedStorage. rewrite Send_spec by (by apply open_request_ok).
  unfold sent, stream. simpl. by rewrite app_nil_r.
Qed.

(** A connection over which the client's bytes have all arrived. *)
Lemma sent_delivered pid now ops c :
  in_s 64 now → Forall op_ok ops →
  rtc (net_step New) (open_connection (sent pid now ops)) c → c_wire c = [] →
  storage_ (c_session c) = Some (run_ops ops (New (u32 pid))).
Proof.
  intros Hn Hops Hr Hw. pose proof (sent_ok pid now ops Hn Hops) as Hok.
  eapply reachable_inv in Hr; [|done|by rewrite serve_open, serve_ops].
  eapply inv_complete in Hr; [|done].
  rewrite serve_open, serve_ops in Hr. congruence.
Qed.

Lemma net_inv_delivered s c :
  net_inv s → rtc (net_step New) (open_connection (m_iostream s)) c → c_wire c = [] →
  ∃ st, storage_ (c_session c) = Some st ∧ storage_inv st ∧ records st = net_records s.
Proof.
  intros (pid & now & ops & Hio & Hn & Hops) Hr Hw. unfold net_records. rewrite Hio in *.
  rewrite sent_server by done. eexists. split_and!; [by apply (sent_delivered pid now)| |done].
  by apply run_ops_inv.
Qed.

Lemma net_inv_reaches_end s c :
  net_inv s → rtc (net_step New) (open_connection (m_iostream s)) c →
  ∃ c', rtc (net_step New) c c' ∧ c_wire c' = [].
Proof.
  intros (pid & now & ops & Hio & Hn & Hops) Hr. rewrite Hio in Hr.
  pose proof (sent_ok pid now ops Hn Hops) as Hok.
  assert (serve New (open_request pid now :: (op_request <$> ops)) None =
    Some (Some (run_ops ops (New (u32 pid))))) as Hs by (by rewrite serve_open, serve_ops).
  eapply reachable_inv in Hr; [|done|done].
  destruct (inv_reaches_end _ _ _ _ Hok Hs Hr) as (c' & ? & _ & ?). by exists c'.
Qed.

Lemma new_net_records host port pid now :
  in_s 64 now → net_records (newNetworkMappedStorage host port pid now) = records (New (u32 pid)).
Proof.
  intros Hn. unfold net_records, newNetworkMappedStorage.
  rewrite Send_spec by (by apply open_request_ok). simpl.
  change (frame _) with (frame (open_request pid now)).
  replace (frame (open_request pid now)) with (sent pid now [])
    by (unfold sent, stream; simpl; by rewrite app_nil_r).
  by rewrite sent_server.
Qed.

(** ** Properties *)

(** C29.  [Send] fills the block it asked the stream buffer for exactly (its
    [BOOST_ASSERT] holds), and reading the block back as the server does gives
    the header with the size of the request, then the request, with nothing
    left. *)
Theorem send_roundtrip r :
  request_ok r →
  ∃ block b, fill_block r = (block, b) ∧ buf_size b = 0%nat ∧
    ∃ b', Read block (Buffer 0 (length block)) = Some (mkOutbound (GetSize r), b') ∧
      Z.of_nat (buf_size b') = GetSize r ∧
      Read block b' = Some (r, Buffer (length block) 0).
Proof.
  intros Hr. exists (frame r). eexists. split; [by apply fill_block_spec|]. split; [done|].
  rewrite GetSize_request by done. pose proof (outbound_in_u r Hr) as Ho. unfold frame.
  set (o := mkOutbound _) in *.
  destruct (outbound_decodes o Ho) as [Hdo _]. destruct (request_decodes r Hr) as [Hdr _].
  pose proof (length_enc_outbound o) as Hl.
  eexists. unfold Read. rewrite (Hdo _ _ (enc_request r)) by (simpl; rewrite ?length_app; lia || done).
  split; [done|]. rewrite Hl, buffer_plus_le by (simpl; rewrite length_app; lia).
  cbn [buf_data buf_size]. rewrite length_app, Hl. split; [lia|].
  rewrite (Hdr _ _ []); cbn [buf_data buf_size].
  - rewrite buffer_plus_le by (simpl; lia). simpl. do 3 f_equal. lia.
  - by rewrite drop_app_length', app_nil_r by lia.
  - lia.
Qed.

(** C8.  The remote database is the local one: when all that a client has
    sent since it connected is delivered, in whatever pieces, the server's
    database is the result of the client's updates in their order on a new
    database for the client's process. *)
Theorem remote_database_is_local host port pid now ops c :
  in_s 64 now → Forall op_ok ops →
  rtc (net_step New)
    (open_connection (m_iostream (run_ops ops (newNetworkMappedStorage host port pid now)))) c →
  c_wire c = [] →
  storage_ (c_session c) = Some (run_ops ops (New (u32 pid))).
Proof.
  intros Hn Hops Hr Hw.
  assert (m_iostream (run_ops ops (newNetworkMappedStorage host port pid now)) = sent pid now ops)
    as Hio.
  { etrans; [by apply run_ops_stream|]. unfold newNetworkMappedStorage.
    rewrite Send_spec by (by apply open_request_ok). by unfold sent, stream. }
  rewrite Hio in Hr. by apply (sent_delivered pid now).
Qed.

End remote.

(** ** Examples *)

Definition demo_client_ops : list storage_op :=
  [OpAdd 65536 16 [demo_item] 2; OpUpdateSize 65536 64; OpAdd 65600 32 [] 3; OpRemove 65600].

Definition demo_lexical_cast (n : Z) : bytes := [n].

(** The client's stream, and the server after it received it in one piece. *)
Definition demo_stream : bytes :=
  m_iostream (@run_ops _ (net_ops demo_lexical_cast) demo_client_ops
    (newNetworkMappedStorage [104] 80 7 1)).

Definition demo_server : connection (BasicMappedStorage ref_index) :=
  let r := OnReadComplete demo_New CbParseOutbound no_error (receive demo_stream newSession) in
  mkConnection r.1 r.2 (drop (length demo_stream) demo_stream).

Lemma demo_server_reachable :
  rtc (net_step demo_New) (open_connection demo_stream) demo_server.
Proof.
  apply rtc_once. unfold demo_server. apply net_read; [vm_compute; discriminate|done|].
  rewrite take_ge by done. apply surjective_pairing.
Qed.

Lemma send_roundtrip_witness :
  ∃ block b, fill_block (op_request (OpAdd 65536 16 [demo_item] 2)) = (block, b) ∧
    buf_size b = 0%nat ∧
    ∃ b', Read block (Buffer 0 (length block)) = Some (mkOutbound 75, b') ∧
      Z.of_nat (buf_size b') = 75 ∧
      Read block b' =
        Some (op_request (OpAdd 65536 16 [demo_item] 2), Buffer (length block) 0).
Proof. apply (send_roundtrip (op_request (OpAdd 65536 16 [demo_item] 2))). by_decide. Defined.

Lemma remote_database_is_local_witness :
  storage_ (c_session demo_server) = Some (run_ops demo_client_ops (demo_New 7)).
Proof.
  apply (remote_database_is_local demo_New demo_lexical_cast [104] 80 7 1 demo_client_ops);
    [by_decide|by_decide|exact demo_server_reachable|by_decide].
Defined.

End NetworkStorage.
