(* ===== verification/Disconnect.v ===== *)
(** * A connection that breaks

    src/memdb/memdb_session.cpp and src/memhookcore/network_mapped_storage.cpp
    when the connection between client and server is lost: the server gets
    some prefix of the bytes the client has put into its stream, cut anywhere,
    and then the end of the stream.  [Send] does not look at the state of the
    stream, so the client goes on. *)
From S2P Require Import Prelude Boost TraceInfo Serialization Network Storage Session NetworkStorage.

Module Disconnect.
Import Serialization Network Storage Session NetworkStorage.

Section broken.
Context {St : Type} `{MappedStorage St, AsioBufferLaws}.
Context (New : Z → St).
Context (reqs : list NetRequest) (w lost : bytes).
Hypothesis reqs_ok : Forall request_ok reqs.
Hypothesis cut : stream reqs = w ++ lost.

(** The request behind [done] has not arrived as a whole. *)
Definition incomplete (done todo : list NetRequest) : Prop :=
  ∀ r todo', todo = r :: todo' → (length w < length (stream (done ++ [r])))%nat.

(** The session waits inside of the bytes that [wire] and then [lost] would
    complete; or it is closed, and no whole request is left. *)
Inductive broken_inv : connection St → Prop :=
| broken_reading c cb s wire done todo :
    reqs = done ++ todo → serve New done None = Some (storage_ s) →
    waiting (mkParsingInfo (needs c) (Some cb)) s (wire ++ lost) todo →
    broken_inv (mkConnection (Reading c cb) s wire)
| broken_closed s done todo :
    reqs = done ++ todo → serve New done None = Some (storage_ s) → incomplete done todo →
    broken_inv (mkConnection Closed s []).

Lemma stream_app l k : stream (l ++ k) = stream l ++ stream k.
Proof. unfold stream. by rewrite fmap_app, concat_app. Qed.

Lemma stream_single r :
  length (stream [r]) = (8 + length (enc_request r))%nat.
Proof. rewrite stream_cons, !length_app, length_enc_outbound. simpl. lia. Qed.

(** Where the cut is, as seen from a session that waits. *)
Lemma waiting_incomplete info (s : MemDBSession St) wire done todo :
  reqs = done ++ todo → waiting info s (wire ++ lost) todo →
  Z.of_nat (length wire) < pi_size info → incomplete done todo.
Proof.
  intros Hreqs Hw Hlt r todo' ->. rewrite Hreqs, stream_app in cut.
  apply (f_equal length) in cut. rewrite !length_app in cut.
  rewrite stream_app, length_app, stream_single.
  destruct Hw as [-> Hl Hb|r' todo'' [= <- <-] -> Hl Hb]; simpl in Hlt;
    apply (f_equal length) in Hb; rewrite !length_app in Hb; rewrite ?stream_cons, ?length_app in *;
    rewrite ?length_enc_outbound in *; lia.
Qed.

Lemma broken_step st' c c' :
  serve New reqs None = Some st' → broken_inv c → net_step New c c' → broken_inv c'.
Proof.
  intros Hs Hinv Hstep. destruct Hinv as [c cb s wire d t Hr Hd Hw|s d t Hr Hd Hi]; [|by inversion Hstep].
  pose proof reqs_ok as Hok. rewrite Hr in Hok. apply Forall_app in Hok as [_ Hok].
  rewrite Hr, serve_app, Hd in Hs.
  inversion Hstep as [? ? ? ? k st s' Hcomp Hk Hread|? ? ? ? st s' Hshort Hread]; simplify_eq.
  - destruct (parsed_reading New cb (receive (take k wire) s) s (drop k wire ++ lost) t) as
      (n & cb' & s1 & d' & t' & Hrd & -> & Hd' & Hw').
    { rewrite <- (take_app_le wire lost), <- drop_app_le by done.
      eapply receive_parsed; eauto; [by destruct c; simpl in *; lia|rewrite length_app; lia]. }
    rewrite Hrd in Hread. simplify_eq. eapply (broken_reading _ _ _ _ (d ++ d') t').
    + by rewrite Hr, app_assoc.
    + by rewrite serve_app, Hd.
    + done.
  - simpl in Hread. simplify_eq. apply (broken_closed _ d t); [done|done|].
    eapply waiting_incomplete; [done|exact Hw|done].
Qed.

Lemma broken_reachable st' c :
  serve New reqs None = Some st' → rtc (net_step New) (open_connection w) c → broken_inv c.
Proof.
  intros Hs Hr. eapply (rtc_ind_r broken_inv (open_connection w)); [|eauto using broken_step|exact Hr].
  apply (broken_reading _ _ _ _ [] reqs); [done..|]. apply wait_header; simpl; [done|lia|done].
Qed.

End broken.

(** ** Theorems *)

(** A connection that breaks, anywhere in the bytes of the requests, leaves a
    session that has served whole requests only: never a part of one, never
    one that is behind a lost one, and it never crashes.  When the session has
    closed, every request that arrived as a whole has been served. *)
Theorem broken_connection_serves_prefix {St} `{MappedStorage St, AsioBufferLaws} (New : Z → St)
    reqs st' w lost c :
  Forall request_ok reqs → serve New reqs None = Some st' → stream reqs = w ++ lost →
  rtc (net_step New) (open_connection w) c →
  ∃ done todo, reqs = done ++ todo ∧ serve New done None = Some (storage_ (c_session c)) ∧
    (∀ f, c_status c ≠ Crashed f) ∧
    (c_status c = Closed → ∀ r todo', todo = r :: todo' → (length w < length (stream (done ++ [r])))%nat).
Proof.
  intros Hok Hs Hcut Hr.
  destruct (broken_reachable New reqs w lost Hok Hcut st' c Hs Hr) as [c0 cb s wire d t -> Hd Hw|s d t -> Hd Hi].
  - by exists d, t.
  - exists d, t. by split_and!.
Qed.

(** C18.  What a client leaves behind whose connection breaks: no database if not
    even its first request has arrived, and otherwise the database that a
    prefix of its updates makes, in their order. *)
Theorem lost_connection_keeps_prefix {St} `{MappedStorage St, AsioBufferLaws} (New : Z → St)
    (lexical_cast : Z → bytes) host port pid now ops w lost c :
  in_s 64 now → Forall op_ok ops →
  m_iostream (@run_ops _ (net_ops lexical_cast) ops (newNetworkMappedStorage host port pid now)) = w ++ lost →
  rtc (net_step New) (open_connection w) c →
  (∀ f, c_status c ≠ Crashed f) ∧
  (storage_ (c_session c) = None ∨
   ∃ done todo, ops = done ++ todo ∧ storage_ (c_session c) = Some (run_ops done (New (u32 pid)))).
Proof.
  intros Hn Hops Hcut Hr. rewrite run_ops_stream in Hcut by done.
  unfold newNetworkMappedStorage in Hcut. rewrite Send_spec in Hcut by (by apply open_request_ok).
  assert (stream (open_request pid now :: (op_request <$> ops)) = w ++ lost) as Hcut'.
  { rewrite <- Hcut. unfold stream. done. }
  pose proof (sent_ok pid now ops Hn Hops) as Hok.
  assert (serve New (open_request pid now :: (op_request <$> ops)) None =
    Some (Some (run_ops ops (New (u32 pid))))) as Hs by (by rewrite serve_open, serve_ops).
  destruct (broken_reachable New _ w lost Hok Hcut' _ c Hs Hr) as [c0 cb s wire d t Hd Hsv Hw|s d t Hd Hsv Hi];
    (split; [done|]); destruct d as [|r d]; [by left; injection Hsv|right|by left; injection Hsv|right];
    injection Hd as <- Hd; apply fmap_app_inv in Hd as (d1 & d2 & -> & -> & ->);
    rewrite serve_open, serve_ops in Hsv; exists d1, d2; simpl; split; congruence.
Qed.

(** ** Witnesses *)

(** The last request is cut in two. *)
Lemma broken_connection_serves_prefix_witness :
  ∃ done todo, demo_requests = done ++ todo ∧
    serve demo_New done None =
      Some (storage_ (c_session (demo_connection (length (stream demo_requests) - 5)))) ∧
    (∀ f, c_status (demo_connection (length (stream demo_requests) - 5)) ≠ Crashed f).
Proof.
  set (n := (length (stream demo_requests) - 5)%nat). set (w := take n (stream demo_requests)).
  destruct demo_served as [st' Hst].
  destruct (broken_connection_serves_prefix demo_New demo_requests st' w (drop n (stream demo_requests))
    (mkConnection (c_status (demo_connection n)) (c_session (demo_connection n)) [])) as (d & t & H1 & H2 & H3 & _).
  - exact demo_requests_ok.
  - exact Hst.
  - symmetry. apply take_drop.
  - apply rtc_once. rewrite <- (drop_all w). unfold demo_connection, w, n.
    apply net_read; [vm_compute; discriminate|done|]. rewrite take_ge by done. apply surjective_pairing.
  - exists d, t. split_and!; [exact H1|exact H2|exact H3].
Defined.

(** A client that has lost the connection in the middle of an update. *)
Definition demo_cut : bytes := take 60 demo_stream.

Definition demo_cut_connection : connection (BasicMappedStorage ref_index) :=
  let r := OnReadComplete demo_New CbParseOutbound no_error (receive demo_cut newSession) in
  mkConnection r.1 r.2 (drop (length demo_cut) demo_cut).

Lemma lost_connection_keeps_prefix_witness :
  storage_ (c_session demo_cut_connection) = Some (demo_New 7) ∧
  ∃ done todo, demo_client_ops = done ++ todo ∧
    storage_ (c_session demo_cut_connection) = Some (run_ops done (demo_New 7)).
Proof.
  split; [vm_compute; reflexivity|].
  destruct (lost_connection_keeps_prefix demo_New demo_lexical_cast [104] 80 7 1 demo_client_ops
    demo_cut (drop 60 demo_stream) demo_cut_connection) as [_ [Hn|Hp]].
  - by_decide.
  - by_decide.
  - symmetry. apply take_drop.
  - apply rtc_once. unfold demo_cut_connection.
    apply net_read; [vm_compute; discriminate|done|]. rewrite take_ge by done. apply surjective_pairing.
  - vm_compute in Hn. discriminate Hn.
  - exact Hp.
Defined.

End Disconnect.
