(* ===== verification/Unwinder.v ===== *)
(** * Call stacks and their symbols

    src/memhook/callstack_unwinder.cpp: capturing the call stack and naming
    its frames, with a least-recently-used cache of names.

    libunwind and the dynamic linker are parameters: the frames a cursor
    steps through, the name of the function at an instruction address, and
    [dladdr].  A call of the cache is a single step: the model is of the code
    as one thread runs it.  [None] is undefined behaviour: erasing the first
    element of an empty container. *)
From S2P Require Import Prelude Boost TraceInfo.

Module Unwinder.

(** ["<unknown>"] *)
Definition unknown_tag : bytes := [60; 117; 110; 107; 110; 111; 119; 110; 62].

Record UnwProcNameInfo := mkUnwProcNameInfo {
  pni_procname : bytes;
  pni_ip : Z;
  pni_offp : Z;
  pni_shl_addr : Z;
}.

(** A frame of the stack libunwind steps through: the instruction and stack
    pointers, and what [unw_get_proc_name] says at this cursor (the name and
    the offset in the function). *)
Record unw_frame := mkUnwFrame {
  uf_ip : Z;
  uf_sp : Z;
  uf_proc_name : option (bytes * Z);
}.

Section unwinder.
(** [m_procname_info_map] *)
Context {P : Type} `{!SeqIndex P UnwProcNameInfo Z}.
(** the accessor [get_proc_name] of the local address space, if it has one,
    and [dladdr]: the base of the module and its path, which can be null *)
Context (get_proc_name : option (Z → option (bytes * Z))).
Context (dladdr : Z → option (Z * option bytes)).

Record Impl := mkImpl {
  m_cache_max_size : Z;
  m_procname_info_map : P;
  m_shl_path_map : gmap Z bytes;
}.

(** The constructor; [cache_max_size] is what [strtoul] returns for the
    environment variable, if it is set. *)
Definition newImpl (cache_max_size : option Z) : Impl :=
  mkImpl (default 32768 cache_max_size) si_empty ∅.

Definition GetUnwProcNameByIP (ip : Z) : option (bytes * Z) :=
  match get_proc_name with
  | Some f => f ip
  | None => None
  end.

(** The branch for a cached address. *)
Definition cached_info (pni : UnwProcNameInfo) (item : CallStackInfoItem) (s : Impl)
    : CallStackInfoItem * Impl :=
  let shl_path :=
    match m_shl_path_map s !! pni_shl_addr pni with
    | Some p => p
    | None => unknown_tag
    end in
  (mkCallStackInfoItem shl_path (pni_procname pni) (pni_shl_addr pni)
     (csi_ip item) (csi_sp item) (pni_offp pni),
   mkImpl (m_cache_max_size s) (si_relocate (pni_ip pni) (m_procname_info_map s))
     (m_shl_path_map s)).

(** The branch for an address not in the cache; [name] is the result of the
    query for the function. *)
Definition fresh_info (name : option (bytes * Z)) (item : CallStackInfoItem) (s : Impl)
    : option (CallStackInfoItem * Impl) :=
  let '(procname, offp) :=
    match name with Some (n, off) => (n, off) | None => (unknown_tag, 0) end in
  let '(shl_addr, shl_path, paths) :=
    match dladdr (csi_ip item) with
    | Some (fbase, fname) =>
        let shl_path := match fname with Some p => p | None => unknown_tag end in
        (fbase, shl_path,
         match m_shl_path_map s !! fbase with
         | Some _ => m_shl_path_map s
         | None => <[fbase := shl_path]> (m_shl_path_map s)
         end)
    | None => (0, unknown_tag, m_shl_path_map s)
    end in
  let pni := mkUnwProcNameInfo procname (csi_ip item) offp shl_addr in
  let map := m_procname_info_map s in
  match (if m_cache_max_size s <=? Z.of_nat (si_size map) then si_pop_front map else Some map) with
  | None => None
  | Some map =>
      Some (mkCallStackInfoItem shl_path procname shl_addr (csi_ip item) (csi_sp item) offp,
            mkImpl (m_cache_max_size s) (si_insert pni map) paths)
  end.

(** [GetUnwProcInfo (item.ip, cursor, item.shl_path, ...)] *)
Definition GetUnwProcInfo (frame : unw_frame) (item : CallStackInfoItem) (s : Impl)
    : option (CallStackInfoItem * Impl) :=
  match si_find (csi_ip item) (m_procname_info_map s) with
  | Some pni => Some (cached_info pni item s)
  | None => fresh_info (uf_proc_name frame) item s
  end.

(** [GetUnwProcInfoByIP (item.ip, item.shl_path, ...)] *)
Definition GetUnwProcInfoByIP (item : CallStackInfoItem) (s : Impl)
    : option (CallStackInfoItem * Impl) :=
  match si_find (csi_ip item) (m_procname_info_map s) with
  | Some pni => Some (cached_info pni item s)
  | None => fresh_info (GetUnwProcNameByIP (csi_ip item)) item s
  end.

Definition FlushUnwCache (s : Impl) : Impl :=
  mkImpl (m_cache_max_size s) (si_clear (m_procname_info_map s)) ∅.

(** [while (unw_step (&cursor) > 0 && --skip_frames > 0);] on the frames still
    to be stepped to *)
Fixpoint skip_loop (cursor : list unw_frame) (skip_frames : Z) : list unw_frame :=
  match cursor with
  | [] => []
  | _ :: cursor =>
      let skip_frames := u64 (skip_frames - 1) in
      if 0 <? skip_frames then skip_loop cursor skip_frames else cursor
  end.

Fixpoint frame_loop (cursor : list unw_frame) (need_unwind_proc_info : bool)
    (callstack : CallStackInfo) (s : Impl) : option (CallStackInfo * Impl) :=
  match cursor with
  | [] => Some (callstack, s)
  | frame :: cursor =>
      if uf_ip frame =? 0 then Some (callstack, s)
      else
        let item := mkCallStackInfoItem [] [] 0 (uf_ip frame) (uf_sp frame) 0 in
        if need_unwind_proc_info then
          match GetUnwProcInfo frame item s with
          | Some (item, s) => frame_loop cursor need_unwind_proc_info (callstack ++ [item]) s
          | None => None
          end
        else frame_loop cursor need_unwind_proc_info (callstack ++ [item]) s
  end.

Definition GetCallStackInfo (stack : list unw_frame) (skip_frames : Z)
    (need_unwind_proc_info : bool) (s : Impl) : option (CallStackInfo * Impl) :=
  frame_loop (skip_loop stack skip_frames) need_unwind_proc_info [] s.

Fixpoint GetCallStackUnwindProcInfo (callstack : CallStackInfo) (s : Impl)
    : option (CallStackInfo * Impl) :=
  match callstack with
  | [] => Some ([], s)
  | item :: callstack =>
      match GetUnwProcInfoByIP item s with
      | Some (item, s) =>
          match GetCallStackUnwindProcInfo callstack s with
          | Some (callstack, s) => Some (item :: callstack, s)
          | None => None
          end
      | None => None
      end
  end.

Definition FlushCallStackCache (s : Impl) : Impl := FlushUnwCache s.

(** *** The life of the unwinder *)

Inductive unw_caching_policy_t := UNW_CACHE_NONE | UNW_CACHE_GLOBAL | UNW_CACHE_PER_THREAD.

(** [MEMHOOK_LIBUNWIND_CACHING_POLICY]: its first character, 't' or 'g' *)
Definition caching_policy (option : option bytes) : unw_caching_policy_t :=
  match option with
  | Some o =>
      match head o with
      | Some c =>
          if c =? 116 then UNW_CACHE_PER_THREAD
          else if c =? 103 then UNW_CACHE_GLOBAL
          else UNW_CACHE_NONE
      | None => UNW_CACHE_NONE
      end
  | None => UNW_CACHE_NONE
  end.

(** [m_impl], and the messages that were logged *)
Record CallStackUnwinder := mkUnwinder { m_impl : option Impl; u_messages : nat }.

(** [unw_set_caching_policy] is whether the library takes the policy; a
    failure is logged and nothing else. *)
Definition Initialize (unw_set_caching_policy : unw_caching_policy_t → bool)
    (option : option bytes) (cache_max_size : Datatypes.option Z) (u : CallStackUnwinder)
    : CallStackUnwinder :=
  let messages := if unw_set_caching_policy (caching_policy option) then u_messages u else S (u_messages u) in
  mkUnwinder (Some (newImpl cache_max_size)) messages.

Definition Destroy (u : CallStackUnwinder) : CallStackUnwinder := mkUnwinder None (u_messages u).

(** A call through [m_impl], which is null before [Initialize] and after
    [Destroy]. *)
Definition with_impl {A} (f : Impl → option (A * Impl)) (u : CallStackUnwinder)
    : option (A * CallStackUnwinder) :=
  match m_impl u with
  | Some s =>
      match f s with
      | Some (a, s) => Some (a, mkUnwinder (Some s) (u_messages u))
      | None => None
      end
  | None => None
  end.

(** ** What the cache computes *)

(** The name of a frame, without a cache. *)
Definition resolve (item : CallStackInfoItem) : CallStackInfoItem :=
  let '(procname, offp) :=
    match GetUnwProcNameByIP (csi_ip item) with
    | Some (n, off) => (n, off) | None => (unknown_tag, 0)
    end in
  let '(shl_addr, shl_path) :=
    match dladdr (csi_ip item) with
    | Some (fbase, fname) => (fbase, default unknown_tag fname)
    | None => (0, unknown_tag)
    end in
  mkCallStackInfoItem shl_path procname shl_addr (csi_ip item) (csi_sp item) offp.

(** The addresses used, each once, the one used last first. *)
Definition recency (ips : list Z) : list Z :=
  fold_left (λ l ip, ip :: filter (λ x, x ≠ ip) l) ips [].

(** Frames of which the cursor and the accessor say the same. *)
Definition frame_agrees (f : unw_frame) : Prop := uf_proc_name f = GetUnwProcNameByIP (uf_ip f).

(** The frames of a stack that are recorded. *)
Definition recorded_frames (stack : list unw_frame) : list unw_frame :=
  take_while (λ f, negb (uf_ip f =? 0)) (drop 2 stack).

Definition frame_item (f : unw_frame) : CallStackInfoItem :=
  mkCallStackInfoItem [] [] 0 (uf_ip f) (uf_sp f) 0.

End unwinder.
Arguments Impl : clear implicits.
Arguments CallStackUnwinder : clear implicits.

(** ** Lemmas *)

(** What the code relies on of [dladdr]: the base address determines the
    module, and no module is at address 0. *)
Class DladdrLaws (dladdr : Z → option (Z * option bytes)) : Prop := {
  dladdr_module ip ip' b n n' :
    dladdr ip = Some (b, n) → dladdr ip' = Some (b, n') → n = n';
  dladdr_base ip b n : dladdr ip = Some (b, n) → b ≠ 0;
}.

Section lemmas.
Context {P : Type} `{!SeqIndex P UnwProcNameInfo Z} {L : SeqIndexLaws P UnwProcNameInfo Z pni_ip}.
Context (get_proc_name : option (Z → option (bytes * Z))).
Context (dladdr : Z → option (Z * option bytes)) `{!DladdrLaws dladdr}.
Implicit Types s : Impl P.

Abbreviation ByIP := (GetUnwProcInfoByIP get_proc_name dladdr).
Abbreviation resolve := (resolve get_proc_name dladdr).

(** The addresses in the cache, the one used last first. *)
Definition cached_ips (s : Impl P) : list Z := reverse (pni_ip <$> si_seq (m_procname_info_map s)).

Abbreviation name_at := (GetUnwProcNameByIP get_proc_name).

(** A cache entry says what the two queries say, and the path of its module
    is known. *)
Definition entry_ok (paths : gmap Z bytes) (pni : UnwProcNameInfo) : Prop :=
  (pni_procname pni, pni_offp pni) = default (unknown_tag, 0) (name_at (pni_ip pni)) ∧
  match dladdr (pni_ip pni) with
  | Some (b, _) => pni_shl_addr pni = b ∧ is_Some (paths !! b)
  | None => pni_shl_addr pni = 0
  end.

Definition paths_ok (paths : gmap Z bytes) : Prop :=
  map_Forall (λ b p, ∃ ip n, dladdr ip = Some (b, n) ∧ p = default unknown_tag n) paths.

Record unwinder_inv (s : Impl P) : Prop := {
  ui_max : 0 < m_cache_max_size s;
  ui_size : Z.of_nat (length (si_seq (m_procname_info_map s))) ≤ m_cache_max_size s;
  ui_entries : Forall (entry_ok (m_shl_path_map s)) (si_seq (m_procname_info_map s));
  ui_paths : paths_ok (m_shl_path_map s);
}.

Lemma newImpl_inv o : 0 < default 32768 o → unwinder_inv (newImpl o).
Proof.
  intros. split; simpl; [done|rewrite si_seq_empty; simpl; lia|by rewrite si_seq_empty|].
  apply map_Forall_empty.
Qed.

Lemma FlushUnwCache_inv s : unwinder_inv s → unwinder_inv (FlushUnwCache s).
Proof.
  intros []. split; simpl; [done|rewrite si_seq_clear; simpl; lia|by rewrite si_seq_clear|].
  apply map_Forall_empty.
Qed.

Lemma entry_ok_mono paths paths' pni :
  (∀ b, is_Some (paths !! b) → is_Some (paths' !! b)) → entry_ok paths pni → entry_ok paths' pni.
Proof. intros Hm [? Hs]. split; [done|]. case_match; [|done]. case_match. naive_solver. Qed.

(** A cache hit. *)
Lemma cached_info_resolve pni item s :
  entry_ok (m_shl_path_map s) pni → paths_ok (m_shl_path_map s) → pni_ip pni = csi_ip item →
  (cached_info pni item s).1 = resolve item.
Proof.
  intros [Hn Hd] Hp Hip. unfold cached_info, Unwinder.resolve. simpl. rewrite <- Hip.
  destruct (dladdr (pni_ip pni)) as [[b n]|] eqn:Hdl.
  - destruct Hd as [-> [p Hb]]. rewrite Hb.
    destruct (Hp _ _ Hb) as (ip' & n' & Hdl' & ->).
    rewrite (dladdr_module _ _ _ _ _ Hdl' Hdl).
    destruct (name_at (pni_ip pni)) as [[]|]; simplify_eq/=; congruence.
  - rewrite Hd. destruct (m_shl_path_map s !! 0) as [p|] eqn:H0.
    { destruct (Hp _ _ H0) as (ip' & n' & Hdl' & _). by apply dladdr_base in Hdl'. }
    destruct (name_at (pni_ip pni)) as [[]|]; simplify_eq/=; congruence.
Qed.

Lemma keys_relocate ip c e :
  si_find ip c = Some e →
  pni_ip <$> si_seq (si_relocate ip c) = filter (λ x, x ≠ ip) (pni_ip <$> si_seq c) ++ [ip].
Proof.
  intros Hf. rewrite (si_seq_relocate _ _ e Hf). apply si_find_spec in Hf as [_ <-].
  by rewrite fmap_app, filter_fmap.
Qed.

Lemma find_keys ip c : si_find ip c = None ↔ ip ∉ pni_ip <$> si_seq c.
Proof.
  split.
  - intros Hf (e & -> & Hin)%list_elem_of_fmap.
    assert (si_find (pni_ip e) c = Some e) by (by apply si_find_spec). congruence.
  - intros Hn. destruct (si_find ip c) as [e|] eqn:Hf; [|done].
    apply si_find_spec in Hf as [? <-]. destruct Hn. by apply list_elem_of_fmap_2.
Qed.

(** A cache hit moves the address to the front. *)
Lemma cached_info_spec pni item s :
  unwinder_inv s → si_find (csi_ip item) (m_procname_info_map s) = Some pni →
  (cached_info pni item s).1 = resolve item ∧ unwinder_inv (cached_info pni item s).2 ∧
  cached_ips (cached_info pni item s).2 =
    csi_ip item :: filter (λ x, x ≠ csi_ip item) (cached_ips s).
Proof.
  intros [Hmax Hsize He Hp] Hf. pose proof Hf as [Hin Hip]%si_find_spec.
  rewrite Forall_forall in He. split; [by apply cached_info_resolve; auto|].
  unfold cached_ips; simpl. rewrite Hip.
  rewrite (keys_relocate _ _ _ Hf), reverse_snoc, filter_reverse. split; [|done].
  split; simpl; rewrite ?Hip, ?(si_seq_relocate _ _ _ Hf); [done| | |done].
  - rewrite length_app. simpl.
    assert (length (filter (λ x, pni_ip x ≠ csi_ip item) (si_seq (m_procname_info_map s)))
      < length (si_seq (m_procname_info_map s)))%nat; [|lia].
    apply (length_filter_lt _ _ pni); auto.
  - apply Forall_forall. intros x. rewrite elem_of_app, list_elem_of_filter, list_elem_of_singleton.
    intros [[_ ?]| ->]; auto.
Qed.

(** Making room for one more entry. *)
Lemma evict_spec s :
  unwinder_inv s →
  ∃ map, (if m_cache_max_size s <=? Z.of_nat (si_size (m_procname_info_map s))
      then si_pop_front (m_procname_info_map s) else Some (m_procname_info_map s)) = Some map ∧
    suffix (si_seq map) (si_seq (m_procname_info_map s)) ∧
    Z.of_nat (length (si_seq map)) =
      Z.of_nat (length (si_seq (m_procname_info_map s))) `min` (m_cache_max_size s - 1).
Proof.
  intros [Hmax Hsize _ _]. rewrite si_size_spec. case_match; zify_bool.
  - pose proof (si_seq_pop_front (m_procname_info_map s)) as Hpop.
    destruct (si_seq (m_procname_info_map s)) as [|e l] eqn:Hseq; simpl in *; [lia|].
    destruct (si_pop_front _) as [map|]; simplify_eq/=. exists map.
    split_and!; [done|by exists [e]|lia].
  - eexists. split_and!; [done..|lia].
Qed.

(** What a miss learns of the module. *)
Lemma fresh_paths item s :
  paths_ok (m_shl_path_map s) →
  match dladdr (csi_ip item) with
  | Some (b, n) =>
      let paths := match m_shl_path_map s !! b with
        | Some _ => m_shl_path_map s
        | None => <[b := default unknown_tag n]> (m_shl_path_map s) end in
      paths_ok paths ∧ is_Some (paths !! b) ∧
      ∀ b', is_Some (m_shl_path_map s !! b') → is_Some (paths !! b')
  | None => True
  end.
Proof.
  intros Hp. destruct (dladdr (csi_ip item)) as [[b n]|] eqn:Hd; [|done]. simpl.
  destruct (m_shl_path_map s !! b) eqn:Hb; [by eauto|]. split_and!.
  - apply map_Forall_insert_2; [|done]. eauto.
  - rewrite lookup_insert_eq. eauto.
  - intros b' [x Hx]. rewrite lookup_insert_ne by congruence. eauto.
Qed.

(** A truncation of a list whose end was dropped. *)
Lemma take_reverse_suffix {A} (dropped l : list A) m :
  length l = (length (dropped ++ l) `min` m)%nat → take m (reverse (dropped ++ l)) = reverse l.
Proof.
  rewrite length_app, reverse_app. intros Hl. destruct dropped as [|x d].
  - rewrite app_nil_r. apply take_ge. rewrite length_reverse. simpl in *. lia.
  - apply take_app_length'. rewrite length_reverse. cbn [length] in *. lia.
Qed.

(** A new entry in the room [evict_spec] makes. *)
Lemma insert_spec s map paths pni :
  unwinder_inv s → suffix (si_seq map) (si_seq (m_procname_info_map s)) →
  Z.of_nat (length (si_seq map)) =
    Z.of_nat (length (si_seq (m_procname_info_map s))) `min` (m_cache_max_size s - 1) →
  si_find (pni_ip pni) (m_procname_info_map s) = None →
  entry_ok paths pni → paths_ok paths →
  (∀ b, is_Some (m_shl_path_map s !! b) → is_Some (paths !! b)) →
  let s' := mkImpl (m_cache_max_size s) (si_insert pni map) paths in
  unwinder_inv s' ∧ m_cache_max_size s' = m_cache_max_size s ∧
  cached_ips s' = take (Z.to_nat (m_cache_max_size s)) (pni_ip pni :: cached_ips s).
Proof.
  intros [Hmax Hsize He _] [dropped Hsuf] Hlen Hf Hpni Hpaths Hmono. simpl.
  unfold cached_ips; simpl. rewrite Hsuf in *.
  apply find_keys in Hf. rewrite Hsuf, fmap_app, not_elem_of_app in Hf. destruct Hf as [_ Hf].
  apply find_keys in Hf. apply Forall_app in He as [_ He].
  assert (si_seq (si_insert pni map) = si_seq map ++ [pni]) as Hins
    by (rewrite si_seq_insert; by rewrite Hf).
  split_and!; [split; simpl; rewrite ?Hins|done|].
  - done.
  - rewrite length_app. simpl. lia.
  - apply Forall_app. split; [|by constructor].
    eapply Forall_impl; [done|]. intros x. by apply entry_ok_mono.
  - done.
  - rewrite Hins, fmap_app, reverse_app.
    destruct (Z.to_nat (m_cache_max_size s)) as [|m] eqn:Hm; [lia|]. rewrite firstn_cons.
    simpl. f_equal. rewrite fmap_app. symmetry. apply take_reverse_suffix.
    rewrite <- fmap_app, !length_fmap. lia.
Qed.

(** A miss enters the address at the front and drops the one used least
    recently when there is no room. *)
Lemma fresh_info_spec item s :
  unwinder_inv s → si_find (csi_ip item) (m_procname_info_map s) = None →
  ∃ s', fresh_info dladdr (name_at (csi_ip item)) item s = Some (resolve item, s') ∧
    unwinder_inv s' ∧ m_cache_max_size s' = m_cache_max_size s ∧
    cached_ips s' = take (Z.to_nat (m_cache_max_size s)) (csi_ip item :: cached_ips s).
Proof.
  intros Hinv Hf. destruct (evict_spec s Hinv) as (map & Hev & Hsuf & Hlen).
  pose proof (ui_paths s Hinv) as Hp. pose proof (fresh_paths item s Hp) as Hfp.
  unfold fresh_info, Unwinder.resolve. rewrite Hev.
  destruct (name_at (csi_ip item)) as [[n off]|] eqn:Hn;
    destruct (dladdr (csi_ip item)) as [[b path]|] eqn:Hd; simpl in *;
    (eexists; split; [reflexivity|]); destruct_and?;
    (eapply insert_spec; eauto; split; simpl; [by rewrite Hn|by rewrite Hd; eauto]).
Qed.

(** Looking an address up: the result is the one without a cache, the cache
    stays within its size and holds the addresses used last. *)
Lemma lookup_spec name item s :
  unwinder_inv s → name = name_at (csi_ip item) →
  ∃ s', (match si_find (csi_ip item) (m_procname_info_map s) with
         | Some pni => Some (cached_info pni item s)
         | None => fresh_info dladdr name item s
         end) = Some (resolve item, s') ∧
    unwinder_inv s' ∧ m_cache_max_size s' = m_cache_max_size s ∧
    cached_ips s' = take (Z.to_nat (m_cache_max_size s))
      (csi_ip item :: filter (λ x, x ≠ csi_ip item) (cached_ips s)).
Proof.
  intros Hinv ->. destruct (si_find _ _) as [pni|] eqn:Hf.
  - destruct (cached_info_spec pni item s Hinv Hf) as (Hr & Hinv' & Hips).
    eexists. rewrite (surjective_pairing (cached_info pni item s)), Hr.
    split_and!; [done..|]. rewrite Hips. symmetry. apply take_ge.
    rewrite <- Hips. unfold cached_ips. rewrite length_reverse, length_fmap.
    destruct Hinv' as [_ Hs _ _]. simpl in *. lia.
  - destruct (fresh_info_spec item s Hinv Hf) as (s' & Hr & Hinv' & Hmax & Hips).
    exists s'. split_and!; [done..|]. rewrite Hips. f_equal. f_equal. symmetry.
    apply filter_all, Forall_forall. intros x Hx ->.
    apply find_keys in Hf. apply Hf. by apply elem_of_reverse.
Qed.

Lemma GetCallStackUnwindProcInfo_spec cs s :
  unwinder_inv s →
  ∃ s', GetCallStackUnwindProcInfo get_proc_name dladdr cs s = Some (resolve <$> cs, s') ∧
    unwinder_inv s' ∧ m_cache_max_size s' = m_cache_max_size s.
Proof.
  revert s; induction cs as [|i cs IH]; intros s Hs; simpl; [by eauto|].
  destruct (lookup_spec _ i s Hs eq_refl) as (s1 & Hr & Hs1 & Hm1 & _).
  unfold GetUnwProcInfoByIP. rewrite Hr.
  destruct (IH s1 Hs1) as (s2 & -> & ? & ?). exists s2. by split_and!; [..|congruence].
Qed.

Lemma skip_two stack : skip_loop stack 2 = drop 2 stack.
Proof. by destruct stack as [|? [|? ?]]. Qed.

Lemma frame_loop_spec need cursor acc s :
  unwinder_inv s → Forall (frame_agrees get_proc_name) cursor →
  ∃ s', frame_loop dladdr cursor need acc s =
      Some (acc ++ ((λ f, (if need : bool then resolve else id) (frame_item f)) <$>
        take_while (λ f, negb (uf_ip f =? 0)) cursor), s') ∧
    unwinder_inv s' ∧ m_cache_max_size s' = m_cache_max_size s.
Proof.
  intros Hs Hc. revert acc s Hs; induction Hc as [|f cursor Hf Hc IH]; intros acc s Hs; csimpl.
  { eexists. by rewrite app_nil_r. }
  destruct (uf_ip f =? 0) eqn:H0; csimpl; [eexists; by rewrite app_nil_r|].
  destruct need.
  - destruct (lookup_spec (uf_proc_name f) (frame_item f) s Hs Hf) as (s1 & Hr & Hs1 & Hm1 & _).
    unfold GetUnwProcInfo. unfold frame_item in Hr at 1 2 3. rewrite Hr.
    destruct (IH (acc ++ [resolve (frame_item f)]) s1 Hs1) as (s2 & -> & ? & ?).
    exists s2. rewrite <- app_assoc. by split_and!; [..|congruence].
  - destruct (IH (acc ++ [frame_item f]) s Hs) as (s2 & Hr & ? & ?).
    exists s2. unfold frame_item in Hr at 1. rewrite Hr, <- app_assoc. done.
Qed.

Lemma GetCallStackInfo_spec need stack s :
  unwinder_inv s → Forall (frame_agrees get_proc_name) stack →
  ∃ s', GetCallStackInfo dladdr stack 2 need s =
      Some ((λ f, (if need : bool then resolve else id) (frame_item f)) <$> recorded_frames stack, s') ∧
    unwinder_inv s' ∧ m_cache_max_size s' = m_cache_max_size s.
Proof.
  intros Hs Hst. unfold GetCallStackInfo. rewrite skip_two.
  destruct (frame_loop_spec need (drop 2 stack) [] s Hs) as (s' & Hr & ? & ?); [by apply Forall_drop|].
  by exists s'.
Qed.

Lemma recency_nodup (ips l : list Z) :
  NoDup l → NoDup (fold_left (λ l ip, ip :: filter (λ x, x ≠ ip) l) ips l).
Proof.
  revert l; induction ips as [|ip ips IH]; intros l Hl; [done|]. apply IH. constructor.
  - rewrite list_elem_of_filter. naive_solver.
  - by apply NoDup_filter.
Qed.

Lemma lookups_recency cs s s' cs' l :
  unwinder_inv s → NoDup l → cached_ips s = take (Z.to_nat (m_cache_max_size s)) l →
  GetCallStackUnwindProcInfo get_proc_name dladdr cs s = Some (cs', s') →
  cached_ips s' = take (Z.to_nat (m_cache_max_size s))
    (fold_left (λ l ip, ip :: filter (λ x, x ≠ ip) l) (csi_ip <$> cs) l).
Proof.
  revert s cs' l; induction cs as [|i cs IH]; intros s cs' l Hs Hl Hc; csimpl; [naive_solver|].
  destruct (lookup_spec _ i s Hs eq_refl) as (s1 & Hr & Hs1 & Hm1 & Hc1).
  unfold GetUnwProcInfoByIP. rewrite Hr.
  destruct (GetCallStackUnwindProcInfo _ _ cs s1) as [[cs1 s2]|] eqn:Hcs; [|done].
  intros [= <- <-]. rewrite <- Hm1 in *. eapply IH; [done| |by rewrite Hc1, Hc, take_move_front|done].
  by apply (recency_nodup [csi_ip i]).
Qed.

(** ** Properties *)

(** C19.  The cache of names is a transparent least-recently-used cache: for
    every sequence of lookups it returns what the queries without a cache
    return, and it holds the most recently used addresses, as many as its
    size allows. *)
Theorem unwinder_cache_is_lru o cs :
  0 < default 32768 o →
  ∃ s', GetCallStackUnwindProcInfo get_proc_name dladdr cs (newImpl o) =
      Some (resolve <$> cs, s') ∧
    cached_ips s' = take (Z.to_nat (default 32768 o)) (recency (csi_ip <$> cs)).
Proof.
  intros Ho. pose proof (newImpl_inv o Ho) as Hs.
  destruct (GetCallStackUnwindProcInfo_spec cs _ Hs) as (s' & Hr & _ & _).
  exists s'. split; [done|]. eapply (lookups_recency _ _ _ _ []) in Hr; [done|done|constructor|].
  unfold cached_ips; simpl. rewrite si_seq_empty. by destruct (Z.to_nat _).
Qed.

(** Capturing a call stack leaves out the two innermost frames, stops at
    a null instruction pointer and records every frame in between, innermost
    first; with names when they are asked for, and without them otherwise. *)
Theorem capture_spec need o stack :
  0 < default 32768 o → Forall (frame_agrees get_proc_name) stack →
  ∃ s', GetCallStackInfo dladdr stack 2 need (newImpl o) =
    Some ((λ f, (if need : bool then resolve else id) (frame_item f)) <$>
      take_while (λ f, negb (uf_ip f =? 0)) (drop 2 stack), s').
Proof.
  intros Ho Hst. destruct (GetCallStackInfo_spec need stack (newImpl o)) as (s' & Hr & _);
    [by apply newImpl_inv|done|]. by exists s'.
Qed.

(** An unwinder names frames from its initialization on, whichever caching
    policy the environment asks for and whether or not the library takes it;
    before it and after [Destroy] a call goes through a null pointer. *)
Theorem unwinder_lives_between set_policy option o cs u :
  0 < default 32768 o →
  (∃ u', with_impl (GetCallStackUnwindProcInfo get_proc_name dladdr cs) (Initialize set_policy option o u) =
     Some (resolve <$> cs, u') ∧ is_Some (m_impl u')) ∧
  with_impl (GetCallStackUnwindProcInfo get_proc_name dladdr cs) (Destroy (P := P) u) = None.
Proof.
  intros Ho. split; [|done].
  destruct (GetCallStackUnwindProcInfo_spec cs _ (newImpl_inv o Ho)) as (s' & Hr & _ & _).
  unfold with_impl. simpl. rewrite Hr. eexists. split; [done|]. by eexists.
Qed.

(** With [MEMHOOK_CALLSTACK_UNWINDER_CACHE_SIZE=0] the first lookup
    erases from an empty container. *)
Theorem zero_cache_size_undefined item :
  GetUnwProcInfoByIP get_proc_name dladdr item (newImpl (Some 0)) = None.
Proof.
  unfold GetUnwProcInfoByIP, fresh_info. simpl.
  assert (si_find (csi_ip item) si_empty = None) as ->.
  { apply find_keys. rewrite si_seq_empty. apply not_elem_of_nil. }
  pose proof (si_seq_pop_front si_empty) as Hp. rewrite si_seq_empty in Hp.
  destruct (si_pop_front si_empty) eqn:He; [done|].
  rewrite si_size_spec, si_seq_empty. simpl.
  destruct (name_at (csi_ip item)) as [[]|], (dladdr (csi_ip item)) as [[]|]; done.
Qed.

End lemmas.

(** ** Examples *)

Abbreviation ref_procs := (ListIndex.t pni_ip).
#[export] Instance ref_procs_ops : SeqIndex ref_procs UnwProcNameInfo Z :=
  ListIndex.seq_ops pni_ip.
#[export] Instance ref_procs_laws : SeqIndexLaws ref_procs UnwProcNameInfo Z pni_ip :=
  ListIndex.seq_laws pni_ip.

Definition demo_proc_name (ip : Z) : option (bytes * Z) :=
  if ip <? 100 then None else Some ([ip / 100], ip `mod` 100).
Definition demo_dladdr (ip : Z) : option (Z * option bytes) :=
  if ip <? 1000 then None else Some (ip / 1000, Some [47; ip / 1000]).

#[export] Instance demo_dladdr_laws : DladdrLaws demo_dladdr.
Proof.
  split; unfold demo_dladdr; intros *.
  - destruct (ip <? 1000), (ip' <? 1000); intros; simplify_eq; congruence.
  - destruct (ip <? 1000) eqn:Hip; [done|]. zify_bool. intros [= <- _].
    assert (1 ≤ ip / 1000) by (apply Z.div_le_lower_bound; lia). lia.
Qed.

Definition demo_at (ip : Z) : CallStackInfoItem := mkCallStackInfoItem [] [] 0 ip 8 0.

Lemma unwinder_cache_is_lru_witness :
  ∃ s', GetCallStackUnwindProcInfo (P := ref_procs) (Some demo_proc_name) demo_dladdr
      (demo_at <$> [2050; 2060; 50; 2050; 3070]) (newImpl (Some 2)) =
      Some (resolve (Some demo_proc_name) demo_dladdr <$>
        (demo_at <$> [2050; 2060; 50; 2050; 3070]), s') ∧
    cached_ips s' = [3070; 2050].
Proof.
  destruct (unwinder_cache_is_lru (P := ref_procs) (Some demo_proc_name) demo_dladdr (Some 2)
    (demo_at <$> [2050; 2060; 50; 2050; 3070]) eq_refl) as (s' & Hr & Hc).
  exists s'. split; [exact Hr|]. rewrite Hc. reflexivity.
Defined.

Definition demo_stack : list unw_frame :=
  [ mkUnwFrame 10 1 None; mkUnwFrame 20 2 None; mkUnwFrame 2050 3 (Some ([20], 50));
    mkUnwFrame 99 4 None; mkUnwFrame 0 5 None; mkUnwFrame 77 6 None ].

Lemma capture_spec_witness :
  ∃ s', GetCallStackInfo (P := ref_procs) demo_dladdr demo_stack 2 true (newImpl None) =
    Some ([mkCallStackInfoItem [47; 2] [20] 2 2050 3 50;
           mkCallStackInfoItem unknown_tag unknown_tag 0 99 4 0], s').
Proof.
  apply (capture_spec (Some demo_proc_name) demo_dladdr true None demo_stack).
  - reflexivity.
  - unfold demo_stack, frame_agrees. repeat constructor.
Defined.

Lemma zero_cache_size_undefined_witness :
  GetUnwProcInfoByIP (P := ref_procs) None demo_dladdr (demo_at 5) (newImpl (Some 0)) = None.
Proof. apply zero_cache_size_undefined. Defined.

End Unwinder.
