(* ===== verification/Engine.v ===== *)
(** * The tracing engine

    src/memhook/engine.cpp and src/memhook/engine.h: the record of live
    allocations.  New records go to a cache; records that are older than a
    timeout move to the database, the oldest first.

    The hooks run under the mutex of the cache, so a hook is one step of the
    engine.  The time and the stack at a call of a hook are arguments of the
    step.  [None] is the undefined behaviour of the unwinder. *)
From S2P Require Import Prelude Boost TraceInfo Serialization Network Storage Unwinder.

Module Engine.
Import Serialization Network Storage Unwinder.

(** ** Data *)

(** [Engine::TraceInfo] *)
Record TraceInfo := mkTraceInfo {
  e_base : TraceInfoBase;
  e_callstack : CallStackInfo;
}.

Definition e_address (t : TraceInfo) : Z := address (e_base t).
Definition e_memsize (t : TraceInfo) : Z := memsize (e_base t).
Definition e_timestamp (t : TraceInfo) : Z := timestamp (e_base t).

(** [TraceInfo (address, memsize, timestamp)] *)
Definition newTraceInfo (address memsize timestamp : Z) : TraceInfo :=
  mkTraceInfo (mkTraceInfoBase address memsize timestamp) [].

(** Writes to the members that are no index keys. *)
Definition e_set_callstack (cs : CallStackInfo) (t : TraceInfo) : TraceInfo :=
  mkTraceInfo (e_base t) cs.
Definition e_set_memsize (n : Z) (t : TraceInfo) : TraceInfo :=
  mkTraceInfo (set_memsize n (e_base t)) (e_callstack t).

(** The indices of [Engine::IndexedContainer]. *)
Definition cache_indices : list (TraceInfo → Z) := [e_address; e_timestamp].

Inductive CallStackUnwindProcInfoPolicy := kUnwindCallStackWhen | kFlushLocalCacheWhen.

#[export] Instance policy_eq_dec : EqDecision CallStackUnwindProcInfoPolicy.
Proof. solve_decision. Defined.

Section engine.
Context {St : Type} `{!MappedStorage St}.
Context {C : Type} `{!MultiIndex C TraceInfo Z}.
Context {P : Type} `{!SeqIndex P UnwProcNameInfo Z}.
Context (get_proc_name : option (Z → option (bytes * Z))).
Context (dladdr : Z → option (Z * option bytes)).
(** ticks of [chrono::system_clock] in a second *)
Context (ticks : Z).

Record Engine := mkEngine {
  m_storage : option St;
  m_cache : C;
  m_callstack_unwinder : Impl P;
  m_cache_flush_timeout : Z;
  m_cache_flush_max_items : Z;
  m_getprocinfo_policy : CallStackUnwindProcInfoPolicy;
}.

Definition set_storage (st : option St) (e : Engine) : Engine :=
  mkEngine st (m_cache e) (m_callstack_unwinder e) (m_cache_flush_timeout e)
    (m_cache_flush_max_items e) (m_getprocinfo_policy e).
Definition set_cache (c : C) (e : Engine) : Engine :=
  mkEngine (m_storage e) c (m_callstack_unwinder e) (m_cache_flush_timeout e)
    (m_cache_flush_max_items e) (m_getprocinfo_policy e).
Definition set_unwinder (u : Impl P) (e : Engine) : Engine :=
  mkEngine (m_storage e) (m_cache e) u (m_cache_flush_timeout e)
    (m_cache_flush_max_items e) (m_getprocinfo_policy e).

(** ** Flushing *)

(** [now - timeout] on 64-bit tick counts *)
Definition deadline (now timeout : Z) : Z := i64 (now - i64 (timeout * ticks)).

(** The loop of [FlushLocalCache] over the records from [iter] to [end]; the
    result has the records the iterator passed. *)
Fixpoint flush_loop (dump_all : bool) (range : list TraceInfo) (n : Z) (st : St) (e : Engine)
    : option (Engine * St * Z * list TraceInfo) :=
  match range with
  | [] => Some (e, st, n, [])
  | t :: range =>
      if dump_all || (n <? m_cache_flush_max_items e) then
        let named :=
          if decide (m_getprocinfo_policy e = kFlushLocalCacheWhen) then
            match GetCallStackUnwindProcInfo get_proc_name dladdr (e_callstack t)
                    (m_callstack_unwinder e) with
            | Some (cs, u) =>
                Some (cs, set_unwinder u
                  (set_cache (mi_modify (e_address t) (e_set_callstack cs) (m_cache e)) e))
            | None => None
            end
          else Some (e_callstack t, e) in
        match named with
        | None => None
        | Some (cs, e) =>
            let st := Add (e_address t) (e_memsize t) cs (e_timestamp t) st in
            match flush_loop dump_all range (u64 (n + 1)) st e with
            | Some (e, st, n, passed) => Some (e, st, n, t :: passed)
            | None => None
            end
        end
      else Some (e, st, n, [])
  end.

Definition FlushLocalCache (now timeout : Z) (dump_all : bool) (e : Engine) : option Engine :=
  let index1 := mi_range 1 (m_cache e) in
  let range :=
    if dump_all then index1
    else take_while (λ t, e_timestamp t <? deadline now timeout) index1 in
  match m_storage e with
  | None => Some e
  | Some st =>
      match flush_loop dump_all range 0 st e with
      | None => None
      | Some (e, st, n, passed) =>
          let st := if n =? 0 then st else Flush st in
          Some (set_storage (Some st)
            (set_cache (foldr (λ t, mi_erase (e_address t)) (m_cache e) passed) e))
      end
  end.

(** ** Hooks *)

Definition DoHookAlloc (mem memsize now : Z) (stack : list unw_frame) (e : Engine)
    : option Engine :=
  if mem =? 0 then Some e
  else
    match GetCallStackInfo dladdr stack 2
            (bool_decide (m_getprocinfo_policy e = kUnwindCallStackWhen))
            (m_callstack_unwinder e) with
    | None => None
    | Some (callstack, u) =>
        let status := mi_emplace (newTraceInfo mem memsize now) (m_cache e) in
        let cache :=
          if status.2 then mi_modify mem (e_set_callstack callstack) status.1 else status.1 in
        FlushLocalCache now (m_cache_flush_timeout e) false (set_unwinder u (set_cache cache e))
    end.

Definition DoHookFree (mem : Z) (e : Engine) : Engine :=
  if mem =? 0 then e
  else
    match mi_find mem (m_cache e) with
    | Some _ => set_cache (mi_erase mem (m_cache e)) e
    | None =>
        match m_storage e with
        | Some st => set_storage (Some (Remove mem st).1) e
        | None => e
        end
    end.

Definition DoHookUpdateSize (mem newsize : Z) (e : Engine) : Engine :=
  if mem =? 0 then e
  else
    match mi_find mem (m_cache e) with
    | Some _ => set_cache (mi_modify mem (e_set_memsize newsize) (m_cache e)) e
    | None =>
        match m_storage e with
        | Some st => set_storage (Some (UpdateSize mem newsize st).1) e
        | None => e
        end
    end.

Definition DoHookRealloc (old_mem new_mem new_size now : Z) (stack : list unw_frame) (e : Engine)
    : option Engine :=
  if old_mem =? new_mem then Some (DoHookUpdateSize old_mem new_size e)
  else DoHookAlloc new_mem new_size now stack (DoHookFree old_mem e).

Definition DoFlushCallStackCache (e : Engine) : Engine :=
  set_unwinder (FlushCallStackCache (m_callstack_unwinder e)) e.

(** [OnDestroy]: the engine without a database, and the database it lets go. *)
Definition OnDestroy (now : Z) (e : Engine) : option (Engine * option St) :=
  match FlushLocalCache now 0 true e with
  | Some e => Some (set_storage None e, m_storage e)
  | None => None
  end.

(** *** The static functions: a hook does nothing without an instance *)

Definition with_instance (f : Engine → option Engine) (instance : option Engine)
    : option (option Engine) :=
  match instance with
  | Some e => match f e with Some e => Some (Some e) | None => None end
  | None => Some None
  end.

Definition HookAlloc (mem memsize now : Z) (stack : list unw_frame) :=
  with_instance (DoHookAlloc mem memsize now stack).
Definition HookFree (mem : Z) := with_instance (λ e, Some (DoHookFree mem e)).
Definition HookRealloc (old_mem new_mem new_size now : Z) (stack : list unw_frame) :=
  with_instance (DoHookRealloc old_mem new_mem new_size now stack).
Definition HookUpdateSize (mem newsize : Z) :=
  with_instance (λ e, Some (DoHookUpdateSize mem newsize e)).
Definition FlushCallStackCache_static := with_instance (λ e, Some (DoFlushCallStackCache e)).

(** ** Start *)

(** An engine with an empty cache. *)
Definition newEngine (st : option St) (unwinder_cache : option Z) (timeout max_items : Z)
    (pol : CallStackUnwindProcInfoPolicy) : Engine :=
  mkEngine st mi_empty (newImpl unwinder_cache) timeout max_items pol.

End engine.
Arguments Engine : clear implicits.

(** *** [strtoul (s, NULL, 10)] *)

Definition is_space (c : Z) : bool := (c =? 32) || ((9 <=? c) && (c <=? 13)).
Definition is_digit (c : Z) : bool := (48 <=? c) && (c <=? 57).

Fixpoint skip_space (s : bytes) : bytes :=
  match s with
  | c :: s' => if is_space c then skip_space s' else s
  | [] => []
  end.

Definition digits_value (s : bytes) : Z :=
  fold_left (λ acc c, acc * 10 + (c - 48)) (take_while is_digit s) 0.

Definition strtoul (s : bytes) : Z :=
  let s := skip_space s in
  let '(neg, s) :=
    match s with
    | c :: s' => if c =? 45 then (true, s') else if c =? 43 then (false, s') else (false, s)
    | [] => (false, [])
    end in
  let v := digits_value s in
  if 2 ^ 64 <=? v then 2 ^ 64 - 1 else if neg : bool then u64 (- v) else v.

(** *** The configuration from the environment *)

(** The database [NewStorage] opens. *)
Inductive storage_kind :=
| NetworkKind (host : bytes) (port : Z)
| MMFKind (path : bytes) (size : Z)
| SHMKind (name : bytes) (size : Z).

Definition MEMHOOK_NETWORK_STORAGE_PORT : Z := 20015.
(** ["ShmMemHook"] *)
Definition MEMHOOK_SHARED_MEMORY : bytes := [83; 104; 109; 77; 101; 109; 72; 111; 111; 107].

Section config.
Context (getenv : string → option bytes).

(** [if (new_ipc_size != 0) ipc_size = (new_ipc_size << shift)] *)
Definition sized (value : bytes) (shift ipc_size : Z) : Z :=
  let new_ipc_size := strtoul value in
  if new_ipc_size =? 0 then ipc_size else u64 (Z.shiftl new_ipc_size shift).

Definition ipc_size : Z :=
  let ipc_size := Z.shiftl 8 30 in
  match getenv "MEMHOOK_SIZE_GB" with
  | Some v => sized v 30 ipc_size
  | None =>
      match getenv "MEMHOOK_SIZE_MB" with
      | Some v => sized v 20 ipc_size
      | None =>
          match getenv "MEMHOOK_SIZE_KB" with
          | Some v => sized v 10 ipc_size
          | None =>
              match getenv "MEMHOOK_SIZE" with
              | Some v => sized v 0 ipc_size
              | None => ipc_size
              end
          end
      end
  end.

Definition NewStorage : storage_kind :=
  match getenv "MEMHOOK_NET_HOST" with
  | Some host =>
      NetworkKind host
        (match getenv "MEMHOOK_NET_PORT" with
         | Some p => i32 (strtoul p)
         | None => MEMHOOK_NETWORK_STORAGE_PORT
         end)
  | None =>
      match getenv "MEMHOOK_FILE" with
      | Some path => MMFKind path ipc_size
      | None => SHMKind (default MEMHOOK_SHARED_MEMORY (getenv "MEMHOOK_SHM_NAME")) ipc_size
      end
  end.

(** [create] opens a database; it has no result when that throws.
    [ChronoDurationFromString] reads a number of seconds with the stream
    operator of Boost.Chrono, and has no result when that throws. *)
Definition OnInitialize {St C P : Type} `{MultiIndex C TraceInfo Z, SeqIndex P UnwProcNameInfo Z}
    (create : storage_kind → option St) (ChronoDurationFromString : bytes → Z → option Z)
    : Engine St C P :=
  let storage := create NewStorage in
  let unwinder_cache := strtoul <$> getenv "MEMHOOK_CALLSTACK_UNWINDER_CACHE_SIZE" in
  let timeout :=
    match getenv "MEMHOOK_CACHE_FLUSH_INTERVAL" with
    | Some v => default 2 (ChronoDurationFromString v 2)
    | None => 2
    end in
  let max_items :=
    match getenv "MEMHOOK_CACHE_FLUSH_MAX_ITEMS" with
    | Some v => strtoul v
    | None => 2 ^ 64 - 1
    end in
  let pol :=
    match getenv "MEMHOOK_GETPROCINFO_WHEN_STACK_UNWINDS" with
    | Some v => if decide (head v = Some 48) then kFlushLocalCacheWhen else kUnwindCallStackWhen
    | None => kFlushLocalCacheWhen
    end in
  newEngine storage unwinder_cache timeout max_items pol.

End config.

Lemma digits_value_nonneg s : 0 ≤ digits_value s.
Proof.
  unfold digits_value. pose proof (take_while_Forall is_digit s) as Hd.
  cut (∀ acc, 0 ≤ acc →
    0 ≤ fold_left (λ acc c, acc * 10 + (c - 48)) (take_while is_digit s) acc); [by intros H; apply H|].
  induction Hd as [|c l Hc Hl IH]; intros acc Hacc; simpl; [done|].
  apply IH. unfold is_digit in Hc. zify_bool. lia.
Qed.

Lemma strtoul_nonneg s : 0 ≤ strtoul s.
Proof.
  unfold strtoul. destruct (match skip_space s with [] => _ | _ :: _ => _ end) as [neg s'].
  pose proof (digits_value_nonneg s'). destruct (2 ^ 64 <=? _); [lia|].
  destruct neg; [by apply wrap_in_u|done].
Qed.

Lemma strtoul_in_u s : in_u 64 (strtoul s).
Proof.
  unfold strtoul. destruct (skip_space s) as [|c s'].
  - by_decide.
  - pose proof (digits_value_nonneg s') as H1. pose proof (digits_value_nonneg (c :: s')) as H2.
    unfold in_u. repeat case_match; zify_bool; simplify_eq; try lia; apply wrap_in_u; lia.
Qed.

(** The engine that is made of the environment; the size of the unwinder's
    cache, where it is given, must not be zero. *)
Lemma OnInitialize_spec {St C P : Type} `{MultiIndex C TraceInfo Z, SeqIndex P UnwProcNameInfo Z}
    getenv (create : storage_kind → option St) ChronoDurationFromString :
  (∀ v, getenv "MEMHOOK_CALLSTACK_UNWINDER_CACHE_SIZE" = Some v → strtoul v ≠ 0) →
  ∃ o timeout max pol,
    OnInitialize (C := C) (P := P) getenv create ChronoDurationFromString =
      newEngine (create (NewStorage getenv)) o timeout max pol ∧
    0 < default 32768 o ∧ in_u 64 max.
Proof.
  intros Hcache. eexists _, _, _, _. split; [done|]. split.
  - destruct (getenv "MEMHOOK_CALLSTACK_UNWINDER_CACHE_SIZE") as [v|]; simpl; [|done].
    pose proof (strtoul_nonneg v). specialize (Hcache v eq_refl). lia.
  - destruct (getenv "MEMHOOK_CACHE_FLUSH_MAX_ITEMS"); [apply strtoul_in_u|by_decide].
Qed.

(** ** What the engine records *)

Section lemmas.
Context {St : Type} `{!MappedStorage St} {SL : StorageLaws St}.
Context {C : Type} `{!MultiIndex C TraceInfo Z}.
Context {ML : MultiIndexLaws C TraceInfo Z e_address cache_indices}.
Context {P : Type} `{!SeqIndex P UnwProcNameInfo Z}.
Context {PL : SeqIndexLaws P UnwProcNameInfo Z pni_ip}.
Context (get_proc_name : option (Z → option (bytes * Z))).
Context (dladdr : Z → option (Z * option bytes)) `{!DladdrLaws dladdr}.
Context (ticks : Z).
Implicit Types e : Engine St C P.

Abbreviation resolve := (resolve get_proc_name dladdr).
Abbreviation FlushLocalCache := (FlushLocalCache get_proc_name dladdr ticks).
Abbreviation flush_loop := (flush_loop get_proc_name dladdr).

(** The call stack a record has when it reaches the database. *)
Definition final_callstack (pol : CallStackUnwindProcInfoPolicy) (cs : CallStackInfo)
    : CallStackInfo :=
  if decide (pol = kFlushLocalCacheWhen) then resolve <$> cs else cs.

(** The record the database gets for a cached one. *)
Definition cache_record (pol : CallStackUnwindProcInfoPolicy) (t : TraceInfo) : BasicTraceInfo :=
  newBasicTraceInfo (e_address t) (e_memsize t) (e_timestamp t) (final_callstack pol (e_callstack t)).

Definition stored (e : Engine St C P) : gmap Z BasicTraceInfo :=
  match m_storage e with Some st => records st | None => ∅ end.

(** The allocations the engine knows of: in the cache or in the database. *)
Definition engine_view (e : Engine St C P) : gmap Z BasicTraceInfo :=
  (cache_record (m_getprocinfo_policy e) <$> mi_map e_address (m_cache e)) ∪ stored e.

Definition record_ok (pol : CallStackUnwindProcInfoPolicy) (t : TraceInfo) : Prop :=
  add_ok (e_address t) (e_memsize t) (final_callstack pol (e_callstack t)) (e_timestamp t).

(** No address is both in the cache and in the database. *)
Record engine_inv (e : Engine St C P) : Prop := {
  ei_unwinder : unwinder_inv get_proc_name dladdr (m_callstack_unwinder e);
  ei_storage : from_option storage_inv True (m_storage e);
  ei_max : in_u 64 (m_cache_flush_max_items e);
  ei_cache a t : mi_find a (m_cache e) = Some t →
    record_ok (m_getprocinfo_policy e) t ∧ stored e !! a = None;
}.

(** *** Lemmas on the view and the cache *)

Lemma view_lookup e a :
  engine_view e !! a =
    match mi_find a (m_cache e) with
    | Some t => Some (cache_record (m_getprocinfo_policy e) t)
    | None => stored e !! a
    end.
Proof.
  unfold engine_view. rewrite lookup_union, lookup_fmap, mi_map_lookup.
  destruct (mi_find a _); simpl; destruct (stored e !! a); done.
Qed.

(** What is in the database is known, and what is known and not there is in
    the cache. *)
Lemma stored_view e : engine_inv e → stored e ⊆ engine_view e.
Proof.
  intros Hinv. apply map_subseteq_spec. intros a t Ha. rewrite view_lookup.
  destruct (mi_find a (m_cache e)) as [t'|] eqn:Hf; [|done].
  destruct (ei_cache _ Hinv _ _ Hf) as [_ Hnone]. congruence.
Qed.

Lemma view_cached e a t :
  engine_view e !! a = Some t → stored e !! a = None → is_Some (mi_find a (m_cache e)).
Proof. rewrite view_lookup. destruct (mi_find a (m_cache e)); [by eauto|congruence]. Qed.

Lemma find_erase_all a (l : list TraceInfo) (c : C) :
  mi_find a (foldr (λ t, mi_erase (e_address t)) c l) =
    if decide (a ∈ e_address <$> l) then None else mi_find a c.
Proof.
  induction l as [|t l IH]; [done|]. csimpl.
  rewrite mi_find_erase, IH. repeat case_decide; set_solver.
Qed.

Lemma range_find t c : t ∈ mi_range 1 c ↔ mi_find (e_address t) c = Some t.
Proof. apply (mi_range_elem (ord := cache_indices)). simpl. lia. Qed.

Lemma range_keys c : NoDup (e_address <$> mi_range 1 c).
Proof. apply (mi_range_nodup (ord := cache_indices)). simpl. lia. Qed.

Lemma find_address a t c : mi_find a c = Some t → e_address t = a.
Proof. apply mi_find_key. Qed.

(** The configuration does not change. *)
Definition same_config (e e' : Engine St C P) : Prop :=
  m_cache_flush_timeout e' = m_cache_flush_timeout e ∧
  m_cache_flush_max_items e' = m_cache_flush_max_items e ∧
  m_getprocinfo_policy e' = m_getprocinfo_policy e.

(** *** Flushing *)

(** Naming the frames of a record that is about to be flushed. *)
Definition name_record (t : TraceInfo) (e : Engine St C P) : option (CallStackInfo * Engine St C P) :=
  if decide (m_getprocinfo_policy e = kFlushLocalCacheWhen) then
    match GetCallStackUnwindProcInfo get_proc_name dladdr (e_callstack t)
            (m_callstack_unwinder e) with
    | Some (cs, u) =>
        Some (cs, set_unwinder u
          (set_cache (mi_modify (e_address t) (e_set_callstack cs) (m_cache e)) e))
    | None => None
    end
  else Some (e_callstack t, e).

Lemma name_record_spec t e :
  unwinder_inv get_proc_name dladdr (m_callstack_unwinder e) →
  ∃ e', name_record t e = Some (final_callstack (m_getprocinfo_policy e) (e_callstack t), e') ∧
    unwinder_inv get_proc_name dladdr (m_callstack_unwinder e') ∧ same_config e e' ∧
    ∀ a, a ≠ e_address t → mi_find a (m_cache e') = mi_find a (m_cache e).
Proof.
  intros Hu. unfold name_record, final_callstack. case_decide as Hp; [|by exists e].
  destruct (GetCallStackUnwindProcInfo_spec get_proc_name dladdr (e_callstack t) _ Hu)
    as (u & -> & Hu' & _).
  eexists. split_and!; [done|done|done|]. intros a Ha. simpl.
  by rewrite mi_find_modify, decide_False.
Qed.

(** How many records of a range a flush takes. *)
Definition flush_count (dump_all : bool) (range : list TraceInfo) (n max : Z) : nat :=
  if dump_all then length range else Z.to_nat (max - n).

Lemma flush_loop_spec dump_all range n st e :
  unwinder_inv get_proc_name dladdr (m_callstack_unwinder e) → storage_inv st →
  in_u 64 (m_cache_flush_max_items e) → in_u 64 n →
  NoDup (e_address <$> range) →
  (∀ t, t ∈ range → record_ok (m_getprocinfo_policy e) t ∧ records st !! e_address t = None) →
  let passed := take (flush_count dump_all range n (m_cache_flush_max_items e)) range in
  ∃ e' st' n', flush_loop dump_all range n st e = Some (e', st', n', passed) ∧
    unwinder_inv get_proc_name dladdr (m_callstack_unwinder e') ∧ storage_inv st' ∧
    same_config e e' ∧
    (∀ a, a ∉ e_address <$> passed →
      mi_find a (m_cache e') = mi_find a (m_cache e) ∧ records st' !! a = records st !! a) ∧
    (∀ t, t ∈ passed → records st' !! e_address t = Some (cache_record (m_getprocinfo_policy e) t)).
Proof.
  intros Hu Hst Hmax. revert n st e Hu Hst Hmax.
  induction range as [|t range IH]; intros n st e Hu Hst Hmax Hn Hnd Hr.
  { rewrite take_nil. eexists _, _, _. split_and!; [done..|]. by intros t []%not_elem_of_nil. }
  apply NoDup_cons in Hnd as [Hnt Hnd]. cbn [flush_loop]. fold (name_record t e).
  destruct (dump_all || (n <? m_cache_flush_max_items e)) eqn:Hgo; last first.
  { apply orb_false_iff in Hgo as [-> Hgo]. zify_bool. unfold flush_count.
    replace (Z.to_nat _) with O by lia. eexists _, _, _. split_and!; [done..|].
    by intros t' []%not_elem_of_nil. }
  destruct (name_record_spec t e Hu) as (e1 & -> & Hu1 & (Ht1 & Hm1 & Hp1) & Hc1).
  destruct (Hr t (list_elem_of_here _ _)) as [Hok Hnone].
  set (st1 := Add _ _ _ _ st).
  assert (records st1 = <[e_address t := cache_record (m_getprocinfo_policy e) t]> (records st)) as Hst1.
  { unfold st1. rewrite Add_records by done. unfold spec_add. by rewrite Hnone. }
  destruct (IH (u64 (n + 1)) st1 e1) as (e' & st' & n' & Hl & Hu' & Hst' & (?&?&?) & Hout & Hin).
  { done. } { by apply Add_inv. } { by rewrite Hm1. } { by apply wrap_in_u. } { done. }
  { intros t' Ht'. rewrite Hp1, Hst1, lookup_insert_ne.
    - apply Hr. by apply list_elem_of_further.
    - intros Heq. apply Hnt. rewrite Heq. by apply list_elem_of_fmap_2. }
  rewrite Hl, Hm1 in *. clear IH Hl.
  assert (take (flush_count dump_all (t :: range) n (m_cache_flush_max_items e)) (t :: range) =
    t :: take (flush_count dump_all range (u64 (n + 1)) (m_cache_flush_max_items e)) range) as ->.
  { unfold flush_count. destruct dump_all; [done|]. simpl in Hgo. zify_bool.
    rewrite wrap_small by (unfold in_u in *; lia).
    replace (Z.to_nat (m_cache_flush_max_items e - n))
      with (S (Z.to_nat (m_cache_flush_max_items e - (n + 1)))) by lia. done. }
  set (passed := take _ range) in *.
  eexists _, _, _. split_and!; [done..|by unfold same_config; split_and!; congruence| |].
  - intros a. csimpl. rewrite not_elem_of_cons. intros [Ha Hap].
    destruct (Hout a Hap) as [-> ->]. rewrite Hst1, lookup_insert_ne by done. auto.
  - intros t' [->|Ht']%elem_of_cons; [|rewrite <- Hp1; by apply Hin].
    destruct (Hout (e_address t)) as [_ ->]; [|by rewrite Hst1, lookup_insert_eq].
    intros Hin'. apply Hnt. eapply elem_of_sublist; [exact Hin'|].
    apply fmap_sublist, sublist_take.
Qed.

(** The records a flush may take, and the ones it takes. *)
Definition flush_range (now timeout : Z) (dump_all : bool) (e : Engine St C P) : list TraceInfo :=
  if dump_all then mi_range 1 (m_cache e)
  else take_while (λ t, e_timestamp t <? deadline ticks now timeout) (mi_range 1 (m_cache e)).

Definition flushed (now timeout : Z) (dump_all : bool) (e : Engine St C P) : list TraceInfo :=
  match m_storage e with
  | Some _ =>
      let range := flush_range now timeout dump_all e in
      take (flush_count dump_all range 0 (m_cache_flush_max_items e)) range
  | None => []
  end.

Lemma flush_range_prefix now timeout dump_all e :
  ∃ rest, mi_range 1 (m_cache e) = flush_range now timeout dump_all e ++ rest.
Proof.
  unfold flush_range. destruct dump_all; [exists []; by rewrite app_nil_r|]. apply take_while_prefix.
Qed.

Lemma flushed_prefix now timeout dump_all e :
  ∃ rest, mi_range 1 (m_cache e) = flushed now timeout dump_all e ++ rest.
Proof.
  unfold flushed. destruct (m_storage e); [|by eexists].
  destruct (flush_range_prefix now timeout dump_all e) as [rest ->].
  eexists (drop _ (flush_range now timeout dump_all e) ++ rest). by rewrite app_assoc, take_drop.
Qed.

Lemma flushed_find now timeout dump_all e t :
  t ∈ flushed now timeout dump_all e → mi_find (e_address t) (m_cache e) = Some t.
Proof.
  intros Ht. apply range_find. destruct (flushed_prefix now timeout dump_all e) as [rest ->].
  apply elem_of_app. by left.
Qed.

Lemma FlushLocalCache_spec now timeout dump_all e :
  engine_inv e →
  ∃ e', FlushLocalCache now timeout dump_all e = Some e' ∧ engine_inv e' ∧ same_config e e' ∧
    engine_view e' = engine_view e ∧ (m_storage e = None → e' = e) ∧
    (is_Some (m_storage e) → is_Some (m_storage e')) ∧
    (∀ a, mi_find a (m_cache e') =
      if decide (a ∈ e_address <$> flushed now timeout dump_all e) then None
      else mi_find a (m_cache e)).
Proof.
  intros Hinv. unfold Engine.FlushLocalCache. fold (flush_range now timeout dump_all e).
  pose proof (flushed_find now timeout dump_all e) as Hff. unfold flushed in *.
  destruct (m_storage e) as [st|] eqn:Hst; [|by exists e].
  set (range := flush_range now timeout dump_all e) in *.
  destruct (flush_range_prefix now timeout dump_all e) as [rest Hpre]. fold range in Hpre.
  pose proof Hinv as [Hu Hs Hm Hc]. rewrite Hst in Hs. simpl in Hs.
  destruct (flush_loop_spec dump_all range 0 st e)
    as (e1 & st1 & n1 & -> & Hu1 & Hst1 & (Ht1 & Hm1 & Hp1) & Hout & Hin); [done..| | |].
  { pose proof (range_keys (m_cache e)) as Hk. rewrite Hpre, fmap_app in Hk.
    by apply NoDup_app in Hk as [? _]. }
  { intros t Ht. assert (mi_find (e_address t) (m_cache e) = Some t) as Hf.
    { apply range_find. rewrite Hpre. apply elem_of_app. by left. }
    destruct (Hc _ _ Hf) as [? Hn]. split; [done|]. unfold stored in Hn. by rewrite Hst in Hn. }
  set (passed := take _ range) in *.
  assert (∀ st, storage_inv st → storage_inv (if n1 =? 0 then st else Flush st) ∧
    records (if n1 =? 0 then st else Flush st) = records st) as Hfl.
  { intros st0 Hst0. destruct (n1 =? 0); [done|]. split; [by apply Flush_inv|by apply Flush_records]. }
  destruct (Hfl st1 Hst1) as [Hst1' Hrec]. clear Hfl.
  set (st2 := if n1 =? 0 then st1 else Flush st1) in *.
  assert (∀ a, mi_find a (foldr (λ t, mi_erase (e_address t)) (m_cache e1) passed) =
    if decide (a ∈ e_address <$> passed) then None else mi_find a (m_cache e)) as Hfind.
  { intros a. rewrite find_erase_all. case_decide; [done|]. by apply Hout. }
  eexists. split; [done|]. split_and!; [|done| |done|by eauto|exact Hfind].
  - split; simpl; [done|done|by rewrite Hm1|]. intros a t. rewrite Hfind. case_decide as Ha; [done|].
    intros Hf. rewrite Hp1. unfold stored. simpl. rewrite Hrec.
    destruct (Hout a Ha) as [_ ->]. destruct (Hc _ _ Hf) as [? Hn].
    unfold stored in Hn. by rewrite Hst in Hn.
  - apply map_eq. intros a. rewrite !view_lookup. simpl. rewrite Hfind.
    unfold stored; simpl. rewrite Hrec, Hst. case_decide as Ha.
    + apply list_elem_of_fmap in Ha as (t & -> & Ht). by rewrite (Hff t Ht), (Hin t Ht).
    + rewrite Hp1. by destruct (Hout a Ha) as [_ ->].
Qed.

(** *** The hooks *)

(** A database neither appears nor disappears. *)
Definition keeps (e e' : Engine St C P) : Prop :=
  same_config e e' ∧ (is_Some (m_storage e') ↔ is_Some (m_storage e)).

Lemma keeps_refl e : keeps e e.
Proof. done. Qed.

Lemma keeps_trans e1 e2 e3 : keeps e1 e2 → keeps e2 e3 → keeps e1 e3.
Proof.
  intros [(?&?&?) ?] [(?&?&?) ?]. split; [split_and!; congruence|tauto].
Qed.

Lemma add_ok_memsize a n n' cs ts : add_ok a n cs ts → in_u 64 n' → add_ok a n' cs ts.
Proof.
  unfold add_ok, request_ok, base_ok. simpl. intros (? & (? & ? & ?) & ? & Hl) ?.
  unfold enc_request, enc_base in *. simpl in *.
  rewrite !length_app, !length_enc_int in *. by split_and!.
Qed.

Lemma DoHookFree_spec mem e :
  engine_inv e → in_u 64 mem →
  engine_inv (DoHookFree mem e) ∧ keeps e (DoHookFree mem e) ∧
  engine_view (DoHookFree mem e) = if mem =? 0 then engine_view e else delete mem (engine_view e).
Proof.
  intros Hinv Hmem. unfold DoHookFree. destruct (mem =? 0); [done|].
  pose proof Hinv as [Hu Hs Hm Hc]. destruct (mi_find mem (m_cache e)) as [t|] eqn:Hf.
  - split_and!; [split; simpl; try done|done|].
    + intros a t'. rewrite mi_find_erase. case_decide; [done|]. apply Hc.
    + apply map_eq. intros a. rewrite lookup_delete, !view_lookup. simpl.
      rewrite mi_find_erase. repeat case_decide; try congruence; [|done]. subst.
      by destruct (Hc _ _ Hf) as [_ ?].
  - destruct (m_storage e) as [st|] eqn:Hst.
    + simpl in Hs. split_and!; [split; simpl; try done|split; [done|]; simpl; rewrite Hst; by split; eauto|].
      * by apply Remove_inv.
      * intros a t' Hf'. destruct (Hc _ _ Hf') as [? Hn]. split; [done|].
        unfold stored in *. simpl. rewrite Hst in Hn. rewrite Remove_records by done.
        unfold spec_remove. rewrite lookup_delete. by case_decide.
      * apply map_eq. intros a. rewrite lookup_delete, !view_lookup. simpl. unfold stored. simpl.
        rewrite Hst, Remove_records by done. unfold spec_remove. rewrite lookup_delete.
        case_decide; [subst; by rewrite Hf|done].
    + split_and!; [done|apply keeps_refl|]. symmetry. apply delete_id. rewrite view_lookup, Hf.
      unfold stored. by rewrite Hst.
Qed.

Lemma cache_record_memsize pol n t :
  cache_record pol (e_set_memsize n t) = ti_set_memsize n (cache_record pol t).
Proof. done. Qed.

Lemma DoHookUpdateSize_spec mem n e :
  engine_inv e → in_u 64 mem → in_u 64 n →
  engine_inv (DoHookUpdateSize mem n e) ∧ keeps e (DoHookUpdateSize mem n e) ∧
  engine_view (DoHookUpdateSize mem n e) =
    if mem =? 0 then engine_view e else alter (ti_set_memsize n) mem (engine_view e).
Proof.
  intros Hinv Hmem Hn. unfold DoHookUpdateSize. destruct (mem =? 0); [done|].
  pose proof Hinv as [Hu Hs Hm Hc]. destruct (mi_find mem (m_cache e)) as [t|] eqn:Hf.
  - split_and!; [split; simpl; try done|done|].
    + intros a t'. rewrite mi_find_modify by done. case_decide; [subst|apply Hc].
      rewrite Hf. intros [= <-]. destruct (Hc _ _ Hf) as [Hok ?]. split; [|done].
      by apply (add_ok_memsize _ (e_memsize t)).
    + apply map_eq. intros a. rewrite lookup_alter, !view_lookup. simpl.
      rewrite mi_find_modify by done. repeat case_decide; try congruence; [|done]. subst.
      by rewrite Hf.
  - destruct (m_storage e) as [st|] eqn:Hst.
    + simpl in Hs. split_and!; [split; simpl; try done|split; [done|]; simpl; rewrite Hst; by split; eauto|].
      * by apply UpdateSize_inv.
      * intros a t' Hf'. destruct (Hc _ _ Hf') as [? Hno]. split; [done|].
        unfold stored in *. simpl. rewrite Hst in Hno. rewrite UpdateSize_records by done.
        unfold spec_update. rewrite lookup_alter. case_decide; [|done]. subst. congruence.
      * apply map_eq. intros a. rewrite lookup_alter, !view_lookup. simpl. unfold stored. simpl.
        rewrite Hst, UpdateSize_records by done. unfold spec_update. rewrite lookup_alter.
        case_decide; [subst; by rewrite Hf|done].
    + split_and!; [done|apply keeps_refl|]. apply map_eq. intros a. rewrite lookup_alter.
      case_decide; [subst|done]. rewrite view_lookup, Hf. unfold stored. by rewrite Hst.
Qed.

(** The call stack and the record of an allocation. *)
Definition hook_callstack (stack : list unw_frame) : CallStackInfo :=
  (λ f, resolve (frame_item f)) <$> recorded_frames stack.

Definition hook_record (mem n now : Z) (stack : list unw_frame) : BasicTraceInfo :=
  newBasicTraceInfo mem n now (hook_callstack stack).

Lemma final_captured pol stack :
  final_callstack pol
    ((λ f, (if bool_decide (pol = kUnwindCallStackWhen) then resolve else id) (frame_item f)) <$>
      recorded_frames stack) = hook_callstack stack.
Proof.
  unfold final_callstack, hook_callstack. destruct pol; simpl; [done|].
  by rewrite <- list_fmap_compose.
Qed.

(** Entering a record into the cache. *)
Definition cache_insert (mem n now : Z) (cs : CallStackInfo) (c : C) : C :=
  let status := mi_emplace (newTraceInfo mem n now) c in
  if status.2 then mi_modify mem (e_set_callstack cs) status.1 else status.1.

Lemma find_cache_insert a mem n now cs c :
  mi_find mem c = None →
  mi_find a (cache_insert mem n now cs c) =
    if decide (a = mem) then Some (mkTraceInfo (mkTraceInfoBase mem n now) cs) else mi_find a c.
Proof.
  intros Hf. unfold cache_insert. rewrite (mi_emplace_new (newTraceInfo mem n now) c) by done.
  rewrite mi_find_modify by done.
  rewrite (mi_find_emplace a (newTraceInfo mem n now) c) by done.
  change (e_address (newTraceInfo mem n now)) with mem. by repeat case_decide.
Qed.

Lemma DoHookAlloc_spec mem n now stack e :
  engine_inv e → mem ≠ 0 → engine_view e !! mem = None →
  add_ok mem n (hook_callstack stack) now → Forall (frame_agrees get_proc_name) stack →
  ∃ e', DoHookAlloc get_proc_name dladdr ticks mem n now stack e = Some e' ∧
    engine_inv e' ∧ keeps e e' ∧ engine_view e' = <[mem := hook_record mem n now stack]> (engine_view e).
Proof.
  intros [Hu Hs Hm Hc] H0 Hnone Hok Hst. unfold DoHookAlloc.
  rewrite (proj2 (Z.eqb_neq _ _)) by done.
  destruct (GetCallStackInfo_spec get_proc_name dladdr
    (bool_decide (m_getprocinfo_policy e = kUnwindCallStackWhen)) stack _ Hu Hst)
    as (u & -> & Hu' & _).
  pose proof (final_captured (m_getprocinfo_policy e) stack) as Hfin.
  set (cs := _ <$> recorded_frames stack) in *. fold (cache_insert mem n now cs (m_cache e)).
  rewrite view_lookup in Hnone. destruct (mi_find mem (m_cache e)) as [|] eqn:Hf; [done|].
  pose proof (λ a, find_cache_insert a mem n now cs (m_cache e) Hf) as Hci.
  set (e1 := set_unwinder u _).
  assert (engine_inv e1) as Hinv1.
  { split; simpl; [done..|]. intros a t. rewrite Hci. case_decide; [subst|apply Hc].
    intros [= <-]. split; [|done]. unfold record_ok. simpl. by rewrite Hfin. }
  destruct (FlushLocalCache_spec now (m_cache_flush_timeout e) false e1 Hinv1)
    as (e' & -> & Hinv' & Hsame & Hview & HNone & HSome & _).
  exists e'. split_and!; [done|done| |].
  - split; [done|]. simpl in HNone, HSome. split; [|done].
    destruct (m_storage e) as [st|] eqn:Hst'; [by eauto|]. rewrite HNone by done. simpl.
    by rewrite Hst'.
  - rewrite Hview. apply map_eq. intros a. rewrite lookup_insert, !view_lookup. simpl.
    rewrite Hci. repeat case_decide; try congruence; [|done]. subst.
    unfold cache_record, hook_record. simpl. by rewrite Hfin.
Qed.

(** ** Traces of hooks *)

Inductive event :=
| EvAlloc (mem memsize now : Z) (stack : list unw_frame)
| EvFree (mem : Z)
| EvRealloc (old_mem new_mem new_size now : Z) (stack : list unw_frame)
| EvUpdateSize (mem newsize : Z)
| EvFlushCallStackCache.

Definition run_event (ev : event) (e : Engine St C P) : option (Engine St C P) :=
  match ev with
  | EvAlloc mem n now stack => DoHookAlloc get_proc_name dladdr ticks mem n now stack e
  | EvFree mem => Some (DoHookFree mem e)
  | EvRealloc old new n now stack => DoHookRealloc get_proc_name dladdr ticks old new n now stack e
  | EvUpdateSize mem n => Some (DoHookUpdateSize mem n e)
  | EvFlushCallStackCache => Some (DoFlushCallStackCache e)
  end.

Fixpoint run_events (evs : list event) (e : Engine St C P) : option (Engine St C P) :=
  match evs with
  | [] => Some e
  | ev :: evs => match run_event ev e with Some e => run_events evs e | None => None end
  end.

(** The live allocations after a call of the program. *)
Definition live_alloc (mem n now : Z) (stack : list unw_frame) (m : gmap Z BasicTraceInfo) :=
  if mem =? 0 then m else <[mem := hook_record mem n now stack]> m.
Definition live_free (mem : Z) (m : gmap Z BasicTraceInfo) :=
  if mem =? 0 then m else delete mem m.
Definition live_resize (mem n : Z) (m : gmap Z BasicTraceInfo) :=
  if mem =? 0 then m else alter (ti_set_memsize n) mem m.

Definition live_event (m : gmap Z BasicTraceInfo) (ev : event) : gmap Z BasicTraceInfo :=
  match ev with
  | EvAlloc mem n now stack => live_alloc mem n now stack m
  | EvFree mem => live_free mem m
  | EvRealloc old new n now stack =>
      if old =? new then live_resize old n m else live_alloc new n now stack (live_free old m)
  | EvUpdateSize mem n => live_resize mem n m
  | EvFlushCallStackCache => m
  end.

(** What an allocator guarantees: a new block is not at the address of a live
    one.  The arguments are in the ranges of their types. *)
Definition alloc_ok (m : gmap Z BasicTraceInfo) (mem n now : Z) (stack : list unw_frame) : Prop :=
  mem = 0 ∨ m !! mem = None ∧ add_ok mem n (hook_callstack stack) now ∧
    Forall (frame_agrees get_proc_name) stack.

Definition event_ok (m : gmap Z BasicTraceInfo) (ev : event) : Prop :=
  match ev with
  | EvAlloc mem n now stack => alloc_ok m mem n now stack
  | EvFree mem => in_u 64 mem
  | EvRealloc old new n now stack =>
      in_u 64 old ∧ in_u 64 n ∧ (old ≠ new → alloc_ok (live_free old m) new n now stack)
  | EvUpdateSize mem n => in_u 64 mem ∧ in_u 64 n
  | EvFlushCallStackCache => True
  end.

Fixpoint trace_ok (m : gmap Z BasicTraceInfo) (evs : list event) : Prop :=
  match evs with
  | [] => True
  | ev :: evs => event_ok m ev ∧ trace_ok (live_event m ev) evs
  end.

#[export] Instance frame_agrees_dec f : Decision (frame_agrees get_proc_name f).
Proof. unfold frame_agrees; apply _. Defined.
#[export] Instance alloc_ok_dec m mem n now stack : Decision (alloc_ok m mem n now stack).
Proof. unfold alloc_ok; apply _. Defined.
#[export] Instance event_ok_dec m ev : Decision (event_ok m ev).
Proof. destruct ev; simpl; apply _. Defined.
#[export] Instance trace_ok_dec evs : ∀ m, Decision (trace_ok m evs).
Proof. induction evs as [|ev evs IH]; intros m; simpl; apply _. Defined.

Lemma alloc_event mem n now stack e :
  engine_inv e → alloc_ok (engine_view e) mem n now stack →
  ∃ e', DoHookAlloc get_proc_name dladdr ticks mem n now stack e = Some e' ∧
    engine_inv e' ∧ keeps e e' ∧ engine_view e' = live_alloc mem n now stack (engine_view e).
Proof.
  intros Hinv Hok. unfold live_alloc. destruct (mem =? 0) eqn:H0.
  { exists e. unfold DoHookAlloc. by rewrite H0. }
  zify_bool. destruct Hok as [|(? & ? & ?)]; [done|]. by apply DoHookAlloc_spec.
Qed.

Lemma run_event_spec ev e :
  engine_inv e → event_ok (engine_view e) ev →
  ∃ e', run_event ev e = Some e' ∧ engine_inv e' ∧ keeps e e' ∧
    engine_view e' = live_event (engine_view e) ev.
Proof.
  intros Hinv Hok. destruct ev as [mem n now stack|mem|old new n now stack|mem n|]; simpl in *.
  - by apply alloc_event.
  - eexists. split; [done|]. by apply DoHookFree_spec.
  - destruct Hok as (Hold & Hn & Hal). unfold DoHookRealloc. destruct (old =? new) eqn:Heq.
    { eexists. split; [done|]. by apply DoHookUpdateSize_spec. }
    zify_bool. destruct (DoHookFree_spec old e Hinv Hold) as (Hinv1 & Hk1 & Hv1).
    fold (live_free old (engine_view e)) in Hv1. rewrite <- Hv1 in *.
    destruct (alloc_event new n now stack _ Hinv1 (Hal Heq)) as (e' & -> & ? & ? & ?).
    exists e'. split_and!; [done..|by eapply keeps_trans|done].
  - destruct Hok. eexists. split; [done|]. by apply DoHookUpdateSize_spec.
  - eexists. split; [done|]. destruct Hinv as [Hu ???]. split_and!; [|done|done].
    split; [by apply FlushUnwCache_inv|done..].
Qed.

Lemma run_events_spec evs e :
  engine_inv e → trace_ok (engine_view e) evs →
  ∃ e', run_events evs e = Some e' ∧ engine_inv e' ∧ keeps e e' ∧
    engine_view e' = fold_left live_event evs (engine_view e).
Proof.
  revert e; induction evs as [|ev evs IH]; intros e Hinv Hok; simpl; [by exists e|].
  destruct Hok as [Hev Hok]. destruct (run_event_spec ev e Hinv Hev) as (e1 & -> & ? & ? & Hv).
  rewrite <- Hv in *. destruct (IH e1) as (e' & ? & ? & ? & ?); [done..|].
  exists e'. split_and!; [done..|by eapply keeps_trans|done].
Qed.

Lemma newEngine_inv st o timeout max pol :
  from_option storage_inv True st → 0 < default 32768 o → in_u 64 max →
  engine_inv (newEngine st o timeout max pol).
Proof.
  intros. split; simpl; [by apply newImpl_inv|done..|]. intros a t. by rewrite mi_find_empty.
Qed.

Lemma newEngine_view st o timeout max pol :
  engine_view (newEngine st o timeout max pol) = from_option records ∅ st.
Proof.
  apply map_eq. intros a. rewrite view_lookup. simpl. rewrite mi_find_empty. by destruct st.
Qed.

Lemma range_sorted c : StronglySorted (by_key e_timestamp) (mi_range 1 c).
Proof.
  apply Sorted_StronglySorted; [apply _|]. by apply (mi_range_sorted (ord := cache_indices)).
Qed.

(** On records sorted by time, [lower_bound] separates the old ones. *)
Lemma take_while_sorted d (l : list TraceInfo) t :
  StronglySorted (by_key e_timestamp) l → t ∈ l → e_timestamp t < d →
  t ∈ take_while (λ t, e_timestamp t <? d) l.
Proof.
  induction 1 as [|x l Hs IH Hx]; [done|]. intros Hin Ht. simpl.
  destruct (e_timestamp x <? d) eqn:Hd; zify_bool.
  - apply elem_of_cons in Hin as [->|Hin]; [apply list_elem_of_here|].
    by apply list_elem_of_further, IH.
  - rewrite Forall_forall in Hx. apply elem_of_cons in Hin as [->|Hin]; [lia|].
    specialize (Hx t Hin). unfold by_key in Hx. lia.
Qed.

Lemma sorted_app_le (l1 l2 : list TraceInfo) t1 t2 :
  StronglySorted (by_key e_timestamp) (l1 ++ l2) → t1 ∈ l1 → t2 ∈ l2 →
  e_timestamp t1 ≤ e_timestamp t2.
Proof. intros [Hle _]%StronglySorted_app H1 H2. by apply (Hle t1 t2). Qed.

(** What a periodic flush takes. *)
Lemma flushed_spec now timeout e :
  is_Some (m_storage e) → in_u 64 (m_cache_flush_max_items e) →
  let moved := flushed now timeout false e in
  Z.of_nat (length moved) ≤ m_cache_flush_max_items e ∧
  (∀ t, t ∈ moved → e_timestamp t < deadline ticks now timeout) ∧
  (∀ t, t ∈ mi_range 1 (m_cache e) → t ∉ moved →
    (∀ t', t' ∈ moved → e_timestamp t' ≤ e_timestamp t) ∧
    (e_timestamp t < deadline ticks now timeout →
      Z.of_nat (length moved) = m_cache_flush_max_items e)).
Proof.
  intros [st Hst] Hm. destruct (flushed_prefix now timeout false e) as [rest Hrest].
  pose proof (range_sorted (m_cache e)) as Hsort. unfold flushed in *. rewrite Hst in *.
  unfold flush_range in *. cbn [flush_count] in *. unfold in_u in Hm. rewrite Z.sub_0_r in *.
  set (old := take_while _ _) in *. simpl.
  split_and!; [rewrite length_take; lia| |].
  - intros t Ht. assert (t ∈ old) as Hold.
    { eapply elem_of_sublist; [exact Ht|apply sublist_take]. }
    pose proof (take_while_Forall (λ t, e_timestamp t <? deadline ticks now timeout)
      (mi_range 1 (m_cache e))) as Hall. rewrite Forall_forall in Hall.
    specialize (Hall t Hold). by zify_bool.
  - intros t Hin Hnot. split.
    + rewrite Hrest in Hin, Hsort. apply elem_of_app in Hin as [|Hin]; [done|].
      intros t' Ht'. by eapply sorted_app_le.
    + intros Hlt. pose proof (take_while_sorted _ _ _ Hsort Hin Hlt) as Hold. fold old in Hold.
      rewrite length_take. destruct (decide (length old ≤ Z.to_nat (m_cache_flush_max_items e))%nat).
      { rewrite take_ge in Hnot by lia. done. }
      lia.
Qed.

Lemma flushed_all now timeout e :
  is_Some (m_storage e) → flushed now timeout true e = mi_range 1 (m_cache e).
Proof.
  intros [st Hst]. unfold flushed, flush_range, flush_count. rewrite Hst. by apply take_ge.
Qed.

(** Shutting down: all records reach the database. *)
Lemma OnDestroy_spec now e :
  engine_inv e → is_Some (m_storage e) →
  ∃ e' st', OnDestroy get_proc_name dladdr ticks now e = Some (e', Some st') ∧
    storage_inv st' ∧ records st' = engine_view e.
Proof.
  intros Hinv Hs.
  destruct (FlushLocalCache_spec now 0 true e Hinv) as (e2 & Hf & Hinv2 & _ & Hv & _ & HS & Hc).
  destruct (HS Hs) as [st' Hst']. exists (set_storage None e2), st'.
  unfold OnDestroy. rewrite Hf, Hst'. split_and!; [done| |].
  { pose proof (ei_storage e2 Hinv2) as Hsi. by rewrite Hst' in Hsi. }
  rewrite <- Hv. apply map_eq. intros a. rewrite view_lookup, Hc, (flushed_all _ _ _ Hs).
  unfold stored. rewrite Hst'. case_decide as Ha; [done|].
  destruct (mi_find a (m_cache e)) as [t|] eqn:Hfa; [|done].
  destruct Ha. rewrite <- (find_address _ _ _ Hfa). apply list_elem_of_fmap_2, range_find.
  by rewrite (find_address _ _ _ Hfa).
Qed.

(** A whole run, from start to shutdown. *)
Lemma run_to_shutdown st o timeout max pol evs now :
  storage_inv st → 0 < default 32768 o → in_u 64 max → trace_ok (records st) evs →
  ∃ e1 e2 st', run_events evs (newEngine (Some st) o timeout max pol) = Some e1 ∧
    OnDestroy get_proc_name dladdr ticks now e1 = Some (e2, Some st') ∧
    storage_inv st' ∧ records st' = fold_left live_event evs (records st).
Proof.
  intros Hst Ho Hmax Hok.
  pose proof (newEngine_inv (Some st) o timeout max pol Hst Ho Hmax) as Hinv.
  pose proof (newEngine_view (Some st) o timeout max pol) as Hv0. simpl in Hv0.
  rewrite <- Hv0 in *.
  destruct (run_events_spec _ _ Hinv Hok) as (e1 & Hrun & Hinv1 & [_ Hk] & Hv1).
  destruct (OnDestroy_spec now e1 Hinv1) as (e2 & st' & Hd & Hi & Hr); [apply Hk; by eexists|].
  exists e1, e2, st'. by rewrite Hr, Hv1.
Qed.

(** ** Properties *)


(** When the engine shuts down, the database it lets go holds exactly
    the live allocations. *)
Theorem shutdown_stores_allocations st o timeout max pol evs now :
  storage_inv st → 0 < default 32768 o → in_u 64 max → trace_ok (records st) evs →
  ∃ e1 e2 st', run_events evs (newEngine (Some st) o timeout max pol) = Some e1 ∧
    OnDestroy get_proc_name dladdr ticks now e1 = Some (e2, Some st') ∧
    records st' = fold_left live_event evs (records st).
Proof.
  intros Hst Ho Hmax Hok.
  destruct (run_to_shutdown st o timeout max pol evs now Hst Ho Hmax Hok)
    as (e1 & e2 & st' & ? & ? & _ & ?). by exists e1, e2, st'.
Qed.

(** C31.  A periodic flush moves records that are older than the timeout, at
    most [m_cache_flush_max_items] of them and the oldest first; when it
    leaves an old record behind it has used up that number. *)
Theorem flush_is_bounded_and_oldest_first now timeout e :
  engine_inv e → is_Some (m_storage e) →
  ∃ e' moved, FlushLocalCache now timeout false e = Some e' ∧
    Z.of_nat (length moved) ≤ m_cache_flush_max_items e ∧
    (∀ t, t ∈ moved → mi_find (e_address t) (m_cache e) = Some t ∧
      e_timestamp t < deadline ticks now timeout ∧
      mi_find (e_address t) (m_cache e') = None ∧
      stored e' !! e_address t = Some (cache_record (m_getprocinfo_policy e) t)) ∧
    (∀ t, mi_find (e_address t) (m_cache e) = Some t → t ∉ moved →
      mi_find (e_address t) (m_cache e') = Some t ∧
      (∀ t', t' ∈ moved → e_timestamp t' ≤ e_timestamp t) ∧
      (e_timestamp t < deadline ticks now timeout →
        Z.of_nat (length moved) = m_cache_flush_max_items e)).
Proof.
  intros Hinv Hs. destruct (flushed_spec now timeout e Hs (ei_max e Hinv)) as (Hlen & Hold & Hleft).
  destruct (FlushLocalCache_spec now timeout false e Hinv) as (e' & Hf & _ & _ & Hv & _ & _ & Hc).
  exists e', (flushed now timeout false e). split_and!; [done|done|..].
  - intros t Ht. pose proof (flushed_find _ _ _ _ _ Ht) as Hfind.
    assert (mi_find (e_address t) (m_cache e') = None) as Hgone.
    { rewrite Hc, decide_True; [done|]. by apply list_elem_of_fmap_2. }
    split_and!; [done|by apply Hold|done|].
    pose proof (view_lookup e' (e_address t)) as Hl. rewrite Hgone in Hl. rewrite <- Hl, Hv.
    by rewrite view_lookup, Hfind.
  - intros t Ht Hnot. destruct (Hleft t (proj2 (range_find t _) Ht) Hnot) as [? ?].
    split_and!; [|done|done]. rewrite Hc, decide_False; [done|].
    intros (t' & Heq & Ht')%list_elem_of_fmap. pose proof (flushed_find _ _ _ _ _ Ht') as Hfind.
    rewrite <- Heq in Hfind. congruence.
Qed.

(** A failing [realloc] makes the engine forget the block, which the
    program still owns. *)
Theorem failed_realloc_forgets_block old n now stack e :
  engine_inv e → in_u 64 old → old ≠ 0 →
  ∃ e', DoHookRealloc get_proc_name dladdr ticks old 0 n now stack e = Some e' ∧
    engine_view e' = delete old (engine_view e).
Proof.
  intros Hinv Hold H0. unfold DoHookRealloc. rewrite (proj2 (Z.eqb_neq old 0)) by done.
  eexists. split; [done|]. destruct (DoHookFree_spec old e Hinv Hold) as (_ & _ & ->).
  by rewrite (proj2 (Z.eqb_neq old 0)).
Qed.

(** The size of the database: the largest unit that is set counts, zero
    stands for the default of 8 GiB, and a size that fits 64 bits is the
    value times its unit. *)
Theorem ipc_size_spec getenv v shift :
  (getenv "MEMHOOK_SIZE_GB" = Some v ∧ shift = 30 ∨
   getenv "MEMHOOK_SIZE_GB" = None ∧ getenv "MEMHOOK_SIZE_MB" = Some v ∧ shift = 20 ∨
   getenv "MEMHOOK_SIZE_GB" = None ∧ getenv "MEMHOOK_SIZE_MB" = None ∧
     getenv "MEMHOOK_SIZE_KB" = Some v ∧ shift = 10) →
  strtoul v * 2 ^ shift < 2 ^ 64 →
  ipc_size getenv = if strtoul v =? 0 then 8 * 2 ^ 30 else strtoul v * 2 ^ shift.
Proof.
  intros Hv Hlt. assert (ipc_size getenv = sized v shift (8 * 2 ^ 30)) as ->.
  { unfold ipc_size. by destruct Hv as [[-> ->]|[(-> & -> & ->)|(-> & -> & -> & ->)]]. }
  unfold sized. destruct (strtoul v =? 0); [done|].
  assert (0 ≤ shift) by lia. rewrite Z.shiftl_mul_pow2 by done. apply wrap_small.
  split; [|done]. apply Z.mul_nonneg_nonneg; [|by apply Z.pow_nonneg]. apply strtoul_nonneg.
Qed.

End lemmas.

(** ** Examples *)

Abbreviation ref_cache := (ListIndex.t e_address).
#[export] Instance ref_cache_ops : MultiIndex ref_cache TraceInfo Z :=
  ListIndex.ops e_address cache_indices.
#[export] Instance ref_cache_laws : MultiIndexLaws ref_cache TraceInfo Z e_address cache_indices.
Proof. by apply ListIndex.laws. Qed.

Abbreviation demo_engine := (Engine (BasicMappedStorage ref_index) ref_cache ref_procs).

(** Three blocks, of which the second moves and the first is freed; the clock
    has 10 ticks in a second and the timeout is 2 seconds. *)
Definition demo_events : list event :=
  [ EvAlloc 65536 16 1 demo_stack; EvAlloc 65600 8 2 []; EvUpdateSize 65536 24;
    EvAlloc 65700 64 40 demo_stack; EvRealloc 65600 65800 32 41 demo_stack; EvFree 65536;
    EvFlushCallStackCache; EvFree 0 ].

Definition demo_db : BasicMappedStorage ref_index := newBasicMappedStorage [] 0.

Definition demo_start : demo_engine :=
  newEngine (Some demo_db) (Some 4) 2 100 kFlushLocalCacheWhen.

Lemma demo_trace_ok :
  trace_ok (Some demo_proc_name) demo_dladdr (from_option records ∅ (Some demo_db)) demo_events.
Proof. by_decide. Qed.


Lemma shutdown_stores_allocations_witness :
  ∃ (e1 e2 : demo_engine) st',
    run_events (Some demo_proc_name) demo_dladdr 10 demo_events demo_start = Some e1 ∧
    OnDestroy (Some demo_proc_name) demo_dladdr 10 50 e1 = Some (e2, Some st') ∧
    records st' =
      fold_left (live_event (Some demo_proc_name) demo_dladdr) demo_events (records demo_db).
Proof.
  apply (shutdown_stores_allocations (Some demo_proc_name) demo_dladdr 10 demo_db (Some 4) 2 100
    kFlushLocalCacheWhen demo_events 50); [exact I|reflexivity|by_decide|exact demo_trace_ok].
Defined.

Lemma demo_start_inv : engine_inv (Some demo_proc_name) demo_dladdr demo_start.
Proof. apply newEngine_inv; [exact I|reflexivity|by_decide]. Qed.

(** An engine with two records in the cache. *)
Definition demo_cached : demo_engine :=
  set_cache (cache_insert 65600 8 12 [] (cache_insert 65536 16 5 [demo_at 2050] mi_empty)) demo_start.

Lemma demo_cached_inv : engine_inv (Some demo_proc_name) demo_dladdr demo_cached.
Proof.
  destruct demo_start_inv as [Hu Hs Hm _]. split; [done..|]. intros a t. unfold demo_cached.
  cbn [m_cache set_cache]. rewrite !find_cache_insert by done. unfold record_ok.
  repeat case_decide; [intros [= <-]; subst; by_decide..|]. done.
Qed.

Lemma flush_is_bounded_and_oldest_first_witness :
  ∃ (e' : demo_engine) moved,
    FlushLocalCache (Some demo_proc_name) demo_dladdr 10 30 2 false demo_cached = Some e' ∧
    Z.of_nat (length moved) ≤ 100 ∧
    (∀ t, t ∈ moved → mi_find (e_address t) (m_cache demo_cached) = Some t ∧
      e_timestamp t < 10 ∧ mi_find (e_address t) (m_cache e') = None ∧
      stored e' !! e_address t =
        Some (cache_record (Some demo_proc_name) demo_dladdr kFlushLocalCacheWhen t)) ∧
    (∀ t, mi_find (e_address t) (m_cache demo_cached) = Some t → t ∉ moved →
      mi_find (e_address t) (m_cache e') = Some t ∧
      (∀ t', t' ∈ moved → e_timestamp t' ≤ e_timestamp t) ∧
      (e_timestamp t < 10 → Z.of_nat (length moved) = 100)).
Proof.
  apply (flush_is_bounded_and_oldest_first (Some demo_proc_name) demo_dladdr 10 30 2 demo_cached);
    [exact demo_cached_inv|by eexists].
Defined.

Lemma failed_realloc_forgets_block_witness :
  ∃ e' : demo_engine,
    DoHookRealloc (Some demo_proc_name) demo_dladdr 10 65536 0 4096 6 [] demo_cached = Some e' ∧
    engine_view (Some demo_proc_name) demo_dladdr e' =
      delete 65536 (engine_view (Some demo_proc_name) demo_dladdr demo_cached).
Proof.
  apply (failed_realloc_forgets_block (Some demo_proc_name) demo_dladdr 10 65536 4096 6 [] demo_cached);
    [exact demo_cached_inv|by_decide|by_decide].
Defined.

(** [MEMHOOK_SIZE_MB=64] *)
Definition demo_getenv (name : string) : option bytes :=
  if decide (name = "MEMHOOK_SIZE_MB"%string) then Some [54; 52] else None.

Lemma ipc_size_spec_witness : ipc_size demo_getenv = 64 * 2 ^ 20.
Proof. apply (ipc_size_spec demo_getenv [54; 52] 20); vm_compute; auto. Defined.

End Engine.
