(* ===== verification/Lifetime.v ===== *)
(** * The life of the tracer in a program

    [MemHook_InitHelper] of src/memhook/memhook.cpp, the static functions of
    src/memhook/engine.cpp and [Singleton] of src/memhook/singleton.h: the
    engine exists from the constructor of a global object of the library to
    its destructor, and calls before and after are passed on and forgotten.

    The reference count of the engine, which calls in other threads may hold
    while it is destroyed, is the subject of file [Singleton]; here the calls
    come one after the other. *)
From S2P Require Import Prelude Boost TraceInfo Serialization Network Storage Unwinder Engine.

Module Lifetime.
Import Storage Unwinder Engine.

Section lifetime.
Context {St : Type} `{!MappedStorage St}.
Context {C : Type} `{!MultiIndex C TraceInfo Z}.
Context {P : Type} `{!SeqIndex P UnwProcNameInfo Z}.
Context (getenv : string → option bytes) (create : storage_kind → option St).
Context (ChronoDurationFromString : bytes → Z → option Z).
Context (get_proc_name : option (Z → option (bytes * Z))).
Context (dladdr : Z → option (Z * option bytes)) (ticks : Z).

(** [Singleton<Engine>::instance_], and the database the engine has let go. *)
Record library := mkLibrary {
  instance_ : option (Engine St C P);
  released : option St;
}.

(** Before the constructor of the global object. *)
Definition loaded : library := mkLibrary None None.

(** [Engine::Initialize ()] *)
Definition Initialize (l : library) : library :=
  mkLibrary (Some (OnInitialize getenv create ChronoDurationFromString)) (released l).

(** [Engine::Destroy ()], with nobody else who uses the engine *)
Definition Destroy (now : Z) (l : library) : option library :=
  match instance_ l with
  | Some e =>
      match OnDestroy get_proc_name dladdr ticks now e with
      | Some (_, st) => Some (mkLibrary None st)
      | None => None
      end
  | None => Some l
  end.

(** [MemHook_InitHelper ()] and [~MemHook_InitHelper ()]; what they allocate
    is below a [NoHook] and not recorded. *)
Definition MemHook_InitHelper : library → library := Initialize.
Definition MemHook_InitHelper_destroy : Z → library → option library := Destroy.

(** The static function a call of the program ends in. *)
Definition call_hook (ev : event) (l : library) : option library :=
  let hooked :=
    match ev with
    | EvAlloc mem n now stack => HookAlloc get_proc_name dladdr ticks mem n now stack (instance_ l)
    | EvFree mem => HookFree mem (instance_ l)
    | EvRealloc old new n now stack =>
        HookRealloc get_proc_name dladdr ticks old new n now stack (instance_ l)
    | EvUpdateSize mem n => HookUpdateSize mem n (instance_ l)
    | EvFlushCallStackCache => FlushCallStackCache_static (instance_ l)
    end in
  match hooked with Some i => Some (mkLibrary i (released l)) | None => None end.

Fixpoint call_hooks (evs : list event) (l : library) : option library :=
  match evs with
  | [] => Some l
  | ev :: evs => match call_hook ev l with Some l => call_hooks evs l | None => None end
  end.

(** A process: the calls before the library is initialized, those while the
    engine exists, and those after its end. *)
Definition life (before evs after : list event) (now : Z) : option library :=
  l ← call_hooks before loaded;
  l ← call_hooks evs (MemHook_InitHelper l);
  l ← MemHook_InitHelper_destroy now l;
  call_hooks after l.

(** ** Lemmas *)

Lemma call_hooks_none evs l : instance_ l = None → call_hooks evs l = Some l.
Proof.
  destruct l as [i r]. simpl. intros ->. induction evs as [|ev evs IH]; [done|]. by destruct ev.
Qed.

Lemma call_hooks_engine evs e r :
  call_hooks evs (mkLibrary (Some e) r) =
    match run_events get_proc_name dladdr ticks evs e with
    | Some e => Some (mkLibrary (Some e) r)
    | None => None
    end.
Proof.
  revert e. induction evs as [|ev evs IH]; intros e; [done|]. simpl.
  unfold call_hook, HookAlloc, HookFree, HookRealloc, HookUpdateSize, FlushCallStackCache_static, with_instance.
  destruct ev as [mem n now stack|mem|old new n now stack|mem n|]; simpl.
  - destruct (DoHookAlloc _ _ _ _ _ _ _ _) as [e1|]; [apply IH|done].
  - apply IH.
  - destruct (DoHookRealloc _ _ _ _ _ _ _ _ _) as [e1|]; [apply IH|done].
  - apply IH.
  - apply IH.
Qed.

Context {SL : StorageLaws St}.
Context {CL : MultiIndexLaws C TraceInfo Z e_address cache_indices}.
Context {PL : SeqIndexLaws P UnwProcNameInfo Z pni_ip}.
Context `{!DladdrLaws dladdr}.

(** ** Property *)


End lifetime.

(** ** Example *)


End Lifetime.
