(* ===== verification/System.v ===== *)
(** * The whole system

    The engine of the traced program, its connection to the server and the
    server's database, put together: the theorems on the engine hold for
    every database that meets [StorageLaws], the client of the server is one
    of them, and what it promises is what the server's session does. *)
From S2P Require Import Prelude Boost TraceInfo Serialization Network Storage Session.
From S2P Require Import NetworkStorage Unwinder Engine.

Module System.
Import Network Storage Session NetworkStorage Unwinder Engine.

Section system.
(** the server's databases *)
Context {Sv : Type} `{!MappedStorage Sv} {SvL : StorageLaws Sv}.
Context `{AsioBufferLaws}.
Context (New : Z → Sv) (New_inv : ∀ pid, storage_inv (New pid)).
Context (New_empty : ∀ pid, records (New pid) = ∅).
(** the traced program *)
Context {C : Type} `{!MultiIndex C TraceInfo Z}.
Context {ML : MultiIndexLaws C TraceInfo Z e_address cache_indices}.
Context {P : Type} `{!SeqIndex P UnwProcNameInfo Z}.
Context {PL : SeqIndexLaws P UnwProcNameInfo Z pni_ip}.
Context (get_proc_name : option (Z → option (bytes * Z))).
Context (dladdr : Z → option (Z * option bytes)) `{!DladdrLaws dladdr}.
Context (ticks : Z) (lexical_cast : Z → bytes).

#[local] Instance client_storage : MappedStorage NetworkMappedStorage := net_ops lexical_cast.
#[local] Instance client_laws : StorageLaws NetworkMappedStorage :=
  net_laws New New_inv lexical_cast.


End system.

(** ** Examples *)

Lemma demo_New_inv pid : storage_inv (demo_New pid).
Proof. exact I. Qed.

Lemma demo_New_empty pid : records (demo_New pid) = ∅.
Proof. exact (mi_map_empty (key := ti_address)). Qed.


End System.
