(* ===== verification/Hooks.v ===== *)
(** * The interposed functions

    src/memhook/memhook.cpp and src/memhook/no_hook.h: the functions that
    replace [malloc], [free], [mmap], [operator new] and the others in the
    traced program.

    The state of a thread is the C library's state (of an abstract type), the
    nesting depth of [NoHook] and the engine.  The C library's functions are
    a record of functions on its state, [DLFunctions].  An interposed function
    is a computation in a state monad; it has no result where the engine has
    undefined behaviour or where the new-handler loop exceeds its fuel.

    The engine allocates memory itself while it runs, through the same
    interposed functions.  A call comes with the calls that are made in this
    way inside of it, as a tree. *)
From S2P Require Import Prelude Boost TraceInfo Serialization Network Storage Unwinder Engine.

Module Hooks.
Import Storage Unwinder Engine.

(** ** The C library *)

(** Pointers and results are elements of [Z]; [NULL] is 0. *)
Record DLFunctions (H : Type) := {
  dl_free : Z → H → H;
  dl_malloc : Z → H → Z * H;
  dl_calloc : Z → Z → H → Z * H;
  dl_realloc : Z → Z → H → Z * H;
  dl_memalign : Z → Z → H → Z * H;
  (** the value of [*memptr] before the call is the first argument, its value
      after the call the second result *)
  dl_posix_memalign : Z → Z → Z → H → Z * Z * H;
  dl_cfree : Z → H → H;
  dl_aligned_alloc : Z → Z → H → Z * H;
  dl_valloc : Z → H → Z * H;
  dl_pvalloc : Z → H → Z * H;
  dl_mmap : Z → Z → Z → Z → Z → Z → H → Z * H;
  dl_mmap64 : Z → Z → Z → Z → Z → Z → H → Z * H;
  dl_mremap : Z → Z → Z → Z → Z → H → Z * H;
  dl_munmap : Z → Z → H → Z * H;
  dl_dlclose : Z → H → Z * H;
  (** [std::get_new_handler ()] and a call of the handler, which returns or
      throws [std::bad_alloc] *)
  dl_new_handler : H → option (H → bool * H);
}.
Arguments dl_free {_}.
Arguments dl_malloc {_}.
Arguments dl_calloc {_}.
Arguments dl_realloc {_}.
Arguments dl_memalign {_}.
Arguments dl_posix_memalign {_}.
Arguments dl_cfree {_}.
Arguments dl_aligned_alloc {_}.
Arguments dl_valloc {_}.
Arguments dl_pvalloc {_}.
Arguments dl_mmap {_}.
Arguments dl_mmap64 {_}.
Arguments dl_mremap {_}.
Arguments dl_munmap {_}.
Arguments dl_dlclose {_}.
Arguments dl_new_handler {_}.

(** [MAP_FAILED], the pointer with all bits set *)
Definition MAP_FAILED : Z := 2 ^ 64 - 1.
Definition MAP_PRIVATE : Z := 0x2.
Definition MAP_ANONYMOUS : Z := 0x20.
Definition MAP_STACK : Z := 0x20000.

(** ** The tracer, as the interposed functions see it *)

Class Tracer (E : Type) := hook_event : event → E → option E.

Section hooks.
Context {H E : Type} `{!Tracer E} (dl : DLFunctions H).
(** how often [operator new] may call the new-handler *)
Context (new_fuel : nat).

Record world := mkWorld {
  w_heap : H;
  hook_depth_ : Z;
  w_engine : E;
}.

Definition M (A : Type) : Type := world → option (A * world).

#[export] Instance M_ret : MRet M := λ A a w, Some (a, w).
#[export] Instance M_bind : MBind M := λ A B f m w,
  match m w with
  | Some (a, w) => f a w
  | None => None
  end.

(** A call of a library function. *)
Definition lift {A} (f : H → A * H) : M A := λ w,
  let '(a, h) := f (w_heap w) in Some (a, mkWorld h (hook_depth_ w) (w_engine w)).
Definition lift_ (f : H → H) : M unit := lift (λ h, (tt, f h)).

(** *** [NoHook] *)

Definition IsNested : M bool := λ w, Some (negb (hook_depth_ w =? 0), w).

Definition add_depth (d : Z) : M unit := λ w,
  Some (tt, mkWorld (w_heap w) (hook_depth_ w + d) (w_engine w)).

(** [NoHook no_hook;] for the rest of a block *)
Definition NoHook {A} (m : M A) : M A :=
  add_depth 1;; (a ← m; add_depth (-1);; mret a).

(** *** The engine *)

(** Where a call is made: the time, the stack and the calls the engine makes
    on the way. *)
Record site := mkSite {
  s_now : Z;
  s_stack : list unw_frame;
  s_inner : M unit;
}.

Definition engine_step (ev : event) : M unit := λ w,
  match hook_event ev (w_engine w) with
  | Some e => Some (tt, mkWorld (w_heap w) (hook_depth_ w) e)
  | None => None
  end.

Definition hook (st : site) (ev : event) : M unit := s_inner st;; engine_step ev.

Definition HookAlloc (st : site) (mem size : Z) : M unit :=
  hook st (EvAlloc mem size (s_now st) (s_stack st)).
Definition HookFree (st : site) (mem : Z) : M unit := hook st (EvFree mem).
Definition HookRealloc (st : site) (old_mem new_mem size : Z) : M unit :=
  hook st (EvRealloc old_mem new_mem size (s_now st) (s_stack st)).
Definition FlushCallStackCache (st : site) : M unit := hook st EvFlushCallStackCache.

(** *** The library functions *)

Definition do_free (mem : Z) : M unit := lift_ (dl_free dl mem).
Definition do_malloc (size : Z) : M Z := lift (dl_malloc dl size).
Definition do_calloc (nmemb size : Z) : M Z := lift (dl_calloc dl nmemb size).
Definition do_realloc (mem size : Z) : M Z := lift (dl_realloc dl mem size).
Definition do_memalign (alignment size : Z) : M Z := lift (dl_memalign dl alignment size).
Definition do_posix_memalign (memptr alignment size : Z) : M (Z * Z) :=
  lift (dl_posix_memalign dl memptr alignment size).
Definition do_cfree (mem : Z) : M unit := lift_ (dl_cfree dl mem).
Definition do_aligned_alloc (alignment size : Z) : M Z := lift (dl_aligned_alloc dl alignment size).
Definition do_valloc (size : Z) : M Z := lift (dl_valloc dl size).
Definition do_pvalloc (size : Z) : M Z := lift (dl_pvalloc dl size).
Definition do_mmap (addr length prot flags fd offset : Z) : M Z :=
  lift (dl_mmap dl addr length prot flags fd offset).
Definition do_mmap64 (addr length prot flags fd offset : Z) : M Z :=
  lift (dl_mmap64 dl addr length prot flags fd offset).
Definition do_mremap (addr old_len new_len flags new_addr_arg : Z) : M Z :=
  lift (dl_mremap dl addr old_len new_len flags new_addr_arg).
Definition do_munmap (addr length : Z) : M Z := lift (dl_munmap dl addr length).
Definition do_dlclose (handle : Z) : M Z := lift (dl_dlclose dl handle).

(** *** [operator new] *)

(** A pointer or [std::bad_alloc]. *)
Inductive new_result := NewPtr (mem : Z) | BadAlloc.

Definition get_new_handler : M (option (H → bool * H)) := lift (λ h, (dl_new_handler dl h, h)).

(** The loop of [do_cpp_alloc2], entered with the result of [malloc]. *)
Fixpoint cpp_alloc_loop (fuel : nat) (size : Z) (nothrow : bool) (mem : Z) : M new_result :=
  if mem =? 0 then
    match fuel with
    | O => λ _, None
    | S fuel =>
        nh ← get_new_handler;
        match nh with
        | None => mret (if nothrow then NewPtr 0 else BadAlloc)
        | Some nh =>
            returned ← lift nh;
            if (returned : bool) then
              mem ← do_malloc size; cpp_alloc_loop fuel size nothrow mem
            else mret (if nothrow then NewPtr 0 else BadAlloc)
        end
    end
  else mret (NewPtr mem).

Definition do_cpp_alloc2 (size : Z) (nothrow : bool) : M new_result :=
  mem ← do_malloc size; cpp_alloc_loop new_fuel size nothrow mem.

Definition do_cpp_alloc (size : Z) (nothrow : bool) (st : site) : M new_result :=
  nested ← IsNested;
  if (nested : bool) then do_cpp_alloc2 size nothrow
  else NoHook (r ← do_cpp_alloc2 size nothrow;
    match r with
    | NewPtr mem => HookAlloc st mem size;; mret r
    | BadAlloc => mret r
    end).

Definition do_cpp_free (mem : Z) (st : site) : M unit :=
  nested ← IsNested;
  if (nested : bool) then do_free mem
  else NoHook (HookFree st mem;; do_free mem).

(** ** The interposed functions *)

Definition memhook_free (mem : Z) (st : site) : M unit :=
  nested ← IsNested;
  if (nested : bool) then do_free mem
  else NoHook (HookFree st mem;; do_free mem).

Definition memhook_malloc (size : Z) (st : site) : M Z :=
  nested ← IsNested;
  if (nested : bool) then do_malloc size
  else NoHook (mem ← do_malloc size; HookAlloc st mem size;; mret mem).

Definition memhook_calloc (nmemb size : Z) (st : site) : M Z :=
  nested ← IsNested;
  if (nested : bool) then do_calloc nmemb size
  else NoHook (mem ← do_calloc nmemb size; HookAlloc st mem (u64 (nmemb * size));; mret mem).

Definition memhook_realloc (old_mem size : Z) (st : site) : M Z :=
  nested ← IsNested;
  if (nested : bool) then do_realloc old_mem size
  else NoHook (new_mem ← do_realloc old_mem size; HookRealloc st old_mem new_mem size;; mret new_mem).

Definition memhook_memalign (alignment size : Z) (st : site) : M Z :=
  nested ← IsNested;
  if (nested : bool) then do_memalign alignment size
  else NoHook (mem ← do_memalign alignment size; HookAlloc st mem size;; mret mem).

Definition memhook_posix_memalign (memptr alignment size : Z) (st : site) : M (Z * Z) :=
  nested ← IsNested;
  if (nested : bool) then do_posix_memalign memptr alignment size
  else NoHook (rs ← do_posix_memalign memptr alignment size; HookAlloc st rs.2 size;; mret rs).

Definition memhook_cfree (mem : Z) (st : site) : M unit :=
  nested ← IsNested;
  if (nested : bool) then do_cfree mem
  else NoHook (HookFree st mem;; do_cfree mem).

Definition memhook_aligned_alloc (alignment size : Z) (st : site) : M Z :=
  nested ← IsNested;
  if (nested : bool) then do_aligned_alloc alignment size
  else NoHook (mem ← do_aligned_alloc alignment size; HookAlloc st mem size;; mret mem).

Definition memhook_valloc (size : Z) (st : site) : M Z :=
  nested ← IsNested;
  if (nested : bool) then do_valloc size
  else NoHook (mem ← do_valloc size; HookAlloc st mem size;; mret mem).

Definition memhook_pvalloc (size : Z) (st : site) : M Z :=
  nested ← IsNested;
  if (nested : bool) then do_pvalloc size
  else NoHook (mem ← do_pvalloc size; HookAlloc st mem size;; mret mem).

Definition memhook_mmap (addr length prot flags fd offset : Z) (st : site) : M Z :=
  nested ← IsNested;
  if (nested : bool) then do_mmap addr length prot flags fd offset
  else NoHook (mem ← do_mmap addr length prot flags fd offset;
    (if (fd <? 0) && (Z.land flags MAP_STACK =? 0) then HookAlloc st mem length else mret tt);;
    mret mem).

Definition memhook_mmap64 (addr length prot flags fd offset : Z) (st : site) : M Z :=
  nested ← IsNested;
  if (nested : bool) then do_mmap64 addr length prot flags fd offset
  else NoHook (mem ← do_mmap64 addr length prot flags fd offset;
    (if (fd <? 0) && (Z.land flags (Z.lor MAP_ANONYMOUS MAP_PRIVATE) =?
                      Z.lor MAP_ANONYMOUS MAP_PRIVATE)
     then HookAlloc st mem length else mret tt);;
    mret mem).

Definition memhook_munmap (addr length : Z) (st : site) : M Z :=
  nested ← IsNested;
  if (nested : bool) then do_munmap addr length
  else NoHook (rs ← do_munmap addr length; (if rs =? 0 then HookFree st addr else mret tt);; mret rs).

Definition memhook_mremap (addr old_len new_len flags new_addr_arg : Z) (st : site) : M Z :=
  nested ← IsNested;
  if (nested : bool) then do_mremap addr old_len new_len flags new_addr_arg
  else NoHook (new_addr ← do_mremap addr old_len new_len flags new_addr_arg;
    (if new_addr =? MAP_FAILED then mret tt else HookRealloc st addr new_addr new_len);;
    mret new_addr).

Definition memhook_new (size : Z) : site → M new_result := do_cpp_alloc size false.
Definition memhook_new_nothrow (size : Z) : site → M new_result := do_cpp_alloc size true.
Definition memhook_delete (mem : Z) : site → M unit := do_cpp_free mem.
Definition memhook_delete_sized (mem size : Z) : site → M unit := do_cpp_free mem.
Definition memhook_delete_nothrow (mem : Z) : site → M unit := do_cpp_free mem.
Definition memhook_newarray (size : Z) : site → M new_result := do_cpp_alloc size false.
Definition memhook_newarray_nothrow (size : Z) : site → M new_result := do_cpp_alloc size true.
Definition memhook_deletearray (mem : Z) : site → M unit := do_cpp_free mem.
Definition memhook_deletearray_sized (mem size : Z) : site → M unit := do_cpp_free mem.
Definition memhook_deletearray_nothrow (mem : Z) : site → M unit := do_cpp_free mem.

(** Unloading a module makes the engine forget the names of its functions. *)
Definition memhook_dlclose (handle : Z) (st : site) : M Z :=
  rs ← do_dlclose handle; NoHook (FlushCallStackCache st;; mret rs).

(** [memhook_dlopen], [memhook_getaddrinfo], [memhook_getpwnam_r] and the
    other functions that only keep the library function's own calls from
    being traced; [inner] is what the library function calls. *)
Definition memhook_untraced (f : H → Z * H) (st : site) : M Z :=
  NoHook (r ← lift f; s_inner st;; mret r).

(** *** Calls of a program *)

Inductive call :=
| CFree (mem : Z) | CMalloc (size : Z) | CCalloc (nmemb size : Z) | CRealloc (old_mem size : Z)
| CMemalign (alignment size : Z) | CPosixMemalign (memptr alignment size : Z)
| CCfree (mem : Z) | CAlignedAlloc (alignment size : Z) | CValloc (size : Z) | CPvalloc (size : Z)
| CMmap (addr length prot flags fd offset : Z) | CMmap64 (addr length prot flags fd offset : Z)
| CMunmap (addr length : Z) | CMremap (addr old_len new_len flags new_addr_arg : Z)
| CNew (size : Z) (nothrow : bool) | CDelete (mem : Z)
| CDlclose (handle : Z) | CUntraced (f : H → Z * H).

Inductive result := RVoid | RInt (z : Z) | RPosix (rs memptr : Z) | RNew (r : new_result).

Definition memhook_call (c : call) (st : site) : M result :=
  match c with
  | CFree mem => memhook_free mem st;; mret RVoid
  | CMalloc size => r ← memhook_malloc size st; mret (RInt r)
  | CCalloc nmemb size => r ← memhook_calloc nmemb size st; mret (RInt r)
  | CRealloc old_mem size => r ← memhook_realloc old_mem size st; mret (RInt r)
  | CMemalign alignment size => r ← memhook_memalign alignment size st; mret (RInt r)
  | CPosixMemalign memptr alignment size =>
      r ← memhook_posix_memalign memptr alignment size st; mret (RPosix r.1 r.2)
  | CCfree mem => memhook_cfree mem st;; mret RVoid
  | CAlignedAlloc alignment size => r ← memhook_aligned_alloc alignment size st; mret (RInt r)
  | CValloc size => r ← memhook_valloc size st; mret (RInt r)
  | CPvalloc size => r ← memhook_pvalloc size st; mret (RInt r)
  | CMmap a l p f d o => r ← memhook_mmap a l p f d o st; mret (RInt r)
  | CMmap64 a l p f d o => r ← memhook_mmap64 a l p f d o st; mret (RInt r)
  | CMunmap addr length => r ← memhook_munmap addr length st; mret (RInt r)
  | CMremap a ol nl f na => r ← memhook_mremap a ol nl f na st; mret (RInt r)
  | CNew size nothrow => r ← do_cpp_alloc size nothrow st; mret (RNew r)
  | CDelete mem => memhook_delete mem st;; mret RVoid
  | CDlclose handle => r ← memhook_dlclose handle st; mret (RInt r)
  | CUntraced f => r ← memhook_untraced f st; mret (RInt r)
  end.

(** The forms of [new] and [delete] are two kinds of calls. *)
Lemma operators_are_calls size mem st :
  Forall (λ op, memhook_call (CNew size false) st = (r ← op size st; mret (RNew r)))
    [memhook_new; memhook_newarray] ∧
  Forall (λ op, memhook_call (CNew size true) st = (r ← op size st; mret (RNew r)))
    [memhook_new_nothrow; memhook_newarray_nothrow] ∧
  Forall (λ op, memhook_call (CDelete mem) st = (op mem st;; mret RVoid))
    [memhook_delete; (λ mem, memhook_delete_sized mem size); memhook_delete_nothrow;
     memhook_deletearray; (λ mem, memhook_deletearray_sized mem size); memhook_deletearray_nothrow].
Proof. by repeat constructor. Qed.

(** A call with the time and the stack at it, and the calls inside of it. *)
Inductive tcall := TCall (c : call) (now : Z) (stack : list unw_frame) (inner : list tcall).

Fixpoint run_call (t : tcall) : M result :=
  match t with
  | TCall c now stack inner =>
      let run_inner := (fix run_inner (l : list tcall) : M unit :=
        match l with
        | [] => mret tt
        | t :: l => run_call t;; run_inner l
        end) in
      memhook_call c (mkSite now stack (run_inner inner))
  end.

Fixpoint run_inner (l : list tcall) : M unit :=
  match l with
  | [] => mret tt
  | t :: l => run_call t;; run_inner l
  end.

Fixpoint run_calls (l : list tcall) : M (list result) :=
  match l with
  | [] => mret []
  | t :: l => r ← run_call t; rs ← run_calls l; mret (r :: rs)
  end.

(** The event a call of a program is recorded as. *)
Definition call_event (t : tcall) (r : result) : option event :=
  match t with
  | TCall c now stack _ =>
    let alloc mem size := Some (EvAlloc mem size now stack) in
    match c, r with
    | CFree mem, _ | CCfree mem, _ | CDelete mem, _ => Some (EvFree mem)
    | (CMalloc size | CMemalign _ size | CAlignedAlloc _ size | CValloc size | CPvalloc size),
        RInt mem => alloc mem size
    | CCalloc nmemb size, RInt mem => alloc mem (u64 (nmemb * size))
    | CPosixMemalign _ _ size, RPosix _ mem => alloc mem size
    | CRealloc old_mem size, RInt mem => Some (EvRealloc old_mem mem size now stack)
    | CMmap _ length _ flags fd _, RInt mem =>
        if (fd <? 0) && (Z.land flags MAP_STACK =? 0) then alloc mem length else None
    | CMmap64 _ length _ flags fd _, RInt mem =>
        if (fd <? 0) && (Z.land flags (Z.lor MAP_ANONYMOUS MAP_PRIVATE) =?
                          Z.lor MAP_ANONYMOUS MAP_PRIVATE)
        then alloc mem length else None
    | CMunmap addr _, RInt rs => if rs =? 0 then Some (EvFree addr) else None
    | CMremap addr _ new_len _ _, RInt mem =>
        if mem =? MAP_FAILED then None else Some (EvRealloc addr mem new_len now stack)
    | CNew size _, RNew (NewPtr mem) => alloc mem size
    | _, _ => None
    end
  end.

End hooks.

(** ** The engine as a tracer *)

(** What a tracer promises: on an event that its records allow it does not
    fail and records the event. *)
Class TracerLaws (E : Type) `{Tracer E} (get_proc_name : option (Z → option (bytes * Z)))
    (dladdr : Z → option (Z * option bytes)) := {
  t_inv : E → Prop;
  t_view : E → gmap Z BasicTraceInfo;
  t_event e ev :
    t_inv e → event_ok get_proc_name dladdr (t_view e) ev →
    ∃ e', hook_event ev e = Some e' ∧ t_inv e' ∧
      t_view e' = live_event get_proc_name dladdr (t_view e) ev;
}.

(** A program that is not traced. *)
#[export] Instance null_tracer : Tracer unit := λ _ _, Some tt.

Section engine_tracer.
Context {St : Type} `{!MappedStorage St} {SL : StorageLaws St}.
Context {C : Type} `{!MultiIndex C TraceInfo Z}.
Context {ML : MultiIndexLaws C TraceInfo Z e_address cache_indices}.
Context {P : Type} `{!SeqIndex P UnwProcNameInfo Z}.
Context {PL : SeqIndexLaws P UnwProcNameInfo Z pni_ip}.
Context (get_proc_name : option (Z → option (bytes * Z))).
Context (dladdr : Z → option (Z * option bytes)) `{!DladdrLaws dladdr}.
Context (ticks : Z).

Definition engine_tracer : Tracer (Engine St C P) := run_event get_proc_name dladdr ticks.

Definition engine_tracer_laws : @TracerLaws (Engine St C P) engine_tracer get_proc_name dladdr.
Proof.
  refine {| t_inv := engine_inv get_proc_name dladdr; t_view := engine_view get_proc_name dladdr |}.
  intros e ev Hinv Hok. destruct (run_event_spec get_proc_name dladdr ticks ev e Hinv Hok)
    as (e' & ? & ? & _ & ?). by exists e'.
Defined.

End engine_tracer.

(** ** Tracing and not tracing

    The same program runs in the world of a tracer and in the world of the
    null tracer; the two runs are compared step by step. *)

Section simulation.
Context {H E : Type} `{TL : TracerLaws E get_proc_name dladdr}.
Context (dl : DLFunctions H) (new_fuel : nat).

Abbreviation U := (@M H unit).
Abbreviation T := (@M H E).

(** Inside of a hook: nothing is recorded. *)
Definition nsim {A} (m1 : U A) (m2 : T A) : Prop :=
  ∀ h d e, 0 < d → t_inv e →
  match m1 (mkWorld h d tt) with
  | Some (a, w1) => hook_depth_ w1 = d ∧
      ∃ e', m2 (mkWorld h d e) = Some (a, mkWorld (w_heap w1) d e') ∧ t_inv e' ∧ t_view e' = t_view e
  | None => True
  end.

(** At the outermost level: the event [g a] is recorded. *)
Definition rsim {A} (m1 : U A) (m2 : T A) (g : A → option event) : Prop :=
  ∀ h e, t_inv e →
  match m1 (mkWorld h 0 tt) with
  | Some (a, w1) => hook_depth_ w1 = 0 ∧
      (from_option (event_ok get_proc_name dladdr (t_view e)) True (g a) →
       ∃ e', m2 (mkWorld h 0 e) = Some (a, mkWorld (w_heap w1) 0 e') ∧ t_inv e' ∧
         t_view e' = from_option (live_event get_proc_name dladdr (t_view e)) (t_view e) (g a))
  | None => True
  end.

Lemma nsim_ret {A} (a : A) : nsim (mret a) (mret a).
Proof. intros h d e Hd He. simpl. split; [done|]. by exists e. Qed.

Lemma nsim_lift {A} (f : H → A * H) : nsim (lift f) (lift f).
Proof.
  intros h d e Hd He. unfold lift. simpl. destruct (f h) as [a h']. split; [done|]. by exists e.
Qed.

Lemma nsim_bind {A B} (m1 : U A) (m2 : T A) (f1 : A → U B) (f2 : A → T B) :
  nsim m1 m2 → (∀ a, nsim (f1 a) (f2 a)) → nsim (m1 ≫= f1) (m2 ≫= f2).
Proof.
  intros Hm Hf h d e Hd He. unfold mbind, M_bind. specialize (Hm h d e Hd He).
  destruct (m1 _) as [[a [h1 d1 []]]|]; [|done]. destruct Hm as (Hd1 & e1 & -> & He1 & Hv1).
  simpl in *. subst d1. specialize (Hf a h1 d e1 Hd He1).
  destruct (f1 a _) as [[b w2]|]; [|done]. destruct Hf as (? & e2 & ? & ? & Hv2).
  split; [done|]. exists e2. split_and!; [done..|congruence].
Qed.

Lemma nsim_NoHook {A} (m1 : U A) (m2 : T A) : nsim m1 m2 → nsim (NoHook m1) (NoHook m2).
Proof.
  intros Hm h d e Hd He. unfold NoHook, mbind, M_bind, add_depth. simpl.
  specialize (Hm h (d + 1) e ltac:(lia) He).
  destruct (m1 _) as [[a [h1 d1 []]]|]; [|done]. destruct Hm as (Hd1 & e1 & -> & He1 & Hv1).
  simpl in *. subst d1. split; [lia|]. exists e1.
  replace (d + 1 + -1) with d by lia. done.
Qed.

Lemma nsim_nested {A} (m1 b1 : U A) (m2 b2 : T A) :
  nsim m1 m2 →
  nsim (nested ← IsNested; if (nested : bool) then m1 else b1)
       (nested ← IsNested; if (nested : bool) then m2 else b2).
Proof.
  intros Hm h d e Hd He. unfold mbind, M_bind, IsNested. simpl.
  rewrite (proj2 (Z.eqb_neq d 0)) by lia. by apply Hm.
Qed.

Lemma nsim_flush : nsim (engine_step EvFlushCallStackCache) (engine_step EvFlushCallStackCache).
Proof.
  intros h d e Hd He. unfold engine_step. simpl. split; [done|].
  destruct (t_event e EvFlushCallStackCache He I) as (e' & -> & ? & ?). by exists e'.
Qed.

Lemma nsim_cpp_loop fuel size nothrow mem :
  nsim (cpp_alloc_loop dl fuel size nothrow mem) (cpp_alloc_loop dl fuel size nothrow mem).
Proof.
  revert mem; induction fuel as [|fuel IH]; intros mem; simpl;
    (destruct (mem =? 0); [|apply nsim_ret]); [by intros ?????|].
  apply nsim_bind; [apply nsim_lift|]. intros [nh|]; [|apply nsim_ret].
  apply nsim_bind; [apply nsim_lift|]. intros []; [|apply nsim_ret].
  apply nsim_bind; [apply nsim_lift|done].
Qed.

Lemma nsim_cpp_alloc2 size nothrow :
  nsim (do_cpp_alloc2 dl new_fuel size nothrow) (do_cpp_alloc2 dl new_fuel size nothrow).
Proof. apply nsim_bind; [apply nsim_lift|]. intros. apply nsim_cpp_loop. Qed.

(** A call inside of a hook goes straight to the library. *)
Lemma nsim_call c now stack (in1 : U unit) (in2 : T unit) :
  nsim in1 in2 →
  nsim (memhook_call dl new_fuel c (mkSite now stack in1))
       (memhook_call dl new_fuel c (mkSite now stack in2)).
Proof.
  intros Hin. destruct c; simpl;
    (apply nsim_bind; [|intros; apply nsim_ret]);
    try (apply nsim_nested; first [apply nsim_lift | apply nsim_cpp_alloc2]).
  - apply nsim_bind; [apply nsim_lift|]. intros. apply nsim_NoHook.
    apply nsim_bind; [|intros; apply nsim_ret]. apply nsim_bind; [done|intros; apply nsim_flush].
  - apply nsim_NoHook, nsim_bind; [apply nsim_lift|]. intros.
    apply nsim_bind; [done|intros; apply nsim_ret].
Qed.

(** *** The outermost level *)

Definition opt_hook {E'} `{Tracer E'} (st : @site H E') (ev : option event) : @M H E' unit :=
  match ev with Some ev => hook st ev | None => mret tt end.

(** The engine's step at the end of a hook. *)
Lemma hook_spec now stack (in1 : U unit) (in2 : T unit) ev h e :
  nsim in1 in2 → t_inv e →
  match opt_hook (mkSite now stack in1) ev (mkWorld h 1 tt) with
  | Some (a, w1) => hook_depth_ w1 = 1 ∧
      (from_option (event_ok get_proc_name dladdr (t_view e)) True ev →
       ∃ e', opt_hook (mkSite now stack in2) ev (mkWorld h 1 e) =
           Some (tt, mkWorld (w_heap w1) 1 e') ∧ t_inv e' ∧
         t_view e' = from_option (live_event get_proc_name dladdr (t_view e)) (t_view e) ev)
  | None => True
  end.
Proof.
  intros Hin He. destruct ev as [ev|]; simpl; [|by split; [|exists e]].
  unfold hook, mbind, M_bind. simpl. specialize (Hin h 1 e ltac:(lia) He).
  destruct (in1 _) as [[[] [h1 d1 []]]|]; [|done]. simpl in *.
  destruct Hin as (-> & e1 & -> & He1 & Hv1).
  unfold engine_step. simpl. split; [done|]. intros Hok. rewrite <- Hv1 in Hok.
  destruct (t_event e1 ev He1 Hok) as (e2 & -> & ? & ?). exists e2. by rewrite <- Hv1.
Qed.

Lemma run_outermost {E' A} (x b : @M H E' A) h e :
  (nested ← IsNested; if (nested : bool) then x else NoHook b) (mkWorld h 0 e) =
    match b (mkWorld h 1 e) with
    | Some (a, w) => Some (a, mkWorld (w_heap w) (hook_depth_ w - 1) (w_engine w))
    | None => None
    end.
Proof.
  unfold NoHook, mbind, M_bind, IsNested, add_depth. simpl. by destruct (b _) as [[a w]|].
Qed.

Lemma run_NoHook {E' A} (b : @M H E' A) h e :
  NoHook b (mkWorld h 0 e) =
    match b (mkWorld h 1 e) with
    | Some (a, w) => Some (a, mkWorld (w_heap w) (hook_depth_ w - 1) (w_engine w))
    | None => None
    end.
Proof. unfold NoHook, mbind, M_bind, add_depth. simpl. by destruct (b _) as [[a w]|]. Qed.

Lemma run_bind {E' A B} (m : @M H E' A) (f : A → @M H E' B) w :
  (m ≫= f) w = match m w with Some (a, w) => f a w | None => None end.
Proof. done. Qed.

Lemma rsim_after {A} now stack in1 in2 (x1 l1 : U A) (x2 l2 : T A) k1 k2 (g : A → option event) :
  nsim l1 l2 → nsim in1 in2 →
  (∀ a, k1 a = opt_hook (mkSite now stack in1) (g a)) →
  (∀ a, k2 a = opt_hook (mkSite now stack in2) (g a)) →
  rsim (nested ← IsNested; if (nested : bool) then x1 else NoHook (a ← l1; k1 a;; mret a))
       (nested ← IsNested; if (nested : bool) then x2 else NoHook (a ← l2; k2 a;; mret a)) g.
Proof.
  intros Hl Hin Hk1 Hk2 h e He. rewrite !run_outermost, !run_bind.
  specialize (Hl h 1 e ltac:(lia) He).
  destruct (l1 _) as [[a [h1 d1 []]]|]; [|done]. simpl in *.
  destruct Hl as (-> & e1 & -> & He1 & Hv1). rewrite !run_bind, Hk1, Hk2.
  pose proof (hook_spec now stack in1 in2 (g a) h1 e1 Hin He1) as Hh. rewrite Hv1 in Hh.
  destruct (opt_hook _ (g a) (mkWorld h1 1 tt)) as [[[] [h2 d2 []]]|]; [|done]. simpl in *.
  destruct Hh as [-> Hh]. split; [done|]. intros Hok.
  destruct (Hh Hok) as (e2 & -> & ? & ?). by exists e2.
Qed.

Lemma rsim_before {A} now stack in1 in2 (x1 l1 : U A) (x2 l2 : T A) ev :
  nsim l1 l2 → nsim in1 in2 →
  rsim (nested ← IsNested; if (nested : bool) then x1
        else NoHook (hook (mkSite now stack in1) ev;; l1))
       (nested ← IsNested; if (nested : bool) then x2
        else NoHook (hook (mkSite now stack in2) ev;; l2)) (λ _, Some ev).
Proof.
  intros Hl Hin h e He. rewrite !run_outermost, !run_bind.
  pose proof (hook_spec now stack in1 in2 (Some ev) h e Hin He) as Hh. simpl in Hh.
  destruct (hook _ ev (mkWorld h 1 tt)) as [[[] [h2 d2 []]]|]; [|done]. simpl in *.
  destruct Hh as [-> Hh].
  pose proof (λ e', Hl h2 1 e' ltac:(lia)) as Hl'. clear Hl.
  destruct (l1 _) as [[a [h1 d1 []]]|]; [|done]. simpl in *. split.
  { by destruct (Hl' e He) as [-> _]. }
  intros Hok. destruct (Hh Hok) as (e2 & -> & He2 & Hv2).
  destruct (Hl' e2 He2) as (_ & e3 & -> & ? & Hv3). exists e3. by rewrite <- Hv2.
Qed.

Lemma rsim_ret {A B} (m1 : U A) (m2 : T A) (f : A → B) (g : A → option event) (g' : B → option event) :
  rsim m1 m2 g → (∀ a, g' (f a) = g a) →
  rsim (r ← m1; mret (f r)) (r ← m2; mret (f r)) g'.
Proof.
  intros Hm Hg h e He. rewrite !run_bind. specialize (Hm h e He).
  destruct (m1 _) as [[a [h1 d1 []]]|]; [|done]. simpl in *.
  destruct Hm as [-> Hm]. split; [done|]. rewrite Hg. intros Hok.
  destruct (Hm Hok) as (e' & -> & ? & ?). by exists e'.
Qed.

Lemma rsim_ext {A} (m1 m1' : U A) (m2 m2' : T A) (g : A → option event) :
  (∀ w, m1 w = m1' w) → (∀ w, m2 w = m2' w) → rsim m1' m2' g → rsim m1 m2 g.
Proof. intros E1 E2 Hm h e He. rewrite E1, E2. by apply Hm. Qed.

Lemma rsim_NoHook {A} (m1 : U A) (m2 : T A) : nsim m1 m2 → rsim (NoHook m1) (NoHook m2) (λ _, None).
Proof.
  intros Hm h e He. rewrite !run_NoHook. specialize (Hm h 1 e ltac:(lia) He).
  destruct (m1 _) as [[a [h1 d1 []]]|]; [|done]. simpl in *.
  destruct Hm as (-> & e1 & -> & ? & ?). split; [done|]. intros _. by exists e1.
Qed.

Lemma rsim_lift {A B} (f : H → A * H) (f1 : A → U B) (f2 : A → T B) g :
  (∀ a, rsim (f1 a) (f2 a) g) → rsim (lift f ≫= f1) (lift f ≫= f2) g.
Proof.
  intros Hf h e He. rewrite !run_bind. unfold lift. simpl. destruct (f h) as [a h1]. simpl.
  by apply Hf.
Qed.

Lemma rsim_new size nothrow now stack (in1 : U unit) (in2 : T unit) :
  nsim in1 in2 →
  rsim (do_cpp_alloc dl new_fuel size nothrow (mkSite now stack in1))
       (do_cpp_alloc dl new_fuel size nothrow (mkSite now stack in2))
       (λ r, match r with NewPtr mem => Some (EvAlloc mem size now stack) | BadAlloc => None end).
Proof.
  intros Hin. eapply rsim_ext; [| |apply (rsim_after now stack in1 in2
    (do_cpp_alloc2 dl new_fuel size nothrow) (do_cpp_alloc2 dl new_fuel size nothrow)
    (do_cpp_alloc2 dl new_fuel size nothrow) (do_cpp_alloc2 dl new_fuel size nothrow));
    [apply nsim_cpp_alloc2|done|done|done]].
  all: intros w; unfold do_cpp_alloc; rewrite !run_bind; simpl; case_match; [done|];
    unfold NoHook; rewrite !run_bind; simpl; rewrite !run_bind;
    destruct (do_cpp_alloc2 _ _ _ _ _) as [[[] ?]|]; done.
Qed.

(** The two shapes of the interposed functions: those that call the library
    first and then the engine, and those that do it the other way round. *)
Lemma rsim_int now stack (in1 : U unit) (in2 : T unit) (f : H → Z * H) k1 k2 (g : Z → option event) g' :
  nsim in1 in2 →
  (∀ z, k1 z = opt_hook (mkSite now stack in1) (g z)) →
  (∀ z, k2 z = opt_hook (mkSite now stack in2) (g z)) → (∀ z, g' (RInt z) = g z) →
  rsim (r ← (nested ← IsNested; if (nested : bool) then lift f
             else NoHook (a ← lift f; k1 a;; mret a)); mret (RInt r))
       (r ← (nested ← IsNested; if (nested : bool) then lift f
             else NoHook (a ← lift f; k2 a;; mret a)); mret (RInt r))
       g'.
Proof.
  intros Hin Hk1 Hk2 Hg. eapply rsim_ret; [|done]. by apply (rsim_after now stack in1 in2);
    [apply nsim_lift|..].
Qed.

Lemma rsim_void now stack (in1 : U unit) (in2 : T unit) (f : H → H) ev g' :
  nsim in1 in2 → g' RVoid = Some ev →
  rsim ((nested ← IsNested; if (nested : bool) then lift_ f
         else NoHook (hook (mkSite now stack in1) ev;; lift_ f));; mret RVoid)
       ((nested ← IsNested; if (nested : bool) then lift_ f
         else NoHook (hook (mkSite now stack in2) ev;; lift_ f));; mret RVoid) g'.
Proof.
  intros Hin Hg. apply (rsim_ret _ _ (λ _, RVoid) (λ _, Some ev)); [|done].
  apply rsim_before; [apply nsim_lift|done].
Qed.

(** A call of the program is recorded as [call_event] says. *)
Lemma rsim_call c now stack (in1 : U unit) (in2 : T unit) inner :
  nsim in1 in2 →
  rsim (memhook_call dl new_fuel c (mkSite now stack in1))
       (memhook_call dl new_fuel c (mkSite now stack in2)) (call_event (TCall c now stack inner)).
Proof.
  intros Hin. destruct c; simpl;
    try (by apply (rsim_void now stack in1 in2));
    try (by apply (rsim_int now stack in1 in2 _ _ _ (λ mem, Some (EvAlloc mem size now stack)))).
  - by apply (rsim_int now stack in1 in2 _ _ _
      (λ mem, Some (EvAlloc mem (u64 (nmemb * size)) now stack))).
  - by apply (rsim_int now stack in1 in2 _ _ _
      (λ mem, Some (EvRealloc old_mem mem size now stack))).
  - eapply (rsim_ret _ _ (λ r : Z * Z, RPosix r.1 r.2)); [|done].
    by apply (rsim_after now stack in1 in2 _ _ _ _ _ _
      (λ r, Some (EvAlloc r.2 size now stack))); [apply nsim_lift|..].
  - apply (rsim_int now stack in1 in2 _ _ _ (λ mem,
      if (fd <? 0) && (Z.land flags MAP_STACK =? 0) then Some (EvAlloc mem length now stack) else None));
      [done|intros; by destruct (_ && _)..|done].
  - apply (rsim_int now stack in1 in2 _ _ _ (λ mem,
      if (fd <? 0) && (Z.land flags (Z.lor MAP_ANONYMOUS MAP_PRIVATE) =?
                        Z.lor MAP_ANONYMOUS MAP_PRIVATE)
      then Some (EvAlloc mem length now stack) else None));
      [done|intros; by destruct (_ && _)..|done].
  - apply (rsim_int now stack in1 in2 _ _ _ (λ rs, if rs =? 0 then Some (EvFree addr) else None));
      [done|intros; by destruct (_ =? _)..|done].
  - apply (rsim_int now stack in1 in2 _ _ _ (λ mem,
      if mem =? MAP_FAILED then None else Some (EvRealloc addr mem new_len now stack)));
      [done|intros; by destruct (_ =? _)..|done].
  - by eapply rsim_ret; [apply rsim_new|].
  - apply (rsim_ret _ _ RInt (λ _, None)); [|done]. apply rsim_lift. intros a. apply rsim_NoHook.
    apply nsim_bind; [|intros; apply nsim_ret]. apply nsim_bind; [done|intros; apply nsim_flush].
  - apply (rsim_ret _ _ RInt (λ _, None)); [|done]. apply rsim_NoHook, nsim_bind; [apply nsim_lift|].
    intros. apply nsim_bind; [done|intros; apply nsim_ret].
Qed.

(** *** Trees of calls *)

Lemma tcall_Forall_ind (Q : @tcall H → Prop) :
  (∀ c now stack inner, Forall Q inner → Q (TCall c now stack inner)) → ∀ t, Q t.
Proof.
  intros Hq. fix IH 1. intros [c now stack inner]. apply Hq.
  induction inner as [|t inner IHl]; constructor; [apply IH|apply IHl].
Qed.

Lemma nsim_run_inner l :
  Forall (λ t, nsim (run_call dl new_fuel t) (run_call dl new_fuel t)) l →
  nsim (run_inner dl new_fuel l) (run_inner dl new_fuel l).
Proof. induction 1 as [|t l Ht Hl IH]; [apply nsim_ret|]. by apply nsim_bind. Qed.

Lemma nsim_run_call t : nsim (run_call dl new_fuel t) (run_call dl new_fuel t).
Proof.
  induction t as [c now stack inner IH] using tcall_Forall_ind.
  apply nsim_call. by apply nsim_run_inner.
Qed.

Lemma rsim_run_call t : rsim (run_call dl new_fuel t) (run_call dl new_fuel t) (call_event t).
Proof.
  destruct t as [c now stack inner]. apply rsim_call.
  apply nsim_run_inner, Forall_forall. intros. apply nsim_run_call.
Qed.

(** The records after a call, and after calls with these results. *)
Definition live_call (m : gmap Z BasicTraceInfo) (ev : option event) : gmap Z BasicTraceInfo :=
  from_option (live_event get_proc_name dladdr m) m ev.

(** A run without tracing whose calls an allocator allows: what it hands out
    is not in use. *)
Fixpoint calls_ok (m : gmap Z BasicTraceInfo) (l : list (@tcall H)) (h : H) : Prop :=
  match l with
  | [] => True
  | t :: l =>
      match run_call dl new_fuel t (mkWorld h 0 tt) with
      | Some (r, w) =>
          from_option (event_ok get_proc_name dladdr m) True (call_event t r) ∧
          calls_ok (live_call m (call_event t r)) l (w_heap w)
      | None => False
      end
  end.

#[export] Instance calls_ok_dec l : ∀ m h, Decision (calls_ok m l h).
Proof.
  induction l as [|t l IH]; intros m h; simpl; [apply _|].
  destruct (run_call dl new_fuel t _) as [[r w]|]; [|apply _].
  apply and_dec; [|apply IH]. destruct (call_event t r); simpl; apply _.
Defined.

Lemma cpp_loop_result fuel size nothrow mem (w : @world H E) r w' :
  cpp_alloc_loop dl fuel size nothrow mem w = Some (r, w') →
  r ≠ (if nothrow : bool then BadAlloc else NewPtr 0) ∧
  w_engine w' = w_engine w ∧ hook_depth_ w' = hook_depth_ w.
Proof.
  revert mem w; induction fuel as [|fuel IH]; intros mem w; simpl;
    (destruct (mem =? 0) eqn:H0'; zify_bool;
     [|intros [= <- <-]; by destruct nothrow; split_and!; try congruence]); [done|].
  rewrite run_bind. simpl. destruct (dl_new_handler dl (w_heap w)) as [nh|].
  - rewrite run_bind. unfold lift at 1. simpl. destruct (nh (w_heap w)) as [[] h1].
    + rewrite run_bind. unfold do_malloc, lift. simpl.
      destruct (dl_malloc dl size h1) as [mem' h2]. intros Hr. by apply IH in Hr.
    + intros [= <- <-]. by destruct nothrow.
  - intros [= <- <-]. by destruct nothrow.
Qed.

(** ** Properties *)


(** A call inside of a hook is not recorded: it does what the library
    does, and the records stay as they are. *)
Theorem inner_call_is_not_recorded t h d e r w :
  t_inv e → 0 < d → run_call dl new_fuel t (mkWorld h d tt) = Some (r, w) →
  hook_depth_ w = d ∧
  ∃ e', run_call dl new_fuel t (mkWorld h d e) = Some (r, mkWorld (w_heap w) d e') ∧
    t_view e' = t_view e.
Proof.
  intros He Hd Hr. pose proof (nsim_run_call t h d e Hd He) as Hn. rewrite Hr in Hn.
  destruct Hn as (? & e' & ? & _ & ?). split; [done|]. by exists e'.
Qed.

(** A failing anonymous [mmap] is recorded as an allocation at
    [MAP_FAILED]. *)
Theorem failed_mmap_is_recorded addr length prot flags fd offset now stack h h' e :
  t_inv e → dl_mmap dl addr length prot flags fd offset h = (MAP_FAILED, h') →
  fd < 0 → Z.land flags MAP_STACK = 0 →
  alloc_ok get_proc_name dladdr (t_view e) MAP_FAILED length now stack →
  ∃ e', memhook_mmap dl addr length prot flags fd offset (mkSite now stack (mret tt)) (mkWorld h 0 e) =
      Some (MAP_FAILED, mkWorld h' 0 e') ∧
    t_view e' !! MAP_FAILED = Some (hook_record get_proc_name dladdr MAP_FAILED length now stack).
Proof.
  intros He Hm Hfd Hfl Hok. unfold memhook_mmap. rewrite run_outermost, run_bind.
  unfold do_mmap, lift. simpl. rewrite Hm, (proj2 (Z.ltb_lt fd 0) Hfd), Hfl. simpl.
  rewrite run_bind. unfold HookAlloc, hook. rewrite run_bind. simpl. unfold engine_step. simpl.
  destruct (t_event e (EvAlloc MAP_FAILED length now stack) He Hok) as (e' & -> & _ & Hv).
  exists e'. split; [done|]. rewrite Hv. simpl. unfold live_alloc. simpl. apply lookup_insert_eq.
Qed.

(** A failing [posix_memalign] is recorded as an allocation at whatever
    the pointer held before. *)
Theorem failed_posix_memalign_is_recorded memptr alignment size rs now stack h h' e :
  t_inv e → dl_posix_memalign dl memptr alignment size h = (rs, memptr, h') → rs ≠ 0 →
  memptr ≠ 0 → alloc_ok get_proc_name dladdr (t_view e) memptr size now stack →
  ∃ e', memhook_posix_memalign dl memptr alignment size (mkSite now stack (mret tt)) (mkWorld h 0 e) =
      Some ((rs, memptr), mkWorld h' 0 e') ∧
    t_view e' !! memptr = Some (hook_record get_proc_name dladdr memptr size now stack).
Proof.
  intros He Hm Hrs H0' Hok. unfold memhook_posix_memalign. rewrite run_outermost, run_bind.
  unfold do_posix_memalign, lift. simpl. rewrite Hm. simpl.
  rewrite run_bind. unfold HookAlloc, hook. rewrite run_bind. simpl. unfold engine_step. simpl.
  destruct (t_event e (EvAlloc memptr size now stack) He Hok) as (e' & -> & _ & Hv).
  exists e'. split; [done|]. rewrite Hv. simpl. unfold live_alloc.
  rewrite (proj2 (Z.eqb_neq _ _)) by done. apply lookup_insert_eq.
Qed.

(** [operator new]: the throwing form never returns a null pointer, the
    other one never throws; neither records anything by itself.  Without a
    new-handler it makes one attempt and returns. *)
Theorem operator_new_result size nothrow (w : @world H E) :
  (∀ r w', do_cpp_alloc2 dl new_fuel size nothrow w = Some (r, w') →
    r ≠ (if nothrow : bool then BadAlloc else NewPtr 0) ∧
    w_engine w' = w_engine w ∧ hook_depth_ w' = hook_depth_ w) ∧
  ((∀ h, dl_new_handler dl h = None) → (0 < new_fuel)%nat →
    do_cpp_alloc2 dl new_fuel size nothrow w =
      let '(mem, h) := dl_malloc dl size (w_heap w) in
      Some (if mem =? 0 then (if nothrow then NewPtr 0 else BadAlloc) else NewPtr mem,
            mkWorld h (hook_depth_ w) (w_engine w))).
Proof.
  unfold do_cpp_alloc2. rewrite run_bind. unfold do_malloc, lift. simpl.
  destruct (dl_malloc dl size (w_heap w)) as [mem h]. split.
  - intros r w' Hr. by apply cpp_loop_result in Hr.
  - intros Hnone Hf. destruct new_fuel as [|fuel]; [lia|]. simpl.
    destruct (mem =? 0) eqn:Hm; [|done]. rewrite run_bind. simpl. by rewrite Hnone.
Qed.

End simulation.

(** ** Examples *)

(** A C library whose heap grows and never fails, but for [mmap] and
    [posix_memalign], which always fail. *)
Definition bump (size h : Z) : Z * Z := (h, h + 16 * (size / 16 + 1)).

Definition demo_dl : DLFunctions Z := {|
  dl_free _ h := h;
  dl_malloc := bump;
  dl_calloc n size := bump (n * size);
  dl_realloc _ := bump;
  dl_memalign _ := bump;
  dl_posix_memalign memptr _ _ h := (12, memptr, h);
  dl_cfree _ h := h;
  dl_aligned_alloc _ := bump;
  dl_valloc := bump;
  dl_pvalloc := bump;
  dl_mmap _ _ _ _ _ _ h := (MAP_FAILED, h);
  dl_mmap64 _ _ _ _ _ _ h := (MAP_FAILED, h);
  dl_mremap _ _ _ _ _ h := (MAP_FAILED, h);
  dl_munmap _ _ h := (0, h);
  dl_dlclose _ h := (0, h);
  dl_new_handler _ := None;
|}.

Definition demo_calls : list (@tcall Z) :=
  [ TCall (CMalloc 24) 1 demo_stack [TCall (CMalloc 100) 1 [] []; TCall (CNew 8 true) 1 [] []];
    TCall (CNew 8 false) 2 demo_stack [];
    TCall (CRealloc 4096 300) 3 demo_stack [TCall (CFree 4128) 3 [] []];
    TCall (CCalloc 4 4) 30 [] [];
    TCall (CDlclose 1) 31 [] [];
    TCall (CFree 4256) 32 [] [] ].

#[local] Instance demo_tracer : Tracer demo_engine :=
  engine_tracer (Some demo_proc_name) demo_dladdr 10.
#[local] Instance demo_tracer_laws :
    TracerLaws demo_engine (Some demo_proc_name) demo_dladdr :=
  engine_tracer_laws (Some demo_proc_name) demo_dladdr 10.

Lemma demo_calls_ok :
  calls_ok (get_proc_name := Some demo_proc_name) (dladdr := demo_dladdr) demo_dl 1
    (t_view demo_start) demo_calls 4096.
Proof. by_decide. Qed.


Lemma inner_call_is_not_recorded_witness :
  ∃ e' : demo_engine,
    run_call demo_dl 1 (TCall (CMalloc 24) 1 demo_stack []) (mkWorld 4096 1 demo_start) =
      Some (RInt 4096, mkWorld 4128 1 e') ∧ t_view e' = t_view demo_start.
Proof.
  destruct (inner_call_is_not_recorded demo_dl 1 (TCall (CMalloc 24) 1 demo_stack []) 4096 1
    demo_start (RInt 4096) (mkWorld 4128 1 tt)) as [_ He];
    [exact demo_start_inv|reflexivity|vm_compute; reflexivity|exact He].
Defined.

Lemma failed_mmap_is_recorded_witness :
  ∃ e' : demo_engine,
    memhook_mmap demo_dl 0 8192 3 34 (-1) 0 (mkSite 1 demo_stack (mret tt)) (mkWorld 4096 0 demo_start) =
      Some (MAP_FAILED, mkWorld 4096 0 e') ∧
    t_view e' !! MAP_FAILED =
      Some (hook_record (Some demo_proc_name) demo_dladdr MAP_FAILED 8192 1 demo_stack).
Proof.
  apply (failed_mmap_is_recorded demo_dl 0 8192 3 34 (-1) 0 1 demo_stack 4096 4096 demo_start);
    [exact demo_start_inv|reflexivity|reflexivity|reflexivity|by_decide].
Defined.

Lemma failed_posix_memalign_is_recorded_witness :
  ∃ e' : demo_engine,
    memhook_posix_memalign demo_dl 77777 64 512 (mkSite 1 demo_stack (mret tt))
      (mkWorld 4096 0 demo_start) = Some ((12, 77777), mkWorld 4096 0 e') ∧
    t_view e' !! 77777 = Some (hook_record (Some demo_proc_name) demo_dladdr 77777 512 1 demo_stack).
Proof.
  apply (failed_posix_memalign_is_recorded demo_dl 77777 64 512 12 1 demo_stack 4096 4096 demo_start);
    [exact demo_start_inv|reflexivity|by_decide|by_decide|by_decide].
Defined.

Lemma operator_new_result_witness :
  do_cpp_alloc2 demo_dl 1 24 false (mkWorld 4096 1 demo_start) =
    Some (NewPtr 4096, mkWorld 4128 1 demo_start).
Proof. apply (operator_new_result demo_dl 1 24 false (mkWorld 4096 1 demo_start)); [done|lia]. Defined.

End Hooks.
