(* ===== verification/Interleaving.v ===== *)
(** * Hooks in several threads

    src/memhook/memhook.cpp and src/memhook/engine.cpp when several threads
    of a program are in interposed functions at the same time.

    An interposed function is a tree of atomic operations: calls of the C
    library, which has a lock of its own, and operations of the engine, each
    of which runs under [m_cache_mutex].  [HookRealloc] is two of these when
    the block moves.  The threads interleave in any order; while a thread is
    in a hook the tracer may allocate and free memory of its own at any time.

    The blocks the program owns are part of the state: a call that frees a
    block takes it away from the program when the call begins, a call that
    allocates one hands it over when it returns. *)
From S2P Require Import Prelude Boost TraceInfo Serialization Network Storage Unwinder Engine Hooks.

Module Interleaving.
Import Storage Unwinder Engine Hooks.

(** ** Interposed functions as trees of atomic operations *)

Inductive prog (H : Type) :=
| PRet (r : result)
| PLib {A : Type} (f : H → A * H) (k : A → prog H)
| PEvent (ev : event) (k : prog H)
| PLooping.                                (** the loop of [operator new] without fuel *)
Arguments PRet {_}.
Arguments PLib {_ _}.
Arguments PEvent {_}.
Arguments PLooping {_}.

Section programs.
Context {H : Type} (dl : DLFunctions H) (new_fuel : nat).
Context (now : Z) (stack : list unw_frame).

Definition alloc_prog (mem size : Z) (r : result) : prog H :=
  PEvent (EvAlloc mem size now stack) (PRet r).

(** [Engine::DoHookRealloc], an operation for each time it takes the mutex *)
Definition realloc_prog (old_mem new_mem new_size : Z) (r : result) : prog H :=
  if old_mem =? new_mem then PEvent (EvUpdateSize old_mem new_size) (PRet r)
  else PEvent (EvFree old_mem) (alloc_prog new_mem new_size r).

(** The loop of [do_cpp_alloc2], with the hook of [do_cpp_alloc] after it. *)
Fixpoint new_prog (fuel : nat) (size : Z) (nothrow : bool) (mem : Z) : prog H :=
  if mem =? 0 then
    match fuel with
    | O => PLooping
    | S fuel =>
        let fail := if nothrow then alloc_prog 0 size (RNew (NewPtr 0)) else PRet (RNew BadAlloc) in
        PLib (λ h, (dl_new_handler dl h, h)) (λ nh,
          match nh with
          | None => fail
          | Some nh => PLib nh (λ returned : bool,
              if returned then PLib (dl_malloc dl size) (new_prog fuel size nothrow) else fail)
          end)
    end
  else alloc_prog mem size (RNew (NewPtr mem)).

(** The interposed functions of memhook.cpp, for a thread that is not in a
    hook already. *)
Definition call_prog (c : @call H) : prog H :=
  let alloc f size := PLib f (λ mem, alloc_prog mem size (RInt mem)) in
  let free mem f := PEvent (EvFree mem) (PLib (λ h, (tt, f h)) (λ _, PRet RVoid)) in
  match c with
  | CFree mem => free mem (dl_free dl mem)
  | CMalloc size => alloc (dl_malloc dl size) size
  | CCalloc nmemb size => alloc (dl_calloc dl nmemb size) (u64 (nmemb * size))
  | CRealloc old_mem size =>
      PLib (dl_realloc dl old_mem size) (λ mem, realloc_prog old_mem mem size (RInt mem))
  | CMemalign alignment size => alloc (dl_memalign dl alignment size) size
  | CPosixMemalign memptr alignment size =>
      PLib (dl_posix_memalign dl memptr alignment size)
        (λ rs, alloc_prog rs.2 size (RPosix rs.1 rs.2))
  | CCfree mem => free mem (dl_cfree dl mem)
  | CAlignedAlloc alignment size => alloc (dl_aligned_alloc dl alignment size) size
  | CValloc size => alloc (dl_valloc dl size) size
  | CPvalloc size => alloc (dl_pvalloc dl size) size
  | CMmap addr length prot flags fd offset =>
      PLib (dl_mmap dl addr length prot flags fd offset) (λ mem,
        if (fd <? 0) && (Z.land flags MAP_STACK =? 0)
        then alloc_prog mem length (RInt mem) else PRet (RInt mem))
  | CMmap64 addr length prot flags fd offset =>
      PLib (dl_mmap64 dl addr length prot flags fd offset) (λ mem,
        if (fd <? 0) && (Z.land flags (Z.lor MAP_ANONYMOUS MAP_PRIVATE) =?
                          Z.lor MAP_ANONYMOUS MAP_PRIVATE)
        then alloc_prog mem length (RInt mem) else PRet (RInt mem))
  | CMunmap addr length =>
      PLib (dl_munmap dl addr length) (λ rs,
        if rs =? 0 then PEvent (EvFree addr) (PRet (RInt rs)) else PRet (RInt rs))
  | CMremap addr old_len new_len flags new_addr_arg =>
      PLib (dl_mremap dl addr old_len new_len flags new_addr_arg) (λ mem,
        if mem =? MAP_FAILED then PRet (RInt mem) else realloc_prog addr mem new_len (RInt mem))
  | CNew size nothrow => PLib (dl_malloc dl size) (new_prog new_fuel size nothrow)
  | CDelete mem => free mem (dl_free dl mem)
  | CDlclose handle =>
      PLib (dl_dlclose dl handle) (λ rs, PEvent EvFlushCallStackCache (PRet (RInt rs)))
  | CUntraced f => PLib f (λ r, PRet (RInt r))
  end.

(** A thread that runs alone. *)
Fixpoint run_prog {E} `{Tracer E} (p : prog H) (h : H) (e : E) : option (result * H * E) :=
  match p with
  | PRet r => Some (r, h, e)
  | PLib f k => let '(a, h) := f h in run_prog (k a) h e
  | PEvent ev k => match hook_event ev e with Some e => run_prog k h e | None => None end
  | PLooping => None
  end.
End programs.

(** ** Threads *)

(** A thread outside of the interposed functions, or in the middle of one;
    the block it was called with and its record, if the program owned it. *)
Inductive thread (H : Type) :=
| Idle
| Running (c : @call H) (now : Z) (stack : list unw_frame)
    (given : option (Z * BasicTraceInfo)) (p : prog H).
Arguments Idle {_}.
Arguments Running {_}.

Record conf (H E : Type) := mkConf {
  c_heap : H;
  c_engine : E;
  c_threads : list (thread H);
  c_owned : gmap Z BasicTraceInfo;         (** the program's blocks, with the records due *)
  c_inner : gset Z;                        (** the tracer's own blocks *)
}.
Arguments mkConf {_ _}.
Arguments c_heap {_ _}.
Arguments c_engine {_ _}.
Arguments c_threads {_ _}.
Arguments c_owned {_ _}.
Arguments c_inner {_ _}.

Inductive action (H : Type) :=
| Start (t : nat) (c : @call H) (now : Z) (stack : list unw_frame)
| Step (t : nat)
| Return (t : nat)
| InnerAlloc (size : Z)
| InnerFree (mem : Z).
Arguments Start {_}.
Arguments Step {_}.
Arguments Return {_}.
Arguments InnerAlloc {_}.
Arguments InnerFree {_}.

(** An action is not possible, or is undefined behaviour of the engine, or
    leads to a new state. *)
Inductive outcome (H E : Type) := Disabled | Fault | Next (c : conf H E).
Arguments Disabled {_ _}.
Arguments Fault {_ _}.
Arguments Next {_ _}.

(** The block a call releases. *)
Definition arg_block {H} (c : @call H) : Z :=
  match c with
  | CFree mem | CCfree mem | CDelete mem => mem
  | CRealloc old_mem _ => old_mem
  | CMunmap addr _ => addr
  | CMremap addr _ _ _ _ => addr
  | _ => 0
  end.

Section interleaving.
Context {H E : Type} `{!Tracer E} (dl : DLFunctions H) (new_fuel : nat).
Context (get_proc_name : option (Z → option (bytes * Z))).
Context (dladdr : Z → option (Z * option bytes)).

(** What the program owns when a call returns. *)
Definition handed_over (c : @call H) (now : Z) (stack : list unw_frame)
    (given : option (Z * BasicTraceInfo)) (r : result) : option (Z * BasicTraceInfo) :=
  match call_event (TCall c now stack []) r with
  | Some (EvAlloc mem n now stack) =>
      if mem =? 0 then None else Some (mem, hook_record get_proc_name dladdr mem n now stack)
  | Some (EvFree _) => None
  | Some (EvRealloc old_mem new_mem n now stack) =>
      if new_mem =? 0 then given
      else if old_mem =? new_mem then (λ b, (b.1, ti_set_memsize n b.2)) <$> given
      else Some (new_mem, hook_record get_proc_name dladdr new_mem n now stack)
  | _ => given
  end.

Definition give {A} (b : option (Z * A)) (m : gmap Z A) : gmap Z A :=
  match b with Some (a, x) => <[a := x]> m | None => m end.

Definition step_prog (p : prog H) (h : H) (e : E) : option (option (prog H * H * E)) :=
  match p with
  | PLib f k => let '(a, h) := f h in Some (Some (k a, h, e))
  | PEvent ev k =>
      match hook_event ev e with Some e => Some (Some (k, h, e)) | None => Some None end
  | PRet _ | PLooping => None
  end.

Definition act (a : action H) (c : conf H E) : outcome H E :=
  let '(mkConf h e ts owned inner) := c in
  match a with
  | Start t cl now stack =>
      match ts !! t with
      | Some Idle =>
          let a := arg_block cl in
          let run given owned :=
            Next (mkConf h e (<[t := Running cl now stack given (call_prog dl new_fuel now stack cl)]> ts)
                    owned inner) in
          if a =? 0 then run None owned
          else match owned !! a with
               | Some r => run (Some (a, r)) (delete a owned)
               | None => Disabled
               end
      | _ => Disabled
      end
  | Step t =>
      match ts !! t with
      | Some (Running cl now stack given p) =>
          match step_prog p h e with
          | Some (Some (p, h, e)) => Next (mkConf h e (<[t := Running cl now stack given p]> ts) owned inner)
          | Some None => Fault
          | None => Disabled
          end
      | _ => Disabled
      end
  | Return t =>
      match ts !! t with
      | Some (Running cl now stack given (PRet r)) =>
          Next (mkConf h e (<[t := Idle]> ts) (give (handed_over cl now stack given r) owned) inner)
      | _ => Disabled
      end
  | InnerAlloc size =>
      let '(mem, h) := dl_malloc dl size h in
      Next (mkConf h e ts owned (if mem =? 0 then inner else {[mem]} ∪ inner))
  | InnerFree mem =>
      if decide (mem ∈ inner) then Next (mkConf (dl_free dl mem h) e ts owned (inner ∖ {[mem]}))
      else Disabled
  end.

Fixpoint acts (l : list (action H)) (c : conf H E) : outcome H E :=
  match l with
  | [] => Next c
  | a :: l => match act a c with Next c => acts l c | o => o end
  end.

Definition start_conf (n : nat) (h : H) (e : E) : conf H E := mkConf h e (replicate n Idle) ∅ ∅.

End interleaving.

(** ** What the C library promises *)

(** [f] hands out a block of [size] bytes that is not in use, or fails. *)
Definition allocates {H} (live : H → gmap Z Z) (f : H → Z * H) (size : Z) : Prop :=
  ∀ h, let '(mem, h') := f h in
  mem = 0 ∧ live h' = live h ∨
  mem ≠ 0 ∧ in_u 64 mem ∧ live h !! mem = None ∧ live h' = <[mem := size]> (live h).

(** [f] takes the block at [mem] back; nothing is at the null pointer. *)
Definition releases {H} (live : H → gmap Z Z) (f : H → H) (mem : Z) : Prop :=
  ∀ h, mem = 0 ∧ live (f h) = live h ∨ mem ≠ 0 ∧ live (f h) = delete mem (live h).

Class AllocatorLaws {H : Type} (dl : DLFunctions H) := {
  al_live : H → gmap Z Z;
  al_malloc size : allocates al_live (dl_malloc dl size) size;
  al_calloc nmemb size : allocates al_live (dl_calloc dl nmemb size) (u64 (nmemb * size));
  al_memalign alignment size : allocates al_live (dl_memalign dl alignment size) size;
  al_aligned_alloc alignment size : allocates al_live (dl_aligned_alloc dl alignment size) size;
  al_valloc size : allocates al_live (dl_valloc dl size) size;
  al_pvalloc size : allocates al_live (dl_pvalloc dl size) size;
  al_free mem : releases al_live (dl_free dl mem) mem;
  al_cfree mem : releases al_live (dl_cfree dl mem) mem;
  (** a new-handler releases memory of its own only *)
  al_new_handler h nh h' : dl_new_handler dl h = Some nh → al_live (nh h').2 = al_live h';
}.

(** ** Safe programs *)

Section safety.
Context {H E : Type} `{TL : TracerLaws E get_proc_name dladdr}.
Context (dl : DLFunctions H) `{AL : !AllocatorLaws dl} (new_fuel : nat).

Abbreviation rec_of := (hook_record get_proc_name dladdr).

(** The block a thread holds in the middle of a call, with its record if
    there is one. *)
Abbreviation hold := (option (Z * option BasicTraceInfo)).

(** A call of the library: what happens to the heap and to the block. *)
Definition lib_trans (l : gmap Z Z) (o : hold) (l' : gmap Z Z) (o' : hold) : Prop :=
  o' = o ∧ l' = l ∨
  (∃ mem n, o = None ∧ o' = Some (mem, None) ∧ mem ≠ 0 ∧ in_u 64 mem ∧ l !! mem = None ∧
    l' = <[mem := n]> l) ∨
  (∃ mem, o = Some (mem, None) ∧ o' = None ∧ l' = delete mem l).

(** A program that, given the block [o], touches no other block, keeps the
    record of the block and the block itself in step, and ends with
    [post]. *)
Fixpoint safe (post : result → hold → Prop) (p : prog H) (o : hold) : Prop :=
  match p with
  | PRet r => post r o
  | PLib f k => ∀ h, let '(a, h') := f h in
      ∃ o', lib_trans (al_live h) o (al_live h') o' ∧ safe post (k a) o'
  | PEvent (EvAlloc mem n now stack) k =>
      mem = 0 ∧ safe post k o ∨
      mem ≠ 0 ∧ o = Some (mem, None) ∧
        add_ok mem n (hook_callstack get_proc_name dladdr stack) now ∧
        Forall (frame_agrees get_proc_name) stack ∧
        safe post k (Some (mem, Some (rec_of mem n now stack)))
  | PEvent (EvFree mem) k =>
      mem = 0 ∧ safe post k o ∨
      mem ≠ 0 ∧ in_u 64 mem ∧ (∃ r, o = Some (mem, Some r)) ∧ safe post k (Some (mem, None))
  | PEvent EvFlushCallStackCache k => safe post k o
  | PEvent (EvRealloc _ _ _ _ _) _ | PEvent (EvUpdateSize _ _) _ => False
  | PLooping => True
  end.

(** A call ends holding the block it hands over, recorded. *)
Definition call_post (c : @call H) now stack given (r : result) (o : hold) : Prop :=
  o = (λ b, (b.1, Some b.2)) <$> handed_over get_proc_name dladdr c now stack given r.

(** The calls that are safe in several threads, and the size they are
    recorded with. *)
Definition threadsafe (c : @call H) : option Z :=
  match c with
  | CMalloc size | CMemalign _ size | CAlignedAlloc _ size | CValloc size | CPvalloc size
  | CNew size _ => Some size
  | CCalloc nmemb size => Some (u64 (nmemb * size))
  | CFree _ | CCfree _ | CDelete _ => Some 0
  | _ => None
  end.

(** Sizes, times and stacks that can be recorded. *)
Definition site_ok (size now : Z) (stack : list unw_frame) : Prop :=
  add_ok 0 size (hook_callstack get_proc_name dladdr stack) now ∧
  Forall (frame_agrees get_proc_name) stack.

#[export] Instance site_ok_dec size now stack : Decision (site_ok size now stack).
Proof. unfold site_ok; apply _. Defined.

Lemma add_ok_any mem n cs ts : add_ok 0 n cs ts → in_u 64 mem → add_ok mem n cs ts.
Proof.
  unfold add_ok, Network.request_ok, TraceInfo.base_ok. simpl. intros (? & (_ & ? & ?) & ? & ?) ?.
  split_and!; try done.
Qed.

Lemma safe_alloc_hook post mem size now stack r :
  site_ok size now stack → mem ≠ 0 → in_u 64 mem →
  post r (Some (mem, Some (rec_of mem size now stack))) →
  safe post (alloc_prog now stack mem size r) (Some (mem, None)).
Proof.
  intros [Hadd Hst] Hmem Hin Hpost. right. split_and!; try done. by apply add_ok_any.
Qed.

Lemma safe_alloc post f size k :
  allocates al_live f size →
  safe post (k 0) None →
  (∀ mem, mem ≠ 0 → in_u 64 mem → safe post (k mem) (Some (mem, None))) →
  safe post (PLib f k) None.
Proof.
  intros Hf Hz Hk h. specialize (Hf h). destruct (f h) as [mem h'].
  destruct Hf as [[-> ?]|(? & ? & ? & ?)].
  - exists None. split; [by left|done].
  - exists (Some (mem, None)). split; [|by apply Hk]. right; left. by exists mem, size.
Qed.

Lemma safe_free post f mem r :
  releases al_live f mem → in_u 64 mem → post RVoid None →
  safe post (PEvent (EvFree mem) (PLib (λ h, (tt, f h)) (λ _, PRet RVoid)))
    (if mem =? 0 then None else Some (mem, Some r)).
Proof.
  intros Hf Hin Hpost. destruct (mem =? 0) eqn:Hm; zify_bool; [left|right]; split_and!; try done.
  - intros h. exists None. destruct (Hf h) as [[_ Hl]|[? _]]; [|done]. split; [by left|done].
  - by exists r.
  - intros h. exists None. destruct (Hf h) as [[? _]|[_ Hl]]; [done|]. split; [|done].
    right; right. by exists mem.
Qed.

Lemma safe_new_prog now stack nothrow size fuel :
  site_ok size now stack →
  let post := call_post (CNew size nothrow) now stack None in
  safe post (new_prog dl now stack fuel size nothrow 0) None ∧
  (∀ mem, mem ≠ 0 → in_u 64 mem →
    safe post (new_prog dl now stack fuel size nothrow mem) (Some (mem, None))).
Proof.
  intros Hsite post.
  assert (∀ fuel mem, mem ≠ 0 → in_u 64 mem →
    safe post (new_prog dl now stack fuel size nothrow mem) (Some (mem, None))) as Hnew.
  { intros fl mem Hmem Hin. destruct fl; simpl; rewrite (proj2 (Z.eqb_neq mem 0)) by done;
      (apply safe_alloc_hook; [done..|]); unfold post, call_post, handed_over; simpl;
      by rewrite (proj2 (Z.eqb_neq mem 0)). }
  split; [|apply Hnew]. induction fuel as [|fuel IH]; [done|]. cbn [new_prog].
  change (0 =? 0) with true. cbv iota.
  set (fail := if nothrow then _ else _).
  assert (safe post fail None) as Hfail by (unfold fail; by destruct nothrow; [left|]).
  intros h. exists None. split; [by left|].
  destruct (dl_new_handler dl h) as [nh|] eqn:Hnh; [|done]. intros h'.
  pose proof (al_new_handler h nh h' Hnh) as Hl. destruct (nh h') as [ret h2]. simpl in Hl.
  exists None. split; [by left|]. destruct ret; [|done].
  apply (safe_alloc _ _ size); [apply al_malloc|done|apply Hnew].
Qed.

(** What a call is given by the program. *)
Definition given_ok (c : @call H) (given : option (Z * BasicTraceInfo)) : Prop :=
  in_u 64 (arg_block c) ∧
  if arg_block c =? 0 then given = None else ∃ r, given = Some (arg_block c, r).

Lemma safe_call c now stack given size :
  threadsafe c = Some size → site_ok size now stack → given_ok c given →
  safe (call_post c now stack given) (call_prog dl new_fuel now stack c)
    ((λ b, (b.1, Some b.2)) <$> given).
Proof.
  intros Hc Hsite [Hin Hg].
  assert (∀ f c', (∀ mem, call_event (TCall c' now stack []) (RInt mem) =
      Some (EvAlloc mem size now stack)) → allocates al_live f size →
    safe (call_post c' now stack None)
      (PLib f (λ mem, alloc_prog now stack mem size (RInt mem))) None) as Halloc.
  { intros f c' Hev Hf. apply (safe_alloc _ _ size); [done| |].
    - left. split; [done|]. simpl. unfold call_post, handed_over. by rewrite Hev.
    - intros mem Hmem Hi. apply safe_alloc_hook; [done..|]. unfold call_post, handed_over.
      rewrite Hev. by rewrite (proj2 (Z.eqb_neq mem 0)). }
  assert (∀ f c' mem, (if mem =? 0 then given = None else ∃ r, given = Some (mem, r)) →
      in_u 64 mem → (∀ r, call_event (TCall c' now stack []) r = Some (EvFree mem)) →
      releases al_live f mem →
    safe (call_post c' now stack given)
      (PEvent (EvFree mem) (PLib (λ h, (tt, f h)) (λ _, PRet RVoid)))
      ((λ b, (b.1, Some b.2)) <$> given)) as Hfree.
  { intros f c' mem Hgm Hi Hev Hf.
    assert (call_post c' now stack given RVoid None).
    { unfold call_post, handed_over. by rewrite Hev. }
    destruct (mem =? 0) eqn:Hm.
    - subst given. pose proof (safe_free (call_post c' now stack None) f mem
        (newBasicTraceInfo 0 0 0 [])) as Hs. rewrite Hm in Hs. by apply Hs.
    - destruct Hgm as [r ->]. pose proof (safe_free (call_post c' now stack (Some (mem, r))) f mem r) as Hs.
      rewrite Hm in Hs. by apply Hs. }
  destruct c; simplify_eq/=; subst;
    try (apply Halloc; [done|]); try (by apply Hfree; [..|auto using al_free, al_cfree]);
    [apply al_malloc|apply al_calloc|apply al_memalign|apply al_aligned_alloc|apply al_valloc|apply al_pvalloc|].
  destruct (safe_new_prog now stack nothrow size new_fuel Hsite) as [? ?].
  by apply (safe_alloc _ _ size); [apply al_malloc|..].
Qed.

(** ** The invariant

    Every block has one owner: the program, a thread in the middle of a call,
    or the tracer.  The tracer's records are those of the blocks that have
    one according to the map of owners. *)

Inductive party := Program | InCall (t : nat) | Own.

#[local] Instance party_eq_dec : EqDecision party.
Proof. solve_decision. Defined.

Abbreviation owners := (gmap Z (party * option BasicTraceInfo)).

(** [q] owns the block [o] and no other. *)
Definition owns_only (g : owners) (q : party) (o : hold) : Prop :=
  ∀ a x, g !! a = Some (q, x) ↔ o = Some (a, x).

Definition thread_ok (th : thread H) (o : hold) : Prop :=
  match th with
  | Idle => o = None
  | Running c now stack given p => safe (call_post c now stack given) p o
  end.

Record inv (c : conf H E) (g : owners) : Prop := {
  i_engine : t_inv (c_engine c);
  i_live a x : g !! a = Some x → is_Some (al_live (c_heap c) !! a) ∧ a ≠ 0 ∧ in_u 64 a;
  i_view a : t_view (c_engine c) !! a = g !! a ≫= snd;
  i_owned a x : g !! a = Some (Program, x) ↔ ∃ r, x = Some r ∧ c_owned c !! a = Some r;
  i_inner a x : g !! a = Some (Own, x) ↔ x = None ∧ a ∈ c_inner c;
  i_thread t th : c_threads c !! t = Some th → ∃ o, owns_only g (InCall t) o ∧ thread_ok th o;
  i_bound t a x : g !! a = Some (InCall t, x) → is_Some (c_threads c !! t);
}.

(** A change of the block a thread holds. *)
Definition put (q : party) (o : hold) (g : owners) : owners :=
  match o with Some (a, x) => <[a := (q, x)]> g | None => g end.
Definition drop_block (o : hold) (g : owners) : owners :=
  match o with Some (a, _) => delete a g | None => g end.
Definition move_block (q : party) (o o' : hold) (g : owners) : owners :=
  put q o' (drop_block o g).

(** The block [o'] is new to the map or the one that was held. *)
Definition fresh_for (g : owners) (o o' : hold) : Prop :=
  ∀ a x, o' = Some (a, x) → g !! a = None ∨ ∃ y, o = Some (a, y).

Lemma move_block_same q o o' g :
  owns_only g q o → fresh_for g o o' → owns_only (move_block q o o' g) q o'.
Proof.
  intros Ho Hf a x. unfold move_block, put, drop_block.
  destruct o as [[a1 x1]|], o' as [[a2 x2]|];
    rewrite ?lookup_insert, ?lookup_delete; repeat case_decide;
    pose proof (Ho a x); naive_solver.
Qed.

Lemma move_block_other q q' o o' g a x :
  owns_only g q o → fresh_for g o o' → q' ≠ q →
  move_block q o o' g !! a = Some (q', x) ↔ g !! a = Some (q', x).
Proof.
  intros Ho Hf Hq. unfold move_block, put, drop_block.
  destruct o as [[a1 x1]|], o' as [[a2 x2]|]; try done;
    rewrite ?lookup_insert, ?lookup_delete; repeat case_decide; subst; try done;
    try (pose proof (proj2 (Ho a x1) eq_refl)); try (pose proof (proj2 (Ho a1 x1) eq_refl));
    try (pose proof (Hf a x2 eq_refl)); naive_solver.
Qed.

Lemma move_block_lookup q o o' g a :
  (∀ x, o ≠ Some (a, x)) → (∀ x, o' ≠ Some (a, x)) → move_block q o o' g !! a = g !! a.
Proof.
  intros H1 H2. unfold move_block, put, drop_block.
  destruct o as [[a1 x1]|], o' as [[a2 x2]|];
    rewrite ?lookup_insert, ?lookup_delete; repeat case_decide; naive_solver.
Qed.

(** A thread goes from one point of its call to the next. *)
Lemma inv_thread c g t th o h' e' th' o' :
  inv c g → c_threads c !! t = Some th → owns_only g (InCall t) o → fresh_for g o o' →
  let g' := move_block (InCall t) o o' g in
  t_inv e' → thread_ok th' o' →
  (∀ a x, g' !! a = Some x → is_Some (al_live h' !! a) ∧ a ≠ 0 ∧ in_u 64 a) →
  (∀ a, t_view e' !! a = g' !! a ≫= snd) →
  inv (mkConf h' e' (<[t := th']> (c_threads c)) (c_owned c) (c_inner c)) g'.
Proof.
  intros [] Ht Ho Hf g' He' Hth Hlive Hview. split; simpl; try done.
  - intros a x. unfold g'. by rewrite (move_block_other _ Program).
  - intros a x. unfold g'. by rewrite (move_block_other _ Own).
  - intros t' th2. destruct (decide (t' = t)) as [->|Hne].
    + rewrite list_lookup_insert_eq by (by eapply lookup_lt_Some). intros [= <-].
      exists o'. split; [by apply move_block_same|done].
    + rewrite list_lookup_insert_ne by done. intros Hth2.
      destruct (i_thread0 t' th2 Hth2) as (o2 & Ho2 & ?). exists o2. split; [|done].
      intros a x. unfold g'. rewrite (move_block_other _ (InCall t')); [apply Ho2|done|done|congruence].
  - intros t' a x. destruct (decide (t' = t)) as [->|Hne]; intros Hx.
    + rewrite list_lookup_insert_eq; [done|]. by eapply lookup_lt_Some.
    + rewrite list_lookup_insert_ne by done. eapply i_bound0. unfold g' in Hx.
      rewrite move_block_other in Hx; [done..|congruence].
Qed.

Lemma move_block_id q o g : owns_only g q o → move_block q o o g = g.
Proof.
  intros Ho. destruct o as [[a x]|]; [|done]. unfold move_block. simpl.
  rewrite insert_delete_eq. apply insert_id. by apply Ho.
Qed.

(** The records after the block that is held has changed from [o] to [o']. *)
Definition held_view (m : gmap Z BasicTraceInfo) (o o' : hold) (a : Z) : option BasicTraceInfo :=
  match o' with
  | Some (b, x) => if decide (a = b) then x else m !! a
  | None => match o with
            | Some (b, _) => if decide (a = b) then None else m !! a
            | None => m !! a
            end
  end.

Lemma move_block_view q (o o' : hold) (g : owners) (m m' : gmap Z BasicTraceInfo) :
  (∀ a, m !! a = g !! a ≫= snd) →
  (∀ a, m' !! a = held_view m o o' a) →
  (∀ a x b y, o = Some (a, x) → o' = Some (b, y) → a = b) →
  ∀ a, m' !! a = move_block q o o' g !! a ≫= snd.
Proof.
  intros Hm Hm' Hsame a. rewrite Hm'. unfold held_view, move_block, put, drop_block.
  destruct o as [[b x]|], o' as [[b' x']|];
    rewrite ?lookup_insert, ?lookup_delete, ?Hm; repeat case_decide; simplify_eq/=; try done.
  exfalso. naive_solver.
Qed.

Lemma inv_lib c g t th o h' th' o' :
  inv c g → c_threads c !! t = Some th → owns_only g (InCall t) o →
  lib_trans (al_live (c_heap c)) o (al_live h') o' → thread_ok th' o' →
  ∃ g', inv (mkConf h' (c_engine c) (<[t := th']> (c_threads c)) (c_owned c) (c_inner c)) g'.
Proof.
  intros Hinv Ht Ho Htr Hth'. exists (move_block (InCall t) o o' g).
  pose proof (i_live c g Hinv) as Hlive. pose proof (i_view c g Hinv) as Hview.
  destruct Htr as [[-> Hl]|[(mem & n & -> & -> & H1 & H2 & Hnone & Hl)|(mem & -> & -> & Hl)]].
  - eapply inv_thread; [done..| | | | |]; [|by destruct Hinv|done|..]; rewrite ?move_block_id by done.
    + intros a x ->. right. by exists x.
    + intros a x. rewrite Hl. apply Hlive.
    + done.
  - assert (g !! mem = None) as Hg.
    { destruct (g !! mem) as [x|] eqn:Hx; [|done]. apply Hlive in Hx as [[? Hx] _]. congruence. }
    eapply inv_thread; [done..| | | | |]; [|by destruct Hinv|done|..].
    + intros a x [= <- <-]. by left.
    + intros a x. unfold move_block. simpl. rewrite Hl, !lookup_insert.
      case_decide; [subst|apply Hlive]. intros _. split_and!; [by eexists|done|done].
    + apply (move_block_view _ _ _ _ (t_view (c_engine c))); [done| |naive_solver].
      intros a. unfold held_view. case_decide; [subst|done]. by rewrite Hview, Hg.
  - eapply inv_thread; [done..| | | | |]; [|by destruct Hinv|done|..].
    + done.
    + intros a x. unfold move_block. simpl. rewrite Hl, !lookup_delete.
      case_decide; [done|apply Hlive].
    + apply (move_block_view _ _ _ _ (t_view (c_engine c))); [done| |naive_solver].
      intros a. unfold held_view. case_decide; [subst|done]. by rewrite Hview, (proj2 (Ho mem None)).
Qed.

Lemma inv_event c g t th o ev th' o' :
  inv c g → c_threads c !! t = Some th → owns_only g (InCall t) o →
  thread_ok th' o' → event_ok get_proc_name dladdr (t_view (c_engine c)) ev →
  fresh_for g o o' → (∀ a x, o' = Some (a, x) → ∃ y, o = Some (a, y)) →
  (∀ a, live_event get_proc_name dladdr (t_view (c_engine c)) ev !! a =
     held_view (t_view (c_engine c)) o o' a) →
  ∃ e' g', hook_event ev (c_engine c) = Some e' ∧
    inv (mkConf (c_heap c) e' (<[t := th']> (c_threads c)) (c_owned c) (c_inner c)) g'.
Proof.
  intros Hinv Ht Ho Hth' Hev Hf Hsame Hv.
  destruct (t_event _ ev (i_engine c g Hinv) Hev) as (e' & He' & Hi' & Hv').
  exists e', (move_block (InCall t) o o' g). split; [done|].
  eapply inv_thread; [done..| |].
  - intros a x Hx. assert (∃ x', g !! a = Some x') as [x' Hx'].
    { destruct (g !! a) as [x'|] eqn:Hx'; [by eexists|].
      rewrite move_block_lookup in Hx; [congruence|..]; intros y Hy;
        [|apply Hsame in Hy as [z Hy]]; apply Ho in Hy; congruence. }
    by eapply (i_live c g Hinv).
  - apply (move_block_view _ _ _ _ (t_view (c_engine c))); [by destruct Hinv| |naive_solver].
    intros a. by rewrite Hv', Hv.
Qed.

(** *** The actions *)

(** An operation of the engine in a safe program: it does not fail, and it
    changes the record of the block that is held. *)
Lemma safe_event c g t o ev post k :
  inv c g → owns_only g (InCall t) o → safe post (PEvent ev k) o →
  ∃ o', safe post k o' ∧ event_ok get_proc_name dladdr (t_view (c_engine c)) ev ∧
    (∀ a x, o' = Some (a, x) → ∃ y, o = Some (a, y)) ∧
    ∀ a, live_event get_proc_name dladdr (t_view (c_engine c)) ev !! a =
      held_view (t_view (c_engine c)) o o' a.
Proof.
  intros Hinv Ho Hsafe.
  assert (∀ b x, o = Some (b, x) → t_view (c_engine c) !! b = x) as Hrec.
  { intros b x Hb. apply Ho in Hb. by rewrite (i_view _ _ Hinv), Hb. }
  assert (∀ a, t_view (c_engine c) !! a = held_view (t_view (c_engine c)) o o a) as Hid.
  { intros a. unfold held_view. destruct o as [[b x]|]; [|done]. case_decide; [subst|done]. by apply Hrec. }
  destruct ev as [mem n nw st|mem|old new n nw st|mem n|]; simpl in *; try done.
  - destruct Hsafe as [[-> Hs]|(Hm & -> & Hadd & Hst & Hs)].
    + exists o. split_and!; [done|by left|by eauto|done].
    + eexists. split; [exact Hs|]. split_and!.
      * right. split_and!; [by apply Hrec|done..].
      * intros a x [= <- <-]. by eexists.
      * intros a. unfold live_alloc, held_view. rewrite (proj2 (Z.eqb_neq mem 0)) by done.
        rewrite lookup_insert. by repeat case_decide.
  - destruct Hsafe as [[-> Hs]|(Hm & Hin & [r ->] & Hs)].
    + exists o. split_and!; [done|by_decide|by eauto|done].
    + eexists. split; [exact Hs|]. split_and!; [done| |].
      * intros a x [= <- <-]. by eexists.
      * intros a. unfold live_free, held_view. rewrite (proj2 (Z.eqb_neq mem 0)) by done.
        rewrite lookup_delete. by repeat case_decide.
  - exists o. split_and!; [done..|by eauto|done].
Qed.

(** Either the action is not possible or it leads to a good state. *)
Definition preserved (out : outcome H E) : Prop := out = Disabled ∨ ∃ c g, out = Next c ∧ inv c g.

Lemma preserved_Next c g : inv c g → preserved (Next c).
Proof. intros. right. by exists c, g. Qed.

Lemma inv_Step t c g : inv c g → preserved (act dl new_fuel get_proc_name dladdr (Step t) c).
Proof.
  intros Hinv. destruct c as [h e ts owned inner]. simpl.
  destruct (ts !! t) as [[|cl now stack given p]|] eqn:Ht; [by left| |by left].
  destruct (i_thread _ _ Hinv t _ Ht) as (o & Ho & Hsafe). unfold thread_ok in Hsafe.
  destruct p as [r|A f k|ev k|]; cbn [step_prog]; [by left| | |by left].
  - simpl in Hsafe. specialize (Hsafe h). destruct (f h) as [a h'].
    destruct Hsafe as (o' & Htr & Hsafe).
    destruct (inv_lib (mkConf h e ts owned inner) g t _ o h'
      (Running cl now stack given (k a)) o' Hinv Ht Ho Htr Hsafe) as [g' ?]. by eapply preserved_Next.
  - destruct (safe_event _ g t o ev _ k Hinv Ho Hsafe) as (o' & Hs & Hev & Hsame & Hv).
    destruct (inv_event (mkConf h e ts owned inner) g t _ o ev
      (Running cl now stack given k) o' Hinv Ht Ho Hs Hev) as (e' & g' & He' & ?); [|done..|].
    + intros a x Hx. right. by apply (Hsame a x).
    + simpl in He'. rewrite He'. by eapply preserved_Next.
Qed.

(** A thread changes while it holds the same block, or nothing. *)
Lemma inv_same c g t th o th' :
  inv c g → c_threads c !! t = Some th → owns_only g (InCall t) o → thread_ok th' o →
  inv (mkConf (c_heap c) (c_engine c) (<[t := th']> (c_threads c)) (c_owned c) (c_inner c)) g.
Proof.
  intros Hinv Ht Ho Hth. rewrite <- (move_block_id (InCall t) o g) by done.
  pose proof (i_live _ _ Hinv). pose proof (i_view _ _ Hinv). pose proof (i_engine _ _ Hinv).
  apply (inv_thread c g t th o); rewrite ?move_block_id by done; [done..| |done|done|done|done].
  intros a x Hx. right. by exists x.
Qed.

(** A recorded block changes hands between the program and a thread. *)
Lemma inv_pass c g t th th' a r q (owned' : gmap Z BasicTraceInfo) :
  inv c g → c_threads c !! t = Some th →
  (q = InCall t ∧ g !! a = Some (Program, Some r) ∧ owns_only g (InCall t) None ∧
     thread_ok th' (Some (a, Some r)) ∧ owned' = delete a (c_owned c) ∨
   q = Program ∧ owns_only g (InCall t) (Some (a, Some r)) ∧ thread_ok th' None ∧
     owned' = <[a := r]> (c_owned c)) →
  inv (mkConf (c_heap c) (c_engine c) (<[t := th']> (c_threads c)) owned' (c_inner c))
    (<[a := (q, Some r)]> g).
Proof.
  intros Hinv Ht Hcase. assert (∃ q', g !! a = Some (q', Some r) ∧ q' ≠ Own ∧
    (∀ t', t' ≠ t → q' ≠ InCall t' ∧ q ≠ InCall t')) as (q' & Ha & Hown & Hne).
  { destruct Hcase as [(-> & Ha & _)|(-> & Ho & _)]; eexists; (split; [first [exact Ha|by apply Ho]|]);
      split; naive_solver. }
  assert (q ≠ Own) by naive_solver. destruct Hinv. split; simpl; try done.
  - intros b x. rewrite lookup_insert. case_decide; [subst; eauto|apply i_live0].
  - intros b. rewrite lookup_insert, i_view0. case_decide; [subst; by rewrite Ha|done].
  - intros b x. rewrite lookup_insert.
    destruct Hcase as [(-> & _ & _ & _ & ->)|(-> & Ho & _ & ->)];
      rewrite ?lookup_delete, ?lookup_insert; case_decide; [naive_solver|apply i_owned0|naive_solver|apply i_owned0].
  - intros b x. rewrite lookup_insert. case_decide; [subst|apply i_inner0].
    split; [naive_solver|]. intros Hb. apply i_inner0 in Hb. congruence.
  - intros t' th2. destruct (decide (t' = t)) as [->|Hne'].
    + rewrite list_lookup_insert_eq by (by eapply lookup_lt_Some). intros [= <-].
      destruct Hcase as [(-> & _ & Ho & ? & _)|(-> & Ho & ? & _)]; eexists; (split; [|done]);
        intros b x; rewrite lookup_insert; specialize (Ho b x); case_decide; naive_solver.
    + rewrite list_lookup_insert_ne by done. intros Hth2.
      destruct (i_thread0 t' th2 Hth2) as (o2 & Ho2 & ?). exists o2. split; [|done].
      intros b x. rewrite lookup_insert. specialize (Ho2 b x). destruct (Hne t' Hne').
      case_decide; naive_solver.
  - intros t' b x Hb. destruct (decide (t' = t)) as [->|Hne'].
    { rewrite list_lookup_insert_eq; [done|]. by eapply lookup_lt_Some. }
    rewrite list_lookup_insert_ne by done. rewrite lookup_insert in Hb.
    case_decide; [destruct (Hne t' Hne'); congruence|by eauto].
Qed.

Definition action_ok (a : action H) : Prop :=
  match a with
  | Start _ c now stack =>
      match threadsafe c with Some size => site_ok size now stack | None => False end
  | _ => True
  end.

#[export] Instance action_ok_dec a : Decision (action_ok a).
Proof. destruct a as [t c ? ?| | | |]; simpl; [destruct (threadsafe c)|..]; apply _. Defined.

Lemma inv_Start t cl now stack c g :
  inv c g → action_ok (Start t cl now stack) →
  preserved (act dl new_fuel get_proc_name dladdr (Start t cl now stack) c).
Proof.
  intros Hinv Hok. simpl in Hok. destruct (threadsafe cl) as [size|] eqn:Hts; [|done].
  destruct c as [h e ts owned inner]. simpl.
  destruct (ts !! t) as [[|]|] eqn:Ht; [|by left..].
  destruct (i_thread _ _ Hinv t _ Ht) as (o & Ho & Hidle). simpl in Hidle. subst o.
  pose proof (λ given, safe_call cl now stack given size Hts Hok) as Hsafe. unfold given_ok in Hsafe.
  destruct (arg_block cl =? 0) eqn:Ha.
  - apply (preserved_Next _ g). eapply (inv_same (mkConf h e ts owned inner)); [done..|].
    apply (Hsafe None). split; [|done]. zify_bool. rewrite Ha. by_decide.
  - destruct (owned !! arg_block cl) as [r|] eqn:Hr; [|by left].
    assert (g !! arg_block cl = Some (Program, Some r)) as Hg.
    { apply (i_owned _ _ Hinv). by exists r. }
    eapply preserved_Next. eapply (inv_pass (mkConf h e ts owned inner)); [done..|]. left.
    split_and!; [done|done|done| |done]. apply (Hsafe (Some (arg_block cl, r))).
    split; [|by exists r]. by apply (i_live _ _ Hinv) in Hg as (_ & _ & ?).
Qed.

Lemma inv_Return t c g :
  inv c g → preserved (act dl new_fuel get_proc_name dladdr (Return t) c).
Proof.
  intros Hinv. destruct c as [h e ts owned inner]. simpl.
  destruct (ts !! t) as [[|cl now stack given [r|? ? ?|? ?|]]|] eqn:Ht; try by left.
  destruct (i_thread _ _ Hinv t _ Ht) as (o & Ho & Hpost). simpl in Hpost. unfold call_post in Hpost.
  destruct (handed_over _ _ cl now stack given r) as [[a b]|]; simpl in Hpost; subst o.
  - eapply preserved_Next. eapply (inv_pass (mkConf h e ts owned inner)); [done..|]. right.
    by split_and!.
  - eapply preserved_Next. by eapply (inv_same (mkConf h e ts owned inner)).
Qed.

Lemma inv_InnerAlloc size c g :
  inv c g → preserved (act dl new_fuel get_proc_name dladdr (InnerAlloc size) c).
Proof.
  intros Hinv. destruct c as [h e ts owned inner]. simpl.
  pose proof (al_malloc size h) as Hm. destruct (dl_malloc dl size h) as [mem h'].
  destruct Hm as [[-> Hl]|(Hmem & Hin & Hnone & Hl)].
  - apply (preserved_Next _ g). destruct Hinv. split; simpl in *; try done. by rewrite Hl.
  - rewrite (proj2 (Z.eqb_neq mem 0)) by done.
    assert (g !! mem = None) as Hg.
    { destruct (g !! mem) as [x|] eqn:Hx; [|done]. apply (i_live _ _ Hinv) in Hx as [[? Hx] _].
      simpl in Hx. congruence. }
    apply (preserved_Next _ (<[mem := (Own, None)]> g)). destruct Hinv. split; simpl in *; try done.
    + intros a x. rewrite Hl, !lookup_insert. case_decide; [subst|apply i_live0]. by eauto.
    + intros a. rewrite lookup_insert, i_view0. case_decide; [subst; by rewrite Hg|done].
    + intros a x. rewrite lookup_insert. specialize (i_owned0 a x). case_decide; [subst|done].
      rewrite Hg in i_owned0. naive_solver.
    + intros a x. rewrite lookup_insert. specialize (i_inner0 a x).
      rewrite elem_of_union, elem_of_singleton. case_decide; naive_solver.
    + intros t th Ht. destruct (i_thread0 t th Ht) as (o & Ho & ?). exists o. split; [|done].
      intros a x. rewrite lookup_insert. specialize (Ho a x). case_decide; [subst|done].
      rewrite Hg in Ho. naive_solver.
    + intros t a x. rewrite lookup_insert. case_decide; [done|apply i_bound0].
Qed.

Lemma inv_InnerFree mem c g :
  inv c g → preserved (act dl new_fuel get_proc_name dladdr (InnerFree mem) c).
Proof.
  intros Hinv. destruct c as [h e ts owned inner]. simpl. case_decide as Hmem; [|by left].
  assert (g !! mem = Some (Own, None)) as Hg by by apply (i_inner _ _ Hinv).
  destruct (i_live _ _ Hinv _ _ Hg) as (_ & H0' & _).
  destruct (al_free mem h) as [[? _]|[_ Hl]]; [done|].
  apply (preserved_Next _ (delete mem g)). destruct Hinv. split; simpl in *; try done.
  - intros a x. rewrite Hl, !lookup_delete. case_decide; [done|apply i_live0].
  - intros a. rewrite lookup_delete, i_view0. case_decide; [subst; by rewrite Hg|done].
  - intros a x. rewrite lookup_delete. specialize (i_owned0 a x). case_decide; [subst|done].
    rewrite Hg in i_owned0. naive_solver.
  - intros a x. rewrite lookup_delete. specialize (i_inner0 a x).
    rewrite elem_of_difference, elem_of_singleton. case_decide; naive_solver.
  - intros t th Ht. destruct (i_thread0 t th Ht) as (o & Ho & ?). exists o. split; [|done].
    intros a x. rewrite lookup_delete. specialize (Ho a x). case_decide; [subst|done].
    rewrite Hg in Ho. naive_solver.
  - intros t a x. rewrite lookup_delete. case_decide; [done|apply i_bound0].
Qed.

Lemma inv_acts l c g :
  inv c g → Forall action_ok l → preserved (acts dl new_fuel get_proc_name dladdr l c).
Proof.
  intros Hinv Hl. revert c g Hinv; induction Hl as [|a l Ha Hl IH]; intros c g Hinv.
  { by eapply preserved_Next. }
  simpl. assert (preserved (act dl new_fuel get_proc_name dladdr a c)) as [->|(c' & g' & -> & ?)].
  { destruct a; [by eapply inv_Start|by eapply inv_Step|by eapply inv_Return
      |by eapply inv_InnerAlloc|by eapply inv_InnerFree]. }
  - by left.
  - by eapply IH.
Qed.

Lemma inv_start n h e : t_inv e → t_view e = ∅ → inv (start_conf n h e) ∅.
Proof.
  intros He Hv. split; simpl.
  - done.
  - intros a x. by rewrite lookup_empty.
  - intros a. by rewrite Hv, !lookup_empty.
  - intros a x. rewrite !lookup_empty. naive_solver.
  - intros a x. rewrite !lookup_empty. set_solver.
  - intros t th [-> _]%lookup_replicate. exists None. split; [|done].
    intros a x. rewrite lookup_empty. naive_solver.
  - intros t a x. by rewrite lookup_empty.
Qed.

(** ** Properties *)


End safety.

(** ** A thread alone *)

Section alone.
Context {H E : Type} `{!Tracer E} (dl : DLFunctions H) (new_fuel : nat).
Context (now : Z) (stack : list unw_frame).

(** The result of an interposed function, seen as that of a program. *)
Definition unworld (o : option (result * @world H E)) : option (result * H * E) :=
  match o with Some (r, w) => Some (r, w_heap w, w_engine w) | None => None end.

Abbreviation here := (mkSite now stack (mret tt)).

(** Run the definitions of the interposed functions down to the calls of
    the library and of the engine. *)
Ltac run_M :=
  cbv beta iota delta [mret M_ret mbind M_bind NoHook IsNested add_depth lift lift_ hook engine_step
    HookAlloc HookFree HookRealloc FlushCallStackCache do_free do_malloc do_calloc do_realloc
    do_memalign do_posix_memalign do_cfree do_aligned_alloc do_valloc do_pvalloc do_mmap do_mmap64
    do_mremap do_munmap do_dlclose get_new_handler memhook_free memhook_malloc memhook_calloc
    memhook_realloc memhook_memalign memhook_posix_memalign memhook_cfree memhook_aligned_alloc
    memhook_valloc memhook_pvalloc memhook_mmap memhook_mmap64 memhook_munmap memhook_mremap
    memhook_delete do_cpp_free do_cpp_alloc do_cpp_alloc2 memhook_dlclose memhook_untraced];
  simpl.

(** Follow the results of the library and of the engine. *)
Ltac follow :=
  repeat (case_match; simplify_eq/=); try done.

Lemma run_new fuel size nothrow mem h d (e : E) :
  run_prog (new_prog dl now stack fuel size nothrow mem) h e =
  unworld ((r ← cpp_alloc_loop dl fuel size nothrow mem;
            match r with
            | NewPtr mem => HookAlloc here mem size;; mret (RNew r)
            | BadAlloc => mret (RNew r)
            end) (mkWorld h d e)).
Proof.
  revert mem h; induction fuel as [|fuel IH]; intros mem h; simpl;
    (destruct (mem =? 0); [|run_M; follow]); [done|].
  assert (∀ h', run_prog (if nothrow then alloc_prog now stack 0 size (RNew (NewPtr 0))
                          else PRet (RNew BadAlloc)) h' e =
    unworld ((let r := if nothrow then NewPtr 0 else BadAlloc in
      match r with
      | NewPtr mem0 => HookAlloc here mem0 size;; mret (RNew r)
      | BadAlloc => mret (RNew r)
      end) (mkWorld h' d e))) as Hfail.
  { intros h'. destruct nothrow; run_M; follow. }
  rewrite run_bind. unfold mbind at 1, M_bind at 1, get_new_handler, lift at 1. simpl.
  destruct (dl_new_handler dl h) as [nh|]; [|apply Hfail].
  unfold mbind at 1, M_bind at 1, lift at 1. simpl. destruct (nh h) as [[] h1]; [|apply Hfail].
  unfold mbind at 1, M_bind at 1, do_malloc, lift at 1. simpl.
  destruct (dl_malloc dl size h1) as [mem' h2]. by rewrite IH, run_bind.
Qed.

(** A thread that is not interrupted does what the interposed function does:
    the trees of atomic operations are those of the functions in memhook.cpp,
    for every function and every outcome of the C library's. *)
Theorem uninterrupted_call c h (e : E) :
  (∀ old new n e, hook_event (EvRealloc old new n now stack) e =
    if old =? new then hook_event (EvUpdateSize old n) e
    else match hook_event (EvFree old) e with
         | Some e => hook_event (EvAlloc new n now stack) e
         | None => None
         end) →
  run_prog (call_prog dl new_fuel now stack c) h e =
    unworld (memhook_call dl new_fuel c here (mkWorld h 0 e)).
Proof.
  intros Hsplit.
  assert (∀ old new n r (h : H) (e : E), run_prog (realloc_prog now stack old new n r) h e =
    match hook_event (EvRealloc old new n now stack) e with
    | Some e => Some (r, h, e) | None => None end) as Hre.
  { intros old new n r h0 e0. rewrite Hsplit. unfold realloc_prog. by repeat (case_match; simpl). }
  destruct c; simpl; try (by run_M; follow; rewrite ?Hre; follow).
  run_M. destruct (dl_malloc dl size h) as [mem h']. rewrite (run_new _ _ _ _ _ 1).
  run_M. destruct (cpp_alloc_loop _ _ _ _ _ _) as [[[mem'|] w]|]; simpl; [|done..].
  by destruct (hook_event _ _).
Qed.

End alone.

(** ** Examples *)

(** A heap of pages: a block is the first free page of those the heap has
    room for. *)
Definition page (i : nat) : Z := 4096 * Z.of_nat (S i).

Definition page_alloc (size : Z) (h : gmap Z Z) : Z * gmap Z Z :=
  match filter (λ a, h !! a = None) (page <$> seq 0 16) with
  | a :: _ => (a, <[a := size]> h)
  | [] => (0, h)
  end.

Definition page_free (mem : Z) (h : gmap Z Z) : gmap Z Z := if mem =? 0 then h else delete mem h.

(** [realloc] always moves the block. *)
Definition page_realloc (mem size : Z) (h : gmap Z Z) : Z * gmap Z Z :=
  let '(new, h) := page_alloc size h in
  if new =? 0 then (new, h) else (new, page_free mem h).

Definition page_dl : DLFunctions (gmap Z Z) := {|
  dl_free := page_free;
  dl_malloc := page_alloc;
  dl_calloc n size := page_alloc (u64 (n * size));
  dl_realloc := page_realloc;
  dl_memalign _ := page_alloc;
  dl_posix_memalign memptr _ _ h := (12, memptr, h);
  dl_cfree := page_free;
  dl_aligned_alloc _ := page_alloc;
  dl_valloc := page_alloc;
  dl_pvalloc := page_alloc;
  dl_mmap _ _ _ _ _ _ h := (MAP_FAILED, h);
  dl_mmap64 _ _ _ _ _ _ h := (MAP_FAILED, h);
  dl_mremap _ _ _ _ _ h := (MAP_FAILED, h);
  dl_munmap _ _ h := (0, h);
  dl_dlclose _ h := (0, h);
  dl_new_handler _ := None;
|}.

Lemma page_alloc_ok size : allocates id (page_alloc size) size.
Proof.
  intros h. unfold page_alloc. destruct (filter _ _) as [|a l] eqn:Hf; [by left|].
  assert (a ∈ filter (λ a, h !! a = None) (page <$> seq 0 16)) as Ha by (rewrite Hf; left).
  apply list_elem_of_filter in Ha as [Hn (i & -> & Hi)%list_elem_of_fmap].
  apply elem_of_seq in Hi. right. split_and!; [unfold page; lia| |done|done]. unfold page. range.
Qed.

Lemma page_free_ok mem : releases id (page_free mem) mem.
Proof. intros h. unfold page_free, id. destruct (mem =? 0) eqn:Hm; zify_bool; auto. Qed.

#[export] Instance page_laws : AllocatorLaws page_dl.
Proof.
  refine {| al_live := id |}; intros; try apply page_alloc_ok; try apply page_free_ok; done.
Defined.

Lemma engine_splits now stack old new n (e : demo_engine) :
  hook_event (Tracer := demo_tracer) (EvRealloc old new n now stack) e =
    if old =? new then hook_event (Tracer := demo_tracer) (EvUpdateSize old n) e
    else match hook_event (Tracer := demo_tracer) (EvFree old) e with
         | Some e => hook_event (Tracer := demo_tracer) (EvAlloc new n now stack) e
         | None => None
         end.
Proof.
  unfold hook_event, demo_tracer, engine_tracer. simpl. unfold DoHookRealloc. by destruct (old =? new).
Qed.

#[local] Existing Instance demo_tracer.
#[local] Existing Instance demo_tracer_laws.

Abbreviation demo_acts :=
  (acts (E := demo_engine) page_dl 1 (Some demo_proc_name) demo_dladdr).

(** Two threads that allocate at the same time, and one that frees its block
    while the other is in [malloc] again. *)
Definition demo_schedule : list (action (gmap Z Z)) :=
  [ Start 0 (CMalloc 24) 1 demo_stack; Step 0; Start 1 (CNew 100 false) 2 []; InnerAlloc 64;
    Step 1; Step 0; Step 1; Return 1; Return 0;
    Start 0 (CFree 4096) 3 []; Start 1 (CCalloc 4 8) 4 demo_stack; Step 0; Step 1; Step 0;
    Step 1; InnerFree 8192; Return 1; Return 0 ].


Lemma uninterrupted_call_witness :
  run_prog (call_prog page_dl 1 3 demo_stack (CRealloc 0 24)) (∅ : gmap Z Z) demo_start =
    unworld (memhook_call page_dl 1 (CRealloc 0 24) (mkSite 3 demo_stack (mret tt))
      (mkWorld ∅ 0 demo_start)).
Proof. apply (uninterrupted_call page_dl 1 3 demo_stack). intros. apply engine_splits. Defined.

(** The C library has moved the block of the first thread and given its old
    address to the second, which records it before the first thread removes
    the record of the old address. *)
Definition race : list (action (gmap Z Z)) :=
  [ Start 0 (CMalloc 24) 1 demo_stack; Step 0; Step 0; Return 0;
    Start 0 (CRealloc 4096 100) 2 demo_stack; Step 0;
    Start 1 (CMalloc 8) 3 demo_stack; Step 1; Step 1; Return 1;
    Step 0; Step 0; Return 0 ].


End Interleaving.
