(* ===== verification/Log.v ===== *)
(** * Logging and checks

    src/memhook/log.cpp, log.h and check.h: a message is formatted into a
    buffer on the stack, ended with a newline and written to the standard
    error stream; a fatal message aborts the process. *)
From S2P Require Import Prelude.

Module Log.

Inductive LogSeverity := kINFO | kWARNING | kERROR | kFATAL.

#[export] Instance LogSeverity_eq_dec : EqDecision LogSeverity.
Proof. solve_decision. Defined.

Definition newline : Z := 10.
Definition STDERR_FILENO : Z := 2.
Definition sizeof_buf : nat := 512.

(** What the process has written, with the file descriptors, and whether it
    has been aborted. *)
Record process := mkProcess { written : list (Z * bytes); aborted : bool }.

(** A store to the buffer; [None] is a store outside of it. *)
Definition store (buf : bytes) (i : nat) (b : Z) : option bytes :=
  if decide (i < length buf)%nat then Some (<[i := b]> buf) else None.

(** [vsnprintf (buf, size, format, ap)], where [text] is the formatted
    message: at most [size - 1] bytes of it and a null byte *)
Definition vsnprintf (buf : bytes) (size : nat) (text : bytes) : option bytes :=
  let n := Nat.min (length text) (size - 1) in
  if decide (S n ≤ length buf)%nat then Some (take n text ++ 0 :: drop (S n) buf) else None.

(** [None] if there is no null byte in the buffer *)
Fixpoint strlen (buf : bytes) : option nat :=
  match buf with
  | [] => None
  | b :: buf => if b =? 0 then Some O else S <$> strlen buf
  end.

Definition LogWriteToFile (fileno : Z) (buf : bytes) (len : nat) (p : process) : process :=
  mkProcess (written p ++ [(fileno, take len buf)]) (aborted p).

(** [buf] is the uninitialized buffer; [None] is an access outside of it. *)
Definition LogVPrintf (sv : LogSeverity) (text buf : bytes) (p : process) : option process :=
  buf ← vsnprintf buf (sizeof_buf - 1) text;
  buf_len ← strlen buf;
  '(buf, buf_len) ←
    (if negb (Nat.eqb buf_len 0) && negb (bool_decide (buf !! (buf_len - 1)%nat = Some newline))
     then (λ buf, (buf, S buf_len)) <$> store buf buf_len newline
     else Some (buf, buf_len));
  let p := LogWriteToFile STDERR_FILENO buf buf_len p in
  Some (if decide (sv = kFATAL) then mkProcess (written p) true else p).

Definition LogPrintf := LogVPrintf.

(** [MEMHOOK_CHECK] and [MEMHOOK_EXPECT], with the text of the message: the
    value of the condition and the process afterwards *)
Definition MEMHOOK_CHECK (cond : bool) (message buf : bytes) (p : process) : option (bool * process) :=
  if cond then Some (cond, p) else (λ p, (cond, p)) <$> LogPrintf kERROR message buf p.
Definition MEMHOOK_EXPECT (cond : bool) (message buf : bytes) (p : process) : option (bool * process) :=
  if cond then Some (cond, p) else (λ p, (cond, p)) <$> LogPrintf kFATAL message buf p.

(** ** Lemmas *)

(** The text up to its first null byte. *)
Abbreviation upto_null := (take_while (λ b, negb (b =? 0))).

Lemma strlen_app l k : strlen (l ++ 0 :: k) = Some (length (upto_null l)).
Proof. induction l as [|b l IH]; simpl; [done|]. destruct (b =? 0); simpl; [done|]. by rewrite IH. Qed.

Lemma take_upto_null l k : take (length (upto_null l)) (l ++ k) = upto_null l.
Proof.
  induction l as [|b l IH]; simpl; [by rewrite take_0|]. destruct (b =? 0); simpl; [done|]. by rewrite IH.
Qed.

(** The line that is written for a text. *)
Definition log_line (text : bytes) : bytes :=
  let l := upto_null (take 510 text) in
  if bool_decide (l = []) || bool_decide (last l = Some newline) then l else l ++ [newline].

Lemma length_upto_null l : (length (upto_null l) ≤ length l)%nat.
Proof. induction l as [|b l IH]; simpl; [lia|]. destruct (b =? 0); simpl; lia. Qed.

(** ** Properties *)

(** Whatever the message, the buffer of 512 bytes is not left: what is
    written is the message up to its first null byte, cut to 510 bytes, and
    ended with exactly one more newline if it has none, so 511 bytes at most.
    A fatal message aborts the process after it is written, and no other
    message does. *)
Theorem log_stays_in_buffer sv text buf p :
  length buf = sizeof_buf →
  LogVPrintf sv text buf p =
    Some (mkProcess (written p ++ [(STDERR_FILENO, log_line text)])
            (if decide (sv = kFATAL) then true else aborted p)) ∧
  (length (log_line text) < sizeof_buf)%nat.
Proof.
  intros Hbuf. unfold LogVPrintf, vsnprintf, sizeof_buf in *. simpl (511 - 1)%nat. simpl (512 - 1)%nat.
  change (511 - 1)%nat with 510%nat. set (n := Nat.min (length text) 510).
  rewrite decide_True by lia. cbn [mbind option_bind].
  assert (take n text = take 510 text) as ->.
  { unfold n. destruct (decide (length text ≤ 510)%nat).
    - rewrite !take_ge; [done|lia..].
    - by rewrite Nat.min_r by lia. }
  set (l := take 510 text). set (rest := drop (S n) buf). rewrite strlen_app. cbn [mbind option_bind].
  assert (length (upto_null l) ≤ 510)%nat as Hlen.
  { pose proof (length_upto_null l). unfold l in *. rewrite length_take in *. lia. }
  assert (length l = n) as Hl by (unfold l, n; rewrite length_take; lia).
  assert (length (l ++ 0 :: rest) = 512%nat) as Htot.
  { rewrite length_app. simpl. unfold rest. rewrite length_drop. lia. }
  set (u := upto_null l) in *.
  assert (take (length u) (l ++ 0 :: rest) = u) as Htake by apply take_upto_null.
  assert ((l ++ 0 :: rest) !! (length u - 1)%nat = last u ∨ u = []) as Hlast.
  { destruct (decide (u = [])) as [|Hne]; [by right|left].
    assert (0 < length u)%nat by (destruct u; [done|simpl; lia]).
    rewrite last_lookup, <- Nat.sub_1_r.
    rewrite <- (lookup_take_lt (l ++ 0 :: rest) (length u)) by lia. by rewrite Htake. }
  unfold log_line. fold l u.
  destruct (Nat.eqb (length u) 0) eqn:Hz; simpl.
  { apply Nat.eqb_eq, nil_length_inv in Hz. rewrite Hz in *. simpl in *.
    split; [|lia]. unfold LogWriteToFile. rewrite take_0. by destruct (decide (sv = kFATAL)). }
  apply Nat.eqb_neq in Hz. assert (u ≠ []) as Hne by (by intros ->).
  destruct Hlast as [Hlast|]; [|done]. rewrite Hlast, (bool_decide_eq_false_2 (u = [])) by done.
  simpl. destruct (bool_decide (last u = Some newline)) eqn:Hnl; simpl.
  - split; [|lia]. unfold LogWriteToFile. rewrite Htake. by destruct (decide (sv = kFATAL)).
  - split; [|rewrite length_app; simpl; lia].
    unfold store. rewrite decide_True by lia. cbn. unfold LogWriteToFile. simpl.
    assert (take (S (length u)) (<[length u := newline]> (l ++ 0 :: rest)) = u ++ [newline]) as Hs.
    { rewrite (take_S_r _ _ newline) by (apply list_lookup_insert_eq; lia).
      by rewrite take_insert_ge, Htake by lia. }
    rewrite Hs. by destruct (decide (sv = kFATAL)).
Qed.

(** ** Examples *)

Lemma log_stays_in_buffer_witness :
  LogVPrintf kFATAL (replicate 600 65) (replicate 512 7) (mkProcess [] false) =
    Some (mkProcess [(2, replicate 510 65 ++ [10])] true).
Proof.
  apply (log_stays_in_buffer kFATAL (replicate 600 65) (replicate 512 7) (mkProcess [] false)).
  apply length_replicate.
Defined.

End Log.
