(* ===== verification/Signals.v ===== *)
(** * Signals

    src/memhookcore/scoped_signal_lock.cpp and scoped_signal.cpp, and the
    viewer's lock in src/memview/interprocess_scoped_lock.cpp: objects that
    change the signal mask or the disposition of a signal of the thread for
    as long as they live.

    A scope is a computation with such an object around it.  A computation
    may end with an exception, and then the objects are destroyed on the way
    as well; it has no result if it locks a mutex that is locked already. *)
From S2P Require Import Prelude.

Module Signals.

Definition SIGINT : Z := 2.
Definition SIGQUIT : Z := 3.
Definition SIGABRT : Z := 6.
Definition SIGKILL : Z := 9.
Definition SIGTERM : Z := 15.
Definition SIGSTOP : Z := 19.

Definition SIG_BLOCK : Z := 0.
Definition SIG_UNBLOCK : Z := 1.
Definition SIG_SETMASK : Z := 2.
Definition EINVAL : Z := 22.

Abbreviation sigset := (gset Z).

Record sigaction_t := mkSigaction { sa_flags : Z; sa_sigaction : Z; sa_mask : sigset }.

Definition SA_SIGINFO : Z := 4.
Definition SA_RESTART : Z := 0x10000000.

(** The mask and the dispositions of signals, and the mutex of the
    database. *)
Record state := mkState {
  mask : sigset;
  dispositions : gmap Z sigaction_t;
  locked : bool;
}.

Definition SIG_DFL : sigaction_t := mkSigaction 0 0 ∅.
Definition disposition (sig : Z) (s : state) : sigaction_t := default SIG_DFL (dispositions s !! sig).

(** ** The system's functions *)

(** [pthread_sigmask]: the error code, the old mask and the new state *)
Definition pthread_sigmask (how : Z) (set : sigset) (s : state) : Z * sigset * state :=
  let with_mask m := (0, mask s, mkState m (dispositions s) (locked s)) in
  if how =? SIG_BLOCK then with_mask (mask s ∪ set)
  else if how =? SIG_UNBLOCK then with_mask (mask s ∖ set)
  else if how =? SIG_SETMASK then with_mask set
  else (EINVAL, mask s, s).

(** [sigaction] with a new disposition: whether it succeeded, the old
    disposition and the new state *)
Definition sigaction (sig : Z) (sa : sigaction_t) (s : state) : bool * sigaction_t * state :=
  if (sig <? 1) || (64 <? sig) || (sig =? SIGKILL) || (sig =? SIGSTOP) then (false, SIG_DFL, s)
  else (true, disposition sig s, mkState (mask s) (<[sig := sa]> (dispositions s)) (locked s)).

(** ** Computations *)

Inductive result := Returned | Thrown (message : string).

Definition M : Type := state → option (result * state).

Definition ret : M := λ s, Some (Returned, s).
Definition throw (message : string) : M := λ s, Some (Thrown message, s).
Definition seq (m k : M) : M := λ s,
  match m s with
  | Some (Returned, s) => k s
  | r => r
  end.

(** ** [ScopedSignalLock] *)

Definition FillNewMask : sigset := {[SIGINT; SIGQUIT; SIGABRT; SIGTERM]}.
Definition g_new_mask : sigset := FillNewMask.

(** [SigMask]: the old mask, or an exception *)
Definition SigMask (how : Z) (set : sigset) (s : state) : (string + sigset) * state :=
  let '(err, oldset, s) := pthread_sigmask how set s in
  if err =? 0 then (inr oldset, s) else (inl "pthread_sigmask(...) failed"%string, s).

(** The constructors, with the signals that stay deliverable. *)
Definition newScopedSignalLock (signums : list Z) (s : state) : (string + sigset) * state :=
  SigMask SIG_SETMASK (g_new_mask ∖ list_to_set signums) s.

Definition destroyScopedSignalLock (m_old_mask : sigset) (s : state) : state :=
  (pthread_sigmask SIG_SETMASK m_old_mask s).2.

Definition ScopedSignalLock (signums : list Z) (body : M) : M := λ s,
  match newScopedSignalLock signums s with
  | (inl e, s) => Some (Thrown e, s)
  | (inr m_old_mask, s) =>
      match body s with
      | Some (r, s) => Some (r, destroyScopedSignalLock m_old_mask s)
      | None => None
      end
  end.

(** ** [ScopedSignal] *)

Definition newScopedSignal (signum callback : Z) (s : state) : (string + sigaction_t) * state :=
  let sa := mkSigaction (Z.lor SA_SIGINFO SA_RESTART) callback {[signum]} in
  let '(ok, old_sa, s) := sigaction signum sa s in
  if ok : bool then (inr old_sa, s) else (inl "sigaction(...) failed"%string, s).

Definition destroyScopedSignal (signum : Z) (m_old_sa : sigaction_t) (s : state) : state :=
  (sigaction signum m_old_sa s).2.

Definition ScopedSignal (signum callback : Z) (body : M) : M := λ s,
  match newScopedSignal signum callback s with
  | (inl e, s) => Some (Thrown e, s)
  | (inr m_old_sa, s) =>
      match body s with
      | Some (r, s) => Some (r, destroyScopedSignal signum m_old_sa s)
      | None => None
      end
  end.

(** ** [InterprocessScopedLock] *)

Definition MutexScopedLock (body : M) : M := λ s,
  if locked s then None
  else match body (mkState (mask s) (dispositions s) true) with
       | Some (r, s) => Some (r, mkState (mask s) (dispositions s) false)
       | None => None
       end.

(** the address of [mapped_view_detail::InterruptHandler] *)
Definition InterruptHandler : Z := 1.

(** The members in the order of their declaration. *)
Definition InterprocessScopedLock (no_lock : bool) (body : M) : M :=
  ScopedSignalLock [SIGINT] (ScopedSignal SIGINT InterruptHandler
    (if no_lock then body else MutexScopedLock body)).

(** ** Nested scopes *)

Inductive scope :=
| InSignalLock (signums : list Z) (body : list scope)
| InSignal (signum callback : Z) (body : list scope)
| InViewLock (no_lock : bool) (body : list scope)
| Throws (message : string).

Fixpoint run_scope (c : scope) : M :=
  let run := (fix run (l : list scope) : M :=
    match l with [] => ret | c :: l => seq (run_scope c) (run l) end) in
  match c with
  | InSignalLock signums body => ScopedSignalLock signums (run body)
  | InSignal signum callback body => ScopedSignal signum callback (run body)
  | InViewLock no_lock body => InterprocessScopedLock no_lock (run body)
  | Throws message => throw message
  end.

Fixpoint run_scopes (l : list scope) : M :=
  match l with [] => ret | c :: l => seq (run_scope c) (run_scopes l) end.

(** The mutex is not locked inside of a scope that has locked it. *)
Fixpoint scope_ok (is_locked : bool) (c : scope) : bool :=
  let ok_all := (fix ok_all (is_locked : bool) (l : list scope) : bool :=
    match l with [] => true | c :: l => scope_ok is_locked c && ok_all is_locked l end) in
  match c with
  | InSignalLock _ body | InSignal _ _ body => ok_all is_locked body
  | InViewLock no_lock body =>
      if no_lock then ok_all is_locked body else negb is_locked && ok_all true body
  | Throws _ => true
  end.

Fixpoint scopes_ok (is_locked : bool) (l : list scope) : bool :=
  match l with [] => true | c :: l => scope_ok is_locked c && scopes_ok is_locked l end.

(** ** Lemmas *)

(** Equal masks, mutexes and dispositions. *)
Record same (s s' : state) : Prop := {
  same_mask : mask s' = mask s;
  same_locked : locked s' = locked s;
  same_disposition sig : disposition sig s' = disposition sig s;
}.

#[export] Instance same_equiv : Equivalence same.
Proof.
  split.
  - by split.
  - intros s s' []. by split.
  - intros s1 s2 s3 [] []. split; congruence.
Qed.

(** A computation that ends and leaves signals and mutex as they were, from
    any state with the mutex in the state [b]. *)
Definition restores (b : bool) (m : M) : Prop :=
  ∀ s, locked s = b → ∃ r s', m s = Some (r, s') ∧ same s s'.

Lemma restores_ret b : restores b ret.
Proof. intros s _. by exists Returned, s. Qed.

Lemma restores_seq b m k : restores b m → restores b k → restores b (seq m k).
Proof.
  intros Hm Hk s Hs. unfold seq. destruct (Hm s Hs) as (r & s1 & -> & H1).
  destruct r as [|e]; [|by exists (Thrown e), s1].
  destruct (Hk s1) as (r & s2 & -> & H2); [by rewrite (same_locked _ _ H1)|].
  exists r, s2. split; [done|]. by trans s1.
Qed.

Lemma restores_ScopedSignalLock b signums m : restores b m → restores b (ScopedSignalLock signums m).
Proof.
  intros Hm s Hs. unfold ScopedSignalLock. simpl.
  destruct (Hm (mkState (g_new_mask ∖ list_to_set signums) (dispositions s) (locked s)) Hs)
    as (r & s1 & -> & []). eexists _, _. split; [done|]. by split.
Qed.

Lemma restores_ScopedSignal b signum callback m :
  restores b m → restores b (ScopedSignal signum callback m).
Proof.
  intros Hm s Hs. unfold ScopedSignal, newScopedSignal, sigaction.
  destruct (_ || _) eqn:Hsig; [by eexists _, s|]. cbv iota.
  destruct (Hm (mkState (mask s) (<[signum := mkSigaction (Z.lor SA_SIGINFO SA_RESTART) callback {[signum]}]>
    (dispositions s)) (locked s)) Hs) as (r & s1 & -> & [H1 H2 H3]).
  eexists _, _. split; [done|]. unfold destroyScopedSignal, sigaction. rewrite Hsig. simpl in *.
  split; simpl; [done..|]. intros sig. specialize (H3 sig). unfold disposition in *. simpl in *.
  rewrite lookup_insert in *. case_decide; [by subst|done].
Qed.

Lemma restores_MutexScopedLock m : restores true m → restores false (MutexScopedLock m).
Proof.
  intros Hm s Hs. unfold MutexScopedLock. rewrite Hs.
  destruct (Hm (mkState (mask s) (dispositions s) true) eq_refl) as (r & s1 & -> & []).
  eexists _, _. split; [done|]. by split.
Qed.

Lemma scope_Forall_ind (P : scope → Prop) :
  (∀ signums body, Forall P body → P (InSignalLock signums body)) →
  (∀ signum callback body, Forall P body → P (InSignal signum callback body)) →
  (∀ no_lock body, Forall P body → P (InViewLock no_lock body)) →
  (∀ message, P (Throws message)) → ∀ c, P c.
Proof.
  intros H1 H2 H3 H4. fix IH 1.
  assert (∀ l, Forall P l) as Hall.
  { fix IHl 1. intros [|c l]; constructor; [apply IH|apply IHl]. }
  intros [signums body|signum callback body|no_lock body|message];
    [apply H1|apply H2|apply H3|apply H4]; apply Hall.
Qed.

Lemma restores_scopes b l :
  Forall (λ c, ∀ b, scope_ok b c = true → restores b (run_scope c)) l → scopes_ok b l = true →
  restores b (run_scopes l).
Proof.
  induction 1 as [|c l Hc Hl IH]; simpl; intros Hok; [apply restores_ret|].
  apply andb_true_iff in Hok as [? ?]. apply restores_seq; auto.
Qed.

Lemma restores_scope c : ∀ b, scope_ok b c = true → restores b (run_scope c).
Proof.
  induction c as [signums body IH|signum callback body IH|no_lock body IH|message]
    using scope_Forall_ind; intros b Hok; simpl in *.
  - by apply restores_ScopedSignalLock, restores_scopes.
  - by apply restores_ScopedSignal, restores_scopes.
  - apply restores_ScopedSignalLock, restores_ScopedSignal. destruct no_lock; [by apply restores_scopes|].
    apply andb_true_iff in Hok as [Hb Hok]. destruct b; [done|].
    by apply restores_MutexScopedLock, restores_scopes.
  - intros s _. by exists (Thrown message), s.
Qed.

(** ** Properties *)

(** C36.  Scopes undo what they do: however they are nested, and whether they end
    normally or with an exception thrown inside or by a constructor, the
    signal mask, the dispositions and the mutex are afterwards what they were
    before. *)
Theorem scopes_restore_signals l s :
  scopes_ok (locked s) l = true →
  ∃ r s', run_scopes l s = Some (r, s') ∧ mask s' = mask s ∧ locked s' = locked s ∧
    ∀ sig, disposition sig s' = disposition sig s.
Proof.
  intros Hok. destruct (restores_scopes (locked s) l) with s as (r & s' & ? & []); [|done|done|].
  - apply Forall_forall. intros c _. apply restores_scope.
  - by exists r, s'.
Qed.

(** The mask is replaced and not extended: a signal that the program has
    blocked, and that is not one of the four, can be delivered while a
    database is being changed. *)
Theorem scope_unblocks_signals signums s sig :
  sig ∈ mask s → sig ∉ g_new_mask →
  ∃ old, (newScopedSignalLock signums s).1 = inr old ∧ sig ∉ mask (newScopedSignalLock signums s).2.
Proof. intros Hin Hout. eexists. split; [done|]. simpl. set_solver. Qed.

(** ** Examples *)

Definition demo_state : state := mkState {[10; SIGINT]} {[SIGINT := mkSigaction 0 77 ∅]} false.

(** The viewer, with a database operation inside that throws. *)
Definition demo_scopes : list scope :=
  [InViewLock false [InSignalLock [] [InSignal SIGKILL 5 []]]; InSignalLock [3; 15] [Throws "no memory"]].

Lemma scopes_restore_signals_witness :
  ∃ r s', run_scopes demo_scopes demo_state = Some (r, s') ∧ r = Thrown "sigaction(...) failed" ∧
    mask s' = mask demo_state ∧ disposition SIGINT s' = mkSigaction 0 77 ∅.
Proof.
  destruct (scopes_restore_signals demo_scopes demo_state) as (r & s' & Hr & Hm & _ & Hd); [reflexivity|].
  exists r, s'. split_and!; [exact Hr| |exact Hm|rewrite Hd; reflexivity].
  vm_compute in Hr. injection Hr as <- _. reflexivity.
Defined.

Lemma scope_unblocks_signals_witness :
  ∃ old, (newScopedSignalLock [] demo_state).1 = inr old ∧ 10 ∉ mask (newScopedSignalLock [] demo_state).2.
Proof. apply (scope_unblocks_signals [] demo_state 10); by_decide. Defined.

End Signals.
