(* ===== verification/Sharing.v ===== *)
(** * A database that several processes share

    The operations of src/memhookcore/basic_mapped_storage.h and
    src/memview/basic_mapped_view.h between processes: each of them takes the
    interprocess mutex of the container inside of a scope in which signals are
    blocked (file [Signals]), and a process can be killed at any time by a
    signal that one of its threads does not block.

    File [Storage] takes an operation for one step.  Here an operation is the
    sequence of its writes to the container, and the threads of any number of
    programs and viewers interleave between them. *)
From S2P Require Import Prelude Boost TraceInfo Serialization Network Storage Signals.

Module Sharing.
Import Network Storage.

(** ** Operations as sequences of writes *)

Section sharing.
Context {D : Type} `{!MultiIndex D BasicTraceInfo Z}.
Abbreviation St := (BasicMappedStorage D).

(** [Add] names the frames one by one before it stores the record. *)
Definition writes (op : storage_op) : list (St → St) :=
  match op with
  | OpAdd address memsize callstack timestamp =>
      ((λ item s, set_container s (SymbolTableUpdater item (m_container s))) <$> callstack) ++
      [λ s, set_container s (set_index (m_container s)
         (mi_emplace (newBasicTraceInfo address memsize timestamp callstack)
            (indexed_container (m_container s))).1)]
  | OpRemove address => [λ s, (basic_Remove address s).1]
  | OpUpdateSize address memsize => [λ s, (basic_UpdateSize address memsize s).1]
  end.

Definition run_writes (fs : list (St → St)) (s : St) : St := fold_left (λ s f, f s) fs s.

Lemma run_writes_app fs gs s : run_writes (fs ++ gs) s = run_writes gs (run_writes fs s).
Proof. apply fold_left_app. Qed.

Lemma run_writes_op op s : run_writes (writes op) s = run_op s op.
Proof.
  destruct op as [a n cs ts|a|a n]; [|done..]. simpl. rewrite run_writes_app.
  assert (∀ l s, run_writes ((λ item s, set_container s (SymbolTableUpdater item (m_container s))) <$> l) s =
    set_container s (fold_left (λ c item, SymbolTableUpdater item c) l (m_container s))) as ->.
  { induction l as [|i l IH]; intros s'; simpl; [by destruct s'|]. unfold run_writes in *. by rewrite IH. }
  done.
Qed.

(** ** Threads and processes *)

(** What a thread does with the database. *)
Inductive job := Update (op : storage_op) | View (no_lock : bool).

(** Where a thread is in an operation: outside, in the scope with blocked
    signals, with the handler of the viewer in place, with the mutex and some
    writes to do, having seen the database, having left the mutex. *)
Inductive phase :=
| Idle
| Masked (j : job)
| Handling (no_lock : bool)
| Writing (op : storage_op) (todo : list (St → St))
| Looking
| Seen (no_lock : bool)
| Leaving (j : job).

(** [ScopedSignalLock] of a job: the viewer's lets SIGINT through. *)
Definition mask_of (j : job) : Signals.sigset :=
  match j with
  | Update _ => Signals.g_new_mask
  | View _ => Signals.g_new_mask ∖ {[Signals.SIGINT]}
  end.

(** The signals a thread blocks. *)
Definition blocked (p : phase) : Signals.sigset :=
  match p with
  | Idle => ∅
  | Masked j | Leaving j => mask_of j
  | Writing op _ => mask_of (Update op)
  | Handling b | Seen b => mask_of (View b)
  | Looking => mask_of (View false)
  end.

(** The signals the process has a handler for, [ScopedSignal]. *)
Definition handled (p : phase) : Signals.sigset :=
  match p with
  | Handling _ | Looking | Seen _ => {[Signals.SIGINT]}
  | _ => ∅
  end.

Record process := mkProcess { alive : bool; threads : list phase }.

(** A signal to a process kills it if a thread can take it and nobody has
    installed a handler. *)
Definition kills (sig : Z) (p : process) : Prop :=
  Exists (λ t, sig ∉ blocked t) (threads p) ∧ Forall (λ t, sig ∉ handled t) (threads p).

Record system := mkSystem {
  db : St;
  mutex : option (nat * nat);              (** the process and the thread that have it *)
  processes : list process;
  history : list storage_op;               (** the operations that are complete *)
  views : list (bool * St);                (** what viewers have seen, without lock or with it *)
}.

Definition set_phase (i k : nat) (t : phase) (s : system) : system :=
  mkSystem (db s) (mutex s)
    (alter (λ p, mkProcess (alive p) (<[k := t]> (threads p))) i (processes s)) (history s) (views s).
Definition set_db (d : St) (s : system) : system :=
  mkSystem d (mutex s) (processes s) (history s) (views s).
Definition set_mutex (m : option (nat * nat)) (s : system) : system :=
  mkSystem (db s) m (processes s) (history s) (views s).
Definition add_history (op : storage_op) (s : system) : system :=
  mkSystem (db s) (mutex s) (processes s) (history s ++ [op]) (views s).
Definition add_view (b : bool) (s : system) : system :=
  mkSystem (db s) (mutex s) (processes s) (history s) (views s ++ [(b, db s)]).

(** The thread [k] of the living process [i]. *)
Definition thread_at (s : system) (i k : nat) (t : phase) : Prop :=
  ∃ p, processes s !! i = Some p ∧ alive p = true ∧ threads p !! k = Some t.

(** [thread_step]: [Add], [Remove], [UpdateSize] and [Write], operation by
    operation; the mutex is taken when it is free. *)
Inductive thread_step (i k : nat) (s : system) : system → Prop :=
| t_mask j : thread_at s i k Idle → thread_step i k s (set_phase i k (Masked j) s)
| t_handler b : thread_at s i k (Masked (View b)) → thread_step i k s (set_phase i k (Handling b) s)
| t_lock op :
    thread_at s i k (Masked (Update op)) → mutex s = None →
    thread_step i k s (set_phase i k (Writing op (writes op)) (set_mutex (Some (i, k)) s))
| t_lock_view :
    thread_at s i k (Handling false) → mutex s = None →
    thread_step i k s (set_phase i k Looking (set_mutex (Some (i, k)) s))
| t_no_lock : thread_at s i k (Handling true) →
    thread_step i k s (set_phase i k (Seen true) (add_view true s))
| t_write op f todo :
    thread_at s i k (Writing op (f :: todo)) →
    thread_step i k s (set_phase i k (Writing op todo) (set_db (f (db s)) s))
| t_unlock op :
    thread_at s i k (Writing op []) →
    thread_step i k s (set_phase i k (Leaving (Update op)) (add_history op (set_mutex None s)))
| t_look : thread_at s i k Looking →
    thread_step i k s (set_phase i k (Seen false) (add_view false s))
| t_unlock_view : thread_at s i k (Seen false) →
    thread_step i k s (set_phase i k (Leaving (View false)) (set_mutex None s))
| t_leave_unlocked : thread_at s i k (Seen true) →
    thread_step i k s (set_phase i k (Leaving (View true)) s)
| t_leave j : thread_at s i k (Leaving j) → thread_step i k s (set_phase i k Idle s).

Definition kill (i : nat) (s : system) : system :=
  mkSystem (db s) (mutex s) (alter (λ p, mkProcess false (threads p)) i (processes s))
    (history s) (views s).

(** A step of a thread, or a signal that is sent. *)
Inductive step (sent : Z → Prop) (s : system) : system → Prop :=
| step_thread i k s' : thread_step i k s s' → step sent s s'
| step_kill i sig p :
    sent sig → processes s !! i = Some p → alive p = true → kills sig p → step sent s (kill i s).

(** Processes with these numbers of threads. *)
Definition start (d : St) (counts : list nat) : system :=
  mkSystem d None ((λ n, mkProcess true (replicate n Idle)) <$> counts) [] [].

(** ** Lemmas *)

Lemma thread_at_set s i k t t' j l u :
  thread_at s i k t →
  thread_at (set_phase i k t' s) j l u ↔
    (if decide (i = j ∧ k = l) then u = t' else thread_at s j l u).
Proof.
  intros (p & Hp & Ha & Hk). unfold thread_at. cbn [processes set_phase].
  destruct (decide (i = j)) as [<-|Hij].
  - rewrite list_lookup_alter_eq, Hp. simpl. destruct (decide (k = l)) as [<-|Hkl].
    + rewrite decide_True by done. split.
      * intros (q & [= <-] & _ & Hq). simpl in Hq.
        rewrite list_lookup_insert_eq in Hq by (by eapply lookup_lt_Some). by injection Hq.
      * intros ->. eexists. split; [done|]. simpl. split; [done|].
        apply list_lookup_insert_eq. by eapply lookup_lt_Some.
    + rewrite decide_False by tauto. split.
      * intros (q & [= <-] & Hq & Hl). simpl in *. rewrite list_lookup_insert_ne in Hl by done.
        by exists p.
      * intros (q & [= <-] & Hq & Hl). eexists. split; [done|]. simpl.
        by rewrite list_lookup_insert_ne.
  - rewrite decide_False by tauto. by rewrite list_lookup_alter_ne.
Qed.

(** ** The invariant *)

(** The thread [k] of process [i], dead or alive. *)
Definition phase_at (s : system) (i k : nat) (t : phase) : Prop :=
  ∃ p, processes s !! i = Some p ∧ threads p !! k = Some t.

(** The phases in which a thread has the mutex. *)
Definition locked (t : phase) : Prop :=
  match t with Writing _ _ | Looking | Seen false => True | _ => False end.

(** What the database holds while such a thread has the mutex: the complete
    operations, and the writes of the current one that are done. *)
Definition content (d0 : St) (s : system) (t : phase) : Prop :=
  match t with
  | Writing op todo =>
      ∃ did, writes op = did ++ todo ∧ db s = run_writes did (run_ops (history s) d0)
  | _ => db s = run_ops (history s) d0
  end.

Record consistent (d0 : St) (s : system) : Prop := mkConsistent {
  one_owner : ∀ i k t, phase_at s i k t → locked t → mutex s = Some (i, k);
  database : match mutex s with
             | None => db s = run_ops (history s) d0
             | Some (i, k) => ∃ t, phase_at s i k t ∧ locked t ∧ content d0 s t
             end;
  views_are_prefixes : ∀ v, (false, v) ∈ views s →
    ∃ ops, ops `prefix_of` history s ∧ v = run_ops ops d0;
}.

Lemma thread_at_phase s i k t : thread_at s i k t → phase_at s i k t.
Proof. intros (p & Hp & _ & Hk). by exists p. Qed.

Lemma phase_at_set s i k t t' j l u :
  thread_at s i k t →
  phase_at (set_phase i k t' s) j l u →
  (i = j ∧ k = l ∧ u = t') ∨ (¬ (i = j ∧ k = l) ∧ phase_at s j l u).
Proof.
  intros (p & Hp & Ha & Hk) (q & Hq & Hl). cbn [processes set_phase] in Hq.
  destruct (decide (i = j)) as [<-|Hij].
  - rewrite list_lookup_alter_eq, Hp in Hq. injection Hq as <-. simpl in Hl.
    destruct (decide (k = l)) as [<-|Hkl].
    + rewrite list_lookup_insert_eq in Hl by (by eapply lookup_lt_Some). left. by injection Hl.
    + rewrite list_lookup_insert_ne in Hl by done. right. split; [tauto|by exists p].
  - rewrite list_lookup_alter_ne in Hq by done. right. split; [tauto|by exists q].
Qed.

Lemma phase_at_set_self s i k t t' : thread_at s i k t → phase_at (set_phase i k t' s) i k t'.
Proof.
  intros Ht. apply thread_at_phase. apply (thread_at_set _ _ _ t); [done|]. by rewrite decide_True.
Qed.

Lemma phase_at_kill s i j l u : phase_at (kill i s) j l u ↔ phase_at s j l u.
Proof.
  unfold phase_at, kill. cbn [processes]. destruct (decide (i = j)) as [<-|].
  - rewrite list_lookup_alter_eq. destruct (processes s !! i); simpl; [|naive_solver].
    split; intros (q & [= <-] & Hq); eauto.
  - by rewrite list_lookup_alter_ne.
Qed.

Lemma phase_at_fun s i k t u : phase_at s i k t → phase_at s i k u → t = u.
Proof. intros (p & Hp & Ht) (q & Hq & Hu). congruence. Qed.

(** What a step of a thread does with the mutex: nothing, take it, go on with
    it, or release it. *)
Lemma thread_step_mutex i k s s' :
  thread_step i k s s' →
  ∃ t t', thread_at s i k t ∧ phase_at s' i k t' ∧
    (∀ j l u, phase_at s' j l u → (i = j ∧ k = l ∧ u = t') ∨ (¬ (i = j ∧ k = l) ∧ phase_at s j l u)) ∧
    (locked t → mutex s = Some (i, k) → mutex s' = Some (i, k) ∧ locked t' ∨ mutex s' = None ∧ ¬ locked t') ∧
    (¬ locked t → mutex s' = mutex s ∧ ¬ locked t' ∨ mutex s = None ∧ mutex s' = Some (i, k) ∧ locked t').
Proof.
  intros Hs; destruct Hs as [j Ht|b Ht|op Ht Hm|Ht Hm|Ht|op f todo Ht|op Ht|Ht|Ht|Ht|j Ht];
    match type of Ht with thread_at _ _ _ ?t => exists t end; eexists;
    (split; [exact Ht|]);
    match goal with |- phase_at (set_phase _ _ _ ?x) _ _ _ ∧ _ =>
      split; [exact (phase_at_set_self x _ _ _ _ Ht)|];
      split; [intros j' l' u'; exact (phase_at_set x _ _ _ _ _ _ _ Ht)|]
    end; simpl; tauto.
Qed.

Lemma consistent_owner d0 s i k t :
  consistent d0 s → phase_at s i k t → locked t → mutex s = Some (i, k) ∧ content d0 s t.
Proof.
  intros [Ho Hd _] Ht Hl. pose proof (Ho _ _ _ Ht Hl) as Hm. split; [done|].
  rewrite Hm in Hd. destruct Hd as (u & Hu & _ & Hc). by rewrite (phase_at_fun _ _ _ _ _ Ht Hu).
Qed.

Lemma run_ops_snoc ops op (d : St) : run_ops (ops ++ [op]) d = run_op (run_ops ops d) op.
Proof. unfold run_ops. by rewrite fold_left_app. Qed.

Lemma locked_dec t : locked t ∨ ¬ locked t.
Proof. destruct t as [| | | | |[]|]; simpl; tauto. Qed.

Lemma thread_step_one_owner i k s s' :
  thread_step i k s s' →
  (∀ j l t, phase_at s j l t → locked t → mutex s = Some (j, l)) →
  ∀ j l t, phase_at s' j l t → locked t → mutex s' = Some (j, l).
Proof.
  intros Hs Ho j l u Hu Hl.
  destruct (thread_step_mutex i k s s' Hs) as (t & t' & Ht%thread_at_phase & _ & Hset & Hheld & Hfree).
  destruct (Hset _ _ _ Hu) as [(<- & <- & ->)|[Hne Hu']]; destruct (locked_dec t) as [Hlt|Hlt].
  - destruct (Hheld Hlt (Ho _ _ _ Ht Hlt)) as [[]|[]]; done.
  - destruct (Hfree Hlt) as [[]|(_ & ? & _)]; done.
  - pose proof (Ho _ _ _ Hu' Hl) as Hm. rewrite (Ho _ _ _ Ht Hlt) in Hm. injection Hm; tauto.
  - pose proof (Ho _ _ _ Hu' Hl) as Hm. destruct (Hfree Hlt) as [[-> _]|[Hn _]]; congruence.
Qed.

(** A thread without the mutex leaves what its owner does as it is. *)
Lemma database_frame d0 s s' i k t t' :
  consistent d0 s → thread_at s i k t → ¬ locked t →
  s' = set_phase i k t' s →
  match mutex s' with
  | None => db s' = run_ops (history s') d0
  | Some (j, l) => ∃ u, phase_at s' j l u ∧ locked u ∧ content d0 s' u
  end.
Proof.
  intros [_ Hd _] Ht Hl ->. cbn [mutex set_phase]. destruct (mutex s) as [[j l]|]; [|done].
  destruct Hd as (u & Hu & Hlu & Hc). exists u. split; [|by split].
  assert (¬ (i = j ∧ k = l)).
  { intros [<- <-]. by rewrite (phase_at_fun _ _ _ _ _ (thread_at_phase _ _ _ _ Ht) Hu) in Hl. }
  destruct Hu as (p & Hp & Hk), Ht as (q & Hq & Ha & Hkq). unfold phase_at. cbn [processes set_phase].
  destruct (decide (i = j)) as [<-|]; [|rewrite list_lookup_alter_ne by done; eauto].
  rewrite list_lookup_alter_eq, Hp. eexists. split; [done|]. simpl.
  rewrite list_lookup_insert_ne; naive_solver.
Qed.

Lemma views_same d0 s s' :
  consistent d0 s → history s `prefix_of` history s' → views s' = views s →
  ∀ v, (false, v) ∈ views s' → ∃ ops, ops `prefix_of` history s' ∧ v = run_ops ops d0.
Proof.
  intros [_ _ Hv] Hh -> v Hin. destruct (Hv v Hin) as (ops & Hops & ->). exists ops.
  split; [by etrans|done].
Qed.

Lemma consistent_add_view d0 s b :
  consistent d0 s → (b = false → db s = run_ops (history s) d0) → consistent d0 (add_view b s).
Proof.
  intros [Ho Hd Hv] Hb. split; [exact Ho|exact Hd|]. cbn [views add_view history].
  intros v [Hin|[= <- ->]%list_elem_of_singleton]%elem_of_app; [by apply Hv|].
  exists (history s). by rewrite Hb.
Qed.

(** The thread that has the mutex after the step. *)
Lemma database_owner d0 s i k t t' :
  thread_at s i k t → locked t' → mutex s = Some (i, k) → content d0 s t' →
  match mutex (set_phase i k t' s) with
  | None => db (set_phase i k t' s) = run_ops (history (set_phase i k t' s)) d0
  | Some (j, l) => ∃ u, phase_at (set_phase i k t' s) j l u ∧ locked u ∧ content d0 (set_phase i k t' s) u
  end.
Proof.
  intros Ht Hl Hm Hc. cbn [mutex set_phase]. rewrite Hm. exists t'.
  split; [by eapply phase_at_set_self|]. by destruct t'.
Qed.

Lemma consistent_thread_step d0 i k s s' : thread_step i k s s' → consistent d0 s → consistent d0 s'.
Proof.
  intros Hs Hc. pose proof (thread_step_one_owner _ _ _ _ Hs (one_owner _ _ Hc)) as Ho.
  pose proof (database _ _ Hc) as Hd.
  destruct Hs as [j Ht|b Ht|op Ht Hm|Ht Hm|Ht|op f todo Ht|op Ht|Ht|Ht|Ht|j Ht]; split; try exact Ho; clear Ho;
    try (by eapply views_same); try (by eapply database_frame; [exact Hc|exact Ht|simpl; tauto|]).
  - rewrite Hm in Hd. eapply (database_owner _ (set_mutex _ s)); [exact Ht|done..|]. by exists [].
  - rewrite Hm in Hd. by eapply (database_owner _ (set_mutex _ s)); [exact Ht|..].
  - eapply (database_frame _ (add_view true s)); [by apply consistent_add_view|exact Ht|simpl; tauto|done].
  - by apply (views_are_prefixes d0 (add_view true s)), consistent_add_view.
  - destruct (consistent_owner _ _ _ _ _ Hc (thread_at_phase _ _ _ _ Ht) I) as (Hm & did & Hop & Hdb).
    eapply (database_owner _ (set_db _ s)); [exact Ht|done..|].
    exists (did ++ [f]). rewrite <- app_assoc. split; [done|]. rewrite run_writes_app. simpl. by rewrite Hdb.
  - destruct (consistent_owner _ _ _ _ _ Hc (thread_at_phase _ _ _ _ Ht) I) as (Hm & did & Hop & Hdb).
    rewrite app_nil_r in Hop. subst did. cbn [mutex set_phase add_history set_mutex db history]. rewrite run_ops_snoc, Hdb. apply run_writes_op.
  - eapply views_same; [done| |done]. by eexists.
  - destruct (consistent_owner _ _ _ _ _ Hc (thread_at_phase _ _ _ _ Ht) I) as (Hm & Hdb).
    by eapply (database_owner _ (add_view false s)); [exact Ht|..].
  - destruct (consistent_owner _ _ _ _ _ Hc (thread_at_phase _ _ _ _ Ht) I) as (Hm & Hdb).
    by apply (views_are_prefixes d0 (add_view false s)), consistent_add_view.
  - by destruct (consistent_owner _ _ _ _ _ Hc (thread_at_phase _ _ _ _ Ht) I) as (Hm & Hdb).
Qed.

Lemma consistent_kill d0 i s : consistent d0 s → consistent d0 (kill i s).
Proof.
  intros [Ho Hd Hv]. split; [intros ???; rewrite phase_at_kill; apply Ho| |exact Hv].
  cbn [mutex kill]. destruct (mutex s) as [[j l]|]; [|done]. destruct Hd as (t & Ht & Hl & Hc).
  exists t. by rewrite phase_at_kill.
Qed.

Lemma start_idle d counts i k t : phase_at (start d counts) i k t → t = Idle.
Proof.
  intros (p & Hp & Ht). cbn in Hp. apply list_lookup_fmap_Some in Hp as (n & -> & _).
  by apply lookup_replicate in Ht as [-> _].
Qed.

Lemma consistent_start d counts : consistent d (start d counts).
Proof.
  split; [|done|]; [by intros i k t ->%start_idle|]. intros v Hv. by apply elem_of_nil in Hv.
Qed.

Lemma consistent_reachable sent d counts s : rtc (step sent) (start d counts) s → consistent d s.
Proof.
  intros Hr. remember (start d counts) as s0 eqn:E. assert (consistent d s0) as Hc.
  { subst. apply consistent_start. }
  clear E. induction Hr as [|s1 s2 s3 Hs _ IH]; [done|]. apply IH.
  destruct Hs; [by eapply consistent_thread_step|by apply consistent_kill].
Qed.

(** ** Who can be killed *)

Definition alive_at (s : system) (i : nat) : Prop := ∃ p, processes s !! i = Some p ∧ alive p = true.

(** Every process has one thread, and the owner of the mutex is alive. *)
Record guarded (s : system) : Prop := mkGuarded {
  single_threads : ∀ i p, processes s !! i = Some p → length (threads p) = 1%nat;
  owner_lives : ∀ i k, mutex s = Some (i, k) → alive_at s i;
}.

Lemma set_phase_lookup s i k t j p :
  processes (set_phase i k t s) !! j = Some p ↔
  ∃ q, processes s !! j = Some q ∧
       p = if decide (i = j) then mkProcess (alive q) (<[k := t]> (threads q)) else q.
Proof.
  cbn [processes set_phase]. destruct (decide (i = j)) as [<-|].
  - rewrite list_lookup_alter_eq. destruct (processes s !! i); naive_solver.
  - rewrite list_lookup_alter_ne by done. naive_solver.
Qed.

Lemma set_phase_alive s i k t j : alive_at (set_phase i k t s) j ↔ alive_at s j.
Proof.
  unfold alive_at. split.
  - intros (p & (q & Hq & ->)%set_phase_lookup & Ha). exists q. by case_decide.
  - intros (q & Hq & Ha). eexists. split; [apply set_phase_lookup; eauto|]. by case_decide.
Qed.

Lemma guarded_thread_step i k s s' : thread_step i k s s' → guarded s → guarded s'.
Proof.
  assert (∀ x t m, guarded s → (∀ j l, mutex x = Some (j, l) → alive_at s j) → processes x = processes s →
    m = mutex x → guarded (set_phase i k t x)) as Hset.
  { intros x t m [H1 _] Hm Hx _. split.
    - intros j p (q & Hq & ->)%set_phase_lookup. rewrite Hx in Hq. case_decide; [simpl; rewrite length_insert|]; eauto.
    - intros j l Hj. apply set_phase_alive. unfold alive_at. rewrite Hx. exact (Hm j l Hj). }
  assert (∀ t, thread_at s i k t → alive_at s i) as Hi by (intros t (p & ? & ? & _); by exists p).
  intros Hs Hg. pose proof (owner_lives _ Hg) as Ho.
  destruct Hs; (eapply Hset; [exact Hg| |reflexivity..]); cbn; try exact Ho; try done; intros ?? [= <- <-]; eauto.
Qed.

Lemma locked_not_killed sig t :
  sig ∈ Signals.g_new_mask → locked t → sig ∉ blocked t → sig ∈ handled t.
Proof.
  intros Hs Hl Hb. destruct t as [| | | | |[]|]; simpl in *; try done; set_solver.
Qed.

Lemma guarded_kill d0 sig i p s :
  sig ∈ Signals.g_new_mask → processes s !! i = Some p → kills sig p →
  consistent d0 s → guarded s → guarded (kill i s).
Proof.
  intros Hsig Hp [Hex Hall] Hc [H1 Ho]. split.
  - intros j q Hq. cbn [processes kill] in Hq. destruct (decide (i = j)) as [<-|].
    + rewrite list_lookup_alter_eq, Hp in Hq. injection Hq as <-. exact (H1 i p Hp).
    + rewrite list_lookup_alter_ne in Hq by done. eauto.
  - cbn [mutex kill]. intros j k Hm. destruct (Ho j k Hm) as (q & Hq & Ha).
    pose proof (database _ _ Hc) as Hd. rewrite Hm in Hd. destruct Hd as (t & (q' & Hq' & Ht) & Hl & _).
    replace q' with q in * by congruence. exists q. split; [|done].
    cbn [processes kill]. destruct (decide (i = j)) as [<-|]; [|by rewrite list_lookup_alter_ne].
    exfalso. replace p with q in * by congruence. pose proof (H1 _ _ Hp) as H1p.
    destruct (threads q) as [|u [|]]; [done| |done]. destruct k as [|k]; [|done].
    injection Ht as ->. apply Exists_cons in Hex as [Hb|Hx]; [|by inversion Hx].
    apply Forall_cons in Hall as [Hh _]. apply Hh. by apply locked_not_killed.
Qed.

Lemma guarded_reachable sent d n s :
  (∀ sig, sent sig → sig ∈ Signals.g_new_mask) →
  rtc (step sent) (start d (replicate n 1%nat)) s → consistent d s ∧ guarded s.
Proof.
  intros Hsent Hr. remember (start d (replicate n 1%nat)) as s0 eqn:E. assert (consistent d s0 ∧ guarded s0) as Hc.
  { subst. split; [apply consistent_start|]. split; [|done].
    intros i p Hp. cbn in Hp. apply list_lookup_fmap_Some in Hp as (m & -> & Hm).
    apply lookup_replicate in Hm as [-> _]. done. }
  clear E. induction Hr as [|s1 s2 s3 Hs _ IH]; [done|]. apply IH. destruct Hc as [Hc Hg].
  destruct Hs as [i k s2 Hs|i sig p Hsig Hp Ha Hk].
  - split; [by eapply consistent_thread_step|by eapply guarded_thread_step].
  - split; [by apply consistent_kill|by eapply guarded_kill; eauto].
Qed.

(** ** The owner goes on *)

Lemma thread_at_next s x i k t t' :
  thread_at s i k t → processes x = processes s → thread_at (set_phase i k t' x) i k t'.
Proof.
  intros Ht Hx. apply (thread_at_set _ _ _ t); [|by rewrite decide_True].
  unfold thread_at. by rewrite Hx.
Qed.

Lemma owner_finishes i k s t :
  thread_at s i k t → locked t → ∃ s', rtc (thread_step i k) s s' ∧ mutex s' = None.
Proof.
  intros Ht Hl. destruct t as [| | |op todo| |[]|]; try done.
  - clear Hl. revert s Ht. induction todo as [|f todo IH]; intros s Ht.
    + eexists. split; [by eapply rtc_once, t_unlock|done].
    + destruct (IH (set_phase i k (Writing op todo) (set_db (f (db s)) s))) as (s' & Hs & Hm).
      { by eapply thread_at_next. }
      exists s'. split; [|done]. eapply rtc_l; [by eapply t_write|done].
  - eexists. split; [|shelve]. eapply rtc_l; [by eapply t_look|]. eapply rtc_once, t_unlock_view.
    by eapply thread_at_next. Unshelve. done.
  - eexists. split; [by eapply rtc_once, t_unlock_view|done].
Qed.

Lemma owner_thread d0 s i k :
  consistent d0 s → guarded s → mutex s = Some (i, k) → ∃ t, thread_at s i k t ∧ locked t.
Proof.
  intros Hc [_ Ho] Hm. pose proof (database _ _ Hc) as Hd. rewrite Hm in Hd.
  destruct Hd as (t & (p & Hp & Ht) & Hl & _), (Ho i k Hm) as (q & Hq & Ha).
  exists t. split; [|done]. exists p. split; [done|]. split; [congruence|done].
Qed.

(** ** A dead owner *)

(** The thread [k] of the dead process [i] has the mutex. *)
Definition abandoned (s : system) (i k : nat) : Prop :=
  mutex s = Some (i, k) ∧ ∃ p, processes s !! i = Some p ∧ alive p = false.

Lemma abandoned_step sent d0 s s' i k :
  step sent s s' → consistent d0 s → abandoned s i k →
  abandoned s' i k ∧ db s' = db s ∧ history s' = history s ∧
  (∀ v, (false, v) ∈ views s' → (false, v) ∈ views s).
Proof.
  intros Hs Hc [Hm (p & Hp & Ha)]. destruct Hs as [j l s' Hs|j sig q _ Hq _ _].
  - assert (∀ t, thread_at s j l t → j ≠ i ∧ ¬ locked t) as Hj.
    { intros t Ht. assert (j ≠ i) as Hji by (destruct Ht as (q & Hq & Hb & _); congruence). split; [done|].
      intros Hl. pose proof (one_owner _ _ Hc _ _ _ (thread_at_phase _ _ _ _ Ht) Hl). congruence. }
    assert (∀ x t, processes x = processes s → mutex x = mutex s → j ≠ i → abandoned (set_phase j l t x) i k) as Hset.
    { intros x t Hx Hmx Hji. split; [cbn; congruence|]. exists p. split; [|done]. cbn [processes set_phase].
      by rewrite list_lookup_alter_ne, Hx. }
    destruct Hs as [j' Ht|b Ht|op Ht Hn|Ht Hn|Ht|op f todo Ht|op Ht|Ht|Ht|Ht|j' Ht];
      destruct (Hj _ Ht) as [Hji Hl]; try (by destruct Hl); try congruence;
      (split; [by apply Hset|done || (do 2 (split; [done|]))]).
    intros v. cbn [views set_phase add_view]. rewrite elem_of_app, list_elem_of_singleton. by intros [|[=]].
  - split; [|done]. split; [done|]. cbn [processes kill]. destruct (decide (j = i)) as [->|].
    + rewrite list_lookup_alter_eq, Hp. by eexists.
    + rewrite list_lookup_alter_ne by done. eauto.
Qed.

Lemma abandoned_forever sent d0 s s' i k :
  rtc (step sent) s s' → consistent d0 s → abandoned s i k →
  abandoned s' i k ∧ db s' = db s ∧ history s' = history s ∧
  (∀ v, (false, v) ∈ views s' → (false, v) ∈ views s).
Proof.
  induction 1 as [|s1 s2 s3 Hs _ IH]; intros Hc Ha; [done|].
  destruct (abandoned_step _ _ _ _ _ _ Hs Hc Ha) as (Ha2 & Hd2 & Hh2 & Hv2).
  assert (consistent d0 s2) as Hc2.
  { destruct Hs; [by eapply consistent_thread_step|by apply consistent_kill]. }
  destruct (IH Hc2 Ha2) as (Ha3 & Hd3 & Hh3 & Hv3). split; [done|]. split; [congruence|]. split; [congruence|eauto].
Qed.

(** A program with two threads, the first in the middle of an operation, and a
    process with one thread. *)
Definition halfway (op : storage_op) (d : St) (todo : list (St → St)) : system :=
  mkSystem d (Some (0%nat, 0%nat)) [mkProcess true [Writing op todo; Idle]; mkProcess true [Idle]] [] [].

Lemma halfway_writes sent op d did todo :
  rtc (step sent) (halfway op d (did ++ todo)) (halfway op (run_writes did d) todo).
Proof.
  revert d. induction did as [|f did IH]; intros d; [done|]. eapply rtc_l; [|apply IH].
  apply (step_thread _ _ 0 0), (t_write 0 0 (halfway op d (f :: did ++ todo)) op f). by eexists.
Qed.

Lemma halfway_reachable sent op d did todo :
  writes op = did ++ todo →
  rtc (step sent) (start d [2%nat; 1%nat]) (halfway op (run_writes did d) todo).
Proof.
  intros Hop. set (s1 := set_phase 0 0 (Masked (Update op)) (start d [2%nat; 1%nat])).
  eapply rtc_l; [eapply (step_thread _ _ 0 0 s1), t_mask; by eexists|].
  eapply rtc_l; [|apply halfway_writes]. rewrite <- Hop.
  apply (step_thread _ _ 0 0), (t_lock 0 0 s1 op); [by eexists|done].
Qed.

(** ** Theorems *)

(** C10.  The interprocess mutex keeps the database consistent: whatever programs
    and viewers with any number of threads do, and whichever signals kill
    them, the database holds the operations that are complete, each as a
    whole and in the order in which they were completed, and beyond them the
    first writes of the operation of the one thread that has the mutex.
    Every viewer that waits for the mutex sees a database that a prefix of
    the operations made. *)
Theorem shared_database_is_consistent sent d counts s :
  rtc (step sent) (start d counts) s →
  (∀ i j k l t u, phase_at s i k t → phase_at s j l u → locked t → locked u → i = j ∧ k = l) ∧
  (mutex s = None → db s = run_ops (history s) d) ∧
  (∀ i k op todo, phase_at s i k (Writing op todo) →
    ∃ did, writes op = did ++ todo ∧ db s = run_writes did (run_ops (history s) d)) ∧
  (∀ v, (false, v) ∈ views s → ∃ ops, ops `prefix_of` history s ∧ v = run_ops ops d).
Proof.
  intros Hc%consistent_reachable. split; [|split; [|split]].
  - intros i j k l t u Ht Hu Hlt Hlu. pose proof (one_owner _ _ Hc _ _ _ Ht Hlt).
    pose proof (one_owner _ _ Hc _ _ _ Hu Hlu). by simplify_eq.
  - intros Hm. pose proof (database _ _ Hc) as Hd. by rewrite Hm in Hd.
  - intros i k op todo Ht. by destruct (consistent_owner _ _ _ _ _ Hc Ht I).
  - apply (views_are_prefixes _ _ Hc).
Qed.

(** C32.  The blocked signals do what they are for in programs and viewers with one
    thread: whoever sends them SIGINT, SIGQUIT, SIGABRT or SIGTERM, and
    whenever, a thread that has the mutex is alive, and by its own steps it
    releases the mutex and leaves complete operations. *)
Theorem signals_do_not_hold_database sent d n s i k :
  (∀ sig, sent sig → sig ∈ Signals.g_new_mask) →
  rtc (step sent) (start d (replicate n 1%nat)) s →
  mutex s = Some (i, k) →
  alive_at s i ∧
  ∃ s', rtc (thread_step i k) s s' ∧ mutex s' = None ∧ db s' = run_ops (history s') d.
Proof.
  intros Hsent Hr Hm. destruct (guarded_reachable _ _ _ _ Hsent Hr) as [Hc Hg].
  split; [by eapply owner_lives|]. destruct (owner_thread _ _ _ _ Hc Hg Hm) as (t & Ht & Hl).
  destruct (owner_finishes _ _ _ _ Ht Hl) as (s' & Hs & Hn). exists s'. split; [done|]. split; [done|].
  assert (consistent d s') as Hc'.
  { clear -Hs Hc. induction Hs as [|s1 s2 s3 Hs _ IH]; [done|]. by eapply IH, consistent_thread_step. }
  pose proof (database _ _ Hc') as Hd. by rewrite Hn in Hd.
Qed.

(** They do not in a program with a second thread: [pthread_sigmask] blocks a
    signal for the calling thread only, so that SIGTERM can end the program
    while the first thread has the mutex, after any number of the writes of
    its operation.  From then on the database is the one of that moment, no
    program completes an operation and no viewer with the lock sees anything. *)
Theorem terminated_program_holds_database sent d op did todo :
  sent Signals.SIGTERM → writes op = did ++ todo →
  ∃ s, rtc (step sent) (start d [2%nat; 1%nat]) s ∧
    ∀ s', rtc (step sent) s s' →
      mutex s' = Some (0%nat, 0%nat) ∧ ¬ alive_at s' 0 ∧
      db s' = run_writes did d ∧ history s' = [] ∧ ∀ v, (false, v) ∉ views s'.
Proof.
  intros Hsent Hop. set (s := halfway op (run_writes did d) todo).
  assert (rtc (step sent) (start d [2%nat; 1%nat]) (kill 0 s)) as Hr.
  { etrans; [apply (halfway_reachable sent op d did todo Hop)|].
    apply rtc_once. eapply (step_kill _ _ _ Signals.SIGTERM); [done..|]. split; cbn.
    - apply Exists_cons_tl, Exists_cons_hd. set_solver.
    - repeat constructor; set_solver. }
  exists (kill 0 s). split; [done|]. intros s' Hs'.
  destruct (abandoned_forever _ d _ _ 0 0 Hs') as ([Hm (p & Hp & Ha)] & Hd & Hh & Hv).
  - by eapply consistent_reachable.
  - split; [done|]. by eexists.
  - split; [done|]. split; [intros (q & Hq & Hb); congruence|]. split; [done|]. split; [done|].
    intros v Hin%Hv. by apply elem_of_nil in Hin.
Qed.

(** A viewer with [--no-lock] sees every state in between, too: after any
    number of the writes of an operation. *)
Theorem unlocked_view_sees_any_write sent d op did todo :
  writes op = did ++ todo →
  ∃ s, rtc (step sent) (start d [2%nat; 1%nat]) s ∧ history s = [] ∧ (true, run_writes did d) ∈ views s.
Proof.
  intros Hop. set (s := halfway op (run_writes did d) todo).
  set (s1 := set_phase 1 0 (Masked (View true)) s).
  set (s2 := set_phase 1 0 (Handling true) s1).
  exists (set_phase 1 0 (Seen true) (add_view true s2)).
  split; [|split; [done|by apply list_elem_of_singleton]].
  etrans; [apply (halfway_reachable sent op d did todo Hop)|].
  eapply rtc_l; [eapply (step_thread _ _ 1 0 s1), t_mask; by eexists|].
  eapply rtc_l; [eapply (step_thread _ _ 1 0 s2), t_handler; by eexists|].
  apply rtc_once. eapply (step_thread _ _ 1 0), t_no_lock. by eexists.
Qed.

End sharing.

(** ** Witnesses *)

Definition demo_op : storage_op := OpAdd 4096 8 [demo_frame 7; demo_frame 9] 1.

Definition demo_halfway : @system ref_index :=
  halfway demo_op (run_writes (take 1 (writes demo_op)) demo_storage) (drop 1 (writes demo_op)).

Lemma demo_halfway_writes :
  rtc (step (λ _, False)) (start demo_storage [2%nat; 1%nat]) demo_halfway.
Proof. apply halfway_reachable. by rewrite take_drop. Qed.

Lemma shared_database_is_consistent_witness :
  ∃ did, writes demo_op = did ++ drop 1 (writes demo_op) ∧
    db demo_halfway = run_writes did (run_ops [] demo_storage).
Proof.
  destruct (shared_database_is_consistent (λ _, False) demo_storage [2%nat; 1%nat] demo_halfway)
    as (_ & _ & Hw & _).
  - exact demo_halfway_writes.
  - apply (Hw 0%nat 0%nat). eexists. by split.
Defined.

(** A program that has the mutex, and a viewer that waits. *)
Definition demo_held : @system ref_index :=
  set_phase 0 0 (Writing demo_op (writes demo_op)) (set_mutex (Some (0%nat, 0%nat))
    (set_phase 0 0 (Masked (Update demo_op)) (start demo_storage (replicate 2 1%nat)))).

Lemma demo_held_reachable :
  rtc (step (λ sig, sig = Signals.SIGTERM)) (start demo_storage (replicate 2 1%nat)) demo_held.
Proof.
  eapply rtc_l; [eapply (step_thread _ _ 0 0), (t_mask _ _ _ (Update demo_op)); by eexists|].
  apply rtc_once. eapply (step_thread _ _ 0 0), t_lock; [by eexists|done].
Qed.

Lemma signals_do_not_hold_database_witness :
  alive_at demo_held 0 ∧
  ∃ s', rtc (thread_step 0 0) demo_held s' ∧ mutex s' = None ∧ db s' = run_ops (history s') demo_storage.
Proof.
  apply (signals_do_not_hold_database (λ sig, sig = Signals.SIGTERM) demo_storage 2 demo_held 0 0).
  - intros sig ->. set_solver.
  - exact demo_held_reachable.
  - reflexivity.
Defined.

Lemma terminated_program_holds_database_witness :
  ∃ s, rtc (step (λ sig, sig = Signals.SIGTERM)) (start demo_storage [2%nat; 1%nat]) s ∧
    ∀ s', rtc (step (λ sig, sig = Signals.SIGTERM)) s s' →
      mutex s' = Some (0%nat, 0%nat) ∧ ¬ alive_at s' 0 ∧
      db s' = run_writes (take 1 (writes demo_op)) demo_storage ∧ history s' = [] ∧
      ∀ v, (false, v) ∉ views s'.
Proof.
  apply (terminated_program_holds_database _ demo_storage demo_op _ (drop 1 (writes demo_op))).
  - reflexivity.
  - reflexivity.
Defined.

(** What the viewer without the lock sees is neither the database before the
    operation nor the one after it. *)
Lemma unlocked_view_sees_any_write_witness :
  ∃ s, rtc (step (λ _, False)) (start demo_storage [2%nat; 1%nat]) s ∧ history s = [] ∧
    ∃ v, (true, v) ∈ views s ∧ v ≠ demo_storage ∧ v ≠ run_op demo_storage demo_op.
Proof.
  destruct (unlocked_view_sees_any_write (λ _, False) demo_storage demo_op
    (take 1 (writes demo_op)) (drop 1 (writes demo_op)) eq_refl) as (s & Hr & Hh & Hv).
  exists s. split; [exact Hr|]. split; [exact Hh|]. eexists. split; [exact Hv|].
  split; intros E; apply (f_equal (λ d, stdpp.base.size (symtab (m_container d)))) in E; vm_compute in E; discriminate E.
Defined.

End Sharing.
