(* ===== verification/Atomic.v ===== *)
(** * Atomic operations

    src/memhook/atomic-asm-x86.h: loads, stores, exchanges, compare-and-swap
    and fetch-and-add on a word in memory, as the x86 instructions they are
    made of do them.  An operation takes the value in memory and returns its
    result and the new value in memory.  The operations for 32 and 64 bits
    differ in the width alone, but for [Barrier_AtomicAddAndFetch].  The
    barriers order memory accesses of other cells and leave the cell as it
    is.

    src/memhook/atomic-gcc.h: the same operations for other processors, made
    of the compiler's built-in functions.  The two files are two
    implementations of one interface, the record [AtomicOps]. *)
From S2P Require Import Prelude.

Module Atomic.

Section atomic.
(** the width of [atomic32_t] or [atomic64_t] *)
Context (w : Z).

Definition NoBarrier_Load (mem : Z) : Z * Z := (mem, mem).
Definition Release_Load (mem : Z) : Z * Z := (mem, mem).
Definition Acquire_Load (mem : Z) : Z * Z := let value := mem in (value, mem).

Definition NoBarrier_Store (value mem : Z) : Z := value.
Definition Release_Store (value mem : Z) : Z := value.
Definition Acquire_Store (value mem : Z) : Z := value.

(** [xchg]: the memory and the register exchange their values *)
Definition NoBarrier_AtomicExchange (new_value mem : Z) : Z * Z := (mem, new_value).
Definition Release_AtomicExchange := NoBarrier_AtomicExchange.
Definition Acquire_AtomicExchange := NoBarrier_AtomicExchange.

(** [lock; cmpxchg]: compares the memory with the accumulator, stores the new
    value if they are equal; the accumulator has the old value *)
Definition NoBarrier_CompareAndSwap (old_value new_value mem : Z) : Z * Z :=
  if mem =? old_value then (mem, new_value) else (mem, mem).
Definition Release_CompareAndSwap := NoBarrier_CompareAndSwap.
Definition Acquire_CompareAndSwap := NoBarrier_CompareAndSwap.

(** [lock; xadd]: exchange, then add *)
Definition xadd (temp mem : Z) : Z * Z := (mem, swrap w (mem + temp)).

Definition NoBarrier_AtomicFetchAndAdd (value mem : Z) : Z * Z :=
  let '(temp, mem) := xadd value mem in (temp, mem).
Definition NoBarrier_AtomicAddAndFetch (value mem : Z) : Z * Z :=
  let '(temp, mem) := xadd value mem in (swrap w (temp + value), mem).
Definition Barrier_AtomicFetchAndAdd := NoBarrier_AtomicFetchAndAdd.

End atomic.

(** The two versions of the last operation. *)
Definition Barrier_AtomicAddAndFetch32 := NoBarrier_AtomicAddAndFetch 32.
Definition Barrier_AtomicAddAndFetch64 := NoBarrier_AtomicFetchAndAdd 64.

(** ** The compiler's built-in functions *)

Section builtins.
Context (w : Z).

Definition atomic_store_n (value mem : Z) : Z := value.
Definition atomic_load_n (mem : Z) : Z * Z := (mem, mem).
Definition atomic_exchange_n (new_value mem : Z) : Z * Z := (mem, new_value).

(** The first result says whether the values were equal, the second is what
    the variable with the expected value holds afterwards. *)
Definition atomic_compare_exchange_n (expected desired mem : Z) : bool * Z * Z :=
  if mem =? expected then (true, expected, desired) else (false, mem, mem).

Definition atomic_fetch_add (value mem : Z) : Z * Z := (mem, swrap w (mem + value)).
Definition atomic_add_fetch (value mem : Z) : Z * Z :=
  (swrap w (mem + value), swrap w (mem + value)).

Definition gcc_CompareAndSwap (old_value new_value mem : Z) : Z * Z :=
  let '(_, old_value, mem) := atomic_compare_exchange_n old_value new_value mem in (old_value, mem).
End builtins.

(** ** Both implementations of the interface *)

Record AtomicOps := {
  op_NoBarrier_Load : Z → Z * Z;
  op_Release_Load : Z → Z * Z;
  op_Acquire_Load : Z → Z * Z;
  op_NoBarrier_Store : Z → Z → Z;
  op_Release_Store : Z → Z → Z;
  op_Acquire_Store : Z → Z → Z;
  op_NoBarrier_AtomicExchange : Z → Z → Z * Z;
  op_Release_AtomicExchange : Z → Z → Z * Z;
  op_Acquire_AtomicExchange : Z → Z → Z * Z;
  op_NoBarrier_CompareAndSwap : Z → Z → Z → Z * Z;
  op_Release_CompareAndSwap : Z → Z → Z → Z * Z;
  op_Acquire_CompareAndSwap : Z → Z → Z → Z * Z;
  op_NoBarrier_AtomicFetchAndAdd : Z → Z → Z * Z;
  op_NoBarrier_AtomicAddAndFetch : Z → Z → Z * Z;
  op_Barrier_AtomicFetchAndAdd : Z → Z → Z * Z;
  op_Barrier_AtomicAddAndFetch : Z → Z → Z * Z;
}.

Definition x86_atomic32 : AtomicOps := {|
  op_NoBarrier_Load := NoBarrier_Load;
  op_Release_Load := Release_Load;
  op_Acquire_Load := Acquire_Load;
  op_NoBarrier_Store := NoBarrier_Store;
  op_Release_Store := Release_Store;
  op_Acquire_Store := Acquire_Store;
  op_NoBarrier_AtomicExchange := NoBarrier_AtomicExchange;
  op_Release_AtomicExchange := Release_AtomicExchange;
  op_Acquire_AtomicExchange := Acquire_AtomicExchange;
  op_NoBarrier_CompareAndSwap := NoBarrier_CompareAndSwap;
  op_Release_CompareAndSwap := Release_CompareAndSwap;
  op_Acquire_CompareAndSwap := Acquire_CompareAndSwap;
  op_NoBarrier_AtomicFetchAndAdd := NoBarrier_AtomicFetchAndAdd 32;
  op_NoBarrier_AtomicAddAndFetch := NoBarrier_AtomicAddAndFetch 32;
  op_Barrier_AtomicFetchAndAdd := Barrier_AtomicFetchAndAdd 32;
  op_Barrier_AtomicAddAndFetch := Barrier_AtomicAddAndFetch32;
|}.

Definition x86_atomic64 : AtomicOps := {|
  op_NoBarrier_Load := NoBarrier_Load;
  op_Release_Load := Release_Load;
  op_Acquire_Load := Acquire_Load;
  op_NoBarrier_Store := NoBarrier_Store;
  op_Release_Store := Release_Store;
  op_Acquire_Store := Acquire_Store;
  op_NoBarrier_AtomicExchange := NoBarrier_AtomicExchange;
  op_Release_AtomicExchange := Release_AtomicExchange;
  op_Acquire_AtomicExchange := Acquire_AtomicExchange;
  op_NoBarrier_CompareAndSwap := NoBarrier_CompareAndSwap;
  op_Release_CompareAndSwap := Release_CompareAndSwap;
  op_Acquire_CompareAndSwap := Acquire_CompareAndSwap;
  op_NoBarrier_AtomicFetchAndAdd := NoBarrier_AtomicFetchAndAdd 64;
  op_NoBarrier_AtomicAddAndFetch := NoBarrier_AtomicAddAndFetch 64;
  op_Barrier_AtomicFetchAndAdd := Barrier_AtomicFetchAndAdd 64;
  op_Barrier_AtomicAddAndFetch := Barrier_AtomicAddAndFetch64;
|}.

Definition gcc_atomic32 : AtomicOps := {|
  op_NoBarrier_Load := atomic_load_n;
  op_Release_Load := atomic_load_n;
  op_Acquire_Load := atomic_load_n;
  op_NoBarrier_Store := atomic_store_n;
  op_Release_Store := atomic_store_n;
  op_Acquire_Store := atomic_store_n;
  op_NoBarrier_AtomicExchange := atomic_exchange_n;
  op_Release_AtomicExchange := atomic_exchange_n;
  op_Acquire_AtomicExchange := atomic_exchange_n;
  op_NoBarrier_CompareAndSwap := gcc_CompareAndSwap;
  op_Release_CompareAndSwap := gcc_CompareAndSwap;
  op_Acquire_CompareAndSwap := gcc_CompareAndSwap;
  op_NoBarrier_AtomicFetchAndAdd := atomic_fetch_add 32;
  op_NoBarrier_AtomicAddAndFetch := atomic_add_fetch 32;
  op_Barrier_AtomicFetchAndAdd := atomic_fetch_add 32;
  op_Barrier_AtomicAddAndFetch := atomic_add_fetch 32;
|}.

Definition gcc_atomic64 : AtomicOps := {|
  op_NoBarrier_Load := atomic_load_n;
  op_Release_Load := atomic_load_n;
  op_Acquire_Load := atomic_load_n;
  op_NoBarrier_Store := atomic_store_n;
  op_Release_Store := atomic_store_n;
  op_Acquire_Store := atomic_store_n;
  op_NoBarrier_AtomicExchange := atomic_exchange_n;
  op_Release_AtomicExchange := atomic_exchange_n;
  op_Acquire_AtomicExchange := atomic_exchange_n;
  op_NoBarrier_CompareAndSwap := gcc_CompareAndSwap;
  op_Release_CompareAndSwap := gcc_CompareAndSwap;
  op_Acquire_CompareAndSwap := gcc_CompareAndSwap;
  op_NoBarrier_AtomicFetchAndAdd := atomic_fetch_add 64;
  op_NoBarrier_AtomicAddAndFetch := atomic_add_fetch 64;
  op_Barrier_AtomicFetchAndAdd := atomic_fetch_add 64;
  op_Barrier_AtomicAddAndFetch := atomic_add_fetch 64;
|}.

(** Equal results and equal effects of every operation but the last. *)
Record ops_agree (o1 o2 : AtomicOps) : Prop := {
  agree_load m : op_NoBarrier_Load o1 m = op_NoBarrier_Load o2 m ∧
    op_Release_Load o1 m = op_Release_Load o2 m ∧ op_Acquire_Load o1 m = op_Acquire_Load o2 m;
  agree_store v m : op_NoBarrier_Store o1 v m = op_NoBarrier_Store o2 v m ∧
    op_Release_Store o1 v m = op_Release_Store o2 v m ∧
    op_Acquire_Store o1 v m = op_Acquire_Store o2 v m;
  agree_exchange v m : op_NoBarrier_AtomicExchange o1 v m = op_NoBarrier_AtomicExchange o2 v m ∧
    op_Release_AtomicExchange o1 v m = op_Release_AtomicExchange o2 v m ∧
    op_Acquire_AtomicExchange o1 v m = op_Acquire_AtomicExchange o2 v m;
  agree_cas v n m : op_NoBarrier_CompareAndSwap o1 v n m = op_NoBarrier_CompareAndSwap o2 v n m ∧
    op_Release_CompareAndSwap o1 v n m = op_Release_CompareAndSwap o2 v n m ∧
    op_Acquire_CompareAndSwap o1 v n m = op_Acquire_CompareAndSwap o2 v n m;
  agree_add v m : op_NoBarrier_AtomicFetchAndAdd o1 v m = op_NoBarrier_AtomicFetchAndAdd o2 v m ∧
    op_NoBarrier_AtomicAddAndFetch o1 v m = op_NoBarrier_AtomicAddAndFetch o2 v m ∧
    op_Barrier_AtomicFetchAndAdd o1 v m = op_Barrier_AtomicFetchAndAdd o2 v m;
}.

Lemma cas_agree v n m : NoBarrier_CompareAndSwap v n m = gcc_CompareAndSwap v n m.
Proof.
  unfold NoBarrier_CompareAndSwap, gcc_CompareAndSwap, atomic_compare_exchange_n.
  destruct (m =? v) eqn:Hm; [|done]. zify_bool. by subst.
Qed.

(** What the sum of two words is equal to one of them says about the other. *)
Lemma swrap_add_id w v m : 0 < w → in_s w m → m = swrap w (m + v) ↔ wrap w v = 0.
Proof.
  intros Hw Hm. rewrite <- (swrap_small w m) at 1 by done.
  unfold swrap, wrap. pose proof (Z.pow_pos_nonneg 2 w ltac:(lia) ltac:(lia)) as Hp.
  split; intros Heq.
  - assert ((m + 2 ^ (w - 1)) `mod` 2 ^ w = (m + v + 2 ^ (w - 1)) `mod` 2 ^ w) as Hmod by lia.
    apply (f_equal (λ z, (z - (m + 2 ^ (w - 1))) `mod` 2 ^ w)) in Hmod.
    rewrite !Zminus_mod_idemp_l, Z.sub_diag, Z.mod_0_l in Hmod by lia.
    rewrite Hmod. f_equal. lia.
  - replace (m + v + 2 ^ (w - 1)) with (v + (m + 2 ^ (w - 1))) by lia.
    rewrite <- (Zplus_mod_idemp_l v), Heq. done.
Qed.

(** ** Properties *)

(** The two implementations of the atomic operations agree: each
    operation has the same result and the same effect on the cell, for both
    widths, with one exception.  The 64-bit [Barrier_AtomicAddAndFetch] of
    the x86 file has the right effect and returns the value from before the
    addition, which is wrong unless nothing is added modulo the width. *)
Theorem implementations_agree :
  ops_agree x86_atomic32 gcc_atomic32 ∧ ops_agree x86_atomic64 gcc_atomic64 ∧
  (∀ v m, op_Barrier_AtomicAddAndFetch x86_atomic32 v m = op_Barrier_AtomicAddAndFetch gcc_atomic32 v m) ∧
  (∀ v m, (op_Barrier_AtomicAddAndFetch x86_atomic64 v m).2 =
     (op_Barrier_AtomicAddAndFetch gcc_atomic64 v m).2) ∧
  (∀ v m, in_s 64 m →
     (op_Barrier_AtomicAddAndFetch x86_atomic64 v m).1 =
       (op_Barrier_AtomicAddAndFetch gcc_atomic64 v m).1 ↔ wrap 64 v = 0).
Proof.
  split_and!.
  1, 2: split; intros; split_and!; first [done|apply cas_agree].
  - done.
  - done.
  - intros v m Hm. simpl. by apply swrap_add_id.
Qed.

(** ** Examples *)

Lemma implementations_agree_witness :
  (op_Barrier_AtomicAddAndFetch x86_atomic64 1 7).1 ≠ (op_Barrier_AtomicAddAndFetch gcc_atomic64 1 7).1.
Proof.
  destruct implementations_agree as (_ & _ & _ & _ & Hret).
  intros Heq. apply (Hret 1 7) in Heq; [discriminate Heq|by_decide].
Defined.

End Atomic.
