(* ===== verification/SpinLock.v ===== *)
(** * The spin lock

    src/memhook/spin_lock.h and src/memhook/spin_lock.cpp.  A thread that
    locks or unlocks is a state machine whose steps are the atomic operations
    on the lock word; the threads interleave in any order.  Sleeping in the
    kernel is a step like any other: the wait has a timeout, so a sleeping
    thread can always go on. *)
From S2P Require Import Prelude Atomic.

Module SpinLock.
Import Atomic.

Definition kSpinLockFree : Z := 0.
Definition kSpinLockHeld : Z := 1.
Definition kSpinLockSleeper : Z := 2.

(** ** A thread *)

(** Where a thread is: outside, in [Lock], in [SpinLoop] called from
    [SlowLock], in the loop of [SlowLock], in the critical section, in
    [Unlock]. *)
Inductive pc :=
| Outside
| LockCas                                  (** before the compare-and-swap of [Lock] *)
| SpinLoad (c loop : Z)                    (** before the load in [SpinLoop] *)
| SpinCas (loop : Z)                       (** before the compare-and-swap of [SpinLoop] *)
| Loop (lock_value loop : Z)               (** at the condition of the [for] loop *)
| HeldCas (loop : Z)                       (** before the first compare-and-swap of the loop *)
| FreeCas (loop : Z)                       (** before the second one *)
| Delay (lock_value loop : Z)              (** before [SpinLockDelay] *)
| Critical
| UnlockXchg                               (** before the exchange of [Unlock] *)
| Wake.                                    (** in [SlowUnlock] *)

#[export] Instance pc_eq_dec : EqDecision pc.
Proof. solve_decision. Defined.

Section spin.
(** [g_adaptive_spin_count] *)
Context (g_adaptive_spin_count : Z).

(** A step of a thread, with the lock word. *)
Definition tstep (p : pc) (m_lock_value : Z) : pc * Z :=
  match p with
  | Outside => (LockCas, m_lock_value)
  | LockCas =>
      let '(prev, m) := Acquire_CompareAndSwap kSpinLockFree kSpinLockHeld m_lock_value in
      if prev =? kSpinLockFree then (Critical, m) else (SpinLoad g_adaptive_spin_count 0, m)
  | SpinLoad c loop =>
      let '(v, m) := NoBarrier_Load m_lock_value in
      if v =? kSpinLockFree then (SpinCas loop, m)
      else
        let c := i32 (c - 1) in
        if 0 <? c then (SpinLoad c loop, m) else (SpinCas loop, m)
  | SpinCas loop =>
      let '(prev, m) := Acquire_CompareAndSwap kSpinLockFree kSpinLockSleeper m_lock_value in
      (Loop prev loop, m)
  | Loop lock_value loop =>
      if lock_value =? kSpinLockFree then (Critical, m_lock_value)
      else if lock_value =? kSpinLockHeld then (HeldCas loop, m_lock_value)
      else (Delay lock_value loop, m_lock_value)
  | HeldCas loop =>
      let '(prev, m) := Acquire_CompareAndSwap kSpinLockHeld kSpinLockSleeper m_lock_value in
      if prev =? kSpinLockHeld then (Delay kSpinLockSleeper loop, m)
      else if prev =? kSpinLockFree then (FreeCas loop, m)
      else (Delay prev loop, m)
  | FreeCas loop =>
      let '(prev, m) := Acquire_CompareAndSwap kSpinLockFree kSpinLockSleeper m_lock_value in
      (Loop prev loop, m)
  | Delay _ loop => (SpinLoad g_adaptive_spin_count (i32 (loop + 1)), m_lock_value)
  | Critical => (UnlockXchg, m_lock_value)
  | UnlockXchg =>
      let '(prev, m) := Release_AtomicExchange kSpinLockFree m_lock_value in
      if prev =? kSpinLockHeld then (Outside, m) else (Wake, m)
  | Wake => (Outside, m_lock_value)
  end.

(** ** All threads *)

Record locks := mkLocks { lock_word : Z; threads : list pc }.

Inductive step : locks → locks → Prop :=
| step_thread l i p :
    threads l !! i = Some p →
    let r := tstep p (lock_word l) in
    step l (mkLocks r.2 (<[i := r.1]> (threads l))).

Definition init (n : nat) : locks := mkLocks kSpinLockFree (replicate n Outside).

(** A thread that runs alone. *)
Fixpoint run_alone (n : nat) (p : pc) (m : Z) : pc * Z :=
  match n with
  | O => (p, m)
  | S n => let '(p, m) := tstep p m in run_alone n p m
  end.

(** *** How long a thread sleeps *)

(** [GetSpinLockDelayNS (loop)]: the result and the new [rand]. *)
Definition GetSpinLockDelayNS (loop rand : Z) : Z * Z :=
  let r := u64 (0x5deece66d * u64 rand + 0xb) in
  let rand := i64 r in
  let r := u64 (Z.shiftl r 16) in
  let loop := if (loop <? 0) || (32 <? loop) then 32 else loop in
  (i32 (Z.shiftr r (44 - Z.shiftr loop 3)), rand).

(** The [tv_nsec] of the wait in [SpinLockDelay]: none in the first two
    rounds. *)
Definition SpinLockDelay_ns (g_have_futex : bool) (loop rand : Z) : option Z :=
  if loop =? 0 then None
  else if loop =? 1 then None
  else
    let tv_nsec := (GetSpinLockDelayNS (i32 loop) rand).1 in
    Some (if g_have_futex then i64 (tv_nsec * 32) else tv_nsec).

(** ** Lemmas *)

(** The threads that hold the lock, which includes one that has just swapped
    its value in. *)
Definition owns (p : pc) : Prop :=
  match p with
  | Critical | UnlockXchg => True
  | Loop v _ => v = kSpinLockFree
  | _ => False
  end.

#[export] Instance owns_dec p : Decision (owns p).
Proof. destruct p; simpl; apply _. Defined.

Definition owner_count (ps : list pc) : nat := length (filter owns ps).

(** The lock word says whether there is an owner. *)
Definition word_owners (m : Z) : nat := if m =? kSpinLockFree then 0 else 1.

Definition word_ok (m : Z) : Prop := m = kSpinLockFree ∨ m = kSpinLockHeld ∨ m = kSpinLockSleeper.

Definition locks_inv (l : locks) : Prop :=
  word_ok (lock_word l) ∧ owner_count (threads l) = word_owners (lock_word l).

(** What a step of a thread does to the number of owners. *)
Lemma tstep_owners p m :
  word_ok m → (owns p → m ≠ kSpinLockFree) →
  let r := tstep p m in
  word_ok r.2 ∧
  (word_owners r.2 + (if decide (owns p) then 1 else 0) =
   word_owners m + (if decide (owns r.1) then 1 else 0))%nat.
Proof.
  unfold word_ok, word_owners, kSpinLockFree, kSpinLockHeld, kSpinLockSleeper in *.
  intros Hm Ho. destruct p; simpl in *; cbn;
    repeat (destruct Hm as [->|[->| ->]]); cbn; auto;
    try (specialize (Ho I); done); try (destruct (0 <? _); cbn; auto; fail).
  all: unfold kSpinLockFree, kSpinLockHeld in *.
  all: destruct (lock_value =? 0) eqn:E0; zify_bool; subst; cbn; auto.
  all: rewrite ?(decide_False (P := lock_value = 0)) by done.
  all: try (destruct (lock_value =? 1); cbn; auto; fail).
Qed.

Lemma owner_count_insert ps i p q :
  ps !! i = Some p →
  (owner_count (<[i := q]> ps) + (if decide (owns p) then 1 else 0) =
   owner_count ps + (if decide (owns q) then 1 else 0))%nat.
Proof.
  intros Hi. unfold owner_count. rewrite (insert_take_drop _ _ q) by (by eapply lookup_lt_Some).
  rewrite <- (take_drop_middle ps i p Hi) at 3.
  rewrite !filter_app, !length_app, !filter_cons. repeat case_decide; simpl; lia.
Qed.

Lemma owner_count_lookup ps i p : ps !! i = Some p → owns p → (0 < owner_count ps)%nat.
Proof.
  intros Hi Hp. unfold owner_count.
  assert (p ∈ filter owns ps) as Hin.
  { apply list_elem_of_filter. split; [done|]. by eapply list_elem_of_lookup_2. }
  destruct (filter owns ps); [by apply not_elem_of_nil in Hin|simpl; lia].
Qed.

Lemma step_inv l l' : locks_inv l → step l l' → locks_inv l'.
Proof.
  intros [Hw Hc] Hs. destruct Hs as [l i p Hi r]. simpl.
  destruct (tstep_owners p (lock_word l) Hw) as [Hw' Hcount].
  { intros Ho Hfree. pose proof (owner_count_lookup _ _ _ Hi Ho) as Hpos.
    rewrite Hc, Hfree in Hpos. cbn in Hpos. lia. }
  fold r in Hw', Hcount. split; [done|]. simpl.
  pose proof (owner_count_insert _ _ _ r.1 Hi). lia.
Qed.

Lemma init_inv n : locks_inv (init n).
Proof.
  split; [by left|]. cbn. unfold owner_count. induction n; [done|]. simpl.
  by rewrite filter_cons_False by (simpl; tauto).
Qed.

Lemma reachable_locks_inv n l : rtc step (init n) l → locks_inv l.
Proof.
  intros Hr. eapply (rtc_ind_r locks_inv (init n)); eauto using init_inv, step_inv.
Qed.

Lemma critical_held l i :
  locks_inv l → threads l !! i = Some Critical → lock_word l ≠ kSpinLockFree.
Proof.
  intros [_ Hc] Hi Hfree. pose proof (owner_count_lookup _ _ _ Hi I) as Hpos.
  rewrite Hc, Hfree in Hpos. cbn in Hpos. lia.
Qed.

Lemma critical_unique l i j :
  locks_inv l → threads l !! i = Some Critical → threads l !! j = Some Critical → i = j.
Proof.
  intros [_ Hc] Hi Hj. destruct (decide (i = j)) as [|Hne]; [done|]. exfalso.
  assert (owner_count (<[i := Outside]> (threads l)) + 1 = owner_count (threads l) + 0)%nat as Hd
    by exact (owner_count_insert _ _ _ Outside Hi).
  assert (<[i := Outside]> (threads l) !! j = Some Critical) as Hj'
    by (by rewrite list_lookup_insert_ne).
  pose proof (owner_count_lookup _ _ _ Hj' I). unfold word_owners in Hc. destruct (_ =? _); lia.
Qed.

(** ** Properties *)

(** C15.  Mutual exclusion: however the atomic operations of any number of
    threads interleave, at most one of them is in the critical section, and
    while one is there the lock word is not free. *)
Theorem mutual_exclusion n l i j :
  rtc step (init n) l → threads l !! i = Some Critical → threads l !! j = Some Critical →
  i = j ∧ lock_word l ≠ kSpinLockFree.
Proof.
  intros Hr Hi Hj. pose proof (reachable_locks_inv n l Hr) as Hinv.
  split; [by eapply critical_unique|by eapply critical_held].
Qed.

(** A free lock is taken: a thread anywhere in [Lock], however it got
    there, is in the critical section after at most five steps of its own if
    the others pause, and the lock word says so. *)
Theorem free_lock_is_taken p :
  p ≠ Outside → p ≠ Wake → ¬ owns p →
  ∃ k, (k ≤ 5)%nat ∧ (run_alone k p kSpinLockFree).1 = Critical ∧
    (run_alone k p kSpinLockFree).2 ≠ kSpinLockFree.
Proof.
  intros H1 H2 Ho. destruct p; try done.
  - by exists 1%nat; split_and!; [lia|..].
  - by exists 3%nat; split_and!; [lia|..].
  - by exists 2%nat; split_and!; [lia|..].
  - simpl in Ho. destruct (decide (lock_value = kSpinLockHeld)) as [->|Hh].
    + by exists 4%nat; split_and!; [lia|..].
    + exists 5%nat. split; [lia|]. cbn [run_alone tstep].
      rewrite (proj2 (Z.eqb_neq lock_value _)), (proj2 (Z.eqb_neq lock_value _)) by done. done.
  - by exists 3%nat; split_and!; [lia|..].
  - by exists 2%nat; split_and!; [lia|..].
  - by exists 4%nat; split_and!; [lia|..].
Qed.

(** The wait of a sleeping thread is a valid time below a second,
    whatever the state of the generator and the round. *)
Theorem sleep_is_below_a_second futex loop rand ns :
  SpinLockDelay_ns futex loop rand = Some ns → 0 ≤ ns < 10 ^ 9.
Proof.
  unfold SpinLockDelay_ns. destruct (loop =? 0); [done|]. destruct (loop =? 1); [done|].
  unfold GetSpinLockDelayNS. simpl fst.
  set (r := u64 (Z.shiftl _ 16)). set (l := if _ || _ then 32 else i32 loop).
  assert (0 ≤ r < 2 ^ 64) as Hr by (by apply wrap_in_u).
  assert (0 ≤ l ≤ 32) as Hl.
  { unfold l. destruct ((i32 loop <? 0) || (32 <? i32 loop)) eqn:Hb; [lia|].
    apply orb_false_iff in Hb as [? ?]. zify_bool. lia. }
  assert (0 ≤ Z.shiftr l 3 ≤ 4) as Hs.
  { rewrite Z.shiftr_div_pow2 by lia. change (2 ^ 3) with 8.
    split; [apply Z.div_pos; lia|]. apply Z.div_le_upper_bound; lia. }
  assert (0 ≤ Z.shiftr r (44 - Z.shiftr l 3) < 2 ^ 24) as Hns.
  { rewrite Z.shiftr_div_pow2 by lia. split; [apply Z.div_pos; lia|].
    apply Z.div_lt_upper_bound; [lia|]. rewrite <- Z.pow_add_r by lia.
    eapply Z.lt_le_trans; [apply Hr|]. apply Z.pow_le_mono_r; lia. }
  set (d := Z.shiftr r _) in *. clearbody d.
  rewrite (swrap_small 32 d) by range. intros [= <-]. destruct futex; [|range].
  rewrite swrap_small by range. range.
Qed.

End spin.

(** ** Examples *)

(** Two threads; the first one locks. *)
Definition demo_locks : locks := mkLocks kSpinLockHeld [Critical; Outside].

Lemma demo_locks_reachable : rtc (step 1000) (init 2) demo_locks.
Proof.
  eapply rtc_l; [by apply (step_thread 1000 (init 2) 0 Outside)|].
  eapply rtc_l; [by apply (step_thread 1000 (mkLocks kSpinLockFree [LockCas; Outside]) 0 LockCas)|].
  apply rtc_refl.
Qed.

Lemma mutual_exclusion_witness :
  (0 = 0)%nat ∧ lock_word demo_locks ≠ kSpinLockFree.
Proof.
  apply (mutual_exclusion 1000 2 demo_locks 0 0); [exact demo_locks_reachable|reflexivity..].
Defined.

Lemma free_lock_is_taken_witness :
  ∃ k, (k ≤ 5)%nat ∧ (run_alone 1000 k (SpinLoad 17 3) kSpinLockFree).1 = Critical ∧
    (run_alone 1000 k (SpinLoad 17 3) kSpinLockFree).2 ≠ kSpinLockFree.
Proof. apply free_lock_is_taken; [done|done|simpl; tauto]. Defined.

Lemma sleep_is_below_a_second_witness : 0 ≤ 14222272 < 10 ^ 9.
Proof. apply (sleep_is_below_a_second true 5 123456789). vm_compute; reflexivity. Defined.

End SpinLock.
