(* ===== verification/Futex.v ===== *)
(** * Sleeping in the spin lock

    src/memhook/spin_lock.cpp: [SpinLockDelay] and [SpinLockWake] with the
    futex calls, and the initialization that finds out what the machine has.

    File [SpinLock] takes a sleep for a step like any other.  Here a thread
    that waits in the kernel does nothing until it is woken up, or until its
    time is over; the kernel puts it to sleep only if the lock word is still
    what the thread has seen.  The threads of [SpinLock] are an abstraction of
    these. *)
From S2P Require Import Prelude Atomic SpinLock.

Module Futex.
Import SpinLock.

(** ** Initialization *)

Definition FUTEX_WAIT : Z := 0.
Definition FUTEX_WAKE : Z := 1.
Definition FUTEX_PRIVATE_FLAG : Z := 128.

Record globals := mkGlobals {
  g_adaptive_spin_count : Z;
  g_have_futex : bool;
  g_futex_private_flag : Z;
}.

(** [SpinLock_InitHelper]; [SysFutex op] is what the system call for an
    operation on a word nobody waits for returns *)
Definition SpinLock_InitHelper (cpu_count : Z) (SysFutex : Z → Z) : globals :=
  let have_futex := 0 <=? SysFutex FUTEX_WAKE in
  mkGlobals (if 1 <? cpu_count then 1000 else 0) have_futex
    (if have_futex && (SysFutex (Z.lor FUTEX_WAKE FUTEX_PRIVATE_FLAG) <? 0) then 0
     else FUTEX_PRIVATE_FLAG).

(** ** Threads *)

(** A thread runs, or waits in the kernel in round [loop] of [SlowLock]. *)
Inductive tstate := Run (p : pc) | Asleep (loop : Z).

#[export] Instance tstate_eq_dec : EqDecision tstate.
Proof. solve_decision. Defined.

Record system := mkSystem { word : Z; states : list tstate }.

Section futex.
Context (g : globals).

(** [SpinLockDelay (&m_lock_value, lock_value, ++loop)]: nothing or a yield in
    the first two rounds, then [FUTEX_WAIT], which compares the word with the
    value, or [nanosleep] *)
Definition SpinLockDelay (lock_value loop m_lock_value : Z) : tstate :=
  let loop := i32 (loop + 1) in
  let go_on := Run (SpinLoad (g_adaptive_spin_count g) loop) in
  if u32 loop =? 0 then go_on
  else if u32 loop =? 1 then go_on
  else if g_have_futex g then
    if m_lock_value =? lock_value then Asleep loop else go_on
  else go_on.

Definition wake_up (loop : Z) : tstate := Run (SpinLoad (g_adaptive_spin_count g) loop).

(** A step of a thread that is not in [SlowUnlock]. *)
Definition run_step (p : pc) (m_lock_value : Z) : tstate * Z :=
  match p with
  | Delay lock_value loop => (SpinLockDelay lock_value loop m_lock_value, m_lock_value)
  | _ => let '(p, m) := tstep (g_adaptive_spin_count g) p m_lock_value in (Run p, m)
  end.

(** A step of the system without time: a thread runs, or the thread in
    [SpinLockWake] wakes up one of the sleeping threads, if there is one. *)
Inductive step : system → system → Prop :=
| step_run s i p :
    states s !! i = Some (Run p) → p ≠ Wake →
    step s (mkSystem (run_step p (word s)).2 (<[i := (run_step p (word s)).1]> (states s)))
| step_wake_one s i j loop :
    g_have_futex g = true →
    states s !! i = Some (Run Wake) → states s !! j = Some (Asleep loop) →
    step s (mkSystem (word s) (<[j := wake_up loop]> (<[i := Run Outside]> (states s))))
| step_wake_none s i :
    states s !! i = Some (Run Wake) →
    (g_have_futex g = true → ∀ j loop, states s !! j ≠ Some (Asleep loop)) →
    step s (mkSystem (word s) (<[i := Run Outside]> (states s))).

(** The time of a sleeping thread is over, or a signal has woken it up. *)
Inductive timeout : system → system → Prop :=
| timeout_thread s i loop :
    states s !! i = Some (Asleep loop) →
    timeout s (mkSystem (word s) (<[i := wake_up loop]> (states s))).

Definition any_step (s s' : system) : Prop := step s s' ∨ timeout s s'.

Definition start (n : nat) : system := mkSystem kSpinLockFree (replicate n (Run Outside)).

(** ** Refinement of [SpinLock] *)

Definition abs_thread (t : tstate) : pc :=
  match t with Run p => p | Asleep loop => SpinLoad (g_adaptive_spin_count g) loop end.

Definition abs (s : system) : locks := mkLocks (word s) (abs_thread <$> states s).

Lemma run_step_abs p m :
  (abs_thread (run_step p m).1, (run_step p m).2) = tstep (g_adaptive_spin_count g) p m.
Proof.
  unfold run_step. destruct p; try (by destruct (tstep _ _ _)).
  unfold SpinLockDelay. simpl. by repeat case_match.
Qed.

Lemma abs_insert s i t t' m :
  states s !! i = Some t →
  abs (mkSystem m (<[i := t']> (states s))) =
    mkLocks m (<[i := abs_thread t']> (threads (abs s))).
Proof. intros Hi. unfold abs. simpl. by rewrite list_fmap_insert. Qed.

Lemma abs_run s i p :
  states s !! i = Some (Run p) →
  SpinLock.step (g_adaptive_spin_count g) (abs s)
    (mkLocks (tstep (g_adaptive_spin_count g) p (word s)).2
       (<[i := (tstep (g_adaptive_spin_count g) p (word s)).1]> (threads (abs s)))).
Proof.
  intros Hi. apply (step_thread _ (abs s) i p). simpl. by rewrite list_lookup_fmap, Hi.
Qed.

Lemma abs_same s i t t' :
  states s !! i = Some t → abs_thread t' = abs_thread t →
  abs (mkSystem (word s) (<[i := t']> (states s))) = abs s.
Proof.
  intros Hi Ht. rewrite (abs_insert s i t t' (word s) Hi), Ht. unfold abs. simpl. f_equal.
  apply list_insert_id. by rewrite list_lookup_fmap, Hi.
Qed.

Lemma step_abs s s' :
  any_step s s' → rtc (SpinLock.step (g_adaptive_spin_count g)) (abs s) (abs s').
Proof.
  intros [[s1 i p Hi _|s1 i j loop _ Hi Hj|s1 i Hi _]|[s1 i loop Hi]].
  - apply rtc_once. rewrite (abs_insert s1 i (Run p) _ _ Hi). pose proof (run_step_abs p (word s1)) as Hr.
    pose proof (abs_run s1 i p Hi) as Hs. by rewrite <- Hr in Hs.
  - apply rtc_once.
    assert (<[i := Run Outside]> (states s1) !! j = Some (Asleep loop)) as Hj'.
    { rewrite list_lookup_insert_ne; [done|]. intros ->. congruence. }
    pose proof (abs_same (mkSystem (word s1) (<[i := Run Outside]> (states s1))) j (Asleep loop)
      (wake_up loop) Hj' eq_refl) as Hsame.
    simpl in Hsame. rewrite Hsame, (abs_insert s1 i (Run Wake) _ _ Hi). exact (abs_run s1 i Wake Hi).
  - apply rtc_once. rewrite (abs_insert s1 i (Run Wake) _ _ Hi). exact (abs_run s1 i Wake Hi).
  - rewrite (abs_same s1 i (Asleep loop) (wake_up loop) Hi eq_refl). apply rtc_refl.
Qed.

Lemma reachable_abs n s :
  rtc any_step (start n) s →
  rtc (SpinLock.step (g_adaptive_spin_count g)) (SpinLock.init n) (abs s).
Proof.
  intros Hr. eapply (rtc_ind_r (λ s, rtc _ (init n) (abs s)) (start n)); [|clear s Hr|exact Hr].
  - unfold abs, start, init. simpl. rewrite fmap_replicate. apply rtc_refl.
  - intros s s' _ Hs IH. etrans; [exact IH|]. by apply step_abs.
Qed.

(** ** No wake-up is lost *)

(** A running thread that has not got the lock at first, or that wakes up
    others. *)
Definition contends (p : pc) : Prop :=
  match p with
  | SpinLoad _ _ | SpinCas _ | HeldCas _ | FreeCas _ | Delay _ _ | Wake => True
  | Loop v _ => v ≠ kSpinLockFree
  | _ => False
  end.

(** What a thread remembers of the lock word. *)
Definition seen_ok (t : tstate) : Prop :=
  match t with
  | Run (Loop v _) => word_ok v
  | Run (Delay v _) => v = kSpinLockSleeper
  | _ => True
  end.

Definition someone_contends (s : system) : Prop :=
  ∃ i p, states s !! i = Some (Run p) ∧ contends p.

(** While a thread sleeps the word says so, or somebody is on the way. *)
Record futex_inv (s : system) : Prop := {
  fi_seen : Forall seen_ok (states s);
  fi_word : word_ok (word s);
  fi_sleep i loop : states s !! i = Some (Asleep loop) →
    g_have_futex g = true ∧ (word s = kSpinLockSleeper ∨ someone_contends s);
}.

(** What a step of a running thread does: afterwards the word says that
    threads sleep, or the thread is on the way; or the thread was not on the
    way before, and the word did not say so. *)
Definition step_ok (p : pc) (m : Z) (r : tstate * Z) : Prop :=
  seen_ok r.1 ∧ word_ok r.2 ∧
  (∀ loop, r.1 = Asleep loop → r.2 = kSpinLockSleeper ∧ g_have_futex g = true) ∧
  (r.2 = kSpinLockSleeper ∨ (∃ p', r.1 = Run p' ∧ contends p') ∨
   ¬ contends p ∧ m ≠ kSpinLockSleeper).

Lemma word_free : word_ok kSpinLockFree.
Proof. by left. Qed.
Lemma word_held : word_ok kSpinLockHeld.
Proof. by right; left. Qed.
Lemma word_sleeper : word_ok kSpinLockSleeper.
Proof. by right; right. Qed.

Ltac step_ok :=
  split_and!; cbn;
  [ first [done | by auto using word_free, word_held, word_sleeper]
  | by auto using word_free, word_held, word_sleeper
  | done
  | first [ by left | right; left; eexists; split; [reflexivity|cbn; done]
          | right; right; split; [cbn; tauto|done] ] ].

Lemma delay_ok v loop m :
  word_ok m → v = kSpinLockSleeper → step_ok (Delay v loop) m (SpinLockDelay v loop m, m).
Proof.
  intros Hm ->. unfold SpinLockDelay.
  assert (step_ok (Delay kSpinLockSleeper loop) m
    (Run (SpinLoad (g_adaptive_spin_count g) (i32 (loop + 1))), m)) as Hgo.
  { split_and!; [done|done|done|]. right; left. by eexists. }
  destruct (_ =? 0); [done|]. destruct (_ =? 1); [done|]. destruct (g_have_futex g) eqn:Hg; [|done].
  destruct (m =? kSpinLockSleeper) eqn:Hv; [|done]. zify_bool. subst.
  split_and!; [done|apply word_sleeper|done|by left].
Qed.

Lemma run_step_spec p m :
  p ≠ Wake → word_ok m → seen_ok (Run p) → (owns p → m ≠ kSpinLockFree) →
  step_ok p m (run_step p m).
Proof.
  intros Hw Hm Hs Ho. destruct p as [| |c loop|loop|v loop|loop|loop|v loop| | |]; [..|done].
  8: by apply delay_ok.
  1-2,4,6-7,9: by destruct Hm as [->|[->| ->]]; step_ok.
  - destruct Hm as [->|[->| ->]]; unfold run_step; cbn; [|destruct (0 <? _)..]; step_ok.
  - unfold run_step. destruct Hs as [->|[->| ->]]; destruct Hm as [->|[->| ->]]; step_ok.
  - destruct Hm as [->|[->| ->]]; [by destruct (Ho I)|..]; step_ok.
Qed.

Lemma someone_insert s i t m :
  (∃ p, t = Run p ∧ contends p) → (i < length (states s))%nat →
  someone_contends (mkSystem m (<[i := t]> (states s))).
Proof. intros (p & -> & Hp) Hi. exists i, p. simpl. by rewrite list_lookup_insert_eq. Qed.

Lemma someone_other s i p t m :
  states s !! i = Some (Run p) → ¬ contends p → someone_contends s →
  someone_contends (mkSystem m (<[i := t]> (states s))).
Proof.
  intros Hi Hp (k & q & Hk & Hq). exists k, q. simpl. rewrite list_lookup_insert_ne; [done|].
  intros ->. congruence.
Qed.

Lemma wake_contends loop : ∃ p, wake_up loop = Run p ∧ contends p.
Proof. by eexists. Qed.

Lemma step_futex_inv s s' :
  futex_inv s → locks_inv (abs s) → any_step s s' → futex_inv s'.
Proof.
  intros [Hseen Hword Hsleep] Hlocks [Hs|Hs].
  2: { destruct Hs as [s i loop Hi]. split; simpl; [by apply Forall_insert|done|].
    intros j l' _. destruct (Hsleep _ _ Hi) as [Hg _]. split; [done|]. right.
    apply someone_insert; [apply wake_contends|by eapply lookup_lt_Some]. }
  destruct Hs as [s i p Hi Hp|s i j loop Hg Hi Hj|s i Hi Hnone].
  - assert (step_ok p (word s) (run_step p (word s))) as (Hs & Hw & Ha & Hd).
    { apply run_step_spec; [done|done|exact (proj1 (Forall_lookup _ _) Hseen _ _ Hi)|].
      intros Ho Hfree. assert (threads (abs s) !! i = Some p) as Hip.
      { simpl. by rewrite list_lookup_fmap, Hi. }
      pose proof (owner_count_lookup _ _ _ Hip Ho) as Hpos. destruct Hlocks as [_ Hc].
      rewrite Hc in Hpos. simpl in Hpos. rewrite Hfree in Hpos. cbn in Hpos. lia. }
    split; simpl; [by apply Forall_insert|done|]. intros j loop Hj.
    destruct (decide (i = j)) as [<-|Hne].
    { rewrite list_lookup_insert_eq in Hj by (by eapply lookup_lt_Some). injection Hj as Hj.
      destruct (Ha _ Hj). auto. }
    rewrite list_lookup_insert_ne in Hj by done. destruct (Hsleep _ _ Hj) as [Hg Hold].
    split; [done|]. destruct Hd as [Hd|[Hd|[Hnc Hns]]]; [by left| |].
    + right. apply someone_insert; [done|by eapply lookup_lt_Some].
    + right. destruct Hold as [|Hold]; [done|]. by eapply someone_other.
  - split; simpl; [|done|].
    + apply Forall_insert; [by apply Forall_insert|done].
    + intros _ _ _. split; [done|]. right.
      apply (someone_insert (mkSystem (word s) (<[i := Run Outside]> (states s))) j);
        [apply wake_contends|]. cbn [states].
      rewrite (length_insert (states s) i). by eapply lookup_lt_Some.
  - split; simpl; [by apply Forall_insert|done|]. intros j loop Hj. exfalso.
    destruct (decide (i = j)) as [<-|Hne].
    + by rewrite list_lookup_insert_eq in Hj by (by eapply lookup_lt_Some).
    + rewrite list_lookup_insert_ne in Hj by done. destruct (Hsleep _ _ Hj) as [Hg _].
      by apply (Hnone Hg j loop).
Qed.

Lemma reachable_locks n s : rtc any_step (start n) s → locks_inv (abs s).
Proof. intros Hr. by eapply reachable_locks_inv, reachable_abs. Qed.

Lemma reachable_futex_inv n s : rtc any_step (start n) s → futex_inv s.
Proof.
  intros Hr. eapply (rtc_ind_r futex_inv (start n)); [|clear s Hr|exact Hr].
  - split; simpl; [by apply Forall_replicate|by left|]. intros i loop.
    by rewrite lookup_replicate; intros [? _].
  - intros s s' Hr Hs Hinv. by eapply step_futex_inv; [|eapply reachable_locks|].
Qed.

(** The owner of a lock that is not free runs. *)
Lemma owner_runs s :
  locks_inv (abs s) → word s ≠ kSpinLockFree →
  ∃ i p, states s !! i = Some (Run p) ∧ owns p.
Proof.
  intros [_ Hc] Hw. unfold word_owners in Hc. cbn [lock_word abs] in Hc.
  rewrite (proj2 (Z.eqb_neq _ _) Hw) in Hc. unfold owner_count in Hc.
  destruct (filter owns (threads (abs s))) as [|p l] eqn:Hf; [done|].
  assert (p ∈ filter owns (threads (abs s))) as Hin by (rewrite Hf; left).
  apply list_elem_of_filter in Hin as [Ho Hin]. apply list_elem_of_lookup in Hin as [i Hi].
  simpl in Hi. rewrite list_lookup_fmap in Hi. apply fmap_Some in Hi as (t & Hi & ->).
  destruct t as [q|]; [|done]. by exists i, q.
Qed.

(** *** A thread that runs by itself *)

Fixpoint solo (n : nat) (t : tstate) (m : Z) : tstate * Z :=
  match n, t with
  | S n, Run p =>
      if decide (p = Wake) then (t, m) else solo n (run_step p m).1 (run_step p m).2
  | _, _ => (t, m)
  end.

Lemma solo_steps n s i t :
  states s !! i = Some t →
  rtc step s (mkSystem (solo n t (word s)).2 (<[i := (solo n t (word s)).1]> (states s))).
Proof.
  assert (∀ s t, states s !! i = Some t →
    rtc step s (mkSystem (word s) (<[i := t]> (states s)))) as Hrefl.
  { intros s' t' Hi. rewrite list_insert_id by done. destruct s'. apply rtc_refl. }
  revert s t. induction n as [|n IH]; intros s t Hi; [by apply Hrefl|].
  destruct t as [p|loop]; [|by apply Hrefl]. simpl. case_decide as Hp; [by apply Hrefl|].
  eapply rtc_l; [by apply (step_run s i p)|].
  pose proof (IH (mkSystem (run_step p (word s)).2 (<[i := (run_step p (word s)).1]> (states s)))
    (run_step p (word s)).1) as Hn.
  cbn [states word] in Hn. rewrite list_insert_insert_eq in Hn. apply Hn.
  apply list_lookup_insert_eq. by eapply lookup_lt_Some.
Qed.

Lemma owner_releases p :
  owns p → (∃ n, solo n (Run p) kSpinLockSleeper = (Run Wake, kSpinLockFree)) ∧
    (∃ n, solo n (Run p) kSpinLockHeld = (Run Outside, kSpinLockFree)).
Proof.
  intros Ho. destruct p; try done.
  - simpl in Ho. subst. split; by exists 3%nat.
  - split; by exists 2%nat.
  - split; by exists 1%nat.
Qed.

Lemma contender_takes p :
  seen_ok (Run p) → contends p → p = Wake ∨
  ∃ n q, solo n (Run p) kSpinLockFree = (Run q, kSpinLockSleeper) ∧ owns q.
Proof.
  intros Hs Hc. assert (∀ c loop, ∃ n q,
    solo n (Run (SpinLoad c loop)) kSpinLockFree = (Run q, kSpinLockSleeper) ∧ owns q) as Hspin.
  { intros c loop. by exists 2%nat, (Loop kSpinLockFree loop). }
  assert (∀ loop, ∃ n q,
    solo n (Run (Delay kSpinLockSleeper loop)) kSpinLockFree = (Run q, kSpinLockSleeper) ∧ owns q)
    as Hdelay.
  { intros loop. destruct (Hspin (g_adaptive_spin_count g) (i32 (loop + 1))) as (n & q & Hn & Hq).
    exists (S n), q. split; [|done]. simpl. unfold SpinLockDelay. by repeat case_match. }
  destruct p as [| |c loop|loop|v loop|loop|loop|v loop| | |]; try done; [| | | | | |by left]; right.
  - apply Hspin.
  - by exists 1%nat, (Loop kSpinLockFree loop).
  - destruct Hs as [->|[->| ->]]; [done|by exists 3%nat, (Loop kSpinLockFree loop)|].
    destruct (Hdelay loop) as (n & q & Hn & Hq). by exists (S n), q.
  - by exists 2%nat, (Loop kSpinLockFree loop).
  - by exists 1%nat, (Loop kSpinLockFree loop).
  - simpl in Hs. subst. apply Hdelay.
Qed.

(** [s] leads to a state in which the thread [i] runs in round [loop]. *)
Definition wakes (s : system) (i : nat) (loop : Z) : Prop :=
  ∃ s', rtc step s s' ∧ states s' !! i = Some (wake_up loop).

Lemma wakes_solo s i j loop t t' m' n :
  states s !! i = Some (Asleep loop) → states s !! j = Some (Run t) →
  solo n (Run t) (word s) = (t', m') →
  (states (mkSystem m' (<[j := t']> (states s))) !! i = Some (Asleep loop) →
   wakes (mkSystem m' (<[j := t']> (states s))) i loop) →
  wakes s i loop.
Proof.
  intros Hi Hj Hn Hw. pose proof (solo_steps n s j (Run t) Hj) as Hr. rewrite Hn in Hr.
  destruct Hw as (s' & Hr' & Hs').
  { simpl. rewrite list_lookup_insert_ne; [done|]. intros ->. congruence. }
  exists s'. split; [by etrans|done].
Qed.

Lemma wakes_at_Wake s i j loop :
  g_have_futex g = true → states s !! i = Some (Asleep loop) → states s !! j = Some (Run Wake) →
  wakes s i loop.
Proof.
  intros Hg Hi Hj. eexists. split; [apply rtc_once; by eapply step_wake_one|].
  cbn [states]. apply list_lookup_insert_eq. rewrite length_insert. by eapply lookup_lt_Some.
Qed.

Lemma wakes_owner s i j loop p :
  g_have_futex g = true → states s !! i = Some (Asleep loop) → states s !! j = Some (Run p) →
  owns p → word s = kSpinLockSleeper → wakes s i loop.
Proof.
  intros Hg Hi Hj Ho Hw. destruct (owner_releases p Ho) as [[n Hn] _]. rewrite <- Hw in Hn.
  eapply (wakes_solo s i j loop p); [done|done|exact Hn|]. intros Hi'.
  eapply wakes_at_Wake; [done|done|]. simpl. apply list_lookup_insert_eq. by eapply lookup_lt_Some.
Qed.

Lemma wakes_contender s i j loop p :
  g_have_futex g = true → states s !! i = Some (Asleep loop) → states s !! j = Some (Run p) →
  seen_ok (Run p) → contends p → word s = kSpinLockFree → wakes s i loop.
Proof.
  intros Hg Hi Hj Hs Hc Hw. destruct (contender_takes p Hs Hc) as [->|(n & q & Hn & Hq)].
  { by eapply wakes_at_Wake. }
  rewrite <- Hw in Hn. eapply (wakes_solo s i j loop p); [done|done|exact Hn|]. intros Hi'.
  eapply (wakes_owner _ i j); [done|done| |exact Hq|done]. simpl. apply list_lookup_insert_eq.
  by eapply lookup_lt_Some.
Qed.

(** ** Properties *)

(** C16.  No wake-up is lost.  In every state that any number of threads can reach,
    with time-outs or without: if a thread sleeps in the kernel, then there is
    another one that runs and has the lock while the lock word says that
    somebody sleeps, or that is on the way to take the lock or to wake up a
    sleeping thread.  The sleeping thread can be woken up without its time
    being over, by steps of the other threads; and the sleep does not break
    mutual exclusion. *)
Theorem no_wakeup_is_lost n s i loop :
  rtc any_step (start n) s → states s !! i = Some (Asleep loop) →
  (∃ j p, states s !! j = Some (Run p) ∧ (owns p ∧ word s = kSpinLockSleeper ∨ contends p)) ∧
  (∃ s', rtc step s s' ∧ states s' !! i = Some (wake_up loop)) ∧
  (∀ j k, states s !! j = Some (Run Critical) → states s !! k = Some (Run Critical) → j = k).
Proof.
  intros Hr Hi. pose proof (reachable_locks n s Hr) as Hl.
  destruct (reachable_futex_inv n s Hr) as [Hseen Hword Hsleep].
  destruct (Hsleep _ _ Hi) as [Hg Hd]. split_and!.
  - destruct Hd as [Hd|(j & p & ? & ?)]; [|by eauto].
    destruct (owner_runs s Hl) as (j & p & ? & ?); [by rewrite Hd|by eauto 10].
  - destruct Hd as [Hd|(j & p & Hj & Hp)].
    { destruct (owner_runs s Hl) as (j & p & ? & ?); [by rewrite Hd|]. by eapply wakes_owner. }
    pose proof (proj1 (Forall_lookup _ _) Hseen _ _ Hj) as Hs.
    destruct Hword as [Hw|[Hw|Hw]]; [by eapply wakes_contender| |].
    + destruct (owner_runs s Hl) as (k & q & Hk & Hq); [by rewrite Hw|].
      destruct (owner_releases q Hq) as [_ [m Hm]]. rewrite <- Hw in Hm.
      eapply (wakes_solo s i k loop q); [done|done|exact Hm|]. intros Hi'.
      eapply (wakes_contender _ i j); [done|done| |exact Hs|done|done].
      simpl. rewrite list_lookup_insert_ne; [done|]. intros ->. rewrite Hj in Hk.
      injection Hk as ->. by destruct q.
    + destruct (owner_runs s Hl) as (k & q & ? & ?); [by rewrite Hw|]. by eapply wakes_owner.
  - intros j k Hj Hk. eapply (critical_unique (abs s)); [done|..]; simpl;
      rewrite list_lookup_fmap; [by rewrite Hj|by rewrite Hk].
Qed.

End futex.

(** ** Examples *)

(** One processor, and a kernel with futexes. *)
Definition demo_globals : globals := SpinLock_InitHelper 1 (λ _, 0).

(** The first of two threads has the lock, the second one sleeps. *)
Definition demo_sleep : system := mkSystem kSpinLockSleeper [Run Critical; Asleep 2].

Lemma demo_sleep_reachable : rtc (any_step demo_globals) (start 2) demo_sleep.
Proof.
  apply (rtc_subrel (step demo_globals)); [by left|].
  etrans; [exact (solo_steps demo_globals 2 (start 2) 0 (Run Outside) eq_refl)|].
  exact (solo_steps demo_globals 12 (mkSystem kSpinLockHeld [Run Critical; Run Outside]) 1
    (Run Outside) eq_refl).
Qed.

Lemma no_wakeup_is_lost_witness :
  ∃ s', rtc (step demo_globals) demo_sleep s' ∧ states s' !! 1%nat = Some (Run (SpinLoad 0 2)).
Proof.
  destruct (no_wakeup_is_lost demo_globals 2 demo_sleep 1 2 demo_sleep_reachable eq_refl)
    as (_ & Hw & _). exact Hw.
Defined.

End Futex.
