(* ===== verification/StaticBuf.v ===== *)
(** * The start-up allocator

    src/memhook/static_buf_alloc.cpp: a buffer of 8192 bytes from which the
    first allocations of the program are served, before the functions of the
    C library are found.  A pointer is an offset in the buffer.  The
    arithmetic is that of [size_t]. *)
From S2P Require Import Prelude.

Module StaticBuf.

Definition sizeof_tmpbuf : Z := 8192.

Record StaticBufAlloc := mkStaticBufAlloc { tmpbuf_ : bytes; tmppos_ : Z }.

(** the static members at program start *)
Definition init : StaticBufAlloc := mkStaticBufAlloc (replicate (Z.to_nat sizeof_tmpbuf) 0) 0.

Definition malloc (size : Z) (s : StaticBufAlloc) : option Z * StaticBufAlloc :=
  if sizeof_tmpbuf <=? u64 (tmppos_ s + size) then (None, s)
  else (Some (tmppos_ s), mkStaticBufAlloc (tmpbuf_ s) (u64 (tmppos_ s + size))).

(** [memset (ptr, 0, size)] on the buffer *)
Definition memset0 (ptr size : Z) (buf : bytes) : bytes :=
  imap (λ i b, if (ptr <=? Z.of_nat i) && (Z.of_nat i <? ptr + size) then 0 else b) buf.

Definition calloc (nmemb size : Z) (s : StaticBufAlloc) : option Z * StaticBufAlloc :=
  let total_size := u64 (nmemb * size) in
  match malloc total_size s with
  | (None, s) => (None, s)
  | (Some ptr, s) => (Some ptr, mkStaticBufAlloc (memset0 ptr total_size (tmpbuf_ s)) (tmppos_ s))
  end.

Definition free (ptr : Z) (s : StaticBufAlloc) : StaticBufAlloc := s.

(** The blocks handed out for requests of these sizes, with their sizes. *)
Fixpoint mallocs (sizes : list Z) (s : StaticBufAlloc) : list (Z * Z) * StaticBufAlloc :=
  match sizes with
  | [] => ([], s)
  | size :: sizes =>
      match malloc size s with
      | (None, s) => mallocs sizes s
      | (Some ptr, s) => let '(bs, s) := mallocs sizes s in ((ptr, size) :: bs, s)
      end
  end.

(** ** Lemmas *)

(** A request that does not wrap around. *)
Definition fits (size : Z) : Prop := 0 ≤ size < 2 ^ 64 - sizeof_tmpbuf.

#[export] Instance fits_dec size : Decision (fits size).
Proof. unfold fits; apply _. Defined.

Definition alloc_inv (s : StaticBufAlloc) : Prop :=
  0 ≤ tmppos_ s < sizeof_tmpbuf ∧ length (tmpbuf_ s) = Z.to_nat sizeof_tmpbuf.

Lemma malloc_spec size s :
  alloc_inv s → fits size →
  malloc size s = if sizeof_tmpbuf <=? tmppos_ s + size then (None, s)
    else (Some (tmppos_ s), mkStaticBufAlloc (tmpbuf_ s) (tmppos_ s + size)).
Proof.
  intros [Hpos _] Hf. unfold fits, sizeof_tmpbuf in *. unfold malloc.
  rewrite wrap_small by (unfold in_u; lia). done.
Qed.

(** Two blocks without a byte in common. *)
Definition disjoint_blocks (a b : Z * Z) : Prop := a.1 + a.2 ≤ b.1 ∨ b.1 + b.2 ≤ a.1.

Lemma mallocs_spec sizes s bs s' :
  alloc_inv s → Forall fits sizes → mallocs sizes s = (bs, s') →
  alloc_inv s' ∧ tmppos_ s ≤ tmppos_ s' ∧
  Forall (λ b, tmppos_ s ≤ b.1 ∧ b.1 + b.2 ≤ tmppos_ s') bs ∧
  (∀ i j a b, bs !! i = Some a → bs !! j = Some b → (i < j)%nat → a.1 + a.2 ≤ b.1).
Proof.
  intros Hs Hf. revert s bs s' Hs. induction Hf as [|n sizes Hn Hf IH]; intros s bs s' Hs; simpl.
  { intros [= <- <-]. split; [done|]. by split_and!. }
  rewrite malloc_spec by done. destruct (sizeof_tmpbuf <=? tmppos_ s + n) eqn:Hfull; [by apply IH|].
  zify_bool. destruct Hs as [Hpos Hlen].
  set (s1 := mkStaticBufAlloc _ _). destruct (mallocs sizes s1) as [bs1 s2] eqn:Hm.
  intros [= <- <-]. unfold fits in Hn.
  destruct (IH s1 bs1 s2) as (Hinv & Hle & Hall & Hord); [split; simpl; [lia|done]|done|].
  simpl in Hle, Hall. rewrite Forall_forall in Hall. split_and!; [done|lia| |].
  - constructor; simpl; [lia|]. apply Forall_forall. intros x Hx. specialize (Hall x Hx). lia.
  - intros [|i] [|j] a b Ha Hb Hij; simpl in *; [lia| |lia|].
    + simplify_eq/=. destruct (Hall b); [by eapply list_elem_of_lookup_2|]. lia.
    + apply (Hord i j); [done..|lia].
Qed.

Lemma init_inv_buf : alloc_inv init.
Proof. split; [done|]. apply length_replicate. Qed.

(** ** Properties *)

(** C38.  The blocks handed out lie in the buffer and no two of them overlap,
    as long as no request is within 8192 bytes of the address space's size. *)
Theorem blocks_are_disjoint sizes i j a b :
  Forall fits sizes →
  (mallocs sizes init).1 !! i = Some a → (mallocs sizes init).1 !! j = Some b → i ≠ j →
  0 ≤ a.1 ∧ a.1 + a.2 < sizeof_tmpbuf ∧ disjoint_blocks a b.
Proof.
  intros Hf. destruct (mallocs sizes init) as [bs s] eqn:Hm. simpl. intros Ha Hb Hne.
  destruct (mallocs_spec _ _ _ _ init_inv_buf Hf Hm) as ([? _] & _ & Hall & Hord).
  rewrite Forall_forall in Hall. destruct (Hall a) as [Hlo Hhi]; [by eapply list_elem_of_lookup_2|].
  simpl in Hlo. split_and!; [lia|lia|]. unfold disjoint_blocks.
  destruct (decide (i < j)%nat); [left; by apply (Hord i j)|right; apply (Hord j i); [done..|lia]].
Qed.

(** [calloc] clears the block it returns and nothing else. *)
Theorem calloc_clears nmemb size s ptr s' k b :
  alloc_inv s → 0 ≤ nmemb → 0 ≤ size → fits (nmemb * size) → calloc nmemb size s = (Some ptr, s') →
  tmpbuf_ s !! k = Some b →
  tmpbuf_ s' !! k =
    Some (if (ptr <=? Z.of_nat k) && (Z.of_nat k <? ptr + nmemb * size) then 0 else b).
Proof.
  intros Hs Hn Hz Hf. pose proof Hf as [Hlo Hhi]. unfold calloc, sizeof_tmpbuf in *.
  rewrite wrap_small by (unfold in_u; lia). rewrite malloc_spec by done.
  destruct (_ <=? _); [done|]. intros [= <- <-] Hk. simpl. unfold memset0.
  by rewrite list_lookup_imap, Hk.
Qed.

(** The sum in the bounds check wraps around: a request of almost the
    whole address space is granted, and the allocator starts over at the
    beginning of the buffer, over the blocks in use. *)
Theorem huge_request_is_granted s :
  alloc_inv s → 0 < tmppos_ s →
  let size := 2 ^ 64 - tmppos_ s in
  malloc size s = (Some (tmppos_ s), mkStaticBufAlloc (tmpbuf_ s) 0).
Proof.
  intros [Hpos _] H0. simpl. unfold malloc, sizeof_tmpbuf in *.
  replace (u64 _) with 0; [done|]. unfold wrap.
  replace (tmppos_ s + _) with (1 * 2 ^ 64) by lia. by rewrite Z.mod_mul.
Qed.

(** ** Examples *)

Lemma blocks_are_disjoint_witness :
  0 ≤ 100 ∧ 100 + 8000 < sizeof_tmpbuf ∧ disjoint_blocks (100, 8000) (8100, 16).
Proof.
  apply (blocks_are_disjoint [100; 8000; 500; 16] 1 2 (100, 8000) (8100, 16));
    [by_decide|vm_compute; reflexivity..|lia].
Defined.

(** A buffer with one byte in use. *)
Definition demo_buf : StaticBufAlloc := mkStaticBufAlloc (replicate (Z.to_nat sizeof_tmpbuf) 7) 1.

Lemma demo_buf_inv : alloc_inv demo_buf.
Proof. split; [done|]. apply length_replicate. Qed.

Lemma calloc_clears_witness : tmpbuf_ (calloc 2 4 demo_buf).2 !! 8%nat = Some 0.
Proof.
  apply (calloc_clears 2 4 demo_buf 1 (calloc 2 4 demo_buf).2 8 7);
    [exact demo_buf_inv|lia|lia|by_decide|reflexivity|reflexivity].
Defined.

Lemma huge_request_is_granted_witness :
  malloc (2 ^ 64 - 1) demo_buf = (Some 1, mkStaticBufAlloc (replicate (Z.to_nat sizeof_tmpbuf) 7) 0).
Proof. apply (huge_request_is_granted demo_buf); [exact demo_buf_inv|reflexivity]. Defined.

End StaticBuf.
