(* ===== verification/Thread.v ===== *)
(** * Threads, locks and waiting

    src/memhook/thread.h and src/memhook/thread.cpp: the scoped lock
    [MutexLock] over recursive mutexes, the arithmetic on [timespec], and the
    timed waits.

    Mutexes are numbers; the state of the program has the number of times
    each mutex is locked by the thread.  Time is a number of nanoseconds. *)
From S2P Require Import Prelude.

Module Thread.

(** ** Time *)

Record timespec := mkTimespec { tv_sec : Z; tv_nsec : Z }.

(** [ConvToTimeSpec]; [duration_cast] rounds towards zero *)
Definition ConvToTimeSpec (ns : Z) : timespec :=
  let s := Z.quot ns (10 ^ 9) in mkTimespec s (ns - s * 10 ^ 9).

(** [operator+=]: it returns the sum and does not change its operand. *)
Definition timespec_add (lhs rhs : timespec) : timespec :=
  let res := mkTimespec (i64 (tv_sec lhs + tv_sec rhs)) (i64 (tv_nsec lhs + tv_nsec rhs)) in
  if 10 ^ 9 <=? tv_nsec res then mkTimespec (i64 (tv_sec res + 1)) (tv_nsec res - 10 ^ 9) else res.

Definition timespec_ok (t : timespec) : Prop := 0 ≤ tv_nsec t < 10 ^ 9.
Definition timespec_ns (t : timespec) : Z := tv_sec t * 10 ^ 9 + tv_nsec t.

(** *** Timed waits *)

(** The environment of a waiting thread: how a wait that starts at a time
    ends.  [Some t] is a wake-up at time [t], [None] a timeout. *)
Definition wakeups : Type := Z → timespec → option Z.

(** [WaitUntil (lock, abs_time)]: whether it was woken up, and the time it
    returns.  A wait times out when its deadline is reached, at once if it
    has passed. *)
Definition WaitUntil (wake : wakeups) (now : Z) (abs_time : timespec) : bool * Z :=
  match wake now abs_time with
  | Some t => (true, t)
  | None => (false, now `max` timespec_ns abs_time)
  end.

(** [WaitFor (lock, rel_time)]: the value of [abs_time += rel_time] is
    dropped. *)
Definition WaitFor (wake : wakeups) (now : Z) (rel_time : timespec) : bool * Z :=
  let abs_time := ConvToTimeSpec now in
  let _ := timespec_add abs_time rel_time in
  WaitUntil wake now abs_time.

(** The loops of [SleepUntil] and [SleepFor]; [interrupted t] is the flag at
    time [t].  The result is whether the time was slept through, and the time
    of the return. *)
Fixpoint sleep_loop (fuel : nat) (wait : Z → bool * Z) (interrupted : Z → bool) (now : Z)
    : option (bool * Z) :=
  match fuel with
  | O => None
  | S fuel =>
      if interrupted now then Some (false, now)
      else
        let '(woken, now) := wait now in
        if (woken : bool) then sleep_loop fuel wait interrupted now else Some (true, now)
  end.

Definition SleepUntil (fuel : nat) (wake : wakeups) (interrupted : Z → bool) (now : Z)
    (abs_time : timespec) : option (bool * Z) :=
  sleep_loop fuel (λ now, WaitUntil wake now abs_time) interrupted now.

Definition SleepFor (fuel : nat) (wake : wakeups) (interrupted : Z → bool) (now : Z)
    (rel_time : timespec) : option (bool * Z) :=
  sleep_loop fuel (λ now, WaitFor wake now rel_time) interrupted now.

(** The overloads for time points and durations of the library; both are
    counts of nanoseconds. *)
Definition SleepUntil_time_point (fuel : nat) (wake : wakeups) (interrupted : Z → bool) (now : Z)
    (abs_time : Z) : option (bool * Z) :=
  SleepUntil fuel wake interrupted now (ConvToTimeSpec abs_time).
Definition SleepFor_duration (fuel : nat) (wake : wakeups) (interrupted : Z → bool) (now : Z)
    (rel_time : Z) : option (bool * Z) :=
  SleepFor fuel wake interrupted now (ConvToTimeSpec rel_time).

(** ** Scoped locks *)

Record MutexLock := mkMutexLock { m_mutex : option nat; m_is_locked : bool }.

(** The mutexes' lock counts and the [MutexLock] variables of a thread. *)
Record lock_state := mkLockState { counts : gmap nat nat; locks : gmap nat MutexLock }.

Definition count (m : nat) (s : lock_state) : nat := default 0%nat (counts s !! m).

(** [Mutex::Lock], [Mutex::Unlock] on a recursive mutex; unlocking a mutex
    that is not locked fails. *)
Definition Mutex_Lock (m : nat) (s : lock_state) : lock_state :=
  mkLockState (<[m := S (count m s)]> (counts s)) (locks s).
Definition Mutex_Unlock (m : nat) (s : lock_state) : option lock_state :=
  match count m s with
  | O => None
  | S n => Some (mkLockState (<[m := n]> (counts s)) (locks s))
  end.

Definition set_lock (l : nat) (v : MutexLock) (s : lock_state) : lock_state :=
  mkLockState (counts s) (<[l := v]> (locks s)).

(** [lock.Lock ()]; no result for a null pointer *)
Definition Lock (l : nat) (s : lock_state) : option lock_state :=
  match locks s !! l with
  | Some (mkMutexLock mu false) =>
      match mu with
      | Some m => Some (set_lock l (mkMutexLock mu true) (Mutex_Lock m s))
      | None => None
      end
  | Some (mkMutexLock _ true) => Some s
  | None => None
  end.

Definition Unlock (l : nat) (s : lock_state) : option lock_state :=
  match locks s !! l with
  | Some (mkMutexLock mu true) =>
      match mu with
      | Some m =>
          match Mutex_Unlock m s with
          | Some s => Some (set_lock l (mkMutexLock mu false) s)
          | None => None
          end
      | None => None
      end
  | Some (mkMutexLock _ false) => Some s
  | None => None
  end.

(** the constructors, the move constructor, move assignment and the
    destructor *)
Definition new_empty (l : nat) (s : lock_state) : option lock_state :=
  Some (set_lock l (mkMutexLock None false) s).

Definition new_locked (l m : nat) (s : lock_state) : option lock_state :=
  Lock l (set_lock l (mkMutexLock (Some m) false) s).

Definition new_moved (l from : nat) (s : lock_state) : option lock_state :=
  match locks s !! from with
  | Some v => Some (set_lock from (mkMutexLock None false) (set_lock l v s))
  | None => None
  end.

Definition move_assign (l from : nat) (s : lock_state) : option lock_state :=
  match Unlock l s with
  | Some s =>
      match locks s !! from with
      | Some v => Some (set_lock from (mkMutexLock None false) (set_lock l v s))
      | None => None
      end
  | None => None
  end.

Definition destroy (l : nat) (s : lock_state) : option lock_state :=
  match Unlock l s with
  | Some s => Some (mkLockState (counts s) (delete l (locks s)))
  | None => None
  end.

(** [l.swap (k)]: mutexes and flags are exchanged. *)
Definition swap (l k : nat) (s : lock_state) : option lock_state :=
  match locks s !! l, locks s !! k with
  | Some v, Some w => Some (set_lock k v (set_lock l w s))
  | _, _ => None
  end.

Definition IsOwnsLock (v : MutexLock) : bool := m_is_locked v.
Definition GetMutex (v : MutexLock) : option nat := m_mutex v.

(** *** Programs that use scoped locks *)

Inductive lock_op :=
| NewEmpty (l : nat) | NewLocked (l m : nat) | NewMoved (l from : nat)
| MoveAssign (l from : nat) | DoSwap (l k : nat) | DoLock (l : nat) | DoUnlock (l : nat)
| Destroy (l : nat).

Definition lock_step (op : lock_op) (s : lock_state) : option lock_state :=
  match op with
  | NewEmpty l => new_empty l s
  | NewLocked l m => new_locked l m s
  | NewMoved l from => new_moved l from s
  | MoveAssign l from => move_assign l from s
  | DoSwap l k => swap l k s
  | DoLock l => Lock l s
  | DoUnlock l => Unlock l s
  | Destroy l => destroy l s
  end.

(** What the language guarantees: a variable is constructed once, used while
    it exists, and not moved into itself. *)
Definition op_wf (op : lock_op) (s : lock_state) : Prop :=
  match op with
  | NewEmpty l | NewLocked l _ => locks s !! l = None
  | NewMoved l from => locks s !! l = None ∧ is_Some (locks s !! from)
  | MoveAssign l from => is_Some (locks s !! l) ∧ is_Some (locks s !! from) ∧ l ≠ from
  | DoSwap l k => is_Some (locks s !! l) ∧ is_Some (locks s !! k)
  | DoLock l => ∃ m b, locks s !! l = Some (mkMutexLock (Some m) b)
  | DoUnlock l | Destroy l => is_Some (locks s !! l)
  end.

Definition empty_locks : lock_state := mkLockState ∅ ∅.

Inductive lock_reachable : lock_state → Prop :=
| lock_start : lock_reachable empty_locks
| lock_next s op s' :
    lock_reachable s → op_wf op s → lock_step op s = Some s' → lock_reachable s'.

(** ** Lemmas *)

(** The variables that hold a mutex. *)
Definition holds (m : nat) (v : MutexLock) : Prop := v = mkMutexLock (Some m) true.

#[export] Instance MutexLock_eq_dec : EqDecision MutexLock.
Proof. solve_decision. Defined.
#[export] Instance holds_dec m v : Decision (holds m v).
Proof. unfold holds; apply _. Defined.

Definition holders (m : nat) (ls : gmap nat MutexLock) : nat :=
  size (filter (λ lv, holds m lv.2) ls).

(** A mutex is locked as often as it has holders, and no variable is locked
    without a mutex. *)
Definition lock_inv (s : lock_state) : Prop :=
  (∀ m, count m s = holders m (locks s)) ∧
  map_Forall (λ _ v, m_is_locked v = true → is_Some (m_mutex v)) (locks s).

Definition held (m : nat) (v : MutexLock) : nat := if decide (holds m v) then 1 else 0.

Lemma holders_insert_new m l v ls :
  ls !! l = None → holders m (<[l := v]> ls) = (holders m ls + held m v)%nat.
Proof.
  intros Hl. unfold holders, held. case_decide as Hh.
  - rewrite map_filter_insert_True by done. rewrite map_size_insert_None; [lia|].
    apply map_lookup_filter_None. by left.
  - rewrite map_filter_insert_False by done. rewrite delete_id by done. lia.
Qed.

Lemma holders_delete m l v ls :
  ls !! l = Some v → (holders m (delete l ls) + held m v = holders m ls)%nat.
Proof.
  intros Hl. rewrite <- (insert_delete_id ls l v Hl) at 2.
  by rewrite holders_insert_new by apply lookup_delete_eq.
Qed.

Lemma holders_insert m l v v' ls :
  ls !! l = Some v → (holders m (<[l := v']> ls) + held m v = holders m ls + held m v')%nat.
Proof.
  intros Hl. rewrite <- (insert_delete_eq ls l v'), holders_insert_new by apply lookup_delete_eq.
  pose proof (holders_delete m l v ls Hl). lia.
Qed.

Lemma count_insert m m' n s ls :
  count m' (mkLockState (<[m := n]> (counts s)) ls) = if decide (m' = m) then n else count m' s.
Proof.
  unfold count. simpl. case_decide; [subst; by rewrite lookup_insert_eq|].
  by rewrite lookup_insert_ne.
Qed.

(** Locking and unlocking change the holders of one mutex by one. *)
Lemma held_locked m m' b : held m' (mkMutexLock (Some m) b) = if decide (m' = m ∧ b = true) then 1%nat else 0%nat.
Proof. unfold held, holds. repeat case_decide; naive_solver. Qed.

Lemma held_unlocked m mu : held m (mkMutexLock mu false) = 0%nat.
Proof. unfold held, holds. by rewrite decide_False by naive_solver. Qed.

Lemma Lock_inv l s m b :
  lock_inv s → locks s !! l = Some (mkMutexLock (Some m) b) →
  ∃ s', Lock l s = Some s' ∧ lock_inv s' ∧ locks s' = <[l := mkMutexLock (Some m) true]> (locks s).
Proof.
  intros [Hc Hl] Hs. unfold Lock. rewrite Hs. destruct b.
  { exists s. split_and!; [done|done|]. by rewrite insert_id. }
  eexists. split_and!; [done| |done]. split; simpl.
  - intros m'. unfold set_lock. simpl. rewrite count_insert.
    pose proof (holders_insert m' l _ (mkMutexLock (Some m) true) _ Hs) as Hh.
    rewrite !held_locked in Hh. rewrite <- !Hc in *. repeat case_decide; naive_solver lia.
  - apply map_Forall_insert_2; [|done]. by eexists.
Qed.

Lemma Unlock_inv l s v :
  lock_inv s → locks s !! l = Some v →
  ∃ s', Unlock l s = Some s' ∧ lock_inv s' ∧ locks s' = <[l := mkMutexLock (m_mutex v) false]> (locks s).
Proof.
  intros [Hc Hl] Hs. unfold Unlock. rewrite Hs. destruct v as [mu []]; simpl.
  2: { exists s. split_and!; [done|done|]. by rewrite insert_id. }
  destruct (Hl _ _ Hs eq_refl) as [m Hmu]. simpl in Hmu. subst mu. unfold Mutex_Unlock.
  pose proof (λ m', holders_insert m' l _ (mkMutexLock (Some m) false) _ Hs) as Hh.
  assert (0 < count m s)%nat as Hpos.
  { specialize (Hh m). rewrite !held_locked, !decide_True, decide_False in Hh by naive_solver.
    rewrite <- Hc in Hh. lia. }
  destruct (count m s) as [|n] eqn:Hn; [lia|].
  eexists. split_and!; [done| |done]. split; simpl.
  - intros m'. unfold set_lock. simpl. rewrite count_insert. specialize (Hh m').
    rewrite !held_locked in Hh. rewrite <- !Hc in *. repeat case_decide; naive_solver lia.
  - by apply map_Forall_insert_2.
Qed.

Lemma swap_inv l k v w s :
  lock_inv s → locks s !! l = Some v → locks s !! k = Some w →
  lock_inv (set_lock k v (set_lock l w s)).
Proof.
  intros [Hc Hl] Hv Hw. split; simpl.
  - intros m. change (count m s = holders m (<[k := v]> (<[l := w]> (locks s)))). rewrite Hc.
    destruct (decide (k = l)) as [->|Hne].
    { simplify_eq. by rewrite insert_insert_eq, insert_id. }
    pose proof (holders_insert m l v w _ Hv) as H1.
    pose proof (holders_insert m k w v (<[l := w]> (locks s))) as H2.
    rewrite lookup_insert_ne in H2 by done. specialize (H2 Hw). lia.
  - repeat apply map_Forall_insert_2; [by apply (Hl l)|by apply (Hl k)|done].
Qed.

(** Moving a lock from one variable to another. *)
Lemma move_inv l from v s :
  lock_inv s → locks s !! from = Some v → l ≠ from →
  (∀ w, locks s !! l = Some w → m_is_locked w = false) →
  lock_inv (set_lock from (mkMutexLock None false) (set_lock l v s)).
Proof.
  intros [Hc Hl] Hf Hne Hw. split; simpl.
  - intros m. change (count m s = holders m (<[from := mkMutexLock None false]> (<[l := v]> (locks s)))).
    assert (holders m (<[l := v]> (locks s)) = holders m (locks s) + held m v)%nat as Hh1.
    { destruct (locks s !! l) as [[mu b]|] eqn:Hs; [|by apply holders_insert_new].
      specialize (Hw _ eq_refl). simpl in Hw. subst b.
      pose proof (holders_insert m l _ v _ Hs) as Hh. rewrite held_unlocked in Hh. lia. }
    pose proof (holders_insert m from v (mkMutexLock None false) (<[l := v]> (locks s))) as Hh2.
    rewrite lookup_insert_ne in Hh2 by done. specialize (Hh2 Hf).
    rewrite held_unlocked in Hh2. rewrite Hc. lia.
  - repeat apply map_Forall_insert_2; [done| |done]. by apply (Hl from).
Qed.

Lemma lock_step_inv op s :
  lock_inv s → op_wf op s → ∃ s', lock_step op s = Some s' ∧ lock_inv s'.
Proof.
  intros Hinv Hwf. pose proof Hinv as [Hc Hl].
  destruct op as [l|l m|l from|l from|l k|l|l|l]; simpl in *.
  - eexists. split; [done|]. split; simpl.
    + intros m. rewrite holders_insert_new, held_unlocked by done. etrans; [apply Hc|]. lia.
    + by apply map_Forall_insert_2.
  - edestruct (Lock_inv l (set_lock l (mkMutexLock (Some m) false) s)) as (s' & ? & ? & _);
      [|by apply lookup_insert_eq|by exists s'].
    split; simpl.
    + intros m'. rewrite holders_insert_new, held_unlocked by done. etrans; [apply Hc|]. lia.
    + by apply map_Forall_insert_2.
  - destruct Hwf as [Hn [v Hv]]. unfold new_moved. rewrite Hv. eexists. split; [done|].
    apply move_inv; [done|done|congruence|]. intros w Hw. congruence.
  - destruct Hwf as ([w Hw] & [v Hv] & Hne). unfold move_assign.
    destruct (Unlock_inv l s w Hinv Hw) as (s1 & -> & Hinv1 & Hls).
    rewrite Hls, lookup_insert_ne, Hv by done. eexists. split; [done|].
    apply move_inv; [done| |done|].
    + by rewrite Hls, lookup_insert_ne.
    + rewrite Hls, lookup_insert_eq. by intros ? [= <-].
  - destruct Hwf as ([v Hv] & [w Hw]). unfold swap. rewrite Hv, Hw. eexists. split; [done|].
    by apply swap_inv.
  - destruct Hwf as (m & b & Hs). destruct (Lock_inv l s m b Hinv Hs) as (s' & ? & ? & _). by exists s'.
  - destruct Hwf as [v Hv]. destruct (Unlock_inv l s v Hinv Hv) as (s' & ? & ? & _). by exists s'.
  - destruct Hwf as [v Hv]. unfold destroy.
    destruct (Unlock_inv l s v Hinv Hv) as (s1 & -> & [Hc1 Hl1] & Hls).
    eexists. split; [done|]. split; simpl.
    + intros m. pose proof (holders_delete m l (mkMutexLock (m_mutex v) false) (locks s1)) as Hd.
      rewrite Hls, lookup_insert_eq, held_unlocked in Hd. specialize (Hd eq_refl).
      etrans; [apply Hc1|]. rewrite Hls. lia.
    + by apply map_Forall_delete.
Qed.

Lemma lock_reachable_inv s : lock_reachable s → lock_inv s.
Proof.
  induction 1 as [|s op s' _ IH Hwf Hs].
  - split; [|apply map_Forall_empty]. intros m. unfold count, holders. simpl.
    by rewrite lookup_empty, map_filter_empty.
  - destruct (lock_step_inv op s IH Hwf) as (s1 & ? & ?). congruence.
Qed.

(** ** Properties *)

(** Scoped locks are balanced: in a program that constructs, moves,
    swaps, locks, unlocks and destroys [MutexLock] variables in any order, no
    operation fails (no mutex is unlocked without being locked), a mutex is
    locked exactly as often as there are variables that hold it, and when no
    variable is left every mutex is free. *)
Theorem scoped_locks_are_balanced s op m :
  lock_reachable s →
  (op_wf op s → is_Some (lock_step op s)) ∧
  count m s = holders m (locks s) ∧ (locks s = ∅ → count m s = 0%nat).
Proof.
  intros Hr. pose proof (lock_reachable_inv s Hr) as Hinv. destruct Hinv as [Hc Hl]. split_and!.
  - intros Hwf. destruct (lock_step_inv op s) as (s' & -> & _); [by split|done|by eexists].
  - apply Hc.
  - intros He. rewrite Hc, He. unfold holders. by rewrite map_filter_empty.
Qed.

(** Sums of times are exact and normalized. *)
Theorem timespec_add_exact a b :
  timespec_ok a → timespec_ok b → in_s 62 (tv_sec a) → in_s 62 (tv_sec b) →
  timespec_ok (timespec_add a b) ∧
  timespec_ns (timespec_add a b) = timespec_ns a + timespec_ns b.
Proof.
  unfold timespec_ok, timespec_ns, timespec_add. intros Ha Hb Hsa Hsb.
  rewrite (swrap_small 64 (tv_sec a + _)), (swrap_small 64 (tv_nsec a + _)) by range. simpl.
  destruct (_ <=? _) eqn:Hc; zify_bool; simpl; [|lia].
  rewrite swrap_small by range. lia.
Qed.

(** The conversion to [timespec] is exact, and normalized for times that
    are not negative. *)
Theorem ConvToTimeSpec_exact ns :
  timespec_ns (ConvToTimeSpec ns) = ns ∧ (0 ≤ ns → timespec_ok (ConvToTimeSpec ns)).
Proof.
  unfold timespec_ns, timespec_ok, ConvToTimeSpec. cbn [tv_sec tv_nsec]. split; [lia|].
  intros. pose proof (Z.quot_rem ns (10 ^ 9) ltac:(lia)).
  pose proof (Z.rem_bound_pos ns (10 ^ 9) ltac:(lia) ltac:(lia)). lia.
Qed.

(** [SleepFor] does not sleep: when nobody wakes or interrupts the
    thread, it returns at the time it was called, whatever the duration,
    while [SleepUntil] the end of that duration returns when it is over. *)
Theorem sleep_for_returns_at_once now rel :
  0 ≤ now → 0 ≤ timespec_ns rel →
  SleepFor 1 (λ _ _, None) (λ _, false) now rel = Some (true, now) ∧
  SleepUntil 1 (λ _ _, None) (λ _, false) now (ConvToTimeSpec (now + timespec_ns rel)) =
    Some (true, now + timespec_ns rel).
Proof.
  intros Hn Hr. unfold SleepFor, SleepUntil, WaitFor, WaitUntil. simpl.
  assert (∀ ns, timespec_ns (ConvToTimeSpec ns) = ns) as Hconv.
  { intros ns. unfold timespec_ns, ConvToTimeSpec. cbn [tv_sec tv_nsec]. lia. }
  rewrite !Hconv. split; do 2 f_equal; lia.
Qed.

(** ** Examples *)

Definition demo_lock_state : lock_state :=
  mkLockState {[3%nat := 1%nat]} {[0%nat := mkMutexLock None false; 1%nat := mkMutexLock (Some 3%nat) true]}.

Lemma demo_lock_reachable : lock_reachable demo_lock_state.
Proof.
  eapply (lock_next (mkLockState {[3%nat := 1%nat]} {[0%nat := mkMutexLock (Some 3%nat) true]})
    (NewMoved 1 0)); [|by split; [|eexists]|vm_compute; reflexivity].
  eapply (lock_next empty_locks (NewLocked 0 3)); [constructor|done|vm_compute; reflexivity].
Qed.

Lemma scoped_locks_are_balanced_witness :
  is_Some (lock_step (Destroy 1) demo_lock_state) ∧ count 3 demo_lock_state = 1%nat.
Proof.
  destruct (scoped_locks_are_balanced demo_lock_state (Destroy 1) 3) as (Hs & Hc & _);
    [exact demo_lock_reachable|].
  split; [apply Hs; by eexists|]. rewrite Hc. vm_compute. reflexivity.
Defined.

Lemma timespec_add_exact_witness :
  timespec_ok (timespec_add (mkTimespec 5 999999999) (mkTimespec 2 1)) ∧
  timespec_ns (timespec_add (mkTimespec 5 999999999) (mkTimespec 2 1)) =
    timespec_ns (mkTimespec 5 999999999) + timespec_ns (mkTimespec 2 1).
Proof. apply timespec_add_exact; vm_compute; split; congruence. Defined.

Lemma sleep_for_returns_at_once_witness :
  SleepFor 1 (λ _ _, None) (λ _, false) 100 (mkTimespec 10 0) = Some (true, 100) ∧
  SleepUntil 1 (λ _ _, None) (λ _, false) 100 (ConvToTimeSpec (100 + timespec_ns (mkTimespec 10 0))) =
    Some (true, 100 + timespec_ns (mkTimespec 10 0)).
Proof. apply sleep_for_returns_at_once; by_decide. Defined.

End Thread.
