(* ===== verification/Monitor.v ===== *)
(** * Mutexes and condition variables

    src/memhook/thread.h and thread.cpp: [Mutex], which is recursive, and
    [ConditionVariable], used by any number of threads.

    The state is a mutex, with its owner and how often it has been locked, and
    a condition variable, with the threads that wait and those that have been
    woken up and do not have the mutex back yet.  As in the C library, a wait
    unlocks the mutex once, and may end for no reason or because its time is
    over. *)
From S2P Require Import Prelude.

Module Monitor.

Record monitor := mkMonitor {
  m_owner : option nat;
  m_count : nat;
  m_waiting : list nat;
  m_woken : list nat;
}.

(** The result of a call: it returns, it waits for the mutex, or the system
    call fails and [EXPECT_SUCCEEDED] does not hold. *)
Inductive result := Returns (m : monitor) | Blocks | Fails.

(** ** The mutex *)

(** [Mutex ()], with [InitRecursiveMutex], and [ConditionVariable ()] *)
Definition newMonitor : monitor := mkMonitor None 0 [] [].

(** [Lock ()] in the thread [t] *)
Definition Lock (t : nat) (m : monitor) : result :=
  match m_owner m with
  | None => Returns (mkMonitor (Some t) 1 (m_waiting m) (m_woken m))
  | Some o =>
      if decide (o = t) then Returns (mkMonitor (Some t) (S (m_count m)) (m_waiting m) (m_woken m))
      else Blocks
  end.

(** [Unlock ()]; a mutex of another thread is not unlocked *)
Definition Unlock (t : nat) (m : monitor) : result :=
  if decide (m_owner m = Some t) then
    match m_count m with
    | S (S n) => Returns (mkMonitor (Some t) (S n) (m_waiting m) (m_woken m))
    | _ => Returns (mkMonitor None 0 (m_waiting m) (m_woken m))
    end
  else Fails.

(** [~Mutex ()]: a locked mutex is busy *)
Definition destroyMutex (m : monitor) : bool := bool_decide (m_owner m = None).

(** ** The condition variable *)

(** [~ConditionVariable ()]: nobody may wait *)
Definition destroyConditionVariable (m : monitor) : bool := bool_decide (m_waiting m = []).

(** [WakeUp ()]: one of the threads that wait, if there is one; [k] is which. *)
Definition WakeUp (k : nat) (m : monitor) : monitor :=
  match m_waiting m !! (k mod length (m_waiting m))%nat with
  | Some t => mkMonitor (m_owner m) (m_count m) (filter (λ u, u ≠ t) (m_waiting m)) (t :: m_woken m)
  | None => m
  end.

Definition WakeUpAll (m : monitor) : monitor :=
  mkMonitor (m_owner m) (m_count m) [] (m_waiting m ++ m_woken m).

(** [Wait (lock)], [WaitUntil (lock, time)]: the mutex is unlocked and the
    thread waits, in one step. *)
Definition Wait (t : nat) (m : monitor) : result :=
  match Unlock t m with
  | Returns m => Returns (mkMonitor (m_owner m) (m_count m) (t :: m_waiting m) (m_woken m))
  | r => r
  end.

(** The wait ends, by its time or for no reason. *)
Definition wake_self (t : nat) (m : monitor) : monitor :=
  if decide (t ∈ m_waiting m) then
    mkMonitor (m_owner m) (m_count m) (filter (λ u, u ≠ t) (m_waiting m)) (t :: m_woken m)
  else m.

(** A thread that has been woken up locks the mutex and returns. *)
Definition wait_returns (t : nat) (m : monitor) : result :=
  Lock t (mkMonitor (m_owner m) (m_count m) (m_waiting m) (filter (λ u, u ≠ t) (m_woken m))).

(** ** Threads *)

(** Threads in a wait. *)
Definition in_wait (m : monitor) : list nat := m_waiting m ++ m_woken m.

(** Calls of a thread, and the ends of waits. *)
Inductive call :=
| CLock | CUnlock | CWait | CWakeUp (k : nat) | CWakeUpAll | CWakeSelf | CWaitReturns.

(** What the thread [t] does; a thread in a wait does nothing but wake up and
    return from it. *)
Definition run_call (t : nat) (c : call) (m : monitor) : result :=
  match c with
  | CWakeSelf => Returns (wake_self t m)
  | CWaitReturns => if decide (t ∈ m_woken m) then wait_returns t m else Blocks
  | _ =>
      if decide (t ∈ in_wait m) then Blocks
      else
        match c with
        | CLock => Lock t m
        | CUnlock => Unlock t m
        | CWait => Wait t m
        | CWakeUp k => Returns (WakeUp k m)
        | _ => Returns (WakeUpAll m)
        end
  end.

(** How often a thread has locked the mutex and not unlocked it, as its own
    calls have it. *)
Definition depth_after (t : nat) (c : call) (d : nat → nat) : nat → nat := λ u,
  if decide (u = t) then
    match c with CLock => S (d t) | CUnlock => pred (d t) | _ => d t end
  else d u.

Inductive reachable : monitor → (nat → nat) → Prop :=
| reach_new : reachable newMonitor (λ _, 0%nat)
| reach_call t c m d m' :
    reachable m d → run_call t c m = Returns m' → reachable m' (depth_after t c d).

(** ** Lemmas *)

(** How often the mutex is locked by a thread. *)
Definition owned (m : monitor) (t : nat) : nat := if decide (m_owner m = Some t) then m_count m else 0.

Record inv (m : monitor) (d : nat → nat) : Prop := {
  i_owner t : m_owner m = Some t → m_count m ≠ 0%nat;
  i_free : m_owner m = None → m_count m = 0%nat;
  i_nodup : NoDup (in_wait m);
  i_depth t : d t = (owned m t + if decide (t ∈ in_wait m) then 1 else 0)%nat;
}.

Lemma Lock_spec t m m' :
  Lock t m = Returns m' →
  m_owner m' = Some t ∧ in_wait m' = in_wait m ∧ m_woken m' = m_woken m ∧ m_waiting m' = m_waiting m ∧
  (m_owner m = None ∨ m_owner m = Some t) ∧ m_count m' ≠ 0%nat ∧ owned m' t = S (owned m t) ∧
  ∀ u, u ≠ t → owned m' u = 0%nat ∧ owned m u = 0%nat.
Proof.
  unfold Lock, owned, in_wait. intros Hl.
  destruct (m_owner m) as [o|] eqn:Ho; [destruct (decide (o = t)) as [->|]; [|done]|];
    injection Hl as <-; cbn [m_owner m_count m_waiting m_woken];
    (split_and!; [done..|by auto|done|by repeat case_decide|]); intros u Hu; split; case_decide; congruence.
Qed.

Lemma Unlock_spec t m d m' :
  inv m d → Unlock t m = Returns m' →
  m_owner m = Some t ∧ m_waiting m' = m_waiting m ∧ m_woken m' = m_woken m ∧
  (∀ u, owned m u = (owned m' u + if decide (u = t) then 1 else 0)%nat) ∧
  (m_owner m' = None → m_count m' = 0%nat) ∧ (∀ u, m_owner m' = Some u → m_count m' ≠ 0%nat).
Proof.
  intros Hinv. unfold Unlock. case_decide as Ho; [|done].
  pose proof (i_owner _ _ Hinv _ Ho) as Hc. unfold owned.
  destruct (m_count m) as [|[|n]] eqn:Hn; [congruence|..]; intros [= <-];
    cbn [m_owner m_count m_waiting m_woken];
    (split_and!; [done..| |done|done]); intros u; repeat case_decide; simplify_eq; lia.
Qed.

Lemma inv_new : inv newMonitor (λ _, 0%nat).
Proof. split; [done|done|apply NoDup_nil_2|]. intros t. by rewrite (decide_False (P := t ∈ _)) by apply not_elem_of_nil. Qed.

(** A wait that ends. *)
Lemma filter_ne_elem (t u : nat) (l : list nat) : u ∈ filter (λ v, v ≠ t) l ↔ u ≠ t ∧ u ∈ l.
Proof. exact (list_elem_of_filter (λ v, v ≠ t) l u). Qed.

Lemma inv_woken t m d :
  inv m d → t ∈ m_waiting m →
  inv (mkMonitor (m_owner m) (m_count m) (filter (λ u, u ≠ t) (m_waiting m)) (t :: m_woken m)) d.
Proof.
  intros Hinv Ht. destruct Hinv as [Ho Hf Hnd Hd]. unfold in_wait in Hnd.
  apply NoDup_app in Hnd as (Hn1 & Hn12 & Hn2).
  split; [done|done| |].
  - unfold in_wait. simpl. apply NoDup_app. split_and!; [by apply NoDup_filter| |].
    + intros u [Hu Hin]%filter_ne_elem. rewrite not_elem_of_cons. split; [done|by apply Hn12].
    + apply NoDup_cons. split; [by apply Hn12|done].
  - intros u. rewrite Hd. unfold owned, in_wait. simpl. f_equal.
    assert (u ∈ m_waiting m ++ m_woken m ↔
      u ∈ filter (λ v, v ≠ t) (m_waiting m) ++ t :: m_woken m) as Hiff.
    { rewrite !elem_of_app, elem_of_cons, filter_ne_elem. destruct (decide (u = t)); naive_solver. }
    by rewrite (decide_ext _ _ _ _ Hiff).
Qed.

Lemma inv_lock t m d m' : inv m d → t ∉ in_wait m → Lock t m = Returns m' → inv m' (depth_after t CLock d).
Proof.
  intros [Ho Hf Hnd Hd] Ht (Hown & Hw & _ & _ & _ & Hpos & Hc & Hother)%Lock_spec.
  split; [done|congruence|by rewrite Hw|].
  intros u. rewrite Hw. unfold depth_after. destruct (decide (u = t)) as [->|Hne].
  - by rewrite Hd, Hc.
  - rewrite Hd. by destruct (Hother u Hne) as [-> ->].
Qed.

Lemma inv_unlock t m d m' : inv m d → t ∉ in_wait m → Unlock t m = Returns m' → inv m' (depth_after t CUnlock d).
Proof.
  intros Hinv Ht Hu. destruct (Unlock_spec _ _ _ _ Hinv Hu) as (Hown & Hw1 & Hw2 & Hc & Hn & Hs).
  destruct Hinv as [Ho Hf Hnd Hd]. assert (in_wait m' = in_wait m) as Hw by (unfold in_wait; congruence).
  split; [done|done|by rewrite Hw|].
  intros u. rewrite Hw. unfold depth_after. rewrite !Hd, (Hc u), (Hc t).
  repeat case_decide; simplify_eq; try done; lia.
Qed.

Lemma inv_wait t m d m' : inv m d → t ∉ in_wait m → Wait t m = Returns m' → inv m' (depth_after t CWait d).
Proof.
  intros Hinv Ht. unfold Wait. destruct (Unlock t m) as [m1| |] eqn:Hu; [|done..]. intros [= <-].
  destruct (Unlock_spec _ _ _ _ Hinv Hu) as (Hown & Hw1 & Hw2 & Hc & Hn & Hs).
  destruct Hinv as [Ho Hf Hnd Hd]. unfold in_wait in *.
  split; [done|done|unfold in_wait; cbn; rewrite Hw1, Hw2; by apply NoDup_cons|].
  intros u. unfold depth_after, in_wait. cbn [m_waiting m_woken]. rewrite Hw1, Hw2.
  change (owned (mkMonitor _ _ _ _) u) with (owned m1 u). rewrite !Hd, (Hc u), (Hc t).
  rewrite <- app_comm_cons. repeat case_decide; simplify_eq; set_solver by lia.
Qed.

Lemma inv_depth_ext m d d' : (∀ t, d' t = d t) → inv m d → inv m d'.
Proof. intros Hext [Ho Hf Hnd Hd]. split; [done..|]. intros t. by rewrite Hext. Qed.

Lemma inv_wait_returns t m d m' :
  inv m d → t ∈ m_woken m → wait_returns t m = Returns m' → inv m' (depth_after t CWaitReturns d).
Proof.
  intros [Ho Hf Hnd Hd] Ht (Hown & Hw & Hw1 & Hw2 & _ & Hpos & Hc & Hother)%Lock_spec.
  cbn in Hw1, Hw2.
  unfold in_wait in Hnd. apply NoDup_app in Hnd as (Hn1 & Hn12 & Hn2).
  split; [done|congruence| |].
  - unfold in_wait. rewrite Hw1, Hw2. apply NoDup_app. split_and!; [done| |by apply NoDup_filter].
    intros u Hu [_ Hin]%filter_ne_elem. by eapply Hn12.
  - intros u. unfold depth_after, in_wait. rewrite Hw1, Hw2.
    destruct (decide (u = t)) as [->|Hne].
    + rewrite Hd, Hc. change (owned (mkMonitor _ _ _ _) t) with (owned m t). unfold in_wait.
      rewrite decide_True by (apply elem_of_app; by right).
      rewrite decide_False; [lia|]. rewrite elem_of_app, filter_ne_elem. intros [?|[? _]]; [|done].
      by eapply Hn12.
    + rewrite Hd. destruct (Hother u Hne) as [-> Hz].
      change (owned (mkMonitor _ _ _ _) u) with (owned m u) in Hz. rewrite Hz. f_equal. unfold in_wait.
      assert (u ∈ m_waiting m ++ m_woken m ↔
        u ∈ m_waiting m ++ filter (λ v, v ≠ t) (m_woken m)) as Hiff.
      { rewrite !elem_of_app, filter_ne_elem. naive_solver. }
      by rewrite (decide_ext _ _ _ _ Hiff).
Qed.

Lemma inv_wake_self t m d : inv m d → inv (wake_self t m) d.
Proof. intros Hinv. unfold wake_self. case_decide; [by apply inv_woken|done]. Qed.

Lemma inv_wake_up k m d : inv m d → inv (WakeUp k m) d.
Proof.
  intros Hinv. unfold WakeUp. destruct (m_waiting m !! _) as [t|] eqn:Hk; [|done].
  apply inv_woken; [done|]. by eapply list_elem_of_lookup_2.
Qed.

Lemma inv_wake_up_all m d : inv m d → inv (WakeUpAll m) d.
Proof. by intros []. Qed.

Lemma inv_call t c m d m' : inv m d → run_call t c m = Returns m' → inv m' (depth_after t c d).
Proof.
  intros Hinv Hc.
  assert (match c with CLock | CUnlock => False | _ => True end → ∀ u, depth_after t c d u = d u) as Hsame.
  { intros H u. unfold depth_after. case_decide; [subst; by destruct c|done]. }
  destruct c as [| | |k| | |]; simpl in Hc; try case_decide; try done.
  - by eapply inv_lock.
  - by eapply inv_unlock.
  - by eapply inv_wait.
  - injection Hc as <-. eapply inv_depth_ext; [by apply Hsame|by apply inv_wake_up].
  - injection Hc as <-. eapply inv_depth_ext; [by apply Hsame|by apply inv_wake_up_all].
  - injection Hc as <-. eapply inv_depth_ext; [by apply Hsame|by apply inv_wake_self].
  - by eapply inv_wait_returns.
Qed.

Lemma monitor_reachable_inv m d : reachable m d → inv m d.
Proof. induction 1; [apply inv_new|by eapply inv_call]. Qed.

(** ** Properties *)


(** The mutex is recursive, and a wait unlocks it once: a thread that waits
    inside of two scopes of the same mutex keeps it, so nobody else can lock
    it, be it to wake the thread up or to return from a wait, as long as it
    waits. *)
Theorem nested_wait_keeps_mutex m d t u :
  reachable m d → t ∈ in_wait m → (2 ≤ d t)%nat → u ≠ t →
  m_owner m = Some t ∧ run_call u CLock m = Blocks ∧ run_call u CWaitReturns m = Blocks.
Proof.
  intros Hinv%monitor_reachable_inv Ht H2 Hne. pose proof (i_depth _ _ Hinv t) as Hd.
  rewrite decide_True in Hd by done. unfold owned in Hd. case_decide as Ho; [|lia].
  split; [done|]. simpl. unfold wait_returns, Lock. simpl. rewrite Ho.
  rewrite (decide_False (P := t = u)) by congruence. by repeat case_decide.
Qed.

(** ** Examples *)

Fixpoint run_calls (cs : list (nat * call)) (m : monitor) (d : nat → nat) : option (monitor * (nat → nat)) :=
  match cs with
  | [] => Some (m, d)
  | (t, c) :: cs =>
      match run_call t c m with
      | Returns m => run_calls cs m (depth_after t c d)
      | _ => None
      end
  end.

Lemma run_calls_reachable cs m d m' d' :
  reachable m d → run_calls cs m d = Some (m', d') → reachable m' d'.
Proof.
  revert m d. induction cs as [|[t c] cs IH]; intros m d Hr; simpl; [by intros [= <- <-]|].
  destruct (run_call t c m) as [m1| |] eqn:Hc; [|done..]. apply IH. by eapply reach_call.
Qed.

(** Two threads wait, a third one has the mutex. *)
Definition demo_calls : list (nat * call) :=
  [(0%nat, CLock); (0%nat, CWait); (1%nat, CLock); (1%nat, CWait); (2%nat, CLock); (2%nat, CUnlock)].


(** A thread that waits inside of two scopes. *)
Lemma nested_wait_keeps_mutex_witness :
  ∃ m d, run_calls [(0%nat, CLock); (0%nat, CLock); (0%nat, CWait)] newMonitor (λ _, 0%nat) = Some (m, d) ∧
    run_call 1 CLock m = Blocks.
Proof.
  destruct (run_calls [(0%nat, CLock); (0%nat, CLock); (0%nat, CWait)] newMonitor (λ _, 0%nat))
    as [[m d]|] eqn:Hr; [|by vm_compute in Hr].
  exists m, d. split; [done|].
  pose proof (run_calls_reachable _ _ _ _ _ reach_new Hr) as Hreach. injection Hr as Hm Hd.
  apply (nested_wait_keeps_mutex m d 0 1 Hreach);
    [subst m; by_decide|subst d; vm_compute; lia|done].
Defined.

End Monitor.
