(* ===== verification/Interrupt.v ===== *)
(** * Creation and interruption of threads

    src/memhook/thread.cpp and src/memhook/thread.h: the functions bound to a
    thread, its creation and its end, and the interruption of a thread that
    sleeps.

    A sleeping thread and the threads that interrupt it are state machines
    whose steps are the operations on the flag, on the mutex and on the
    condition variable, in any interleaving.  [pthread_cond_timedwait] gives
    the mutex back and starts waiting in one step, and may return for no
    reason. *)
From S2P Require Import Prelude Atomic.

Module Interrupt.

(** ** Bound functions *)

(** A pointer to an object and a pointer to a member function; [None] is a
    null pointer. *)
Record ThreadRunnableBind0 (T : Type) := mkBind0 {
  b0_obj : option T; b0_mem : option (T → Z);
}.
Record ThreadRunnableBind1 (T A1 : Type) := mkBind1 {
  b1_obj : option T; b1_mem : option (T → A1 → Z); b1_a1 : A1;
}.
Record ThreadRunnableBind2 (T A1 A2 : Type) := mkBind2 {
  b2_obj : option T; b2_mem : option (T → A1 → A2 → Z); b2_a1 : A1; b2_a2 : A2;
}.
Arguments mkBind0 {_}.
Arguments mkBind1 {_ _}.
Arguments mkBind2 {_ _ _}.
Arguments b0_obj {_}.
Arguments b0_mem {_}.
Arguments b1_obj {_ _}.
Arguments b1_mem {_ _}.
Arguments b1_a1 {_ _}.
Arguments b2_obj {_ _ _}.
Arguments b2_mem {_ _ _}.
Arguments b2_a1 {_ _ _}.
Arguments b2_a2 {_ _ _}.

(** [Run ()]; [None] is a failing assertion. *)
Definition Run0 {T} (b : ThreadRunnableBind0 T) : option Z :=
  match b0_obj b, b0_mem b with Some obj, Some mem => Some (mem obj) | _, _ => None end.
Definition Run1 {T A1} (b : ThreadRunnableBind1 T A1) : option Z :=
  match b1_obj b, b1_mem b with Some obj, Some mem => Some (mem obj (b1_a1 b)) | _, _ => None end.
Definition Run2 {T A1 A2} (b : ThreadRunnableBind2 T A1 A2) : option Z :=
  match b2_obj b, b2_mem b with
  | Some obj, Some mem => Some (mem obj (b2_a1 b) (b2_a2 b))
  | _, _ => None
  end.

(** [Init (obj, mem, ...)] *)
Definition Init0 {T} (obj : T) (mem : T → Z) (b : ThreadRunnableBind0 T) := mkBind0 (Some obj) (Some mem).
Definition Init1 {T A1} (obj : T) (mem : T → A1 → Z) (a1 : A1) (b : ThreadRunnableBind1 T A1) :=
  mkBind1 (Some obj) (Some mem) a1.
Definition Init2 {T A1 A2} (obj : T) (mem : T → A1 → A2 → Z) (a1 : A1) (a2 : A2)
    (b : ThreadRunnableBind2 T A1 A2) := mkBind2 (Some obj) (Some mem) a1 a2.

(** ** Threads *)

(** A thread object: the handle of the system's thread, 0 for none, and the
    function.  [Run ()] is applied to what [Thread::Current ()] is while it
    runs. *)
Record Thread := mkThread { m_thread : Z; m_runnable : option (option nat → option Z) }.

Definition newThread : Thread := mkThread 0 None.

(** The thread objects by address, the threads of the system that have been
    created (with the address passed to [ThreadRoutine]) and those that have
    ended (with their result). *)
Record system := mkSystem {
  threads : gmap nat Thread;
  started : gmap Z nat;
  ended : gmap Z Z;
}.

(** [Create (runnable)]: [pthread_create] returns the handle [id]. *)
Definition Create (this : nat) (runnable : option nat → option Z) (id : Z) (s : system) : option system :=
  match threads s !! this with
  | Some t => Some (mkSystem (<[this := mkThread id (Some runnable)]> (threads s))
                      (<[id := this]> (started s)) (ended s))
  | None => None
  end.

(** [ThreadRoutine (arg)] in the new thread, from its start to its end, with
    the thread's own [s_current_thread]; [None] is a failing assertion *)
Definition ThreadRoutine (id : Z) (s : system) : option system :=
  match started s !! id with
  | Some arg =>
      let s_current_thread := Some arg in
      match threads s !! arg with
      | Some (mkThread _ (Some run)) =>
          match run s_current_thread with
          | Some res => Some (mkSystem (threads s) (delete id (started s)) (<[id := res]> (ended s)))
          | None => None
          end
      | _ => None
      end
  | None => None
  end.

(** [Join (ret)]; the result is the thread's, [None] if it has not ended. *)
Definition Join (this : nat) (s : system) : option (Z * system) :=
  match threads s !! this with
  | Some t =>
      match ended s !! m_thread t with
      | Some res =>
          Some (res, mkSystem (<[this := mkThread 0 (m_runnable t)]> (threads s)) (started s)
                       (delete (m_thread t) (ended s)))
      | None => None
      end
  | None => None
  end.

(** [~Thread ()]; [None] is the failing assertion on a thread not joined *)
Definition destroyThread (this : nat) (s : system) : option system :=
  match threads s !! this with
  | Some t =>
      if m_thread t =? 0 then Some (mkSystem (delete this (threads s)) (started s) (ended s)) else None
  | None => None
  end.

(** ** Interruption *)

(** Where the sleeping thread is in [SleepUntil]. *)
Inductive spc :=
| SOut                                     (** not in the function yet *)
| SLock                                    (** before the mutex is locked *)
| SCheck                                   (** at the condition of the loop *)
| SWait                                    (** before [pthread_cond_timedwait] *)
| SSleeping                                (** waiting *)
| SWoken (timeout : bool)                  (** the wait is over, the mutex not locked yet *)
| SUnlock (r : bool)                       (** before the mutex is unlocked *)
| SDone (r : bool).                        (** returned *)

(** Where a thread is in [Interrupt]. *)
Inductive ipc := IStore | ILock | IWakeUp | IUnlock | IDone.

Inductive holder := Sleeper | Interrupter (i : nat).

Record state := mkState {
  m_interrupted : Z;
  m_sleep_mutex : option holder;
  sleeper : spc;
  interrupters : list ipc;
}.

#[export] Instance spc_eq_dec : EqDecision spc.
Proof. solve_decision. Defined.
#[export] Instance ipc_eq_dec : EqDecision ipc.
Proof. solve_decision. Defined.
#[export] Instance holder_eq_dec : EqDecision holder.
Proof. solve_decision. Defined.

(** A step of the sleeping thread; [choice] is how a wait ends. *)
Definition sleeper_step (choice : bool) (s : state) : option state :=
  let '(mkState f m p ints) := s in
  match p with
  | SOut => Some (mkState f m SLock ints)
  | SLock => match m with None => Some (mkState f (Some Sleeper) SCheck ints) | Some _ => None end
  | SCheck =>
      let '(v, f) := Atomic.Acquire_Load f in
      Some (mkState f m (if v =? 0 then SWait else SUnlock false) ints)
  | SWait => Some (mkState f None SSleeping ints)
  | SSleeping => Some (mkState f m (SWoken choice) ints)
  | SWoken timeout =>
      match m with
      | None => Some (mkState f (Some Sleeper) (if timeout then SUnlock true else SCheck) ints)
      | Some _ => None
      end
  | SUnlock r => Some (mkState f None (SDone r) ints)
  | SDone _ => None
  end.

(** A step of the interrupting thread [i]. *)
Definition interrupter_step (i : nat) (s : state) : option state :=
  let '(mkState f m p ints) := s in
  match ints !! i with
  | Some IStore => Some (mkState (Atomic.Release_Store 1 f) m p (<[i := ILock]> ints))
  | Some ILock =>
      match m with
      | None => Some (mkState f (Some (Interrupter i)) p (<[i := IWakeUp]> ints))
      | Some _ => None
      end
  | Some IWakeUp =>
      Some (mkState f m (if decide (p = SSleeping) then SWoken false else p) (<[i := IUnlock]> ints))
  | Some IUnlock => Some (mkState f None p (<[i := IDone]> ints))
  | Some IDone | None => None
  end.

Inductive step (s : state) : state → Prop :=
| step_sleeper choice s' : sleeper_step choice s = Some s' → step s s'
| step_interrupter i s' : interrupter_step i s = Some s' → step s s'.

(** A thread about to sleep, and threads about to interrupt it. *)
Definition start (n : nat) : state := mkState 0 None SOut (replicate n IStore).

(** ** Lemmas *)

Definition sleeper_locks (p : spc) : bool :=
  match p with SCheck | SWait | SUnlock _ => true | _ => false end.
Definition interrupter_locks (p : ipc) : bool :=
  match p with IWakeUp | IUnlock => true | _ => false end.
(** past the broadcast *)
Definition has_woken (p : ipc) : Prop := p = IUnlock ∨ p = IDone.

Record inv (s : state) : Prop := {
  i_flag i p : interrupters s !! i = Some p → p ≠ IStore → m_interrupted s = 1;
  i_sleeper : m_sleep_mutex s = Some Sleeper ↔ sleeper_locks (sleeper s) = true;
  i_interrupter i : m_sleep_mutex s = Some (Interrupter i) ↔
    ∃ p, interrupters s !! i = Some p ∧ interrupter_locks p = true;
  i_woken i p : interrupters s !! i = Some p → has_woken p →
    sleeper s ≠ SWait ∧ sleeper s ≠ SSleeping;
}.

Lemma start_inv n : inv (start n).
Proof.
  split; simpl.
  - intros i p [-> _]%lookup_replicate. done.
  - done.
  - intros i. split; [done|]. intros (p & [-> _]%lookup_replicate & ?). done.
  - intros i p [-> _]%lookup_replicate [|]; done.
Qed.

Lemma inv_sleeper f m m' p p' ints :
  inv (mkState f m p ints) →
  (m' = Some Sleeper ↔ sleeper_locks p' = true) →
  (∀ i, m' = Some (Interrupter i) ↔ m = Some (Interrupter i)) →
  (p' = SWait ∨ p' = SSleeping → f = 0 ∨ p = SWait) →
  inv (mkState f m' p' ints).
Proof.
  intros [Hf Hs Hi Hw] Hs' Hi' Hp. simpl in *. split; simpl; [done|done| |].
  - intros i. by rewrite Hi', Hi.
  - intros i q Hq Hwk. destruct (Hw i q Hq Hwk) as [Hw1 _].
    assert (f = 1) as Hf1 by (apply (Hf i q Hq); by destruct Hwk as [->| ->]).
    split; intros ->; destruct Hp as [?| ?]; auto; congruence.
Qed.

Lemma sleeper_step_inv choice s s' : inv s → sleeper_step choice s = Some s' → inv s'.
Proof.
  destruct s as [f m p ints]. intros Hinv Hstep.
  pose proof (i_sleeper _ Hinv) as Hs. simpl in Hs.
  destruct p; simpl in *; repeat case_match; simplify_eq/=;
    (eapply inv_sleeper; [exact Hinv|..]); try done;
    try (intros i; rewrite (proj2 Hs) by done; done);
    try (by intros [?|?]); try (by rewrite Hs); try (by intros _; right).
  zify_bool. by intros _; left.
Qed.

Lemma inv_interrupters f f' m m' p p' ints i q :
  inv (mkState f m p ints) → (i < length ints)%nat → f' = 1 →
  (m' = Some Sleeper ↔ sleeper_locks p' = true) →
  (∀ j, m' = Some (Interrupter j) ↔ if decide (j = i) then interrupter_locks q = true
                                     else m = Some (Interrupter j)) →
  (has_woken q → p' ≠ SWait ∧ p' ≠ SSleeping) →
  (p' = SWait ∨ p' = SSleeping → p' = p) →
  inv (mkState f' m' p' (<[i := q]> ints)).
Proof.
  intros [Hf Hs Hi Hw] Hlt -> Hs' Hm Hwk Hp. simpl in *. split; simpl; [done|done| |].
  - intros j. rewrite Hm. case_decide as Hj.
    + subst. rewrite list_lookup_insert_eq by done. naive_solver.
    + rewrite list_lookup_insert_ne by done. apply Hi.
  - intros j r. destruct (decide (j = i)) as [->|Hj].
    + rewrite list_lookup_insert_eq by done. intros [= ->]. done.
    + rewrite list_lookup_insert_ne by done. intros Hr Hwr. destruct (Hw j r Hr Hwr).
      split; intros He; rewrite (Hp ltac:(auto)) in He; done.
Qed.

Lemma interrupter_step_inv i s s' : inv s → interrupter_step i s = Some s' → inv s'.
Proof.
  destruct s as [f m p ints]. intros Hinv. simpl.
  destruct (ints !! i) as [q|] eqn:Hq; [|done]. pose proof (lookup_lt_Some _ _ _ Hq) as Hlt.
  pose proof (i_flag _ Hinv i q Hq) as Hf. pose proof (i_sleeper _ Hinv) as Hs.
  pose proof (λ j, i_interrupter _ Hinv j) as Hi. simpl in *.
  assert (∀ j, j ≠ i → interrupter_locks q = true → m ≠ Some (Interrupter j)) as Hone.
  { intros j Hj Hl Hm. assert (m = Some (Interrupter i)) by (apply Hi; by exists q). congruence. }
  assert (interrupter_locks q = true → m = Some (Interrupter i)) as Hmi by (intros; apply Hi; by exists q).
  assert (interrupter_locks q = false → m ≠ Some (Interrupter i)) as Hmo.
  { intros Hl Hm. apply Hi in Hm as (q' & Hq' & ?). congruence. }
  destruct q; intros Hstep.
  - simplify_eq/=. eapply inv_interrupters; [exact Hinv|done|done|done| | |done].
    + intros j. case_decide; [subst; simpl; naive_solver|done].
    + by intros [|].
  - destruct m; simplify_eq/=. eapply inv_interrupters; [exact Hinv|done|by apply Hf| | | |done].
    + split; [done|]. intros Hx. by apply Hs in Hx.
    + intros j. case_decide; [by subst|]. split; [congruence|done].
    + by intros [|].
  - simplify_eq/=. rewrite (Hmi eq_refl) in *.
    assert (sleeper_locks p = false) as Hp by 
      (destruct (sleeper_locks p); [by specialize (proj2 Hs eq_refl)|done]).
    eapply inv_interrupters; [exact Hinv|done|by apply Hf| | | |].
    + case_decide; [subst p; done|done].
    + intros j. case_decide; [by subst|done].
    + intros _. case_decide; [done|]. split; [by intros ->|done].
    + case_decide; [by intros [|]|done].
  - simplify_eq/=. rewrite (Hmi eq_refl) in *.
    destruct (i_woken _ Hinv i IUnlock Hq) as [? ?]; [by left|]. simpl in *.
    eapply inv_interrupters; [exact Hinv|done|by apply Hf| | |done|done].
    + split; [done|]. intros Hx. by apply Hs in Hx.
    + intros j. case_decide; [by subst|]. split; [done|]. congruence.
  - done.
Qed.

Lemma sleep_reachable_inv n s : rtc step (start n) s → inv s.
Proof.
  intros Hr. eapply (rtc_ind_r inv (start n)); [apply start_inv| |exact Hr].
  intros s1 s2 _ [choice s' Hs|i s' Hs] Hinv;
    [by eapply sleeper_step_inv|by eapply interrupter_step_inv].
Qed.

(** ** Properties *)

(** C34.  No interruption is lost.  Once [Interrupt] has returned, the sleeping
    thread does not wait and will not wait again: if no other thread is in
    the middle of [Interrupt], three steps of its own at most bring it out of
    [SleepUntil], wherever it is in the function, and with the result [false]
    unless its time was over just then. *)
Theorem interruption_ends_sleep n s i :
  rtc step (start n) s → interrupters s !! i = Some IDone →
  sleeper s ≠ SWait ∧ sleeper s ≠ SSleeping ∧
  (sleeper s ≠ SOut → (∀ j, m_sleep_mutex s ≠ Some (Interrupter j)) →
   ∃ k s' r, (k ≤ 3)%nat ∧ nsteps (λ s s', ∀ choice, sleeper_step choice s = Some s') k s s' ∧
     sleeper s' = SDone r ∧
     (sleeper s ∉ [SWoken true; SUnlock true; SDone true] → r = false)).
Proof.
  intros Hr Hi. pose proof (sleep_reachable_inv n s Hr) as Hinv.
  destruct (i_woken _ Hinv i IDone Hi) as [Hw1 Hw2]; [by right|]. split_and!; [done|done|].
  intros Hout Hfree. pose proof (i_flag _ Hinv i IDone Hi ltac:(done)) as Hf.
  pose proof (i_sleeper _ Hinv) as Hs. destruct s as [f m p ints]. simpl in *. subst f.
  assert (sleeper_locks p = false → m = None) as Hm.
  { intros Hp. destruct m as [[|j]|]; [|by destruct (Hfree j)|done]. by rewrite (proj1 Hs) in Hp. }
  assert (∀ r m, nsteps (λ s s', ∀ choice, sleeper_step choice s = Some s') 1
    (mkState 1 m (SUnlock r) ints) (mkState 1 None (SDone r) ints)) as Hun.
  { intros. by eapply nsteps_once. }
  assert (∀ m, nsteps (λ s s', ∀ choice, sleeper_step choice s = Some s') 2
    (mkState 1 m SCheck ints) (mkState 1 None (SDone false) ints)) as Hch.
  { intros. eapply nsteps_l; [|apply Hun]. done. }
  destruct p as [| | | | |[] |r|r]; try done.
  - rewrite Hm by done. exists 3%nat, (mkState 1 None (SDone false) ints), false.
    split_and!; [lia|eapply nsteps_l; [done|apply Hch]|done|done].
  - eexists 2%nat, _, false. split_and!; [lia|apply Hch|done|done].
  - rewrite Hm by done. exists 2%nat, (mkState 1 None (SDone true) ints), true.
    split_and!; [lia|eapply nsteps_l; [done|apply Hun]|done|]. intros Hx. exfalso. apply Hx. left.
  - rewrite Hm by done. exists 3%nat, (mkState 1 None (SDone false) ints), false.
    split_and!; [lia|eapply nsteps_l; [done|apply Hch]|done|done].
  - eexists 1%nat, _, r. split_and!; [lia|apply Hun|done|]. intros Hx. destruct r; [|done].
    exfalso. apply Hx. right; left.
  - exists 0%nat, (mkState 1 m (SDone r) ints), r. split_and!; [lia|constructor|done|].
    intros Hx. destruct r; [|done]. exfalso. apply Hx. right; right; left.
Qed.

(** The life of a thread: the function bound to it runs with the thread as
    the current one, [Join] returns its result, and only then may the thread
    object be destroyed. *)
Theorem thread_runs_bound_function {T A1 A2} (obj : T) (mem : T → A1 → A2 → Z) a1 a2 b this id s t :
  threads s !! this = Some t → id ≠ 0 →
  ∃ s1 s2 s3 s4,
    Create this (λ cur, if decide (cur = Some this) then Run2 (Init2 obj mem a1 a2 b) else None) id s =
      Some s1 ∧
    destroyThread this s1 = None ∧
    ThreadRoutine id s1 = Some s2 ∧ Join this s2 = Some (mem obj a1 a2, s3) ∧
    destroyThread this s3 = Some s4 ∧ threads s4 = delete this (threads s).
Proof.
  intros Ht Hid. unfold Create. rewrite Ht. set (run := λ cur : option nat, _ : option Z).
  set (s1 := mkSystem (<[this := mkThread id (Some run)]> (threads s)) (<[id := this]> (started s)) (ended s)).
  set (s2 := mkSystem (threads s1) (delete id (started s1)) (<[id := mem obj a1 a2]> (ended s1))).
  set (s3 := mkSystem (<[this := mkThread 0 (Some run)]> (threads s2)) (started s2)
    (delete id (ended s2))).
  set (s4 := mkSystem (delete this (threads s3)) (started s3) (ended s3)).
  assert (threads s1 !! this = Some (mkThread id (Some run))) as H1 by apply lookup_insert_eq.
  assert (run (Some this) = Some (mem obj a1 a2)) as Hrun by (unfold run; by rewrite decide_True).
  exists s1, s2, s3, s4. split_and!; [done|..].
  - unfold destroyThread. rewrite H1. simpl. by rewrite (proj2 (Z.eqb_neq id 0)).
  - unfold ThreadRoutine, s1 at 1. simpl. rewrite lookup_insert_eq.
    fold (threads s1). by rewrite lookup_insert_eq, Hrun.
  - unfold Join. change (threads s2) with (threads s1). rewrite H1. simpl. by rewrite lookup_insert_eq.
  - unfold destroyThread, s3 at 1. simpl. by rewrite lookup_insert_eq.
  - simpl. by rewrite !delete_insert_eq.
Qed.

(** ** Examples *)

(** A thread that is asleep when it is interrupted. *)
Definition demo_asleep : state := mkState 1 (Some (Interrupter 0)) SSleeping [IWakeUp].
Definition demo_interrupted : state := mkState 1 None (SWoken false) [IDone].

Lemma demo_interrupted_reachable : rtc step (start 1) demo_interrupted.
Proof.
  do 4 (eapply rtc_l; [by apply (step_sleeper _ false)|]).
  do 4 (eapply rtc_l; [by apply (step_interrupter _ 0)|]). apply rtc_refl.
Qed.

Lemma interruption_ends_sleep_witness :
  ∃ k s', (k ≤ 3)%nat ∧
    nsteps (λ s s', ∀ choice, sleeper_step choice s = Some s') k demo_interrupted s' ∧
    sleeper s' = SDone false.
Proof.
  destruct (interruption_ends_sleep 1 demo_interrupted 0) as (_ & _ & Hend);
    [exact demo_interrupted_reachable|reflexivity|].
  destruct Hend as (k & s' & r & Hk & Hs & Hr & Hf); [done|done|].
  exists k, s'. rewrite Hr, Hf by by_decide. done.
Defined.

Definition demo_system : system := mkSystem {[1%nat := newThread]} ∅ ∅.

Lemma thread_runs_bound_function_witness :
  ∃ s1 s2 s3 s4,
    Create 1 (λ cur, if decide (cur = Some 1%nat)
                     then Run2 (Init2 10 (λ o a b, o + a * b) 3 4 (mkBind2 None None 0 0)) else None) 7
      demo_system = Some s1 ∧
    destroyThread 1 s1 = None ∧
    ThreadRoutine 7 s1 = Some s2 ∧ Join 1 s2 = Some (10 + 3 * 4, s3) ∧
    destroyThread 1 s3 = Some s4 ∧ threads s4 = delete 1%nat (threads demo_system).
Proof.
  apply (thread_runs_bound_function 10 (λ o a b, o + a * b) 3 4 (mkBind2 None None 0 0) 1 7
    demo_system newThread); [reflexivity|done].
Defined.

End Interrupt.
