(* ===== verification/Singleton.v ===== *)
(** * The engine's instance

    src/memhook/singleton.h: the reference-counted instance that the hooks
    use and the library's destructor gives up.  Each thread gets the instance
    in three steps: it tests the pointer, reads it again, and counts its
    reference; another thread may destroy the instance in between. *)
From S2P Require Import Prelude Atomic.

Module Singleton.
Import Atomic.

(** A thread in a hook. *)
Inductive user :=
| Idle
| Tested       (** [if (instance_)] has seen the instance *)
| Read         (** [instance_] was read again and was not null *)
| Using.       (** the reference is counted *)

(** The thread that runs [Destroy]. *)
Inductive destroyer :=
| Running      (** before [Destroy] *)
| Taken        (** [instance_ = NULL] is done, the reference is still held *)
| Gone.        (** the reference is released *)

#[export] Instance user_eq_dec : EqDecision user.
Proof. solve_decision. Defined.
#[export] Instance destroyer_eq_dec : EqDecision destroyer.
Proof. solve_decision. Defined.

Record state := mkState {
  instance_ : bool;        (** the pointer is not null *)
  ref_counter_ : Z;
  alive : bool;            (** the object is not deleted *)
  destroyed : nat;         (** calls of [OnDestroy] *)
  invalid : bool;          (** the object was used after its deletion *)
  destroyer_ : destroyer;
  users : list user;
}.

Definition intrusive_ptr_add_ref (s : state) : state :=
  if alive s then
    mkState (instance_ s) (Barrier_AtomicFetchAndAdd 32 1 (ref_counter_ s)).2 true (destroyed s)
      (invalid s) (destroyer_ s) (users s)
  else mkState (instance_ s) (ref_counter_ s) false (destroyed s) true (destroyer_ s) (users s).

(** [OnDestroy] and [delete] when the count reaches zero *)
Definition intrusive_ptr_release (s : state) : state :=
  if alive s then
    let '(r, c) := Barrier_AtomicAddAndFetch32 (-1) (ref_counter_ s) in
    if r =? 0 then
      mkState (instance_ s) c false (S (destroyed s)) (invalid s) (destroyer_ s) (users s)
    else mkState (instance_ s) c true (destroyed s) (invalid s) (destroyer_ s) (users s)
  else mkState (instance_ s) (ref_counter_ s) false (destroyed s) true (destroyer_ s) (users s).

(** [Initialize ()] *)
Definition Initialize (n : nat) : state :=
  intrusive_ptr_add_ref (mkState true 0 true 0 false Running (replicate n Idle)).

Definition set_user (i : nat) (u : user) (s : state) : state :=
  mkState (instance_ s) (ref_counter_ s) (alive s) (destroyed s) (invalid s) (destroyer_ s)
    (<[i := u]> (users s)).

(** A step of a user: through [GetInstance] and, in [Using], the release of
    the pointer at the end of the hook. *)
Definition user_step (u : user) (i : nat) (s : state) : state :=
  match u with
  | Idle => if instance_ s then set_user i Tested s else s
  | Tested => if instance_ s then set_user i Read s else set_user i Idle s
  | Read => set_user i Using (intrusive_ptr_add_ref s)
  | Using => set_user i Idle (intrusive_ptr_release s)
  end.

(** A step of [Destroy]. *)
Definition destroy_step (s : state) : state :=
  match destroyer_ s with
  | Running => mkState false (ref_counter_ s) (alive s) (destroyed s) (invalid s) Taken (users s)
  | Taken =>
      let s := intrusive_ptr_release s in
      mkState (instance_ s) (ref_counter_ s) (alive s) (destroyed s) (invalid s) Gone (users s)
  | Gone => s
  end.

(** With [guarded], [Destroy] gives its reference up only while no thread is
    between reading the pointer and counting its reference. *)
Inductive step (guarded : bool) : state → state → Prop :=
| step_user i u s : users s !! i = Some u → step guarded s (user_step u i s)
| step_destroy s :
    (guarded = true → destroyer_ s = Taken → Read ∉ users s) → step guarded s (destroy_step s).

(** ** Lemmas *)

Definition using_count (us : list user) : nat := length (filter (λ u, u = Using) us).

Lemma using_insert us i u v :
  us !! i = Some u →
  (using_count (<[i := v]> us) + (if decide (u = Using) then 1 else 0) =
   using_count us + (if decide (v = Using) then 1 else 0))%nat.
Proof.
  intros Hi. unfold using_count. rewrite (insert_take_drop _ _ v) by (by eapply lookup_lt_Some).
  rewrite <- (take_drop_middle us i u Hi) at 3.
  rewrite !filter_app, !length_app, !filter_cons. repeat case_decide; simpl; lia.
Qed.

Lemma using_le us : (using_count us ≤ length us)%nat.
Proof. apply length_filter. Qed.

Definition own_ref (d : destroyer) : nat := if decide (d = Gone) then 0 else 1.

(** The count is the number of references; the object lives as long as there
    is one, and is destroyed once when there is none. *)
Record inv (n : nat) (s : state) : Prop := {
  i_threads : length (users s) = n;
  i_count : ref_counter_ s = Z.of_nat (using_count (users s) + own_ref (destroyer_ s));
  i_alive : alive s = bool_decide (0 < using_count (users s) + own_ref (destroyer_ s))%nat;
  i_destroyed : destroyed s = (if alive s then 0 else 1)%nat;
  i_valid : invalid s = false;
  i_instance : instance_ s = bool_decide (destroyer_ s = Running);
  i_reading : Read ∈ users s → destroyer_ s ≠ Gone;
}.

Section invariant.
Context (n : nat) (Hn : Z.of_nat n + 2 < 2 ^ 31).

Lemma inv_Initialize : inv n (Initialize n).
Proof.
  assert (using_count (replicate n Idle) = 0%nat) as H0.
  { unfold using_count. induction n as [|k IH]; [done|]. simpl. rewrite filter_cons_False by done.
    apply IH. lia. }
  split; simpl; rewrite ?H0; try done.
  by rewrite length_replicate.
Qed.

(** Adding and releasing a reference. *)
Lemma add_ref_spec s :
  inv n s → alive s = true →
  intrusive_ptr_add_ref s =
    mkState (instance_ s) (Z.of_nat (S (using_count (users s) + own_ref (destroyer_ s)))) true (destroyed s)
      false (destroyer_ s) (users s).
Proof.
  intros [Hl Hc _ _ Hv _ _] Ha. unfold intrusive_ptr_add_ref. rewrite Ha, Hv. simpl. f_equal.
  pose proof (using_le (users s)). unfold own_ref in *. rewrite Hc.
  rewrite swrap_small; [lia|lia|]. case_decide; range.
Qed.

Lemma release_spec s :
  inv n s → (0 < using_count (users s) + own_ref (destroyer_ s))%nat →
  let k := pred (using_count (users s) + own_ref (destroyer_ s)) in
  intrusive_ptr_release s =
    mkState (instance_ s) (Z.of_nat k) (bool_decide (0 < k)%nat)
      (if bool_decide (0 < k)%nat then 0 else 1)%nat false (destroyer_ s) (users s).
Proof.
  intros [Hl Hc Ha Hd Hv _ _] Hpos k. unfold intrusive_ptr_release.
  rewrite bool_decide_true in Ha by done. rewrite Ha in *. rewrite Hd, Hv.
  unfold Barrier_AtomicAddAndFetch32, NoBarrier_AtomicAddAndFetch, xadd. simpl.
  pose proof (using_le (users s)).
  assert (swrap 32 (ref_counter_ s + -1) = Z.of_nat k) as ->.
  { rewrite Hc. unfold own_ref in *. rewrite swrap_small; [lia|lia|]. case_decide; range. }
  destruct (Z.of_nat k =? 0) eqn:Hk; zify_bool.
  - by rewrite !bool_decide_false by lia.
  - by rewrite !bool_decide_true by lia.
Qed.

(** A thread changes its place without counting a reference. *)
Lemma set_user_inv s i u v :
  inv n s → users s !! i = Some u → u ≠ Using → v ≠ Using →
  (v = Read → destroyer_ s ≠ Gone) → inv n (set_user i v s).
Proof.
  intros [Hl Hc Ha Hd Hv Hi Hr] Hu Hnu Hnv Hread.
  pose proof (using_insert (users s) i u v Hu) as Hus. rewrite !decide_False in Hus by done.
  assert (using_count (<[i := v]> (users s)) = using_count (users s)) as Heq by lia.
  split; simpl; rewrite ?Heq, ?length_insert; try done.
  intros Hin. apply list_elem_of_lookup in Hin as [j Hj].
  apply list_lookup_insert_Some in Hj as [(_ & -> & _)|[_ Hj]]; [by apply Hread|].
  apply Hr. by eapply list_elem_of_lookup_2.
Qed.

Lemma Read_insert (us : list user) i v : v ≠ Read → Read ∈ <[i := v]> us → Read ∈ us.
Proof.
  intros Hv Hin. apply list_elem_of_lookup in Hin as [j Hj].
  apply list_lookup_insert_Some in Hj as [(_ & -> & _)|[_ Hj]]; [done|].
  by eapply list_elem_of_lookup_2.
Qed.

Lemma read_step_inv s i : inv n s → users s !! i = Some Read → inv n (user_step Read i s).
Proof.
  intros Hinv Hu. pose proof Hinv as [Hl Hc Ha Hd Hv Hi Hr].
  assert (destroyer_ s ≠ Gone) as Hg by (apply Hr; by eapply list_elem_of_lookup_2).
  assert (own_ref (destroyer_ s) = 1%nat) as Ho by (unfold own_ref; by rewrite decide_False).
  assert (alive s = true) as Hal by (rewrite Ha; apply bool_decide_true; lia).
  simpl. rewrite add_ref_spec by done. unfold set_user. simpl.
  pose proof (using_insert (users s) i Read Using Hu) as Hus. simpl in Hus.
  split; simpl; rewrite ?length_insert; try done.
  - lia.
  - symmetry. apply bool_decide_true. lia.
  - by rewrite Hd, Hal.
Qed.

Lemma using_step_inv s i : inv n s → users s !! i = Some Using → inv n (user_step Using i s).
Proof.
  intros Hinv Hu. pose proof Hinv as [Hl Hc Ha Hd Hv Hi Hr].
  pose proof (using_insert (users s) i Using Idle Hu) as Hus. simpl in Hus.
  simpl. rewrite release_spec by (done || lia). unfold set_user. simpl.
  assert (pred (using_count (users s) + own_ref (destroyer_ s)) =
    using_count (<[i := Idle]> (users s)) + own_ref (destroyer_ s))%nat as -> by lia.
  split; simpl; rewrite ?length_insert; try done.
  intros Hin. by apply Hr, (Read_insert _ i Idle).
Qed.

Lemma destroy_step_inv s :
  inv n s → (destroyer_ s = Taken → Read ∉ users s) → inv n (destroy_step s).
Proof.
  intros Hinv Hg. pose proof Hinv as [Hl Hc Ha Hd Hv Hi Hr]. unfold destroy_step.
  destruct (destroyer_ s) eqn:Hds; [..|done].
  - by split; simpl.
  - rewrite release_spec; [|done|rewrite Hds; change (own_ref Taken) with 1%nat; lia]. rewrite Hds.
    simpl. change (own_ref Taken) with 1%nat.
    replace (pred (using_count (users s) + 1)) with (using_count (users s) + own_ref Gone)%nat
      by (change (own_ref Gone) with 0%nat; lia).
    split; simpl; try done. intros Hin. by destruct (Hg eq_refl).
Qed.

Lemma step_inv_guarded s s' : inv n s → step true s s' → inv n s'.
Proof.
  intros Hinv Hs. destruct Hs as [i u s Hu|s Hg]; [|by apply destroy_step_inv; auto].
  destruct u; [| |by apply read_step_inv|by apply using_step_inv]; simpl;
    destruct (instance_ s) eqn:Hins; try done; (eapply set_user_inv; [done..|]); try done.
  intros _. pose proof (i_instance n s Hinv) as Hi. rewrite Hins in Hi. symmetry in Hi.
  apply bool_decide_eq_true in Hi. by rewrite Hi.
Qed.

Lemma reachable_inv_guarded s : rtc (step true) (Initialize n) s → inv n s.
Proof.
  intros Hr. eapply (rtc_ind_r (inv n) (Initialize n)); eauto using inv_Initialize, step_inv_guarded.
Qed.

(** ** Properties *)

(** C33.  As long as the instance is not given up while a thread is about to
    count its reference, the object is never used after its deletion, it
    exists while a hook uses it, and [OnDestroy] runs once, when the last
    reference is gone. *)
Theorem instance_is_safe s :
  rtc (step true) (Initialize n) s →
  invalid s = false ∧ (Using ∈ users s → alive s = true) ∧ (destroyed s ≤ 1)%nat ∧
  (destroyed s = 1%nat ↔ destroyer_ s = Gone ∧ Using ∉ users s).
Proof.
  intros Hr. destruct (reachable_inv_guarded s Hr) as [Hl Hc Ha Hd Hv Hi Hrd].
  assert (Using ∈ users s ↔ (0 < using_count (users s))%nat) as Hu.
  { unfold using_count. destruct (filter _ (users s)) as [|x l] eqn:Hf; simpl; (split; [|lia || intros _]).
    - intros Hin. exfalso. eapply (not_elem_of_nil Using). rewrite <- Hf. by apply list_elem_of_filter.
    - intros. lia.
    - assert (x ∈ filter (λ u, u = Using) (users s)) as Hx by (rewrite Hf; apply list_elem_of_here).
      by apply list_elem_of_filter in Hx as [-> ?]. }
  split_and!; [done| |by rewrite Hd; destruct (alive s); lia|].
  - rewrite Hu, Ha. intros. apply bool_decide_true. lia.
  - rewrite Hd, Ha, Hu. unfold own_ref. clear Hc Ha Hd Hi Hrd.
    destruct (decide (destroyer_ s = Gone)); case_bool_decide; (split; [intros|intros [? ?]]);
      first [done | lia | congruence | split; [done|lia] | exfalso; lia].
Qed.

End invariant.

(** The code has no such guard: a thread that has read the pointer when
    the library is unloaded counts its reference in a deleted object. *)
Theorem instance_used_after_deletion :
  ∃ s, rtc (step false) (Initialize 1) s ∧ invalid s = true.
Proof.
  eexists. split; [|]; last first.
  - instantiate (1 := user_step Read 0 (destroy_step (destroy_step
      (user_step Tested 0 (user_step Idle 0 (Initialize 1)))))). done.
  - eapply rtc_l; [by apply (step_user false 0 Idle)|].
    eapply rtc_l; [by apply (step_user false 0 Tested)|].
    eapply rtc_l; [by apply step_destroy|]. eapply rtc_l; [by apply step_destroy|].
    eapply rtc_l; [by apply (step_user false 0 Read)|]. apply rtc_refl.
Qed.

(** ** Examples *)

Lemma instance_is_safe_witness :
  invalid (destroy_step (destroy_step (Initialize 2))) = false ∧
  destroyed (destroy_step (destroy_step (Initialize 2))) = 1%nat.
Proof.
  destruct (instance_is_safe 2 ltac:(lia) (destroy_step (destroy_step (Initialize 2))))
    as (Hv & _ & _ & Hd).
  - eapply rtc_l; [by apply step_destroy|]. eapply rtc_l; [|apply rtc_refl].
    apply step_destroy. intros _ _. by_decide.
  - split; [exact Hv|]. apply Hd. split; [reflexivity|by_decide].
Defined.

End Singleton.
