(* ===== verification/Memview.v ===== *)
(** * The viewer

    src/memview: the record filters of mapped_view_options.h, the flags and
    the filter list of mapped_view_base.cpp, the simple and the aggregated
    view (basic_mapped_view.h, basic_simple_mapped_view.h,
    basic_aggregated_mapped_view.h, simple_printer.h, aggregated_printer.h)
    and [main] of memview.cpp.

    A view reads the container a [BasicMappedStorage] left in shared memory
    or in a file.  What it prints is a list of lines, each with the values
    the code passes to the formatting library.  The flag the SIGINT handler
    sets is read by [IsInterrupted] once per visited element: [intr n] is
    what the [n]-th of these reads returns.  The clock conversions and
    [localtime_r], [abi::__cxa_demangle] and the parsers of the command line
    strings are parameters. *)
From S2P Require Import Prelude Boost TraceInfo Serialization Network Storage.

Module Memview.
Import Storage.

(** ** Filters *)

(** The difference of two time points, a 64-bit count of nanoseconds. *)
Definition time_minus (a b : Z) : Z := i64 (a - b).

Inductive MappedViewOption :=
| MinSizeMappedViewOption (m_min_size : Z)
| MinTimeMappedViewOption (m_min_time : Z)
| MaxTimeMappedViewOption (m_max_time : Z)
| MinTimeFromNowMappedViewOption (m_current_time m_min_duration : Z)
| MaxTimeFromNowMappedViewOption (m_current_time m_max_duration : Z)
| MinTimeFromStartMappedViewOption (m_start_time m_min_duration : Z)
| MaxTimeFromStartMappedViewOption (m_start_time m_max_duration : Z).

(** The [Call] methods.  The last two classes assign to a member. *)
Definition MinSize_Call (m_min_size : Z) (tinfo : TraceInfoBase) : bool :=
  m_min_size <=? memsize tinfo.

Definition MinTime_Call (m_min_time : Z) (tinfo : TraceInfoBase) : bool :=
  m_min_time <=? timestamp tinfo.

Definition MaxTime_Call (m_max_time : Z) (tinfo : TraceInfoBase) : bool :=
  timestamp tinfo <=? m_max_time.

Definition MinTimeFromNow_Call (m_current_time m_min_duration : Z) (tinfo : TraceInfoBase)
    : bool :=
  m_min_duration <=? time_minus m_current_time (timestamp tinfo).

Definition MaxTimeFromNow_Call (m_current_time m_max_duration : Z) (tinfo : TraceInfoBase)
    : bool :=
  time_minus m_current_time (timestamp tinfo) <=? m_max_duration.

Definition MinTimeFromStart_Call (m_start_time m_min_duration : Z) (tinfo : TraceInfoBase)
    : Z * bool :=
  let m_start_time := if m_start_time =? 0 then timestamp tinfo else m_start_time in
  (m_start_time, m_min_duration <=? time_minus (timestamp tinfo) m_start_time).

Definition MaxTimeFromStart_Call (m_start_time m_max_duration : Z) (tinfo : TraceInfoBase)
    : Z * bool :=
  let m_start_time := if m_start_time =? 0 then timestamp tinfo else m_start_time in
  (m_start_time, time_minus (timestamp tinfo) m_start_time <=? m_max_duration).

(** The virtual call: the object afterwards and the result. *)
Definition Call (o : MappedViewOption) (tinfo : TraceInfoBase) : MappedViewOption * bool :=
  match o with
  | MinSizeMappedViewOption n => (o, MinSize_Call n tinfo)
  | MinTimeMappedViewOption m => (o, MinTime_Call m tinfo)
  | MaxTimeMappedViewOption m => (o, MaxTime_Call m tinfo)
  | MinTimeFromNowMappedViewOption c d => (o, MinTimeFromNow_Call c d tinfo)
  | MaxTimeFromNowMappedViewOption c d => (o, MaxTimeFromNow_Call c d tinfo)
  | MinTimeFromStartMappedViewOption s d =>
      let '(s, b) := MinTimeFromStart_Call s d tinfo in (MinTimeFromStartMappedViewOption s d, b)
  | MaxTimeFromStartMappedViewOption s d =>
      let '(s, b) := MaxTimeFromStart_Call s d tinfo in (MaxTimeFromStartMappedViewOption s d, b)
  end.

(** ** [MappedViewBase] *)

Inductive OptionFlag := kNoLock | kShowCallStack | kSortByAddress | kSortByTime | kSortBySize.

Definition flag_value (f : OptionFlag) : Z :=
  match f with
  | kNoLock => 0x0001
  | kShowCallStack => 0x0002
  | kSortByAddress => 0x0010
  | kSortByTime => 0x0020
  | kSortBySize => 0x0040
  end.

#[export] Instance OptionFlag_eq_dec : EqDecision OptionFlag.
Proof. solve_decision. Defined.

Record MappedViewBase := mkMappedViewBase {
  m_options : list MappedViewOption;
  m_flags : Z;
}.

Definition newMappedViewBase : MappedViewBase := mkMappedViewBase [] (flag_value kSortByTime).

Definition GetOptionFlag (option_flag : OptionFlag) (v : MappedViewBase) : bool :=
  negb (Z.land (m_flags v) (flag_value option_flag) =? 0).

(** The complement of a 32-bit word. *)
Definition not32 (z : Z) : Z := u32 (Z.lnot z).

Definition SetOptionFlag (option_flag : OptionFlag) (setval : bool) (v : MappedViewBase)
    : MappedViewBase :=
  let sortmask := 0x00f0 in
  let flags :=
    if Z.land (flag_value option_flag) sortmask =? 0 then m_flags v
    else Z.land (m_flags v) (not32 sortmask) in
  mkMappedViewBase (m_options v)
    (if setval then Z.lor flags (flag_value option_flag)
     else Z.land flags (not32 (flag_value option_flag))).

Definition SetOption (option : MappedViewOption) (v : MappedViewBase) : MappedViewBase :=
  mkMappedViewBase (m_options v ++ [option]) (m_flags v).

(** [find_if] over the filters, for the first one that rejects the record:
    the filters after it are not called. *)
Fixpoint check_options (options : list MappedViewOption) (tinfo : TraceInfoBase)
    : list MappedViewOption * bool :=
  match options with
  | [] => ([], true)
  | o :: options =>
      let '(o, accepted) := Call o tinfo in
      if accepted then
        let '(options, res) := check_options options tinfo in (o :: options, res)
      else (o :: options, false)
  end.

Definition CheckTraceInfoOptions (tinfo : TraceInfoBase) (v : MappedViewBase)
    : MappedViewBase * bool :=
  let '(options, res) := check_options (m_options v) tinfo in
  (mkMappedViewBase options (m_flags v), res).

(** *** The interrupt flag *)

Definition InterruptHandler (g_is_interrupted : bool) : bool := true.

(** The [n]-th read of the flag, where [sigint i] is whether a SIGINT has
    arrived between read [i - 1] and read [i]. *)
Fixpoint IsInterrupted (sigint : nat → bool) (n : nat) : bool :=
  let g_is_interrupted := match n with O => false | S m => IsInterrupted sigint m end in
  if sigint n then InterruptHandler g_is_interrupted else g_is_interrupted.

(** ** Printed lines *)

(** [struct tm], as far as it is printed *)
Record tm := mkTm { tm_year : Z; tm_mon : Z; tm_mday : Z; tm_hour : Z; tm_min : Z; tm_sec : Z }.

Inductive line :=
| LineRecord (address memsize year month day hour minute second nsec : Z)
| LineGroup (memsize times : Z)
| LineFrame (ip sp : Z) (module_path procname : bytes) (offp : Z)
| LineInfo (size free : Z).

(** [boost::range::find_if (range, !body)]: the body is called on the
    elements until it returns false; the flag says whether the end of the
    range was reached. *)
Fixpoint for_each_while {T S : Type} (body : T → S → S * bool) (l : list T) (s : S) : S * bool :=
  match l with
  | [] => (s, true)
  | x :: l =>
      let '(s, go_on) := body x s in
      if go_on then for_each_while body l s else (s, false)
  end.

Definition unknown_name : bytes := [60; 117; 110; 107; 110; 111; 119; 110; 62].

Section views.
Context {C : Type} `{!MultiIndex C BasicTraceInfo Z}.
Context (to_time_t from_time_t : Z → Z) (localtime_r : Z → tm).
Context (cxa_demangle : bytes → option bytes).
Context (intr : nat → bool).

Definition CxxSymbolDemangle (source : bytes) : bytes :=
  match cxa_demangle source with
  | Some res => res
  | None => source
  end.

Definition GetModulePath (c : MappedContainer C) (addr : Z) : bytes :=
  match shltab c !! addr with
  | None => unknown_name
  | Some path => path
  end.

Definition GetProcName (c : MappedContainer C) (ip : Z) : bytes :=
  match symtab c !! ip with
  | None => unknown_name
  | Some name => name
  end.

(** [operator() (const TraceInfoCallStackItem &)] of both printers *)
Definition print_frame (c : MappedContainer C) (item : TraceInfoCallStackItem) : line :=
  LineFrame (ip item) (sp item) (GetModulePath c (shl_addr item))
    (CxxSymbolDemangle (GetProcName c (ip item))) (offp item).

(** The frames of a call stack, if they are asked for. *)
Definition print_callstack (c : MappedContainer C) (v : MappedViewBase)
    (callstack : list TraceInfoCallStackItem) : list line :=
  if GetOptionFlag kShowCallStack v then print_frame c <$> callstack else [].

(** A view while it writes: its own state, the lines written so far and how
    often the interrupt flag was read. *)
Record vstate := mkVstate { vs_view : MappedViewBase; vs_out : list line; vs_polls : nat }.

(** *** The simple view *)

Definition print_record (c : MappedContainer C) (v : MappedViewBase) (t : BasicTraceInfo)
    : list line :=
  let ttsec := to_time_t (ti_timestamp t) in
  let nsec := time_minus (ti_timestamp t) (from_time_t ttsec) in
  let tm := localtime_r ttsec in
  LineRecord (ti_address t) (ti_memsize t) (tm_year tm + 1900) (tm_mon tm + 1) (tm_mday tm)
    (tm_hour tm) (tm_min tm) (tm_sec tm) nsec
  :: print_callstack c v (ti_callstack t).

Definition SimpleTraceInfoPrinter (c : MappedContainer C) (t : BasicTraceInfo) (s : vstate)
    : vstate * bool :=
  if intr (vs_polls s) then (mkVstate (vs_view s) (vs_out s) (S (vs_polls s)), false)
  else
    let '(v, accepted) := CheckTraceInfoOptions (ti_base t) (vs_view s) in
    let out := if accepted then vs_out s ++ print_record c v t else vs_out s in
    (mkVstate v out (S (vs_polls s)), true).

Definition simple_ForEachDo (c : MappedContainer C) (index : list BasicTraceInfo) (s : vstate)
    : vstate :=
  (for_each_while (SimpleTraceInfoPrinter c) index s).1.

(** The index the simple view iterates over. *)
Definition sort_index (v : MappedViewBase) : nat :=
  if GetOptionFlag kSortByAddress v then 0%nat
  else if GetOptionFlag kSortBySize v then 2%nat
  else 1%nat.

Definition simple_WriteImpl (c : MappedContainer C) (s : vstate) : vstate :=
  simple_ForEachDo c (mi_range (sort_index (vs_view s)) (indexed_container c)) s.

(** *** The aggregated view *)

Record AggregatedTraceInfo := mkAggregatedTraceInfo {
  ag_memsize : Z;
  ag_times : Z;
  ag_callstack : list TraceInfoCallStackItem;
}.

(** [TraceInfoCallstackItemEqualByIpAndSp] *)
Definition item_equal (lhs rhs : TraceInfoCallStackItem) : bool :=
  (ip lhs =? ip rhs) && (sp lhs =? sp rhs).

(** [std::equal] with the length of its first range *)
Fixpoint std_equal {A} (eq : A → A → bool) (l k : list A) : bool :=
  match l, k with
  | [], _ => true
  | x :: l, y :: k => if eq x y then std_equal eq l k else false
  | _ :: _, [] => false
  end.

(** [CallstackContainerEqualByIpAndSp] *)
Definition callstack_equal (lhs rhs : list TraceInfoCallStackItem) : bool :=
  if negb (length lhs =? length rhs)%nat then false
  else std_equal item_equal lhs rhs.

(** [CallstackContainerHashByIpAndSp]: [hash_combine] of the library over the
    frames. *)
Definition item_hash (hash_combine : Z → Z → Z) (seed : Z) (item : TraceInfoCallStackItem) : Z :=
  hash_combine (hash_combine seed (ip item)) (sp item).
Definition callstack_hash (hash_combine : Z → Z → Z) (callstack : list TraceInfoCallStackItem) : Z :=
  fold_left (item_hash hash_combine) callstack 0.

(** What that relation distinguishes, as the key of the hashed index. *)
Definition stack_key (cs : list TraceInfoCallStackItem) : list (Z * Z) :=
  (λ i, (ip i, sp i)) <$> cs.
Definition ag_key (g : AggregatedTraceInfo) : list (Z * Z) := stack_key (ag_callstack g).

(** The indices of [AggregatedIndexedContainer]: the order of the hashed one
    is not specified. *)
Definition group_indices (hash_order : AggregatedTraceInfo → Z) : list (AggregatedTraceInfo → Z) :=
  [hash_order; ag_memsize; ag_times].

Context {G : Type} `{!MultiIndex G AggregatedTraceInfo (list (Z * Z))}.

Definition AggregatedTraceInfoFieldsUpdater (m_memsize : Z) (tinfo : AggregatedTraceInfo)
    : AggregatedTraceInfo :=
  mkAggregatedTraceInfo (u64 (ag_memsize tinfo + m_memsize)) (u64 (ag_times tinfo + 1))
    (ag_callstack tinfo).

Definition add_to_group (t : BasicTraceInfo) (g : G) : G :=
  match mi_find (stack_key (ti_callstack t)) g with
  | Some _ =>
      mi_modify (stack_key (ti_callstack t)) (AggregatedTraceInfoFieldsUpdater (ti_memsize t)) g
  | None => (mi_emplace (mkAggregatedTraceInfo (ti_memsize t) 1 (ti_callstack t)) g).1
  end.

Definition AggregatedIndexedContainerBuilder (t : BasicTraceInfo) (s : vstate * G)
    : (vstate * G) * bool :=
  let '(s, g) := s in
  if intr (vs_polls s) then ((mkVstate (vs_view s) (vs_out s) (S (vs_polls s)), g), false)
  else
    let '(v, accepted) := CheckTraceInfoOptions (ti_base t) (vs_view s) in
    let g := if accepted then add_to_group t g else g in
    ((mkVstate v (vs_out s) (S (vs_polls s)), g), true).

Definition print_group (c : MappedContainer C) (v : MappedViewBase) (g : AggregatedTraceInfo)
    : list line :=
  LineGroup (ag_memsize g) (ag_times g) :: print_callstack c v (ag_callstack g).

Definition AggregatedTraceInfoPrinter (c : MappedContainer C) (g : AggregatedTraceInfo)
    (s : vstate) : vstate * bool :=
  if intr (vs_polls s) then (mkVstate (vs_view s) (vs_out s) (S (vs_polls s)), false)
  else
    (mkVstate (vs_view s) (vs_out s ++ print_group c (vs_view s) g) (S (vs_polls s)), true).

Definition ForEachDo_2 (c : MappedContainer C) (index : list AggregatedTraceInfo) (s : vstate)
    : vstate :=
  (for_each_while (AggregatedTraceInfoPrinter c) index s).1.

Definition aggregated_ForEachDo (c : MappedContainer C) (index : list BasicTraceInfo)
    (s : vstate) : vstate :=
  let '((s, g), complete) :=
    for_each_while AggregatedIndexedContainerBuilder index (s, mi_empty) in
  if negb complete then s
  else if GetOptionFlag kSortBySize (vs_view s) then ForEachDo_2 c (mi_range 1 g) s
  else ForEachDo_2 c (mi_range 2 g) s.

Definition aggregated_WriteImpl (c : MappedContainer C) (s : vstate) : vstate :=
  aggregated_ForEachDo c (mi_range 1 (indexed_container c)) s.

(** [Write], for a view of either kind, on a stream of its own. *)
Definition Write (aggregated : bool) (c : MappedContainer C) (v : MappedViewBase)
    : MappedViewBase * list line :=
  let s := mkVstate v [] 0 in
  let s := if aggregated then aggregated_WriteImpl c s else simple_WriteImpl c s in
  (vs_view s, vs_out s).

End views.
(** ** [main] *)

(** [boost::program_options::variables_map] is an [std::map]: its entries in
    the order of their names, which is the order [main] visits them in. *)
Inductive variable_value :=
| VNone
| VBool (b : bool)
| VSize (n : Z)
| VInt (n : Z)
| VString (s : string).

Abbreviation variables_map := (list (string * variable_value)).

Definition lookup_option (k : string) (m : variables_map) : option variable_value :=
  snd <$> (snd <$> list_find (λ e, e.1 = k) m).

Definition count (k : string) (m : variables_map) : bool := bool_decide (is_Some (lookup_option k m)).

(** [as<T> ()], which throws on a value of another type. *)
Definition as_bool (v : variable_value) : option bool := match v with VBool b => Some b | _ => None end.
Definition as_size (v : variable_value) : option Z := match v with VSize n => Some n | _ => None end.
Definition as_string (v : variable_value) : option string :=
  match v with VString s => Some s | _ => None end.

Section main.
Context (parse_duration parse_time : string → Z) (now : Z).

(** *** [BasicMappedViewWorks]: the filters *)

Definition NewMinSizeOption (min_size : Z) : MappedViewOption := MinSizeMappedViewOption min_size.
Definition NewMinTimeOption (min_time : Z) : MappedViewOption := MinTimeMappedViewOption min_time.
Definition NewMaxTimeOption (max_time : Z) : MappedViewOption := MaxTimeMappedViewOption max_time.
(** The constructors read the clock. *)
Definition NewMinTimeFromNowOption (min_time : Z) : MappedViewOption :=
  MinTimeFromNowMappedViewOption now min_time.
Definition NewMaxTimeFromNowOption (max_time : Z) : MappedViewOption :=
  MaxTimeFromNowMappedViewOption now max_time.
(** The start time is still unknown. *)
Definition NewMinTimeFromStartOption (min_time : Z) : MappedViewOption :=
  MinTimeFromStartMappedViewOption 0 min_time.
Definition NewMaxTimeFromStartOption (max_time : Z) : MappedViewOption :=
  MaxTimeFromStartMappedViewOption 0 max_time.

(** One turn of the loop over the options. *)
Definition apply_option (v : MappedViewBase) (op : string * variable_value) : option MappedViewBase :=
  if bool_decide (op.1 = "sort-by-address"%string) then Some (SetOptionFlag kSortByAddress true v)
  else if bool_decide (op.1 = "sort-by-size"%string) then Some (SetOptionFlag kSortBySize true v)
  else if bool_decide (op.1 = "sort-by-time"%string) then Some (SetOptionFlag kSortByTime true v)
  else if bool_decide (op.1 = "show-callstack"%string) then
    b ← as_bool op.2; Some (SetOptionFlag kShowCallStack b v)
  else if bool_decide (op.1 = "min-time-from-now"%string) then
    d ← as_string op.2; Some (SetOption (NewMinTimeFromNowOption (parse_duration d)) v)
  else if bool_decide (op.1 = "max-time-from-now"%string) then
    d ← as_string op.2; Some (SetOption (NewMaxTimeFromNowOption (parse_duration d)) v)
  else if bool_decide (op.1 = "min-time-from-start"%string) then
    d ← as_string op.2; Some (SetOption (NewMinTimeFromStartOption (parse_duration d)) v)
  else if bool_decide (op.1 = "max-time-from-start"%string) then
    d ← as_string op.2; Some (SetOption (NewMaxTimeFromStartOption (parse_duration d)) v)
  else if bool_decide (op.1 = "min-time"%string) then
    t ← as_string op.2; Some (SetOption (NewMinTimeOption (parse_time t)) v)
  else if bool_decide (op.1 = "max-time"%string) then
    t ← as_string op.2; Some (SetOption (NewMaxTimeOption (parse_time t)) v)
  else if bool_decide (op.1 = "min-size"%string) then
    n ← as_size op.2; Some (SetOption (NewMinSizeOption n) v)
  else Some v.

Fixpoint apply_options (m : variables_map) (v : MappedViewBase) : option MappedViewBase :=
  match m with
  | [] => Some v
  | op :: m => v ← apply_option v op; apply_options m v
  end.

Context {C : Type} `{!MultiIndex C BasicTraceInfo Z}.
Context (to_time_t from_time_t : Z → Z) (localtime_r : Z → tm).
Context (cxa_demangle : bytes → option bytes) (intr : nat → bool).
Context {G : Type} `{!MultiIndex G AggregatedTraceInfo (list (Z * Z))}.

(** *** [BasicMappedViewWorks]: the views *)

(** What the constructor of [BasicMappedView] finds when it opens a segment by
    name: the container, and size and free memory of the segment.  [None] is an
    exception of the library. *)
Abbreviation works := (string → option (MappedContainer C * (Z * Z))).

(** A view of either kind on its segment. *)
Record MappedView := mkMappedView {
  mv_aggregated : bool;
  mv_container : MappedContainer C;
  mv_usage : Z * Z;
}.

Definition NewSimpleView (w : works) (name : string) : option MappedView :=
  '(c, u) ← w name; Some (mkMappedView false c u).
Definition NewAggregatedView (w : works) (name : string) : option MappedView :=
  '(c, u) ← w name; Some (mkMappedView true c u).

Definition GetSize (view : MappedView) : Z := (mv_usage view).1.
Definition GetFreeMemory (view : MappedView) : Z := (mv_usage view).2.

(** The classes for files and for shared memory. *)
Context (NewMMFMappedViewWorks NewSHMMappedViewWorks : works).

Definition MEMHOOK_SHARED_MEMORY : string := "ShmMemHook".

(** The database that is asked for. *)
Definition choose_works (m : variables_map) : option (string * works) :=
  match lookup_option "mapped-file" m with
  | Some f => path ← as_string f; Some (path, NewMMFMappedViewWorks)
  | None =>
      path ← match lookup_option "shared-memory" m with
             | Some n => as_string n
             | None => Some MEMHOOK_SHARED_MEMORY
             end;
      Some (path, NewSHMMappedViewWorks)
  end.

(** The body of the [try] block; [None] is [EXIT_FAILURE]. *)
Definition memview_main (m : variables_map) : option (list line) :=
  '(path, w) ← choose_works m;
  view ← (if count "aggregate" m then NewAggregatedView w path else NewSimpleView w path);
  v ← match lookup_option "no-lock" m with
      | Some b => b ← as_bool b; Some (SetOptionFlag kNoLock b newMappedViewBase)
      | None => Some newMappedViewBase
      end;
  if count "get-storage-info" m then Some [LineInfo (GetSize view) (GetFreeMemory view)]
  else
    v ← apply_options m v;
    Some (Write (C := C) to_time_t from_time_t localtime_r cxa_demangle intr (G := G)
            (mv_aggregated view) (mv_container view) v).2.

Lemma new_view (aggregated : bool) (w : works) name :
  (if aggregated then NewAggregatedView w name else NewSimpleView w name) =
    '(c, u) ← w name; Some (mkMappedView aggregated c u).
Proof. by destruct aggregated. Qed.

End main.
(** ** Selection as a pipeline of filters *)

(** A filter on exact times, [start] being the time the last two classes
    measure from. *)
Definition passes (o : MappedViewOption) (start : Z) (t : TraceInfoBase) : Prop :=
  match o with
  | MinSizeMappedViewOption n => n ≤ memsize t
  | MinTimeMappedViewOption m => m ≤ timestamp t
  | MaxTimeMappedViewOption m => timestamp t ≤ m
  | MinTimeFromNowMappedViewOption now d => d ≤ now - timestamp t
  | MaxTimeFromNowMappedViewOption now d => now - timestamp t ≤ d
  | MinTimeFromStartMappedViewOption _ d => d ≤ timestamp t - start
  | MaxTimeFromStartMappedViewOption _ d => timestamp t - start ≤ d
  end.

#[export] Instance passes_dec o start t : Decision (passes o start t).
Proof. destruct o; simpl; apply _. Defined.

(** The time of the first record of a range. *)
Definition start_time (l : list BasicTraceInfo) : Z :=
  match l with [] => 0 | t :: _ => ti_timestamp t end.

Definition set_start (o : MappedViewOption) : option Z :=
  match o with
  | MinTimeFromStartMappedViewOption s _ | MaxTimeFromStartMappedViewOption s _ =>
      if s =? 0 then None else Some s
  | _ => None
  end.

(** Every filter works on the records its predecessors left; it measures
    from the first of them, unless its start time is set already. *)
Definition select_by (l : list BasicTraceInfo) (o : MappedViewOption) : list BasicTraceInfo :=
  filter (λ t, passes o (default (start_time l) (set_start o)) (ti_base t)) l.

Definition select (options : list MappedViewOption) (l : list BasicTraceInfo)
    : list BasicTraceInfo :=
  fold_left select_by options l.

(** Times after the epoch, with 63 bits. *)
Definition time_ok (z : Z) : Prop := 0 < z < 2 ^ 63.

Definition option_ok (o : MappedViewOption) : Prop :=
  match o with
  | MinTimeFromNowMappedViewOption now _ | MaxTimeFromNowMappedViewOption now _ => time_ok now
  | MinTimeFromStartMappedViewOption s _ | MaxTimeFromStartMappedViewOption s _ =>
      s = 0 ∨ time_ok s
  | _ => True
  end.

#[export] Instance time_ok_dec z : Decision (time_ok z).
Proof. unfold time_ok; apply _. Defined.
#[export] Instance option_ok_dec o : Decision (option_ok o).
Proof. destruct o; simpl; apply _. Defined.

Lemma time_minus_exact a b : time_ok a → time_ok b → time_minus a b = a - b.
Proof. intros Ha Hb. unfold time_ok in *. apply swrap_small; [lia|]. range. Qed.

(** One call of a filter, for the first record of the range. *)
Lemma Call_spec o t l :
  option_ok o → time_ok (ti_timestamp t) →
  let start := default (start_time (t :: l)) (set_start o) in
  (Call o (ti_base t)).2 = bool_decide (passes o start (ti_base t)) ∧
  select_by l (Call o (ti_base t)).1 = filter (λ t, passes o start (ti_base t)) l ∧
  option_ok (Call o (ti_base t)).1.
Proof.
  intros Ho Ht. unfold select_by, ti_timestamp in *.
  destruct o as [n|m|m|c d|c d|s d|s d]; simpl in *;
    unfold MinSize_Call, MinTime_Call, MaxTime_Call, MinTimeFromNow_Call, MaxTimeFromNow_Call;
    rewrite ?leb_decide.
  1-3: done.
  1-2: by rewrite time_minus_exact.
  all: unfold time_ok in *; destruct (Z.eqb_spec s 0) as [->|Hs]; simpl;
    rewrite ?leb_decide, time_minus_exact by (unfold time_ok; naive_solver lia);
    [destruct (Z.eqb_spec (timestamp (ti_base t)) 0); [lia|]|
     destruct (Z.eqb_spec s 0); [done|]]; simpl; split_and!; auto.
Qed.

(** Checking the record at the front of a range against all filters is one
    step of every filter of the pipeline it reaches. *)
Lemma check_options_select options t l :
  Forall option_ok options → time_ok (ti_timestamp t) →
  let '(options', accepted) := check_options options (ti_base t) in
  select options (t :: l) =
    (if accepted then t :: select options' l else select options' l) ∧
  Forall option_ok options'.
Proof.
  intros Hok Ht. revert l. induction Hok as [|o options Ho Hok IH]; intros l; simpl; [done|].
  destruct (Call_spec o t l Ho Ht) as (Hc & Hs & Ho').
  destruct (Call o (ti_base t)) as [o' accepted]. simpl in *. subst accepted.
  change (select (o :: options) (t :: l)) with (select options (select_by (t :: l) o)).
  unfold select_by at 1. cbn [start_time]. rewrite filter_cons, <- Hs.
  case_bool_decide; [rewrite decide_True by done|rewrite decide_False by done].
  - specialize (IH (select_by l o')).
    destruct (check_options options (ti_base t)) as [options' res]. destruct IH as [IH ?].
    split; [|by constructor]. destruct res; exact IH.
  - split; [done|by constructor].
Qed.

Lemma select_sublist options l : select options l `sublist_of` l.
Proof.
  revert l. induction options as [|o options IH]; intros l; simpl; [done|].
  etrans; [apply IH|]. apply sublist_filter.
Qed.

(** Without filters that measure from the start, selection is one filter. *)
Definition from_start (o : MappedViewOption) : bool :=
  match o with
  | MinTimeFromStartMappedViewOption _ _ | MaxTimeFromStartMappedViewOption _ _ => true
  | _ => false
  end.

Lemma select_filter options l :
  Forall (λ o, from_start o = false) options →
  select options l = filter (λ t, Forall (λ o, passes o 0 (ti_base t)) options) l.
Proof.
  intros Ho. revert l. induction Ho as [|o options Ho Hos IH]; intros l; simpl.
  { by rewrite filter_all by (by apply Forall_true). }
  rewrite IH. unfold select_by. rewrite list_filter_filter.
  apply list_filter_iff. intros t. rewrite Forall_cons.
  assert (passes o (default (start_time l) (set_start o)) (ti_base t) ↔ passes o 0 (ti_base t)) as ->
    by by destruct o. tauto.
Qed.

(** ** Groups *)

(** The entry of the aggregated view for the call stack [k]. *)
Definition group_of (k : list (Z * Z)) (l : list BasicTraceInfo) : option AggregatedTraceInfo :=
  match filter (λ t, stack_key (ti_callstack t) = k) l with
  | [] => None
  | t :: l =>
      Some (mkAggregatedTraceInfo (u64 (foldr Z.add 0 (ti_memsize <$> t :: l)))
              (u64 (Z.of_nat (length (t :: l)))) (ti_callstack t))
  end.

(** A record the viewer can rely on. *)
Definition record_ok (t : BasicTraceInfo) : Prop :=
  in_u 64 (ti_memsize t) ∧ time_ok (ti_timestamp t).

#[export] Instance record_ok_dec t : Decision (record_ok t).
Proof. unfold record_ok; apply _. Defined.

(** The key of the hashed index decides its equality predicate. *)
Lemma callstack_equal_key lhs rhs :
  callstack_equal lhs rhs = bool_decide (stack_key lhs = stack_key rhs).
Proof.
  unfold callstack_equal. destruct (Nat.eqb_spec (length lhs) (length rhs)) as [Hl|Hl]; simpl.
  - revert rhs Hl. induction lhs as [|x l IH]; intros [|y r] Hl; simpl in *; try lia; try done.
    rewrite IH by lia. unfold item_equal.
    change (stack_key (x :: l)) with ((ip x, sp x) :: stack_key l).
    change (stack_key (y :: r)) with ((ip y, sp y) :: stack_key r).
    destruct (Z.eqb_spec (ip x) (ip y)); destruct (Z.eqb_spec (sp x) (sp y)); simpl;
      [apply bool_decide_ext; split; congruence|symmetry; apply bool_decide_eq_false; congruence..].
  - case_bool_decide as Hk; [|done]. apply (f_equal length) in Hk. unfold stack_key in Hk.
    rewrite !length_fmap in Hk. done.
Qed.

(** What the hashed index requires: call stacks that its predicate takes for
    equal have the same hash, however the library combines hashes. *)
Lemma equal_callstacks_hash_alike hash_combine lhs rhs :
  callstack_equal lhs rhs = true → callstack_hash hash_combine lhs = callstack_hash hash_combine rhs.
Proof.
  rewrite callstack_equal_key. intros Hk%bool_decide_eq_true. unfold callstack_hash. generalize 0.
  revert rhs Hk. induction lhs as [|x l IH]; intros [|y r] Hk seed; try done.
  change (stack_key (x :: l)) with ((ip x, sp x) :: stack_key l) in Hk.
  change (stack_key (y :: r)) with ((ip y, sp y) :: stack_key r) in Hk.
  injection Hk as Hi Hs Hk. simpl. unfold item_hash at 2 4. rewrite Hi, Hs. by apply IH.
Qed.

Section groups.
Context {G : Type} `{!MultiIndex G AggregatedTraceInfo (list (Z * Z))}.
Context (hash_order : AggregatedTraceInfo → Z).
Context {GL : MultiIndexLaws G AggregatedTraceInfo (list (Z * Z)) ag_key (group_indices hash_order)}.

Lemma group_of_snoc k l t :
  group_of k (l ++ [t]) =
    if decide (k = stack_key (ti_callstack t)) then
      match group_of k l with
      | Some g => Some (AggregatedTraceInfoFieldsUpdater (ti_memsize t) g)
      | None => Some (mkAggregatedTraceInfo (u64 (ti_memsize t)) 1 (ti_callstack t))
      end
    else group_of k l.
Proof.
  unfold group_of. rewrite filter_app, filter_cons, filter_nil. case_decide as Hk.
  - rewrite decide_True by done. destruct (filter _ l) as [|x r]; simpl.
    + by rewrite Z.add_0_r.
    + unfold AggregatedTraceInfoFieldsUpdater; simpl. do 2 f_equal; unfold wrap.
      * rewrite Zplus_mod_idemp_l. f_equal. change (list_fmap _ _ ti_memsize r) with (ti_memsize <$> r).
        change (list_fmap _ _ ti_memsize (r ++ [t])) with (ti_memsize <$> r ++ [t]).
        rewrite fmap_app, foldr_app, foldr_add_base. simpl. lia.
      * rewrite Zplus_mod_idemp_l. f_equal. rewrite length_app. simpl. lia.
  - rewrite decide_False by done. by rewrite app_nil_r.
Qed.

Lemma group_of_key k l g : group_of k l = Some g → ag_key g = k.
Proof.
  unfold group_of. destruct (filter _ l) as [|t r] eqn:Hf; [done|]. intros [= <-].
  assert (t ∈ filter (λ t, stack_key (ti_callstack t) = k) l) as Hin by (rewrite Hf; left).
  by apply list_elem_of_filter in Hin as [? _].
Qed.

Definition groups_inv (l : list BasicTraceInfo) (g : G) : Prop :=
  ∀ k, mi_find k g = group_of k l.

Lemma add_to_group_inv l t g :
  in_u 64 (ti_memsize t) → groups_inv l g → groups_inv (l ++ [t]) (add_to_group t g).
Proof.
  intros Ht Hg k. rewrite group_of_snoc, <- Hg. unfold add_to_group.
  destruct (mi_find (stack_key (ti_callstack t)) g) eqn:Hf.
  - rewrite mi_find_modify by done. case_decide; [subst|done]. by rewrite Hf.
  - rewrite mi_find_emplace by done. unfold ag_key; simpl.
    repeat case_decide; try congruence. subst. by rewrite Hf, wrap_small.
Qed.

Lemma build_groups_inv l :
  Forall (λ t, in_u 64 (ti_memsize t)) l →
  groups_inv l (fold_left (λ g t, add_to_group t g) l mi_empty).
Proof.
  induction l as [|t l IH] using rev_ind.
  { intros _ k. apply mi_find_empty. }
  intros [Hl Ht]%Forall_app. apply Forall_cons in Ht as [Ht _].
  rewrite fold_left_app. apply add_to_group_inv; [exact Ht|by apply IH].
Qed.

End groups.

(** ** The loops *)

Section loops.
Context {C : Type} `{!MultiIndex C BasicTraceInfo Z}.
Context (to_time_t from_time_t : Z → Z) (localtime_r : Z → tm).
Context (cxa_demangle : bytes → option bytes) (intr : nat → bool).
Context {G : Type} `{!MultiIndex G AggregatedTraceInfo (list (Z * Z))}.
Implicit Types c : MappedContainer C.

Abbreviation print_record := (print_record to_time_t from_time_t localtime_r cxa_demangle).
Abbreviation print_group := (print_group cxa_demangle).
Abbreviation SimplePrinter :=
  (SimpleTraceInfoPrinter to_time_t from_time_t localtime_r cxa_demangle intr).

Lemma simple_loop c l s :
  Forall option_ok (m_options (vs_view s)) → Forall record_ok l →
  let shown := select (m_options (vs_view s)) l in
  ∃ n, vs_out (for_each_while (SimplePrinter c) l s).1 =
         vs_out s ++ mjoin (print_record c (vs_view s) <$> take n shown) ∧
       ((∀ i, intr i = false) → (length shown ≤ n)%nat).
Proof.
  revert s. induction l as [|t l IH]; intros s Ho Hl shown; simpl in *.
  { exists O. subst shown. rewrite take_0. simpl. rewrite app_nil_r. split; [done|]. intros _.
    by rewrite (proj1 (sublist_nil_r _) (select_sublist (m_options (vs_view s)) [])). }
  apply Forall_cons in Hl as [[_ Ht] Hl]. unfold SimpleTraceInfoPrinter at 1.
  destruct (intr (vs_polls s)) eqn:Hi.
  { exists O. rewrite take_0. simpl. rewrite app_nil_r. split; [done|]. intros Hn. congruence. }
  unfold CheckTraceInfoOptions.
  pose proof (check_options_select (m_options (vs_view s)) t l Ho Ht) as Hc.
  destruct (check_options _ _) as [options accepted]. destruct Hc as [Hsel Ho']. simpl.
  subst shown. rewrite Hsel.
  match goal with |- context [for_each_while _ l ?s'] =>
    destruct (IH s') as (n & Hn & Hall); [done..|] end.
  simpl in Hn, Hall.
  destruct accepted.
  - exists (S n). rewrite Hn. cbn [take fmap list_fmap mjoin list_join].
    rewrite <- app_assoc. split; [|intros; simpl; specialize (Hall ltac:(done)); lia].
    done.
  - exists n. by rewrite Hn.
Qed.

(** A printer that is interrupted at its read [k] of the flag does what one
    does that nobody interrupts on the first [k] records. *)
Lemma simple_loop_interrupted c l s k :
  (∀ i, (i < k)%nat → intr (vs_polls s + i)%nat = false) → intr (vs_polls s + k)%nat = true →
  vs_out (for_each_while (SimplePrinter c) l s).1 =
    vs_out (for_each_while (SimpleTraceInfoPrinter to_time_t from_time_t localtime_r cxa_demangle
      (λ _, false) c) (take k l) s).1.
Proof.
  revert s k. induction l as [|t l IH]; intros s k Hno Hk; [by rewrite take_nil|].
  destruct k as [|k].
  { rewrite Nat.add_0_r in Hk. simpl. unfold SimpleTraceInfoPrinter. by rewrite Hk. }
  specialize (Hno 0%nat ltac:(lia)) as H0. rewrite Nat.add_0_r in H0.
  cbn [take for_each_while]. unfold SimpleTraceInfoPrinter at 1 3. rewrite H0.
  destruct (CheckTraceInfoOptions (ti_base t) (vs_view s)) as [v accepted].
  apply IH; cbn [vs_polls].
  - intros i Hi. rewrite Nat.add_succ_comm. apply Hno. lia.
  - by rewrite Nat.add_succ_comm.
Qed.

Lemma builder_loop l s (g : G) :
  Forall option_ok (m_options (vs_view s)) → Forall record_ok l →
  let '((s', g'), complete) := for_each_while (AggregatedIndexedContainerBuilder intr) l (s, g) in
  vs_out s' = vs_out s ∧ m_flags (vs_view s') = m_flags (vs_view s) ∧
  (complete = true →
     g' = fold_left (λ g t, add_to_group t g) (select (m_options (vs_view s)) l) g) ∧
  ((∀ i, intr i = false) → complete = true).
Proof.
  revert s g. induction l as [|t l IH]; intros s g Ho Hl; simpl.
  { by rewrite (proj1 (sublist_nil_r _) (select_sublist (m_options (vs_view s)) [])). }
  apply Forall_cons in Hl as [[_ Ht] Hl]. destruct (intr (vs_polls s)) eqn:Hi.
  { simpl. split_and!; [done..|]. intros Hn. congruence. }
  unfold CheckTraceInfoOptions.
  pose proof (check_options_select (m_options (vs_view s)) t l Ho Ht) as Hc.
  destruct (check_options _ _) as [options accepted]. destruct Hc as [-> Ho'].
  match goal with |- context [for_each_while _ l (?s', ?g')] => specialize (IH s' g' Ho' Hl) end.
  destruct (for_each_while _ l _) as [[s' g'] complete]. simpl in IH. by destruct accepted.
Qed.

Lemma printer_loop c (l : list AggregatedTraceInfo) s :
  ∃ n, vs_out (for_each_while (AggregatedTraceInfoPrinter cxa_demangle intr c) l s).1 =
         vs_out s ++ mjoin (print_group c (vs_view s) <$> take n l) ∧
       ((∀ i, intr i = false) → (length l ≤ n)%nat).
Proof.
  revert s. induction l as [|g l IH]; intros s; simpl.
  { exists O. simpl. rewrite app_nil_r. auto. }
  unfold AggregatedTraceInfoPrinter at 1. destruct (intr (vs_polls s)) eqn:Hi.
  { exists O. simpl. rewrite app_nil_r. split; [done|]. intros Hn. congruence. }
  match goal with |- context [for_each_while _ l ?s'] => destruct (IH s') as (n & Hn & Hall) end.
  exists (S n). rewrite Hn. simpl. rewrite <- app_assoc. split; [done|].
  intros Hi'. specialize (Hall Hi'). lia.
Qed.

Lemma aggregated_write c v :
  Forall option_ok (m_options v) → Forall record_ok (mi_range 1 (indexed_container c)) →
  let shown := select (m_options v) (mi_range 1 (indexed_container c)) in
  let groups := mi_range (if GetOptionFlag kSortBySize v then 1 else 2)%nat
                  (fold_left (λ g t, add_to_group t g) shown (mi_empty : G)) in
  ∃ n, (Write to_time_t from_time_t localtime_r cxa_demangle intr (G := G) true c v).2 =
         mjoin (print_group c v <$> take n groups) ∧
       ((∀ i, intr i = false) → (length groups ≤ n)%nat).
Proof.
  intros Ho Hl shown groups. unfold Write, aggregated_WriteImpl, aggregated_ForEachDo. simpl.
  pose proof (builder_loop (mi_range 1 (indexed_container c)) (mkVstate v [] 0) mi_empty Ho Hl) as Hb.
  destruct (for_each_while _ _ _) as [[s g] complete]. simpl in Hb.
  destruct Hb as (Hout & Hf & Hg & Hno). destruct complete; simpl.
  - specialize (Hg eq_refl). fold shown in Hg.
    assert (GetOptionFlag kSortBySize (vs_view s) = GetOptionFlag kSortBySize v) as ->
      by (unfold GetOptionFlag; by rewrite Hf).
    unfold groups. clear groups. rewrite <- Hg. clear Hg.
    assert (∀ e, print_group c (vs_view s) e = print_group c v e) as Hp.
    { intros e. unfold Memview.print_group, print_callstack, GetOptionFlag. by rewrite Hf. }
    destruct (GetOptionFlag kSortBySize v).
    all: match goal with |- context [mi_range ?i ?g] =>
      destruct (printer_loop c (mi_range i g) s) as (n & Hn & Hall) end.
    all: exists n; split; [|done]; unfold ForEachDo_2; rewrite Hn, Hout; simpl.
    all: f_equal; apply list_fmap_ext; intros; apply Hp.
  - exists O. rewrite Hout. split; [done|]. intros Hi. by specialize (Hno Hi).
Qed.

End loops.

(** ** Properties *)

Section properties.
Context {C : Type} `{!MultiIndex C BasicTraceInfo Z}.
Context {L : MultiIndexLaws C BasicTraceInfo Z ti_address container_indices}.
Context (to_time_t from_time_t : Z → Z) (localtime_r : Z → tm).
Context (cxa_demangle : bytes → option bytes) (intr : nat → bool).
Context {G : Type} `{!MultiIndex G AggregatedTraceInfo (list (Z * Z))}.
Context (hash_order : AggregatedTraceInfo → Z).
Context {GL : MultiIndexLaws G AggregatedTraceInfo (list (Z * Z)) ag_key (group_indices hash_order)}.
Implicit Types (c : MappedContainer C) (v : MappedViewBase).

Abbreviation Write := (Write to_time_t from_time_t localtime_r cxa_demangle intr (G := G)).
Abbreviation print_record := (print_record to_time_t from_time_t localtime_r cxa_demangle).
Abbreviation print_group := (print_group cxa_demangle).

(** The sort key of the simple view. *)
Definition sort_key v : BasicTraceInfo → Z :=
  if GetOptionFlag kSortByAddress v then ti_address
  else if GetOptionFlag kSortBySize v then ti_memsize
  else ti_timestamp.

Lemma sort_index_key v : container_indices !! sort_index v = Some (sort_key v).
Proof. unfold sort_index, sort_key. by repeat case_match. Qed.

(** The output of the simple view. *)
Lemma simple_write c v :
  Forall option_ok (m_options v) →
  map_Forall (λ _, record_ok) (mi_map ti_address (indexed_container c)) →
  let shown := select (m_options v) (mi_range (sort_index v) (indexed_container c)) in
  (∃ n, (Write false c v).2 = mjoin (print_record c v <$> take n shown)) ∧
  ((∀ i, intr i = false) → (Write false c v).2 = mjoin (print_record c v <$> shown)).
Proof.
  intros Ho Hr shown. pose proof (sort_index_key v) as Hi.
  assert (sort_index v < length container_indices)%nat as Hlt by (by eapply lookup_lt_Some).
  assert (Forall record_ok (mi_range (sort_index v) (indexed_container c))) as Hl.
  { apply Forall_forall. intros t Ht. apply (mi_range_lookup (ord := container_indices)) in Ht; [|done].
    exact (Hr _ _ Ht). }
  destruct (simple_loop to_time_t from_time_t localtime_r cxa_demangle intr c _ (mkVstate v [] 0) Ho Hl)
    as (n & Hn & Hall).
  split; [by exists n|]. intros Hno. etrans; [exact Hn|]. simpl. by rewrite take_ge by auto.
Qed.

(** A SIGINT that arrives before the flag is read for the [k]-th time: the
    simple view has visited the [k] records in front, and prints those of them
    that pass the filters. *)
Theorem interrupted_view_stops sigint k c v :
  (∀ i, intr i = IsInterrupted sigint i) → (∀ i, (i < k)%nat → sigint i = false) → sigint k = true →
  Forall option_ok (m_options v) →
  map_Forall (λ _, record_ok) (mi_map ti_address (indexed_container c)) →
  (Write false c v).2 =
    mjoin (print_record c v <$>
      select (m_options v) (take k (mi_range (sort_index v) (indexed_container c)))).
Proof.
  intros Hintr Hno Hk Ho Hr.
  assert (∀ i, (i < k)%nat → IsInterrupted sigint i = false) as Hfalse.
  { induction i as [|i IH]; intros Hi; simpl; rewrite Hno by lia; [done|]. apply IH. lia. }
  pose proof (sort_index_key v) as Hi.
  assert (sort_index v < length container_indices)%nat as Hlt by (by eapply lookup_lt_Some).
  etrans; [apply (simple_loop_interrupted to_time_t from_time_t localtime_r cxa_demangle intr c _ (mkVstate v [] 0) k)|].
  - intros i Hlt'. simpl. rewrite Hintr. by apply Hfalse.
  - simpl. rewrite Hintr. by destruct k; simpl; rewrite Hk.
  - destruct (simple_loop to_time_t from_time_t localtime_r cxa_demangle (λ _, false) c
      (take k (mi_range (sort_index v) (indexed_container c))) (mkVstate v [] 0) Ho) as (n & Hn & Hall).
    { apply Forall_take, Forall_forall. intros t Ht.
      apply (mi_range_lookup (ord := container_indices)) in Ht; [|done]. exact (Hr _ _ Ht). }
    etrans; [exact Hn|]. simpl. by rewrite take_ge by auto.
Qed.

(** The records of a container in the order of the sort flag. *)
Lemma sorted_records c v :
  let l := mi_range (sort_index v) (indexed_container c) in
  Sorted (by_key (sort_key v)) l ∧ NoDup l ∧
  ∀ t, t ∈ l ↔ mi_map ti_address (indexed_container c) !! ti_address t = Some t.
Proof.
  intros l. pose proof (sort_index_key v) as Hi.
  assert (sort_index v < length container_indices)%nat as Hlt by (by eapply lookup_lt_Some).
  split_and!.
  - by apply (mi_range_sorted (ord := container_indices)).
  - eapply NoDup_fmap_1. by apply (mi_range_nodup (ord := container_indices)).
  - intros t. by apply (mi_range_lookup (ord := container_indices)).
Qed.


(** C25.  The aggregated view: one entry per call stack among the selected
    records, the stacks compared by instruction and stack pointers only.  An
    entry has the number of its records, the sum of their sizes modulo 2^64
    and the frames of the oldest of them, and the entries are printed in
    ascending order of size or of number.  A SIGINT cuts the list short, but
    no entry is printed with less than all of its records. *)
Theorem aggregated_view_prints_groups c v :
  Forall option_ok (m_options v) →
  map_Forall (λ _, record_ok) (mi_map ti_address (indexed_container c)) →
  let shown := select (m_options v) (mi_range 1 (indexed_container c)) in
  ∃ groups,
    (∀ g, g ∈ groups ↔ group_of (ag_key g) shown = Some g) ∧
    NoDup (ag_key <$> groups) ∧
    Sorted (by_key (if GetOptionFlag kSortBySize v then ag_memsize else ag_times)) groups ∧
    (∃ n, (Write true c v).2 = mjoin (print_group c v <$> take n groups)) ∧
    ((∀ i, intr i = false) → (Write true c v).2 = mjoin (print_group c v <$> groups)).
Proof.
  intros Ho Hr shown.
  assert (Forall record_ok (mi_range 1 (indexed_container c))) as Hl.
  { apply Forall_forall. intros t Ht. apply (mi_range_lookup (ord := container_indices)) in Ht.
    - exact (Hr _ _ Ht).
    - simpl. lia. }
  set (g := fold_left (λ g t, add_to_group t g) shown (mi_empty : G)).
  assert (groups_inv shown g) as Hg.
  { apply (build_groups_inv hash_order). eapply Forall_sublist; [apply select_sublist|].
    eapply Forall_impl; [exact Hl|]. by intros t [? _]. }
  set (i := if GetOptionFlag kSortBySize v then 1%nat else 2%nat).
  assert (group_indices hash_order !! i =
    Some (if GetOptionFlag kSortBySize v then ag_memsize else ag_times)) as Hi.
  { subst i. by destruct (GetOptionFlag kSortBySize v). }
  assert (i < length (group_indices hash_order))%nat as Hlt by (by eapply lookup_lt_Some).
  destruct (aggregated_write to_time_t from_time_t localtime_r cxa_demangle intr (G := G) c v Ho Hl)
    as (n & Hn & Hall).
  exists (mi_range i g). split_and!.
  - intros e. rewrite (mi_range_elem (ord := group_indices hash_order)) by done. by rewrite Hg.
  - by apply (mi_range_nodup (ord := group_indices hash_order)).
  - by apply (mi_range_sorted (ord := group_indices hash_order)).
  - by exists n.
  - intros Hno. rewrite Hn. by rewrite take_ge by auto.
Qed.

End properties.

(** *** Flags *)

(** The flag word as what it stands for: at most one sort order. *)
Inductive sort_order := ByAddress | ByTime | BySize.
Record settings := mkSettings { no_lock : bool; show_callstack : bool; sort : option sort_order }.

Definition spec_set (f : OptionFlag) (b : bool) (st : settings) : settings :=
  let set_sort o := mkSettings (no_lock st) (show_callstack st) (if b then Some o else None) in
  match f with
  | kNoLock => mkSettings b (show_callstack st) (sort st)
  | kShowCallStack => mkSettings (no_lock st) b (sort st)
  | kSortByAddress => set_sort ByAddress
  | kSortByTime => set_sort ByTime
  | kSortBySize => set_sort BySize
  end.

Definition spec_get (f : OptionFlag) (st : settings) : bool :=
  match f, sort st with
  | kNoLock, _ => no_lock st
  | kShowCallStack, _ => show_callstack st
  | kSortByAddress, Some ByAddress | kSortByTime, Some ByTime | kSortBySize, Some BySize => true
  | _, _ => false
  end.

Definition encode (st : settings) : Z :=
  (if no_lock st then 1 else 0) + (if show_callstack st then 2 else 0) +
  match sort st with
  | None => 0 | Some ByAddress => 0x10 | Some ByTime => 0x20 | Some BySize => 0x40
  end.

Lemma SetOptionFlag_encode f b st opts :
  SetOptionFlag f b (mkMappedViewBase opts (encode st)) =
    mkMappedViewBase opts (encode (spec_set f b st)).
Proof. by destruct f, b, st as [[] [] [[]|]]. Qed.

Lemma GetOptionFlag_encode f st opts :
  GetOptionFlag f (mkMappedViewBase opts (encode st)) = spec_get f st.
Proof. by destruct f, st as [[] [] [[]|]]. Qed.

(** Whatever sequence of flags is set and cleared, the flag word stands
    for two switches and at most one sort order: the last sort flag set is
    the only one that is on, and clearing any sort flag leaves none. *)
Theorem flags_refine_settings (sets : list (OptionFlag * bool)) f :
  GetOptionFlag f (fold_left (λ v s, SetOptionFlag s.1 s.2 v) sets newMappedViewBase) =
    spec_get f (fold_left (λ st s, spec_set s.1 s.2 st) sets (mkSettings false false (Some ByTime))).
Proof.
  change newMappedViewBase with (mkMappedViewBase [] (encode (mkSettings false false (Some ByTime)))).
  generalize (mkSettings false false (Some ByTime)).
  induction sets as [|[g b] sets IH]; intros st; simpl; [apply GetOptionFlag_encode|].
  by rewrite SetOptionFlag_encode, IH.
Qed.

(** ** Examples *)

Abbreviation ref_groups := (ListIndex.t ag_key).
#[export] Instance ref_groups_ops : MultiIndex ref_groups AggregatedTraceInfo (list (Z * Z)) :=
  ListIndex.ops ag_key (group_indices ag_times).
#[export] Instance ref_groups_laws :
  MultiIndexLaws ref_groups AggregatedTraceInfo (list (Z * Z)) ag_key (group_indices ag_times).
Proof. by apply ListIndex.laws. Qed.

Definition demo_frame_at (pc : Z) : CallStackInfoItem := mkCallStackInfoItem [108] [102] 4096 pc 8 0.

Definition demo_database : BasicMappedStorage ref_index :=
  run_ops
    [OpAdd 64 16 [demo_frame_at 4100] 200; OpAdd 96 8 [demo_frame_at 4200] 100;
     OpAdd 128 32 [demo_frame_at 4100] 160]
    (newBasicMappedStorage [] 0).

Definition demo_container : MappedContainer ref_index := m_container demo_database.

Definition demo_options : list MappedViewOption :=
  [MinSizeMappedViewOption 4; MinTimeFromStartMappedViewOption 0 60].

Definition demo_view (flag : OptionFlag) : MappedViewBase :=
  SetOptionFlag flag true (fold_left (λ v o, SetOption o v) demo_options newMappedViewBase).

Definition demo_write (aggregated : bool) (v : MappedViewBase) : list line :=
  (Write (λ t, t / 1000000000) (λ t, t * 1000000000) (λ t, mkTm 70 0 1 0 0 t) (λ _, None)
     (λ _, false) (G := ref_groups) aggregated demo_container v).2.

(** What the time since the program start is measured from depends on
    the sort order: it is the time of the first record the filter sees.  The
    database below has records of the times 200, 100 and 160; those at least
    60 after the start are two when the view is sorted by time, and none when
    it is sorted by address. *)
Theorem start_depends_on_sort_order :
  length (demo_write false (demo_view kSortByTime)) = 2%nat ∧
  demo_write false (demo_view kSortByAddress) = [].
Proof. by vm_compute. Qed.


Lemma aggregated_view_prints_groups_witness :
  LineGroup 48 2 ∈ demo_write true (demo_view kSortByTime).
Proof.
  pose proof (aggregated_view_prints_groups (λ t, t / 1000000000) (λ t, t * 1000000000)
    (λ t, mkTm 70 0 1 0 0 t) (λ _, None) (λ _, false) (G := ref_groups) ag_times demo_container
    (demo_view kSortByTime) ltac:(by_decide) ltac:(by_decide)) as (gs & Hg & _ & _ & _ & Hw).
  unfold demo_write. rewrite Hw by done. apply list_elem_of_join.
  exists [LineGroup 48 2]. split; [left|]. apply list_elem_of_fmap.
  exists (mkAggregatedTraceInfo 48 2 [Builder (demo_frame_at 4100)]). split; [done|].
  apply Hg. vm_compute. reflexivity.
Defined.

(** An option map in which aggregation is switched off by its value. *)
Definition demo_main (m : variables_map) : option (list line) :=
  memview_main (λ _, 60) (λ _, 0) 1000 (C := ref_index) (λ t, t / 1000000000) (λ t, t * 1000000000)
    (λ t, mkTm 70 0 1 0 0 t) (λ _, None) (λ _, false) (G := ref_groups)
    (λ _, None) (λ _, Some (demo_container, (4096, 1024))) m.

(** [main] looks at the presence of [--aggregate] only. *)
Example aggregate_value_is_ignored :
  demo_main [("aggregate"%string, VBool false)] = demo_main [("aggregate"%string, VBool true)] ∧
  demo_main [("aggregate"%string, VBool false)] ≠ demo_main [].
Proof. by vm_compute. Qed.

End Memview.
