(* ===== verification/Glibc.v ===== *)
(** * Lookup of the C library's functions in the dynamic linker's tables

    src/memhook/glibc.cpp.  The hooks of dlsym and dlvsym cannot use dlsym to
    find the functions they replace.  They walk the linker's list of loaded
    objects themselves: [GLIBC_find_dl_symbol] finds the next definition of a
    function after the calling object, with the hash tables of the objects.

    Memory is not modelled byte by byte: an object is a record with the
    members of its [link_map] and the tables they point to, pointers to
    objects are keys of a map.  A read outside of a table and a loop that
    does not end are [None]. *)
From S2P Require Import Prelude.

Module Glibc.

(** ** Data *)

(** [ElfW(Sym)], the members that are read *)
Record Sym := mkSym { st_name : Z; st_info : Z; st_value : Z }.

Definition ST_TYPE (info : Z) : Z := Z.land info 0xf.
Definition ST_BIND (info : Z) : Z := Z.shiftr info 4.
Definition STT_FUNC : Z := 2.
Definition STB_GLOBAL : Z := 1.
Definition STB_WEAK : Z := 2.
Definition STN_UNDEF : Z := 0.

(** [__ELF_NATIVE_CLASS] *)
Definition ELF_CLASS : Z := 64.

Record GLIBC_link_map := mkLinkMap {
  l_addr : Z;
  l_real : nat;
  l_loader : option nat;
  l_removed : bool;
  l_used : Z;
  l_symtab : list Sym;
  l_strtab : bytes;
  l_nbuckets : Z;
  l_gnu_bitmask : option (list Z);
  l_gnu_bitmask_idxbits : Z;
  l_gnu_shift : Z;
  l_gnu_buckets : list Z;
  (** the pointer is biased: the table starts with the first hashed symbol *)
  l_gnu_chain_zero : gmap Z Z;
  l_chain : list Z;
  l_buckets : list Z;
  l_local_scope : list (list nat);
}.

Abbreviation objects := (gmap nat GLIBC_link_map).

(** The element [i] of an array. *)
Definition at_index {A} (l : list A) (i : Z) : option A :=
  if i <? 0 then None else l !! Z.to_nat i.

(** The string at an offset of a string table. *)
Definition cstr (strtab : bytes) (off : Z) : bytes :=
  take_while (λ c, negb (c =? 0)) (drop (Z.to_nat off) strtab).

(** ** Hash functions *)

(** One turn of the loop, on an [unsigned long]. *)
Definition elf_hash_step (hash c : Z) : Z :=
  let hash := u64 (u64 (Z.shiftl hash 4) + c) in
  let hi := Z.land hash 0xf0000000 in
  Z.lxor hash (Z.shiftr hi 24).

Definition GLIBC_dl_elf_hash (name : bytes) : Z :=
  Z.land (fold_left elf_hash_step name 0) 0x0fffffff.

(** [uint_fast32_t] has 64 bits. *)
Definition GLIBC_dl_new_hash (s : bytes) : Z :=
  Z.land (fold_left (λ h c, u64 (h * 33 + c)) s 5381) 0xffffffff.

(** ** Lookup in one object *)

(** A symbol is designated by its object and its index. *)
Abbreviation symref := (nat * Z)%type.

Definition GLIBC_check_match (undef_name : bytes) (ref : option symref) (p : symref)
    (sym : Sym) (strtab : bytes) : bool :=
  let stt := ST_TYPE (st_info sym) in
  if (Z.land (Z.shiftl 1 stt) (Z.shiftl 1 STT_FUNC) =? 0) || (st_value sym =? 0) then false
  else if bool_decide (Some p ≠ ref) && bool_decide (cstr strtab (st_name sym) ≠ undef_name)
  then false
  else true.

Section lookup.
Context (undef_name : bytes).

(** The call of [GLIBC_check_match] for the symbol [symidx] of an object. *)
Definition match_at (ref : option symref) (m : nat) (map : GLIBC_link_map) (symidx : Z)
    : option bool :=
  sym ← at_index (l_symtab map) symidx;
  Some (GLIBC_check_match undef_name ref (m, symidx) sym (l_strtab map)).

(** The walk over the hash values of a bucket, from the index [hasharr] on. *)
Fixpoint gnu_loop (fuel : nat) (new_hash : Z) (ref : option symref) (m : nat)
    (map : GLIBC_link_map) (hasharr : Z) : option (option Z) :=
  match fuel with
  | O => None
  | S fuel =>
      h ← l_gnu_chain_zero map !! hasharr;
      found ← (if Z.shiftr (Z.lxor h new_hash) 1 =? 0 then match_at ref m map hasharr
               else Some false);
      if (found : bool) then Some (Some hasharr)
      else if Z.land h 1 =? 0 then gnu_loop fuel new_hash ref m map (hasharr + 1)
      else Some None
  end.

Definition gnu_lookup (new_hash : Z) (ref : option symref) (m : nat) (map : GLIBC_link_map)
    (bitmask : list Z) : option (option Z) :=
  bitmask_word ← at_index bitmask (Z.land (new_hash / ELF_CLASS) (l_gnu_bitmask_idxbits map));
  let hashbit1 := Z.land new_hash (ELF_CLASS - 1) in
  let hashbit2 := Z.land (Z.shiftr new_hash (l_gnu_shift map)) (ELF_CLASS - 1) in
  if Z.land (Z.land (Z.shiftr bitmask_word hashbit1) (Z.shiftr bitmask_word hashbit2)) 1 =? 0
  then Some None
  else
    bucket ← at_index (l_gnu_buckets map) (new_hash `mod` l_nbuckets map);
    if bucket =? 0 then Some None
    else gnu_loop (size (l_gnu_chain_zero map)) new_hash ref m map bucket.

(** The chain of a bucket of the old table. *)
Fixpoint chain_loop (fuel : nat) (ref : option symref) (m : nat) (map : GLIBC_link_map)
    (symidx : Z) : option (option Z) :=
  if symidx =? STN_UNDEF then Some None
  else
    match fuel with
    | O => None
    | S fuel =>
        found ← match_at ref m map symidx;
        if (found : bool) then Some (Some symidx)
        else next ← at_index (l_chain map) symidx; chain_loop fuel ref m map next
    end.

(** ** Lookup in a scope *)

(** The body of the loop for one object: the symbol found in it, if any, and
    the hash value for the old tables, computed when it is first needed. *)
Definition lookup_in (new_hash : Z) (ref : option symref) (m : nat) (map : GLIBC_link_map)
    (old_hash : Z) : option (option Z * Z) :=
  match l_gnu_bitmask map with
  | Some bitmask =>
      r ← gnu_lookup new_hash ref m map bitmask; Some (r, old_hash)
  | None =>
      let old_hash :=
        if old_hash =? 0xffffffff then GLIBC_dl_elf_hash undef_name else old_hash in
      first ← at_index (l_buckets map) (old_hash `mod` l_nbuckets map);
      r ← chain_loop (length (l_chain map)) ref m map first; Some (r, old_hash)
  end.

Definition binds (map : GLIBC_link_map) (symidx : Z) : option bool :=
  sym ← at_index (l_symtab map) symidx;
  Some ((ST_BIND (st_info sym) =? STB_WEAK) || (ST_BIND (st_info sym) =? STB_GLOBAL)).

Fixpoint do_lookup_loop (heap : objects) (new_hash : Z) (ref : option symref)
    (skip : option nat) (list : list nat) (old_hash : Z) : option (option symref * Z) :=
  match list with
  | [] => Some (None, old_hash)
  | p :: list =>
      entry ← heap !! p;
      let m := l_real entry in
      map ← heap !! m;
      if bool_decide (Some m = skip) || l_removed map || (l_nbuckets map =? 0) then
        do_lookup_loop heap new_hash ref skip list old_hash
      else
        '(r, old_hash) ← lookup_in new_hash ref m map old_hash;
        match r with
        | None => do_lookup_loop heap new_hash ref skip list old_hash
        | Some symidx =>
            b ← binds map symidx;
            if (b : bool) then Some (Some (m, symidx), old_hash)
            else do_lookup_loop heap new_hash ref skip list old_hash
        end
  end.

(** The loop looks at the element [i] before it compares [i] with the length. *)
Definition GLIBC_do_lookup (heap : objects) (new_hash : Z) (ref : option symref)
    (skip : option nat) (scope : list nat) (i : nat) (old_hash : Z) : option (option symref * Z) :=
  match drop i scope with
  | [] => None
  | list => do_lookup_loop heap new_hash ref skip list old_hash
  end.

(** The loop over the scopes; the first one is searched from [start] on. *)
Fixpoint scopes_loop (heap : objects) (new_hash : Z) (ref : option symref) (skip : option nat)
    (scopes : list (list nat)) (start : nat) (old_hash : Z) : option (option symref) :=
  match scopes with
  | [] => Some None
  | scope :: scopes =>
      '(r, old_hash) ← GLIBC_do_lookup heap new_hash ref skip scope start old_hash;
      match r with
      | Some found => Some (Some found)
      | None => scopes_loop heap new_hash ref skip scopes 0 old_hash
      end
  end.

(** The position of the object to skip in the first scope. *)
Definition skip_position (skip_map : option nat) (symbol_scope : list (list nat)) : option nat :=
  match skip_map with
  | None => Some O
  | Some s =>
      scope ← head symbol_scope;
      fst <$> list_find (λ p, p = s) scope
  end.

(** [if (m->l_used == 0) m->l_used = 1] *)
Definition mark_used (map : GLIBC_link_map) : GLIBC_link_map :=
  if l_used map =? 0 then
    mkLinkMap (l_addr map) (l_real map) (l_loader map) (l_removed map) 1 (l_symtab map)
      (l_strtab map) (l_nbuckets map) (l_gnu_bitmask map) (l_gnu_bitmask_idxbits map)
      (l_gnu_shift map) (l_gnu_buckets map) (l_gnu_chain_zero map) (l_chain map)
      (l_buckets map) (l_local_scope map)
  else map.

Definition GLIBC_dl_lookup_symbol (heap : objects) (ref : option symref)
    (symbol_scope : list (list nat)) (skip_map : option nat) : option (option symref * objects) :=
  let new_hash := GLIBC_dl_new_hash undef_name in
  start ← skip_position skip_map symbol_scope;
  r ← scopes_loop heap new_hash ref skip_map symbol_scope start 0xffffffff;
  match r with
  | None => Some (None, heap)
  | Some (m, symidx) => Some (Some (m, symidx), alter mark_used m heap)
  end.

(** ** The entry point *)

(** [while (l->l_loader != NULL) l = l->l_loader] *)
Fixpoint loader_loop (fuel : nat) (heap : objects) (l : nat) : option nat :=
  match fuel with
  | O => None
  | S fuel =>
      map ← heap !! l;
      match l_loader map with
      | None => Some l
      | Some l => loader_loop fuel heap l
      end
  end.

(** The weak symbol [_dl_find_dso_for_object] of the dynamic linker. *)
Context (dl_find_dso_for_object : option (Z → option nat)).

Definition GLIBC_dl_find_dso_for_object (addr : Z) : option nat :=
  match dl_find_dso_for_object with
  | Some f => f addr
  | None => None
  end.

(** A null pointer is the result 0. *)
Definition GLIBC_do_sym (heap : objects) (who : Z) : option (Z * objects) :=
  match GLIBC_dl_find_dso_for_object who with
  | None => Some (0, heap)
  | Some match_ =>
      l ← loader_loop (size heap) heap match_;
      main ← heap !! l;
      '(r, heap) ← GLIBC_dl_lookup_symbol heap None (l_local_scope main) (Some match_);
      match r with
      | None => Some (0, heap)
      | Some (m, symidx) =>
          map ← heap !! m;
          sym ← at_index (l_symtab map) symidx;
          Some (u64 (l_addr map + st_value sym), heap)
      end
  end.

End lookup.
(** ** Hash functions and their definitions *)

(** The hash function of the System V ABI, on a 32-bit word. *)
Definition abi_hash_step (h c : Z) : Z :=
  let h := u32 (u32 (Z.shiftl h 4) + c) in
  let g := Z.land h 0xf0000000 in
  Z.land (Z.lxor h (Z.shiftr g 24)) (Z.lnot g).
Definition abi_hash (name : bytes) : Z := fold_left abi_hash_step name 0.

(** The hash function of the GNU tables, on a 32-bit word. *)
Definition gnu_hash (s : bytes) : Z := fold_left (λ h c, u32 (h * 33 + c)) s 5381.

Lemma wrap_wrap w1 w2 z : 0 ≤ w1 ≤ w2 → wrap w1 (wrap w2 z) = wrap w1 z.
Proof.
  intros. apply Z.mod_mod_divide. exists (2 ^ (w2 - w1)).
  rewrite <- Z.pow_add_r by lia. f_equal. lia.
Qed.

(** The low bits of one turn. *)
Lemma elf_hash_step_low h c :
  Z.land (elf_hash_step h c) 0x0fffffff = abi_hash_step (Z.land h 0x0fffffff) c.
Proof.
  unfold elf_hash_step, abi_hash_step.
  set (X := u64 (u64 (Z.shiftl h 4) + c)).
  assert (u32 (u32 (Z.shiftl (Z.land h 0x0fffffff) 4) + c) = u32 X) as ->.
  { subst X. rewrite (wrap_wrap 32 64) by lia. unfold wrap.
    change 0x0fffffff with (Z.ones 28). rewrite Z.land_ones, !Z.shiftl_mul_pow2 by lia.
    rewrite <- (Zplus_mod_idemp_l ((h * 2 ^ 4) mod 2 ^ 64)).
    rewrite Z.mod_mod_divide by (by exists (2 ^ 32)).
    rewrite <- (Z.mul_mod_distr_r h (2 ^ 28) (2 ^ 4)) by lia.
    by rewrite Z.mod_mod by lia. }
  change 0x0fffffff with (Z.ones 28). change 0xf0000000 with (Z.shiftl (Z.ones 4) 28).
  apply Z.bits_inj'. intros n Hn.
  repeat rewrite ?Z.land_spec, ?Z.lxor_spec, ?Z.lnot_spec, ?Z.shiftr_spec, ?Z.shiftl_spec by lia.
  rewrite !Z.testbit_ones by lia. unfold wrap.
  destruct (Z_lt_dec n 28).
  - rewrite !(Z.mod_pow2_bits_low _ 32 n) by lia.
    destruct (Z_lt_dec (n + 24) 32).
    + rewrite (Z.mod_pow2_bits_low _ 32 (n + 24)) by lia.
      replace (0 <=? n - 28) with false by lia. replace (n <? 28) with true by lia.
      replace (0 <=? n) with true by lia. simpl. rewrite !andb_false_r. simpl.
      by rewrite !andb_true_r.
    + replace (n + 24 - 28 <? 4) with false by lia. replace (0 <=? n - 28) with false by lia.
      replace (n <? 28) with true by lia. replace (0 <=? n) with true by lia.
      simpl. rewrite !andb_false_r. simpl. by rewrite !andb_true_r.
  - replace (n <? 28) with false by lia. replace (n + 24 - 28 <? 4) with false by lia.
    rewrite !andb_false_r, !xorb_false_r. destruct (Z_lt_dec n 32).
    + replace (0 <=? n - 28) with true by lia. replace (n - 28 <? 4) with true by lia.
      simpl. by destruct (Z.testbit (X mod 2 ^ 32) n).
    + by rewrite (Z.mod_pow2_bits_high _ 32 n) by lia.
Qed.

Lemma elf_hash_is_abi name : GLIBC_dl_elf_hash name = abi_hash name.
Proof.
  unfold GLIBC_dl_elf_hash, abi_hash. change 0 with (Z.land 0 0x0fffffff) at 2.
  generalize 0. induction name as [|c name IH]; intros h; simpl; [done|].
  by rewrite IH, elf_hash_step_low.
Qed.

Lemma new_hash_is_gnu s : GLIBC_dl_new_hash s = gnu_hash s.
Proof.
  unfold GLIBC_dl_new_hash, gnu_hash. change 0xffffffff with (Z.ones 32).
  rewrite Z.land_ones by lia. change 5381 with (5381 mod 2 ^ 32) at 2.
  generalize 5381. induction s as [|c s IH]; intros h; simpl; [done|].
  rewrite IH. f_equal. change ((u64 (h * 33 + c)) mod 2 ^ 32) with (u32 (u64 (h * 33 + c))).
  rewrite wrap_wrap by lia. unfold wrap. rewrite (Z.add_mod (h mod 2 ^ 32 * 33)) by lia.
  rewrite Zmult_mod_idemp_l. by rewrite <- Z.add_mod by lia.
Qed.

Lemma new_hash_range s : in_u 32 (GLIBC_dl_new_hash s).
Proof.
  unfold GLIBC_dl_new_hash. change 0xffffffff with (Z.ones 32). rewrite Z.land_ones by lia.
  by apply Z.mod_pos_bound.
Qed.

Lemma elf_hash_range s : in_u 28 (GLIBC_dl_elf_hash s).
Proof.
  unfold GLIBC_dl_elf_hash. change 0x0fffffff with (Z.ones 28). rewrite Z.land_ones by lia.
  by apply Z.mod_pos_bound.
Qed.

(** ** Well-formed hash tables *)

Definition name_of (map : GLIBC_link_map) (sym : Sym) : bytes := cstr (l_strtab map) (st_name sym).

(** The symbols a table covers. *)
Definition hashed (map : GLIBC_link_map) (i : Z) : Prop :=
  match l_gnu_bitmask map with
  | Some _ => is_Some (l_gnu_chain_zero map !! i)
  | None => 0 < i < Z.of_nat (length (l_chain map))
  end.

(** The table covers definitions for other objects, not local symbols. *)
Definition symbols_ok (map : GLIBC_link_map) : Prop :=
  ∀ i, hashed map i → ∃ sym, at_index (l_symtab map) i = Some sym ∧
    (ST_BIND (st_info sym) = STB_WEAK ∨ ST_BIND (st_info sym) = STB_GLOBAL).

(** The bucket [b] with the first index [s]: no symbol, or those of the range
    from [s] to [e], where only the hash value of [e] has its low bit set. *)
Definition gnu_bucket_ok (map : GLIBC_link_map) (b s : Z) : Prop :=
  (s = 0 ∧ ∀ i sym, hashed map i → at_index (l_symtab map) i = Some sym →
     gnu_hash (name_of map sym) `mod` l_nbuckets map ≠ b) ∨
  (s ≠ 0 ∧ ∃ e, s ≤ e ∧
     (∀ i, s ≤ i ≤ e → ∃ w, l_gnu_chain_zero map !! i = Some w ∧ (Z.land w 1 = 0 ↔ i ≠ e)) ∧
     (∀ i sym, hashed map i → at_index (l_symtab map) i = Some sym →
        gnu_hash (name_of map sym) `mod` l_nbuckets map = b → s ≤ i ≤ e)).

Record gnu_ok (map : GLIBC_link_map) (bitmask : list Z) : Prop := {
  gnu_mask : ∃ k, 0 ≤ k ∧ l_gnu_bitmask_idxbits map = 2 ^ k - 1 ∧
    Z.of_nat (length bitmask) = 2 ^ k;
  gnu_shift : 0 ≤ l_gnu_shift map;
  gnu_values : ∀ i w sym, l_gnu_chain_zero map !! i = Some w →
    at_index (l_symtab map) i = Some sym →
    Z.shiftr w 1 = Z.shiftr (gnu_hash (name_of map sym)) 1;
  gnu_bloom : ∀ i sym word, hashed map i → at_index (l_symtab map) i = Some sym →
    let h := gnu_hash (name_of map sym) in
    at_index bitmask (Z.land (h / ELF_CLASS) (l_gnu_bitmask_idxbits map)) = Some word →
    Z.testbit word (Z.land h 63) = true ∧
    Z.testbit word (Z.land (Z.shiftr h (l_gnu_shift map)) 63) = true;
  gnu_bucket : ∀ b, 0 ≤ b < l_nbuckets map →
    ∃ s, at_index (l_gnu_buckets map) b = Some s ∧ gnu_bucket_ok map b s;
}.

(** The chain that starts with the index [s]. *)
Fixpoint chain_path (map : GLIBC_link_map) (s : Z) (path : list Z) : Prop :=
  match path with
  | [] => s = STN_UNDEF
  | i :: path =>
      s = i ∧ hashed map i ∧ ∃ n, at_index (l_chain map) i = Some n ∧ chain_path map n path
  end.

Record chain_ok (map : GLIBC_link_map) : Prop := {
  chain_bucket : ∀ b, 0 ≤ b < l_nbuckets map →
    ∃ s path, at_index (l_buckets map) b = Some s ∧ chain_path map s path ∧ NoDup path ∧
      ∀ i sym, hashed map i → at_index (l_symtab map) i = Some sym →
        abi_hash (name_of map sym) `mod` l_nbuckets map = b → i ∈ path;
}.

Definition table_ok (map : GLIBC_link_map) : Prop :=
  0 < l_nbuckets map ∧ symbols_ok map ∧
  match l_gnu_bitmask map with
  | Some bitmask => gnu_ok map bitmask
  | None => chain_ok map
  end.

(** ** What a lookup finds *)

Section found.
Context (undef_name : bytes).

Definition is_definition (map : GLIBC_link_map) (sym : Sym) : Prop :=
  ST_TYPE (st_info sym) = STT_FUNC ∧ st_value sym ≠ 0 ∧ name_of map sym = undef_name.

#[export] Instance is_definition_dec map sym : Decision (is_definition map sym).
Proof. unfold is_definition; apply _. Defined.

Definition defines (map : GLIBC_link_map) (i : Z) : Prop :=
  hashed map i ∧ ∃ sym, at_index (l_symtab map) i = Some sym ∧ is_definition map sym.

(** The answer of one table. *)
Definition finds (map : GLIBC_link_map) (r : option Z) : Prop :=
  match r with
  | Some i => defines map i
  | None => ∀ i, ¬ defines map i
  end.

Lemma type_test info :
  (Z.land (Z.shiftl 1 (ST_TYPE info)) (Z.shiftl 1 STT_FUNC) =? 0) = negb (ST_TYPE info =? STT_FUNC).
Proof.
  assert (ST_TYPE info ∈ seqZ 0 16) as Hin.
  { apply elem_of_seqZ. unfold ST_TYPE. change 0xf with (Z.ones 4). rewrite Z.land_ones by lia.
    apply Z.mod_pos_bound. lia. }
  revert Hin. generalize (ST_TYPE info). apply Forall_forall. by_decide.
Qed.

Lemma match_at_spec m map i sym :
  at_index (l_symtab map) i = Some sym →
  match_at undef_name None m map i = Some (bool_decide (is_definition map sym)).
Proof.
  intros Hs. unfold match_at. rewrite Hs. simpl. f_equal.
  unfold GLIBC_check_match, is_definition, name_of. rewrite type_test.
  rewrite (bool_decide_true (Some (m, i) ≠ None)) by done.
  destruct (Z.eqb_spec (ST_TYPE (st_info sym)) STT_FUNC); simpl;
    [|symmetry; apply bool_decide_false; tauto].
  destruct (Z.eqb_spec (st_value sym) 0); simpl; [symmetry; apply bool_decide_false; tauto|].
  destruct (decide (cstr (l_strtab map) (st_name sym) = undef_name)) as [Hn|Hn].
  - rewrite (bool_decide_false (_ ≠ _)) by tauto. symmetry. by apply bool_decide_true.
  - rewrite (bool_decide_true (_ ≠ _)) by done. symmetry. apply bool_decide_false. tauto.
Qed.

(** A range of indices of the table is not longer than the table. *)
Lemma range_size (m : gmap Z Z) s e :
  s ≤ e → (∀ i, s ≤ i ≤ e → is_Some (m !! i)) → (Z.to_nat (e - s + 1) ≤ size m)%nat.
Proof.
  intros Hse Hm. rewrite <- (size_dom (D := gset Z)).
  rewrite <- (length_seqZ s (e - s + 1)), <- (size_list_to_set (C := gset Z)) by apply NoDup_seqZ.
  apply subseteq_size. intros i. rewrite elem_of_list_to_set, elem_of_seqZ, elem_of_dom.
  intros. apply Hm. lia.
Qed.

Section gnu.
Context (map : GLIBC_link_map) (bitmask : list Z).
Hypothesis Hmask : l_gnu_bitmask map = Some bitmask.
Hypothesis Hsyms : symbols_ok map.
Hypothesis Hgnu : gnu_ok map bitmask.

Abbreviation h := (GLIBC_dl_new_hash undef_name).

Lemma hashed_gnu i w : l_gnu_chain_zero map !! i = Some w → hashed map i.
Proof. unfold hashed. rewrite Hmask. eauto. Qed.

Lemma gnu_loop_spec fuel m s e :
  s ≤ e → (Z.to_nat (e - s + 1) ≤ fuel)%nat →
  (∀ i, s ≤ i ≤ e → ∃ w, l_gnu_chain_zero map !! i = Some w ∧ (Z.land w 1 = 0 ↔ i ≠ e)) →
  ∃ r, gnu_loop undef_name fuel h None m map s = Some r ∧
    match r with
    | Some i => defines map i
    | None => ∀ i, s ≤ i ≤ e → ¬ defines map i
    end.
Proof.
  revert s. induction fuel as [|fuel IH]; intros s Hse Hf Hr; [lia|]. simpl.
  destruct (Hr s) as (w & Hw & He); [lia|]. rewrite Hw. simpl.
  pose proof (hashed_gnu s w Hw) as Hh. destruct (Hsyms s Hh) as (sym & Hs & _).
  rewrite (match_at_spec m map s sym Hs).
  assert (¬ defines map s →
    ∃ r, (if Z.land w 1 =? 0 then gnu_loop undef_name fuel h None m map (s + 1) else Some None) = Some r ∧
    match r with Some i => defines map i | None => ∀ i, s ≤ i ≤ e → ¬ defines map i end) as Hnext.
  { intros Hn. destruct (Z.eqb_spec (Z.land w 1) 0) as [H0|H0].
    - apply He in H0. destruct (IH (s + 1)) as ([i|] & -> & Hi); [lia|lia|..].
      + intros. apply Hr. lia.
      + by exists (Some i).
      + exists None. split; [done|]. intros i Hi'. destruct (decide (i = s)) as [->|]; [done|].
        apply Hi. lia.
    - exists None. split; [done|]. intros i Hi.
      assert (s = e) by (destruct (decide (s = e)); [done|tauto]). by replace i with s by lia. }
  destruct (Z.eqb_spec (Z.shiftr (Z.lxor w h) 1) 0) as [Hx|Hx]; simpl.
  - case_bool_decide as Hd; simpl.
    + exists (Some s). split; [done|]. split; [done|eauto].
    + apply Hnext. intros [_ (sym' & Hs' & Hd')]. by simplify_eq.
  - apply Hnext. intros [_ (sym' & Hs' & (_ & _ & Hn))]. simplify_eq.
    apply Hx. rewrite Z.shiftr_lxor, (gnu_values _ _ Hgnu _ _ _ Hw Hs), new_hash_is_gnu, Hn.
    apply Z.lxor_nilpotent.
Qed.

Lemma gnu_lookup_spec m :
  0 < l_nbuckets map →
  ∃ r, gnu_lookup undef_name h None m map bitmask = Some r ∧ finds map r.
Proof.
  intros Hnb. unfold gnu_lookup. destruct (gnu_mask _ _ Hgnu) as (k & Hk & Hidx & Hlen).
  pose proof (new_hash_range undef_name) as [H0 _].
  assert (∃ word, at_index bitmask (Z.land (h / ELF_CLASS) (l_gnu_bitmask_idxbits map)) = Some word)
    as (word & Hword).
  { rewrite Hidx. replace (2 ^ k - 1) with (Z.ones k) by (rewrite Z.ones_equiv; lia).
    rewrite Z.land_ones by done. pose proof (Z.mod_pos_bound (h / ELF_CLASS) (2 ^ k)).
    assert (0 < 2 ^ k) by (by apply Z.pow_pos_nonneg). unfold at_index.
    rewrite (proj2 (Z.ltb_ge _ _)) by lia. apply lookup_lt_is_Some_2. lia. }
  rewrite Hword. simpl. change (ELF_CLASS - 1) with 63.
  destruct (Z.eqb_spec (Z.land (Z.land (Z.shiftr word (Z.land h 63))
    (Z.shiftr word (Z.land (Z.shiftr h (l_gnu_shift map)) 63))) 1) 0) as [Hb|Hb].
  { exists None. split; [done|]. intros i [Hh (sym & Hs & (_ & _ & Hn))].
    rewrite new_hash_is_gnu, <- Hn in *.
    destruct (gnu_bloom _ _ Hgnu i sym word Hh Hs Hword) as [H1 H2].
    apply (f_equal (λ z, Z.testbit z 0)) in Hb.
    rewrite !Z.land_spec, !Z.shiftr_spec, !Z.add_0_l, H1, H2 in Hb by lia. done. }
  destruct (gnu_bucket _ _ Hgnu (h mod l_nbuckets map)) as (s & -> & Hbk).
  { by apply Z.mod_pos_bound. }
  simpl. destruct Hbk as [[-> Hno]|(Hs0 & e & Hse & Hr & Hin)].
  - exists None. split; [done|]. intros i [Hh (sym & Hs & (_ & _ & Hn))].
    apply (Hno i sym Hh Hs). by rewrite Hn, new_hash_is_gnu.
  - rewrite (proj2 (Z.eqb_neq _ _)) by done.
    destruct (gnu_loop_spec (size (l_gnu_chain_zero map)) m s e) as (r & -> & Hfound); [done| |done|].
    { apply range_size; [done|]. intros i Hi. destruct (Hr i Hi) as (w & -> & _). eauto. }
    exists r. split; [done|]. destruct r as [i|]; [done|].
    intros i [Hh (sym & Hs & Hd)]. apply (Hfound i); [|by split; [|eauto]].
    apply (Hin i sym Hh Hs). destruct Hd as (_ & _ & ->). by rewrite new_hash_is_gnu.
Qed.

End gnu.

Section chain.
Context (map : GLIBC_link_map).
Hypothesis Hmask : l_gnu_bitmask map = None.
Hypothesis Hsyms : symbols_ok map.

Lemma chain_path_hashed s path i : chain_path map s path → i ∈ path → hashed map i.
Proof.
  revert s. induction path as [|j path IH]; intros s Hp Hi; [by apply not_elem_of_nil in Hi|].
  destruct Hp as (_ & Hj & n & _ & Hp). apply elem_of_cons in Hi as [->|Hi]; eauto.
Qed.

Lemma chain_loop_spec fuel m s path :
  chain_path map s path → (length path ≤ fuel)%nat →
  ∃ r, chain_loop undef_name fuel None m map s = Some r ∧
    match r with
    | Some i => defines map i
    | None => ∀ i, i ∈ path → ¬ defines map i
    end.
Proof.
  revert s path. induction fuel as [|fuel IH]; intros s path Hp Hf.
  { destruct path; simpl in *; [|lia]. rewrite Hp. exists None. split; [done|].
    intros i Hi. by apply not_elem_of_nil in Hi. }
  destruct path as [|i path].
  { simpl in *. rewrite Hp. exists None. split; [done|]. intros i Hi. by apply not_elem_of_nil in Hi. }
  destruct Hp as (-> & Hi & n & Hn & Hp). cbn [chain_loop].
  assert (i ≠ 0) by (unfold hashed in Hi; rewrite Hmask in Hi; lia).
  rewrite (proj2 (Z.eqb_neq i STN_UNDEF)) by done. destruct (Hsyms i Hi) as (sym & Hs & _).
  rewrite (match_at_spec m map i sym Hs). simpl. case_bool_decide as Hd.
  - exists (Some i). split; [done|]. split; [done|eauto].
  - rewrite Hn. simpl. destruct (IH n path) as (r & -> & Hr); [done|simpl in *; lia|].
    exists r. split; [done|]. destruct r; [done|]. intros j [->|Hj]%elem_of_cons; [|by apply Hr].
    intros [_ (sym' & Hs' & Hd')]. by simplify_eq.
Qed.

Lemma chain_length s path :
  chain_path map s path → NoDup path → (length path ≤ length (l_chain map))%nat.
Proof.
  intros Hp Hn. rewrite <- (Nat2Z.id (length (l_chain map))), <- (length_seqZ 0).
  apply submseteq_length, NoDup_submseteq; [done|]. intros i Hi.
  pose proof (chain_path_hashed _ _ _ Hp Hi) as Hh. unfold hashed in Hh. rewrite Hmask in Hh.
  apply elem_of_seqZ. lia.
Qed.

End chain.

(** The hash value for the old tables is not computed yet, or is right. *)
Definition old_hash_ok (old_hash : Z) : Prop :=
  old_hash = 0xffffffff ∨ old_hash = GLIBC_dl_elf_hash undef_name.

Lemma lookup_in_spec m map old_hash :
  table_ok map → old_hash_ok old_hash →
  ∃ r old_hash', lookup_in undef_name (GLIBC_dl_new_hash undef_name) None m map old_hash =
      Some (r, old_hash') ∧ finds map r ∧ old_hash_ok old_hash'.
Proof.
  intros (Hnb & Hsyms & Ht) Ho. unfold lookup_in.
  destruct (l_gnu_bitmask map) as [bitmask|] eqn:Hm.
  - destruct (gnu_lookup_spec map bitmask Hm Hsyms Ht m Hnb) as (r & -> & Hr). simpl. eauto.
  - set (oh := if old_hash =? 0xffffffff then _ else _).
    assert (oh = GLIBC_dl_elf_hash undef_name) as Hoh.
    { subst oh. destruct Ho as [->| ->]; [done|]. by destruct (_ =? _). }
    destruct (chain_bucket _ Ht (oh mod l_nbuckets map)) as (s & path & -> & Hp & Hn & Hin).
    { by apply Z.mod_pos_bound. }
    simpl. destruct (chain_loop_spec map Hm Hsyms (length (l_chain map)) m s path)
      as (r & -> & Hr); [done|by eapply chain_length|].
    exists r, oh. split; [done|]. split; [|by right].
    destruct r as [i|]; [done|]. intros i [Hh (sym & Hs & Hd)].
    apply (Hr i); [|by split; [|eauto]]. apply (Hin i sym Hh Hs).
    destruct Hd as (_ & _ & ->). by rewrite Hoh, elf_hash_is_abi.
Qed.

(** ** Search order *)

(** The entry [p] of a scope has a definition: the symbol [i] of the object [m]. *)
Definition provides (heap : objects) (skip : option nat) (p : nat) (r : symref) : Prop :=
  ∃ entry map, heap !! p = Some entry ∧ l_real entry = r.1 ∧ heap !! r.1 = Some map ∧
    Some r.1 ≠ skip ∧ l_removed map = false ∧ l_nbuckets map ≠ 0 ∧ defines map r.2.

(** The result of a search in the order of a list: the first definition. *)
Definition first_definition (heap : objects) (skip : option nat) (list : list nat)
    (r : option symref) : Prop :=
  match r with
  | None => Forall (λ p, ∀ d, ¬ provides heap skip p d) list
  | Some d => ∃ pre p post, list = pre ++ p :: post ∧ provides heap skip p d ∧
      Forall (λ p, ∀ d, ¬ provides heap skip p d) pre
  end.

(** Everything a search looks at is in order. *)
Definition entry_ok (heap : objects) (p : nat) : Prop :=
  ∃ entry map, heap !! p = Some entry ∧ heap !! l_real entry = Some map ∧
    (l_nbuckets map ≠ 0 → table_ok map).

Lemma first_definition_app heap skip l k r :
  first_definition heap skip l None → first_definition heap skip k r →
  first_definition heap skip (l ++ k) r.
Proof.
  intros Hl Hk. destruct r as [d|]; simpl in *.
  - destruct Hk as (pre & p & post & -> & Hp & Hpre). exists (l ++ pre), p, post.
    rewrite <- app_assoc. split_and!; [done..|]. by apply Forall_app.
  - by apply Forall_app.
Qed.

Lemma first_definition_prefix heap skip l k d :
  first_definition heap skip l (Some d) → first_definition heap skip (l ++ k) (Some d).
Proof.
  intros (pre & p & post & -> & ? & ?). exists pre, p, (post ++ k). by rewrite <- app_assoc.
Qed.

Lemma do_lookup_loop_spec heap skip list old_hash :
  Forall (entry_ok heap) list → old_hash_ok old_hash →
  ∃ r old_hash', do_lookup_loop undef_name heap (GLIBC_dl_new_hash undef_name) None skip list old_hash =
      Some (r, old_hash') ∧ first_definition heap skip list r ∧ old_hash_ok old_hash'.
Proof.
  intros Hok. revert old_hash. induction Hok as [|p list Hp Hok IH]; intros old_hash Ho; simpl.
  { exists None, old_hash. split_and!; [done|constructor|done]. }
  destruct Hp as (entry & map & He & Hm & Ht). rewrite He. simpl. rewrite Hm. simpl.
  assert (∀ oh, old_hash_ok oh → (∀ d, ¬ provides heap skip p d) →
    ∃ r oh', do_lookup_loop undef_name heap (GLIBC_dl_new_hash undef_name) None skip list oh =
      Some (r, oh') ∧ first_definition heap skip (p :: list) r ∧ old_hash_ok oh') as Hnext.
  { intros oh Hoh Hno. destruct (IH oh Hoh) as (r & oh' & -> & Hr & ?).
    exists r, oh'. split_and!; [done| |done]. apply (first_definition_app _ _ [p]); [|done].
    by constructor. }
  case_bool_decide as Hsk; simpl.
  { apply Hnext; [done|]. intros d (e' & m' & He' & Hd & _ & Hns & _). simplify_eq. congruence. }
  destruct (l_removed map) eqn:Hrem; simpl.
  { apply Hnext; [done|]. intros d (e' & m' & He' & Hd & Hm' & _ & Hr' & _). simplify_eq.
    rewrite Hd in Hm. congruence. }
  destruct (Z.eqb_spec (l_nbuckets map) 0) as [Hnb|Hnb].
  { apply Hnext; [done|]. intros d (e' & m' & He' & Hd & Hm' & _ & _ & Hnb' & _). simplify_eq.
    rewrite Hd in Hm. congruence. }
  destruct (lookup_in_spec (l_real entry) map old_hash (Ht Hnb) Ho) as (r & oh & -> & Hr & Hoh).
  simpl. destruct r as [i|].
  - destruct Hr as [Hh (sym & Hs & Hd)]. unfold binds. rewrite Hs. simpl.
    destruct (Ht Hnb) as (_ & Hsyms & _). destruct (Hsyms i Hh) as (sym' & Hs' & Hb). simplify_eq.
    assert ((ST_BIND (st_info sym) =? STB_WEAK) || (ST_BIND (st_info sym) =? STB_GLOBAL) = true) as ->
      by (destruct Hb as [-> | ->]; done).
    exists (Some (l_real entry, i)), oh. split_and!; [done| |done].
    exists [], p, list. split_and!; [done| |done]. exists entry, map. split_and!; try done.
    split; [done|eauto].
  - apply Hnext; [done|]. intros d (e' & m' & He' & Hd & Hm' & _ & _ & _ & Hdef). simplify_eq.
    rewrite Hd in Hm. simplify_eq. by apply (Hr d.2).
Qed.

Lemma scopes_loop_spec heap skip scopes old_hash :
  Forall (λ scope, scope ≠ [] ∧ Forall (entry_ok heap) scope) scopes → old_hash_ok old_hash →
  ∃ r, scopes_loop undef_name heap (GLIBC_dl_new_hash undef_name) None skip scopes 0 old_hash = Some r ∧
    first_definition heap skip (mjoin scopes) r.
Proof.
  intros Hok. revert old_hash. induction Hok as [|scope scopes [Hne Hs] Hok IH]; intros oh Hoh; simpl.
  { exists None. split; [done|constructor]. }
  unfold GLIBC_do_lookup. rewrite drop_0. destruct scope as [|p scope]; [done|].
  destruct (do_lookup_loop_spec heap skip (p :: scope) oh Hs Hoh) as (r & oh' & -> & Hr & Hoh').
  cbn [mbind option_bind]. destruct r as [d|].
  - exists (Some d). split; [done|]. apply (first_definition_prefix _ _ (p :: scope)), Hr.
  - destruct (IH oh' Hoh') as (r & -> & Hr'). exists r. split; [done|].
    by apply (first_definition_app _ _ (p :: scope)).
Qed.

(** The objects from the one to skip on, in the first scope, and those of the
    other scopes. *)
Definition search_order (s : nat) (scope : list nat) (scopes : list (list nat)) : list nat :=
  match list_find (λ p, p = s) scope with
  | Some (i, _) => drop i scope ++ mjoin scopes
  | None => []
  end.

Lemma dl_lookup_symbol_spec heap s scope scopes :
  s ∈ scope → Forall (entry_ok heap) scope →
  Forall (λ scope, scope ≠ [] ∧ Forall (entry_ok heap) scope) scopes →
  ∃ r, GLIBC_dl_lookup_symbol undef_name heap None (scope :: scopes) (Some s) =
      Some (r, match r with Some (m, _) => alter mark_used m heap | None => heap end) ∧
    first_definition heap (Some s) (search_order s scope scopes) r.
Proof.
  intros Hin Hok Hoks. unfold GLIBC_dl_lookup_symbol, skip_position, search_order. simpl.
  destruct (list_find_elem_of (λ p, p = s) scope s Hin) as [[i x] Hf]; [done|].
  rewrite Hf. simpl. unfold GLIBC_do_lookup.
  apply list_find_Some in Hf as (Hi & -> & _). rewrite (drop_S _ _ _ Hi).
  assert (Forall (entry_ok heap) (s :: drop (S i) scope)) as Hd.
  { rewrite <- (drop_S _ _ _ Hi). by apply Forall_drop. }
  destruct (do_lookup_loop_spec heap (Some s) _ 0xffffffff Hd (or_introl eq_refl))
    as (r & oh' & -> & Hr & Hoh'). cbn [mbind option_bind]. destruct r as [[m j]|].
  - exists (Some (m, j)). split; [done|]. by apply (first_definition_prefix _ _ (s :: _)).
  - destruct (scopes_loop_spec heap (Some s) scopes oh' Hoks Hoh') as (r & -> & Hr').
    exists r. split; [by destruct r as [[]|]|]. by apply (first_definition_app _ _ (s :: _)).
Qed.

End found.

Lemma mark_used_same map :
  l_addr (mark_used map) = l_addr map ∧ l_symtab (mark_used map) = l_symtab map.
Proof. unfold mark_used. by destruct (_ =? _). Qed.

(** ** Properties *)


(** The two hash functions are those the tables are built with: on 64-bit
    words and without clearing the high bits in every round, they compute the
    32-bit functions of the System V ABI and of the GNU hash tables, for
    every string. *)
Theorem hash_functions_are_standard name :
  GLIBC_dl_elf_hash name = abi_hash name ∧ GLIBC_dl_new_hash name = gnu_hash name.
Proof. split; [apply elf_hash_is_abi|apply new_hash_is_gnu]. Qed.

(** ** Examples *)

Definition demo_hash : Z := gnu_hash [102].

(** An object with one function, with the name "f" and at the offset 64. *)
Definition demo_libc : GLIBC_link_map :=
  mkLinkMap 4096 2 None false 0 [mkSym 0 0 0; mkSym 1 0x12 64] [0; 102; 0] 1
    (Some [Z.lor (2 ^ Z.land demo_hash 63) (2 ^ Z.land (Z.shiftr demo_hash 6) 63)]) 0 6 [1]
    {[1 := Z.lor demo_hash 1]} [] [] [].

Definition demo_object (id : nat) (scope : list (list nat)) : GLIBC_link_map :=
  mkLinkMap 0 id None false 1 [] [] 0 None 0 0 [] ∅ [] [] scope.

(** A program, the tracing library and the C library. *)
Definition demo_heap : objects :=
  {[0%nat := demo_object 0 [[0%nat; 1%nat; 2%nat]]; 1%nat := demo_object 1 [[0%nat; 1%nat; 2%nat]];
    2%nat := demo_libc]}.

Lemma demo_hashed i : hashed demo_libc i → i = 1.
Proof. intros [w Hw]. cbn [demo_libc l_gnu_chain_zero] in Hw. by apply lookup_singleton_Some in Hw as [<- _]. Qed.

Lemma demo_table_ok : table_ok demo_libc.
Proof.
  split; [done|]. split.
  { intros i ->%demo_hashed. eexists. split; [vm_compute; reflexivity|]. by right. }
  split.
  - by exists 0.
  - done.
  - intros i w sym Hw. cbn [demo_libc l_gnu_chain_zero] in Hw.
    apply lookup_singleton_Some in Hw as [<- <-]. cbn. intros [= <-]. by vm_compute.
  - intros i sym word ->%demo_hashed Hs. injection Hs as <-. intros h Hw. subst h.
    vm_compute in Hw. injection Hw as <-. by vm_compute.
  - intros b Hb. simpl in Hb. exists 1. assert (b = 0) as -> by lia. split; [done|].
    right. split; [done|]. exists 1. split; [done|]. split.
    + intros i Hi. assert (i = 1) as -> by lia. eexists. split; [done|]. by vm_compute.
    + by intros i sym ->%demo_hashed.
Qed.

Lemma demo_entries_ok : Forall (entry_ok demo_heap) [0%nat; 1%nat; 2%nat].
Proof.
  repeat constructor; eexists _, _; (split; [reflexivity|]); (split; [reflexivity|]);
    simpl; try done. intros _. apply demo_table_ok.
Qed.


End Glibc.
