(* ===== verification/ElfInjection.v ===== *)
(** * Patching of relocation tables

    src/memhook/elf_injection.cpp: for every object of the process, the slots
    of its procedure linkage table whose symbol is a function of memhook are
    made to point to that function.

    The tables of an object are read through an image of the process: a
    partial function of addresses for each kind of entry.  The slots are words
    of a memory with page protections.  A read at an address without an
    entry, or a write to a page that is not writable, has no result. *)
From Stdlib Require Import String.
From S2P Require Import Prelude.

Module ElfInjection.

(** ** Data *)

Definition PT_DYNAMIC : Z := 2.
Definition DT_NULL : Z := 0.
Definition DT_PLTRELSZ : Z := 2.
Definition DT_STRTAB : Z := 5.
Definition DT_SYMTAB : Z := 6.
Definition DT_STRSZ : Z := 10.
Definition DT_SYMENT : Z := 11.
Definition DT_JMPREL : Z := 23.

Record Phdr := mkPhdr { p_type : Z; p_vaddr : Z }.
Record Dyn := mkDyn { d_tag : Z; d_un : Z }.
Record Rela := mkRela { r_offset : Z; r_info : Z }.

Definition sizeof_Sym : Z := 24.
Definition sizeof_Rela : Z := 24.

Record dl_phdr_info := mkInfo {
  dlpi_addr : Z;
  dlpi_name : option string;
  dlpi_phdr : list Phdr;
}.

(** The read-only tables of the process. *)
Record image := mkImage {
  dyn_at : Z → list Dyn;                   (** the entries of a dynamic section *)
  rela_at : Z → option Rela;
  st_name_at : Z → option Z;               (** the member [st_name] of a symbol *)
  string_at : Z → option string;
}.

(** The words of the memory, and the pages that are writable. *)
Record memory := mkMemory { words : gmap Z Z; writable : gset Z }.

Definition wrapped_names : list string := (
  ["free"; "malloc"; "calloc"; "realloc"; "memalign"; "posix_memalign"; "cfree"; "aligned_alloc";
   "valloc"; "pvalloc"; "mmap"; "mmap64"; "mremap"; "munmap"; "dlopen"; "dlmopen"; "dlclose";
   "dlsym"; "dlvsym"; "dl_iterate_phdr"; "getaddrinfo"; "getnameinfo"; "gethostbyname";
   "gethostbyaddr"; "gethostbyname2"; "gethostent_r"; "gethostbyaddr_r"; "gethostbyname_r";
   "gethostbyname2_r"; "getpwent_r"; "getpwuid_r"; "getpwnam_r"])%string.

Section injection.
(** the address of memhook's function of a name, the size of a page, the name
    of the library's file *)
Context (func : string → Z) (page_size : Z) (MEMHOOK_TARGET_FILE_NAME : string).
Context (im : image).

Definition s_wrapped_functions : list (string * Z) := (λ n, (n, func n)) <$> wrapped_names.

Definition strstr (haystack needle : string) : bool :=
  match String.index 0 needle haystack with Some _ => true | None => false end.

(** The page of an address, [addr & ~(page_size - 1)]. *)
Definition page_of (addr : Z) : Z := Z.land addr (Z.lnot (page_size - 1)).

(** [mprotect (page, page_size, PROT_READ | PROT_WRITE)] *)
Definition mprotect (page : Z) (m : memory) : memory :=
  mkMemory (words m) ({[page]} ∪ writable m).

Definition store (addr v : Z) (m : memory) : option memory :=
  if decide (page_of addr ∈ writable m) then
    match words m !! addr with
    | Some _ => Some (mkMemory (<[addr := v]> (words m)) (writable m))
    | None => None
    end
  else None.

(** ** The tables of an object *)

Record tables := mkTables { str_table : Z; sym_table : Z; rel_table : Z; rel_table_size : Z }.

(** The loop over the dynamic section, up to the entry [DT_NULL]. *)
Fixpoint scan_dyn (d : list Dyn) (t : tables) : option tables :=
  match d with
  | [] => None
  | mkDyn tag v :: d =>
      if tag =? DT_NULL then Some t
      else scan_dyn d
        (if tag =? DT_STRTAB then mkTables v (sym_table t) (rel_table t) (rel_table_size t)
         else if tag =? DT_JMPREL then mkTables (str_table t) (sym_table t) v (rel_table_size t)
         else if tag =? DT_SYMTAB then mkTables (str_table t) v (rel_table t) (rel_table_size t)
         else if tag =? DT_PLTRELSZ then mkTables (str_table t) (sym_table t) (rel_table t) v
         else t)
  end.

(** [ELF64_R_SYM], converted to [ElfW(Word)] *)
Definition sym_index (rel : Rela) : Z := u32 (Z.shiftr (r_info rel) 32).

Definition sym_name (t : tables) (rel : Rela) : option string :=
  match st_name_at im (sym_table t + sizeof_Sym * sym_index rel) with
  | Some n => string_at im (str_table t + n)
  | None => None
  end.

Definition psym (base : Z) (rel : Rela) : Z := u64 (r_offset rel + base).

(** ** Patching *)

(** The loop over the table of functions. *)
Fixpoint patch (fs : list (string * Z)) (name : string) (slot : Z) (m : memory) : option memory :=
  match fs with
  | [] => Some m
  | (n, f) :: fs =>
      if decide (n = name) then
        match words m !! slot with
        | Some v => if v =? f then Some m else store slot f (mprotect (page_of slot) m)
        | None => None
        end
      else patch fs name slot m
  end.

(** The loop over the relocation table: [n] entries from the address [rel] on. *)
Fixpoint rel_loop (n : nat) (t : tables) (base rel : Z) (m : memory) : option memory :=
  match n with
  | O => Some m
  | S n =>
      match rela_at im rel with
      | Some r =>
          match sym_name t r with
          | Some name =>
              match patch s_wrapped_functions name (psym base r) m with
              | Some m => rel_loop n t base (rel + sizeof_Rela) m
              | None => None
              end
          | None => None
          end
      | None => None
      end
  end.

(** How often [rel < rel_table_end] holds. *)
Definition rel_count (t : tables) : nat :=
  Z.to_nat ((rel_table_size t + sizeof_Rela - 1) / sizeof_Rela).

Definition inject_tables (base : Z) (t : tables) (m : memory) : option memory :=
  rel_loop (rel_count t) t base (rel_table t) m.

Fixpoint phdr_loop (base : Z) (phdrs : list Phdr) (m : memory) : option memory :=
  match phdrs with
  | [] => Some m
  | ph :: phdrs =>
      if p_type ph =? PT_DYNAMIC then
        match scan_dyn (dyn_at im (u64 (p_vaddr ph + base))) (mkTables 0 0 0 0) with
        | Some t =>
            match inject_tables base t m with
            | Some m => phdr_loop base phdrs m
            | None => None
            end
        | None => None
        end
      else phdr_loop base phdrs m
  end.

(** The library itself and the dynamic linker are left alone. *)
Definition skipped (info : dl_phdr_info) : bool :=
  match dlpi_name info with
  | Some name => strstr name MEMHOOK_TARGET_FILE_NAME || strstr name "/ld-linux"
  | None => false
  end.

Definition dl_iterate_phdr_elfinjection (info : dl_phdr_info) (m : memory) : option memory :=
  if skipped info then Some m else phdr_loop (dlpi_addr info) (dlpi_phdr info) m.

(** [dl_iterate_phdr] calls its argument for each object. *)
Fixpoint ElfInject (objects : list dl_phdr_info) (m : memory) : option memory :=
  match objects with
  | [] => Some m
  | info :: objects =>
      match dl_iterate_phdr_elfinjection info m with
      | Some m => ElfInject objects m
      | None => None
      end
  end.

(** ** Relocations

    What the tables say: the relocation of a symbol at a slot. *)

Definition rel_in (n : nat) (t : tables) (base rel : Z) (name : string) (slot : Z) : Prop :=
  ∃ i r, (i < n)%nat ∧ rela_at im (rel + sizeof_Rela * Z.of_nat i) = Some r ∧
    sym_name t r = Some name ∧ slot = psym base r.

Definition phdr_in (phdrs : list Phdr) (base : Z) (name : string) (slot : Z) : Prop :=
  ∃ ph t, ph ∈ phdrs ∧ p_type ph = PT_DYNAMIC ∧
    scan_dyn (dyn_at im (u64 (p_vaddr ph + base))) (mkTables 0 0 0 0) = Some t ∧
    rel_in (rel_count t) t base (rel_table t) name slot.

Definition reloc (objects : list dl_phdr_info) (name : string) (slot : Z) : Prop :=
  ∃ info, info ∈ objects ∧ skipped info = false ∧
    phdr_in (dlpi_phdr info) (dlpi_addr info) name slot.

(** The tables can be read, and the slots are in memory. *)
Definition rel_ok (mapped : Z → Prop) (n : nat) (t : tables) (base rel : Z) : Prop :=
  ∀ i, (i < n)%nat → ∃ r name, rela_at im (rel + sizeof_Rela * Z.of_nat i) = Some r ∧
    sym_name t r = Some name ∧ mapped (psym base r).

Definition phdr_ok (mapped : Z → Prop) (phdrs : list Phdr) (base : Z) : Prop :=
  ∀ ph, ph ∈ phdrs → p_type ph = PT_DYNAMIC →
    ∃ t, scan_dyn (dyn_at im (u64 (p_vaddr ph + base))) (mkTables 0 0 0 0) = Some t ∧
      rel_ok mapped (rel_count t) t base (rel_table t).

Definition objects_ok (mapped : Z → Prop) (objects : list dl_phdr_info) : Prop :=
  ∀ info, info ∈ objects → skipped info = false →
    phdr_ok mapped (dlpi_phdr info) (dlpi_addr info).

(** No slot is relocated for two different functions. *)
Definition consistent (R : string → Z → Prop) : Prop :=
  ∀ n1 n2 slot, R n1 slot → R n2 slot → n1 ∈ wrapped_names → n2 ∈ wrapped_names → n1 = n2.

(** The slots of [R] are patched and nothing else has changed. *)
Record patched (R : string → Z → Prop) (m m' : memory) : Prop := {
  pt_slots n slot : R n slot → n ∈ wrapped_names → words m' !! slot = Some (func n);
  pt_frame a : (∀ n, R n a → n ∉ wrapped_names) → words m' !! a = words m !! a;
  pt_dom a : is_Some (words m' !! a) ↔ is_Some (words m !! a);
}.

Abbreviation is_mapped m := (λ a, is_Some (words m !! a)).

(** ** Lemmas *)

Lemma patched_id (R : string → Z → Prop) m : (∀ n slot, R n slot → n ∈ wrapped_names →
  words m !! slot = Some (func n)) → patched R m m.
Proof. by split. Qed.

Lemma patched_seq (R1 R2 R : string → Z → Prop) m m1 m2 :
  consistent R → (∀ n a, R n a ↔ R1 n a ∨ R2 n a) →
  patched R1 m m1 → patched R2 m1 m2 → patched R m m2.
Proof.
  intros Hc HR [Hs1 Hf1 Hd1] [Hs2 Hf2 Hd2]. split.
  - intros n slot Hn Hw. apply HR in Hn as Hn'. destruct Hn' as [H1|H2]; [|by apply Hs2].
    destruct (decide (words m2 !! slot = words m1 !! slot)) as [->|Hne]; [by apply Hs1|].
    assert (¬ ∀ n', R2 n' slot → n' ∉ wrapped_names) as Hex by (intros H'; by apply Hne, Hf2).
    destruct (decide (words m2 !! slot = Some (func n))) as [|Hno]; [done|].
    exfalso. apply Hex. intros n' Hn' Hw'. apply Hno.
    assert (n' = n) as -> by (apply (Hc n' n slot); [apply HR; by right|done..]). by apply Hs2.
  - intros a Ha. rewrite Hf2, Hf1; [done|intros n' Hn'..]; apply Ha, HR; auto.
  - intros a. by rewrite Hd2.
Qed.

Lemma consistent_sub (R R' : string → Z → Prop) :
  (∀ n a, R n a → R' n a) → consistent R' → consistent R.
Proof. intros Hs Hc n1 n2 a H1 H2. by eapply Hc; apply Hs. Qed.

Lemma patch_skip fs name slot m : name ∉ fs.*1 → patch fs name slot m = Some m.
Proof.
  induction fs as [|[n f] fs IH]; [done|]. csimpl. intros [? ?]%not_elem_of_cons.
  rewrite decide_False by done. by apply IH.
Qed.

Lemma wrapped_fst : s_wrapped_functions.*1 = wrapped_names.
Proof. unfold s_wrapped_functions. rewrite <- list_fmap_compose. apply list_fmap_id. Qed.

(** The inner loop for a function of the table. *)
Lemma patch_hit fs name slot m v :
  Forall (λ e, e.2 = func e.1) fs → name ∈ fs.*1 → words m !! slot = Some v →
  patch fs name slot m =
    Some (if v =? func name then m
          else mkMemory (<[slot := func name]> (words m)) ({[page_of slot]} ∪ writable m)).
Proof.
  intros Hf Hn Hv. induction Hf as [|[n f] fs Hnf Hf IH]; simpl in *; [by apply not_elem_of_nil in Hn|].
  destruct (decide (n = name)) as [->|Hne].
  - rewrite Hv, Hnf. destruct (v =? func name) eqn:Hvf; [done|].
    unfold store. rewrite decide_True by (simpl; set_solver). simpl. by rewrite Hv.
  - apply IH. set_solver.
Qed.

Lemma patch_spec name slot m :
  is_mapped m slot →
  ∃ m', patch s_wrapped_functions name slot m = Some m' ∧
    patched (λ n a, n = name ∧ a = slot) m m'.
Proof.
  intros [v Hv]. destruct (decide (name ∈ wrapped_names)) as [Hw|Hw].
  - eexists. split.
    { apply patch_hit; [|by rewrite wrapped_fst|done]. unfold s_wrapped_functions.
      apply Forall_fmap, Forall_true. by intros. }
    destruct (v =? func name) eqn:Hvf; zify_bool.
    { subst v. apply patched_id. by intros n a [-> ->]. }
    split; simpl.
    + intros n a [-> ->] _. apply lookup_insert_eq.
    + intros a Ha. rewrite lookup_insert_ne; [done|]. intros <-. by apply (Ha name).
    + intros a. rewrite lookup_insert. case_decide; [subst|done]. by rewrite Hv.
  - exists m. split; [apply patch_skip; by rewrite wrapped_fst|].
    apply patched_id. by intros n a [-> ->].
Qed.

Lemma rel_in_S n t base rel name slot :
  rel_in (S n) t base rel name slot ↔
  (∃ r, rela_at im rel = Some r ∧ sym_name t r = Some name ∧ slot = psym base r) ∨
  rel_in n t base (rel + sizeof_Rela) name slot.
Proof.
  unfold rel_in. split.
  - intros ([|i] & r & Hi & Hr & Hn & ->).
    + left. exists r. rewrite Z.mul_0_r, Z.add_0_r in Hr. done.
    + right. exists i, r. split_and!; [lia| |done..]. rewrite <- Hr. f_equal. lia.
  - intros [(r & Hr & Hn & ->)|(i & r & Hi & Hr & Hn & ->)].
    + exists 0%nat, r. split_and!; [lia| |done..]. by rewrite Z.mul_0_r, Z.add_0_r.
    + exists (S i), r. split_and!; [lia| |done..]. rewrite <- Hr. f_equal. lia.
Qed.

Lemma rel_loop_spec n t base rel m :
  rel_ok (is_mapped m) n t base rel → consistent (rel_in n t base rel) →
  ∃ m', rel_loop n t base rel m = Some m' ∧ patched (rel_in n t base rel) m m'.
Proof.
  revert rel m; induction n as [|n IH]; intros rel m Hok Hc; cbn [rel_loop].
  { exists m. split; [done|]. apply patched_id. intros ? ? (i & ? & ? & _). lia. }
  destruct (Hok 0%nat) as (r & name & Hr & Hname & Hmap); [lia|].
  rewrite Z.mul_0_r, Z.add_0_r in Hr. rewrite Hr, Hname.
  destruct (patch_spec name (psym base r) m Hmap) as (m1 & -> & H1).
  destruct (IH (rel + sizeof_Rela) m1) as (m2 & -> & H2).
  - intros i Hi. destruct (Hok (S i)) as (r' & name' & Hr' & Hn' & Hm'); [lia|].
    exists r', name'. split_and!; [rewrite <- Hr'; f_equal; lia|done|]. by apply (pt_dom _ _ _ H1).
  - eapply consistent_sub, Hc. intros. apply rel_in_S. by right.
  - exists m2. split; [done|]. eapply patched_seq; [done| |exact H1|exact H2]. intros n' a.
    rewrite rel_in_S. split; intros [Hh|Hh]; [left|by right|left|by right].
    + destruct Hh as (r' & Hr' & Hn' & ->). simplify_eq. done.
    + destruct Hh as [-> ->]. by exists r.
Qed.

Lemma rel_ok_mono (P Q : Z → Prop) n t base rel :
  (∀ a, P a → Q a) → rel_ok P n t base rel → rel_ok Q n t base rel.
Proof. intros Hpq Hok i Hi. destruct (Hok i Hi) as (r & name & ? & ? & ?). exists r, name. auto. Qed.

Lemma phdr_loop_spec base phdrs m :
  phdr_ok (is_mapped m) phdrs base → consistent (phdr_in phdrs base) →
  ∃ m', phdr_loop base phdrs m = Some m' ∧ patched (phdr_in phdrs base) m m'.
Proof.
  revert m; induction phdrs as [|ph phdrs IH]; intros m Hok Hc; simpl.
  { exists m. split; [done|]. apply patched_id. intros ? ? (ph & ? & Hph & _).
    by apply not_elem_of_nil in Hph. }
  assert (consistent (phdr_in phdrs base)) as Hc'.
  { eapply consistent_sub, Hc. intros ? ? (ph' & t & ? & ?). exists ph', t. set_solver. }
  destruct (p_type ph =? PT_DYNAMIC) eqn:Hp; zify_bool.
  - destruct (Hok ph) as (t & Ht & Hrel); [by left|done|]. rewrite Ht. unfold inject_tables.
    assert (∀ n a, rel_in (rel_count t) t base (rel_table t) n a → phdr_in (ph :: phdrs) base n a)
      as Hsub. { intros n a Hn. exists ph, t. split_and!; [by left|done..]. }
    destruct (rel_loop_spec (rel_count t) t base (rel_table t) m) as (m1 & -> & H1);
      [done|by eapply consistent_sub|].
    destruct (IH m1) as (m2 & -> & H2); [|done|].
    { intros ph' Hph' Hd. destruct (Hok ph') as (t' & Ht' & Hrel'); [by right|done|]. exists t'.
      split; [done|]. eapply rel_ok_mono, Hrel'. intros a. apply (pt_dom _ _ _ H1). }
    exists m2. split; [done|]. eapply patched_seq; [done| |exact H1|exact H2]. intros n a. split.
    + intros (ph' & t' & [->|Hph']%elem_of_cons & ? & Ht' & ?); [left; by simplify_eq|right].
      by exists ph', t'.
    + intros [Hn|(ph' & t' & ? & ?)]; [by apply Hsub|]. exists ph', t'. set_solver.
  - destruct (IH m) as (m' & -> & H1); [|done|].
    { intros ph' Hph'. apply Hok. by right. }
    exists m'. split; [done|]. eapply (patched_seq (λ _ _, False)); [done| |by apply patched_id|exact H1].
    intros n a. split; [|intros [[]|(ph' & t' & ? & ?)]; exists ph', t'; set_solver].
    intros (ph' & t' & [->|Hph']%elem_of_cons & ? & Ht' & ?); [done|right]. by exists ph', t'.
Qed.

Lemma ElfInject_spec objects m :
  objects_ok (is_mapped m) objects → consistent (reloc objects) →
  ∃ m', ElfInject objects m = Some m' ∧ patched (reloc objects) m m'.
Proof.
  revert m; induction objects as [|info objects IH]; intros m Hok Hc; simpl.
  { exists m. split; [done|]. apply patched_id. intros ? ? (info & Hi & _).
    by apply not_elem_of_nil in Hi. }
  assert (∀ n a, reloc objects n a → reloc (info :: objects) n a) as Hsub.
  { intros ? ? (info' & ? & ? & ?). exists info'. split_and!; [by right|done..]. }
  set (R1 n a := skipped info = false ∧ phdr_in (dlpi_phdr info) (dlpi_addr info) n a).
  assert (∀ n a, reloc (info :: objects) n a ↔ R1 n a ∨ reloc objects n a) as Hsplit.
  { intros n a. split; [|intros [[? ?]|?]; [exists info; split_and!; [by left|done..]|by apply Hsub]].
    intros (info' & [->|Hi]%elem_of_cons & ? & ?); [by left|right]. by exists info'. }
  assert (∃ m1, dl_iterate_phdr_elfinjection info m = Some m1 ∧ patched R1 m m1) as (m1 & -> & H1).
  { unfold dl_iterate_phdr_elfinjection. destruct (skipped info) eqn:Hs.
    - exists m. split; [done|]. apply patched_id. intros ? ? [? _]. congruence.
    - destruct (phdr_loop_spec (dlpi_addr info) (dlpi_phdr info) m) as (m1 & -> & H1).
      + apply Hok; [by left|done].
      + eapply consistent_sub, Hc. intros n a Hn. apply Hsplit. left. by split.
      + exists m1. split; [done|]. destruct H1. split; [|intros a Ha; apply pt_frame0|done].
        * intros n slot [_ ?]. by apply pt_slots0.
        * intros n Hn. apply Ha. by split. }
  destruct (IH m1) as (m2 & -> & H2); [|by eapply consistent_sub|].
  - intros info' Hi Hs ph Hph Hd. destruct (Hok info') with ph as (t & Ht & Hr); [by right|done..|].
    exists t. split; [done|]. eapply rel_ok_mono, Hr. intros a. apply (pt_dom _ _ _ H1).
  - exists m2. split; [done|]. by eapply patched_seq.
Qed.

(** ** A process that is patched already *)

Lemma rel_loop_done n t base rel m :
  rel_ok (is_mapped m) n t base rel →
  (∀ name slot, rel_in n t base rel name slot → name ∈ wrapped_names →
     words m !! slot = Some (func name)) →
  rel_loop n t base rel m = Some m.
Proof.
  revert rel; induction n as [|n IH]; intros rel Hok Hd; cbn [rel_loop]; [done|].
  destruct (Hok 0%nat) as (r & name & Hr & Hname & Hmap); [lia|].
  rewrite Z.mul_0_r, Z.add_0_r in Hr. rewrite Hr, Hname.
  assert (patch s_wrapped_functions name (psym base r) m = Some m) as ->.
  { destruct (decide (name ∈ wrapped_names)) as [Hw|Hw]; [|apply patch_skip; by rewrite wrapped_fst].
    rewrite (patch_hit _ _ _ _ (func name)); [by rewrite Z.eqb_refl|..|].
    - apply Forall_fmap, Forall_true. by intros.
    - by rewrite wrapped_fst.
    - apply Hd; [|done]. apply rel_in_S. left. by exists r. }
  apply IH.
  - intros i Hi. destruct (Hok (S i)) as (r' & name' & Hr' & ? & ?); [lia|]. exists r', name'.
    split_and!; [rewrite <- Hr'; f_equal; lia|done..].
  - intros. apply Hd; [|done]. apply rel_in_S. by right.
Qed.

Lemma ElfInject_done objects m :
  objects_ok (is_mapped m) objects →
  (∀ name slot, reloc objects name slot → name ∈ wrapped_names → words m !! slot = Some (func name)) →
  ElfInject objects m = Some m.
Proof.
  induction objects as [|info objects IH]; intros Hok Hd; simpl; [done|].
  assert (dl_iterate_phdr_elfinjection info m = Some m) as ->.
  { unfold dl_iterate_phdr_elfinjection. destruct (skipped info) eqn:Hs; [done|].
    assert (phdr_ok (is_mapped m) (dlpi_phdr info) (dlpi_addr info)) as Hok'
      by (apply Hok; [by left|done]).
    assert (∀ n a, phdr_in (dlpi_phdr info) (dlpi_addr info) n a → reloc (info :: objects) n a) as Hin.
    { intros n a Hn. exists info. split_and!; [by left|done..]. }
    clear IH Hok. induction (dlpi_phdr info) as [|ph phdrs IH]; simpl; [done|].
    assert (phdr_loop (dlpi_addr info) phdrs m = Some m) as Hrest.
    { apply IH; [intros ph' ?; apply Hok'; by right|]. intros n a (ph' & t & ? & ?).
      apply Hin. exists ph', t. set_solver. }
    destruct (p_type ph =? PT_DYNAMIC) eqn:Hp; [|done]. zify_bool.
    destruct (Hok' ph) as (t & Ht & Hrel); [by left|done|]. rewrite Ht. unfold inject_tables.
    rewrite rel_loop_done; [done|done|]. intros n a Hn. apply Hd, Hin. exists ph, t.
    split_and!; [by left|done..]. }
  apply IH; [intros ? ?; apply Hok; by right|]. intros n a (info' & ? & ?). apply Hd.
  exists info'. set_solver.
Qed.

(** ** Properties *)


End injection.
(** ** Examples *)

(** A program with relocations for [malloc], [puts] and [free], and the
    dynamic linker. *)
Definition demo_image : image := mkImage
  (λ a, if a =? 65792 then
     [mkDyn DT_STRTAB 1000; mkDyn DT_SYMTAB 2000; mkDyn DT_STRSZ 40; mkDyn DT_SYMENT 24;
      mkDyn DT_JMPREL 3000; mkDyn DT_PLTRELSZ 72; mkDyn DT_NULL 0; mkDyn DT_JMPREL 7] else [])
  (λ a, match a with
        | 3000 => Some (mkRela 4096 (1 * 2 ^ 32 + 7))
        | 3024 => Some (mkRela 4104 (2 * 2 ^ 32 + 7))
        | 3048 => Some (mkRela 4112 (3 * 2 ^ 32 + 7))
        | _ => None
        end)
  (λ a, match a with 2024 => Some 1 | 2048 => Some 8 | 2072 => Some 13 | _ => None end)
  (λ a, match a with
        | 1001 => Some "malloc"%string
        | 1008 => Some "puts"%string
        | 1013 => Some "free"%string
        | _ => None
        end).

Definition demo_objects : list dl_phdr_info :=
  [ mkInfo 65536 (Some ""%string) [mkPhdr 1 0; mkPhdr PT_DYNAMIC 256];
    mkInfo 131072 (Some "/lib64/ld-linux-x86-64.so.2"%string) [mkPhdr PT_DYNAMIC 0] ].

Definition demo_func (name : string) : Z := 7000000 + Z.of_nat (String.length name).

Definition demo_memory : memory := mkMemory {[ 69632 := 1; 69640 := 2; 69648 := 3; 69656 := 4 ]} ∅.

Abbreviation demo_reloc := (reloc "libmemhook" demo_image demo_objects).

Lemma demo_reloc_inv name slot :
  demo_reloc name slot →
  (name, slot) ∈ [("malloc"%string, 69632); ("puts"%string, 69640); ("free"%string, 69648)].
Proof.
  intros (info & Hi & Hs & ph & t & Hph & Hd & Ht & i & r & Hlt & Hr & Hn & ->).
  repeat (apply elem_of_cons in Hi as [->|Hi]); [..|by apply not_elem_of_nil in Hi]; [|by vm_compute in Hs].
  repeat (apply elem_of_cons in Hph as [->|Hph]); [..|by apply not_elem_of_nil in Hph]; [done|].
  vm_compute in Ht. injection Ht as <-.
  destruct i as [|[|[|i]]]; [..|vm_compute in Hlt; lia]; vm_compute in Hr; injection Hr as <-;
    vm_compute in Hn; injection Hn as <-; by_decide.
Qed.

Lemma demo_objects_ok :
  objects_ok "libmemhook" demo_image (λ a, is_Some (words demo_memory !! a)) demo_objects.
Proof.
  intros info Hi Hs ph Hph Hd.
  repeat (apply elem_of_cons in Hi as [->|Hi]); [..|by apply not_elem_of_nil in Hi]; [|by vm_compute in Hs].
  repeat (apply elem_of_cons in Hph as [->|Hph]); [..|by apply not_elem_of_nil in Hph]; [done|].
  eexists. split; [vm_compute; reflexivity|].
  intros [|[|[|i]]] Hlt; [..|vm_compute in Hlt; lia]; eexists _, _;
    (split_and!; [vm_compute; reflexivity..|vm_compute; by eexists]).
Qed.

Lemma demo_consistent : consistent demo_reloc.
Proof.
  intros n1 n2 slot H1 H2 _ _. apply demo_reloc_inv in H1, H2.
  repeat (apply elem_of_cons in H1 as [[= -> ->]|H1]); [..|by apply not_elem_of_nil in H1];
    repeat (apply elem_of_cons in H2 as [H2|H2]); try (by apply not_elem_of_nil in H2);
    congruence.
Qed.


End ElfInjection.
