(* ===== verification/Loader.v ===== *)
(** * The table of library functions

    src/memhook/dl_functions.cpp, dl_functions.h and the functions
    [memhook_dlsym] and [memhook_dlvsym] of src/memhook/memhook.cpp: how the
    addresses of the C library's functions are found.

    The first call of an interposed function fills the table with [dlsym].
    [dlsym] and [dlerror] allocate memory themselves, by way of the same
    interposed functions, which use the table that is just being filled.  What
    the dynamic linker's functions answer, and which calls they make on the
    way, are parameters. *)
From S2P Require Import Prelude StaticBuf Glibc.

Module Loader.
Import Glibc.

(** ** Data *)

(** A member of [DLFunctions]: null, a function of the start-up allocator, or
    a function of the C library. *)
Inductive entry := ENull | EStatic | EReal (addr : Z).

#[export] Instance entry_eq_dec : EqDecision entry.
Proof. solve_decision. Defined.

(** A call of an interposed function. *)
Inductive request :=
| QMalloc (size : Z) | QCalloc (nmemb size : Z) | QFree (mem : Z)
| QOther (name : string) (args : list Z).

Definition request_fn (q : request) : string :=
  match q with
  | QMalloc _ => "malloc" | QCalloc _ _ => "calloc" | QFree _ => "free" | QOther name _ => name
  end.

(** What a function of the dynamic linker does: the calls it makes, the error
    it leaves for [dlerror], the pointer it returns. *)
Record answer := mkAnswer { a_requests : list request; a_error : option string; a_value : Z }.

Record linker := mkLinker {
  l_find_dso : option (Z → option nat);    (** [_dl_find_dso_for_object] *)
  l_dl_sym : Z → string → answer;          (** [_dl_sym (handle, name, who)] *)
  l_dl_vsym : Z → string → string → answer;
  l_dlsym : Z → Z → string → answer;       (** the function [dlsym] at an address *)
  l_dlvsym : Z → Z → string → string → answer;
  l_dlerror : list request;                (** the calls [dlerror] makes *)
}.

(** A null function pointer is called, the process is aborted, or the tables
    of the linker are left. *)
Inductive fault := NullCall (name : string) | Abort (message : string) | WildRead.

Record state := mkState {
  functions : gmap string entry;           (** [g_dl_functions] *)
  buf : StaticBuf.StaticBufAlloc;
  hook_depth : Z;
  link_maps : objects;
  dl_error : option string;
  log : list string;
  passed : list (Z * Z * request);         (** the calls that reached the C library, with the
                                               depth and the address *)
}.

Definition set_functions f s :=
  mkState f (buf s) (hook_depth s) (link_maps s) (dl_error s) (log s) (passed s).
Definition set_buf b s :=
  mkState (functions s) b (hook_depth s) (link_maps s) (dl_error s) (log s) (passed s).
Definition set_depth d s :=
  mkState (functions s) (buf s) d (link_maps s) (dl_error s) (log s) (passed s).
Definition set_link_maps m s :=
  mkState (functions s) (buf s) (hook_depth s) m (dl_error s) (log s) (passed s).
Definition set_error e s :=
  mkState (functions s) (buf s) (hook_depth s) (link_maps s) e (log s) (passed s).
Definition add_log l s :=
  mkState (functions s) (buf s) (hook_depth s) (link_maps s) (dl_error s) (log s ++ [l]) (passed s).
Definition add_passed p s :=
  mkState (functions s) (buf s) (hook_depth s) (link_maps s) (dl_error s) (log s) (passed s ++ [p]).

(** The member of a name. *)
Definition fn (name : string) (s : state) : entry := default ENull (functions s !! name).
Definition set_fn (name : string) (e : entry) (s : state) : state :=
  set_functions (<[name := e]> (functions s)) s.

(** ** Computations *)

Inductive outcome (A : Type) := Done (a : A) (s : state) | Fault (f : fault) | NoFuel.
Arguments Done {_}.
Arguments Fault {_}.
Arguments NoFuel {_}.

Definition M (A : Type) : Type := state → outcome A.

#[export] Instance M_ret : MRet M := λ A a s, Done a s.
#[export] Instance M_bind : MBind M := λ A B f m s,
  match m s with
  | Done a s => f a s
  | Fault e => Fault e
  | NoFuel => NoFuel
  end.

Definition get : M state := λ s, Done s s.
Definition modify (f : state → state) : M unit := λ s, Done tt (f s).
Definition fail {A} (f : fault) : M A := λ _, Fault f.

(** [LogPrintf (kERROR, ...)] *)
Definition LogError (message : string) : M unit := modify (add_log message).
(** [MEMHOOK_EXPECT]: [LogPrintf (kFATAL, ...)], which aborts *)
Definition MEMHOOK_EXPECT (b : bool) (message : string) : M unit :=
  if b then mret tt else fail (Abort message).

Definition bytes_of (name : string) : bytes := (λ c, Z.of_N (Ascii.N_of_ascii c)) <$> String.list_ascii_of_string name.

Definition RTLD_NEXT : Z := 2 ^ 64 - 1.

Section loader.
Context (L : linker).
(** the addresses of [memhook_dlsym] and [memhook_dlvsym], and an address in
    the library's code *)
Context (self_dlsym self_dlvsym self_code : Z).

Section reentrant.
(** [g_dl_functions.Initialize ()] of a call that is made on the way *)
Context (Initialize : M unit).

(** [GetDLFunctions ().f (...)] for an interposed function [f] that the
    linker calls, inside of [NoHook] *)
Definition do_request (q : request) : M unit :=
  Initialize;; s ← get;
  match fn (request_fn q) s with
  | ENull => fail (NullCall (request_fn q))
  | EStatic =>
      match q with
      | QMalloc size => modify (λ s, set_buf (StaticBuf.malloc size (buf s)).2 s)
      | QCalloc nmemb size => modify (λ s, set_buf (StaticBuf.calloc nmemb size (buf s)).2 s)
      | QFree mem => modify (λ s, set_buf (StaticBuf.free mem (buf s)) s)
      | QOther _ _ => mret tt
      end
  | EReal a => modify (λ s, add_passed (hook_depth s, a, q) s)
  end.

Fixpoint do_requests (qs : list request) : M unit :=
  match qs with
  | [] => mret tt
  | q :: qs => do_request q;; do_requests qs
  end.

(** A call of a function of the dynamic linker. *)
Definition linker_call (a : answer) : M Z :=
  do_requests (a_requests a);;
  (match a_error a with Some e => modify (set_error (Some e)) | None => mret tt end);;
  mret (a_value a).

(** [dlerror]: the last error, once *)
Definition dlerror : M (option string) :=
  do_requests (l_dlerror L);; s ← get; modify (set_error None);; mret (dl_error s).

Definition NoHook {A} (m : M A) : M A :=
  modify (λ s, set_depth (hook_depth s + 1) s);;
  (a ← m; modify (λ s, set_depth (hook_depth s - 1) s);; mret a).

Definition GLIBC_find_dl_symbol (name : string) : M Z := λ s,
  match GLIBC_do_sym (bytes_of name) (l_find_dso L) (link_maps s) self_code with
  | Some (addr, maps) => Done addr (set_link_maps maps s)
  | None => Fault WildRead
  end.

Definition memhook_dlsym (handle : Z) (name : string) : M Z :=
  if (handle =? RTLD_NEXT) && bool_decide (name = "dlsym"%string) then mret self_dlsym
  else NoHook (
    s ← get;
    match fn "dlsym" s with
    | EReal f => linker_call (l_dlsym L f handle name)
    | _ =>
        f ← GLIBC_find_dl_symbol "dlsym";
        let use f := modify (set_fn "dlsym" (EReal f));; linker_call (l_dlsym L f handle name) in
        if f =? 0 then
          dlerror;;
          f ← linker_call (l_dl_sym L RTLD_NEXT "dlsym");
          err_s ← dlerror;
          (match err_s with
           | Some e => LogError ("_dl_sym(RTLD_NEXT, dlsym) failed: " +:+ e)
           | None => mret tt
           end);;
          if f =? 0 then linker_call (l_dl_sym L handle name) else use f
        else use f
    end).

Definition memhook_dlvsym (handle : Z) (name version : string) : M Z :=
  if (handle =? RTLD_NEXT) && bool_decide (name = "dlvsym"%string) then mret self_dlvsym
  else NoHook (
    s ← get;
    match fn "dlvsym" s with
    | EReal f => linker_call (l_dlvsym L f handle name version)
    | _ =>
        f ← GLIBC_find_dl_symbol "dlvsym";
        let use f :=
          modify (set_fn "dlvsym" (EReal f));; linker_call (l_dlvsym L f handle name version) in
        if f =? 0 then
          dlerror;;
          f ← linker_call (l_dl_sym L RTLD_NEXT "dlvsym");
          err_s ← dlerror;
          (match err_s with
           | Some e => LogError ("_dl_sym(RTLD_NEXT, dlvsym) failed: " +:+ e)
           | None => mret tt
           end);;
          if f =? 0 then linker_call (l_dl_vsym L handle name version) else use f
        else use f
    end).

Definition DLSymRtldNext (name : string) : M Z :=
  dlerror;;
  f ← memhook_dlsym RTLD_NEXT name;
  err_s ← dlerror;
  (match err_s with
   | Some e => LogError ("dlsym() failed: " +:+ e)
   | None => mret tt
   end);;
  MEMHOOK_EXPECT (negb (f =? 0)) "fn != NULL failed";;
  mret f.

(** The members in the order in which they are found. *)
Definition startup_names : list string := (
  ["realloc"; "memalign"; "posix_memalign"; "cfree"; "aligned_alloc"; "valloc"; "pvalloc";
   "mmap"; "mmap64"; "mremap"; "munmap"; "dlopen"; "dlmopen"; "dlclose"; "dl_iterate_phdr";
   "getaddrinfo"; "getnameinfo"; "gethostbyname"; "gethostbyaddr"; "gethostbyname2";
   "gethostent_r"; "gethostbyaddr_r"; "gethostbyname_r"; "gethostbyname2_r";
   "getpwent_r"; "getpwuid_r"; "getpwnam_r"])%string.

Fixpoint find_members (names : list string) : M unit :=
  match names with
  | [] => mret tt
  | name :: names =>
      f ← DLSymRtldNext name; modify (set_fn name (EReal f));; find_members names
  end.

Definition DoInitialize : M unit :=
  s ← get;
  if bool_decide (fn "free" s ≠ ENull) then mret tt
  else
    modify (set_fn "free" EStatic);;
    modify (set_fn "malloc" EStatic);;
    modify (set_fn "calloc" EStatic);;
    tmp_free ← DLSymRtldNext "free";
    tmp_malloc ← DLSymRtldNext "malloc";
    tmp_calloc ← DLSymRtldNext "calloc";
    modify (set_fn "free" (EReal tmp_free));;
    modify (set_fn "malloc" (EReal tmp_malloc));;
    modify (set_fn "calloc" (EReal tmp_calloc));;
    find_members startup_names.
End reentrant.

(** [DLFunctions::Initialize]; [fuel] bounds how deep calls of it may nest *)
Fixpoint Initialize (fuel : nat) : M unit := λ s,
  if bool_decide (fn "free" s = ENull) then
    match fuel with
    | O => NoFuel
    | S fuel => DoInitialize (Initialize fuel) s
    end
  else Done tt s.

End loader.

(** The state at program start. *)
Definition start_state (maps : objects) : state := mkState ∅ StaticBuf.init 0 maps None [] [].

(** ** What the dynamic linker does *)

Section facts.
Context (L : linker) (self_dlsym self_dlvsym self_code : Z).
(** the addresses of the C library's functions, and of [dlsym] among them *)
Context (next : string → Z) (real_dlsym : Z).

Definition allocation_names : list string := (["free"; "malloc"; "calloc"])%string.

(** Calls of the functions [known] and of those the start-up allocator has. *)
Definition serves (known : list string) (q : request) : Prop :=
  request_fn q ∈ allocation_names ++ known.

#[export] Instance serves_dec known q : Decision (serves known q).
Proof. unfold serves; apply _. Defined.

(** [dlsym (RTLD_NEXT, name)] finds the function; on the way it calls only
    functions that are in the table by then. *)
Definition lookup_ok (known : list string) (name : string) : Prop :=
  let a := l_dlsym L real_dlsym RTLD_NEXT name in
  a_error a = None ∧ a_value a = next name ∧ next name ≠ 0 ∧ Forall (serves known) (a_requests a).

Record linker_ok (maps : objects) : Prop := {
  lk_found : ∃ maps', GLIBC_do_sym (bytes_of "dlsym") (l_find_dso L) maps self_code =
    Some (real_dlsym, maps');
  lk_nonnull : real_dlsym ≠ 0;
  lk_dlerror : Forall (serves []) (l_dlerror L);
  lk_alloc name : name ∈ allocation_names → lookup_ok [] name;
  lk_other pre name post : startup_names = pre ++ name :: post → lookup_ok pre name;
}.

(** While the table is being filled: [known] are the members that are found,
    the allocation functions have an entry, and calls that were passed on
    went to the functions they were meant for. *)
Record filling (maps : objects) (d : Z) (known : list string) (s : state) : Prop := {
  fl_alloc name : name ∈ allocation_names → fn name s ≠ ENull;
  fl_known name : name ∈ known → fn name s = EReal (next name);
  fl_right name a : name ∈ allocation_names ++ known → fn name s = EReal a → a = next name;
  fl_passed d a q : (d, a, q) ∈ passed s → a = next (request_fn q);
  fl_dlsym : fn "dlsym" s = EReal real_dlsym ∨
    fn "dlsym" s = ENull ∧ link_maps s = maps;
  fl_depth : hook_depth s = d;
  fl_error : dl_error s = None;
  fl_log : log s = [];
}.

Lemma bind_run {A B} (m : M A) (f : A → M B) s :
  (m ≫= f) s = match m s with Done a s => f a s | Fault e => Fault e | NoFuel => NoFuel end.
Proof. done. Qed.

Lemma fn_set name e name' s :
  fn name (set_fn name' e s) = if decide (name = name') then e else fn name s.
Proof. unfold fn, set_fn. simpl. rewrite lookup_insert. by repeat case_decide. Qed.

(** The functions of the start-up allocator are in place. *)
Definition with_static (s : state) : state :=
  set_fn "calloc" EStatic (set_fn "malloc" EStatic (set_fn "free" EStatic s)).

Lemma filling_static maps d :
  filling maps d [] (with_static (set_depth d (start_state maps))).
Proof.
  split; try done.
  - intros n Hin. unfold with_static. rewrite !fn_set. repeat case_decide; [done..|].
    unfold allocation_names in Hin. set_solver.
  - intros n Hin. by apply not_elem_of_nil in Hin.
  - intros n a Hin. unfold with_static. by rewrite !fn_set; repeat case_decide.
  - simpl. intros ? a q Hin. by apply not_elem_of_nil in Hin.
  - by right.
Qed.

(** The start-up allocator is in place before the first lookup. *)
Lemma DoInitialize_start init maps d :
  DoInitialize L self_dlsym self_code init (set_depth d (start_state maps)) =
  (tmp_free ← DLSymRtldNext L self_dlsym self_code init "free";
   tmp_malloc ← DLSymRtldNext L self_dlsym self_code init "malloc";
   tmp_calloc ← DLSymRtldNext L self_dlsym self_code init "calloc";
   modify (set_fn "free" (EReal tmp_free));;
   modify (set_fn "malloc" (EReal tmp_malloc));;
   modify (set_fn "calloc" (EReal tmp_calloc));;
   find_members L self_dlsym self_code init startup_names)
    (with_static (set_depth d (start_state maps))).
Proof. done. Qed.

Context (init : M unit).
Hypothesis init_done : ∀ s, fn "free" s ≠ ENull → init s = Done tt s.

(** A call of the linker while the table is being filled. *)
Lemma do_requests_filling maps d known qs s :
  filling maps d known s → Forall (serves known) qs →
  ∃ s', do_requests init qs s = Done tt s' ∧ filling maps d known s' ∧ functions s' = functions s.
Proof.
  intros Hf Hqs. revert s Hf. induction Hqs as [|q qs Hq Hqs IH]; intros s Hf; [by exists s|].
  cbn [do_requests]. rewrite bind_run. unfold do_request. rewrite bind_run.
  rewrite init_done by (apply (fl_alloc _ _ _ _ Hf); by_decide).
  assert (∃ s1, (s ← get;
      match fn (request_fn q) s with
      | ENull => fail (NullCall (request_fn q))
      | EStatic =>
          match q with
          | QMalloc size => modify (λ s, set_buf (StaticBuf.malloc size (buf s)).2 s)
          | QCalloc nmemb size => modify (λ s, set_buf (StaticBuf.calloc nmemb size (buf s)).2 s)
          | QFree mem => modify (λ s, set_buf (StaticBuf.free mem (buf s)) s)
          | QOther _ _ => mret tt
          end
      | EReal a => modify (λ s, add_passed (hook_depth s, a, q) s)
      end) s = Done tt s1 ∧ filling maps d known s1 ∧ functions s1 = functions s)
    as (s1 & -> & Hf1 & Hfn1).
  { rewrite bind_run. simpl. destruct (fn (request_fn q) s) as [| |a] eqn:Hfn.
    - exfalso. unfold serves in Hq. apply elem_of_app in Hq as [Hq|Hq].
      + by apply (fl_alloc _ _ _ _ Hf) in Hq.
      + apply (fl_known _ _ _ _ Hf) in Hq. congruence.
    - destruct Hf. destruct q; eexists; (split; [done|]); by split.
    - eexists. split; [done|]. split; [|done]. pose proof (fl_right _ _ _ _ Hf _ _ Hq Hfn) as Ha.
      destruct Hf. split; try done. simpl. intros d' a' q'. rewrite elem_of_app, list_elem_of_singleton.
      intros [?|[= -> -> ->]]; [by eapply fl_passed0|done]. }
  destruct (IH s1 Hf1) as (s' & -> & Hf' & Hfn'). exists s'. split_and!; [done..|congruence].
Qed.

Lemma linker_call_filling maps d known a s :
  filling maps d known s → a_error a = None → Forall (serves known) (a_requests a) →
  ∃ s', linker_call init a s = Done (a_value a) s' ∧ filling maps d known s' ∧
    functions s' = functions s.
Proof.
  intros Hf He Hq. unfold linker_call. rewrite bind_run.
  destruct (do_requests_filling _ _ _ _ _ Hf Hq) as (s' & -> & ? & ?). rewrite He. by exists s'.
Qed.

Lemma serves_mono known qs : Forall (serves []) qs → Forall (serves known) qs.
Proof.
  intros Hqs. eapply Forall_impl; [exact Hqs|]. intros q. unfold serves. rewrite app_nil_r.
  intros ?. apply elem_of_app. by left.
Qed.

Lemma dlerror_filling maps d known s :
  filling maps d known s → Forall (serves []) (l_dlerror L) →
  ∃ s', dlerror L init s = Done None s' ∧ filling maps d known s' ∧ functions s' = functions s.
Proof.
  intros Hf Hq. unfold dlerror. rewrite bind_run.
  destruct (do_requests_filling _ _ known _ _ Hf (serves_mono _ _ Hq)) as (s' & -> & Hf' & ?).
  rewrite !bind_run. simpl. rewrite bind_run. simpl. rewrite (fl_error _ _ _ _ Hf').
  eexists. split; [done|]. split; [|done]. destruct Hf'. by split.
Qed.

Lemma filling_depth maps d d' known s :
  filling maps d known s → filling maps d' known (set_depth d' s).
Proof. intros []. by split. Qed.

(** The member that is not one of the others can be set at any time. *)
Lemma filling_set_dlsym maps d known s :
  "dlsym"%string ∉ known → filling maps d known s →
  filling maps d known (set_fn "dlsym" (EReal real_dlsym) s).
Proof.
  intros Hk []. assert (∀ name, name ∈ allocation_names ++ known → name ≠ "dlsym"%string) as Hne.
  { intros name Hn ->. apply elem_of_app in Hn as [Hn|Hn]; [|done]. revert Hn. by_decide. }
  split; try done.
  - intros name Hn. rewrite fn_set. case_decide; [done|by apply fl_alloc0].
  - intros name Hn. rewrite fn_set. case_decide as Hd; [|by apply fl_known0].
    exfalso. apply (Hne name); [apply elem_of_app; by right|done].
  - intros name a Hn. rewrite fn_set. case_decide as Hd; [by apply Hne in Hn|by apply fl_right0].
  - left. by rewrite fn_set, decide_True.
Qed.

Context (maps : objects) (Hlk : linker_ok maps).

Lemma memhook_dlsym_filling d known name s :
  filling maps d known s → "dlsym"%string ∉ known → name ≠ "dlsym"%string → lookup_ok known name →
  ∃ s', memhook_dlsym L self_dlsym self_code init RTLD_NEXT name s = Done (next name) s' ∧
    filling maps d known s' ∧ fn "dlsym" s' = EReal real_dlsym ∧
    (∀ n, n ≠ "dlsym"%string → fn n s' = fn n s).
Proof.
  intros Hf Hk Hname (He & Hv & Hnz & Hq). unfold memhook_dlsym.
  rewrite (bool_decide_eq_false_2 _ Hname), andb_false_r. unfold NoHook.
  rewrite bind_run. simpl. rewrite bind_run.
  set (s1 := set_depth (hook_depth s + 1) s).
  assert (filling maps (hook_depth s + 1) known s1) as Hf1 by by eapply filling_depth.
  assert (∀ s2, filling maps (hook_depth s + 1) known s2 → fn "dlsym" s2 = EReal real_dlsym →
      (∀ n, n ≠ "dlsym"%string → fn n s2 = fn n s) →
    ∃ s3, linker_call init (l_dlsym L real_dlsym RTLD_NEXT name) s2 = Done (next name) s3 ∧
      filling maps d known (set_depth (hook_depth s3 - 1) s3) ∧
      fn "dlsym" s3 = EReal real_dlsym ∧ (∀ n, n ≠ "dlsym"%string → fn n s3 = fn n s)) as Hcall.
  { intros s2 Hf2 Hd2 Hn2. destruct (linker_call_filling _ _ _ _ _ Hf2 He Hq) as (s3 & Hc & Hf3 & Hfn).
    exists s3. rewrite Hc, Hv. unfold fn in *. rewrite Hfn. split_and!; [done| |done|done].
    rewrite (fl_depth _ _ _ _ Hf3), (fl_depth _ _ _ _ Hf). replace (d + 1 - 1) with d by lia.
    by eapply filling_depth. }
  rewrite bind_run. unfold get at 1. cbv iota beta. destruct (fl_dlsym _ _ _ _ Hf1) as [Hd|[Hd Hm]].
  - rewrite Hd. destruct (Hcall s1 Hf1 Hd) as (s3 & -> & ? & ? & ?); [done|].
    rewrite bind_run. simpl. by eexists.
  - rewrite Hd, bind_run. destruct (lk_found _ Hlk) as [maps' Hfound].
    unfold GLIBC_find_dl_symbol. rewrite Hm, Hfound.
    rewrite (proj2 (Z.eqb_neq _ _) (lk_nonnull _ Hlk)), bind_run. unfold modify at 1. cbv iota beta.
    set (s2 := set_fn "dlsym" (EReal real_dlsym) _).
    assert (filling maps (hook_depth s + 1) known s2) as Hf2.
    { destruct (filling_set_dlsym _ _ _ s1 Hk Hf1). split; try done.
      left. unfold s2. by rewrite fn_set, decide_True. }
    destruct (Hcall s2 Hf2) as (s3 & -> & ? & ? & ?).
    + unfold s2. by rewrite fn_set, decide_True.
    + intros n Hn. unfold s2. by rewrite fn_set, decide_False.
    + rewrite bind_run. simpl. by eexists.
Qed.

Lemma DLSymRtldNext_filling d known name s :
  filling maps d known s → "dlsym"%string ∉ known → name ≠ "dlsym"%string → lookup_ok known name →
  ∃ s', DLSymRtldNext L self_dlsym self_code init name s = Done (next name) s' ∧
    filling maps d known s' ∧ fn "dlsym" s' = EReal real_dlsym ∧
    (∀ n, n ≠ "dlsym"%string → fn n s' = fn n s).
Proof.
  intros Hf Hk Hname Hok. unfold DLSymRtldNext. rewrite bind_run. pose proof (lk_dlerror _ Hlk) as Hq.
  destruct (dlerror_filling _ _ _ _ Hf Hq) as (s1 & -> & Hf1 & Hfn1). rewrite bind_run.
  destruct (memhook_dlsym_filling d known name s1 Hf1 Hk Hname Hok) as (s2 & -> & Hf2 & Hd2 & Hn2).
  rewrite bind_run. destruct (dlerror_filling _ _ _ _ Hf2 Hq) as (s3 & -> & Hf3 & Hfn3).
  rewrite !bind_run. simpl. destruct Hok as (_ & _ & Hnz & _).
  rewrite (proj2 (Z.eqb_neq _ _) Hnz). rewrite bind_run. exists s3. unfold fn in *. rewrite Hfn3.
  split_and!; [done..|]. intros n Hn. rewrite Hn2, Hfn1 by done. done.
Qed.

Lemma find_members_filling d pre names s :
  startup_names = pre ++ names → filling maps d pre s → fn "dlsym" s = EReal real_dlsym →
  (∀ name, name ∈ allocation_names → fn name s = EReal (next name)) →
  ∃ s', find_members L self_dlsym self_code init names s = Done tt s' ∧
    filling maps d startup_names s' ∧ fn "dlsym" s' = EReal real_dlsym ∧
    (∀ name, name ∈ allocation_names → fn name s' = EReal (next name)).
Proof.
  revert pre s; induction names as [|name names IH]; intros pre s Hn Hf Hd Ha.
  { rewrite app_nil_r in Hn. subst pre. by exists s. }
  cbn [find_members]. rewrite bind_run.
  assert ("dlsym"%string ∉ startup_names) as Hds by by_decide.
  assert (NoDup (allocation_names ++ startup_names)) as Hnd by by_decide.
  assert ((name ∉ allocation_names) ∧ (name ∉ pre)) as [Hna Hnp].
  { rewrite Hn in Hnd. apply NoDup_app in Hnd as (_ & Hx & Hy). apply NoDup_app in Hy as (_ & Hy & _).
    split; [intros Hin; apply Hx in Hin|intros Hin; apply Hy in Hin]; set_solver. }
  assert ((name ≠ "dlsym"%string) ∧ ("dlsym"%string ∉ pre)) as [Hne Hdp]
    by (rewrite Hn in Hds; set_solver).
  destruct (DLSymRtldNext_filling d pre name s Hf Hdp Hne (lk_other _ Hlk _ _ _ Hn))
    as (s1 & -> & Hf1 & Hd1 & Hs1).
  rewrite bind_run. unfold modify at 1. cbv iota beta.
  apply (IH (pre ++ [name])).
  - by rewrite <- app_assoc.
  - destruct Hf1. split; try done.
    + intros n Hin. rewrite fn_set. case_decide; [done|by apply fl_alloc0].
    + intros n. rewrite fn_set. case_decide; [by subst|]. intros Hin. apply fl_known0. set_solver.
    + intros n a Hin. rewrite fn_set. case_decide; [intros [= <-]; by subst|]. apply fl_right0. set_solver.
    + left. rewrite fn_set. by rewrite decide_False.
  - rewrite fn_set. by rewrite decide_False.
  - intros n Hin. rewrite fn_set. case_decide; [by subst|]. rewrite Hs1; [by apply Ha|].
    intros ->. revert Hin. by_decide.
Qed.

Lemma filling_set_alloc d name e s :
  name ∈ allocation_names → e ≠ ENull → (∀ a, e = EReal a → a = next name) →
  filling maps d [] s → filling maps d [] (set_fn name e s).
Proof.
  intros Hn He Ha []. split; try done.
  - intros n Hin. rewrite fn_set. case_decide; [done|by apply fl_alloc0].
  - intros n Hin. by apply not_elem_of_nil in Hin.
  - intros n a Hin. rewrite fn_set. case_decide; [subst; by apply Ha|by apply fl_right0].
  - rewrite fn_set. case_decide; [subst; exfalso; revert Hn; by_decide|done].
Qed.

Lemma DoInitialize_filling d :
  ∃ s', DoInitialize L self_dlsym self_code init (set_depth d (start_state maps)) = Done tt s' ∧
    filling maps d startup_names s' ∧ fn "dlsym" s' = EReal real_dlsym ∧
    (∀ name, name ∈ allocation_names → fn name s' = EReal (next name)).
Proof.
  rewrite DoInitialize_start.
  assert ("dlsym"%string ∉ ([] : list string)) as Hd by by_decide.
  destruct (DLSymRtldNext_filling d [] "free" _ (filling_static maps d) Hd)
    as (s1 & Hs1 & Hf1 & _ & _); [done|apply (lk_alloc _ Hlk); by_decide|].
  destruct (DLSymRtldNext_filling d [] "malloc" s1 Hf1 Hd)
    as (s2 & Hs2 & Hf2 & _ & _); [done|apply (lk_alloc _ Hlk); by_decide|].
  destruct (DLSymRtldNext_filling d [] "calloc" s2 Hf2 Hd)
    as (s3 & Hs3 & Hf3 & Hd3 & _); [done|apply (lk_alloc _ Hlk); by_decide|].
  rewrite bind_run, Hs1, bind_run, Hs2, bind_run, Hs3.
  rewrite bind_run. unfold modify at 1. cbv iota beta. rewrite bind_run. unfold modify at 1.
  cbv iota beta. rewrite bind_run. unfold modify at 1. cbv iota beta.
  apply (find_members_filling d []).
  - done.
  - apply filling_set_alloc; [by_decide|done|by intros ? [= <-]|].
    apply filling_set_alloc; [by_decide|done|by intros ? [= <-]|].
    apply filling_set_alloc; [by_decide|done|by intros ? [= <-]|done].
  - rewrite !fn_set. by repeat case_decide.
  - intros name Hn. rewrite !fn_set. repeat case_decide; subst; [done..|].
    unfold allocation_names in Hn. set_solver.
Qed.

End facts.

(** ** Properties *)

Section properties.
Context (L : linker) (self_dlsym self_dlvsym self_code : Z).
Context (next : string → Z) (real_dlsym : Z).

Lemma Initialize_again fuel s :
  fn "free" s ≠ ENull → Initialize L self_dlsym self_code fuel s = Done tt s.
Proof. intros Hf. destruct fuel; simpl; by rewrite bool_decide_eq_false_2. Qed.


(** The first lookup, up to the calls the linker makes in it. *)
Lemma first_lookup init maps maps' :
  (∀ s, fn "free" s ≠ ENull → init s = Done tt s) →
  GLIBC_do_sym (bytes_of "dlsym") (l_find_dso L) maps self_code = Some (real_dlsym, maps') →
  real_dlsym ≠ 0 → Forall (serves []) (l_dlerror L) →
  ∃ s, filling next real_dlsym maps 1 [] s ∧
    (∀ n, fn n s = if decide (n = "dlsym"%string) then EReal real_dlsym
                   else if decide (n ∈ allocation_names) then EStatic else ENull) ∧
    ∀ f, linker_call init (l_dlsym L real_dlsym RTLD_NEXT "free") s = Fault f →
      DLSymRtldNext L self_dlsym self_code init "free"
        (with_static (set_depth 0 (start_state maps))) = Fault f.
Proof.
  intros Hinit Hfound Hnz Herr. unfold DLSymRtldNext. rewrite bind_run.
  destruct (dlerror_filling L next real_dlsym init Hinit maps 0 [] _
    (filling_static next real_dlsym maps 0) Herr) as (s1 & -> & Hf1 & Hfn1).
  rewrite bind_run. unfold memhook_dlsym at 1. change (_ && _) with false. cbv iota.
  unfold NoHook at 1. rewrite bind_run. unfold modify at 1. cbv iota beta.
  rewrite !bind_run. unfold get at 1. cbv iota beta.
  set (s2 := set_depth _ s1). assert (fn "dlsym" s2 = ENull) as Hd.
  { unfold fn. simpl. by rewrite Hfn1. }
  rewrite Hd, bind_run. unfold GLIBC_find_dl_symbol at 1.
  assert (link_maps s2 = maps) as ->.
  { pose proof (fl_dlsym _ _ _ _ _ _ Hf1) as [Hx|[_ Hx]]; [|done]. simpl in Hd.
    unfold fn in Hd, Hx. simpl in Hd. congruence. }
  rewrite Hfound, (proj2 (Z.eqb_neq _ _) Hnz), bind_run. unfold modify at 1. cbv iota beta.
  set (s3 := set_fn "dlsym" _ _). exists s3. split_and!.
  - destruct (filling_depth next real_dlsym maps 0 1 [] s1 Hf1). unfold s3, s2.
    rewrite (fl_depth _ _ _ _ _ _ Hf1).
    assert (∀ n, n ∈ allocation_names ++ [] → n ≠ "dlsym"%string) as Hne.
    { intros n Hn ->. revert Hn. by_decide. }
    split; try done.
    + intros n Hn. rewrite fn_set. case_decide; [done|by apply fl_alloc0].
    + intros n Hn. by apply not_elem_of_nil in Hn.
    + intros n a Hn. rewrite fn_set. case_decide; [by apply Hne in Hn|by apply fl_right0].
    + left. by rewrite fn_set, decide_True.
  - intros n. unfold s3. rewrite fn_set. case_decide; [done|].
    unfold fn at 1. simpl. rewrite Hfn1. fold (fn n (with_static (set_depth 0 (start_state maps)))).
    unfold with_static. rewrite !fn_set. unfold allocation_names.
    repeat case_decide; subst; try done; exfalso; set_solver.
  - intros f Hf. by rewrite Hf.
Qed.

(** A function other than [malloc], [calloc] and [free] that the linker calls
    while it looks for the first of these is called by a null pointer. *)
Theorem early_call_crashes maps maps' fuel pre name args post :
  GLIBC_do_sym (bytes_of "dlsym") (l_find_dso L) maps self_code = Some (real_dlsym, maps') →
  real_dlsym ≠ 0 → Forall (serves []) (l_dlerror L) →
  a_requests (l_dlsym L real_dlsym RTLD_NEXT "free") = pre ++ QOther name args :: post →
  Forall (serves []) pre → name ∉ allocation_names → name ≠ "dlsym"%string →
  Initialize L self_dlsym self_code (S fuel) (start_state maps) = Fault (NullCall name).
Proof.
  intros Hfound Hnz Herr Hreq Hpre Hname Hds.
  destruct (first_lookup (Initialize L self_dlsym self_code fuel) maps maps'
    (Initialize_again fuel) Hfound Hnz Herr) as (s & Hf & Hfn & Hfault).
  assert (linker_call (Initialize L self_dlsym self_code fuel)
    (l_dlsym L real_dlsym RTLD_NEXT "free") s = Fault (NullCall name)) as Hcall.
  2: { apply Hfault in Hcall. cbn [Initialize]. rewrite bool_decide_eq_true_2 by done.
    change (start_state maps) with (set_depth 0 (start_state maps)).
    by rewrite DoInitialize_start, bind_run, Hcall. }
  unfold linker_call. rewrite bind_run, Hreq. clear Hreq Hfault. revert s Hf Hfn.
  induction Hpre as [|q pre Hq Hpre IH]; intros s Hf Hfn.
  - simpl. rewrite bind_run. unfold do_request. rewrite bind_run.
    rewrite Initialize_again by (rewrite Hfn; by_decide). rewrite bind_run. simpl.
    by rewrite Hfn, !decide_False.
  - change ((q :: pre) ++ QOther name args :: post) with (q :: (pre ++ QOther name args :: post)).
    cbn [do_requests]. rewrite bind_run.
    destruct (do_requests_filling next real_dlsym _ (Initialize_again fuel) maps 1 [] [q] s Hf)
      as (s' & Hs' & Hf' & Hfn'); [by constructor|].
    cbn [do_requests] in Hs'. rewrite bind_run in Hs'.
    destruct (do_request _ q s) as [[] s1|f|]; [|done..]. injection Hs' as <-.
    apply IH; [done|]. intros n. unfold fn in *. by rewrite Hfn'.
Qed.

(** The linker's functions make no calls. *)
Record quiet : Prop := {
  q_dl_sym handle name : a_requests (l_dl_sym L handle name) = [];
  q_dl_vsym handle name version : a_requests (l_dl_vsym L handle name version) = [];
  q_dlvsym f handle name version : a_requests (l_dlvsym L f handle name version) = [];
  q_dlerror : l_dlerror L = [];
}.

Lemma linker_call_quiet init a s :
  a_requests a = [] →
  linker_call init a s = Done (a_value a) (match a_error a with
    | Some e => set_error (Some e) s | None => s end).
Proof. intros Hq. unfold linker_call. rewrite Hq. by destruct (a_error a). Qed.

(** A program's first call of [dlvsym]: the function itself for a program
    that looks for it; otherwise the real one is looked for in the linker's
    tables, and then with [_dl_sym], and is kept and called; if there is none
    [_dl_vsym] answers.  The nesting depth is the same afterwards, and
    nothing is logged if the tables have the function. *)
Theorem dlvsym_results init handle name version s g maps :
  quiet → fn "dlvsym" s = ENull →
  GLIBC_do_sym (bytes_of "dlvsym") (l_find_dso L) (link_maps s) self_code = Some (g, maps) →
  let f := if g =? 0 then a_value (l_dl_sym L RTLD_NEXT "dlvsym") else g in
  if (handle =? RTLD_NEXT) && bool_decide (name = "dlvsym"%string)
  then memhook_dlvsym L self_dlvsym self_code init handle name version s = Done self_dlvsym s
  else ∃ s', memhook_dlvsym L self_dlvsym self_code init handle name version s =
      Done (a_value (if f =? 0 then l_dl_vsym L handle name version
                     else l_dlvsym L f handle name version)) s' ∧
    hook_depth s' = hook_depth s ∧
    fn "dlvsym" s' = (if f =? 0 then ENull else EReal f) ∧ (g ≠ 0 → log s' = log s).
Proof.
  intros [Q1 Q2 Q3 Q4] Hnull Hg f. unfold memhook_dlvsym.
  destruct (_ && _); [done|]. unfold NoHook, GLIBC_find_dl_symbol, dlerror. rewrite Q4.
  unfold mbind, M_bind, modify, get, mret, M_ret, LogError, f.
  set (s1 := set_depth (hook_depth s + 1) s).
  change (fn "dlvsym" s1) with (fn "dlvsym" s). rewrite Hnull.
  assert (GLIBC_do_sym (bytes_of "dlvsym") (l_find_dso L) (link_maps s1) self_code = Some (g, maps))
    as -> by exact Hg.
  cbn [do_requests]. unfold mret, M_ret. cbv iota beta. destruct (g =? 0) eqn:Hgz; zify_bool.
  - rewrite (linker_call_quiet init) by apply Q1.
    set (A := l_dl_sym L RTLD_NEXT "dlvsym"). destruct (a_error A) as [e|]; cbn [dl_error set_error];
      destruct (a_value A =? 0); unfold modify; cbv iota beta;
      rewrite linker_call_quiet by auto;
      (eexists; split; [done|]); destruct (a_error _); simpl;
      (split; [lia|]); rewrite ?Hgz; (split; [|done]); unfold fn in *; simpl;
      rewrite ?lookup_insert_eq; done.
  - rewrite (proj2 (Z.eqb_neq g 0)) by done. rewrite linker_call_quiet by auto.
    eexists; split; [done|]. destruct (a_error _); simpl; (split; [lia|]);
      (split; [|done]); unfold fn; simpl; by rewrite lookup_insert_eq.
Qed.

End properties.

(** ** Examples *)

(** The C library's functions, at an address for each name. *)
Definition demo_next (name : string) : Z := 1000 + Z.of_nat (String.length name).

(** An object that has the function [dlsym], at the offset 64. *)
Definition demo_dlsym_lib : GLIBC_link_map :=
  let hash := gnu_hash (bytes_of "dlsym") in
  mkLinkMap 4096 2 None false 0 [mkSym 0 0 0; mkSym 1 0x12 64] (0 :: bytes_of "dlsym" ++ [0]) 1
    (Some [Z.lor (2 ^ Z.land hash 63) (2 ^ Z.land (Z.shiftr hash 6) 63)]) 0 6 [1]
    {[1 := Z.lor hash 1]} [] [] [].

Definition demo_maps : objects :=
  {[0%nat := demo_object 0 [[0%nat; 1%nat; 2%nat]]; 1%nat := demo_object 1 [[0%nat; 1%nat; 2%nat]];
    2%nat := demo_dlsym_lib]}.

(** A linker that allocates a buffer for errors at every lookup, and calls
    [realloc] once it is there. *)
Definition demo_linker (early : list request) : linker := {|
  l_find_dso := Some (λ _, Some 1%nat);
  l_dl_sym _ _ := mkAnswer [] None 0;
  l_dl_vsym _ _ _ := mkAnswer [] None 77;
  l_dlsym _ _ name :=
    mkAnswer (QCalloc 1 32 :: (if decide (name = "free"%string) then early
                               else if decide (name = "mmap"%string) then [QOther "realloc" [0; 64]; QMalloc 8]
                               else []) ++ [QFree 0]) None (demo_next name);
  l_dlvsym _ _ _ _ := mkAnswer [] None 0;
  l_dlerror := [QFree 0];
|}.

Lemma demo_linker_ok : linker_ok (demo_linker []) 0 demo_next 4160 demo_maps.
Proof.
  split.
  - eexists. vm_compute. reflexivity.
  - done.
  - by_decide.
  - intros name Hn. unfold allocation_names in Hn.
    repeat (apply elem_of_cons in Hn as [->|Hn]); [..|by apply not_elem_of_nil in Hn];
      (split_and!; [done..|by_decide]).
  - intros pre name post Hsplit. split_and!; [done|done|by unfold demo_next; lia|].
    simpl. apply Forall_cons. split; [by_decide|].
    assert (name ≠ "free"%string) as Hne.
    { assert (name ∈ startup_names) as Hin by (rewrite Hsplit; set_solver).
      intros ->. revert Hin. by_decide. }
    rewrite (decide_False _ _ Hne). case_decide as Hm; [subst name|repeat constructor; by_decide].
    repeat constructor; try by_decide. unfold serves. simpl.
    assert ("realloc"%string ∈ pre); [|set_solver].
    destruct pre as [|r pre]; [by vm_compute in Hsplit|]. injection Hsplit as <- _. left.
Qed.


Lemma early_call_crashes_witness :
  Initialize (demo_linker [QOther "realloc" [0; 64]]) 5 0 1 (start_state demo_maps) =
    Fault (NullCall "realloc").
Proof.
  eapply (early_call_crashes (demo_linker [QOther "realloc" [0; 64]]) 5 0 demo_next 4160 demo_maps _ 0
    [QCalloc 1 32] "realloc" [0; 64] [QFree 0]);
    [vm_compute; reflexivity|done|by_decide|reflexivity|by_decide|by_decide|done].
Defined.

(** A linker whose only function that works is [_dl_vsym]. *)
Definition demo_bare_linker : linker := {|
  l_find_dso := None;
  l_dl_sym _ _ := mkAnswer [] (Some "not found"%string) 0;
  l_dl_vsym _ _ _ := mkAnswer [] None 77;
  l_dlsym _ _ _ := mkAnswer [] None 0;
  l_dlvsym _ _ _ _ := mkAnswer [] None 0;
  l_dlerror := [];
|}.

Lemma dlvsym_results_witness :
  ∃ s', memhook_dlvsym demo_bare_linker 6 0 (mret tt) 0 "pow" "GLIBC_2.29" (start_state ∅) =
      Done 77 s' ∧ hook_depth s' = 0 ∧ fn "dlvsym" s' = ENull.
Proof.
  destruct (dlvsym_results demo_bare_linker 6 0 (mret tt) 0 "pow" "GLIBC_2.29" (start_state ∅) 0 ∅)
    as (s' & Hs & Hd & Hf & _); [by split|done|done|].
  exists s'. split_and!; [exact Hs|exact Hd|exact Hf].
Defined.

End Loader.
