(* ===== verification/Exports.v ===== *)
(** * The exported functions

    src/memhook/memhook.cpp: the symbols the library defines in place of the
    C library's, and the functions among them that are not traced.  These
    ([dlopen], [getaddrinfo], [getpwnam_r] and so on) pass their arguments on
    to the function of the C library, with the hooks turned off meanwhile.

    The functions that are traced are in file [Hooks]; how the table of the
    C library's functions is filled by the first call is in file [Loader]. *)
From S2P Require Import Prelude StaticBuf Glibc Loader ElfInjection.

Module Exports.
Import Glibc Loader.

(** ** The functions that are only passed on *)

Section exports.
Context (L : linker) (self_dlsym self_code : Z) (fuel : nat).
(** what the C library returns, after the calls made so far *)
Context (lib : list (Z * Z * request) → Z).

(** [GetDLFunctions ().name (args)] *)
Definition call_member (name : string) (args : list Z) : M Z :=
  do_request (Initialize L self_dlsym self_code fuel) (QOther name args);;
  s ← get; mret (lib (passed s)).

Definition do_dlopen file mode := call_member "dlopen" [file; mode].
Definition do_dlmopen nsid file mode := call_member "dlmopen" [nsid; file; mode].
Definition do_dl_iterate_phdr callback data := call_member "dl_iterate_phdr" [callback; data].
Definition do_getaddrinfo node service hints res :=
  call_member "getaddrinfo" [node; service; hints; res].
Definition do_getnameinfo sa salen host hostlen serv servlen flags :=
  call_member "getnameinfo" [sa; salen; host; hostlen; serv; servlen; flags].
Definition do_gethostbyname name := call_member "gethostbyname" [name].
Definition do_gethostbyaddr addr len type := call_member "gethostbyaddr" [addr; len; type].
Definition do_gethostbyname2 name af := call_member "gethostbyname2" [name; af].
Definition do_gethostent_r result_buf buf buflen result h_errnop :=
  call_member "gethostent_r" [result_buf; buf; buflen; result; h_errnop].
Definition do_gethostbyaddr_r addr len type result_buf buf buflen result h_errnop :=
  call_member "gethostbyaddr_r" [addr; len; type; result_buf; buf; buflen; result; h_errnop].
Definition do_gethostbyname_r name result_buf buf buflen result h_errnop :=
  call_member "gethostbyname_r" [name; result_buf; buf; buflen; result; h_errnop].
Definition do_gethostbyname2_r name af result_buf buf buflen result h_errnop :=
  call_member "gethostbyname2_r" [name; af; result_buf; buf; buflen; result; h_errnop].
Definition do_getpwent_r resultbuf buffer buflen result :=
  call_member "getpwent_r" [resultbuf; buffer; buflen; result].
Definition do_getpwuid_r uid resultbuf buffer buflen result :=
  call_member "getpwuid_r" [uid; resultbuf; buffer; buflen; result].
Definition do_getpwnam_r name resultbuf buffer buflen result :=
  call_member "getpwnam_r" [name; resultbuf; buffer; buflen; result].

Definition memhook_dlopen file mode := NoHook (do_dlopen file mode).
Definition memhook_dlmopen nsid file mode := NoHook (do_dlmopen nsid file mode).
(** without [NoHook], which is commented out in the code *)
Definition memhook_dl_iterate_phdr callback data := do_dl_iterate_phdr callback data.
Definition memhook_getaddrinfo node service hints res := NoHook (do_getaddrinfo node service hints res).
Definition memhook_getnameinfo sa salen host hostlen serv servlen flags :=
  NoHook (do_getnameinfo sa salen host hostlen serv servlen flags).
Definition memhook_gethostbyname name := NoHook (do_gethostbyname name).
Definition memhook_gethostbyaddr addr len type := NoHook (do_gethostbyaddr addr len type).
Definition memhook_gethostbyname2 name af := NoHook (do_gethostbyname2 name af).
Definition memhook_gethostent_r result_buf buf buflen result h_errnop :=
  NoHook (do_gethostent_r result_buf buf buflen result h_errnop).
Definition memhook_gethostbyaddr_r addr len type result_buf buf buflen result h_errnop :=
  NoHook (do_gethostbyaddr_r addr len type result_buf buf buflen result h_errnop).
Definition memhook_gethostbyname_r name result_buf buf buflen result h_errnop :=
  NoHook (do_gethostbyname_r name result_buf buf buflen result h_errnop).
Definition memhook_gethostbyname2_r name af result_buf buf buflen result h_errnop :=
  NoHook (do_gethostbyname2_r name af result_buf buf buflen result h_errnop).
Definition memhook_getpwent_r resultbuf buffer buflen result :=
  NoHook (do_getpwent_r resultbuf buffer buflen result).
Definition memhook_getpwuid_r uid resultbuf buffer buflen result :=
  NoHook (do_getpwuid_r uid resultbuf buffer buflen result).
Definition memhook_getpwnam_r name resultbuf buffer buflen result :=
  NoHook (do_getpwnam_r name resultbuf buffer buflen result).

End exports.

(** ** The symbols *)

(** The functions [memhook_...] that a symbol can be an alias of. *)
Inductive handler :=
| h_malloc | h_free | h_realloc | h_calloc | h_cfree | h_memalign | h_posix_memalign
| h_aligned_alloc | h_valloc | h_pvalloc | h_mmap | h_mmap64 | h_munmap | h_mremap
| h_new | h_delete | h_newarray | h_deletearray
| h_new_nothrow | h_newarray_nothrow | h_delete_nothrow | h_deletearray_nothrow
| h_dlclose | h_dlsym | h_dlvsym
| h_dlopen | h_dlmopen | h_dl_iterate_phdr
| h_getaddrinfo | h_getnameinfo | h_gethostbyaddr | h_gethostbyname | h_gethostbyname2
| h_gethostent_r | h_gethostbyaddr_r | h_gethostbyname_r | h_gethostbyname2_r
| h_getpwent_r | h_getpwuid_r | h_getpwnam_r.

(** [MEMHOOK_API symbol MEMHOOK_ALIAS (memhook_...)], with all of the optional
    functions present *)
Definition aliases : list (string * handler) := ([
  ("malloc", h_malloc); ("free", h_free); ("realloc", h_realloc); ("calloc", h_calloc);
  ("cfree", h_cfree); ("memalign", h_memalign); ("posix_memalign", h_posix_memalign);
  ("aligned_alloc", h_aligned_alloc); ("valloc", h_valloc); ("pvalloc", h_pvalloc);
  ("__libc_malloc", h_malloc); ("__libc_free", h_free); ("__libc_realloc", h_realloc);
  ("__libc_calloc", h_calloc); ("__libc_cfree", h_cfree); ("__libc_memalign", h_memalign);
  ("__posix_memalign", h_posix_memalign); ("__libc_valloc", h_valloc); ("__libc_pvalloc", h_pvalloc);
  ("mmap", h_mmap); ("mmap64", h_mmap64); ("munmap", h_munmap); ("mremap", h_mremap);
  ("dlopen", h_dlopen); ("dlmopen", h_dlmopen); ("dlclose", h_dlclose);
  ("dl_iterate_phdr", h_dl_iterate_phdr); ("dlsym", h_dlsym); ("dlvsym", h_dlvsym);
  ("getaddrinfo", h_getaddrinfo); ("getnameinfo", h_getnameinfo);
  ("gethostbyaddr", h_gethostbyaddr); ("gethostbyname", h_gethostbyname);
  ("gethostbyname2", h_gethostbyname2); ("gethostent_r", h_gethostent_r);
  ("gethostbyaddr_r", h_gethostbyaddr_r); ("gethostbyname_r", h_gethostbyname_r);
  ("gethostbyname2_r", h_gethostbyname2_r); ("getpwent_r", h_getpwent_r);
  ("getpwuid_r", h_getpwuid_r); ("getpwnam_r", h_getpwnam_r);
  ("operator new", h_new); ("operator delete", h_delete); ("operator new[]", h_newarray);
  ("operator delete[]", h_deletearray); ("operator new nothrow", h_new_nothrow);
  ("operator new[] nothrow", h_newarray_nothrow); ("operator delete nothrow", h_delete_nothrow);
  ("operator delete[] nothrow", h_deletearray_nothrow)])%string.

Definition exported (name : string) : option handler := list_to_map (M:=gmap string handler) aliases !! name.

(** A call of a function that is not traced; [None] if it is traced, or if
    the number of arguments is wrong. *)
Definition pass_on (L : linker) (self_dlsym self_code : Z) (fuel : nat)
    (lib : list (Z * Z * request) → Z) (h : handler) (args : list Z) : option (M Z) :=
  let on {A} (f : linker → Z → Z → nat → (list (Z * Z * request) → Z) → A) : A :=
    f L self_dlsym self_code fuel lib in
  match h, args with
  | h_dlopen, [a; b] => Some (on memhook_dlopen a b)
  | h_dlmopen, [a; b; c] => Some (on memhook_dlmopen a b c)
  | h_dl_iterate_phdr, [a; b] => Some (on memhook_dl_iterate_phdr a b)
  | h_getaddrinfo, [a; b; c; d] => Some (on memhook_getaddrinfo a b c d)
  | h_getnameinfo, [a; b; c; d; e; f; g] => Some (on memhook_getnameinfo a b c d e f g)
  | h_gethostbyname, [a] => Some (on memhook_gethostbyname a)
  | h_gethostbyaddr, [a; b; c] => Some (on memhook_gethostbyaddr a b c)
  | h_gethostbyname2, [a; b] => Some (on memhook_gethostbyname2 a b)
  | h_gethostent_r, [a; b; c; d; e] => Some (on memhook_gethostent_r a b c d e)
  | h_gethostbyaddr_r, [a; b; c; d; e; f; g; h] =>
      Some (on memhook_gethostbyaddr_r a b c d e f g h)
  | h_gethostbyname_r, [a; b; c; d; e; f] => Some (on memhook_gethostbyname_r a b c d e f)
  | h_gethostbyname2_r, [a; b; c; d; e; f; g] =>
      Some (on memhook_gethostbyname2_r a b c d e f g)
  | h_getpwent_r, [a; b; c; d] => Some (on memhook_getpwent_r a b c d)
  | h_getpwuid_r, [a; b; c; d; e] => Some (on memhook_getpwuid_r a b c d e)
  | h_getpwnam_r, [a; b; c; d; e] => Some (on memhook_getpwnam_r a b c d e)
  | _, _ => None
  end.

(** ** Properties *)

(** The functions that are not traced, with the number of their arguments
    and by how much the hook depth is raised while they run. *)
Definition untraced_functions : list (string * (nat * Z)) := ([
  ("dlopen", (2%nat, 1)); ("dlmopen", (3%nat, 1)); ("dl_iterate_phdr", (2%nat, 0));
  ("getaddrinfo", (4%nat, 1)); ("getnameinfo", (7%nat, 1)); ("gethostbyname", (1%nat, 1));
  ("gethostbyaddr", (3%nat, 1)); ("gethostbyname2", (2%nat, 1)); ("gethostent_r", (5%nat, 1));
  ("gethostbyaddr_r", (8%nat, 1)); ("gethostbyname_r", (6%nat, 1)); ("gethostbyname2_r", (7%nat, 1));
  ("getpwent_r", (4%nat, 1)); ("getpwuid_r", (5%nat, 1)); ("getpwnam_r", (5%nat, 1))])%string.

Section properties.
Context (L : linker) (self_dlsym self_code : Z) (fuel : nat).
Context (lib : list (Z * Z * request) → Z).
Context (next : string → Z) (real_dlsym : Z).

(** The table is filled. *)
Definition ready (s : state) : Prop :=
  ∀ name, name ∈ allocation_names ++ startup_names → fn name s = EReal (next name).

(** A program that has called none of the library's functions yet, or one
    whose table is filled. *)
Definition callable (maps : objects) (s : state) : Prop :=
  (∃ d, s = set_depth d (start_state maps)) ∨ ready s.

Lemma Initialize_ready maps s :
  linker_ok L self_code next real_dlsym maps → callable maps s →
  ∃ s', Initialize L self_dlsym self_code (S fuel) s = Done tt s' ∧
    ready s' ∧ hook_depth s' = hook_depth s ∧ (ready s → s' = s).
Proof.
  intros Hlk [[d ->]|Hr].
  - destruct (DoInitialize_filling L self_dlsym self_code next real_dlsym
      (Initialize L self_dlsym self_code fuel) (Initialize_again L self_dlsym self_code fuel)
      maps Hlk d) as (s' & Hs & Hf & _ & Ha).
    exists s'. split_and!; [exact Hs| |by destruct Hf|].
    + intros name [Hn|Hn]%elem_of_app; [by apply Ha|by apply (fl_known _ _ _ _ _ _ Hf)].
    + intros Hr. exfalso. assert (fn "free" (set_depth d (start_state maps)) = EReal (next "free"))
        as Hfree by (apply Hr; by_decide). done.
  - exists s. split_and!; [|done..]. apply Initialize_again. rewrite Hr by by_decide. done.
Qed.

Lemma call_member_ready maps name args s :
  linker_ok L self_code next real_dlsym maps → callable maps s → name ∈ startup_names →
  ∃ s' before, call_member L self_dlsym self_code (S fuel) lib name args s = Done (lib (passed s')) s' ∧
    passed s' = before ++ [(hook_depth s, next name, QOther name args)] ∧
    (ready s → before = passed s) ∧ ready s' ∧ hook_depth s' = hook_depth s.
Proof.
  intros Hlk Hc Hn. destruct (Initialize_ready maps s Hlk Hc) as (s1 & H1 & Hr1 & Hd1 & Hs1).
  unfold call_member. rewrite bind_run. unfold do_request. rewrite bind_run, H1, bind_run.
  unfold get at 1. cbv iota beta. cbn [request_fn].
  rewrite Hr1 by (apply elem_of_app; by right). unfold modify. cbv iota beta.
  eexists _, (passed s1). split; [done|]. cbn. rewrite Hd1.
  split_and!; [done| |exact Hr1|done]. intros Hr. by rewrite Hs1.
Qed.

Lemma NoHook_call_member maps name args s :
  linker_ok L self_code next real_dlsym maps → callable maps s → name ∈ startup_names →
  ∃ s' before, NoHook (call_member L self_dlsym self_code (S fuel) lib name args) s =
      Done (lib (passed s')) s' ∧
    passed s' = before ++ [(hook_depth s + 1, next name, QOther name args)] ∧
    (ready s → before = passed s) ∧ ready s' ∧ hook_depth s' = hook_depth s.
Proof.
  intros Hlk Hc Hn. unfold NoHook. rewrite bind_run. unfold modify at 1. cbv iota beta.
  destruct (call_member_ready maps name args (set_depth (hook_depth s + 1) s) Hlk)
    as (s1 & before & H1 & Hp & Hb & Hr & Hd); [|done|].
  { destruct Hc as [[d ->]|Hr]; [left; by eexists|by right]. }
  rewrite bind_run, H1. unfold modify. rewrite bind_run. exists (set_depth (hook_depth s1 - 1) s1), before. split; [done|].
  simpl in *. split_and!; [exact Hp|exact Hb|exact Hr|lia].
Qed.

(** Every function that is exported and not traced reaches the C library's
    function of the same name, once and with the arguments of the caller, and
    the caller gets its result: also when it is the first function of the
    library the program calls, so that the table is filled on the way.  The
    hook depth is raised while the C library's function runs (but for
    [dl_iterate_phdr], whose callback is the program's) and is what it was
    afterwards.  Whatever the injection redirects is exported. *)
Theorem untraced_functions_are_passed_on maps s name arity depth args :
  linker_ok L self_code next real_dlsym maps → callable maps s →
  (name, (arity, depth)) ∈ untraced_functions → length args = arity →
  (∃ h m s' before, exported name = Some h ∧
    pass_on L self_dlsym self_code (S fuel) lib h args = Some m ∧
    m s = Done (lib (passed s')) s' ∧
    passed s' = before ++ [(hook_depth s + depth, next name, QOther name args)] ∧
    (ready s → before = passed s) ∧ ready s' ∧ hook_depth s' = hook_depth s) ∧
  ∀ wrapped, wrapped ∈ ElfInjection.wrapped_names → is_Some (exported wrapped).
Proof.
  intros Hlk Hc Hin Hlen. split.
  2: { apply Forall_forall. by_decide. }
  pose proof (λ n, NoHook_call_member maps n args s Hlk Hc) as Hon.
  pose proof (λ n, call_member_ready maps n args s Hlk Hc) as Hoff.
  unfold untraced_functions in Hin.
  repeat (apply elem_of_cons in Hin as [[= -> -> ->]|Hin]); [..|by apply not_elem_of_nil in Hin].
  all: repeat (destruct args as [|? args]; [discriminate Hlen|]); destruct args; [|discriminate Hlen].
  3: { destruct (Hoff "dl_iterate_phdr"%string) as (s' & before & ?); [by_decide|].
    rewrite Z.add_0_r. eexists _, _, s', before. split_and!; [reflexivity|reflexivity|apply H..]. }
  all: match goal with |- context [exported ?n] =>
    destruct (Hon n) as (s' & before & H); [by_decide|];
    eexists _, _, s', before; split_and!; [reflexivity|reflexivity|apply H..] end.
Qed.

End properties.

(** The program's first call is [getpwnam_r]. *)
Lemma untraced_functions_are_passed_on_witness :
  ∃ h m s' before, exported "getpwnam_r" = Some h ∧
    pass_on (demo_linker []) 5 0 1 (λ l, Z.of_nat (length l)) h [10; 20; 30; 40; 50] = Some m ∧
    m (start_state demo_maps) = Done (Z.of_nat (length (passed s'))) s' ∧
    passed s' = before ++ [(1, demo_next "getpwnam_r", QOther "getpwnam_r" [10; 20; 30; 40; 50])].
Proof.
  destruct (untraced_functions_are_passed_on (demo_linker []) 5 0 0 (λ l, Z.of_nat (length l))
    demo_next 4160 demo_maps (start_state demo_maps) "getpwnam_r" 5 1 [10; 20; 30; 40; 50]
    demo_linker_ok) as [(h & m & s' & before & H1 & H2 & H3 & H4 & _) _];
    [by left; exists 0|by_decide|reflexivity|].
  exists h, m, s', before. split_and!; [exact H1|exact H2|exact H3|exact H4].
Defined.

End Exports.
