(* ===== verification/Creators.v ===== *)
(** * Storage creators and the names of databases

    src/memhookcore/file_based_mapped_storage_helpers.cpp,
    basic_mapped_storage_creator.h, mmf_mapped_storage.cpp,
    shm_mapped_storage.cpp and the cleaners of include/memhook/mmf_mapping_traits.h
    and shm_mapping_traits.h: where the database of a session is kept.

    The state is the part of the operating system that matters: the files and
    the shared memory objects, two name spaces.  A name leads to a segment,
    which is a number; a storage holds on to its segment whether or not a
    name still leads there. *)
From stdpp Require Import pretty.
From S2P Require Import Prelude.

Module Creators.

Record os := mkOS { files : gmap string nat; shm : gmap string nat; next_segment : nat }.

Inductive kind := MMF | SHM.

Definition names (k : kind) (o : os) : gmap string nat :=
  match k with MMF => files o | SHM => shm o end.
Definition set_names (k : kind) (m : gmap string nat) (o : os) : os :=
  match k with
  | MMF => mkOS m (shm o) (next_segment o)
  | SHM => mkOS (files o) m (next_segment o)
  end.

(** ** Unused file names *)

Section paths.
(** the parts of a path, which are functions of the file system library:
    the extension, and the rest without it *)
Context (extension stem : string → string).
(** the process id of the server *)
Context (pid : Z).

(** [boost::filesystem::exists] *)
Definition exists_ (path : string) (o : os) : bool := bool_decide (is_Some (files o !! path)).

(** [boost::lexical_cast<std::string>] of an unsigned integer *)
Definition lexical_cast (z : Z) : string := pretty (Z.to_N z).

(** The loop; [fuel] bounds the number of names that are tried. *)
Fixpoint unique_loop (fuel : nat) (base ext : string) (i : Z) (num_extension : string) (o : os)
    : option string :=
  match fuel with
  | O => None
  | S fuel =>
      let unique_path := base +:+ num_extension +:+ ext in
      if exists_ unique_path o then
        unique_loop fuel base ext (u64 (i + 1)) ("." +:+ lexical_cast i) o
      else Some unique_path
  end.

Definition GenerateUniquePath (fuel : nat) (original_path : string) (guide : Z) (o : os)
    : option string :=
  if exists_ original_path o then
    let pid_extension := "." +:+ lexical_cast (if guide =? 0 then pid else guide) in
    let unique_path_base := stem original_path +:+ pid_extension in
    unique_loop fuel unique_path_base (extension original_path) 0 "" o
  else Some original_path.

(** ** Storages *)

Record segment := mkSegment { s_kind : kind; s_name : string; s_id : nat }.

(** [MappingCleaner]: an object of the name is removed. *)
Definition MappingCleaner (k : kind) (name : string) (o : os) : os :=
  set_names k (delete name (names k o)) o.

(** The constructor of [BasicMappedStorage]: the cleaner, then the segment
    with [create_only], which throws if the name exists. *)
Definition open_storage (k : kind) (name : string) (o : os) : option (segment * os) :=
  let o := MappingCleaner k name o in
  match names k o !! name with
  | Some _ => None
  | None =>
      let id := next_segment o in
      let o := set_names k (<[name := id]> (names k o)) o in
      Some (mkSegment k name id, mkOS (files o) (shm o) (S id))
  end.

(** The destructor: only the cleaner of shared memory has one. *)
Definition close_storage (s : segment) (o : os) : os :=
  match s_kind s with SHM => MappingCleaner SHM (s_name s) o | MMF => o end.

(** Whether the name of a storage leads to it. *)
Definition reachable (s : segment) (o : os) : Prop :=
  names (s_kind s) o !! s_name s = Some (s_id s).

(** ** Creators *)

Record BasicMappedStorageCreator := mkCreator { cr_kind : kind; m_path : string; m_size : Z }.

Definition NewMMFMappedStorageCreator (path : string) (size : Z) := mkCreator MMF path size.
Definition NewSHMMappedStorageCreator (path : string) (size : Z) := mkCreator SHM path size.

Definition New (fuel : nat) (c : BasicMappedStorageCreator) (guide : Z) (o : os)
    : option (segment * os) :=
  match GenerateUniquePath fuel (m_path c) guide o with
  | Some path => open_storage (cr_kind c) path o
  | None => None
  end.

(** The storages of the clients with these process ids, one after the other. *)
Fixpoint New_all (fuel : nat) (c : BasicMappedStorageCreator) (guides : list Z) (o : os)
    : option (list segment * os) :=
  match guides with
  | [] => Some ([], o)
  | g :: guides =>
      match New fuel c g o with
      | Some (s, o) =>
          match New_all fuel c guides o with
          | Some (ss, o) => Some (s :: ss, o)
          | None => None
          end
      | None => None
      end
  end.

(** ** Lemmas *)

Lemma string_length_app (a b : string) :
  String.length (a +:+ b) = (String.length a + String.length b)%nat.
Proof. induction a; simpl; auto. Qed.

Lemma string_app_cancel_r (a b c : string) : a +:+ c = b +:+ c → a = b.
Proof.
  revert b; induction a as [|x a IH]; intros [|y b] Heq; [done|..];
    pose proof (f_equal String.length Heq) as Hl; rewrite !string_length_app in Hl.
  - cbn [String.length] in Hl. lia.
  - cbn [String.length] in Hl. lia.
  - injection Heq as -> Heq. f_equal. by apply IH.
Qed.

(** The extension in front of the name that is tried in turn [n]. *)
Definition num_extension (n : nat) : string :=
  match n with O => ""%string | S n => "." +:+ lexical_cast (Z.of_nat n) end.

Definition candidate (base ext : string) (n : nat) : string := base +:+ num_extension n +:+ ext.

#[export] Instance candidate_inj base ext : Inj (=) (=) (candidate base ext).
Proof.
  intros [|n] [|m] Heq; apply (inj (String.append base)), string_app_cancel_r in Heq; try done.
  simpl in Heq. injection Heq as Heq. unfold lexical_cast in Heq. apply pretty_N_inj in Heq.
  apply Z2N.inj in Heq; [|lia..]. f_equal. lia.
Qed.

Lemma unique_loop_spec fuel base ext n o :
  Z.of_nat (n + fuel) ≤ 2 ^ 64 →
  (∃ m, (n ≤ m < n + fuel)%nat ∧ exists_ (candidate base ext m) o = false) →
  ∃ m, unique_loop fuel base ext (Z.of_nat n) (num_extension n) o = Some (candidate base ext m) ∧
    exists_ (candidate base ext m) o = false.
Proof.
  revert n; induction fuel as [|fuel IH]; intros n Hb (m & Hm & Hfree); [lia|]. cbn [unique_loop].
  fold (candidate base ext n). destruct (exists_ (candidate base ext n) o) eqn:He; [|by exists n].
  destruct (decide (m = n)) as [->|Hne]; [congruence|].
  rewrite wrap_small by (unfold in_u; lia).
  replace (Z.of_nat n + 1) with (Z.of_nat (S n)) by lia.
  apply (IH (S n)); [lia|]. exists m. split; [lia|done].
Qed.

(** One of more names than there are files is unused. *)
Lemma unused_candidate base ext o :
  ∃ m, (m < S (size (files o)))%nat ∧ exists_ (candidate base ext m) o = false.
Proof.
  destruct (decide (Exists (λ m, exists_ (candidate base ext m) o = false) (seq 0 (S (size (files o))))))
    as [Hex|Hno].
  { apply Exists_exists in Hex as (m & [_ ?]%elem_of_seq & ?). by exists m. }
  exfalso. set (l := candidate base ext <$> seq 0 (S (size (files o)))).
  assert (NoDup l) as Hnd by (apply NoDup_fmap; [apply _|apply NoDup_seq]).
  assert (list_to_set (C := gset string) l ⊆ dom (files o)) as Hsub.
  { intros p (m & -> & Hm)%elem_of_list_to_set%list_elem_of_fmap. apply elem_of_dom.
    destruct (exists_ (candidate base ext m) o) eqn:He.
    - unfold exists_ in He. by apply bool_decide_eq_true in He.
    - exfalso. apply Hno, Exists_exists. by exists m. }
  apply subseteq_size in Hsub. rewrite size_list_to_set, size_dom in Hsub by done.
  unfold l in Hsub. rewrite length_fmap, length_seq in Hsub. lia.
Qed.

Lemma GenerateUniquePath_spec fuel path guide o :
  (size (files o) < fuel)%nat → Z.of_nat fuel ≤ 2 ^ 64 →
  ∃ p, GenerateUniquePath fuel path guide o = Some p ∧ files o !! p = None ∧
    (p = path ∨ is_Some (files o !! path) ∧
     ∃ n, p = candidate (stem path +:+ "." +:+ lexical_cast (if guide =? 0 then pid else guide))
                (extension path) n).
Proof.
  intros Hf Hb. unfold GenerateUniquePath. destruct (exists_ path o) eqn:He.
  - destruct (unused_candidate (stem path +:+ "." +:+ lexical_cast (if guide =? 0 then pid else guide))
      (extension path) o) as (m & Hm & Hfree).
    destruct (unique_loop_spec fuel (stem path +:+ "." +:+ lexical_cast (if guide =? 0 then pid else guide))
      (extension path) 0 o) as (k & Hk & Hfree'); [lia|exists m; split; [lia|done]|].
    eexists. split; [exact Hk|]. unfold exists_ in *. zify_bool. apply eq_None_not_Some in Hfree'.
    split; [done|]. right. eauto.
  - exists path. unfold exists_ in He. zify_bool. apply eq_None_not_Some in He. auto.
Qed.

Lemma open_storage_spec k name o :
  ∃ s o', open_storage k name o = Some (s, o') ∧ s = mkSegment k name (next_segment o) ∧
    next_segment o' = S (next_segment o) ∧ names k o' = <[name := next_segment o]> (names k o) ∧
    (∀ k', k' ≠ k → names k' o' = names k' o).
Proof.
  unfold open_storage, MappingCleaner.
  assert (∀ m, names k (set_names k m o) = m) as Hset by by destruct k.
  rewrite Hset, lookup_delete_eq, insert_delete_eq. eexists _, _. split; [done|].
  destruct k; (split; [done|]); (split; [done|]); (split; [done|]); intros []; done.
Qed.

Lemma New_MMF fuel path sz guide o :
  (size (files o) < fuel)%nat → Z.of_nat fuel ≤ 2 ^ 64 →
  ∃ p o', New fuel (NewMMFMappedStorageCreator path sz) guide o =
      Some (mkSegment MMF p (next_segment o), o') ∧
    files o !! p = None ∧ files o' = <[p := next_segment o]> (files o).
Proof.
  intros Hf Hb. unfold New. simpl.
  destruct (GenerateUniquePath_spec fuel path guide o Hf Hb) as (p & -> & Hp & _).
  destruct (open_storage_spec MMF p o) as (s & o' & -> & -> & _ & Hn & _). by exists p, o'.
Qed.

(** ** Properties *)


(** The databases of a server that keeps them in shared memory: the name is
    checked against the files and not against the shared memory objects, so
    all clients have the same name.  The second client removes the database
    of the first, which nobody can open any more, and when the first client
    goes away it removes the database of the second. *)
Theorem shm_databases_collide fuel path sz g1 g2 o :
  files o !! path = None →
  ∃ s1 s2 o', New_all fuel (NewSHMMappedStorageCreator path sz) [g1; g2] o = Some ([s1; s2], o') ∧
    s_name s1 = s_name s2 ∧ s_id s1 ≠ s_id s2 ∧ reachable s2 o' ∧ ¬ reachable s1 o' ∧
    ¬ reachable s2 (close_storage s1 o').
Proof.
  intros Hp. assert (∀ g o, files o !! path = None →
    GenerateUniquePath fuel path g o = Some path) as Hpath.
  { intros g o0 Hp0. unfold GenerateUniquePath, exists_. rewrite Hp0.
    by rewrite bool_decide_eq_false_2 by (by intros [? ?]). }
  unfold New_all, New. simpl. rewrite Hpath by done.
  destruct (open_storage_spec SHM path o) as (s1 & o1 & -> & -> & Hid & Hn1 & Hf1).
  rewrite Hpath by (specialize (Hf1 MMF ltac:(done)); simpl in Hf1; by rewrite Hf1).
  destruct (open_storage_spec SHM path o1) as (s2 & o2 & -> & -> & _ & Hn2 & _).
  eexists _, _, _. split; [done|]. unfold reachable. simpl in *. rewrite Hn2, lookup_insert_eq, Hid.
  split_and!; [done|lia|done|by injection 1; lia|]. by rewrite lookup_delete_eq.
Qed.

End paths.

(** ** Examples *)

Definition demo_os : os := mkOS {[ "mem.db"%string := 0%nat; "mem.17.db"%string := 1%nat ]} ∅ 2.
Definition demo_extension (p : string) : string := ".db".
Definition demo_stem (p : string) : string := "mem".


Lemma shm_databases_collide_witness :
  ∃ s1 s2 o', New_all demo_extension demo_stem 99 7 (NewSHMMappedStorageCreator "ShmMemHook" 4096)
      [17; 18] demo_os = Some ([s1; s2], o') ∧ s_name s1 = s_name s2 ∧ ¬ reachable s1 o'.
Proof.
  destruct (shm_databases_collide demo_extension demo_stem 99 7 "ShmMemHook" 4096 17 18 demo_os)
    as (s1 & s2 & o' & Hn & Hs & _ & _ & Hr & _); [vm_compute; reflexivity|].
  exists s1, s2, o'. split_and!; [exact Hn|exact Hs|exact Hr].
Defined.

End Creators.
