(* ===== verification/Racing.v ===== *)
(** * Sessions that create their databases at the same time

    The server runs its sessions on several threads (src/memdb/memdb.cpp), and
    nothing keeps two of them from creating their databases at once.  Here the
    creation of a database in a file, [BasicMappedStorageCreator::New] of
    src/memhookcore/basic_mapped_storage_creator.h with [GenerateUniquePath]
    and the constructor of [BasicMappedStorage], is the sequence of its
    operations on the file system, and any number of sessions interleave
    between them. *)
From S2P Require Import Prelude Creators.

Module Racing.
Import Creators.

Section racing.
Context (extension stem : string → string) (pid : Z) (original_path : string).

(** Where a session is in the creation of its database. *)
Inductive phase :=
| Begin (guide : Z)
| Trying (base ext : string) (i : Z) (num_extension : string)
| Named (path : string)
| Cleaned (path : string)
| Opened (s : segment)
| Thrown (path : string).

(** The next operation on the file system. *)
Definition advance (t : phase) (o : os) : phase * os :=
  match t with
  | Begin guide =>
      if exists_ original_path o then
        (Trying (stem original_path +:+ "." +:+ lexical_cast (if guide =? 0 then pid else guide))
           (extension original_path) 0 "", o)
      else (Named original_path, o)
  | Trying base ext i num_extension =>
      let unique_path := base +:+ num_extension +:+ ext in
      if exists_ unique_path o then (Trying base ext (u64 (i + 1)) ("." +:+ lexical_cast i), o)
      else (Named unique_path, o)
  | Named path => (Cleaned path, MappingCleaner MMF path o)
  | Cleaned path =>
      if exists_ path o then (Thrown path, o)
      else
        (Opened (mkSegment MMF path (next_segment o)),
         mkOS (<[path := next_segment o]> (files o)) (shm o) (S (next_segment o)))
  | Opened _ | Thrown _ => (t, o)
  end.

Record system := mkSystem { s_os : os; sessions : list phase }.

Inductive step (s : system) : system → Prop :=
| step_session i t :
    sessions s !! i = Some t →
    step s (mkSystem (advance t (s_os s)).2 (<[i := (advance t (s_os s)).1]> (sessions s))).

Definition start (o : os) (guides : list Z) : system := mkSystem o (Begin <$> guides).

(** The name a session has chosen. *)
Definition name_of (t : phase) : option string :=
  match t with
  | Named path | Cleaned path | Thrown path => Some path
  | Opened s => Some (s_name s)
  | _ => None
  end.

(** ** One session by itself *)

(** The operations of a session that nobody disturbs. *)
Fixpoint run_alone (n : nat) (t : phase) (o : os) : phase * os :=
  match n with
  | O => (t, o)
  | S n => let '(t, o) := advance t o in run_alone n t o
  end.

Lemma run_alone_trying fuel base ext i num o p :
  unique_loop fuel base ext i num o = Some p →
  ∃ n, run_alone n (Trying base ext i num) o = (Named p, o).
Proof.
  revert i num. induction fuel as [|fuel IH]; intros i num; [done|]. cbn [unique_loop]. intros H.
  destruct (exists_ (base +:+ num +:+ ext) o) eqn:He.
  - destruct (IH _ _ H) as [n Hn]. exists (S n). cbn [run_alone advance]. by rewrite He.
  - injection H as <-. exists 1%nat. cbn [run_alone advance]. by rewrite He.
Qed.

Lemma run_alone_plus n m t o :
  run_alone (n + m) t o = let '(t, o) := run_alone n t o in run_alone m t o.
Proof.
  revert t o. induction n as [|n IH]; intros t o; [done|]. simpl. by destruct (advance t o).
Qed.

Lemma run_alone_named guide o p fuel :
  GenerateUniquePath extension stem pid fuel original_path guide o = Some p →
  ∃ n, run_alone n (Begin guide) o = (Named p, o).
Proof.
  unfold GenerateUniquePath. destruct (exists_ original_path o) eqn:He.
  - intros [n Hn]%run_alone_trying. exists (S n). cbn [run_alone advance]. by rewrite He.
  - intros [= <-]. exists 1%nat. cbn [run_alone advance]. by rewrite He.
Qed.

Lemma run_alone_opens p o :
  run_alone 2 (Named p) o =
    match open_storage MMF p o with
    | Some (s, o) => (Opened s, o)
    | None => (Thrown p, MappingCleaner MMF p o)
    end.
Proof.
  unfold open_storage. cbn [run_alone advance]. unfold exists_, MappingCleaner. simpl.
  by rewrite lookup_delete_eq, bool_decide_eq_false_2 by (by intros []).
Qed.

Lemma run_alone_steps n i t o ts :
  ts !! i = Some t →
  rtc step (mkSystem o ts) (mkSystem (run_alone n t o).2 (<[i := (run_alone n t o).1]> ts)).
Proof.
  revert t o ts. induction n as [|n IH]; intros t o ts Hi.
  - simpl. by rewrite list_insert_id.
  - eapply rtc_l; [by apply (step_session (mkSystem o ts) i t)|]. simpl.
    destruct (advance t o) as [t' o'] eqn:Ha. simpl.
    specialize (IH t' o' (<[i := t']> ts)). rewrite list_insert_insert_eq in IH. apply IH.
    apply list_lookup_insert_eq. by eapply lookup_lt_Some.
Qed.

(** ** All interleavings *)

Record fair_names (o : os) (s : system) : Prop := mkFairNames {
  old_files : ∀ p id, files o !! p = Some id → files (s_os s) !! p = Some id;
  new_names : ∀ i t p, sessions s !! i = Some t → name_of t = Some p → files o !! p = None;
  own_files : ∀ i seg, sessions s !! i = Some (Opened seg) →
    (∀ j t, j ≠ i → sessions s !! j = Some t → name_of t ≠ Some (s_name seg)) →
    files (s_os s) !! s_name seg = Some (s_id seg) ∧ s_kind seg = MMF;
}.

(** What one operation does to the files and to the name of its session. *)
Lemma advance_files t o0 o :
  (∀ p id, files o0 !! p = Some id → files o !! p = Some id) →
  (∀ p, name_of t = Some p → files o0 !! p = None) →
  (∀ p, name_of (advance t o).1 = Some p → files o0 !! p = None) ∧
  (∀ p, name_of t ≠ Some p → files (advance t o).2 !! p = files o !! p) ∧
  (∀ p, name_of t = Some p → name_of (advance t o).1 = Some p).
Proof.
  intros Hold Hname.
  assert (∀ p, exists_ p o = false → files o0 !! p = None) as Hnew.
  { intros p He. unfold exists_ in He. apply bool_decide_eq_false in He.
    apply eq_None_not_Some. intros [id Hid]. apply He. eauto. }
  destruct t as [g|base ext i num|path|path|seg|path]; cbn [advance name_of] in *.
  - destruct (exists_ original_path o) eqn:He; simpl; naive_solver.
  - destruct (exists_ (base +:+ num +:+ ext) o) eqn:He; simpl; naive_solver.
  - split; [done|]. split; [|naive_solver]. intros p Hp. simpl. by rewrite lookup_delete_ne by congruence.
  - destruct (exists_ path o) eqn:He; simpl; [naive_solver|].
    split; [done|]. split; [|naive_solver]. intros p Hp. by rewrite lookup_insert_ne by congruence.
  - naive_solver.
  - naive_solver.
Qed.

(** A database is opened by the operation, or was open before. *)
Lemma advance_opened t o seg :
  (advance t o).1 = Opened seg →
  files (advance t o).2 !! s_name seg = Some (s_id seg) ∧ s_kind seg = MMF ∨
  t = Opened seg ∧ (advance t o).2 = o.
Proof.
  destruct t as [g|base ext i num|path|path|seg'|path]; cbn [advance]; try done;
    try (destruct (exists_ _ o)); simpl; try done.
  - intros [= <-]. left. simpl. by rewrite lookup_insert_eq.
  - intros [= ->]. by right.
Qed.

Lemma fair_names_step o s s' : fair_names o s → step s s' → fair_names o s'.
Proof.
  intros [Hold Hnew Hown] Hs. destruct Hs as [i t Hi].
  destruct (advance_files t o (s_os s) Hold (λ p, Hnew i t p Hi)) as (Hn & Hf & Hk).
  split; cbn [s_os sessions].
  - intros p id Hp. rewrite Hf; [by apply Hold|]. intros E. by rewrite (Hnew i t p Hi E) in Hp.
  - intros j u p Hj Hu. destruct (decide (j = i)) as [->|Hne].
    + rewrite list_lookup_insert_eq in Hj by (by eapply lookup_lt_Some). injection Hj as <-. by apply Hn.
    + rewrite list_lookup_insert_ne in Hj by done. by apply (Hnew j u).
  - intros j seg Hj Hother.
    assert (∀ k u, k ≠ j → k ≠ i → sessions s !! k = Some u → name_of u ≠ Some (s_name seg)) as Hrest.
    { intros k u Hkj Hki Hu. apply (Hother k u Hkj). by rewrite list_lookup_insert_ne. }
    destruct (decide (j = i)) as [->|Hne].
    + rewrite list_lookup_insert_eq in Hj by (by eapply lookup_lt_Some). injection Hj as Hj.
      destruct (advance_opened _ _ _ Hj) as [|[-> Ho]]; [done|]. rewrite Ho.
      apply (Hown i); [done|]. intros k u Hki Hu. by apply (Hrest k).
    + rewrite list_lookup_insert_ne in Hj by done.
      assert (name_of t ≠ Some (s_name seg)) as Ht.
      { intros E%Hk. revert E. apply (Hother i); [done|]. apply list_lookup_insert_eq.
        by eapply lookup_lt_Some. }
      rewrite Hf by done. apply (Hown j); [done|]. intros k u Hkj Hu.
      destruct (decide (k = i)) as [->|]; [by simplify_eq|by apply (Hrest k)].
Qed.

(** ** Theorems *)

(** A session that creates its database while no other session does, from any
    state of the others, makes the database that [New] makes. *)
Theorem undisturbed_session_creates fuel sz guide i o ts seg o' :
  ts !! i = Some (Begin guide) →
  New extension stem pid fuel (NewMMFMappedStorageCreator original_path sz) guide o = Some (seg, o') →
  rtc step (mkSystem o ts) (mkSystem o' (<[i := Opened seg]> ts)).
Proof.
  intros Hi HN. unfold New in HN. simpl in HN.
  destruct (GenerateUniquePath extension stem pid fuel original_path guide o) as [p|] eqn:Hp; [|done].
  destruct (run_alone_named _ _ _ _ Hp) as [n Hn].
  pose proof (run_alone_steps (n + 2) i _ o ts Hi) as Hr. rewrite run_alone_plus, Hn, run_alone_opens in Hr.
  by rewrite HN in Hr.
Qed.

(** C23.  Whatever sessions do at the same time, the files that were there before
    the first of them stay, and a database whose name no other session has
    chosen is in the file of its name. *)
Theorem racing_sessions_keep_files o guides s :
  rtc step (start o guides) s →
  (∀ p id, files o !! p = Some id → files (s_os s) !! p = Some id) ∧
  (∀ i seg, sessions s !! i = Some (Opened seg) →
     files o !! s_name seg = None ∧
     ((∀ j t, j ≠ i → sessions s !! j = Some t → name_of t ≠ Some (s_name seg)) → reachable seg (s_os s))).
Proof.
  intros Hr. assert (fair_names o s) as [Hold Hnew Hown].
  { eapply (rtc_ind_r (fair_names o) (start o guides)); [|intros ?? _ Hs Hf; by eapply fair_names_step|exact Hr].
    split; [done|..].
    - by intros i t p (g & -> & _)%list_lookup_fmap_Some.
    - by intros i seg (g & E & _)%list_lookup_fmap_Some. }
  split; [done|]. intros i seg Hi. split; [by eapply (Hnew i)|]. intros Hother.
  destruct (Hown i seg Hi Hother) as [Hf Hk]. unfold reachable. by rewrite Hk.
Qed.

(** Two sessions that look for the file before either has made it choose the
    same name: the second removes the database of the first, whose client goes
    on recording into a file that has no name any more. *)
Theorem racing_sessions_share_name o g1 g2 :
  files o !! original_path = None →
  ∃ s1 s2 o', rtc step (start o [g1; g2]) (mkSystem o' [Opened s1; Opened s2]) ∧
    s_name s1 = s_name s2 ∧ s_id s1 ≠ s_id s2 ∧ reachable s2 o' ∧ ¬ reachable s1 o'.
Proof.
  intros Hn. assert (exists_ original_path o = false) as He.
  { unfold exists_. rewrite Hn. by rewrite bool_decide_eq_false_2 by (by intros []). }
  pose proof (run_alone_steps 1 0 (Begin g1) o [Begin g1; Begin g2] eq_refl) as H1.
  pose proof (run_alone_steps 1 1 (Begin g2) o [Named original_path; Begin g2] eq_refl) as H2.
  cbn [run_alone advance] in H1, H2. rewrite He in H1, H2. simpl in H1, H2.
  pose proof (run_alone_steps 2 0 _ o [Named original_path; Named original_path] eq_refl) as H3.
  rewrite run_alone_opens in H3.
  destruct (open_storage_spec MMF original_path o) as (s1 & o1 & Ho1 & -> & Hid & Hf1 & _).
  rewrite Ho1 in H3. simpl in H3.
  pose proof (run_alone_steps 2 1 _ o1 [Opened (mkSegment MMF original_path (next_segment o));
    Named original_path] eq_refl) as H4. rewrite run_alone_opens in H4.
  destruct (open_storage_spec MMF original_path o1) as (s2 & o2 & Ho2 & -> & _ & Hf2 & _).
  rewrite Ho2 in H4. simpl in H4.
  eexists _, _, o2. split; [etrans; [exact H1|etrans; [exact H2|etrans; [exact H3|exact H4]]]|].
  unfold reachable. simpl in *. rewrite Hf2, lookup_insert_eq, Hid.
  split_and!; [done|lia|done|]. intros [=]; lia.
Qed.

End racing.

(** ** Witnesses *)

Lemma undisturbed_session_creates_witness :
  rtc (step demo_extension demo_stem 99 "mem.db")
    (mkSystem demo_os [Named "mem.17.0.db"; Begin 17])
    (mkSystem (mkOS (<["mem.17.0.db"%string := 2%nat]> (files demo_os)) ∅ 3)
       [Named "mem.17.0.db"; Opened (mkSegment MMF "mem.17.0.db" 2)]).
Proof.
  apply (undisturbed_session_creates demo_extension demo_stem 99 "mem.db" 5 4096 17 1 demo_os
    [Named "mem.17.0.db"; Begin 17] (mkSegment MMF "mem.17.0.db" 2)).
  - reflexivity.
  - vm_compute. reflexivity.
Defined.

Lemma racing_sessions_keep_files_witness :
  files demo_os !! "mem.17.0.db"%string = None ∧
  reachable (mkSegment MMF "mem.17.0.db" 2)
    (mkOS (<["mem.17.0.db"%string := 2%nat]> (files demo_os)) ∅ 3).
Proof.
  destruct (racing_sessions_keep_files demo_extension demo_stem 99 "mem.db" demo_os [18; 17]
    (mkSystem (mkOS (<["mem.17.0.db"%string := 2%nat]> (files demo_os)) ∅ 3)
       [Begin 18; Opened (mkSegment MMF "mem.17.0.db" 2)])) as [_ H].
  - apply (undisturbed_session_creates demo_extension demo_stem 99 "mem.db" 5 4096 17 1 demo_os
      [Begin 18; Begin 17] (mkSegment MMF "mem.17.0.db" 2)); [reflexivity|vm_compute; reflexivity].
  - destruct (H 1%nat (mkSegment MMF "mem.17.0.db" 2) eq_refl) as [Hn Hr]. split; [exact Hn|].
    apply Hr. intros [|[|j]] t Hj Ht; [injection Ht as <-|..]; done.
Defined.

Lemma racing_sessions_share_name_witness :
  ∃ s1 s2 o', rtc (step demo_extension demo_stem 99 "new.db") (start demo_os [17; 18])
      (mkSystem o' [Opened s1; Opened s2]) ∧
    s_name s1 = s_name s2 ∧ s_id s1 ≠ s_id s2 ∧ reachable s2 o' ∧ ¬ reachable s1 o'.
Proof. apply racing_sessions_share_name. vm_compute. reflexivity. Defined.

End Racing.
