(* ===== verification/Server.v ===== *)
(** * The server process

    src/memdb/memdb_server.cpp and src/memdb/memdb.cpp: the server accepts
    connections, each with a session of its own, and runs the handlers of all
    of them in a pool of threads.  A session has at most one read pending, so
    its handlers never overlap; those of different sessions interleave in any
    order.  A handler with undefined behaviour ends the whole process. *)
From S2P Require Import Prelude Boost TraceInfo Serialization Network Storage Session Creators.

Module Server.
Import Serialization Network Storage Session.

Section server.
Context {St : Type} `{MappedStorage St, AsioBuffer}.
Context (New : Z → St).

(** The connections, each with all the bytes its client sends; the session
    that waits to be accepted; the errors that were printed. *)
Record MemDBServer := mkServer {
  sv_sessions : list (bytes * connection St);
  sv_accepting : MemDBSession St;
  sv_errors : nat;
}.

Definition StartAccept (s : MemDBServer) : MemDBServer :=
  mkServer (sv_sessions s) newSession (sv_errors s).

(** [error] is the outcome of [async_accept], [wire] what the client sends. *)
Definition HandleAccept (session : MemDBSession St) (error : bool) (wire : bytes) (s : MemDBServer)
    : MemDBServer :=
  StartAccept
    (if error then mkServer (sv_sessions s) (sv_accepting s) (S (sv_errors s))
     else mkServer (sv_sessions s ++ [(wire, mkConnection Start session wire)])
            (sv_accepting s) (sv_errors s)).

(** The constructor. *)
Definition newServer : MemDBServer := StartAccept (mkServer [] newSession 0).

(** No handler has been in undefined behaviour. *)
Definition running (s : MemDBServer) : Prop :=
  Forall (λ p : bytes * connection St, ∀ f, c_status p.2 ≠ Crashed f) (sv_sessions s).

(** A handler runs: that of the acceptor, or that of a session. *)
Inductive server_step (s : MemDBServer) : MemDBServer → Prop :=
| step_accept error wire :
    running s → server_step s (HandleAccept (sv_accepting s) error wire s)
| step_session i wire c c' :
    running s → sv_sessions s !! i = Some (wire, c) → net_step New c c' →
    server_step s (mkServer (<[i := (wire, c')]> (sv_sessions s)) (sv_accepting s) (sv_errors s)).

End server.
Arguments MemDBServer : clear implicits.

(** ** The command line *)

(** What [boost::program_options] makes of the command line; the host, the
    port and the size have default values. *)
Record options := mkOptions {
  o_help : bool;
  o_shared_memory : option string;
  o_mapped_file : option string;
  o_size : Z;
  o_host : string;
  o_port : Z;
}.

(** The checks at the end of [parse_command_line_arguments]. *)
Definition check_arguments (o : options) : bool :=
  match o_shared_memory o, o_mapped_file o with
  | Some _, Some _ => false
  | _, _ => negb (o_help o)
  end.

Definition MEMHOOK_SHARED_MEMORY : string := "ShmMemHook".

Inductive exit_status := EXIT_SUCCESS | EXIT_FAILURE.

(** [main] until the threads run: the exit status, or the creator of the
    databases and the number of threads.  [listens] is whether the host and
    port can be resolved and bound; the constructor of the server throws
    otherwise. *)
Definition memdb_main (hardware_concurrency : nat) (listens : string → Z → bool) (o : options)
    : exit_status + Creators.BasicMappedStorageCreator * nat :=
  if check_arguments o then
    let storage_creator :=
      match o_mapped_file o with
      | Some file_path => Creators.NewMMFMappedStorageCreator file_path (o_size o)
      | None =>
          let name := match o_shared_memory o with
                      | Some name => name
                      | None => MEMHOOK_SHARED_MEMORY
                      end in
          Creators.NewSHMMappedStorageCreator name (o_size o)
      end in
    if listens (o_host o) (o_port o) then
      match hardware_concurrency with
      | O => inl EXIT_SUCCESS      (** [join_all] of no threads *)
      | n => inr (storage_creator, n)
      end
    else inl EXIT_FAILURE
  else inl EXIT_FAILURE.

(** When the server runs, and with which databases: the file that was named
    if there is one and no shared memory was named too, shared memory of the
    given name or of the default name otherwise.  Where the number of
    processors is not known no thread is started, and the server ends at once
    as if all were well. *)
Lemma memdb_main_spec n listens o :
  match memdb_main n listens o with
  | inr (c, threads) =>
      o_help o = false ∧ listens (o_host o) (o_port o) = true ∧ threads = n ∧ n ≠ 0%nat ∧
      c = match o_mapped_file o with
          | Some path => Creators.NewMMFMappedStorageCreator path (o_size o)
          | None => Creators.NewSHMMappedStorageCreator
                      (default MEMHOOK_SHARED_MEMORY (o_shared_memory o)) (o_size o)
          end ∧ ¬ (is_Some (o_mapped_file o) ∧ is_Some (o_shared_memory o))
  | inl EXIT_SUCCESS =>
      n = 0%nat ∧ o_help o = false ∧ listens (o_host o) (o_port o) = true
  | inl EXIT_FAILURE =>
      o_help o = true ∨ listens (o_host o) (o_port o) = false ∨
      is_Some (o_mapped_file o) ∧ is_Some (o_shared_memory o)
  end.
Proof.
  unfold memdb_main, check_arguments. destruct o as [[] [] [] size host port]; simpl;
    try destruct (listens host port); try destruct n; simpl; rewrite ?is_Some_alt; naive_solver.
Qed.

(** ** Lemmas *)

Section lemmas.
Context {St : Type} `{MappedStorage St, AsioBufferLaws}.
Context (New : Z → St).

(** Each connection by itself has run from its beginning. *)
Record server_inv (s : MemDBServer St) : Prop := {
  si_accepting : sv_accepting s = newSession;
  si_sessions i wire c : sv_sessions s !! i = Some (wire, c) →
    rtc (net_step New) (open_connection wire) c;
}.

Lemma server_step_inv s s' : server_inv s → server_step New s s' → server_inv s'.
Proof.
  intros [Ha Hs] Hstep. destruct Hstep as [error wire Hrun|i wire c c' Hrun Hi Hc].
  - split; [done|]. destruct error; [done|]. simpl. intros i wire' c Hl.
    apply lookup_app_Some in Hl as [Hl|[_ Hl]]; [by eapply Hs|].
    apply list_lookup_singleton_Some in Hl as [_ [= <- <-]]. by rewrite Ha.
  - split; [done|]. simpl. intros j wire' c'' Hl. destruct (decide (j = i)) as [->|Hne].
    + rewrite list_lookup_insert_eq in Hl by (by eapply lookup_lt_Some). injection Hl as <- <-.
      eapply rtc_r; [by eapply Hs|done].
    + rewrite list_lookup_insert_ne in Hl by done. by eapply Hs.
Qed.

Lemma server_reachable_inv s : rtc (server_step New) newServer s → server_inv s.
Proof.
  intros Hr. eapply (rtc_ind_r server_inv newServer);
    [|intros ? ? _ Hstep Hinv; by eapply server_step_inv|exact Hr].
  split; [done|]. intros i wire c Hl. simpl in Hl. by rewrite lookup_nil in Hl.
Qed.

(** A connection that is served well does not stop the server. *)
Lemma running_insert (s : MemDBServer St) i wire c :
  running s → (∀ f, c_status c ≠ Crashed f) →
  running (mkServer (<[i := (wire, c)]> (sv_sessions s)) (sv_accepting s) (sv_errors s)).
Proof. intros Hr Hc. by apply Forall_insert. Qed.

(** Steps of a connection are steps of the server. *)
Lemma server_lifts reqs st' s i wire c c' :
  Forall request_ok reqs → serve New reqs None = Some st' → connection_inv New reqs c →
  running s → sv_sessions s !! i = Some (wire, c) → rtc (net_step New) c c' →
  rtc (server_step New) s
    (mkServer (<[i := (wire, c')]> (sv_sessions s)) (sv_accepting s) (sv_errors s)).
Proof.
  intros Hok Hst Hinv Hrun Hi Hc. revert s Hrun Hi.
  induction Hc as [c|c c1 c2 Hstep Hc IH]; intros s Hrun Hi.
  - rewrite list_insert_id by done. destruct s. apply rtc_refl.
  - pose proof (net_step_inv New reqs st' c c1 Hok Hst Hinv Hstep) as Hinv1.
    eapply rtc_l; [by eapply step_session|].
    assert (∀ f, c_status c1 ≠ Crashed f) as Hnc by by destruct Hinv1.
    specialize (IH Hinv1 _ (running_insert s i wire c1 Hrun Hnc)). simpl in IH.
    rewrite list_insert_insert_eq in IH. apply IH.
    rewrite list_lookup_insert_eq; [done|]. by eapply lookup_lt_Some.
Qed.

(** ** Properties *)


(** One client stops the server for all of them: a client that sends an
    update before it has opened a database. *)
Theorem bad_client_stops_server s r :
  running s → sv_accepting s = newSession → request_ok r →
  type r ∈ [kNetReqAdd; kNetReqRemove; kNetReqUpdateSize] →
  ∃ s', rtc (server_step New) s s' ∧ length (sv_sessions s') = S (length (sv_sessions s)) ∧
    ∀ s'', ¬ server_step New s' s''.
Proof.
  intros Hrun Ha Hr Ht. set (wire := frame r).
  pose proof (update_before_open_crashes New r [] Hr Ht) as Hcrash. rewrite app_nil_r in Hcrash.
  destruct (OnReadComplete New CbParseOutbound no_error (mkSession (frame r) None))
    as [st ss] eqn:Hread. simpl in Hcrash. subst st.
  set (s1 := HandleAccept (sv_accepting s) false wire s).
  set (c' := mkConnection (Crashed NullStorage) ss (drop (length wire) wire)).
  set (s2 := mkServer (<[length (sv_sessions s) := (wire, c')]> (sv_sessions s1))
    (sv_accepting s1) (sv_errors s1)).
  assert (sv_sessions s1 !! length (sv_sessions s) = Some (wire, mkConnection Start newSession wire)) as Hl.
  { simpl. rewrite Ha. by rewrite lookup_app_r, Nat.sub_diag by lia. }
  exists s2. split_and!.
  - eapply rtc_l; [by apply (step_accept New s false wire)|]. apply rtc_once.
    eapply step_session; [|exact Hl|].
    + simpl. apply Forall_app. split; [done|]. by constructor.
    + apply net_read.
      * simpl. unfold wire, frame. rewrite length_app, length_enc_outbound.
        unfold sizeof_NetProtoOutbound. lia.
      * done.
      * unfold receive. simpl. by rewrite take_ge.
  - simpl. by rewrite length_insert, length_app, Nat.add_comm.
  - assert (¬ running s2) as Hnot.
    { intros Hrun2. unfold running in Hrun2. rewrite Forall_lookup in Hrun2.
      destruct (Hrun2 (length (sv_sessions s)) (wire, c')) with NullStorage; [|done].
      simpl. rewrite list_lookup_insert_eq; [done|]. by eapply lookup_lt_Some. }
    intros s'' Hstep. by destruct Hstep.
Qed.

End lemmas.

(** ** Examples *)

(** A server with two clients, the first of which has been served in part. *)
Definition demo_server : MemDBServer (BasicMappedStorage ref_index) :=
  mkServer [(stream demo_requests, demo_connection 60); ([1; 2; 3], open_connection [1; 2; 3])]
    newSession 1.

Lemma demo_clients_reachable : rtc (server_step demo_New) newServer demo_server.
Proof.
  eapply rtc_l; [apply (step_accept demo_New _ false (stream demo_requests)); constructor|].
  eapply rtc_l; [apply (step_accept demo_New _ true []); by repeat constructor|].
  eapply rtc_l; [apply (step_accept demo_New _ false [1; 2; 3]); by repeat constructor|].
  apply rtc_once. apply (step_session demo_New
    (mkServer [(stream demo_requests, open_connection (stream demo_requests));
               ([1; 2; 3], open_connection [1; 2; 3])] newSession 1)
    0 (stream demo_requests) (open_connection (stream demo_requests)) (demo_connection 60));
    [by repeat constructor|done|].
  apply net_read; [vm_compute; discriminate|vm_compute; lia|apply surjective_pairing].
Qed.

Lemma demo_server_running : running demo_server.
Proof.
  constructor; [|by constructor]. intros f.
  assert (c_status (demo_connection 60) = Reading (transfer_exactly 63) CbParseInbound) as Hs
    by (vm_compute; reflexivity).
  cbn [snd]. by rewrite Hs.
Qed.


Lemma bad_client_stops_server_witness :
  ∃ s', rtc (server_step demo_New) demo_server s' ∧ length (sv_sessions s') = 3%nat ∧
    ∀ s'', ¬ server_step demo_New s' s''.
Proof.
  apply (bad_client_stops_server demo_New demo_server (newRequest kNetReqRemove 4096 0 0 []));
    [exact demo_server_running|reflexivity|by_decide|by_decide].
Defined.

End Server.
