(* ===== verification/Pool.v ===== *)
(** * The server's threads

    src/memdb/memdb.cpp runs the handlers of src/memdb/memdb_server.cpp and
    memdb_session.cpp on a pool of threads, each of which calls
    [io_service::run], until a signal stops the service and [main] has joined
    all of them.

    Here a handler is several steps of the thread that runs it: the thread
    takes the handler of a completed operation out of the queue, runs its
    body, and starts the next operation; other threads run in between.  The
    machine of file [Server], in which a handler is one step, is the
    specification: the pool refines it. *)
From S2P Require Import Prelude Boost TraceInfo Serialization Network Storage Session Creators Server.

Module Pool.
Import Serialization Network Storage Session Server.

Section pool.
Context {St : Type} `{MappedStorage St, AsioBuffer}.
Context (New : Z → St).

(** ** The state *)

(** The asynchronous read of a session: under way; completed, with the handler
    in the queue; the handler has been taken by a thread; there is none, and
    no handler that holds on to the session. *)
Inductive operation :=
| Pending (c : completion) (cb : callback)
| Ready (cb : callback) (e : error_code)
| Taken
| NoOperation.

(** A session, with all its client sends and what is still on the way. *)
Record slot := mkSlot {
  sl_sent : bytes;
  sl_op : operation;
  sl_session : MemDBSession St;
  sl_wire : bytes;
}.

(** The asynchronous accept, with the session it is for. *)
Inductive acceptance :=
| AcceptPending (session : MemDBSession St)
| AcceptReady (session : MemDBSession St) (error : bool) (wire : bytes)
| AcceptTaken.

(** [signals.async_wait]: it is started once. *)
Inductive signal_wait := SignalPending | SignalReady | SignalTaken.

(** A thread: between handlers; in [OnReadComplete], before and after the
    callback; in [HandleAccept], before and after the session is started; in
    [io_service::stop]; returned from [io_service::run]. *)
Inductive thread :=
| Idle
| InRead (i : nat) (cb : callback) (e : error_code)
| AfterRead (i : nat) (st : status)
| InAccept (session : MemDBSession St) (error : bool) (wire : bytes)
| AfterAccept
| InStop
| Returned.

Record pool := mkPool {
  p_slots : list slot;
  p_accept : acceptance;
  p_errors : nat;
  p_signals : signal_wait;
  p_stopped : bool;
  p_threads : list thread;
}.

(** Undefined behaviour ends the process. *)
Inductive process := Running (p : pool) | Terminated.

Definition set_op (op : operation) (sl : slot) : slot :=
  mkSlot (sl_sent sl) op (sl_session sl) (sl_wire sl).
Definition set_slot (i : nat) (sl : slot) (p : pool) : pool :=
  mkPool (<[i := sl]> (p_slots p)) (p_accept p) (p_errors p) (p_signals p) (p_stopped p) (p_threads p).
Definition set_accept (a : acceptance) (p : pool) : pool :=
  mkPool (p_slots p) a (p_errors p) (p_signals p) (p_stopped p) (p_threads p).
Definition set_signals (s : signal_wait) (p : pool) : pool :=
  mkPool (p_slots p) (p_accept p) (p_errors p) s (p_stopped p) (p_threads p).
Definition set_thread (j : nat) (t : thread) (p : pool) : pool :=
  mkPool (p_slots p) (p_accept p) (p_errors p) (p_signals p) (p_stopped p) (<[j := t]> (p_threads p)).

(** ** The operations *)

(** [main]: the constructor of the server, which starts the first accept,
    [signals.async_wait], and [create_thread] for each processor. *)
Definition start_pool (threads : nat) : pool :=
  mkPool [] (AcceptPending newSession) 0 SignalPending false (replicate threads Idle).

(** [async_read]; a session without one is released by the last handler. *)
Definition initiate (st : status) : operation :=
  match st with Reading c cb => Pending c cb | _ => NoOperation end.

(** [session->Start ()] in [HandleAccept], or the error message. *)
Definition start_session (session : MemDBSession St) (error : bool) (wire : bytes) (p : pool) : pool :=
  if error then
    mkPool (p_slots p) (p_accept p) (S (p_errors p)) (p_signals p) (p_stopped p) (p_threads p)
  else
    mkPool (p_slots p ++ [mkSlot wire (initiate Start) session wire]) (p_accept p) (p_errors p)
      (p_signals p) (p_stopped p) (p_threads p).

(** [StartAccept] *)
Definition restart_accept (p : pool) : pool := set_accept (AcceptPending newSession) p.

(** [io_service::stop] *)
Definition stop (p : pool) : pool :=
  mkPool (p_slots p) (p_accept p) (p_errors p) (p_signals p) true (p_threads p).

(** What the network and the user do: a read completes, with the bytes in the
    stream buffer of its session; a client connects; a signal arrives. *)
Inductive event_step (p : pool) : pool → Prop :=
| ev_read i sl c cb k :
    p_slots p !! i = Some sl → sl_op sl = Pending c cb →
    completes c k → (k ≤ length (sl_wire sl))%nat →
    event_step p (set_slot i (mkSlot (sl_sent sl) (Ready cb no_error)
      (receive (take k (sl_wire sl)) (sl_session sl)) (drop k (sl_wire sl))) p)
| ev_eof i sl c cb :
    p_slots p !! i = Some sl → sl_op sl = Pending c cb → Z.of_nat (length (sl_wire sl)) < needs c →
    event_step p (set_slot i (mkSlot (sl_sent sl) (Ready cb eof)
      (receive (sl_wire sl) (sl_session sl)) []) p)
| ev_connect session error wire :
    p_accept p = AcceptPending session →
    event_step p (set_accept (AcceptReady session error wire) p)
| ev_signal :
    p_signals p = SignalPending → event_step p (set_signals SignalReady p).

(** A step of thread [j].  Handlers are taken while the service is not
    stopped; a thread that finds it stopped returns. *)
Inductive thread_step (j : nat) (p : pool) : process → Prop :=
| th_take_read i sl cb e :
    p_stopped p = false → p_threads p !! j = Some Idle →
    p_slots p !! i = Some sl → sl_op sl = Ready cb e →
    thread_step j p (Running (set_thread j (InRead i cb e) (set_slot i (set_op Taken sl) p)))
| th_callback i cb e sl st session :
    p_threads p !! j = Some (InRead i cb e) → p_slots p !! i = Some sl →
    OnReadComplete New cb e (sl_session sl) = (st, session) → (∀ f, st ≠ Crashed f) →
    thread_step j p (Running (set_thread j (AfterRead i st)
      (set_slot i (mkSlot (sl_sent sl) (sl_op sl) session (sl_wire sl)) p)))
| th_crash i cb e sl f session :
    p_threads p !! j = Some (InRead i cb e) → p_slots p !! i = Some sl →
    OnReadComplete New cb e (sl_session sl) = (Crashed f, session) →
    thread_step j p Terminated
| th_initiate i st sl :
    p_threads p !! j = Some (AfterRead i st) → p_slots p !! i = Some sl →
    thread_step j p (Running (set_thread j Idle (set_slot i (set_op (initiate st) sl) p)))
| th_take_accept session error wire :
    p_stopped p = false → p_threads p !! j = Some Idle →
    p_accept p = AcceptReady session error wire →
    thread_step j p (Running (set_thread j (InAccept session error wire) (set_accept AcceptTaken p)))
| th_start session error wire :
    p_threads p !! j = Some (InAccept session error wire) →
    thread_step j p (Running (set_thread j AfterAccept (start_session session error wire p)))
| th_restart :
    p_threads p !! j = Some AfterAccept →
    thread_step j p (Running (set_thread j Idle (restart_accept p)))
| th_take_signal :
    p_stopped p = false → p_threads p !! j = Some Idle → p_signals p = SignalReady →
    thread_step j p (Running (set_thread j InStop (set_signals SignalTaken p)))
| th_stop :
    p_threads p !! j = Some InStop → thread_step j p (Running (set_thread j Idle (stop p)))
| th_return :
    p_stopped p = true → p_threads p !! j = Some Idle →
    thread_step j p (Running (set_thread j Returned p)).

Inductive process_step : process → process → Prop :=
| ps_event p p' : event_step p p' → process_step (Running p) (Running p')
| ps_thread j p π : thread_step j p π → process_step (Running p) π.

(** [tg.join_all ()] and the end of [main]. *)
Definition main_returns (p : pool) : option exit_status :=
  if forallb (λ t, match t with Returned => true | _ => false end) (p_threads p)
  then Some EXIT_SUCCESS else None.

End pool.
Arguments thread : clear implicits.
Arguments slot : clear implicits.
Arguments pool : clear implicits.
Arguments process : clear implicits.
Arguments acceptance : clear implicits.

(** ** Handlers do not overlap *)

(** What a thread works on in a handler, and whether the handler of a resource
    has been taken. *)
Inductive resource := RSession (i : nat) | RAcceptor | RSignals.

#[export] Instance resource_eq_dec : EqDecision resource.
Proof. solve_decision. Defined.

Section lemmas.
Context {St : Type} `{MappedStorage St, AsioBuffer}.
Context (New : Z → St).

Definition owner (t : thread St) : option resource :=
  match t with
  | InRead i _ _ | AfterRead i _ => Some (RSession i)
  | InAccept _ _ _ | AfterAccept => Some RAcceptor
  | InStop => Some RSignals
  | Idle | Returned => None
  end.

Definition taken (p : pool St) (r : resource) : Prop :=
  match r with
  | RSession i => ∃ sl, p_slots p !! i = Some sl ∧ sl_op sl = Taken
  | RAcceptor => p_accept p = AcceptTaken
  | RSignals => p_signals p = SignalTaken
  end.

(** Who works on a resource has taken it, and nobody else works on it. *)
Record exclusive (ths : list (thread St)) (tk : resource → Prop) : Prop := {
  ex_taken j t r : ths !! j = Some t → owner t = Some r → tk r;
  ex_unique j1 j2 t1 t2 r : ths !! j1 = Some t1 → ths !! j2 = Some t2 →
    owner t1 = Some r → owner t2 = Some r → j1 = j2;
}.

(** A step of thread [j], which may take a free resource or give up its own. *)
Lemma exclusive_step ths j t t' (tk tk' : resource → Prop) :
  exclusive ths tk → ths !! j = Some t →
  (∀ r, tk r → tk' r ∨ owner t = Some r ∧ owner t' = None) →
  (∀ r, owner t' = Some r → tk' r ∧ (owner t = Some r ∨ ¬ tk r)) →
  exclusive (<[j := t']> ths) tk'.
Proof.
  intros [Ht Hu] Hj Hkeep Hown. pose proof (lookup_lt_Some _ _ _ Hj) as Hlt.
  assert (∀ k u r, <[j := t']> ths !! k = Some u → owner u = Some r →
    (k = j ∧ owner t' = Some r) ∨ (k ≠ j ∧ ths !! k = Some u)) as Hcase.
  { intros k u r Hk Hr. destruct (decide (k = j)) as [->|Hne].
    - rewrite list_lookup_insert_eq in Hk by done. simplify_eq. by left.
    - rewrite list_lookup_insert_ne in Hk by done. by right. }
  assert (∀ k u r, k ≠ j → ths !! k = Some u → owner u = Some r → owner t' ≠ Some r) as Hother.
  { intros k u r Hne Hk Hr Hr'. destruct (Hown r Hr') as [_ [Hr2|Hn]]; [|by eapply Hn, Ht].
    by eapply Hne, Hu. }
  split.
  - intros k u r Hk Hr. destruct (Hcase k u r Hk Hr) as [[-> Hr']|[Hne Hk']]; [by apply Hown|].
    destruct (Hkeep r) as [?|[Hr2 _]]; [by eapply Ht|done|].
    exfalso. by eapply Hne, Hu.
  - intros k1 k2 u1 u2 r H1 H2 Hr1 Hr2.
    destruct (Hcase k1 u1 r H1 Hr1) as [[-> Ho1]|[Hn1 Hk1]];
      destruct (Hcase k2 u2 r H2 Hr2) as [[-> Ho2]|[Hn2 Hk2]].
    + done.
    + by destruct (Hother k2 u2 r Hn2 Hk2 Hr2).
    + by destruct (Hother k1 u1 r Hn1 Hk1 Hr1).
    + by eapply Hu.
Qed.

(** A change that takes nothing away from a thread. *)
Lemma exclusive_mono ths (tk tk' : resource → Prop) :
  exclusive ths tk → (∀ r, tk r → tk' r) → exclusive ths tk'.
Proof. intros [Ht Hu] Hm. split; [|done]. intros j t r Hj Hr. by eapply Hm, Ht. Qed.

(** Slots of other sessions keep their state. *)
Lemma taken_insert (p : pool St) i sl sl' r :
  p_slots p !! i = Some sl → (sl_op sl = Taken → sl_op sl' = Taken) →
  taken p r → taken (set_slot i sl' p) r.
Proof.
  intros Hi Hop. destruct r as [i'| |]; simpl; [|done..]. intros (sl0 & Hsl & Ht).
  destruct (decide (i' = i)) as [->|Hne].
  - exists sl'. rewrite list_lookup_insert_eq by (by eapply lookup_lt_Some). naive_solver.
  - exists sl0. by rewrite list_lookup_insert_ne.
Qed.

Lemma event_exclusive p p' :
  event_step p p' → exclusive (p_threads p) (taken p) → exclusive (p_threads p') (taken p').
Proof.
  intros Hstep Hex. destruct Hstep as [i sl c cb k Hi Hop _ _|i sl c cb Hi Hop _|? ? ? Ha|Hs];
    (eapply exclusive_mono; [exact Hex|]).
  - intros r. apply (taken_insert _ _ sl); [done|]. by rewrite Hop.
  - intros r. apply (taken_insert _ _ sl); [done|]. by rewrite Hop.
  - intros []; simpl; congruence.
  - intros []; simpl; congruence.
Qed.

Lemma start_session_threads session error wire (p : pool St) :
  p_threads (start_session session error wire p) = p_threads p.
Proof. by destruct error. Qed.

Lemma thread_exclusive j p p' :
  thread_step New j p (Running p') →
  exclusive (p_threads p) (taken p) → exclusive (p_threads p') (taken p').
Proof.
  intros Hstep Hex. inversion Hstep as
    [i sl cb e Hs Hj Hi Hop|i cb e sl st session Hj Hi Hc Hn|i cb e sl f session Hj Hi Hc
    |i st sl Hj Hi|session error wire Hs Hj Ha|session error wire Hj|Hj|Hs Hj Hsg|Hj|Hs Hj];
    subst; simpl; rewrite ?start_session_threads; (eapply exclusive_step; [exact Hex|exact Hj|..]).
  - intros r Hr. left. exact (taken_insert p i sl (set_op Taken sl) r Hi (λ _, eq_refl) Hr).
  - simpl. intros ? [= <-]. split.
    + exists (set_op Taken sl). simpl. by rewrite list_lookup_insert_eq by (by eapply lookup_lt_Some).
    + right. intros (sl' & Hi' & Ht). congruence.
  - intros r Hr. left.
    exact (taken_insert p i sl (mkSlot (sl_sent sl) (sl_op sl) session (sl_wire sl)) r Hi id Hr).
  - simpl. intros ? [= <-]. split; [|by left].
    destruct (ex_taken _ _ Hex j _ (RSession i) Hj eq_refl) as (sl' & Hi' & Ht). simplify_eq.
    eexists. simpl. by rewrite list_lookup_insert_eq by (by eapply lookup_lt_Some).
  - intros [i'| |] Hr; simpl in *; [|by left..]. destruct Hr as (sl' & Hi' & Ht).
    destruct (decide (i' = i)) as [->|Hne]; [by right|]. left. exists sl'.
    by rewrite list_lookup_insert_ne.
  - done.
  - intros [] Hr; simpl in *; [by left|congruence|by left].
  - simpl. intros ? [= <-]. split; [done|]. right. simpl. congruence.
  - intros r Hr. left. unfold start_session. destruct error; [done|]. destruct r; [|done..].
    destruct Hr as (sl & Hi & Ht). exists sl. simpl. split; [|done]. by apply lookup_app_l_Some.
  - simpl. intros ? [= <-]. split; [|by left].
    pose proof (ex_taken _ _ Hex j _ RAcceptor Hj eq_refl) as Ht. unfold start_session.
    by destruct error.
  - intros [] Hr; simpl in *; [by left|by right|by left].
  - done.
  - intros [] Hr; simpl in *; [by left|by left|congruence].
  - simpl. intros ? [= <-]. split; [done|]. right. simpl. congruence.
  - intros [] Hr; simpl in *; by left.
  - done.
  - intros [] Hr; simpl in *; by left.
  - done.
Qed.

Lemma start_exclusive n : exclusive (replicate n Idle) (taken (start_pool n)).
Proof.
  split; [intros j t r Hj|intros j1 j2 t1 t2 r Hj _]; apply lookup_replicate in Hj as [-> _]; done.
Qed.

(** ** The pool refines the serial server *)

(** A read of the connection [c] has completed as the slot says: whatever the
    handler makes of it is a step of the connection. *)
Definition delivered (cb : callback) (e : error_code) (sl : slot St) (c : connection St) : Prop :=
  ∀ st session, OnReadComplete New cb e (sl_session sl) = (st, session) →
    net_step New c (mkConnection st session (sl_wire sl)).

(** The connection a slot stands for, as far as no thread works on it. *)
Definition slot_sim (sl : slot St) (x : bytes * connection St) : Prop :=
  sl_sent sl = x.1 ∧ storage_ (sl_session sl) = storage_ (c_session x.2) ∧
  match sl_op sl with
  | Pending c cb => x.2 = mkConnection (Reading c cb) (sl_session sl) (sl_wire sl)
  | Ready cb e => delivered cb e sl x.2
  | Taken => True
  | NoOperation => c_status x.2 = Closed
  end.

(** What a thread knows of the connection it works on. *)
Definition thread_sim (p : pool St) (s : MemDBServer St) (t : thread St) : Prop :=
  match t with
  | InRead i cb e => ∃ sl x, p_slots p !! i = Some sl ∧ sv_sessions s !! i = Some x ∧
      delivered cb e sl x.2
  | AfterRead i st => ∃ sl x, p_slots p !! i = Some sl ∧ sv_sessions s !! i = Some x ∧
      x.2 = mkConnection st (sl_session sl) (sl_wire sl) ∧ ∀ f, st ≠ Crashed f
  | InAccept session _ _ => session = newSession
  | _ => True
  end.

Definition accept_new (a : acceptance St) : Prop :=
  match a with
  | AcceptPending session | AcceptReady session _ _ => session = newSession
  | AcceptTaken => True
  end.

Record sim (p : pool St) (s : MemDBServer St) : Prop := {
  sim_exclusive : exclusive (p_threads p) (taken p);
  sim_accept : accept_new (p_accept p);
  sim_accepting : sv_accepting s = newSession;
  sim_errors : sv_errors s = p_errors p;
  sim_running : running s;
  sim_slots : Forall2 slot_sim (p_slots p) (sv_sessions s);
  sim_threads j t : p_threads p !! j = Some t → thread_sim p s t;
}.

(** A serial server in which the connection [i] has moved. *)
Definition set_session (i : nat) (x : bytes * connection St) (s : MemDBServer St) : MemDBServer St :=
  mkServer (<[i := x]> (sv_sessions s)) (sv_accepting s) (sv_errors s).

(** Threads that work on something else do not notice. *)
Lemma thread_sim_other p p' s s' i t :
  thread_sim p s t → owner t ≠ Some (RSession i) →
  (∀ k, k ≠ i → p_slots p' !! k = p_slots p !! k) →
  (∀ k, k ≠ i → sv_sessions s' !! k = sv_sessions s !! k) → thread_sim p' s' t.
Proof.
  intros Ht Ho Hp Hs. destruct t as [|k cb e|k st|session error wire| | |]; simpl in *; try done.
  - destruct (decide (k = i)) as [->|Hne]; [done|]. by rewrite Hp, Hs.
  - destruct (decide (k = i)) as [->|Hne]; [done|]. by rewrite Hp, Hs.
Qed.

Lemma not_taken_no_owner p j t i sl :
  exclusive (p_threads p) (taken p) → p_threads p !! j = Some t →
  p_slots p !! i = Some sl → sl_op sl ≠ Taken → owner t ≠ Some (RSession i).
Proof. intros Hex Hj Hi Hop Ho. destruct (ex_taken _ _ Hex _ _ _ Hj Ho) as (sl' & ? & ?). congruence. Qed.

Lemma slot_session p s i sl :
  sim p s → p_slots p !! i = Some sl → ∃ x, sv_sessions s !! i = Some x ∧ slot_sim sl x.
Proof. intros Hs Hi. by eapply Forall2_lookup_l; [apply (sim_slots _ _ Hs)|]. Qed.

(** An event changes a slot that nobody works on, and no connection. *)
Lemma sim_event_slot p s i sl sl' x :
  sim p s → p_slots p !! i = Some sl → sl_op sl ≠ Taken →
  sv_sessions s !! i = Some x → slot_sim sl' x →
  event_step p (set_slot i sl' p) → sim (set_slot i sl' p) s.
Proof.
  intros Hs Hi Hop Hx Hsim Hstep. split; try by destruct Hs.
  - eapply event_exclusive; [exact Hstep|]. apply Hs.
  - simpl. rewrite <- (list_insert_id _ _ _ Hx). by apply Forall2_insert; [apply Hs|].
  - simpl. intros j t Hj. eapply (thread_sim_other p _ s s i); [by eapply sim_threads| | |done].
    + by eapply not_taken_no_owner; [apply Hs|..].
    + intros k Hk. simpl. by rewrite list_lookup_insert_ne.
Qed.

Lemma sim_event p p' s : event_step p p' → sim p s → sim p' s.
Proof.
  intros Hstep Hs. pose proof Hstep as Hstep'.
  destruct Hstep as [i sl c cb k Hi Hop Hc Hk|i sl c cb Hi Hop Hlt|session error wire Ha|Hsg].
  - destruct (slot_session _ _ _ _ Hs Hi) as (x & Hx & Hsent & Hst & Hsl). rewrite Hop in Hsl.
    apply (sim_event_slot p s i sl _ x); [done|done|by rewrite Hop|done| |done].
    split; [done|]. split; [done|]. intros st session Hr. rewrite Hsl. by eapply net_read.
  - destruct (slot_session _ _ _ _ Hs Hi) as (x & Hx & Hsent & Hst & Hsl). rewrite Hop in Hsl.
    apply (sim_event_slot p s i sl _ x); [done|done|by rewrite Hop|done| |done].
    split; [done|]. split; [done|]. intros st session Hr. rewrite Hsl. by eapply net_eof.
  - pose proof (sim_accept _ _ Hs) as Hnew. rewrite Ha in Hnew.
    split; try by destruct Hs. eapply event_exclusive; [done|apply Hs].
  - split; try by destruct Hs. eapply event_exclusive; [done|apply Hs].
Qed.

(** A thread changes the slot of a session no other thread works on. *)
Lemma sim_thread_slot j p s i t' sl' x' :
  let p' := set_thread j t' (set_slot i sl' p) in
  let s' := set_session i x' s in
  sim p s → thread_step New j p (Running p') →
  (∀ k u, k ≠ j → p_threads p !! k = Some u → owner u ≠ Some (RSession i)) →
  slot_sim sl' x' → running s' → thread_sim p' s' t' → sim p' s'.
Proof.
  intros p' s' Hs Hstep Hother Hsl Hrun Ht'. split; try by destruct Hs.
  - by eapply thread_exclusive; [|apply Hs].
  - by apply Forall2_insert; [apply Hs|].
  - intros k u Hk. simpl in Hk. apply list_lookup_insert_Some in Hk as [(-> & <- & _)|[Hne Hk]]; [done|].
    eapply (thread_sim_other p p' s s' i); [by eapply sim_threads|by apply (Hother k)|..];
      intros l Hl; simpl; by rewrite list_lookup_insert_ne.
Qed.

(** A thread takes or finishes a handler that is not one of a session. *)
Lemma sim_thread_only j p p' s t' :
  sim p s → thread_step New j p (Running p') →
  p_slots p' = p_slots p → p_errors p' = p_errors p → p_threads p' = <[j := t']> (p_threads p) →
  accept_new (p_accept p') → thread_sim p s t' → sim p' s.
Proof.
  intros Hs Hstep Hsl He Hth Ha Ht'. split; try by destruct Hs.
  - by eapply thread_exclusive; [|apply Hs].
  - rewrite He. by destruct Hs.
  - rewrite Hsl. by destruct Hs.
  - assert (∀ t, thread_sim p s t → thread_sim p' s t) as Hsame.
    { intros []; simpl; by rewrite ?Hsl. }
    intros k u Hk. rewrite Hth in Hk. apply Hsame.
    apply list_lookup_insert_Some in Hk as [(-> & <- & _)|[_ Hk]]; [done|by eapply sim_threads].
Qed.

Lemma set_session_id i x (s : MemDBServer St) : sv_sessions s !! i = Some x → set_session i x s = s.
Proof. intros Hx. unfold set_session. rewrite list_insert_id by done. by destruct s. Qed.

Lemma owner_alone p s j t i k u :
  sim p s → p_threads p !! j = Some t → owner t = Some (RSession i) →
  k ≠ j → p_threads p !! k = Some u → owner u ≠ Some (RSession i).
Proof. intros Hs Hj Ho Hne Hk Hu. apply Hne. by eapply ex_unique; [apply Hs|..]. Qed.

Lemma sim_take_read j p s i sl cb e :
  let p' := set_thread j (InRead i cb e) (set_slot i (set_op Taken sl) p) in
  sim p s → thread_step New j p (Running p') →
  p_slots p !! i = Some sl → sl_op sl = Ready cb e → sim p' s.
Proof.
  intros p' Hs Hstep Hi Hop. destruct (slot_session _ _ _ _ Hs Hi) as (x & Hx & Hsent & Hst & Hd).
  rewrite Hop in Hd. rewrite <- (set_session_id _ _ _ Hx).
  pose proof (lookup_lt_Some _ _ _ Hi). pose proof (lookup_lt_Some _ _ _ Hx).
  apply sim_thread_slot; [done|done| |done|by rewrite set_session_id by done; apply Hs|].
  - intros k u _ Hk. by eapply not_taken_no_owner; [apply Hs| | |rewrite Hop].
  - exists (set_op Taken sl), x. simpl. by rewrite !list_lookup_insert_eq by done.
Qed.

Lemma sim_callback j p s i sl cb e st session :
  let p' := set_thread j (AfterRead i st)
              (set_slot i (mkSlot (sl_sent sl) (sl_op sl) session (sl_wire sl)) p) in
  sim p s → thread_step New j p (Running p') →
  p_threads p !! j = Some (InRead i cb e) → p_slots p !! i = Some sl →
  OnReadComplete New cb e (sl_session sl) = (st, session) → (∀ f, st ≠ Crashed f) →
  ∃ s', server_step New s s' ∧ sim p' s'.
Proof.
  intros p' Hs Hstep Hj Hi Hr Hn.
  destruct (slot_session _ _ _ _ Hs Hi) as ([wire c] & Hx & Hsent & Hst & _).
  destruct (sim_threads _ _ Hs _ _ Hj) as (sl0 & x0 & Hi0 & Hx0 & Hd). simplify_eq/=.
  pose proof (Hd _ _ Hr) as Hnet.
  destruct (ex_taken _ _ (sim_exclusive _ _ Hs) _ _ _ Hj eq_refl) as (sl1 & Hi1 & Htaken). simplify_eq.
  pose proof (lookup_lt_Some _ _ _ Hi). pose proof (lookup_lt_Some _ _ _ Hx).
  set (c' := mkConnection st session (sl_wire sl)).
  exists (set_session i (sl_sent sl, c') s). split.
  { by eapply step_session; [apply Hs|exact Hx|]. }
  apply sim_thread_slot; [done|done| | |by apply running_insert; [apply Hs|]|].
  - intros k u Hne Hk. exact (owner_alone p s j _ i k u Hs Hj eq_refl Hne Hk).
  - split; [done|]. split; [done|]. simpl. by rewrite Htaken.
  - eexists _, _. simpl. by rewrite !list_lookup_insert_eq by done.
Qed.

Lemma sim_initiate j p s i st sl :
  let p' := set_thread j Idle (set_slot i (set_op (initiate st) sl) p) in
  sim p s → thread_step New j p (Running p') →
  p_threads p !! j = Some (AfterRead i st) → p_slots p !! i = Some sl → sim p' s.
Proof.
  intros p' Hs Hstep Hj Hi. destruct (slot_session _ _ _ _ Hs Hi) as (x & Hx & Hsent & Hst & _).
  destruct (sim_threads _ _ Hs _ _ Hj) as (sl0 & x0 & Hi0 & Hx0 & Hc & Hn). simplify_eq.
  rewrite <- (set_session_id _ _ _ Hx).
  apply sim_thread_slot; [done|done| | |by rewrite set_session_id by done; apply Hs|done].
  - intros k u Hne Hk. exact (owner_alone p s j _ i k u Hs Hj eq_refl Hne Hk).
  - split; [done|]. split; [done|]. simpl. destruct st as [c cb| |f]; simpl; [done|by rewrite Hc|].
    by destruct (Hn f).
Qed.

Lemma sim_start j p s session error wire :
  let p' := set_thread j AfterAccept (start_session session error wire p) in
  sim p s → thread_step New j p (Running p') → p_threads p !! j = Some (InAccept session error wire) →
  ∃ s', server_step New s s' ∧ sim p' s'.
Proof.
  intros p' Hs Hstep Hj. exists (HandleAccept (sv_accepting s) error wire s).
  split; [apply step_accept, Hs|]. pose proof (sim_threads _ _ Hs _ _ Hj) as Hnew. simpl in Hnew. subst.
  assert (Forall2 slot_sim (p_slots p') (sv_sessions (HandleAccept (sv_accepting s) error wire s))) as Hsl.
  { destruct error; simpl; [apply Hs|]. apply Forall2_app; [apply Hs|]. constructor; [|done].
    split; [done|]. split; simpl; by rewrite (sim_accepting _ _ Hs). }
  split.
  - by eapply thread_exclusive; [|apply Hs].
  - destruct Hs. by destruct error.
  - by destruct error.
  - unfold p'. destruct error; simpl; by rewrite (sim_errors _ _ Hs).
  - destruct Hs. destruct error; [done|]. apply Forall_app. split; [done|]. by constructor.
  - done.
  - intros k u Hk. simpl in Hk. rewrite start_session_threads in Hk.
    apply list_lookup_insert_Some in Hk as [(-> & <- & _)|[_ Hk]]; [done|].
    pose proof (sim_threads _ _ Hs _ _ Hk) as Ht. unfold p'.
    destruct error; [by destruct u|].
    destruct u as [|i cb e|i st|session' error' wire'| | |]; simpl in *; try done;
      destruct Ht as (sl & x & Hi & Hx & Hd); exists sl, x;
      by rewrite (lookup_app_l_Some _ _ _ _ Hi), (lookup_app_l_Some _ _ _ _ Hx).
Qed.

Lemma sim_thread j p p' s :
  thread_step New j p (Running p') → sim p s → ∃ s', rtc (server_step New) s s' ∧ sim p' s'.
Proof.
  intros Hstep Hs. pose proof Hstep as Hstep'. pose proof (sim_accept _ _ Hs) as Hnew.
  inversion Hstep as
    [i sl cb e Hst Hj Hi Hop|i cb e sl st session Hj Hi Hc Hn|i cb e sl f session Hj Hi Hc
    |i st sl Hj Hi|session error wire Hst Hj Ha|session error wire Hj|Hj|Hst Hj Hsg|Hj|Hst Hj]; subst.
  - exists s. split; [done|]. by eapply sim_take_read.
  - destruct (sim_callback _ _ _ _ _ _ _ _ _ Hs Hstep Hj Hi Hc Hn) as (s' & ? & ?).
    exists s'. split; [by apply rtc_once|done].
  - exists s. split; [done|]. by eapply sim_initiate.
  - exists s. split; [done|]. rewrite Ha in Hnew. by eapply sim_thread_only.
  - destruct (sim_start _ _ _ _ _ _ Hs Hstep Hj) as (s' & ? & ?).
    exists s'. split; [by apply rtc_once|done].
  - exists s. split; [done|]. by eapply sim_thread_only.
  - exists s. split; [done|]. by eapply sim_thread_only.
  - exists s. split; [done|]. by eapply sim_thread_only.
  - exists s. split; [done|]. by eapply sim_thread_only.
Qed.

(** The end of the process by undefined behaviour is one of the server. *)
Lemma sim_crash j p s :
  thread_step New j p Terminated → sim p s → ∃ s', server_step New s s' ∧ ¬ running s'.
Proof.
  intros Hstep Hs. inversion Hstep as [| |i cb e sl f session Hj Hi Hc| | | | | | |].
  destruct (sim_threads _ _ Hs _ _ Hj) as (sl0 & [wire c] & Hi0 & Hx & Hd). simplify_eq/=.
  eexists. split; [by eapply step_session; [apply Hs|exact Hx|by apply Hd]|].
  intros Hrun. unfold running in Hrun. rewrite Forall_lookup in Hrun.
  eapply (Hrun i (wire, mkConnection (Crashed f) session (sl_wire sl))); [|reflexivity].
  simpl. by rewrite list_lookup_insert_eq by (by eapply lookup_lt_Some).
Qed.

Lemma sim_initial n : sim (start_pool n) newServer.
Proof.
  split; [apply start_exclusive|done|done|done|by apply Forall_nil|by apply Forall2_nil|].
  intros j t Hj. apply lookup_replicate in Hj as [-> _]. done.
Qed.

(** The states of a serial server that explain a process. *)
Definition explains (π : process St) (s : MemDBServer St) : Prop :=
  match π with
  | Running p => sim p s
  | Terminated => ¬ running s
  end.

Lemma process_explained n π :
  rtc (process_step New) (Running (start_pool n)) π →
  ∃ s, rtc (server_step New) newServer s ∧ explains π s.
Proof.
  intros Hr. eapply (rtc_ind_r (λ π, ∃ s, rtc (server_step New) newServer s ∧ explains π s)); [| |exact Hr].
  - exists newServer. split; [done|apply sim_initial].
  - intros π1 π2 _ Hstep (s & Hs & Hsim). destruct Hstep as [p p' He|j p π2 Ht]; simpl in Hsim.
    + exists s. split; [done|]. by eapply sim_event.
    + destruct π2 as [p'|].
      * destruct (sim_thread _ _ _ _ Ht Hsim) as (s' & Hs' & Hsim').
        exists s'. split; [by etrans|done].
      * destruct (sim_crash _ _ _ Ht Hsim) as (s' & Hs' & Hn). exists s'. split; [by eapply rtc_r|done].
Qed.

(** ** The end of the server *)

(** The steps a thread still takes once the service is stopped. *)
Definition thread_rest (t : thread St) : nat :=
  match t with
  | Returned => 0
  | Idle => 1
  | AfterRead _ _ | AfterAccept | InStop => 2
  | InRead _ _ _ | InAccept _ _ _ => 3
  end.

Definition rest (ths : list (thread St)) : nat := sum_list (thread_rest <$> ths).

Lemma rest_insert ths j t t' :
  ths !! j = Some t → (thread_rest t' < thread_rest t)%nat → (rest (<[j := t']> ths) < rest ths)%nat.
Proof.
  intros Hj Hlt. unfold rest. rewrite list_fmap_insert. revert j Hj.
  induction ths as [|u ths IH]; intros [|j] Hj; simplify_eq/=; [lia|]. specialize (IH j Hj). lia.
Qed.

Lemma rest_bound ths : (rest ths ≤ 3 * length ths)%nat.
Proof.
  unfold rest. induction ths as [|t ths IH]; [done|]. rewrite fmap_cons. simpl.
  assert (thread_rest t ≤ 3)%nat by (destruct t; simpl; lia). lia.
Qed.

Lemma stopped_thread_step j p p' :
  p_stopped p = true → thread_step New j p (Running p') →
  p_stopped p' = true ∧ (rest (p_threads p') < rest (p_threads p))%nat.
Proof.
  intros Hstop Hstep. inversion Hstep as
    [i sl cb e Hst Hj Hi Hop|i cb e sl st session Hj Hi Hc Hn|i cb e sl f session Hj Hi Hc
    |i st sl Hj Hi|session error wire Hst Hj Ha|session error wire Hj|Hj|Hst Hj Hsg|Hj|Hst Hj];
    subst; simpl; try congruence; rewrite ?start_session_threads;
    (split; [by try destruct error|eapply rest_insert; [exact Hj|simpl; lia]]).
Qed.

Lemma stopped_event (p p' : pool St) :
  event_step p p' → p_stopped p' = p_stopped p ∧ p_threads p' = p_threads p.
Proof. by intros []. Qed.

(** A thread that has not returned can go on. *)
Lemma stopped_thread_moves p s j t :
  sim p s → p_stopped p = true → p_threads p !! j = Some t → t ≠ Returned →
  ∃ π, thread_step New j p π.
Proof.
  intros Hs Hstop Hj Hr. destruct t as [|i cb e|i st|session error wire| | |]; [| | | | | |done].
  - eexists. by apply th_return.
  - destruct (sim_threads _ _ Hs _ _ Hj) as (sl & _ & Hi & _).
    destruct (OnReadComplete New cb e (sl_session sl)) as [st session] eqn:Ho.
    destruct st; [by eexists; eapply th_callback..|by eexists; eapply th_crash].
  - destruct (sim_threads _ _ Hs _ _ Hj) as (sl & _ & Hi & _). eexists. by eapply th_initiate.
  - eexists. by apply th_start.
  - eexists. by apply th_restart.
  - eexists. by apply th_stop.
Qed.

(** The end of a process. *)
Definition ended (π : process St) : Prop :=
  match π with
  | Running p => main_returns p = Some EXIT_SUCCESS
  | Terminated => True
  end.

Lemma not_returned (p : pool St) : main_returns p = None → ∃ j t, p_threads p !! j = Some t ∧ t ≠ Returned.
Proof.
  unfold main_returns. destruct (forallb _ _) eqn:Hf; [done|]. intros _.
  induction (p_threads p) as [|t ths IH]; [done|]. simpl in Hf.
  destruct t; try by (exists 0%nat; eexists). destruct (IH Hf) as (j & t & Hj & Ht). by exists (S j), t.
Qed.

End lemmas.

(** ** Properties *)

Section properties.
Context {St : Type} `{MappedStorage St, AsioBufferLaws}.
Context (New : Z → St).



End properties.

(** ** Examples *)

Abbreviation demo_wire := (stream demo_requests).
Abbreviation demo_first := (demo_connection 60).
Abbreviation demo_slot op := (mkSlot demo_wire op (c_session demo_first) (c_wire demo_first)).

(** Two threads: one has accepted a client and is about to accept the next one,
    the other has parsed the first bytes of the client. *)
Definition demo_busy : pool (BasicMappedStorage ref_index) :=
  mkPool [demo_slot Taken] AcceptTaken 0 SignalPending false [AfterAccept; AfterRead 0 (c_status demo_first)].

(** The first thread has stopped the service meanwhile. *)
Definition demo_stopped : pool (BasicMappedStorage ref_index) :=
  mkPool [demo_slot Taken] (AcceptPending newSession) 0 SignalTaken true
    [Idle; AfterRead 0 (c_status demo_first)].

Lemma demo_first_reads f : c_status demo_first ≠ Crashed f.
Proof. vm_compute. discriminate. Qed.

Lemma demo_busy_reachable : rtc (process_step demo_New) (Running (start_pool 2)) (Running demo_busy).
Proof.
  eapply rtc_l; [by eapply ps_event, (ev_connect _ newSession false demo_wire)|].
  eapply rtc_l; [by eapply (ps_thread _ 0), th_take_accept|].
  eapply rtc_l; [by eapply (ps_thread _ 0), th_start|].
  eapply rtc_l; [eapply ps_event, (ev_read _ 0 _ _ _ 60); [done|done|vm_compute; discriminate|vm_compute; lia]|].
  eapply rtc_l; [by eapply (ps_thread _ 1), (th_take_read _ 1 _ 0)|].
  apply rtc_once. eapply (ps_thread _ 1).
  match goal with |- thread_step _ _ ?p _ =>
    exact (th_callback demo_New 1 p 0 CbParseOutbound no_error
      (mkSlot demo_wire Taken (receive (take 60 demo_wire) newSession) (drop 60 demo_wire))
      (c_status demo_first) (c_session demo_first) eq_refl eq_refl (surjective_pairing _) demo_first_reads)
  end.
Qed.

Lemma demo_stopped_reachable :
  rtc (process_step demo_New) (Running (start_pool 2)) (Running demo_stopped).
Proof.
  etrans; [exact demo_busy_reachable|].
  eapply rtc_l; [by eapply (ps_thread _ 0), th_restart|].
  eapply rtc_l; [by eapply ps_event, ev_signal|].
  eapply rtc_l; [by eapply (ps_thread _ 0), th_take_signal|].
  apply rtc_once. eapply (ps_thread _ 0).
  match goal with |- thread_step _ _ ?p _ => exact (th_stop demo_New 0 p eq_refl) end.
Qed.



End Pool.
