(* ===== verification/CommandLine.v ===== *)
(** * The command lines of the viewer and of the server

    [parse_command_line_arguments] of src/memview/memview.cpp and of
    src/memdb/memdb.cpp, with the tables of options they declare, the time
    strings of include/memhook/chrono_utils.h, and both programs from their
    arguments to their exit status.

    Boost.Program_options is a parameter, [store]: from a table of options, the
    option that positional arguments stand for and the arguments it makes a
    map of options or an error.  What the programs rely on is the class
    [ProgramOptions]: the map is ordered by name, its values have the declared
    types, and options with a default value are always in it. *)
From Stdlib Require Import DecimalString.
From S2P Require Import Prelude Boost TraceInfo Serialization Network Storage Creators Server Memview.

Module CommandLine.
Import Storage Memview.
Local Open Scope string_scope.

(** ** Options *)

(** The value of an option: none, or one of a type, which can be left out
    ([implicit_value]) or is there without the option ([default_value]). *)
Inductive value_semantic :=
| no_value
| value_string (implicit dflt : option string)
| value_bool (implicit : option bool)
| value_size (dflt : option Z)
| value_int (dflt : option Z).

Record option_description := mkOption {
  long_name : string;
  short_name : string;
  semantic : value_semantic;
}.

Definition plain_string : value_semantic := value_string None None.

(** The table of memview. *)
Definition memview_options : list option_description :=
  [mkOption "help" "" no_value;
   mkOption "shared-memory" "m" (value_string (Some MEMHOOK_SHARED_MEMORY) None);
   mkOption "mapped-file" "f" plain_string;
   mkOption "show-callstack" "c" (value_bool (Some true));
   mkOption "aggregate" "a" (value_bool (Some true));
   mkOption "sort-by-time" "t" no_value;
   mkOption "sort-by-size" "s" no_value;
   mkOption "sort-by-address" "p" no_value;
   mkOption "min-time-from-now" "" plain_string;
   mkOption "max-time-from-now" "" plain_string;
   mkOption "min-time-from-start" "" plain_string;
   mkOption "max-time-from-start" "" plain_string;
   mkOption "min-time" "n" plain_string;
   mkOption "max-time" "x" plain_string;
   mkOption "min-size" "z" (value_size None);
   mkOption "get-storage-info" "" no_value;
   mkOption "no-lock" "" (value_bool (Some true))].

Definition MEMHOOK_NETWORK_STORAGE_PORT : Z := 20015.

(** The table of memdb, on a 64-bit machine. *)
Definition memdb_options : list option_description :=
  [mkOption "help" "" no_value;
   mkOption "shared-memory" "m" (value_string (Some MEMHOOK_SHARED_MEMORY) None);
   mkOption "mapped-file" "f" plain_string;
   mkOption "size" "s" (value_size (Some (Z.shiftl 8 30)));
   mkOption "host" "h" (value_string None (Some "127.0.0.1"));
   mkOption "port" "p" (value_int (Some MEMHOOK_NETWORK_STORAGE_PORT))].

(** A value of the type of the option. *)
Definition has_type (d : option_description) (v : variable_value) : bool :=
  match semantic d, v with
  | no_value, VNone | value_string _ _, VString _ | value_bool _, VBool _
  | value_size _, VSize _ | value_int _, VInt _ => true
  | _, _ => false
  end.

Definition has_default (d : option_description) : bool :=
  match semantic d with
  | value_string _ (Some _) | value_size (Some _) | value_int (Some _) => true
  | _ => false
  end.

(** The order of [std::map] on names. *)
Definition before (e f : string * variable_value) : Prop := String.compare e.1 f.1 = Lt.

Abbreviation store_fn :=
  (list option_description → string → list string → string + variables_map).

(** What [command_line_parser], [store] and [notify] do. *)
Class ProgramOptions (store : store_fn) : Prop := {
  store_declared options positional argv m e :
    store options positional argv = inr m → e ∈ m →
    ∃ d, d ∈ options ∧ long_name d = e.1 ∧ has_type d e.2 = true;
  store_sorted options positional argv m :
    store options positional argv = inr m → StronglySorted before m;
  store_default options positional argv m d :
    store options positional argv = inr m → d ∈ options → has_default d = true →
    is_Some (lookup_option (long_name d) m);
}.

(** ** The viewer *)

Section programs.
Context (store : store_fn).

Inductive parse_result := Usage | Failed (message : string) | Parsed (m : variables_map).

Definition both_given : string :=
  "can't use `--shared-memory` and `--mapped-file` options simultaneously".

(** [parse_command_line_arguments] of memview.cpp *)
Definition memview_parse (argv : list string) : parse_result :=
  match store memview_options "mapped-file" argv with
  | inl e => Failed e
  | inr m =>
      if count "help" m then Usage
      else if count "shared-memory" m && count "mapped-file" m then Failed both_given
      else Parsed m
  end.

(** The stream operators of Boost.Chrono, which leave the variable alone when
    they fail. *)
Context (extract_time extract_duration : string → option Z) (fresh_duration : Z).

(** The functions of chrono_utils.h, from the old value of their reference
    parameter to the new one; the state of the stream is not looked at. *)
Definition read_time_point (s : string) (time_point : Z) : Z := default time_point (extract_time s).
Definition read_duration (s : string) (duration : Z) : Z := default duration (extract_duration s).

(** The functions of memview.cpp: a time point starts as the epoch, a duration
    as what the library or the stack makes of it. *)
Definition ChronoTimePointFromString (s : string) : Z := read_time_point s 0.
Definition ChronoDurationFromString (s : string) : Z := read_duration s fresh_duration.

Context {C : Type} `{!MultiIndex C BasicTraceInfo Z}.
Context (now : Z) (to_time_t from_time_t : Z → Z) (localtime_r : Z → tm).
Context (cxa_demangle : bytes → option bytes) (intr : nat → bool).
Context {G : Type} `{!MultiIndex G AggregatedTraceInfo (list (Z * Z))}.
Context (open_mapped_file open_shared_memory : string → option (MappedContainer C * (Z * Z))).

(** The exit status and the lines about the database; the usage and error
    messages are left out. *)
Definition run_viewer (argv : list string) : Server.exit_status * list line :=
  match memview_parse argv with
  | Parsed m =>
      match memview_main ChronoDurationFromString ChronoTimePointFromString now to_time_t from_time_t
              localtime_r cxa_demangle intr (G := G) open_mapped_file open_shared_memory m with
      | Some out => (Server.EXIT_SUCCESS, out)
      | None => (Server.EXIT_FAILURE, [])
      end
  | _ => (Server.EXIT_FAILURE, [])
  end.

(** ** The server *)

Definition string_at (k : string) (m : variables_map) : option string :=
  lookup_option k m ≫= as_string.

Definition as_int (v : variable_value) : option Z := match v with VInt n => Some n | _ => None end.

(** The options that [main] of memdb.cpp takes out of the map; [None] is an
    exception of [as] or a missing host or port. *)
Definition memdb_arguments (m : variables_map) : option Server.options :=
  sm ← match lookup_option "shared-memory" m with
       | Some v => s ← as_string v; Some (Some s)
       | None => Some None
       end;
  mf ← match lookup_option "mapped-file" m with
       | Some v => s ← as_string v; Some (Some s)
       | None => Some None
       end;
  sz ← lookup_option "size" m ≫= as_size;
  host ← lookup_option "host" m ≫= as_string;
  port ← lookup_option "port" m ≫= as_int;
  Some (Server.mkOptions (count "help" m) sm mf sz host port).

Definition run_server (hardware_concurrency : nat) (listens : string → Z → bool) (argv : list string)
    : Server.exit_status + Creators.BasicMappedStorageCreator * nat :=
  match store memdb_options "mapped-file" argv with
  | inl _ => inl Server.EXIT_FAILURE
  | inr m =>
      match memdb_arguments m with
      | Some o => Server.memdb_main hardware_concurrency listens o
      | None => inl Server.EXIT_FAILURE
      end
  end.

(** ** What the options stand for *)

(** The options in the order in which [main] visits them. *)
Definition option_names : list string :=
  ["aggregate"; "get-storage-info"; "help"; "mapped-file"; "max-time"; "max-time-from-now";
   "max-time-from-start"; "min-size"; "min-time"; "min-time-from-now"; "min-time-from-start";
   "no-lock"; "shared-memory"; "show-callstack"; "sort-by-address"; "sort-by-size"; "sort-by-time"].

Definition strings_at (k : string) (f : string → MappedViewOption) (m : variables_map)
    : list MappedViewOption :=
  match lookup_option k m with Some (VString s) => [f s] | _ => [] end.
Definition sizes_at (k : string) (f : Z → MappedViewOption) (m : variables_map)
    : list MappedViewOption :=
  match lookup_option k m with Some (VSize n) => [f n] | _ => [] end.
Definition bool_at (k : string) (m : variables_map) : bool :=
  match lookup_option k m with Some (VBool b) => b | _ => false end.

(** Every filter that was asked for, upper bounds first. *)
Definition filters_of (m : variables_map) : list MappedViewOption :=
  strings_at "max-time" (λ s, MaxTimeMappedViewOption (ChronoTimePointFromString s)) m ++
  strings_at "max-time-from-now" (λ s, MaxTimeFromNowMappedViewOption now (ChronoDurationFromString s)) m ++
  strings_at "max-time-from-start" (λ s, MaxTimeFromStartMappedViewOption 0 (ChronoDurationFromString s)) m ++
  sizes_at "min-size" MinSizeMappedViewOption m ++
  strings_at "min-time" (λ s, MinTimeMappedViewOption (ChronoTimePointFromString s)) m ++
  strings_at "min-time-from-now" (λ s, MinTimeFromNowMappedViewOption now (ChronoDurationFromString s)) m ++
  strings_at "min-time-from-start" (λ s, MinTimeFromStartMappedViewOption 0 (ChronoDurationFromString s)) m.

(** The switches; of several sort options the one by time wins, then the one
    by size. *)
Definition settings_of (m : variables_map) : settings :=
  mkSettings (bool_at "no-lock" m) (bool_at "show-callstack" m)
    (Some (if count "sort-by-time" m then ByTime
           else if count "sort-by-size" m then BySize
           else if count "sort-by-address" m then ByAddress
           else ByTime)).

Definition configured (m : variables_map) : MappedViewBase :=
  mkMappedViewBase (filters_of m) (encode (settings_of m)).

(** The database that was named. *)
Definition named_segment (m : variables_map) : option (MappedContainer C * (Z * Z)) :=
  match string_at "mapped-file" m with
  | Some path => open_mapped_file path
  | None => open_shared_memory (default MEMHOOK_SHARED_MEMORY (string_at "shared-memory" m))
  end.

End programs.

(** ** Maps of options *)

#[export] Instance value_semantic_eq_dec : EqDecision value_semantic.
Proof. solve_decision. Defined.

Lemma lookup_option_elem k v m : lookup_option k m = Some v → (k, v) ∈ m.
Proof.
  unfold lookup_option. intros H. rewrite <- option_fmap_compose in H.
  apply fmap_Some in H as ([i [k' v']] & Hf & Hv). apply list_find_Some in Hf as (Hi & Hk & _).
  simpl in *. subst. by eapply list_elem_of_lookup_2.
Qed.

Lemma elem_lookup_option k v m : (k, v) ∈ m → is_Some (lookup_option k m).
Proof.
  intros Hin. unfold lookup_option. do 2 apply fmap_is_Some. by eapply list_find_elem_of.
Qed.

Lemma before_asym e f : before e f → before f e → False.
Proof. unfold before. intros H1 H2. rewrite String.compare_antisym, H2 in H1. discriminate. Qed.

Lemma before_irrefl e f : before e f → e.1 ≠ f.1.
Proof.
  intros H E. apply (before_asym e f H). unfold before in *. by rewrite E in H |- *.
Qed.

Lemma sorted_unique m e f : StronglySorted before m → e ∈ m → f ∈ m → e.1 = f.1 → e = f.
Proof.
  intros Hs He Hf E. induction Hs as [|x m Hs IH Hx]; [by apply elem_of_nil in He|].
  rewrite Forall_forall in Hx.
  rewrite elem_of_cons in He. rewrite elem_of_cons in Hf.
  destruct He as [He|He], Hf as [Hf|Hf]; [congruence| | |by apply IH].
  - subst x. by destruct (before_irrefl _ _ (Hx _ Hf)).
  - subst x. by destruct (before_irrefl _ _ (Hx _ He)).
Qed.

Lemma sorted_lookup m k v : StronglySorted before m → lookup_option k m = Some v ↔ (k, v) ∈ m.
Proof.
  intros Hs. split; [apply lookup_option_elem|]. intros Hin.
  destruct (elem_lookup_option k v m Hin) as [w Hw]. rewrite Hw.
  by injection (sorted_unique m (k, v) (k, w) Hs Hin (lookup_option_elem _ _ _ Hw) eq_refl) as ->.
Qed.

Lemma sorted_nodup m : StronglySorted before m → NoDup m.
Proof.
  induction 1 as [|x m Hs IH Hx]; constructor; [|done]. intros Hin.
  rewrite Forall_forall in Hx. by destruct (before_irrefl _ _ (Hx _ Hin)).
Qed.

(** The entries of the map in the order of the names. *)
Definition entry (m : variables_map) (k : string) : option (string * variable_value) :=
  (k,.) <$> lookup_option k m.

Lemma entry_elem m (names : list string) k v :
  (k, v) ∈ omap (entry m) names ↔ k ∈ names ∧ lookup_option k m = Some v.
Proof.
  rewrite list_elem_of_omap. unfold entry. split.
  - intros (k' & Hk & (v' & Hv & [= <- <-])%fmap_Some). done.
  - intros [Hk Hv]. exists k. by rewrite Hv.
Qed.

Lemma entries_sorted m (names : list string) :
  StronglySorted (λ k l, String.compare k l = Lt) names → StronglySorted before (omap (entry m) names).
Proof.
  induction 1 as [|k names Hs IH Hk]; [constructor|]. simpl.
  unfold entry at 1. destruct (lookup_option k m) as [v|]; simpl; [|done].
  constructor; [done|]. rewrite Forall_forall in Hk. apply Forall_forall.
  intros [l w] [Hl _]%entry_elem. exact (Hk l Hl).
Qed.

(** A map with these names only is the list of its entries. *)
Lemma entries_are_map m (names : list string) :
  StronglySorted (λ k l, String.compare k l = Lt) names →
  StronglySorted before m → (∀ e, e ∈ m → e.1 ∈ names) → m = omap (entry m) names.
Proof.
  intros Hn Hm Hin. apply (StronglySorted_unique_strong before); [|done|by apply entries_sorted|].
  - intros e f _ _ H1 H2. by destruct (before_asym e f).
  - apply NoDup_Permutation; [by apply sorted_nodup|by apply sorted_nodup, entries_sorted|].
    intros [k v]. rewrite entry_elem, (sorted_lookup m) by done. naive_solver.
Qed.

(** Values have the type of their option. *)
Definition typed (options : list option_description) (m : variables_map) : Prop :=
  ∀ e, e ∈ m → ∃ d, d ∈ options ∧ long_name d = e.1 ∧ has_type d e.2 = true.

Lemma typed_lookup options m k sem v :
  typed options m → lookup_option k m = Some v →
  Forall (λ d, long_name d = k → semantic d = sem) options →
  has_type (mkOption k "" sem) v = true.
Proof.
  intros Ht Hv Hsem. destruct (Ht _ (lookup_option_elem _ _ _ Hv)) as (d & Hd & Hk & Hty). simpl in *.
  rewrite Forall_forall in Hsem. unfold has_type in *. by rewrite <- (Hsem d Hd Hk).
Qed.

(** ** What the loop over the options does *)

Section configure.
Context (extract_time extract_duration : string → option Z) (fresh_duration now : Z).
Abbreviation parse_time := (ChronoTimePointFromString extract_time).
Abbreviation parse_duration := (ChronoDurationFromString extract_duration fresh_duration).
Abbreviation apply_option := (apply_option parse_duration parse_time now).
Abbreviation apply_options := (apply_options parse_duration parse_time now).

Variable m : variables_map.
Hypothesis m_typed : typed memview_options m.
Abbreviation rest names := (omap (entry m) names).

Lemma apply_entry k names v :
  apply_options (rest (k :: names)) v =
    match lookup_option k m with
    | Some x => v ← apply_option v (k, x); apply_options (rest names) v
    | None => apply_options (rest names) v
    end.
Proof. simpl. unfold entry at 1. by destruct (lookup_option k m). Qed.

Lemma apply_skip k names v :
  (∀ v x, apply_option v (k, x) = Some v) →
  apply_options (rest (k :: names)) v = apply_options (rest names) v.
Proof. intros Hk. rewrite apply_entry. destruct (lookup_option k m); simpl; [by rewrite Hk|done]. Qed.

Lemma apply_string k f names opts fl :
  (∀ v s, apply_option v (k, VString s) = Some (SetOption (f s) v)) →
  Forall (λ d, long_name d = k → semantic d = plain_string) memview_options →
  apply_options (rest (k :: names)) (mkMappedViewBase opts fl) =
    apply_options (rest names) (mkMappedViewBase (opts ++ strings_at k f m) fl).
Proof.
  intros Hk Hd. rewrite apply_entry. unfold strings_at.
  destruct (lookup_option k m) as [x|] eqn:Hx; [|by rewrite app_nil_r].
  pose proof (typed_lookup _ _ _ _ _ m_typed Hx Hd) as Ht. destruct x; try done. by rewrite Hk.
Qed.

Lemma apply_size k f names opts fl :
  (∀ v n, apply_option v (k, VSize n) = Some (SetOption (f n) v)) →
  Forall (λ d, long_name d = k → semantic d = value_size None) memview_options →
  apply_options (rest (k :: names)) (mkMappedViewBase opts fl) =
    apply_options (rest names) (mkMappedViewBase (opts ++ sizes_at k f m) fl).
Proof.
  intros Hk Hd. rewrite apply_entry. unfold sizes_at.
  destruct (lookup_option k m) as [x|] eqn:Hx; [|by rewrite app_nil_r].
  pose proof (typed_lookup _ _ _ _ _ m_typed Hx Hd) as Ht. destruct x; try done. by rewrite Hk.
Qed.

Lemma apply_sort k flag names v :
  (∀ v x, apply_option v (k, x) = Some (SetOptionFlag flag true v)) →
  apply_options (rest (k :: names)) v =
    apply_options (rest names) (if count k m then SetOptionFlag flag true v else v).
Proof.
  intros Hk. rewrite apply_entry. unfold count.
  destruct (lookup_option k m) as [x|] eqn:Hx; simpl; [by rewrite Hk|done].
Qed.

Lemma apply_show names opts st :
  show_callstack st = false →
  apply_options (rest ("show-callstack" :: names)) (mkMappedViewBase opts (encode st)) =
    apply_options (rest names)
      (mkMappedViewBase opts (encode (mkSettings (no_lock st) (bool_at "show-callstack" m) (sort st)))).
Proof.
  intros Hst. rewrite apply_entry. unfold bool_at.
  destruct (lookup_option "show-callstack" m) as [x|] eqn:Hx; [|by rewrite <- Hst; destruct st].
  pose proof (typed_lookup _ _ _ (value_bool (Some true)) _ m_typed Hx ltac:(by_decide)) as Ht.
  destruct x as [|b| | |]; try done.
  change (apply_options (rest names) (SetOptionFlag kShowCallStack b (mkMappedViewBase opts (encode st))) =
    apply_options (rest names) (mkMappedViewBase opts (encode (spec_set kShowCallStack b st)))).
  by rewrite SetOptionFlag_encode.
Qed.

Lemma apply_all_options b :
  StronglySorted before m →
  apply_options m (mkMappedViewBase [] (encode (mkSettings b false (Some ByTime)))) =
    Some (mkMappedViewBase (filters_of extract_time extract_duration fresh_duration now m)
      (encode (mkSettings b (show_callstack (settings_of m)) (sort (settings_of m))))).
Proof.
  intros Hs. rewrite (entries_are_map m option_names) at 1; [|repeat constructor|done|].
  2: { intros e He. destruct (m_typed e He) as (d & Hd & <- & _). revert d Hd.
       apply Forall_forall. by_decide. }
  unfold option_names.
  do 4 (rewrite apply_skip by done).
  do 3 (erewrite apply_string; [|reflexivity|by_decide]).
  erewrite apply_size; [|reflexivity|by_decide].
  do 3 (erewrite apply_string; [|reflexivity|by_decide]).
  do 2 (rewrite apply_skip by done). rewrite apply_show by done.
  do 3 (erewrite apply_sort by reflexivity). unfold filters_of, settings_of.
  destruct (count "sort-by-address" m), (count "sort-by-size" m), (count "sort-by-time" m);
    rewrite ?SetOptionFlag_encode, <- ?app_assoc; done.
Qed.

End configure.

(** ** Theorems *)

Section outcome.
Context (store : store_fn) `{!ProgramOptions store}.
Context (extract_time extract_duration : string → option Z) (fresh_duration : Z).
Context {C : Type} `{!MultiIndex C BasicTraceInfo Z}.
Context (now : Z) (to_time_t from_time_t : Z → Z) (localtime_r : Z → tm).
Context (cxa_demangle : bytes → option bytes) (intr : nat → bool).
Context {G : Type} `{!MultiIndex G AggregatedTraceInfo (list (Z * Z))}.
Context (open_mapped_file open_shared_memory : string → option (MappedContainer C * (Z * Z))).

Lemma store_typed options positional argv m :
  store options positional argv = inr m → typed options m.
Proof. intros Hm e He. by eapply store_declared. Qed.

Lemma choose_named m :
  typed memview_options m →
  ∃ path w, choose_works open_mapped_file open_shared_memory m = Some (path, w) ∧
    w path = named_segment open_mapped_file open_shared_memory m.
Proof.
  intros Hm. unfold choose_works, named_segment, string_at.
  destruct (lookup_option "mapped-file" m) as [x|] eqn:Hx; simpl.
  - pose proof (typed_lookup _ _ _ plain_string _ Hm Hx ltac:(by_decide)). destruct x; try done.
    simpl. eauto.
  - destruct (lookup_option "shared-memory" m) as [y|] eqn:Hy; simpl; [|eauto].
    pose proof (typed_lookup _ _ _ (value_string (Some MEMHOOK_SHARED_MEMORY) None) _ Hm Hy ltac:(by_decide)).
    destruct y; try done. simpl. eauto.
Qed.

Lemma initial_flags m :
  typed memview_options m →
  match lookup_option "no-lock" m with
  | Some b => b ← as_bool b; Some (SetOptionFlag kNoLock b newMappedViewBase)
  | None => Some newMappedViewBase
  end = Some (mkMappedViewBase [] (encode (mkSettings (bool_at "no-lock" m) false (Some ByTime)))).
Proof.
  intros Hm. unfold bool_at. destruct (lookup_option "no-lock" m) as [x|] eqn:Hx; [|done].
  pose proof (typed_lookup _ _ _ (value_bool (Some true)) _ Hm Hx ltac:(by_decide)).
  by destruct x as [|[]| | |].
Qed.


Lemma default_value m k sem argv :
  store memdb_options "mapped-file" argv = inr m →
  Exists (λ d, long_name d = k ∧ has_default d = true) memdb_options →
  Forall (λ d, long_name d = k → semantic d = sem) memdb_options →
  ∃ v, lookup_option k m = Some v ∧ has_type (mkOption k "" sem) v = true.
Proof.
  intros Hm (d & Hd & <- & Hdef)%Exists_exists Hsem.
  destruct (store_default _ _ _ _ _ Hm Hd Hdef) as [v Hv]. exists v. split; [done|].
  by eapply typed_lookup; [eapply store_typed| |].
Qed.

Definition is_string (sem : value_semantic) : bool :=
  match sem with value_string _ _ => true | _ => false end.

Lemma given_string m k :
  typed memdb_options m →
  Forall (λ d, long_name d = k → is_string (semantic d) = true) memdb_options →
  match lookup_option k m with
  | Some v => s ← as_string v; Some (Some s)
  | None => Some None
  end = Some (string_at k m).
Proof.
  intros Ht Hsem. unfold string_at. destruct (lookup_option k m) as [x|] eqn:Hx; [|done]. simpl.
  destruct (Ht _ (lookup_option_elem _ _ _ Hx)) as (d & Hd & Hk & Hty). simpl in *.
  rewrite Forall_forall in Hsem. specialize (Hsem d Hd Hk). unfold has_type in Hty.
  by destruct (semantic d), x.
Qed.

(** The server never fails on the values of its options: from any arguments
    that the library accepts it gets a host, a port and a size, given or by
    default. *)
Theorem server_has_all_options hardware_concurrency listens argv :
  match store memdb_options "mapped-file" argv with
  | inl _ => run_server store hardware_concurrency listens argv = inl Server.EXIT_FAILURE
  | inr m => ∃ size host port,
      run_server store hardware_concurrency listens argv =
        Server.memdb_main hardware_concurrency listens
          (Server.mkOptions (count "help" m) (string_at "shared-memory" m) (string_at "mapped-file" m)
             size host port) ∧
      lookup_option "size" m = Some (VSize size) ∧ lookup_option "host" m = Some (VString host) ∧
      lookup_option "port" m = Some (VInt port)
  end.
Proof.
  unfold run_server. destruct (store memdb_options "mapped-file" argv) as [|m] eqn:Hm; [done|].
  pose proof (store_typed _ _ _ _ Hm) as Ht.
  destruct (default_value m "size" (value_size (Some (Z.shiftl 8 30))) argv Hm) as (x & Hx & Hxt);
    [by_decide..|].
  destruct (default_value m "host" (value_string None (Some "127.0.0.1")) argv Hm) as (y & Hy & Hyt);
    [by_decide..|].
  destruct (default_value m "port" (value_int (Some MEMHOOK_NETWORK_STORAGE_PORT)) argv Hm) as (z & Hz & Hzt);
    [by_decide..|].
  destruct x as [| |n| |], y as [| | | |h], z as [| | |q|]; try discriminate. exists n, h, q.
  split; [|done]. unfold memdb_arguments. rewrite Hx, Hy, Hz.
  rewrite !(given_string m) by (done || by_decide). done.
Qed.

End outcome.

(** ** A parser of long options *)

(** An implementation of the interface for [--name], [--name=value] and
    positional arguments. *)
Definition parse_value (sem : value_semantic) (given : option string) : option variable_value :=
  match sem, given with
  | no_value, None => Some VNone
  | value_string _ _, Some s | value_string (Some s) _, None => Some (VString s)
  | value_bool _, Some "true" => Some (VBool true)
  | value_bool _, Some "false" => Some (VBool false)
  | value_bool (Some b), None => Some (VBool b)
  | value_size _, Some s => VSize ∘ Z.of_uint <$> DecimalString.NilZero.uint_of_string s
  | value_int _, Some s => VInt ∘ Z.of_uint <$> DecimalString.NilZero.uint_of_string s
  | _, _ => None
  end.

Definition parse_argument (options : list option_description) (positional arg : string)
    : option (string * variable_value) :=
  let '(name, given) :=
    if String.prefix "--" arg then
      let body := String.substring 2 (String.length arg - 2) arg in
      match String.index 0 "=" body with
      | Some i => (String.substring 0 i body, Some (String.substring (S i) (String.length body) body))
      | None => (body, None)
      end
    else (positional, Some arg) in
  '(_, d) ← list_find (λ d, long_name d = name) options;
  (name,.) <$> parse_value (semantic d) given.

Fixpoint insert_entry (e : string * variable_value) (m : variables_map) : variables_map :=
  match m with
  | [] => [e]
  | f :: m => match String.compare e.1 f.1 with Lt => e :: f :: m | _ => f :: insert_entry e m end
  end.

Definition default_entry (d : option_description) (m : variables_map) : variables_map :=
  if count (long_name d) m then m
  else match semantic d with
       | value_string _ (Some s) => insert_entry (long_name d, VString s) m
       | value_size (Some n) => insert_entry (long_name d, VSize n) m
       | value_int (Some n) => insert_entry (long_name d, VInt n) m
       | _ => m
       end.

Fixpoint strictly_sorted (m : variables_map) : bool :=
  match m with
  | [] => true
  | e :: m =>
      forallb (λ f, match String.compare e.1 f.1 with Lt => true | _ => false end) m && strictly_sorted m
  end.

Definition complete_map (options : list option_description) (m : variables_map) : bool :=
  forallb (λ e, existsb (λ d, String.eqb (long_name d) e.1 && has_type d e.2) options) m &&
  strictly_sorted m && forallb (λ d, implb (has_default d) (count (long_name d) m)) options.

Definition store_long (options : list option_description) (positional : string) (argv : list string)
    : string + variables_map :=
  match mapM (parse_argument options positional) argv with
  | None => inl "unrecognised option"
  | Some es =>
      let m := foldr default_entry (foldr insert_entry [] es) options in
      if complete_map options m then inr m else inl "option cannot be specified more than once"
  end.

Lemma strictly_sorted_sound m : strictly_sorted m = true → StronglySorted before m.
Proof.
  induction m as [|e m IH]; simpl; [constructor|]. intros [Hf Hs]%andb_true_iff.
  constructor; [auto|]. rewrite forallb_forall in Hf. apply Forall_forall. intros f Hin%list_elem_of_In.
  specialize (Hf f Hin). unfold before. by destruct (String.compare e.1 f.1).
Qed.

Lemma store_long_complete options positional argv m :
  store_long options positional argv = inr m → complete_map options m = true.
Proof.
  unfold store_long. destruct (mapM _ _) as [es|]; [|done]. simpl.
  destruct (complete_map _ _) eqn:E; [|done]. by intros [= <-].
Qed.

#[export] Instance store_long_laws : ProgramOptions store_long.
Proof.
  split; intros options positional argv m; [intros e Hm He|intros Hm|intros d Hm Hd Hdef];
    apply store_long_complete in Hm; unfold complete_map in Hm;
    rewrite !andb_true_iff in Hm; destruct Hm as [[H1 H2] H3].
  - rewrite forallb_forall in H1. apply list_elem_of_In, H1, existsb_exists in He as (d & Hd & H).
    apply andb_true_iff in H as [Hk Ht]. exists d. by rewrite list_elem_of_In, <- String.eqb_eq.
  - by apply strictly_sorted_sound.
  - rewrite forallb_forall in H3. apply list_elem_of_In, H3 in Hd. rewrite Hdef in Hd. simpl in Hd.
    by apply bool_decide_eq_true in Hd.
Qed.

(** ** Examples *)

Definition demo_run (argv : list string) : Server.exit_status * list line :=
  run_viewer store_long (λ _, None) (λ _, None) 77 (C := ref_index) 1000 (λ t, t / 1000000000)
    (λ t, t * 1000000000) (λ t, mkTm 70 0 1 0 0 t) (λ _, None) (λ _, false) (G := ref_groups)
    (λ path, if String.eqb path "db.mmf" then Some (demo_container, (4096, 1024)) else None)
    (λ _, None) argv.


Lemma server_has_all_options_witness :
  run_server store_long 4 (λ _ _, true) ["--port=99"; "--shared-memory"] =
    inr (Creators.NewSHMMappedStorageCreator "ShmMemHook" 8589934592, 4%nat).
Proof.
  pose proof (server_has_all_options store_long 4 (λ _ _, true) ["--port=99"; "--shared-memory"]) as H.
  destruct (store_long memdb_options "mapped-file" ["--port=99"; "--shared-memory"]) as [e|m] eqn:E;
    vm_compute in E; [discriminate E|]. injection E as <-.
  destruct H as (size & host & port & -> & Hs & _). injection Hs as <-. reflexivity.
Defined.

End CommandLine.
