(* ===== verification/Leaks.v ===== *)
(** * From the program to the viewer

    A traced program whose database is in a file or in shared memory of the
    same machine, and the viewer that opens it by name: files [Engine],
    [Creators], [Storage] and [Memview] together.

    The machine has names and, behind them, segments of memory with the
    containers in them; the engine of the program works on the container of
    its segment, and the viewer opens a segment by its name. *)
From S2P Require Import Prelude Boost TraceInfo Serialization Network Storage.
From S2P Require Import Unwinder Engine Creators Memview.

Module Leaks.
Import Storage Unwinder Engine Memview.

(** A C string. *)
Definition string_of (b : bytes) : string :=
  String.string_of_list_ascii ((λ z, Ascii.ascii_of_N (Z.to_N z)) <$> b).

Section leaks.
Context {D : Type} `{!MultiIndex D BasicTraceInfo Z}.
Context {C : Type} `{!MultiIndex C TraceInfo Z}.
Context {P : Type} `{!SeqIndex P UnwProcNameInfo Z}.
(** the program's environment, and what it asks the libraries *)
Context (getenv : string → option bytes) (ChronoDurationFromString : bytes → Z → option Z).
Context (get_proc_name : option (Z → option (bytes * Z))).
Context (dladdr : Z → option (Z * option bytes)) (ticks : Z).
(** what the viewer asks the libraries *)
Context (parse_duration parse_time : string → Z) (view_now : Z).
Context (to_time_t from_time_t : Z → Z) (localtime_r : Z → tm).
Context (cxa_demangle : bytes → option bytes) (intr : nat → bool).
Context {G : Type} `{!MultiIndex G AggregatedTraceInfo (list (Z * Z))}.
(** the size and the free memory of a segment *)
Context (usage : MappedContainer D → Z * Z).

Record machine := mkMachine {
  m_os : Creators.os;
  m_memory : gmap nat (MappedContainer D);
}.

(** ** The program *)

(** The container of a storage lies in its segment. *)
Definition publish (seg : Creators.segment) (st : BasicMappedStorage D) (m : machine) : machine :=
  mkMachine (m_os m) (<[Creators.s_id seg := m_container st]> (m_memory m)).

(** The constructor of [BasicMappedStorage] with its segment; it throws if the
    segment cannot be created. *)
Definition new_mapped_storage (kind : Creators.kind) (name : bytes) (size : Z) (m : machine)
    : option (Creators.segment * BasicMappedStorage D * machine) :=
  match Creators.open_storage kind (string_of name) (m_os m) with
  | Some (seg, o) =>
      let st := newBasicMappedStorage name size in
      Some (seg, st, publish seg st (mkMachine o (m_memory m)))
  | None => None
  end.

Definition NewMMFMappedStorage := new_mapped_storage Creators.MMF.
Definition NewSHMMappedStorage := new_mapped_storage Creators.SHM.

(** The end of [Engine::NewStorage]; a database on a server is not on this
    machine. *)
Definition create (k : storage_kind) (m : machine)
    : option (Creators.segment * BasicMappedStorage D * machine) :=
  match k with
  | MMFKind path size => NewMMFMappedStorage path size m
  | SHMKind name size => NewSHMMappedStorage name size m
  | NetworkKind _ _ => None
  end.

Abbreviation program := (option Creators.segment * Engine (BasicMappedStorage D) C P * machine)%type.

(** [Engine::OnInitialize]: without a database if it cannot be opened *)
Definition start_program (m : machine) : program :=
  match create (NewStorage getenv) m with
  | Some (seg, st, m) =>
      (Some seg, OnInitialize getenv (λ _, Some st) ChronoDurationFromString, m)
  | None => (None, OnInitialize getenv (λ _, None) ChronoDurationFromString, m)
  end.

(** The program after the calls [evs]. *)
Definition run_program (evs : list event) (m : machine) : option program :=
  let '(seg, e, m) := start_program m in
  e ← run_events get_proc_name dladdr ticks evs e;
  Some (seg, e, match seg, m_storage e with
                | Some seg, Some st => publish seg st m
                | _, _ => m
                end).

(** [Engine::OnDestroy], and the destructor of the storage. *)
Definition end_program (now : Z) (p : program) : option machine :=
  let '(seg, e, m) := p in
  '(_, st) ← OnDestroy get_proc_name dladdr ticks now e;
  Some (match seg, st with
        | Some seg, Some st =>
            let m := publish seg st m in
            mkMachine (Creators.close_storage seg (m_os m)) (m_memory m)
        | _, _ => m
        end).

(** ** The viewer *)

(** [m_segment (open_only, name)] and [find<ConcreteMappedContainer>] in the
    constructor of [BasicMappedView] *)
Definition open_view (k : Creators.kind) (m : machine) (name : string)
    : option (MappedContainer D * (Z * Z)) :=
  id ← Creators.names k (m_os m) !! name;
  c ← m_memory m !! id;
  Some (c, usage c).

Definition memview (m : machine) : variables_map → option (list line) :=
  memview_main parse_duration parse_time view_now to_time_t from_time_t localtime_r cxa_demangle intr
    (G := G) (open_view Creators.MMF m) (open_view Creators.SHM m).

End leaks.
Arguments machine : clear implicits.

(** ** Lemmas *)

(** The calls of a program have times after the epoch. *)
Definition stamped (ev : event) : Prop :=
  match ev with
  | EvAlloc _ _ now _ | EvRealloc _ _ _ now _ => time_ok now
  | _ => True
  end.

#[export] Instance stamped_dec ev : Decision (stamped ev).
Proof. destruct ev; simpl; apply _. Defined.

Section facts.
Context (get_proc_name : option (Z → option (bytes * Z))).
Context (dladdr : Z → option (Z * option bytes)).

Abbreviation live_event := (live_event get_proc_name dladdr).
Abbreviation rows_ok := (map_Forall (λ _ : Z, Memview.record_ok)).

Lemma live_alloc_ok m mem n now stack :
  rows_ok m → alloc_ok get_proc_name dladdr m mem n now stack → time_ok now →
  rows_ok (live_alloc get_proc_name dladdr mem n now stack m).
Proof.
  intros Hm Ha Ht. unfold live_alloc. destruct (mem =? 0) eqn:Hz; [done|]. zify_bool.
  destruct Ha as [|(_ & (_ & (_ & Hn & _) & _) & _)]; [done|].
  apply map_Forall_insert_2; [|done]. by split.
Qed.

Lemma live_free_ok m mem : rows_ok m → rows_ok (live_free mem m).
Proof. intros Hm. unfold live_free. destruct (mem =? 0); [done|]. by apply map_Forall_delete. Qed.

Lemma live_resize_ok m mem n : rows_ok m → in_u 64 n → rows_ok (live_resize mem n m).
Proof.
  intros Hm Hn. unfold live_resize. destruct (mem =? 0); [done|]. intros a t.
  rewrite lookup_alter_Some. intros [(-> & t' & Ht & ->)|[_ Ht]]; [|by apply (Hm a)].
  destruct (Hm _ _ Ht). by split.
Qed.

Lemma live_records_ok evs m :
  rows_ok m → trace_ok get_proc_name dladdr m evs → Forall stamped evs →
  rows_ok (fold_left live_event evs m).
Proof.
  intros Hm Hok Hs. revert m Hm Hok. induction Hs as [|ev evs Hev Hs IH]; intros m Hm Hok; [done|].
  destruct Hok as [Hok1 Hok]. apply IH; [|done].
  destruct ev as [mem n now stack|mem|old new n now stack|mem n|]; simpl in *.
  - by apply live_alloc_ok.
  - by apply live_free_ok.
  - destruct Hok1 as (_ & Hn & Ha). destruct (old =? new) eqn:He; zify_bool.
    + exact (live_resize_ok _ _ _ Hm Hn).
    + apply live_alloc_ok; [by apply live_free_ok|by apply Ha|done].
  - exact (live_resize_ok _ _ _ Hm (proj2 Hok1)).
  - done.
Qed.
End facts.

Section properties.
Context {D : Type} `{!MultiIndex D BasicTraceInfo Z}.
Context {DL : MultiIndexLaws D BasicTraceInfo Z ti_address container_indices}.
Context {C : Type} `{!MultiIndex C TraceInfo Z}.
Context {CL : MultiIndexLaws C TraceInfo Z e_address cache_indices}.
Context {P : Type} `{!SeqIndex P UnwProcNameInfo Z}.
Context {PL : SeqIndexLaws P UnwProcNameInfo Z pni_ip}.
Context (getenv : string → option bytes) (ChronoDurationFromString : bytes → Z → option Z).
Context (get_proc_name : option (Z → option (bytes * Z))).
Context (dladdr : Z → option (Z * option bytes)) `{!DladdrLaws dladdr} (ticks : Z).
Context (parse_duration parse_time : string → Z) (view_now : Z).
Context (to_time_t from_time_t : Z → Z) (localtime_r : Z → tm).
Context (cxa_demangle : bytes → option bytes) (intr : nat → bool).
Context {G : Type} `{!MultiIndex G AggregatedTraceInfo (list (Z * Z))}.
Context (usage : MappedContainer D → Z * Z).

Abbreviation run_program :=
  (run_program (D := D) (C := C) (P := P) getenv ChronoDurationFromString get_proc_name dladdr ticks).
Abbreviation end_program := (end_program get_proc_name dladdr ticks).
Abbreviation memview :=
  (memview parse_duration parse_time view_now to_time_t from_time_t localtime_r cxa_demangle intr
     (G := G) usage).
Abbreviation print_record := (print_record to_time_t from_time_t localtime_r cxa_demangle).
Abbreviation live evs := (fold_left (live_event get_proc_name dladdr) evs ∅).

(** The options of a call of the viewer that lists the records of a database
    one by one, and the view [main] makes of them. *)
Definition listing (k : Creators.kind) (name : string) (opts : variables_map) (v : MappedViewBase)
    : Prop :=
  match k with
  | Creators.MMF => lookup_option "mapped-file" opts = Some (VString name)
  | Creators.SHM =>
      lookup_option "mapped-file" opts = None ∧
      match lookup_option "shared-memory" opts with
      | Some n => n = VString name
      | None => name = MEMHOOK_SHARED_MEMORY
      end
  end ∧
  count "aggregate" opts = false ∧ count "get-storage-info" opts = false ∧
  lookup_option "no-lock" opts = None ∧
  apply_options parse_duration parse_time view_now opts newMappedViewBase = Some v ∧
  Forall option_ok (m_options v).

Lemma choose_works_listing k name opts v (m : machine D) :
  listing k name opts v →
  choose_works (open_view usage Creators.MMF m) (open_view usage Creators.SHM m) opts =
    Some (name, open_view usage k m).
Proof.
  intros [Hk _]. unfold choose_works. destruct k; [by rewrite Hk|]. destruct Hk as [-> Hk].
  destruct (lookup_option "shared-memory" opts); by subst.
Qed.

Lemma memview_listing k name opts v (m : machine D) id c :
  listing k name opts v → (∀ i, intr i = false) →
  Creators.names k (m_os m) !! name = Some id → m_memory m !! id = Some c →
  map_Forall (λ _, Memview.record_ok) (mi_map ti_address (indexed_container c)) →
  memview m opts =
    Some (mjoin (print_record c v <$>
      select (m_options v) (mi_range (sort_index v) (indexed_container c)))).
Proof.
  intros Hl Hi Hn Hc Hr. unfold memview, memview_main.
  rewrite (choose_works_listing k name opts v m Hl). simpl. rewrite new_view. unfold open_view.
  rewrite Hn. simpl. rewrite Hc. simpl.
  destruct Hl as (_ & -> & -> & -> & Hv & Ho). simpl. rewrite Hv. simpl. f_equal.
  exact (proj2 (simple_write to_time_t from_time_t localtime_r cxa_demangle intr (G := G) c v Ho Hr) Hi).
Qed.

Lemma memview_missing k name opts v (m : machine D) :
  listing k name opts v → Creators.names k (m_os m) !! name = None → memview m opts = None.
Proof.
  intros Hl Hn. unfold memview, memview_main.
  rewrite (choose_works_listing k name opts v m Hl). simpl. rewrite new_view. unfold open_view.
  by rewrite Hn.
Qed.

(** The environment of a program with a database on the same machine. *)
Definition local_env (k : Creators.kind) (name : string) : Prop :=
  getenv "MEMHOOK_NET_HOST" = None ∧
  match k with
  | Creators.MMF => ∃ path, getenv "MEMHOOK_FILE" = Some path ∧ name = string_of path
  | Creators.SHM => getenv "MEMHOOK_FILE" = None ∧
      name = string_of (default Engine.MEMHOOK_SHARED_MEMORY (getenv "MEMHOOK_SHM_NAME"))
  end ∧
  ∀ v, getenv "MEMHOOK_CALLSTACK_UNWINDER_CACHE_SIZE" = Some v → strtoul v ≠ 0.

(** A segment that was not there before, under its name. *)
Definition new_segment (k : Creators.kind) (name : string) (m : machine D) (seg : Creators.segment)
    (m' : machine D) : Prop :=
  Creators.s_kind seg = k ∧ Creators.s_name seg = name ∧
  Creators.s_id seg = Creators.next_segment (m_os m) ∧
  Creators.next_segment (m_os m') = S (Creators.next_segment (m_os m)) ∧
  Creators.names k (m_os m') !! name = Some (Creators.s_id seg).

Lemma create_spec k path size (m : machine D) :
  let kd := match k with Creators.MMF => MMFKind | Creators.SHM => SHMKind end in
  ∃ seg m', create (kd path size) m = Some (seg, newBasicMappedStorage path size, m') ∧
    new_segment k (string_of path) m seg m'.
Proof.
  intros kd. destruct (Creators.open_storage_spec k (string_of path) (m_os m))
    as (seg & o' & Ho & -> & Hid & Hn & _).
  exists (Creators.mkSegment k (string_of path) (Creators.next_segment (m_os m))).
  eexists. split; [unfold kd, create, NewMMFMappedStorage, NewSHMMappedStorage, new_mapped_storage;
    destruct k; rewrite Ho; done|].
  split_and!; [done|done|done|done|]. simpl. by rewrite Hn, lookup_insert_eq.
Qed.

Lemma start_program_spec k name (m : machine D) :
  local_env k name →
  ∃ seg (st : BasicMappedStorage D) o timeout max pol m',
    start_program getenv ChronoDurationFromString m =
      (Some seg, newEngine (C := C) (P := P) (Some st) o timeout max pol, m') ∧
    records st = ∅ ∧ 0 < default 32768 o ∧ in_u 64 max ∧ new_segment k name m seg m'.
Proof.
  intros (Hnet & Hk & Hcache).
  assert (∃ path size, NewStorage getenv =
      (match k with Creators.MMF => MMFKind | Creators.SHM => SHMKind end) path size ∧
      name = string_of path) as (path & size & Hnew & ->).
  { unfold NewStorage. rewrite Hnet. destruct k.
    - destruct Hk as (path & -> & ->). by eexists _, _.
    - destruct Hk as [-> ->]. by eexists _, _. }
  destruct (create_spec k path size m) as (seg & m' & Hc & Hseg).
  destruct (OnInitialize_spec (C := C) (P := P) getenv
    (λ _, Some (newBasicMappedStorage (C := D) path size)) ChronoDurationFromString Hcache)
    as (o & timeout & max & pol & Hinit & Ho & Hmax).
  exists seg, (newBasicMappedStorage path size), o, timeout, max, pol, m'.
  unfold start_program. rewrite Hnew, Hc, Hinit.
  split_and!; [done|exact (mi_map_empty (key := ti_address))|done|done|exact Hseg].
Qed.

(** The run of a program up to a moment: its database is under its name, and
    holds some of the live allocations.  At the end, whatever has happened on
    the machine meanwhile, it holds all of them. *)
Lemma run_program_spec k name evs now (m : machine D) :
  local_env k name → trace_ok get_proc_name dladdr ∅ evs →
  ∃ seg e m1 st1 st2,
    run_program evs m = Some (Some seg, e, m1) ∧ new_segment k name m seg m1 ∧
    m_memory m1 !! Creators.s_id seg = Some (m_container st1) ∧
    records st1 ⊆ live evs ∧
    (∀ a t, live evs !! a = Some t → records st1 !! a = None → is_Some (mi_find a (m_cache e))) ∧
    (∀ m' : machine D, end_program now (Some seg, e, m') =
       Some (mkMachine (Creators.close_storage seg (m_os m'))
               (<[Creators.s_id seg := m_container st2]> (m_memory m')))) ∧
    records st2 = live evs.
Proof.
  intros Henv Hok.
  destruct (start_program_spec k name m Henv)
    as (seg & st & o & timeout & max & pol & m0 & Hstart & Hempty & Ho & Hmax & Hseg).
  pose proof (newEngine_inv (C := C) (P := P) get_proc_name dladdr (Some st) o timeout max pol I Ho Hmax)
    as Hinv.
  pose proof (newEngine_view (C := C) (P := P) get_proc_name dladdr (Some st) o timeout max pol) as Hv0.
  cbn [from_option] in Hv0. rewrite Hempty in Hv0. rewrite <- Hv0 in Hok.
  destruct (run_events_spec get_proc_name dladdr ticks _ _ Hinv Hok) as (e & Hrun & Hinv1 & [_ Hkeep] & Hv1).
  rewrite Hv0 in Hv1.
  destruct (proj2 Hkeep) as [st1 Hst1]; [by eexists|].
  destruct (OnDestroy_spec get_proc_name dladdr ticks now e Hinv1) as (e2 & st2 & Hd & _ & Hr);
    [by eexists|].
  eexists seg, e, _, st1, st2. unfold run_program. rewrite Hstart, Hrun.
  cbn [mbind option_bind]. rewrite Hst1. split; [done|]. split; [exact Hseg|].
  unfold publish. cbn [m_os m_memory]. rewrite lookup_insert_eq. split_and!; [done|..].
  - rewrite <- Hv1. pose proof (stored_view get_proc_name dladdr e Hinv1) as Hsub.
    unfold stored in Hsub. by rewrite Hst1 in Hsub.
  - intros a t Ha Hno. rewrite <- Hv1 in Ha. eapply (view_cached get_proc_name dladdr); [exact Ha|].
    unfold stored. by rewrite Hst1.
  - intros m'. unfold end_program. by rewrite Hd.
  - rewrite Hr. exact Hv1.
Qed.

(** A file stays under its name when its database is closed, and a name of
    shared memory is removed. *)
Lemma close_storage_names k name (m m' : machine D) seg o :
  new_segment k name m seg m' →
  Creators.names k (Creators.close_storage seg o) !! name =
    match k with Creators.MMF => Creators.files o !! name | Creators.SHM => None end.
Proof.
  intros (Hk & Hn & _). unfold Creators.close_storage, Creators.MappingCleaner. rewrite Hk.
  destruct k; [done|]. simpl. by rewrite Hn, lookup_delete_eq.
Qed.

(** What the viewer shows of the database of a name: the records [recs], in
    the order of the sort flag, with the names of their frames from the
    tables of the database. *)
Definition shows (k : Creators.kind) (name : string) (m : machine D) (opts : variables_map)
    (v : MappedViewBase) (recs : gmap Z BasicTraceInfo) : Prop :=
  ∃ id c l, Creators.names k (m_os m) !! name = Some id ∧ m_memory m !! id = Some c ∧
    (∀ t, t ∈ l ↔ recs !! ti_address t = Some t) ∧ NoDup l ∧ Sorted (by_key (sort_key v)) l ∧
    memview m opts = Some (mjoin (print_record c v <$> select (m_options v) l)).

Lemma shows_records k name opts v (m : machine D) id st :
  listing k name opts v → (∀ i, intr i = false) →
  Creators.names k (m_os m) !! name = Some id → m_memory m !! id = Some (m_container st) →
  map_Forall (λ _, Memview.record_ok) (records st) → shows k name m opts v (records st).
Proof.
  intros Hl Hi Hn Hm Hr.
  destruct (sorted_records (m_container st) v) as (Hs & Hd & Hin).
  exists id, (m_container st), (mi_range (sort_index v) (indexed_container (m_container st))).
  split_and!; [done|done|exact Hin|done|done|]. by eapply memview_listing.
Qed.


(** A database in shared memory is there as long as the program runs.  The
    viewer, also without any option, finds it then, and what it lists are
    live allocations, those that have left the cache of the program; when the
    program has ended the viewer fails. *)
Theorem shared_memory_lasts_for_the_run name opts v evs now (m : machine D) :
  local_env Creators.SHM name → trace_ok get_proc_name dladdr ∅ evs → Forall stamped evs →
  listing Creators.SHM name opts v → (∀ i, intr i = false) →
  ∃ seg e m1 recs m2, run_program evs m = Some (Some seg, e, m1) ∧
    shows Creators.SHM name m1 opts v recs ∧ recs ⊆ live evs ∧
    (∀ a t, live evs !! a = Some t → recs !! a = None → is_Some (mi_find a (m_cache e))) ∧
    end_program now (Some seg, e, m1) = Some m2 ∧ memview m2 opts = None.
Proof.
  intros Henv Hok Hs Hl Hi.
  destruct (run_program_spec Creators.SHM name evs now m Henv Hok)
    as (seg & e & m1 & st1 & st2 & Hrun & Hseg & Hm1 & Hsub & Hcache & Hend & _).
  eexists seg, e, m1, (records st1), _. split_and!; [done| |done|done|by apply Hend|].
  - eapply shows_records; [done|done|apply Hseg|exact Hm1|].
    assert (map_Forall (λ _, Memview.record_ok) (live evs)) as Hall
      by (apply live_records_ok; [by apply map_Forall_empty|done|done]).
    intros a t Ha. apply (Hall a). by eapply lookup_weaken.
  - eapply memview_missing; [done|]. cbn [m_os]. by rewrite (close_storage_names _ _ _ _ _ _ Hseg).
Qed.


End properties.

(** ** Examples *)

Definition demo_machine : machine ref_index := mkMachine (Creators.mkOS ∅ ∅ 0) ∅.

(** A program with its database in the file [db]. *)
Definition demo_file_env (name : string) : option bytes :=
  if decide (name = "MEMHOOK_FILE"%string) then Some [100; 98] else None.

(** A program with no variable set. *)
Definition demo_empty_env (name : string) : option bytes := None.

Abbreviation demo_run env :=
  (run_program (D := ref_index) (C := ref_cache) (P := ref_procs) env (λ _ _, None)
     (Some demo_proc_name) demo_dladdr 10).
Abbreviation demo_end := (end_program (Some demo_proc_name) demo_dladdr 10).
Abbreviation demo_shows :=
  (shows (λ _, 60) (λ _, 0) 1000 (λ t, t / 1000000000) (λ t, t * 1000000000)
     (λ t, mkTm 70 0 1 0 0 t) (λ _, None) (λ _, false) (G := ref_groups) (λ _, (4096, 1024))).
Abbreviation demo_live := (fold_left (live_event (Some demo_proc_name) demo_dladdr) demo_events ∅).


(** A child that leaves one block. *)
Abbreviation demo_child := [EvAlloc 4096 8 60 demo_stack].


(** The viewer without any option. *)
Lemma shared_memory_lasts_for_the_run_witness :
  ∃ seg e m1 recs m2, demo_run demo_empty_env demo_events demo_machine = Some (Some seg, e, m1) ∧
    demo_shows Creators.SHM "ShmMemHook" m1 [] newMappedViewBase recs ∧ recs ⊆ demo_live ∧
    demo_end 50 (Some seg, e, m1) = Some m2 ∧ Creators.names Creators.SHM (m_os m2) = ∅.
Proof.
  destruct (shared_memory_lasts_for_the_run (D := ref_index) (C := ref_cache) (P := ref_procs)
    demo_empty_env (λ _ _, None) (Some demo_proc_name) demo_dladdr 10
    (λ _, 60) (λ _, 0) 1000 (λ t, t / 1000000000) (λ t, t * 1000000000) (λ t, mkTm 70 0 1 0 0 t)
    (λ _, None) (λ _, false) (G := ref_groups) (λ _, (4096, 1024)) "ShmMemHook" [] newMappedViewBase
    demo_events 50 demo_machine)
    as (seg & e & m1 & recs & m2 & Hrun & Hs & Hsub & _ & Hend & _);
    [by split_and!|exact demo_trace_ok|by_decide|by split_and!; [split|..|constructor]|done|].
  exists seg, e, m1, recs, m2. split_and!; [exact Hrun|exact Hs|exact Hsub|exact Hend|].
  revert Hend. vm_compute in Hrun. injection Hrun as <- <- <-. vm_compute. by intros [= <-].
Defined.

End Leaks.
