(* ===== verification/Served.v ===== *)
(** * From the clients of a server to the viewer

    A server that keeps the databases of its clients in files
    (src/memdb with [NewMMFMappedStorageCreator]), and the viewer that opens
    one of the files: files [NetworkStorage], [Session], [Creators], [Storage]
    and [Memview] together, on the machine of file [Leaks].

    A session asks the creator for a database when its client's first request
    arrives and works on the container of that segment; sessions are served
    each by itself (file [Server]) and create their databases one after the
    other (see file [Racing] for what happens otherwise). *)
From S2P Require Import Prelude Boost TraceInfo Serialization Network Storage Session NetworkStorage.
From S2P Require Import Unwinder Engine Creators Memview Leaks.

Module Served.
Import Network Storage Session NetworkStorage Memview Leaks.

Section served.
Context {D : Type} `{!MultiIndex D BasicTraceInfo Z}.
(** the parts of a path, the process id of the server, and the bound on the
    names that are tried *)
Context (extension stem : string → string) (server_pid : Z) (fuel : nat).
Context (path : string) (sz : Z).

(** A client: its process id, and the database its session has made of its
    requests. *)
Abbreviation client := (Z * BasicMappedStorage D)%type.

(** [OnNewStorage (pid)]: the database of one client, from its creation to the
    end of the session. *)
Definition serve_client (cl : client) (m : machine D) : option (Creators.segment * machine D) :=
  '(seg, o) ← Creators.New extension stem server_pid fuel (Creators.NewMMFMappedStorageCreator path sz)
                (u32 cl.1) (m_os m);
  let m := publish seg cl.2 (mkMachine o (m_memory m)) in
  Some (seg, mkMachine (Creators.close_storage seg (m_os m)) (m_memory m)).

Fixpoint serve_clients (cls : list client) (m : machine D) : option (list Creators.segment * machine D) :=
  match cls with
  | [] => Some ([], m)
  | cl :: cls =>
      '(seg, m) ← serve_client cl m;
      '(segs, m) ← serve_clients cls m;
      Some (seg :: segs, m)
  end.

(** ** Lemmas *)

(** A container that is in the file of a name, and that no later segment
    replaces. *)
Definition kept (m : machine D) (name : string) (id : nat) (c : MappedContainer D) : Prop :=
  Creators.files (m_os m) !! name = Some id ∧ m_memory m !! id = Some c ∧
  (id < Creators.next_segment (m_os m))%nat.

Lemma serve_client_spec cl (m : machine D) :
  (stdpp.base.size (Creators.files (m_os m)) < fuel)%nat → Z.of_nat fuel ≤ 2 ^ 64 →
  ∃ seg m', serve_client cl m = Some (seg, m') ∧
    kept m' (Creators.s_name seg) (Creators.s_id seg) (m_container cl.2) ∧
    (∀ name id c, kept m name id c → kept m' name id c) ∧
    stdpp.base.size (Creators.files (m_os m')) = S (stdpp.base.size (Creators.files (m_os m))).
Proof.
  intros Hf Hb. unfold serve_client, Creators.New. simpl.
  destruct (Creators.GenerateUniquePath_spec extension stem server_pid fuel path (u32 cl.1) (m_os m) Hf Hb)
    as (p & -> & Hp & _).
  destruct (Creators.open_storage_spec Creators.MMF p (m_os m)) as (seg & o' & -> & -> & Hid & Hn & _).
  simpl in Hn. eexists _, _. split; [done|]. unfold kept, Creators.close_storage. simpl. rewrite Hn, Hid, lookup_insert_eq.
  split_and!; [done|apply lookup_insert_eq|lia| |by rewrite map_size_insert_None].
  intros name id c (H1 & H2 & H3). split_and!; [|by rewrite lookup_insert_ne by lia|lia].
  rewrite lookup_insert_ne; [done|]. intros ->. congruence.
Qed.

Lemma serve_clients_spec cls (m : machine D) :
  (stdpp.base.size (Creators.files (m_os m)) + length cls < fuel)%nat → Z.of_nat fuel ≤ 2 ^ 64 →
  ∃ segs m', serve_clients cls m = Some (segs, m') ∧
    (∀ name id c, kept m name id c → kept m' name id c) ∧
    Forall2 (λ cl seg, kept m' (Creators.s_name seg) (Creators.s_id seg) (m_container cl.2)) cls segs.
Proof.
  revert m. induction cls as [|cl cls IH]; intros m Hf Hb; simpl in *; [by exists [], m|].
  destruct (serve_client_spec cl m) as (seg & m1 & -> & Hk & Hkeep & Hs); [lia|done|].
  destruct (IH m1) as (segs & m2 & Hr & Hkeep2 & Hall); [lia|done|].
  simpl. rewrite Hr. exists (seg :: segs), m2. split; [done|]. split; [eauto|].
  constructor; [|done]. by apply Hkeep2.
Qed.

(** Updates whose records the viewer can show. *)
Definition shown_op (op : storage_op) : Prop :=
  match op with OpAdd _ _ _ ts => time_ok ts | _ => True end.

#[export] Instance shown_op_dec op : Decision (shown_op op).
Proof. destruct op; simpl; apply _. Defined.

Abbreviation rows_ok := (map_Forall (λ _ : Z, Memview.record_ok)).

Lemma spec_op_rows op m : op_ok op → shown_op op → rows_ok m → rows_ok (spec_op m op).
Proof.
  intros Hok Ht Hm. destruct op as [a n cs ts|a|a n]; simpl in *.
  - unfold spec_add. destruct (m !! a) eqn:E; [done|]. apply map_Forall_insert_2; [|done].
    destruct Hok as (_ & (_ & Hn & _) & _). by split.
  - by apply map_Forall_delete.
  - intros b t. unfold spec_update. rewrite lookup_alter_Some.
    intros [(-> & t' & Ht' & ->)|[_ Ht']]; [|by apply (Hm b)]. destruct (Hm _ _ Ht'), Hok.
    by split.
Qed.

Context {DL : MultiIndexLaws D BasicTraceInfo Z ti_address container_indices}.

Lemma run_ops_rows ops (st : BasicMappedStorage D) :
  Forall op_ok ops → Forall shown_op ops → rows_ok (records st) →
  records (run_ops ops st) = fold_left spec_op ops (records st) ∧ rows_ok (records (run_ops ops st)).
Proof.
  intros Hok. revert st. induction Hok as [|op ops Hop Hok IH]; intros st Hs Hr; [done|].
  apply Forall_cons in Hs as [Hso Hs]. destruct (run_op_laws op st) as [_ Hrec]; [done..|].
  destruct (IH (run_op st op)) as [H1 H2]; [done|rewrite Hrec; by apply spec_op_rows|].
  unfold run_ops in *. cbn [fold_left]. split; [by rewrite H1, Hrec|done].
Qed.

(** ** Property *)

Context (parse_duration parse_time : string → Z) (view_now : Z).
Context (to_time_t from_time_t : Z → Z) (localtime_r : Z → tm).
Context (cxa_demangle : bytes → option bytes) (intr : nat → bool).
Context {G : Type} `{!MultiIndex G AggregatedTraceInfo (list (Z * Z))}.
Context (usage : MappedContainer D → Z * Z).
Context `{AsioBufferLaws} (name : Z → bytes).

(** The empty database of a session. *)
Abbreviation New_storage := (λ pid, newBasicMappedStorage (C := D) (name pid) sz).

(** A client with its calls, all of which have arrived: [conn] is a state of
    its connection in which nothing is left on the wire, and [st] is the
    database of its session. *)
Record run := mkRun {
  r_pid : Z; r_now : Z; r_ops : list storage_op;
  r_connection : connection (BasicMappedStorage D);
  r_storage : BasicMappedStorage D;
}.

Definition delivered (r : run) : Prop :=
  in_s 64 (r_now r) ∧ Forall op_ok (r_ops r) ∧ Forall shown_op (r_ops r) ∧
  rtc (net_step New_storage) (open_connection (sent (r_pid r) (r_now r) (r_ops r))) (r_connection r) ∧
  c_wire (r_connection r) = [] ∧ storage_ (c_session (r_connection r)) = Some (r_storage r).

Lemma delivered_records r :
  delivered r → records (r_storage r) = fold_left spec_op (r_ops r) ∅ ∧ rows_ok (records (r_storage r)).
Proof.
  intros (Hn & Hok & Hs & Hr & Hw & Hst).
  pose proof (sent_delivered New_storage _ _ _ _ Hn Hok Hr Hw) as Hd.
  rewrite Hst in Hd. simplify_eq Hd. intros ->.
  assert (records (New_storage (u32 (r_pid r))) = ∅) as He by exact (mi_map_empty (key := ti_address)).
  destruct (run_ops_rows (r_ops r) (New_storage (u32 (r_pid r))) Hok Hs) as [H1 H2].
  { rewrite He. by apply map_Forall_empty. }
  by rewrite H1, He in *.
Qed.


End served.

(** ** Example *)

(** Two clients with the same process id and the same calls (of two
    machines), whose requests arrive in one piece. *)
Definition demo_New_file (pid : Z) : BasicMappedStorage ref_index := newBasicMappedStorage [] 4096.

Definition demo_client : run (D := ref_index) :=
  let wire := sent 7 1 demo_client_ops in
  let r := OnReadComplete demo_New_file CbParseOutbound no_error (receive wire newSession) in
  mkRun 7 1 demo_client_ops (mkConnection r.1 r.2 (drop (length wire) wire))
    (default (demo_New_file 7) (storage_ r.2)).

Lemma demo_client_delivered : delivered 4096 (λ _, []) demo_client.
Proof.
  split_and!; [by_decide..| |by_decide|vm_compute; reflexivity].
  apply rtc_once. unfold demo_client. cbn [r_connection r_pid r_now r_ops].
  apply net_read; [vm_compute; discriminate|done|]. rewrite take_ge by done. apply surjective_pairing.
Qed.

(** The second client's file. *)
Abbreviation demo_second := "mem.7.db"%string.

Abbreviation demo_served_clients :=
  (serve_clients Creators.demo_extension Creators.demo_stem 99 7 "mem.db" 4096
     [(7, r_storage demo_client); (7, r_storage demo_client)] demo_machine).

Lemma demo_file_names :
  option_map (λ p, map Creators.s_name p.1) demo_served_clients = Some ["mem.db"; demo_second]%string.
Proof. vm_compute. reflexivity. Qed.


End Served.
