(* ===== verification/Watched.v ===== *)
(** * A viewer and a running program

    What a viewer sees of a program that is running: files [Engine] and
    [Sharing] together.

    The engine of the program, whatever thread calls it, works under the mutex
    of its cache, so it issues its updates of the database one after the
    other; each of them is the sequence of writes of file [Sharing], under the
    interprocess mutex, and a viewer may look in between, also in the middle
    of a flush.  To have the sequence of the updates, the engine is given a
    database that keeps a log of them. *)
From S2P Require Import Prelude Boost TraceInfo Serialization Network Storage Unwinder Engine.
From S2P Require Import Signals Sharing.

Module Watched.
Import Storage Unwinder Engine.

Lemma prefix_app_cases {A} (q l1 l2 : list A) :
  q `prefix_of` l1 ++ l2 → q `prefix_of` l1 ∨ ∃ r, q = l1 ++ r ∧ r `prefix_of` l2.
Proof.
  intros [k Hk]. symmetry in Hk. apply app_eq_inv in Hk as [(r & -> & ->)|(r & -> & ->)].
  - right. exists r. split; [done|]. by eexists.
  - left. by eexists.
Qed.

(** ** A database with a log *)

Section logged.
Context {D : Type} `{!MultiIndex D BasicTraceInfo Z}.

Record logged := mkLogged {
  l_storage : BasicMappedStorage D;
  l_ops : list storage_op;
}.

(** An operation, and its entry in the log. *)
Definition log_op (op : storage_op) (s : logged) : logged :=
  mkLogged (run_op (l_storage s) op) (l_ops s ++ [op]).

#[export] Instance logged_ops : MappedStorage logged := {
  Add a n cs ts s := log_op (OpAdd a n cs ts) s;
  Remove a s := (log_op (OpRemove a) s, (Remove a (l_storage s)).2);
  UpdateSize a n s := (log_op (OpUpdateSize a n) s, (UpdateSize a n (l_storage s)).2);
  Clear s := mkLogged (Clear (l_storage s)) (l_ops s);
  Flush s := mkLogged (Flush (l_storage s)) (l_ops s);
  GetName s := GetName (l_storage s);
}.

Lemma run_op_logged op (s : logged) : run_op s op = log_op op s.
Proof. by destruct op. Qed.

Lemma run_ops_logged ops (s : logged) :
  run_ops ops s = mkLogged (run_ops ops (l_storage s)) (l_ops s ++ ops).
Proof.
  revert s. induction ops as [|op ops IH]; intros s.
  - rewrite app_nil_r. by destruct s.
  - unfold run_ops in *. cbn [fold_left]. rewrite run_op_logged, IH. simpl. by rewrite <- app_assoc.
Qed.

Context {DL : MultiIndexLaws D BasicTraceInfo Z ti_address container_indices}.

#[export] Instance logged_laws : StorageLaws logged.
Proof.
  refine {| storage_inv _ := True; records s := records (l_storage s) |}; try done.
  - intros. by apply Add_records.
  - intros. by apply Remove_records.
  - intros. by apply UpdateSize_records.
Defined.

End logged.
Arguments logged : clear implicits.

(** ** The updates of the engine *)

Section updates.
Context {D : Type} `{!MultiIndex D BasicTraceInfo Z}.
Context {DL : MultiIndexLaws D BasicTraceInfo Z ti_address container_indices}.
Context {C : Type} `{!MultiIndex C TraceInfo Z}.
Context {CL : MultiIndexLaws C TraceInfo Z e_address cache_indices}.
Context {P : Type} `{!SeqIndex P UnwProcNameInfo Z}.
Context {PL : SeqIndexLaws P UnwProcNameInfo Z pni_ip}.
Context (get_proc_name : option (Z → option (bytes * Z))).
Context (dladdr : Z → option (Z * option bytes)) `{!DladdrLaws dladdr} (ticks : Z).

Abbreviation engine := (Engine (logged D) C P).
Implicit Types e : engine.

Definition is_add (op : storage_op) : Prop := match op with OpAdd _ _ _ _ => True | _ => False end.

(** [s'] is [s] after some records have been added. *)
Definition added (s s' : logged D) : Prop := ∃ adds, Forall is_add adds ∧ s' = run_ops adds s.

Lemma added_refl s : added s s.
Proof. by exists []. Qed.

Lemma added_step a n cs ts s s' : added (Add a n cs ts s) s' → added s s'.
Proof. intros (adds & Hadds & ->). exists (OpAdd a n cs ts :: adds). by split; [constructor|]. Qed.

Lemma flush_loop_added dump_all range n s e e' s' n' passed :
  flush_loop get_proc_name dladdr dump_all range n s e = Some (e', s', n', passed) → added s s'.
Proof.
  revert n s e passed. induction range as [|t range IH]; intros n s e passed; cbn [flush_loop].
  { intros [= <- <- <- <-]. apply added_refl. }
  destruct (dump_all || _); [|intros [= <- <- <- <-]; apply added_refl].
  destruct (if decide _ then _ else _) as [[cs e1]|]; [|done].
  destruct (flush_loop _ _ _ range _ _ e1) as [[[[e2 s2] n2] passed2]|] eqn:Hl; [|done].
  intros [= <- <- <- <-]. eapply added_step, IH. exact Hl.
Qed.

Lemma FlushLocalCache_added now timeout dump_all e e' s :
  FlushLocalCache get_proc_name dladdr ticks now timeout dump_all e = Some e' → m_storage e = Some s →
  ∃ s', m_storage e' = Some s' ∧ added s s'.
Proof.
  unfold FlushLocalCache. intros Hf Hs. rewrite Hs in Hf.
  destruct (flush_loop _ _ _ _ _ _ _) as [[[[e1 s1] n1] passed]|] eqn:Hl; [|done].
  injection Hf as <-. exists s1. split; [|by eapply flush_loop_added].
  simpl. destruct (n1 =? 0); [done|]. by destruct s1.
Qed.

Lemma DoHookAlloc_added mem n now stack e e' s :
  DoHookAlloc get_proc_name dladdr ticks mem n now stack e = Some e' → m_storage e = Some s →
  ∃ s', m_storage e' = Some s' ∧ added s s'.
Proof.
  unfold DoHookAlloc. intros Ha Hs. destruct (mem =? 0).
  { injection Ha as <-. exists s. split; [done|apply added_refl]. }
  destruct (GetCallStackInfo _ _ _ _ _) as [[cs u]|]; [|done].
  by eapply FlushLocalCache_added.
Qed.

(** The updates of one call: at most one that changes what is there, then
    records that are new. *)
Definition call_updates (ops : list storage_op) : Prop :=
  ∃ op adds, Forall is_add adds ∧ (ops = adds ∨ ops = op :: adds).

Lemma DoHookFree_updates mem e s :
  m_storage e = Some s →
  m_storage (DoHookFree mem e) = Some s ∨
  m_storage (DoHookFree mem e) = Some (run_op s (OpRemove mem)).
Proof.
  intros Hs. unfold DoHookFree. destruct (mem =? 0); [by left|].
  destruct (mi_find mem _); [by left|]. rewrite Hs. by right.
Qed.

Lemma DoHookUpdateSize_updates mem n e s :
  m_storage e = Some s →
  m_storage (DoHookUpdateSize mem n e) = Some s ∨
  m_storage (DoHookUpdateSize mem n e) = Some (run_op s (OpUpdateSize mem n)).
Proof.
  intros Hs. unfold DoHookUpdateSize. destruct (mem =? 0); [by left|].
  destruct (mi_find mem _); [by left|]. rewrite Hs. by right.
Qed.

Lemma one_update op e s (e' : engine) :
  m_storage e' = Some s ∨ m_storage e' = Some (run_op s op) →
  ∃ ops, m_storage e' = Some (run_ops ops s) ∧ call_updates ops.
Proof.
  intros [Hs|Hs]; [exists []|exists [op]]; (split; [done|]); exists op, []; auto.
Qed.

Lemma run_event_updates ev e e' s :
  run_event get_proc_name dladdr ticks ev e = Some e' → m_storage e = Some s →
  ∃ ops, m_storage e' = Some (run_ops ops s) ∧ call_updates ops.
Proof.
  intros He Hs. destruct ev as [mem n now stack|mem|old new n now stack|mem n|]; simpl in He.
  - destruct (DoHookAlloc_added _ _ _ _ _ _ _ He Hs) as (s' & Hs' & adds & Hadds & ->).
    exists adds. split; [done|]. exists (OpRemove 0), adds. auto.
  - injection He as <-. by eapply one_update, DoHookFree_updates.
  - unfold DoHookRealloc in He. destruct (old =? new).
    { injection He as <-. by eapply one_update, DoHookUpdateSize_updates. }
    destruct (DoHookFree_updates old e s Hs) as [Hf|Hf];
      destruct (DoHookAlloc_added _ _ _ _ _ _ _ He Hf) as (s' & Hs' & adds & Hadds & ->).
    + exists adds. split; [done|]. exists (OpRemove 0), adds. auto.
    + exists (OpRemove old :: adds). split; [done|]. exists (OpRemove old), adds. auto.
  - injection He as <-. by eapply one_update, DoHookUpdateSize_updates.
  - injection He as <-. exists []. split; [done|]. exists (OpRemove 0), []. auto.
Qed.

(** Adding records keeps the ones that are there. *)
Lemma adds_keep adds (s : BasicMappedStorage D) :
  Forall is_add adds → records s ⊆ records (run_ops adds s).
Proof.
  intros Hadds. revert s. induction Hadds as [|op adds Hop Hadds IH]; intros s; [done|].
  etrans; [|apply IH]. destruct op as [a n cs ts| |]; [|done..].
  change (records (run_op s (OpAdd a n cs ts))) with (basic_records (basic_Add a n cs ts s)).
  rewrite basic_Add_records. unfold spec_add. destruct (basic_records s !! a) eqn:Ha; [done|].
  by apply insert_subseteq.
Qed.

(** In the middle of a call the database holds nothing that it does not hold
    before or after it. *)
Lemma updates_between ops q (s : BasicMappedStorage D) :
  call_updates ops → q `prefix_of` ops → q = [] ∨ records (run_ops q s) ⊆ records (run_ops ops s).
Proof.
  intros (op & adds & Hadds & Hops) Hq.
  assert (∀ q' (s' : BasicMappedStorage D), q' `prefix_of` adds →
    records (run_ops q' s') ⊆ records (run_ops adds s')) as Hmono.
  { intros q' s' (rest & ->). apply Forall_app in Hadds as [_ Hrest].
    unfold run_ops. rewrite fold_left_app. by apply adds_keep. }
  destruct Hops as [-> | ->]; [right; by apply Hmono|].
  destruct q as [|op' q]; [by left|]. right.
  apply prefix_cons_inv_1 in Hq as Heq. apply prefix_cons_inv_2 in Hq. subst op'.
  by apply (Hmono q (run_op s op)).
Qed.

(** ** What is in the database during a run *)

Abbreviation live evs := (fold_left (live_event get_proc_name dladdr) evs ∅).
Abbreviation run_events := (run_events get_proc_name dladdr ticks).
Abbreviation trace_ok := (trace_ok get_proc_name dladdr).

Lemma run_events_app evs1 evs2 e e1 :
  run_events evs1 e = Some e1 → run_events (evs1 ++ evs2) e = run_events evs2 e1.
Proof.
  revert e. induction evs1 as [|ev evs1 IH]; intros e; simpl; [by intros [= ->]|].
  destruct (run_event _ _ _ ev e); [apply IH|done].
Qed.

Lemma trace_ok_app evs1 evs2 m :
  trace_ok m (evs1 ++ evs2) ↔
  trace_ok m evs1 ∧ trace_ok (fold_left (live_event get_proc_name dladdr) evs1 m) evs2.
Proof. revert m. induction evs1 as [|ev evs1 IH]; intros m; simpl; [tauto|]. rewrite IH. tauto. Qed.

(** The log of a run, and what every part of it leaves in the database. *)
Definition explained (d : BasicMappedStorage D) (evs : list event) (e : engine) : Prop :=
  ∃ ops, m_storage e = Some (mkLogged (run_ops ops d) ops) ∧
    ∀ q, q `prefix_of` ops → ∃ evs', evs' `prefix_of` evs ∧ records (run_ops q d) ⊆ live evs'.

Lemma explained_event d evs ev e e' :
  explained d evs e → run_event get_proc_name dladdr ticks ev e = Some e' →
  engine_inv get_proc_name dladdr e' → engine_view get_proc_name dladdr e' = live (evs ++ [ev]) →
  explained d (evs ++ [ev]) e'.
Proof.
  intros (ops & Hst & Hq) He Hinv Hview.
  destruct (run_event_updates _ _ _ _ He Hst) as (new & Hst' & Hnew).
  rewrite run_ops_logged in Hst'. simpl in Hst'.
  assert (∀ l : list storage_op, run_ops l (run_ops ops d) = run_ops (ops ++ l) d) as Happ.
  { intros l. symmetry. apply fold_left_app. }
  exists (ops ++ new). rewrite Happ in Hst'. split; [done|].
  assert (records (run_ops (ops ++ new) d) ⊆ live (evs ++ [ev])) as Hafter.
  { rewrite <- Hview. pose proof (stored_view get_proc_name dladdr e' Hinv) as Hs.
    unfold stored in Hs. by rewrite Hst' in Hs. }
  intros q [Hpre|(r & -> & Hr)]%prefix_app_cases.
  - destruct (Hq q Hpre) as (evs' & Hevs' & ?). exists evs'. split; [by apply prefix_app_r|done].
  - destruct (updates_between new r (run_ops ops d) Hnew Hr) as [->|Hsub].
    + rewrite app_nil_r. destruct (Hq ops (reflexivity _)) as (evs' & Hevs' & ?).
      exists evs'. split; [by apply prefix_app_r|done].
    + rewrite !Happ in Hsub. exists (evs ++ [ev]). split; [done|]. by etrans.
Qed.

Lemma explained_run d evs e0 :
  engine_inv get_proc_name dladdr e0 → engine_view get_proc_name dladdr e0 = ∅ →
  m_storage e0 = Some (mkLogged d []) → trace_ok ∅ evs →
  ∃ e, run_events evs e0 = Some e ∧ engine_inv get_proc_name dladdr e ∧
    engine_view get_proc_name dladdr e = live evs ∧ explained d evs e.
Proof.
  intros Hinv Hv Hst. induction evs as [|ev evs IH] using rev_ind; intros Hok.
  - exists e0. split_and!; [done..|]. exists []. split; [done|]. intros q ->%prefix_nil_inv.
    exists []. split; [done|]. simpl.
    pose proof (stored_view get_proc_name dladdr e0 Hinv) as Hs. unfold stored in Hs.
    by rewrite Hst, Hv in Hs.
  - apply trace_ok_app in Hok as [Hok [Hev _]].
    destruct (IH Hok) as (e1 & Hrun & Hinv1 & Hv1 & Hex). rewrite <- Hv1 in Hev.
    destruct (run_event_spec get_proc_name dladdr ticks ev e1 Hinv1 Hev) as (e & He & Hinv2 & _ & Hv2).
    rewrite Hv1 in Hv2. exists e. rewrite (run_events_app _ _ _ _ Hrun). simpl. rewrite He.
    assert (engine_view get_proc_name dladdr e = live (evs ++ [ev])) as Hv' by by rewrite fold_left_app.
    split_and!; [done..|]. by eapply explained_event.
Qed.

(** ** Property *)


End updates.

(** ** Example *)

(** A program has written an update, and a viewer has looked. *)
Definition seen_after {D} `{!MultiIndex D BasicTraceInfo Z} (op : storage_op) (d : BasicMappedStorage D)
    : @Sharing.system D :=
  Sharing.mkSystem (run_op d op) (Some (1%nat, 0%nat))
    [Sharing.mkProcess true [Sharing.Leaving (Sharing.Update op); Sharing.Idle];
     Sharing.mkProcess true [Sharing.Seen false]] [op] [(false, run_op d op)].

Lemma seen_after_reachable {D} `{!MultiIndex D BasicTraceInfo Z} sent op (d : BasicMappedStorage D) :
  rtc (Sharing.step sent) (Sharing.start d [2%nat; 1%nat]) (seen_after op d).
Proof.
  etrans; [apply (Sharing.halfway_reachable _ op d (Sharing.writes op) []); by rewrite app_nil_r|].
  rewrite Sharing.run_writes_op. unfold Sharing.halfway.
  eapply rtc_l; [eapply (Sharing.step_thread _ _ 0 0), Sharing.t_unlock; by eexists|].
  eapply rtc_l; [eapply (Sharing.step_thread _ _ 1 0), (Sharing.t_mask _ _ _ (Sharing.View false)); by eexists|].
  eapply rtc_l; [eapply (Sharing.step_thread _ _ 1 0), Sharing.t_handler; by eexists|].
  eapply rtc_l; [eapply (Sharing.step_thread _ _ 1 0), Sharing.t_lock_view; [by eexists|done]|].
  apply rtc_once. eapply (Sharing.step_thread _ _ 1 0).
  match goal with |- Sharing.thread_step _ _ ?s _ => apply (Sharing.t_look 1 0 s); by eexists end.
Qed.

(** The first update of the example is one of two of the same flush. *)
Definition demo_flush : storage_op :=
  OpAdd 65536 24 (hook_callstack (Some demo_proc_name) demo_dladdr demo_stack) 1.

Abbreviation demo_run :=
  (run_events (Some demo_proc_name) demo_dladdr 10 demo_events
     (newEngine (C := ref_cache) (P := ref_procs) (Some (mkLogged demo_db [])) (Some 4) 2 100
        kFlushLocalCacheWhen)).

Lemma demo_log :
  (e ← demo_run; s ← m_storage e; Some (l_ops s)) =
    Some [demo_flush; OpAdd 65600 8 [] 2; OpRemove 65600; OpRemove 65536].
Proof. vm_compute. reflexivity. Qed.


End Watched.
